(* ===== verification/_CoqProject ===== *)
-Q . S2P
Prelude.v
Bytes.v
Frontier.v
ClientState.v
Sorting.v
Dedup.v
SessionTable.v
Reservation.v
EpochBuffer.v
Order5State.v
Classifier.v
ClassifierInv.v
ClassifierProofs.v
ClassifierSpec.v
Commit.v
CommitProofs.v
CommitSpec.v
Recovery.v
Pipeline.v
Mailbox.v
MailboxSegment.v
MailboxSequencer.v
GlobalCut.v
Binding.v
Corfu.v
Region.v
CorfuReplica.v
CorfuChain.v
Wire.v
QueueBuffer.v
Rollover.v
StreamParser.v
Delivery.v
Receivers.v
Export.v
EndToEnd.v
DualBuffer.v
PublisherLedger.v
PublisherRollover.v
Retransmit.v
MetadataReplica.v
AckReader.v
ChainReplication.v
ChainDurability.v
AckFrontier.v
DurableAck.v
