(* ===== verification/Prelude.v ===== *)
(** Embarcadero: a shared log over disaggregated memory.

    Paths below are those of the repository (src/embarlet/topic.h and so on).

    * The program

    Clients send batches of messages to brokers.  A broker reserves a byte
    range of a payload segment and a slot of its header ring (the PBR) in
    memory that all hosts share, receives the batch there and publishes the
    header.  For topics of order level 5 one host runs the sequencer: scanners
    poll the rings and push headers into an epoch buffer; when an epoch is
    sealed the sequencer classifies its batches by session - releases those at
    the session's frontier, holds those ahead of it, drops duplicates, fences
    sessions whose gap outlives its lease - and commits what was released: it
    appends to the global order index (GOI), writes export descriptors,
    retires ring slots, moves the completion vector and publishes the session
    table.  An updater thread advances the committed prefix; after a crash the
    sequencer rebuilds its frontiers from the index and the table.  Brokers
    send the committed batches to subscribers, which put the messages of all
    connections in order.  A publisher retains what it sent until it is
    acknowledged; when its session is fenced it opens a new one and sends the
    rest again.  The same
    repository holds three baseline systems (Corfu, Scalog, LazyLog) whose
    control messages travel over mailbox rings in the shared memory.

    * The files

    Prelude.v      Words of fixed width as [Z] with the wrap-around written
                   out, record update, the tactics and the lemmas on lists,
                   options, relations and integers that the others share.
    Bytes.v        Little-endian fields and a byte-addressed memory.
    Frontier.v     Contiguous prefixes: ClientEmitTracker (topic.h),
                   DurableFrontier (common/durable_frontier.h), and the thread
                   that advances committed_seq (topic_order5_commit.cc).
    ClientState.v  OptimizedClientState and the policy predicates of
                   sequencer_utils.h, session keys of topic_session_key.h.
    Sorting.v      std::sort as the class [StdSort]; RadixSorter.
    Dedup.v        FastDeduplicator: open addressing, tombstones, eviction.
    SessionTable.v The session table: topic_session.cc, session_admission.h
                   and the reader of network_manager/session_snapshot.h, also
                   as interleaved claims.
    Reservation.v  bounded_reservation.h: ring slots and segment bytes, as the
                   turns of lock-free loops.
    EpochBuffer.v  EpochBuffer5 of topic.h: scanners, sealer, resetter and
                   sequencer as steps.
    Order5State.v, Classifier.v, ClassifierInv.v, ClassifierProofs.v,
    ClassifierSpec.v
                   ProcessLevel5BatchesShard of topic_order5_sessions.cc, its
                   invariant and what one call guarantees.
    Commit.v, CommitProofs.v, CommitSpec.v
                   CommitEpoch of topic_order5_commit.cc with the ring
                   consumption of topic_order5_scanner.cc.
    Recovery.v     RecoverSequencer5State and the restart, and the reconnect
                   snapshot.
    Pipeline.v     The body of the epoch loop (topic_order5_epoch.cc) with one
                   level-5 shard, and runs of epochs, scans and restarts.
    ChainReplication.v, ChainDurability.v
                   disk_manager/chain_replication.cc with the roles of
                   common/performance_utils.h: the write, sync and token
                   threads of the replicas of one broker, interleaved.
    AckFrontier.v  The frontiers of embarlet/topic.cc, the offsets and the loop
                   of AckThread in network_manager/network_manager.cc.
    DurableAck.v   The chains of all brokers with the acknowledgement thread.
    Mailbox.v      The mailbox ring of cxl_transport/cxl_mailbox_ring.h over a
                   memory that is not coherent: the writer's dirty lines reach
                   it at a fence or whenever the cache evicts them.
    MailboxSegment.v
                   The segment of rings of cxl_transport/cxl_mailbox.cc: its
                   layout, the checks at attach, the broadcast.
    MailboxSequencer.v
                   The poll loop of the baseline coordinators, over a core
                   that is a type class.
    GlobalCut.v    Scalog: scalog_global_ordering_core.cc and its sequencer.
    Binding.v      LazyLog: lazylog_binding_core.cc and its sequencer.
    Corfu.v        Corfu: corfu_sequencer_service.cc as a function and as
                   interleaved calls, corfu_mailbox_sequencer.cc, and
                   client/corfu_ordered_token_gate.h.
    Region.v       The layout of the shared region (region_layout.h,
                   baseline_cxl_layout.h) and its segment allocator.
    CorfuReplica.v disk_manager/corfu_replica_store.cc: the records of the
                   sidecar file as bytes, group writes under failing system
                   calls, replay.
    CorfuChain.v   disk_manager/corfu_ordered_chain.cc over endpoints that are
                   a type class, with any number of callers at once, and the
                   remote endpoint of disk_manager/corfu_replication_client.cc.
    MetadataReplica.v
                   cxl_manager/lazylog_metadata_replica.cc: the sidecar, its
                   replay, and the client that appends to all replicas.
    Wire.v         common/wire_formats.h, the message headers of
                   cxl_datastructure.h, network_manager/batch_validation.h.
    QueueBuffer.v  client/queue_buffer.cc: the producer packs messages into
                   pool slots and pushes batches to the senders' queues.
    Rollover.v     The producer operations of client/queue_buffer.cc against
                   the pause of a session rollover.
    PublisherLedger.v
                   client/publisher_retention.cc, with the acknowledgements of
                   client/publisher_ack.cc and the session open and fence of
                   client/publisher_session.cc: the retained batches, the
                   retire cursor and what is counted as acknowledged.
    PublisherRollover.v
                   What the fence handler of client/publisher_session.cc
                   resubmits.
    Retransmit.v   The batch and the broker that RetransmitThread of
                   client/publisher_session.cc chooses.
    AckReader.v    EpollAckThread of client/publisher_ack.cc: the bytes of an
                   acknowledgement connection.
    Export.v       A broker's side of a subscription: topic_export.cc, the
                   order-0 ring of topic.cc, SubscribeNetworkThread and
                   SendMessageData of network_manager.cc.
    StreamParser.v ParseAndStageOrderedBytes of client/subscriber.cc: a stream
                   that arrives in chunks.
    Delivery.v     The reorder buffer and the ordered consumer of
                   client/subscriber.cc.
    Receivers.v    The parser and the buffer together: one receiver for each
                   connection, one consumer.
    EndToEnd.v     Pipeline.v, Export.v and Receivers.v composed.
    DualBuffer.v   The two buffers of a connection and the order-0 consumer of
                   client/subscriber.h and client/subscriber.cc.

    * How the code is modelled

    A structure is a record with the source's fields, an operation a function
    on the state it changes; a loop whose iterations are bounded is a fold or a
    Fixpoint.  Where threads share memory, each is a machine whose turn is the
    code between two accesses that others can see, and an inductive step
    relation interleaves them; compare-exchange may fail for no reason.
    Unsigned arithmetic wraps; where a theorem needs that it does not, the
    bound is a hypothesis on the number of steps or records.  A failed CHECK or
    an exception is [None].  Flushes and fences matter only in Mailbox.v;
    elsewhere the memory is the coherent one of the modelled host.

    Code outside the repository is an argument: std::sort is [StdSort] (an
    ordering by a strict weak order that permutes its input); folly's bounded
    queues are [FollyQueue] with the laws of [FollyQueueOk]; the results of
    system calls are arguments of the file operations, and so are what send and
    recv return, whether an allocation succeeds, whether an enqueue or a resend
    does, and what other threads do to a publisher while its sends drain;
    whether a retransmission is due, which the code computes with
    floating-point timers, is a predicate; Protocol Buffers are the class
    [Codec] with the laws of [CodecOk]; clocks and the
    environment of the classifier and the commit are the fields of their
    [Env]; the sizes that the compiler gives structures are arguments where no
    static_assert fixes them.

    * What the theorems show

    The log.  A run of the sequencer is any number of epochs, scans and restarts.
    A restart finds any prefix of the index committed, or always at least its
    first [keep] entries; a header may be overwritten between scan and commit,
    or stays as it was scanned ([intact]).  The index always starts with one
    gap-free log whose message orders tile; with [intact] every session is in
    it in order and once only, below the frontier of the session table; when
    moreover restarts find the whole index committed, the frontiers are exact
    ([sequencer_total_order]).  What is committed at every restart stays, and a
    fenced session gains nothing ([sequencer_log_stable]).  The runs are those
    of order 5: the true client chain without the FIFO ablation, sequence
    numbers below 2^63.  They follow
    from what one classifier call guarantees ([classifier_session_fifo],
    [fenced_session_is_silent], [no_batch_held_at_frontier],
    [expired_gap_is_fenced], [classifier_keeps_shard]), from what one commit
    does ([commit_extends_total_order], [commit_session_order],
    [commit_releases_all], [commit_credits_clients]), and from recovery after any
    committed prefix ([recovery_resumes], [reconnect_answer_is_committed]).

    Replication.  The completion vector counts a batch only when every replica of
    the chain has synced it, under every interleaving and with failing writes
    ([completed_is_on_every_disk]), so a durable acknowledgement that a client
    receives counts only batches of its that are on every disk
    ([durable_ack_is_on_every_disk]).  Without failures the chains are stuck only
    when they have counted everything, and the next pass credits it
    ([chain_stops_only_when_complete], [quiet_chains_credit_all_commits]).  Other
    topics wait for every replica's report ([ack2_waits_for_every_replica],
    [order0_release_reaches_frontier]).
    These theorems take the index as the sequencer fills it: an entry is written
    once, is valid, and the running counts of a broker grow; the payloads do not
    change.  With two replicas or more only the chain moves the durable count of the
    vector ([owns] in Commit.v is false).

    The structures under it.  The session table refines a map and its
    concurrent claims do not collide; reservations are disjoint; the epoch
    buffer hands over each batch once; the committed prefix and the durable
    frontier have no gap; the deduplicator refines a queue of recent ids; the
    radix sort sorts.

    The control plane.  The ring delivers records whole, in order and once
    ([mailbox_delivers_in_order]); an attached segment lies inside its region
    ([attach_regions_safe]); a broadcast returns whatever the brokers do
    ([broadcast_isolated]).  Scalog's cuts never pass what a replica reported
    and never go back; LazyLog binds each reported message once; Corfu's
    tokens are disjoint and its streams in sequence under every interleaving
    of calls.  Segments of the shared region have one owner.

    Corfu's replicas.  A crash at any byte of a call loses no completed slot
    and invents none, also when the call's own truncation fails, if the earlier
    calls could undo their failed appends ([replica_crash_safe]; otherwise
    [failed_rollback_blocks_open]); the answers of a group say what
    the slots hold ([WriteGroup_reports]); the replicas of a chain agree under
    every interleaving of appends, hole completions and junk fills, with lost
    requests, lost replies and writes that take effect late
    ([chain_agreement]).

    LazyLog's metadata replicas.  A crash at any byte of an append loses no
    completed record, for records of at most 2^20 bytes and earlier appends
    whose writes did not fail ([metadata_survives_crash]; otherwise
    [oversized_append_blocks_open], [failed_append_blocks_open]); a completed
    append is at every replica and is never replaced
    ([completed_metadata_is_immutable]).

    The client.  The broker's check accepts exactly the bodies that the
    messages tile ([validated_body_tiles]); the batches that leave the
    publisher's queue pass it and hold the written messages, for messages that
    fit a slot ([sent_batches_are_valid]), in order, and numbered without a gap
    when no rollover's wait for the producer timed out
    ([stream_is_batched_in_order]); a session rollover that finds no producer
    meets none until it resumes ([rollover_excludes_producers]).  However sends, commits, acknowledgements
    and reconnect trims of recorded batches interleave, the publisher retains
    what is not committed and counts only what is ([retained_until_committed]);
    an acknowledgement retires the recorded prefix it covers
    ([ack_retires_recorded_prefix]); a rollover whose sends drained resubmits the
    rest, in order and renumbered, or its first batches and shuts the publisher
    down ([rollover_resubmits_suffix]); a retransmission is of
    the batch that blocks the prefix, to another broker
    ([retransmits_retire_predecessor], [rendezvous_choice]); the bytes of an
    acknowledgement connection are read back as they were sent, up to a count
    that looks like a control header ([ack_stream_roundtrip],
    [magic_count_ends_acknowledgements]).

    The subscriber.  However the stream is cut into chunks, it parses as one
    ([chunks_parse_as_one_stream]) and, within the parser's limits and while
    memory suffices, to what was encoded ([encoded_stream_roundtrip]); delivery is in the total order
    ([ordered_delivery_in_total_order]), stops only at a missing message
    ([pop_stops_only_at_missing_order]), and the completion check means exactly
    once ([completion_means_exactly_once]).  Composed with the sequencer and
    the export, what is delivered is a prefix of the sequencer's log
    ([subscriber_delivers_sequencer_log]), and all of it when everything was
    sent and received ([subscriber_receives_whole_sequencer_log]), for a log of at
    most 10^8 messages in batches of at most 10000 frames of version 2.  The buffer
    that the consumer reads is not written ([consumer_buffer_is_stable]).

    Some theorems state what the code does where a comment or the code's
    purpose says otherwise: [recovery_truncates_lagging_tail],
    [lazylog_missed_round_not_resent], [accepted_batch_is_refused_by_subscriber],
    [order_beyond_window_ends_delivery], [order0_overrun_stalls_connection],
    [order0_consume_returns_first_of_run], [magic_count_ends_acknowledgements],
    [oversized_append_blocks_open], [conflict_is_retried],
    [closed_connection_is_not_noticed], [stale_epoch_sends_nothing], and the examples
    [failed_append_blocks_open],
    [trim_race_retires_uncommitted], [fence_counts_acknowledged_batch_again],
    [drain_credit_counted_twice], [owned_copy_sent_again],
    [stale_retransmit_reuses_batch_seq], [order0_read_is_torn],
    [unread_buffer_is_lost], [released_buffer_is_read_again], [commit_undoes_purge],
    [export_overwrites_deferred_header], [idle_flush_reports_first_batch],
    [SlotStride_wraps], [zero_capacity_created], [unwritten_body_blocks_open],
    [failed_rollback_blocks_open], [failed_group_conflict],
    [long_message_overruns_slot], [first_message_has_old_batch_seq],
    [inactive_queues_lose_batch], [quiet_rollover_is_refused] and
    [shutdown_ends_operation_twice].

    * Fuel

    [drain_loop], [release], [absorb], [order0_loop] and [append_loop] get the size
    of the container they consume, [slide_window] the distance that the window can
    move, [advance_slots] and [claim_loop] the size of the ring or bitmap,
    [replay_loop] the length of the file, of which every record takes 83 bytes
    or more; [parse_loop], [scan] and [carry_loop] a bound on the bytes, of which
    every turn takes one or moves to the carry; [export_scan] and [durable_scan]
    the entries from the cursor to the committed one, [chain_role_from] the
    replication factor, [consume_scan] the bytes of the buffer and one,
    [replay_from] the length of the file and one, [ack_run] the number of calls of
    recv, [to_digits] the digits of a 64-bit number, [complete_loop] the number of
    records, of which every turn retires one, [skip_holes] the distance to the
    trimmed prefix; [produce_run] is proved to end within the call's spins, lines
    and six turns ([broadcast_isolated]), [MailboxSequencer.Run] within the waiting
    records and one pass ([scalog_run_drains]), [order0_loop] to end only at the
    frontier ([order0_loop_spec]) and [durable_scan] only at the committed entry or
    at one that is not durable ([durable_scan_spec]).

    * Not modelled

    Sockets, threads' start-up and shutdown, device mapping, RDMA verbs,
    configuration, profiling and traces, which are calls to the system; the
    receive paths of the topics and the baselines' replication threads, which are
    raw memory and files; the memory sinks of chain replication; the scanners'
    polling of headers; the rebuild of export descriptors after a crash; the retry
    of failed connections; the latency records and the batch-aware consumer of the
    subscriber.  PublisherLedger.v has order 5
    only.  Pipeline.v has one level-5 shard, as the default configuration. *)

From stdpp Require Export base tactics numbers option list sorting gmap fin_maps relations.
From Stdlib Require Export ZArith Lia.

#[global] Open Scope Z_scope.

(** * Machine words

    A [wN] value is a [Z] in [0, 2^N); the unsigned C++ operators reduce their
    mathematical result with [uN]. *)

Definition u64 (z : Z) : Z := z mod 18446744073709551616.
Definition u32 (z : Z) : Z := z mod 4294967296.
Definition u16 (z : Z) : Z := z mod 65536.

(** [UINT64_MAX], also [SIZE_MAX] and [numeric_limits<uint64_t>::max()]. *)
Definition U64_MAX : Z := 18446744073709551615.

Definition is_u64 (z : Z) : Prop := 0 <= z < 18446744073709551616.
Definition is_u32 (z : Z) : Prop := 0 <= z < 4294967296.
Definition is_u16 (z : Z) : Prop := 0 <= z < 65536.

Declare Scope word_scope.
Delimit Scope word_scope with word.
Notation "a '+u' b" := (u64 (a + b)) (at level 50, left associativity) : word_scope.
Notation "a '-u' b" := (u64 (a - b)) (at level 50, left associativity) : word_scope.
Notation "a '*u' b" := (u64 (a * b)) (at level 40, left associativity) : word_scope.
Notation "a '<<u' b" := (u64 (Z.shiftl a b)) (at level 35, right associativity) : word_scope.
#[global] Open Scope word_scope.

(** [word_lia]: linear arithmetic through the reductions of the words. *)
Ltac word_unfold :=
  unfold is_u64, is_u32, is_u16, U64_MAX, u64, u32, u16 in *.
Ltac word_lia :=
  word_unfold; Z.to_euclidean_division_equations; lia.

Create HintDb emb.

Lemma u64_range z : is_u64 (u64 z).
Proof. word_lia. Qed.
Lemma u32_range z : is_u32 (u32 z).
Proof. word_lia. Qed.
Lemma u64_id z : is_u64 z -> u64 z = z.
Proof. apply Z.mod_small. Qed.
Lemma u32_id z : is_u32 z -> u32 z = z.
Proof. apply Z.mod_small. Qed.
Lemma u64_idemp z : u64 (u64 z) = u64 z.
Proof. apply u64_id, u64_range. Qed.
Lemma is_u64_max z : is_u64 z <-> 0 <= z <= U64_MAX.
Proof. word_lia. Qed.
#[export] Hint Resolve u64_range u32_range : emb.

(** A word assembled from a shifted high part and a low part. *)
Lemma lor_shiftl_low a b n :
  0 <= n -> 0 <= b < 2 ^ n -> Z.lor (Z.shiftl a n) b = a * 2 ^ n + b.
Proof.
  intros Hn Hb. rewrite <- Z.shiftl_mul_pow2 by done. symmetry. apply Z.add_nocarry_lor.
  apply Z.bits_inj'. intros k Hk. rewrite Z.land_spec, Z.bits_0.
  destruct (Z.lt_ge_cases k n).
  - by rewrite Z.shiftl_spec_low.
  - replace b with (b mod 2 ^ n) by by apply Z.mod_small.
    rewrite Z.mod_pow2_bits_high by lia. apply andb_false_r.
Qed.

(** Masking the low six bits rounds down to a cache line. *)
Lemma land_line_mask n : 0 <= n < 2 ^ 64 -> Z.land n (u64 (Z.lnot 63)) = 64 * (n / 64).
Proof.
  intros Hn. replace (u64 (Z.lnot 63)) with (Z.shiftl (Z.ones 58) 6) by reflexivity.
  transitivity (Z.shiftl (Z.land (Z.shiftr n 6) (Z.ones 58)) 6).
  - apply Z.bits_inj'. intros i Hi. rewrite Z.land_spec. destruct (Z.lt_ge_cases i 6).
    + rewrite !Z.shiftl_spec_low by lia. apply andb_false_r.
    + rewrite !Z.shiftl_spec, Z.land_spec, Z.shiftr_spec by lia. by replace (i - 6 + 6) with i by lia.
  - rewrite Z.land_ones, Z.shiftr_div_pow2, Z.shiftl_mul_pow2 by lia. change (2 ^ 6) with 64.
    rewrite Z.mod_small; [lia|]. split; [apply Z.div_pos; lia|]. apply Z.div_lt_upper_bound; lia.
Qed.

(** Within one lap of a ring, an index determines its position. *)
Lemma mod_window a b n : a mod n = b mod n -> a <= b < a + n -> a = b.
Proof.
  intros Hm Hab. pose proof (Z.div_mod a n ltac:(lia)). pose proof (Z.div_mod b n ltac:(lia)).
  assert (b / n = a / n) by nia. congruence.
Qed.

(** * Booleans of the code as propositions

    [bool_props] turns the code's comparisons in the hypotheses and the goal
    into the propositions [lia] and [congruence] work on. *)
Ltac bool_props :=
  repeat match goal with
  | H : context [negb _ = true] |- _ => rewrite negb_true_iff in H
  | H : context [negb _ = false] |- _ => rewrite negb_false_iff in H
  | H : (_ && _)%bool = true |- _ => apply andb_true_iff in H as [? ?]
  | H : (_ || _)%bool = false |- _ => apply orb_false_iff in H as [? ?]
  | H : (_ || _)%bool = true |- _ => apply orb_true_iff in H
  | H : (_ && _)%bool = false |- _ => apply andb_false_iff in H
  | H : (_ =? _) = true |- _ => apply Z.eqb_eq in H
  | H : (_ =? _) = false |- _ => apply Z.eqb_neq in H
  | H : (_ <? _) = true |- _ => apply Z.ltb_lt in H
  | H : (_ <? _) = false |- _ => apply Z.ltb_ge in H
  | H : (_ <=? _) = true |- _ => apply Z.leb_le in H
  | H : (_ <=? _) = false |- _ => apply Z.leb_gt in H
  | H : (_ >=? _) = _ |- _ => rewrite Z.geb_leb in H
  | H : (_ >? _) = _ |- _ => rewrite Z.gtb_ltb in H
  end.

(** Conjunctions of arithmetic facts. *)
Ltac conj_lia := intros; destruct_and?; split_and?; try done; try lia.

(** Case analysis on the innermost test or match of the goal. *)
Ltac case_test :=
  match goal with
  | |- context [if ?b then _ else _] =>
      lazymatch b with
      | context [if _ then _ else _] => fail
      | context [match _ with _ => _ end] => fail
      | _ => destruct b eqn:?
      end
  | |- context [match ?o with _ => _ end] =>
      lazymatch o with
      | context [match _ with _ => _ end] => fail
      | _ => destruct o eqn:?
      end
  end.
Ltac case_tests := repeat (case_test; simpl in *).

(** * Record update

    [r <| f := v |>] and [r <| f ::= g |>].  A record declares its constructor
    applied to its projections with [Eta]; the setter of a projection is found
    by abstracting the projection in that term. *)
Class Eta (R : Type) := eta : R -> R.
Class Upd {R T : Type} (proj : R -> T) := upd : (T -> T) -> R -> R.
Arguments upd {R T} proj {_} f r /.

Ltac solve_upd :=
  match goal with
  | |- @Upd ?R ?T ?proj =>
      let e := eval hnf in (@eta R _) in
      let p := eval pattern proj in e in
      match p with
      | ?f _ =>
          let s := constr:(fun (g : T -> T) (r : R) => f (fun r' => g (proj r')) r) in
          let s := eval cbv beta in s in
          exact s
      end
  end.
#[global] Hint Extern 0 (Upd _) => solve_upd : typeclass_instances.

Notation "r <| f ::= g |>" := (upd f g r)
  (at level 1, left associativity, f constr at level 0, g at level 99).
Notation "r <| f := v |>" := (upd f (fun _ => v) r)
  (at level 1, left associativity, f constr at level 0, v at level 99).

(** * Sets and maps on [Z] *)

Lemma size_difference_singleton (X : gset Z) x :
  x ∈ X -> size X = S (size (X ∖ {[x]})).
Proof.
  intros Hx. rewrite (union_difference_singleton_L x X Hx) at 1.
  rewrite size_union by set_solver. by rewrite size_singleton.
Qed.

(** * Lists *)

Lemma filter_none {A} P `{!forall x : A, Decision (P x)} (l : list A) :
  (forall x, x ∈ l -> ~ P x) -> filter P l = [].
Proof.
  induction l as [|x l IH]; intros HP; [done|].
  rewrite filter_cons, decide_False by set_solver. apply IH. set_solver.
Qed.

Lemma filter_ext_in {A} P Q `{!forall x : A, Decision (P x), !forall x : A, Decision (Q x)}
    (l : list A) :
  (forall x, x ∈ l -> P x <-> Q x) -> filter P l = filter Q l.
Proof.
  induction l as [|x l IH]; intros HP; [done|]. rewrite !filter_cons, IH by set_solver.
  destruct (HP x); [set_solver|]. repeat case_decide; done || tauto.
Qed.

Lemma filter_all {A} P `{!forall x : A, Decision (P x)} (l : list A) :
  (forall x, x ∈ l -> P x) -> filter P l = l.
Proof.
  induction l as [|x l IH]; intros HP; [done|].
  rewrite filter_cons, decide_True by set_solver. f_equal. apply IH. set_solver.
Qed.

Lemma StronglySorted_impl {A} (R1 R2 : A -> A -> Prop) l :
  (forall x y, x ∈ l -> y ∈ l -> R1 x y -> R2 x y) -> StronglySorted R1 l -> StronglySorted R2 l.
Proof.
  induction l as [|x l IH]; intros HR Hl; [constructor|].
  apply StronglySorted_inv in Hl as [Hl Hx]. constructor; [apply IH; set_solver|].
  rewrite Forall_forall in Hx |- *. intros y Hy. apply HR; [set_solver..|auto].
Qed.

Lemma StronglySorted_filter {A} (R : A -> A -> Prop) P `{!forall x : A, Decision (P x)} (l : list A) :
  StronglySorted R l -> StronglySorted R (filter P l).
Proof.
  induction 1 as [|x l Hl IH Hx]; [constructor|]. rewrite filter_cons.
  case_decide; [|done]. constructor; [done|]. rewrite Forall_forall in Hx |- *.
  intros y [_ Hy]%list_elem_of_filter. auto.
Qed.

(** Every element is related to the later ones. *)
Definition pairwise {A} (R : A -> A -> Prop) (l : list A) : Prop :=
  forall i j x y, (i < j)%nat -> l !! i = Some x -> l !! j = Some y -> R x y.

Lemma pairwise_nil {A} (R : A -> A -> Prop) : pairwise R [].
Proof. intros i j x y _ Hi. done. Qed.

Lemma pairwise_snoc {A} (R : A -> A -> Prop) l y :
  pairwise R l -> Forall (fun x => R x y) l -> pairwise R (l ++ [y]).
Proof.
  intros Hl Hy i j a b Hij Ha Hb. rewrite Forall_lookup in Hy.
  apply lookup_app_Some in Hb as [Hb|[Hge [Hj <-]%list_lookup_singleton_Some]];
    (apply lookup_app_Some in Ha as [Ha|[Hge' [Hi <-]%list_lookup_singleton_Some]]).
  - by eapply Hl.
  - apply lookup_lt_Some in Hb. lia.
  - by eapply Hy.
  - lia.
Qed.

(** Two arrays of one length agree when one holds every cell of the other. *)
Lemma list_eq_same_length_some {A} (l1 l2 : list A) :
  length l1 = length l2 ->
  (forall i x, l1 !! i = Some x -> l2 !! i = Some x) -> l1 = l2.
Proof.
  intros Hlen H. apply list_eq. intros i. destruct (l1 !! i) eqn:E; [by rewrite (H _ _ E)|].
  symmetry. apply lookup_ge_None. rewrite <- Hlen. by apply lookup_ge_None.
Qed.

(** A list that holds a prefix of another's cells. *)
Lemma prefix_of_lookup {A} (l1 l2 : list A) :
  (forall i x, l1 !! i = Some x -> l2 !! i = Some x) -> l1 `prefix_of` l2.
Proof.
  revert l2. induction l1 as [|x l1 IH]; intros l2 H; [apply prefix_nil|].
  pose proof (H 0%nat x eq_refl) as H0. destruct l2 as [|y l2]; simplify_eq/=. apply prefix_cons, IH. intros i z Hi. exact (H (S i) z Hi).
Qed.

(** [Forall] on an explicit list, element by element. *)
Ltac forall_list :=
  repeat lazymatch goal with |- Forall _ [] => constructor | |- Forall _ (_ :: _) => constructor end.

(** * Transition systems

    A component that several threads drive is a step relation on its state;
    a property holds of every reachable state when it is inductive. *)
Lemma rtc_invariant {A} (step : A -> A -> Prop) (I : A -> Prop) x y :
  (forall a b, I a -> step a b -> I b) -> I x -> rtc step x y -> I y.
Proof. intros Hstep Hx Hxy. induction Hxy; eauto. Qed.

(** * Contiguous frontiers

    Several components collect out-of-order completions and expose only the
    contiguous prefix.  [Frontier] is what such a component promises: the
    exposed value covers exactly the recorded prefix. *)
Class Frontier (St : Type) := {
  frontier : St -> Z;
  recorded : St -> Z -> Prop;
  frontier_ok : St -> Prop;
  frontier_nonneg s : frontier_ok s -> 0 <= frontier s;
  frontier_covers s i : frontier_ok s -> 0 <= i < frontier s -> recorded s i;
  frontier_tight s : frontier_ok s -> ~ recorded s (frontier s);
}.

(** A frontier grows with what is recorded, across implementations. *)
Lemma frontier_mono `{Frontier S1, Frontier S2} (s1 : S1) (s2 : S2) :
  frontier_ok s1 -> frontier_ok s2 ->
  (forall i, recorded s1 i -> recorded s2 i) -> frontier s1 <= frontier s2.
Proof.
  intros H1 H2 Hsub.
  destruct (Z.le_gt_cases (frontier s1) (frontier s2)); [done|].
  destruct (frontier_tight s2 H2). apply Hsub, frontier_covers; [done|].
  split; [by apply frontier_nonneg|lia].
Qed.

Lemma frontier_unique `{Frontier S1, Frontier S2} (s1 : S1) (s2 : S2) :
  frontier_ok s1 -> frontier_ok s2 ->
  (forall i, recorded s1 i <-> recorded s2 i) -> frontier s1 = frontier s2.
Proof.
  intros H1 H2 Heq.
  apply Z.le_antisymm; apply frontier_mono; naive_solver.
Qed.
