(* ===== verification/Bytes.v ===== *)
(** Bytes in memory and on disk: little-endian fields, and a byte-addressed
    memory that is written with memcpy or pwrite and read field by field. *)

From S2P Require Import Prelude.

(** * Little-endian integers of [n] bytes; a byte is a [Z] below 256 *)
Fixpoint put_le (n : nat) (v : Z) : list Z :=
  match n with O => [] | S n => v mod 256 :: put_le n (Z.shiftr v 8) end.
Fixpoint get_le (n : nat) (p : list Z) : Z :=
  match n, p with S n, b :: p => b + Z.shiftl (get_le n p) 8 | _, _ => 0 end.

Definition byte_list (bs : list Z) : Prop := Forall (fun b => 0 <= b < 256) bs.

Lemma put_le_length n v : length (put_le n v) = n.
Proof. revert v. induction n as [|n IH]; intros v; simpl; [done|]. by rewrite IH. Qed.

Lemma get_put_le n : forall v rest, 0 <= v < 256 ^ Z.of_nat n -> get_le n (put_le n v ++ rest) = v.
Proof.
  induction n as [|n IH]; intros v rest Hv; simpl; [lia|].
  rewrite IH; [|rewrite Z.shiftr_div_pow2 by lia; change (2 ^ 8) with 256; split; [apply Z.div_pos; lia|];
    apply Z.div_lt_upper_bound; [lia|]; rewrite Nat2Z.inj_succ, Z.pow_succ_r in Hv by lia; lia].
  rewrite Z.shiftl_mul_pow2, Z.shiftr_div_pow2 by lia. change (2 ^ 8) with 256. pose proof (Z.div_mod v 256). lia.
Qed.

Lemma u32_bytes v : is_u32 v -> 0 <= v < 256 ^ Z.of_nat 4.
Proof. word_unfold. simpl. lia. Qed.
Lemma u64_bytes v : is_u64 v -> 0 <= v < 256 ^ Z.of_nat 8.
Proof. word_unfold. simpl. lia. Qed.

Lemma get_le_range n : forall p, byte_list p -> 0 <= get_le n p < 256 ^ Z.of_nat n.
Proof.
  induction n as [|n IH]; intros p Hp; [simpl; lia|].
  assert (H0 : 0 < 256 ^ Z.of_nat (S n)) by (apply Z.pow_pos_nonneg; lia).
  destruct p as [|b p]; [simpl get_le; lia|]. apply Forall_cons in Hp as [Hb Hp]. specialize (IH p Hp).
  cbn [get_le]. rewrite Z.shiftl_mul_pow2 by lia. change (2 ^ 8) with 256.
  rewrite Nat2Z.inj_succ, Z.pow_succ_r in * by lia. lia.
Qed.

(** * Memory *)
Abbreviation memory := (gmap Z Z).
Fixpoint memcpy (d : memory) (off : Z) (bs : list Z) : memory :=
  match bs with [] => d | b :: bs => memcpy (<[off := b]> d) (off + 1) bs end.
Definition bytes_at (d : memory) (off : Z) (n : nat) : list Z :=
  (fun i => default 0 (d !! (off + Z.of_nat i))) <$> seq 0 n.
(** The field of [n] bytes at [off]. *)
Definition load (n : nat) (d : memory) (off : Z) : Z := get_le n (bytes_at d off n).

Definition byte_memory (d : memory) : Prop := forall a b, d !! a = Some b -> 0 <= b < 256.

Lemma memcpy_other bs : forall d off k, k < off \/ off + Z.of_nat (length bs) <= k -> memcpy d off bs !! k = d !! k.
Proof.
  induction bs as [|b bs IH]; intros d off k Hk; [done|]. cbn [memcpy length] in *.
  rewrite IH by lia. apply lookup_insert_ne. lia.
Qed.

Lemma memcpy_lookup bs : forall d off (i : nat) b, bs !! i = Some b -> memcpy d off bs !! (off + Z.of_nat i) = Some b.
Proof.
  induction bs as [|c bs IH]; intros d off i b Hi; [done|]. cbn [memcpy]. destruct i as [|i]; cbn in Hi.
  - simplify_eq. rewrite memcpy_other by lia. by rewrite Z.add_0_r, lookup_insert_eq.
  - replace (off + Z.of_nat (S i)) with (off + 1 + Z.of_nat i) by lia. by apply IH.
Qed.

Lemma memcpy_byte_memory bs : forall d off, byte_memory d -> byte_list bs -> byte_memory (memcpy d off bs).
Proof.
  induction bs as [|b bs IH]; intros d off Hd Hb; [done|]. apply Forall_cons in Hb as [Hb Hbs]. apply IH; [|done].
  intros a c. destruct (decide (a = off)) as [->|?]; [rewrite lookup_insert_eq|rewrite lookup_insert_ne by done; apply Hd].
  by intros [= <-].
Qed.

Lemma bytes_at_length d off n : length (bytes_at d off n) = n.
Proof. unfold bytes_at. by rewrite length_fmap, length_seq. Qed.

Lemma bytes_at_lookup d off n (i : nat) :
  (i < n)%nat -> bytes_at d off n !! i = Some (default 0 (d !! (off + Z.of_nat i))).
Proof. intros Hi. unfold bytes_at. rewrite list_lookup_fmap, lookup_seq_lt by done. done. Qed.

Lemma bytes_at_ext d d' off n :
  (forall k, off <= k < off + Z.of_nat n -> d' !! k = d !! k) -> bytes_at d' off n = bytes_at d off n.
Proof.
  intros H. apply list_fmap_ext. intros i x Hx. apply lookup_seq in Hx as [-> Hi]. by rewrite H by lia.
Qed.

(** What a copy put at an offset is read there. *)
Lemma bytes_at_memcpy d off bs (k n : nat) :
  (k + n <= length bs)%nat -> bytes_at (memcpy d off bs) (off + Z.of_nat k) n = take n (drop k bs).
Proof.
  intros Hk. apply list_eq_same_length_some.
  { rewrite bytes_at_length, length_take, length_drop. lia. }
  intros i x Hi. assert (Hlt : (i < n)%nat) by (apply lookup_lt_Some in Hi; by rewrite bytes_at_length in Hi).
  rewrite bytes_at_lookup in Hi by done. rewrite lookup_take_lt, lookup_drop by done.
  destruct (bs !! (k + i)%nat) as [b|] eqn:Eb; [|apply lookup_ge_None in Eb; lia].
  rewrite <- Hi. replace (off + Z.of_nat k + Z.of_nat i) with (off + Z.of_nat (k + i)) by lia.
  by rewrite (memcpy_lookup _ _ _ _ _ Eb).
Qed.

Lemma bytes_at_memcpy_other d off bs o n :
  o + Z.of_nat n <= off \/ off + Z.of_nat (length bs) <= o -> bytes_at (memcpy d off bs) o n = bytes_at d o n.
Proof. intros H. apply bytes_at_ext. intros k Hk. apply memcpy_other. lia. Qed.

Lemma load_memcpy_other n d off bs o :
  o + Z.of_nat n <= off \/ off + Z.of_nat (length bs) <= o -> load n (memcpy d off bs) o = load n d o.
Proof. intros H. unfold load. by rewrite bytes_at_memcpy_other. Qed.

Lemma byte_memory_bytes_at d off n : byte_memory d -> byte_list (bytes_at d off n).
Proof.
  intros Hd. apply Forall_fmap, Forall_forall. intros i _. cbn. destruct (d !! _) eqn:E; cbn; [by apply Hd in E|lia].
Qed.

Lemma load_range n d off : byte_memory d -> 0 <= load n d off < 256 ^ Z.of_nat n.
Proof. intros Hd. by apply get_le_range, byte_memory_bytes_at. Qed.

(** A buffer received elsewhere reads like the original. *)
Lemma bytes_at_copy d a (n k m : nat) :
  (k + m <= n)%nat -> bytes_at (memcpy ∅ 0 (bytes_at d a n)) (Z.of_nat k) m = bytes_at d (a + Z.of_nat k) m.
Proof.
  intros Hk. replace (Z.of_nat k) with (0 + Z.of_nat k) at 1 by lia. rewrite bytes_at_memcpy by (by rewrite bytes_at_length).
  apply list_eq_same_length_some; [rewrite length_take, length_drop, !bytes_at_length; lia|].
  intros i x Hi. assert (Hlt : (i < m)%nat) by (apply lookup_lt_Some in Hi; rewrite length_take in Hi; lia).
  rewrite lookup_take_lt, lookup_drop, bytes_at_lookup in Hi by lia. rewrite bytes_at_lookup by done.
  rewrite <- Hi. do 3 f_equal. lia.
Qed.

Lemma load_copy d a (n k m : nat) :
  (k + m <= n)%nat -> load m (memcpy ∅ 0 (bytes_at d a n)) (Z.of_nat k) = load m d (a + Z.of_nat k).
Proof. intros Hk. unfold load. by rewrite bytes_at_copy. Qed.

Lemma copy_byte_memory d a n : byte_memory d -> byte_memory (memcpy ∅ 0 (bytes_at d a n)).
Proof. intros Hd. apply memcpy_byte_memory; [intros k b Hb; by rewrite lookup_empty in Hb|by apply byte_memory_bytes_at]. Qed.

(** * Structs: fields of given widths, one behind the other *)
Definition fields_bytes (fs : list (nat * Z)) : list Z := concat ((fun f => put_le f.1 f.2) <$> fs).
Definition fields_width (fs : list (nat * Z)) : nat := sum_list fs.*1.

Lemma fields_bytes_length fs : length (fields_bytes fs) = fields_width fs.
Proof.
  unfold fields_bytes, fields_width. induction fs as [|[n v] fs IH]; [done|].
  cbn. by rewrite length_app, put_le_length, IH.
Qed.

Lemma fields_bytes_app fs gs : fields_bytes (fs ++ gs) = fields_bytes fs ++ fields_bytes gs.
Proof. unfold fields_bytes. by rewrite fmap_app, concat_app. Qed.

Lemma fields_bytes_byte fs : byte_list (fields_bytes fs).
Proof.
  unfold fields_bytes, byte_list. induction fs as [|[n v] fs IH]; [constructor|]. apply Forall_app. split; [|done].
  clear. revert v. induction n as [|n IH]; intros v; constructor; [|apply IH]. apply Z.mod_pos_bound. lia.
Qed.

(** The field at position [i] is read back at its offset. *)
Lemma load_field d off fs i n v rest :
  fs !! i = Some (n, v) -> 0 <= v < 256 ^ Z.of_nat n ->
  load n (memcpy d off (fields_bytes fs ++ rest)) (off + Z.of_nat (fields_width (take i fs))) = v.
Proof.
  intros Hi Hv. unfold load. rewrite <- (take_drop_middle fs i _ Hi) at 1.
  rewrite bytes_at_memcpy.
  - rewrite fields_bytes_app, <- app_assoc, drop_app_length' by (symmetry; apply fields_bytes_length).
    cbn [fields_bytes fmap list_fmap concat fst snd]. rewrite <- app_assoc, take_app_length'; [|by rewrite put_le_length].
    rewrite <- (app_nil_r (put_le n v)). by apply get_put_le.
  - rewrite length_app, fields_bytes_app, length_app, (fields_bytes_length (take i fs)). cbn.
    rewrite length_app, put_le_length. lia.
Qed.

(** The same, on the list of bytes. *)
Lemma get_le_app n : forall p q, (n <= length p)%nat -> get_le n (p ++ q) = get_le n p.
Proof.
  induction n as [|n IH]; intros p q Hn; [done|]. destruct p as [|b p]; cbn [length] in Hn; [lia|].
  cbn [app get_le]. rewrite IH by lia. done.
Qed.

Lemma get_le_field fs i n v rest :
  fs !! i = Some (n, v) -> 0 <= v < 256 ^ Z.of_nat n ->
  get_le n (drop (fields_width (take i fs)) (fields_bytes fs ++ rest)) = v.
Proof.
  intros Hi Hv. rewrite <- (take_drop_middle fs i _ Hi) at 2.
  rewrite fields_bytes_app, <- app_assoc, drop_app_length' by (symmetry; apply fields_bytes_length).
  cbn [fields_bytes fmap list_fmap concat fst snd]. rewrite <- app_assoc. by apply get_put_le.
Qed.

Definition byte_listb (bs : list Z) : bool := forallb (fun b => (0 <=? b) && (b <? 256)) bs.
Lemma byte_list_check bs : byte_listb bs = true -> byte_list bs.
Proof. intros H. apply Forall_forall. intros b Hb%list_elem_of_In. unfold byte_listb in H. rewrite forallb_forall in H. specialize (H b Hb). bool_props. lia. Qed.
