(* ===== verification/Frontier.v ===== *)
(** Contiguous-prefix frontiers: the emitted-sequence tracker of a client
    session, the durable-completion frontier, and the queue and thread that
    advance the committed prefix of the global order index. *)

From S2P Require Import Prelude.

(** * [ClientEmitTracker] of src/embarlet/topic.h *)
Module ClientEmitTracker.

Record t := mk {
  contiguous_max : Z;
  pending : gset Z;
}.

Definition init : t := mk U64_MAX ∅.

Definition IsEmitted (tr : t) (seq : Z) : bool :=
  if negb (contiguous_max tr =? U64_MAX) && (seq <=? contiguous_max tr) then true
  else bool_decide (seq ∈ pending tr).

(** The [while (true)] loop of [MarkEmitted]; each turn erases an element of
    [pending], so [size pending] turns are enough. *)
Fixpoint absorb (fuel : nat) (cm : Z) (p : gset Z) : t :=
  match fuel with
  | O => mk cm p
  | S n =>
      if decide (cm +u 1 ∈ p) then absorb n (cm +u 1) (p ∖ {[cm +u 1]})
      else mk cm p
  end.

Definition MarkEmitted (tr : t) (seq : Z) : t :=
  if contiguous_max tr =? U64_MAX then
    if seq =? 0 then mk 0 (pending tr)
    else mk (contiguous_max tr) ({[seq]} ∪ pending tr)
  else if seq <=? contiguous_max tr then tr
  else if seq =? contiguous_max tr +u 1 then absorb (size (pending tr)) seq (pending tr)
  else mk (contiguous_max tr) ({[seq]} ∪ pending tr).

(** The prefix held in [contiguous_max], as the next sequence to come. *)
Definition next (tr : t) : Z :=
  if contiguous_max tr =? U64_MAX then 0 else contiguous_max tr + 1.

Record wf (tr : t) : Prop := {
  wf_max : is_u64 (contiguous_max tr);
  wf_pending x : x ∈ pending tr -> 0 <= x < U64_MAX;
}.

Lemma wf_init : wf init.
Proof. split; simpl; [word_lia|set_solver]. Qed.

Lemma IsEmitted_spec tr x :
  0 <= x -> IsEmitted tr x = true <-> x < next tr \/ x ∈ pending tr.
Proof.
  intros Hx. unfold IsEmitted, next.
  destruct (Z.eqb_spec (contiguous_max tr) U64_MAX) as [->|]; simpl;
    [|destruct (Z.leb_spec x (contiguous_max tr))];
    rewrite ?bool_decide_eq_true; intuition lia.
Qed.

Lemma next_mk cm p : 0 <= cm < U64_MAX -> next (mk cm p) = cm + 1.
Proof. intros. unfold next. simpl. destruct (Z.eqb_spec cm U64_MAX); lia. Qed.

Lemma absorb_spec fuel : forall cm p,
  0 <= cm < U64_MAX -> (forall x, x ∈ p -> 0 <= x < U64_MAX) ->
  wf (absorb fuel cm p) /\
  forall x, 0 <= x ->
    IsEmitted (absorb fuel cm p) x = true <-> (x <= cm \/ x ∈ p).
Proof.
  induction fuel as [|n IH]; intros cm p Hcm Hp.
  all: assert (Hstop : wf (mk cm p) /\
    forall x, 0 <= x -> IsEmitted (mk cm p) x = true <-> (x <= cm \/ x ∈ p))
    by (split; [split; simpl; [word_lia|done]
               |intros x Hx; rewrite IsEmitted_spec, next_mk by done; simpl; intuition lia]).
  { done. }
  simpl. rewrite u64_id by word_lia. destruct (decide _) as [Hin|_]; [|done].
  pose proof (Hp _ Hin).
  destruct (IH (cm + 1) (p ∖ {[cm + 1]})) as [Hwf Heq]; [lia|set_solver|].
  split; [done|]. intros x Hx. rewrite (Heq x Hx), elem_of_difference, elem_of_singleton.
  destruct (decide (x = cm + 1)) as [->|]; intuition lia.
Qed.

Lemma insert_pending_spec tr seq :
  wf tr -> 0 <= seq < U64_MAX ->
  wf (mk (contiguous_max tr) ({[seq]} ∪ pending tr)) /\
  forall x, 0 <= x ->
    IsEmitted (mk (contiguous_max tr) ({[seq]} ∪ pending tr)) x = true <->
    IsEmitted tr x = true \/ x = seq.
Proof.
  intros [Hm Hp] Hs.
  assert (Hn : next (mk (contiguous_max tr) ({[seq]} ∪ pending tr)) = next tr) by done.
  split; [split; [done|set_solver]|].
  intros x Hx. rewrite !IsEmitted_spec, Hn by done. simpl. set_solver.
Qed.

(** The tracker implements a set: marking adds exactly one sequence. *)
Lemma MarkEmitted_spec tr seq :
  wf tr -> 0 <= seq < U64_MAX ->
  wf (MarkEmitted tr seq) /\
  forall x, 0 <= x ->
    IsEmitted (MarkEmitted tr seq) x = true <-> IsEmitted tr x = true \/ x = seq.
Proof.
  intros Hwf Hs. destruct (Hwf) as [Hm Hp]. unfold MarkEmitted.
  destruct (Z.eqb_spec (contiguous_max tr) U64_MAX) as [Hmax|Hmax].
  - destruct (Z.eqb_spec seq 0) as [->|]; [|by apply insert_pending_spec].
    split; [split; simpl; [word_lia|done]|]. intros x Hx.
    rewrite !IsEmitted_spec by done.
    assert (next tr = 0) as -> by (unfold next; by rewrite Hmax).
    rewrite next_mk by word_lia. simpl. intuition lia.
  - assert (Hn : next tr = contiguous_max tr + 1)
      by (unfold next; destruct (Z.eqb_spec (contiguous_max tr) U64_MAX); done).
    destruct (Z.leb_spec seq (contiguous_max tr)).
    { split; [done|]. intros x Hx. rewrite IsEmitted_spec, Hn by done. intuition lia. }
    rewrite u64_id by word_lia.
    destruct (Z.eqb_spec seq (contiguous_max tr + 1)) as [Heq|];
      [|by apply insert_pending_spec].
    destruct (absorb_spec (size (pending tr)) seq (pending tr) Hs Hp) as [Hwf' Hiff].
    split; [done|]. intros x Hx. rewrite (Hiff x Hx), IsEmitted_spec, Hn by done.
    intuition lia.
Qed.

Lemma wf_MarkEmitted tr seq :
  wf tr -> 0 <= seq < U64_MAX -> wf (MarkEmitted tr seq).
Proof. intros. by apply MarkEmitted_spec. Qed.

Lemma IsEmitted_init x : 0 <= x -> IsEmitted init x = false.
Proof.
  intros. unfold IsEmitted; simpl. by rewrite bool_decide_eq_false.
Qed.

End ClientEmitTracker.
#[export] Hint Resolve ClientEmitTracker.wf_init ClientEmitTracker.wf_MarkEmitted : emb.

(** * [DurableFrontier] of src/common/durable_frontier.h *)
Module DurableFrontier.

Record DurableBatch := mkBatch {
  message_count : Z;
  client_id : Z;
}.

Record t := mk {
  next_sequence_ : Z;
  pending_ : gmap Z DurableBatch;
}.

Definition init : t := mk 0 ∅.

(** The [while (true)] loop of [Record]; each turn erases an entry of
    [pending_], so [size pending_] turns are enough. *)
Fixpoint release (fuel : nat) (st : t) (out : list DurableBatch) : t * list DurableBatch :=
  match fuel with
  | O => (st, out)
  | S n =>
      match pending_ st !! next_sequence_ st with
      | None => (st, out)
      | Some b =>
          release n (mk (next_sequence_ st +u 1) (delete (next_sequence_ st) (pending_ st)))
                  (out ++ [b])
      end
  end.

(** [Record]; [newly_contiguous] is a pointer, [None] when null. *)
Definition record (st : t) (sequence : Z) (batch : DurableBatch)
    (newly_contiguous : option (list DurableBatch)) : bool * t * option (list DurableBatch) :=
  match newly_contiguous with
  | None => (false, st, None)
  | Some out =>
      if message_count batch =? 0 then (false, st, Some out)
      else if sequence <? next_sequence_ st then (false, st, Some out)
      else match pending_ st !! sequence with
      | Some _ => (false, st, Some out)
      | None =>
          let '(st', out') :=
            release (S (size (pending_ st)))
                    (mk (next_sequence_ st) (<[sequence := batch]> (pending_ st))) out in
          (true, st', Some out')
      end
  end.

Definition next_sequence (st : t) : Z := next_sequence_ st.
Definition pending_size (st : t) : Z := Z.of_nat (size (pending_ st)).

Record wf (st : t) : Prop := {
  wf_next : 0 <= next_sequence_ st <= U64_MAX;
  wf_pending k b : pending_ st !! k = Some b -> next_sequence_ st < k < U64_MAX;
}.

#[export, program] Instance durable_frontier : Frontier t := {
  frontier := next_sequence;
  recorded st i := i < next_sequence_ st \/ is_Some (pending_ st !! i);
  frontier_ok := wf;
}.
Next Obligation. intros s []. by destruct wf_next0. Qed.
Next Obligation. intros s i _ []. by left. Qed.
Next Obligation.
  intros s [Hn Hp] [Hlt|[b Hb]]; unfold next_sequence in *; [lia|].
  apply Hp in Hb. lia.
Qed.

(** What the frontier implements: the first accepted batch of every sequence. *)
Definition accept (log : gmap Z DurableBatch) (sequence : Z) (batch : DurableBatch)
    : bool * gmap Z DurableBatch :=
  if message_count batch =? 0 then (false, log)
  else match log !! sequence with
       | Some _ => (false, log)
       | None => (true, <[sequence := batch]> log)
       end.

(** [st] has released [out], the batches of [log] below the frontier in
    sequence order, and retains the others. *)
Record refines (log : gmap Z DurableBatch) (out : list DurableBatch) (st : t) : Prop := {
  ref_len : next_sequence_ st = Z.of_nat (length out);
  ref_out (i : nat) b : out !! i = Some b -> log !! Z.of_nat i = Some b;
  ref_pending k : next_sequence_ st <= k -> pending_ st !! k = log !! k;
  ref_below k b : pending_ st !! k = Some b -> next_sequence_ st <= k;
  ref_bound k b : log !! k = Some b -> 0 <= k < U64_MAX;
}.

Lemma refines_step log out st b :
  refines log out st -> pending_ st !! next_sequence_ st = Some b ->
  refines log (out ++ [b])
    (mk (next_sequence_ st +u 1) (delete (next_sequence_ st) (pending_ st))).
Proof.
  intros [Hl Ho Hp Hb Hd] Hnext.
  assert (Hlog : log !! next_sequence_ st = Some b) by (rewrite <- Hp; [done|lia]).
  pose proof (Hd _ _ Hlog) as Hr.
  split; simpl; rewrite ?u64_id by word_lia.
  - rewrite length_app. simpl. lia.
  - intros i b' [Hi|[Hge Hi]]%lookup_app_Some; [by apply Ho|].
    apply list_lookup_singleton_Some in Hi as [Hi <-].
    replace (Z.of_nat i) with (next_sequence_ st) by lia. done.
  - intros k Hk. rewrite lookup_delete_ne by lia. apply Hp. lia.
  - intros k b' [Hne Hk]%lookup_delete_Some. apply Hb in Hk. lia.
  - apply Hd.
Qed.

Lemma release_refines fuel : forall log rel st,
  refines log rel st -> (size (pending_ st) <= fuel)%nat ->
  exists st' new, (forall out, release fuel st out = (st', out ++ new)) /\
    refines log (rel ++ new) st' /\ pending_ st' !! next_sequence_ st' = None.
Proof.
  induction fuel as [|n IH]; intros log rel st Href Hsz; simpl.
  { exists st, []. rewrite app_nil_r. split_and!; [intros; by rewrite app_nil_r|done|].
    assert (pending_ st = ∅) as -> by (apply map_size_empty_inv; lia).
    apply lookup_empty. }
  destruct (pending_ st !! next_sequence_ st) as [b|] eqn:Hb.
  - pose proof (refines_step _ _ _ _ Href Hb) as Href'.
    destruct (IH _ _ _ Href') as (st' & new & Hrel & Href'' & Hn).
    { simpl. rewrite map_size_delete_Some by done. lia. }
    exists st', (b :: new). rewrite <- app_assoc in Href''. split_and!; [|done..].
    intros out. rewrite Hrel, <- app_assoc. done.
  - exists st, []. rewrite app_nil_r. split_and!; [intros; by rewrite app_nil_r|done..].
Qed.

(** One call accepts what the specification accepts and keeps the released
    list the sequence-ordered prefix of it. *)
Lemma record_refines log released st sequence batch out :
  refines log released st -> pending_ st !! next_sequence_ st = None ->
  0 <= sequence < U64_MAX ->
  exists st' new, record st sequence batch (Some out)
      = ((accept log sequence batch).1, st', Some (out ++ new)) /\
    refines (accept log sequence batch).2 (released ++ new) st' /\
    pending_ st' !! next_sequence_ st' = None.
Proof.
  intros Href Hnone Hs. destruct (Href) as [Hl Ho Hp Hb Hd]. unfold record, accept.
  destruct (message_count batch =? 0); [exists st, []; by rewrite !app_nil_r|].
  destruct (Z.ltb_spec sequence (next_sequence_ st)) as [Hlt|Hge].
  { assert (is_Some (log !! sequence)) as [b Hlog].
    { destruct (lookup_lt_is_Some_2 released (Z.to_nat sequence)) as [b Hr]; [lia|].
      exists b. apply Ho in Hr. by rewrite Z2Nat.id in Hr by lia. }
    rewrite Hlog. exists st, []. by rewrite !app_nil_r. }
  rewrite (Hp _ Hge). destruct (log !! sequence) eqn:Hlog;
    [exists st, []; by rewrite !app_nil_r|].
  destruct (release_refines (S (size (pending_ st))) (<[sequence:=batch]> log) released
    (mk (next_sequence_ st) (<[sequence:=batch]> (pending_ st)))) as (st' & new & Hrel & H1 & H2).
  - split; simpl; [done|..].
    + intros i b Hi. rewrite lookup_insert_ne; [by apply Ho|].
      apply lookup_lt_Some in Hi. lia.
    + intros k Hk. rewrite !lookup_insert. case_decide; [done|by apply Hp].
    + intros k b [[<- _]|[_ Hk]]%lookup_insert_Some; [done|by eapply Hb].
    + intros k b [[<- _]|[_ Hk]]%lookup_insert_Some; [done|by eapply Hd].
  - simpl. rewrite map_size_insert_None; [lia|]. by rewrite Hp.
  - exists st', new. by rewrite Hrel.
Qed.

Lemma refines_init : refines ∅ [] init.
Proof. split; simpl; try done; intros; by rewrite ?lookup_empty in *. Qed.

Lemma refines_wf log out st :
  refines log out st -> pending_ st !! next_sequence_ st = None -> wf st.
Proof.
  intros [Hl Ho Hp Hb Hd] Hnone. split.
  - destruct (decide (out = [])) as [->|Hne]; [simpl in Hl; word_lia|].
    destruct (lookup_lt_is_Some_2 out (pred (length out))) as [b Hr];
      [destruct out; simpl; [done|lia]|].
    apply Ho, Hd in Hr. destruct out; simpl in *; [done|word_lia].
  - intros k b Hk. pose proof (Hb _ _ Hk) as Hge.
    assert (log !! k = Some b) as Hlog by (by rewrite <- Hp).
    apply Hd in Hlog. destruct (decide (k = next_sequence_ st)) as [->|]; [congruence|lia].
Qed.

(** A run: the completions in the order they arrive. *)
Definition step (acc : t * list DurableBatch) (c : Z * DurableBatch) : t * list DurableBatch :=
  match record acc.1 c.1 c.2 (Some acc.2) with
  | (_, st', Some out) => (st', out)
  | (_, st', None) => (st', acc.2)
  end.
Definition run (cs : list (Z * DurableBatch)) : t * list DurableBatch :=
  foldl step (init, []) cs.
Definition accepted (cs : list (Z * DurableBatch)) : gmap Z DurableBatch :=
  foldl (fun log c => (accept log c.1 c.2).2) ∅ cs.

Lemma run_refines cs :
  Forall (fun c => 0 <= c.1 < U64_MAX) cs ->
  refines (accepted cs) (run cs).2 (run cs).1 /\
  pending_ (run cs).1 !! next_sequence_ (run cs).1 = None.
Proof.
  induction cs as [|c cs IH] using rev_ind; intros Hcs.
  { split; [apply refines_init|apply lookup_empty]. }
  apply Forall_app in Hcs as [Hcs Hc]. rewrite Forall_singleton in Hc.
  destruct (IH Hcs) as [Href Hnone]. clear IH. unfold run, accepted. rewrite !foldl_snoc.
  fold (run cs) (accepted cs).
  destruct (record_refines _ _ _ c.1 c.2 (run cs).2 Href Hnone Hc) as (st' & new & Hrec & H1 & H2).
  unfold step. rewrite Hrec. done.
Qed.

(** The released batches are the accepted ones below the frontier, in sequence
    order, whatever order the completions arrived in. *)
Theorem durable_frontier_releases_prefix cs :
  Forall (fun c => 0 <= c.1 < U64_MAX) cs ->
  let n := next_sequence (run cs).1 in
  Some <$> (run cs).2 = (fun i => accepted cs !! Z.of_nat i) <$> seq 0 (Z.to_nat n) /\
  accepted cs !! n = None.
Proof.
  intros Hcs n. destruct (run_refines cs Hcs) as [Href Hnone].
  destruct (Href) as [Hl Ho Hp _ _]. subst n. unfold next_sequence. split.
  - rewrite Hl, Nat2Z.id. apply list_eq. intros i. rewrite !list_lookup_fmap.
    destruct ((run cs).2 !! i) as [b|] eqn:Hi; simpl.
    + rewrite lookup_seq_lt by by eapply lookup_lt_Some. simpl. by rewrite (Ho _ _ Hi).
    + by rewrite lookup_seq_ge by by apply lookup_ge_None.
  - by rewrite <- Hp.
Qed.

End DurableFrontier.

(** * The committed prefix of the global order index

    [EnqueueCompletedRange] / [CommittedSeqUpdaterThread] of
    src/embarlet/topic_order5_commit.cc: commit passes report the index ranges
    they finished; one thread publishes the last index of the prefix without a
    gap as [ControlBlock::committed_seq]. *)
Module CommittedSeqUpdater.

Record CompletedRange := mkRange {
  start : Z;  (** inclusive *)
  end_ : Z;   (** exclusive *)
}.

(** [pending.push]: the priority queue ordered by [operator>] on [start], its
    top first. *)
Fixpoint push (r : CompletedRange) (pending : list CompletedRange) : list CompletedRange :=
  match pending with
  | [] => [r]
  | q :: rest => if start q >? start r then r :: pending else q :: push r rest
  end.

Record t := mk {
  next_expected_start : Z;
  pending : list CompletedRange;
  committed_seq : Z;
}.

(** The thread's start: the frontier of the committed sequence it finds. *)
Definition init (cur : Z) : t :=
  mk (if cur =? U64_MAX then 0 else cur +u 1) [] cur.

(** The loop [while (!pending.empty())]. *)
Fixpoint advance (pending : list CompletedRange) (next : Z) (advanced : bool)
    : list CompletedRange * Z * bool :=
  match pending with
  | [] => ([], next, advanced)
  | r :: rest =>
      if end_ r <=? next then advance rest next advanced
      else if start r <=? next then advance rest (end_ r) true
      else (pending, next, advanced)
  end.

(** One turn of the thread on the ranges it drained from the queue. *)
Definition turn (st : t) (drained : list CompletedRange) : t :=
  let pending1 := foldl (fun q r => push r q) (pending st) drained in
  let '(pending2, next, advanced) := advance pending1 (next_expected_start st) false in
  let committed :=
    if advanced && (next >? 0) then next -u 1 else committed_seq st in
  mk next pending2 committed.

Definition covered (rs : list CompletedRange) (i : Z) : Prop :=
  exists r, r ∈ rs /\ start r <= i < end_ r.
Definition range_ok (r : CompletedRange) : Prop := 0 <= start r < end_ r /\ is_u64 (end_ r).
Definition by_start (q r : CompletedRange) : Prop := start q <= start r.

Lemma elem_of_push r q p : r ∈ push q p <-> r = q \/ r ∈ p.
Proof.
  induction p as [|x p IH]; simpl; [set_solver|].
  destruct (start x >? start q); [set_solver|].
  rewrite !elem_of_cons, IH. naive_solver.
Qed.

Lemma push_sorted q p : StronglySorted by_start p -> StronglySorted by_start (push q p).
Proof.
  induction 1 as [|x p Hs IH Hx]; simpl; [by repeat constructor|].
  destruct (Z.gtb_spec (start x) (start q)) as [Hgt|Hle].
  - constructor; [by constructor|]. constructor; [unfold by_start; lia|].
    eapply Forall_impl; [exact Hx|]. unfold by_start. lia.
  - constructor; [done|]. apply Forall_forall. intros r [->|Hr]%elem_of_push; [done|].
    rewrite Forall_forall in Hx. by apply Hx.
Qed.

Lemma drain_spec drained : forall p,
  StronglySorted by_start p ->
  let p' := foldl (fun q r => push r q) p drained in
  StronglySorted by_start p' /\ forall r, r ∈ p' <-> r ∈ p \/ r ∈ drained.
Proof.
  induction drained as [|d ds IH]; intros p Hp; simpl; [set_solver|].
  destruct (IH (push d p)) as [Hs Hr]; [by apply push_sorted|].
  split; [done|]. intros r. rewrite Hr, elem_of_push, elem_of_cons. naive_solver.
Qed.

(** The loop absorbs every range that starts at or before the frontier and
    stops at the first gap. *)
Lemma advance_spec p : forall next adv p' next' adv',
  StronglySorted by_start p -> advance p next adv = (p', next', adv') ->
  next <= next' /\
  (forall i, next <= i < next' -> covered p i) /\
  (forall r, r ∈ p' -> r ∈ p /\ next' < start r) /\
  (forall r, r ∈ p -> r ∈ p' \/ end_ r <= next') /\
  StronglySorted by_start p' /\
  (adv' = true <-> adv = true \/ next < next').
Proof.
  induction p as [|r p IH]; intros next adv p' next' adv' Hs Hadv; simpl in Hadv.
  { simplify_eq. split_and!; set_solver by lia. }
  inversion Hs as [|?? Hs' Hr]; subst.
  destruct (Z.leb_spec (end_ r) next) as [Hend|Hend].
  { destruct (IH _ _ _ _ _ Hs' Hadv) as (H1 & H2 & H3 & H4 & H5 & H6).
    split_and!; [done| | | |done|done].
    - intros i Hi. destruct (H2 i Hi) as (q & ? & ?). exists q. set_solver.
    - intros q Hq. destruct (H3 q Hq). set_solver.
    - intros q [->|Hq]%elem_of_cons; [right; lia|by apply H4]. }
  destruct (Z.leb_spec (start r) next) as [Hst|Hst].
  { destruct (IH _ _ _ _ _ Hs' Hadv) as (H1 & H2 & H3 & H4 & H5 & H6).
    split_and!; [lia| | | |done|].
    - intros i Hi. destruct (Z.lt_ge_cases i (end_ r)).
      + exists r. split; [left|lia].
      + destruct (H2 i ltac:(lia)) as (q & ? & ?). exists q. set_solver.
    - intros q Hq. destruct (H3 q Hq). set_solver.
    - intros q [->|Hq]%elem_of_cons; [right; lia|by apply H4].
    - rewrite H6. intuition lia. }
  simplify_eq. split_and!; [lia|lia| |set_solver|done|intuition lia].
  intros q [->|Hq]%elem_of_cons; [set_solver|].
  rewrite Forall_forall in Hr. specialize (Hr q Hq). unfold by_start in Hr.
  split; [set_solver|lia].
Qed.

(** [st] has seen [seen], starting from frontier [base]. *)
Record inv (base : Z) (seen : list CompletedRange) (st : t) : Prop := {
  inv_base : 0 <= base <= next_expected_start st;
  inv_u64 : is_u64 (next_expected_start st);
  inv_covered i : base <= i < next_expected_start st -> covered seen i;
  inv_seen r : r ∈ seen -> r ∈ pending st \/ end_ r <= next_expected_start st;
  inv_pending r : r ∈ pending st -> r ∈ seen /\ next_expected_start st < start r;
  inv_sorted : StronglySorted by_start (pending st);
  inv_committed : committed_seq st = next_expected_start st -u 1;
}.

Lemma inv_init cur :
  is_u64 cur -> inv (next_expected_start (init cur)) [] (init cur).
Proof.
  intros Hc. unfold init. destruct (Z.eqb_spec cur U64_MAX) as [->|];
    split; simpl; try constructor; try set_solver by lia; try word_lia.
Qed.

Lemma inv_turn base seen st drained :
  inv base seen st -> Forall range_ok drained ->
  (forall r, r ∈ seen -> range_ok r) ->
  inv base (seen ++ drained) (turn st drained).
Proof.
  intros [Hb Hu Hcov Hseen Hpend Hsort Hcom] Hok Hok'. unfold turn.
  destruct (drain_spec drained (pending st) Hsort) as [Hs1 Hin1].
  set (p1 := foldl _ _ _) in *.
  destruct (advance p1 (next_expected_start st) false) as [[p2 next] adv] eqn:Hadv.
  destruct (advance_spec _ _ _ _ _ _ Hs1 Hadv) as (H1 & H2 & H3 & H4 & H5 & H6).
  assert (Hp1 : forall r, r ∈ p1 -> r ∈ seen ++ drained).
  { intros r [Hr|Hr]%Hin1; apply elem_of_app; [left; by apply Hpend|by right]. }
  assert (Hnew : next = next_expected_start st \/ is_u64 next /\ 0 < next).
  { destruct (Z.eq_dec next (next_expected_start st)); [by left|right].
    destruct (H2 (next - 1)) as (r & Hr & Hr'); [lia|].
    assert (range_ok r) as [? ?].
    { apply Hp1, elem_of_app in Hr as [Hr|Hr]; [by apply Hok'|].
      rewrite Forall_forall in Hok. by apply Hok. }
    word_lia. }
  split; simpl; [lia|destruct Hnew as [->|[? ?]]; done| | | |done|].
  - intros i Hi. destruct (Z.lt_ge_cases i (next_expected_start st)).
    + destruct (Hcov i ltac:(lia)) as (r & ? & ?). exists r. set_solver.
    + destruct (H2 i ltac:(lia)) as (r & ? & ?). exists r. split; [by apply Hp1|done].
  - intros r [Hr|Hr]%elem_of_app.
    + destruct (Hseen r Hr) as [Hr'|]; [|right; lia]. apply H4, Hin1. by left.
    + apply H4, Hin1. by right.
  - intros r Hr. destruct (H3 r Hr). split; [by apply Hp1|done].
  - destruct adv; simpl.
    + assert (next_expected_start st < next) by (destruct (proj1 H6 eq_refl); [done|lia]).
      destruct (Z.gtb_spec next 0); [done|lia].
    + assert (next = next_expected_start st) as -> by
        (destruct (Z.eq_dec next (next_expected_start st)); [done|];
         assert (false = true) by (apply H6; right; lia); done).
      done.
Qed.

Lemma inv_run chunks cur :
  is_u64 cur -> Forall (Forall range_ok) chunks ->
  inv (next_expected_start (init cur)) (concat chunks) (foldl turn (init cur) chunks).
Proof.
  intros Hcur. induction chunks as [|c cs IH] using rev_ind; intros Hok.
  { by apply inv_init. }
  apply Forall_app in Hok as [Hcs Hc]. rewrite Forall_singleton in Hc.
  rewrite foldl_snoc, concat_app. simpl. rewrite app_nil_r.
  apply inv_turn; [by apply IH|done|].
  apply Forall_forall, Forall_concat. done.
Qed.

(** [committed_seq] is the last index of the longest gap-free prefix of the
    reported ranges ([UINT64_MAX] while it is empty). *)
Theorem committed_seq_is_gap_free_prefix chunks cur :
  is_u64 cur -> Forall (Forall range_ok) chunks ->
  let base := next_expected_start (init cur) in
  let st := foldl turn (init cur) chunks in
  exists next, committed_seq st = next -u 1 /\ base <= next /\
    (forall i, base <= i < next -> covered (concat chunks) i) /\
    ~ covered (concat chunks) next.
Proof.
  intros Hcur Hok base st. destruct (inv_run chunks cur Hcur Hok) as [Hb _ Hcov Hseen Hpend _ Hcom].
  exists (next_expected_start st). split_and!; [done|apply Hb|done|].
  intros (r & Hr & Hin). destruct (Hseen r Hr) as [Hp|]; [apply Hpend in Hp|]; subst st; lia.
Qed.

End CommittedSeqUpdater.

(** Witnesses. *)
Lemma durable_frontier_releases_prefix_witness :
  let cs := [(1, DurableFrontier.mkBatch 3 7); (0, DurableFrontier.mkBatch 2 7);
             (3, DurableFrontier.mkBatch 1 7)] in
  Some <$> (DurableFrontier.run cs).2
    = (fun i => DurableFrontier.accepted cs !! Z.of_nat i) <$> seq 0 (Z.to_nat 2).
Proof.
  refine (proj1 (DurableFrontier.durable_frontier_releases_prefix _ _)).
  repeat constructor; vm_compute; discriminate.
Defined.

Lemma committed_seq_is_gap_free_prefix_witness :
  let chunks := [[CommittedSeqUpdater.mkRange 4 6]; [CommittedSeqUpdater.mkRange 0 4]] in
  let st := foldl CommittedSeqUpdater.turn (CommittedSeqUpdater.init U64_MAX) chunks in
  CommittedSeqUpdater.committed_seq st = 5 /\
  exists next, CommittedSeqUpdater.committed_seq st = next -u 1.
Proof.
  intros chunks st. split; [vm_compute; reflexivity|].
  destruct (CommittedSeqUpdater.committed_seq_is_gap_free_prefix chunks U64_MAX)
    as (next & H & _).
  - vm_compute; split; [discriminate|reflexivity].
  - repeat constructor; vm_compute; try discriminate; reflexivity.
  - exists next. exact H.
Defined.
