(* ===== verification/ClientState.v ===== *)
(** Per-session sequencing state and the decision helpers of
    src/embarlet/sequencer_utils.h and src/embarlet/topic_session_key.h. *)

From S2P Require Import Prelude.

(** * [OptimizedClientState] *)

Definition kClientWindowSize : Z := 1024.

Record ClientState5 := mkClientState5 {
  next_expected : Z;
  highest_sequenced : Z;
  last_epoch : Z;
  fenced : bool;
  committed_hwm : Z;
  fence_epoch : Z;
  session_epoch : Z;
  gap_since_ns : Z;
  window_base : Z;
  window_seen : gset Z;  (** the indices of [std::array<bool, 1024>] that hold [true] *)
}.
#[global] Instance eta_ClientState5 : Eta ClientState5 := fun s =>
  mkClientState5 (next_expected s) (highest_sequenced s) (last_epoch s) (fenced s)
    (committed_hwm s) (fence_epoch s) (session_epoch s) (gap_since_ns s)
    (window_base s) (window_seen s).

Definition ClientState5_init : ClientState5 := mkClientState5 0 0 0 false 0 0 0 0 0 ∅.

Definition is_duplicate (s : ClientState5) (seq : Z) : bool :=
  if seq <? window_base s then false
  else if seq >=? window_base s +u kClientWindowSize then false
  else bool_decide (seq mod kClientWindowSize ∈ window_seen s).

(** The [while] loop of [mark_sequenced]; [window_base] grows by one each turn
    and stays below [next_expected]. *)
Fixpoint slide_window (fuel : nat) (s : ClientState5) (seq : Z) : ClientState5 :=
  match fuel with
  | O => s
  | S n =>
      if (window_base s <? next_expected s) &&
         (window_base s +u kClientWindowSize <=? seq +u (kClientWindowSize / 2))
      then slide_window n
             (s <| window_seen := window_seen s ∖ {[window_base s mod kClientWindowSize]} |>
                <| window_base := window_base s +u 1 |>) seq
      else s
  end.

Definition mark_sequenced (s : ClientState5) (seq : Z) : ClientState5 :=
  let s := s <| highest_sequenced := Z.max (highest_sequenced s) seq |> in
  let s :=
    if (seq >=? window_base s) && (seq <? window_base s +u kClientWindowSize)
    then s <| window_seen := {[seq mod kClientWindowSize]} ∪ window_seen s |>
    else s in
  slide_window (Z.to_nat (next_expected s - window_base s)) s seq.

Definition advance_next_expected (s : ClientState5) : ClientState5 :=
  s <| next_expected := next_expected s +u 1 |> <| gap_since_ns := 0 |>.

Definition set_next_expected (s : ClientState5) (next : Z) : ClientState5 :=
  (if negb (next =? next_expected s) then s <| gap_since_ns := 0 |> else s)
    <| next_expected := next |>.

Definition note_gap (s : ClientState5) (now_ns : Z) : ClientState5 :=
  if negb (fenced s) && (gap_since_ns s =? 0) then s <| gap_since_ns := now_ns |> else s.

Definition fence (s : ClientState5) : ClientState5 :=
  if negb (fenced s) then
    s <| fenced := true |>
      <| committed_hwm := if next_expected s =? 0 then 0 else next_expected s -u 1 |>
  else s.

Definition HasCommittedPrefix (s : ClientState5) : bool := next_expected s >? 0.

(** * Slot identities and decision predicates *)

Record Order5SlotIdentity := mkSlot {
  slot_broker_id : Z;
  slot_slot_offset : Z;
  slot_pbr_index : Z;
}.

Definition CanFenceSessionEpoch (session_epoch : Z) : bool := negb (session_epoch =? 0).

Definition ShouldFenceSessionGap (s : ClientState5) (now_ns session_lease_ns : Z) : bool :=
  CanFenceSessionEpoch (session_epoch s) && negb (fenced s) &&
  negb (gap_since_ns s =? 0) && (now_ns -u gap_since_ns s >=? session_lease_ns).

Definition kForceExpireShortLeaseNs : Z := 250 * 1000 * 1000.
Definition EffectiveOrder5SessionFenceLeaseNs (session_lease_ns : Z)
    (force_expire_active : bool) : Z :=
  if negb force_expire_active then session_lease_ns
  else if session_lease_ns <? kForceExpireShortLeaseNs then session_lease_ns
  else kForceExpireShortLeaseNs.

Definition ShouldClearSessionGapFromHeldMax (next_expected max_held_seq : Z) : bool :=
  max_held_seq <=? next_expected.

Definition Order5SlotMatches (slot : Order5SlotIdentity) (broker_id slot_offset pbr_index : Z)
    : bool :=
  (slot_broker_id slot =? broker_id) && (slot_slot_offset slot =? slot_offset) &&
  (slot_pbr_index slot =? pbr_index).

Definition RecoveredNextExpected (goi_scan_next session_entry_expected : Z) : Z :=
  Z.max goi_scan_next session_entry_expected.

(** The three-argument overload of [ReconnectAnswerHwm]. *)
Definition ReconnectAnswerHwm (session_entry_hwm : Z) (goi_hwm_found : bool)
    (goi_committed_hwm : Z) : Z :=
  if negb goi_hwm_found then session_entry_hwm
  else Z.min session_entry_hwm goi_committed_hwm.

Definition ShouldTerminalFenceAckRelay (client_inclusive_batch_hwm : Z) (goi_hwm_found : bool)
    (goi_committed_hwm : Z) : bool :=
  negb goi_hwm_found || (client_inclusive_batch_hwm >? goi_committed_hwm).

Definition ShouldWithholdAckRelay (producing_epoch control_epoch : Z) : bool :=
  negb (control_epoch =? 0) && (producing_epoch <? control_epoch).

Definition ShouldRejectOrder5SpatialGuard (session_active session_fenced : bool)
    (batch_seq durable_expected : Z) : bool :=
  session_active && (session_fenced || (batch_seq <? durable_expected)).

(** * Session keys and the hash of the session table *)

Definition MakeSessionKey (client_id session_epoch : Z) : Z :=
  Z.lor (u32 client_id <<u 32) session_epoch.

Definition Mix64 (x : Z) : Z :=
  let x := Z.lxor x (Z.shiftr x 33) in
  let x := x *u 18397679294719823053 in
  let x := Z.lxor x (Z.shiftr x 33) in
  let x := x *u 14181476777654086739 in
  Z.lxor x (Z.shiftr x 33).

Definition kSessionEntryFlagFenced : Z := 1.
Definition kSessionEntryFlagActive : Z := 2.

(** [MakeClientBrokerStreamKey] of src/embarlet/topic_order5_internal.h. *)
Definition MakeClientBrokerStreamKey (client_id session_epoch broker_id : Z) : Z :=
  if session_epoch =? 0 then
    Z.lor (client_id <<u 16) (u16 broker_id)
  else
    Mix64 (Z.lxor (MakeSessionKey client_id session_epoch) (Z.shiftl (u16 broker_id) 1)).

(** * The duplicate window *)

Definition in_window (s : ClientState5) (seq : Z) : bool :=
  (window_base s <=? seq) && (seq <? window_base s + kClientWindowSize).

(** Sequence numbers small enough that [base + 1024] does not wrap. *)
Definition seq_ok (z : Z) : Prop := 0 <= z < 2 ^ 63.

Lemma slide_window_spec fuel : forall s seq,
  seq_ok (window_base s) -> seq_ok (next_expected s) -> seq_ok seq ->
  let s' := slide_window fuel s seq in
  window_base s <= window_base s' <= Z.max (window_base s) (seq - 511) /\
  (forall k, k ∈ window_seen s' <->
     k ∈ window_seen s /\ forall b, window_base s <= b < window_base s' -> b mod 1024 <> k) /\
  seq_ok (window_base s').
Proof.
  unfold seq_ok. induction fuel as [|n IH]; intros s seq Hb Hn Hs; simpl.
  { split_and!; [lia|lia|set_solver by lia|lia..]. }
  unfold kClientWindowSize. rewrite !u64_id by word_lia.
  destruct (_ && _) eqn:Ht; [|split_and!; [lia|lia|set_solver by lia|lia..]].
  bool_props. change (1024 / 2) with 512 in *.
  match goal with |- context [slide_window n ?x seq] => set (s1 := x) end.
  destruct (IH s1 seq) as (H1 & H2 & H3); [subst s1; simpl; rewrite ?u64_id by word_lia; lia..|].
  subst s1. simpl in *. rewrite ?u64_id in * by word_lia.
  split_and!; [lia|lia| |lia..]. intros k. rewrite H2. split.
  - intros [[Hk Hne]%elem_of_difference Hall]. split; [done|]. intros b Hbb.
    destruct (Z.eq_dec b (window_base s)) as [->|]; [set_solver|apply Hall; lia].
  - intros [Hk Hall]. split; [|intros b Hbb; apply Hall; lia].
    apply elem_of_difference. split; [done|]. rewrite elem_of_singleton. intros ->.
    apply (Hall (window_base s)); [lia|done].
Qed.

Lemma is_duplicate_window s x :
  seq_ok (window_base s) ->
  is_duplicate s x = in_window s x && bool_decide (x mod 1024 ∈ window_seen s).
Proof.
  unfold seq_ok. intros Hb. unfold is_duplicate, in_window, kClientWindowSize.
  rewrite u64_id by word_lia.
  destruct (Z.ltb_spec x (window_base s)), (Z.leb_spec (window_base s) x),
    (Z.geb_spec x (window_base s + 1024)), (Z.ltb_spec x (window_base s + 1024)); simpl; try lia; done.
Qed.

(** Marking a sequence records exactly that sequence, when it lies in the
    window, and the slots that slide into the window start clear. *)
Theorem mark_sequenced_window s seq x :
  seq_ok (window_base s) -> seq_ok (next_expected s) -> seq_ok seq ->
  let s' := mark_sequenced s seq in
  is_duplicate s' x =
    (window_base s' <=? x) && (is_duplicate s x || ((x =? seq) && in_window s seq)).
Proof.
  intros Hb Hn Hs s'. 
  assert (Hsl : exists s0, s' = slide_window (Z.to_nat (next_expected s - window_base s)) s0 seq /\
    window_base s0 = window_base s /\ next_expected s0 = next_expected s /\
    forall k, k ∈ window_seen s0 <->
      k ∈ window_seen s \/ in_window s seq = true /\ k = seq mod 1024).
  { subst s'. unfold mark_sequenced, in_window, kClientWindowSize, seq_ok in *. simpl.
    rewrite u64_id by word_lia. rewrite Z.geb_leb.
    destruct (_ && _); (eexists; split; [reflexivity|simpl; split_and!; [done..|set_solver]]). }
  destruct Hsl as (s0 & Hs' & Hb0 & Hn0 & Hseen).
  destruct (slide_window_spec (Z.to_nat (next_expected s - window_base s)) s0 seq)
    as (H1 & H2 & H3); [congruence..|done|]. rewrite <- Hs', Hb0 in *. clearbody s'.
  rewrite !is_duplicate_window by done. apply eq_true_iff_eq.
  unfold in_window, kClientWindowSize in *.
  rewrite !andb_true_iff, !orb_true_iff, !andb_true_iff, !bool_decide_eq_true, !Z.leb_le,
    !Z.ltb_lt, Z.eqb_eq, H2, Hseen. rewrite andb_true_iff, Z.leb_le, Z.ltb_lt.
  clear -H1. split.
  - intros [[Hx1 Hx2] [Hin Hclear]]. split; [done|].
    assert (x < window_base s + 1024).
    { destruct (Z.lt_ge_cases x (window_base s + 1024)); [done|].
      destruct (Hclear (x - 1024)); [lia|].
      replace x with ((x - 1024) + 1 * 1024) at 2 by lia. by rewrite Z_mod_plus_full. }
    destruct Hin as [?|[? Hmod]]; [left; split; [lia|done]|right].
    split; [|done]. destruct (Z.le_ge_cases x seq);
      [|symmetry in Hmod; symmetry]; apply (mod_window _ _ _ Hmod); lia.
  - intros [Hb' Hor]. destruct Hor as [[[? ?] Hin]|[-> ?]].
    all: split; [lia|]; split; [tauto|].
    all: intros b Hbb Hmod; apply mod_window in Hmod; lia.
Qed.

(** * Fencing *)

Lemma fence_idemp s : fence (fence s) = fence s.
Proof. unfold fence at 1. unfold fence. destruct (fenced s) eqn:E; simpl; by rewrite ?E. Qed.

(** A force-expire window never removes the lease and never lengthens it. *)
Lemma effective_lease_bounds lease active :
  0 < lease ->
  0 < EffectiveOrder5SessionFenceLeaseNs lease active <= lease.
Proof.
  intros. unfold EffectiveOrder5SessionFenceLeaseNs, kForceExpireShortLeaseNs.
  case_tests; bool_props; lia.
Qed.

(** * Session keys *)

Lemma MakeSessionKey_value client epoch :
  is_u32 epoch -> MakeSessionKey client epoch = u32 client * 2 ^ 32 + epoch.
Proof.
  intros He. unfold MakeSessionKey. rewrite u64_id.
  - apply lor_shiftl_low; [lia|done].
  - rewrite Z.shiftl_mul_pow2 by lia. word_lia.
Qed.

Lemma MakeSessionKey_range client epoch :
  is_u32 epoch -> is_u64 (MakeSessionKey client epoch).
Proof. intros. rewrite MakeSessionKey_value by done. word_lia. Qed.

(** The key is the pair: no two sessions of 32-bit clients share a key, and
    the fence path's [session_key >> 32] recovers the client. *)
Lemma MakeSessionKey_inj c1 e1 c2 e2 :
  is_u32 c1 -> is_u32 e1 -> is_u32 c2 -> is_u32 e2 ->
  MakeSessionKey c1 e1 = MakeSessionKey c2 e2 -> c1 = c2 /\ e1 = e2.
Proof.
  intros. rewrite !MakeSessionKey_value in * by done. rewrite !u32_id in * by done.
  word_unfold. lia.
Qed.

Lemma MakeSessionKey_client c e :
  is_u32 c -> is_u32 e -> Z.shiftr (MakeSessionKey c e) 32 = c.
Proof.
  intros. rewrite MakeSessionKey_value, u32_id, Z.shiftr_div_pow2 by (done || lia).
  word_unfold. Z.to_euclidean_division_equations. lia.
Qed.

Lemma MakeSessionKey_nonzero c e : is_u32 e -> e <> 0 -> MakeSessionKey c e <> 0.
Proof. intros. rewrite MakeSessionKey_value by done. word_lia. Qed.
