(* ===== verification/Sorting.v ===== *)
(** Sorting: [std::sort] as an interface, and the [RadixSorter] of
    src/embarlet/sequencer_utils.h. *)

From S2P Require Import Prelude.

(** * [std::sort]

    The standard fixes the result up to the order of equivalent elements, and
    only for a comparator that is a strict weak order. *)

Record strict_weak_order {T} (lt : T -> T -> bool) : Prop := {
  swo_irrefl a : lt a a = false;
  swo_trans a b c : lt a b = true -> lt b c = true -> lt a c = true;
  swo_ge_trans a b c : lt b a = false -> lt c b = false -> lt c a = false;
}.

Class StdSort := {
  std_sort : forall {T : Type}, (T -> T -> bool) -> list T -> list T;
  std_sort_perm : forall {T} (lt : T -> T -> bool) l,
    strict_weak_order lt -> std_sort lt l ≡ₚ l;
  std_sort_sorted : forall {T} (lt : T -> T -> bool) l,
    strict_weak_order lt -> StronglySorted (fun a b => lt b a = false) (std_sort lt l);
}.

Definition by_key {T} (key : T -> Z) (a b : T) : bool := key a <? key b.

Lemma by_key_swo {T} (key : T -> Z) : strict_weak_order (by_key key).
Proof.
  split; unfold by_key; intros *; rewrite ?Z.ltb_lt, ?Z.ltb_ge; lia.
Qed.

(** A comparator that compares one key and breaks ties with another comparator. *)
Definition by_key_then {T} (key : T -> Z) (lt : T -> T -> bool) (a b : T) : bool :=
  if negb (key a =? key b) then key a <? key b else lt a b.

Lemma by_key_then_swo {T} (key : T -> Z) lt :
  strict_weak_order lt -> strict_weak_order (@by_key_then T key lt).
Proof.
  intros [Hi Ht Hg]. split; unfold by_key_then.
  - intros a. rewrite Z.eqb_refl. apply Hi.
  - intros a b c. destruct (Z.eqb_spec (key a) (key b)), (Z.eqb_spec (key b) (key c)),
      (Z.eqb_spec (key a) (key c)); simpl; rewrite ?Z.ltb_lt; intros; try lia; eauto.
  - intros a b c. destruct (Z.eqb_spec (key b) (key a)), (Z.eqb_spec (key c) (key b)),
      (Z.eqb_spec (key c) (key a)); simpl; rewrite ?Z.ltb_ge; intros; try lia; eauto.
Qed.
#[export] Hint Resolve by_key_swo by_key_then_swo : emb.

Section std_sort_facts.
  Context `{StdSort} {T : Type}.

Lemma std_sort_by_key (key : T -> Z) l :
  StronglySorted (fun a b => key a <= key b) (std_sort (by_key key) l).
Proof.
  eapply StronglySorted_impl; [|apply std_sort_sorted, by_key_swo].
  unfold by_key. intros a b _ _. rewrite Z.ltb_ge. done.
Qed.
End std_sort_facts.

(** An insertion sort implements the interface; the witnesses run it. *)
Module InsertionSort.
Fixpoint insert {T} (lt : T -> T -> bool) (x : T) (l : list T) : list T :=
  match l with
  | [] => [x]
  | y :: l' => if lt y x then y :: insert lt x l' else x :: l
  end.
Definition sort {T} (lt : T -> T -> bool) (l : list T) : list T :=
  foldr (insert lt) [] l.

Lemma insert_perm {T} (lt : T -> T -> bool) x l : insert lt x l ≡ₚ x :: l.
Proof. induction l as [|y l IH]; simpl; [done|]. destruct (lt y x); [|done]. rewrite IH. constructor. Qed.

Lemma sort_perm {T} (lt : T -> T -> bool) l : sort lt l ≡ₚ l.
Proof. induction l as [|x l IH]; simpl; [done|]. by rewrite insert_perm, IH. Qed.

Lemma insert_sorted {T} (lt : T -> T -> bool) x l :
  strict_weak_order lt ->
  StronglySorted (fun a b => lt b a = false) l ->
  StronglySorted (fun a b => lt b a = false) (insert lt x l).
Proof.
  intros Hlt Hl. induction Hl as [|y l Hl IH Hy]; simpl; [by repeat constructor|].
  destruct (lt y x) eqn:E.
  - constructor; [done|]. rewrite insert_perm. constructor; [|done].
    destruct (lt x y) eqn:E'; [|done].
    by rewrite <- (swo_irrefl lt Hlt x), (swo_trans lt Hlt x y x).
  - constructor; [by constructor|]. constructor; [done|].
    eapply Forall_impl; [exact Hy|]. simpl. intros z Hz. by eapply (swo_ge_trans lt Hlt x y z).
Qed.

Lemma sort_sorted {T} (lt : T -> T -> bool) l :
  strict_weak_order lt -> StronglySorted (fun a b => lt b a = false) (sort lt l).
Proof. intros Hlt. induction l; simpl; [constructor|]. by apply insert_sorted. Qed.

#[global] Instance std_sort_instance : StdSort := {
  std_sort := @sort;
  std_sort_perm T lt l _ := sort_perm lt l;
  std_sort_sorted T lt l := sort_sorted lt l;
}.
End InsertionSort.

(** * [RadixSorter] *)
Module RadixSorter.
Section sorter.
  Context `{StdSort} {T : Type} (client_id : T -> Z).

Definition kRadixThreshold : Z := 4096.
Definition kBits : Z := 16.
Definition kBuckets : Z := 65536.
Definition kMask : Z := kBuckets - 1.

Definition bucket (shift : Z) (x : T) : Z := Z.land (Z.shiftr (client_id x) shift) kMask.

(** [std::array<size_t, kBuckets> counts{}]: the cells not in the map hold 0. *)
Definition cell (counts : gmap Z nat) (b : Z) : nat := default 0%nat (counts !! b).

Fixpoint count_loop (key : T -> Z) (src : list T) (counts : gmap Z nat) : gmap Z nat :=
  match src with
  | [] => counts
  | x :: src' => count_loop key src' (<[key x := S (cell counts (key x))]> counts)
  end.

Fixpoint prefix_loop (bs : list Z) (counts : gmap Z nat) (total : nat) : gmap Z nat :=
  match bs with
  | [] => counts
  | b :: bs' =>
      let c := cell counts b in
      prefix_loop bs' (<[b := total]> counts) (total + c)%nat
  end.

Fixpoint scatter_loop (key : T -> Z) (src : list T) (counts : gmap Z nat) (dst : list T) : list T :=
  match src with
  | [] => dst
  | x :: src' =>
      let pos := cell counts (key x) in
      scatter_loop key src' (<[key x := S pos]> counts) (<[pos := x]> dst)
  end.

Definition radix_pass (key : T -> Z) (src dst : list T) : list T :=
  let counts := count_loop key src ∅ in
  let counts := prefix_loop (seqZ 0 kBuckets) counts 0 in
  scatter_loop key src counts dst.

(** The four passes; [std::swap(src, dst)] ends each of them. *)
Fixpoint passes (ps : list Z) (src dst : list T) : list T * list T :=
  match ps with
  | [] => (src, dst)
  | pass :: ps' =>
      let shift := pass * kBits in
      passes ps' (radix_pass (bucket shift) src dst) src
  end.

Definition vec_resize (dflt : T) (n : nat) (l : list T) : list T :=
  take n l ++ replicate (n - length l) dflt.

(** Sorts [arr] in place; [temp_] is the sorter's scratch vector.  After the
    fourth swap [src] points at [arr] again. *)
Definition sort_by_client_id (dflt : T) (temp arr : list T) : list T * list T :=
  let n := length arr in
  if Z.of_nat n <=? 1 then (arr, temp)
  else if Z.of_nat n <? kRadixThreshold then (std_sort (by_key client_id) arr, temp)
  else passes (seqZ 0 4) arr (vec_resize dflt n temp).

(** ** One pass is a stable bucket sort *)

Section pass.
  Context (key : T -> Z).

(** Bucket [b] of [l], and the buckets below [k] in order. *)
Definition bin (b : Z) (l : list T) : list T := filter (fun x => key x = b) l.
Definition bins (k : Z) (l : list T) : list T := (seqZ 0 k) ≫= (fun b => bin b l).

Lemma cell_insert counts a b v :
  cell (<[a := v]> counts) b = if decide (a = b) then v else cell counts b.
Proof. unfold cell. rewrite lookup_insert. by case_decide. Qed.

Lemma count_loop_spec src : forall counts b,
  cell (count_loop key src counts) b = (cell counts b + length (bin b src))%nat.
Proof.
  unfold bin. induction src as [|x src IH]; intros counts b; simpl; [lia|].
  rewrite IH, cell_insert. rewrite filter_cons. repeat case_decide; subst; simpl; lia.
Qed.

Lemma bins_S k l : 0 <= k -> bins (Z.succ k) l = bins k l ++ bin k l.
Proof.
  intros Hk. unfold bins. rewrite <- (Z2Nat.id k) by done.
  rewrite <- Nat2Z.inj_succ, seqZ_S, bind_app. simpl. by rewrite app_nil_r.
Qed.

(** The prefix-sum loop leaves in each cell the start of its bucket. *)
Lemma prefix_loop_spec l (n : nat) counts k b :
  0 <= k ->
  (forall c, k <= c -> cell counts c = length (bin c l)) ->
  cell (prefix_loop (seqZ k (Z.of_nat n)) counts (length (bins k l))) b =
    if decide (k <= b < k + Z.of_nat n) then length (bins b l) else cell counts b.
Proof.
  revert k counts. induction n as [|n IH]; intros k counts Hk Hc.
  - simpl. rewrite decide_False by lia. done.
  - rewrite seqZ_cons by lia. simpl. replace (Z.pred (Z.of_nat (S n))) with (Z.of_nat n) by lia.
    rewrite (Hc k), <- length_app, <- bins_S by lia. rewrite IH; [|lia|].
    + case_decide; [by rewrite decide_True by lia|]. rewrite cell_insert.
      case_decide; [subst; by rewrite decide_True by lia|by rewrite decide_False by lia].
    + intros c Hkc. rewrite cell_insert, decide_False by lia. apply Hc. lia.
Qed.

Lemma bins_gap b k l :
  0 <= b < k -> (length (bins b l) + length (bin b l) <= length (bins k l))%nat.
Proof.
  intros [Hb Hk]. rewrite <- length_app, <- bins_S by done.
  unfold bins. replace k with (Z.succ b + (k - Z.succ b)) by lia.
  rewrite seqZ_app by lia. rewrite bind_app, length_app. lia.
Qed.

Lemma bins_lookup k l p x :
  bins k l !! p = Some x ->
  exists b r, 0 <= b < k /\ p = (length (bins b l) + r)%nat /\ bin b l !! r = Some x.
Proof.
  destruct (Z.le_gt_cases k 0) as [Hk|Hk].
  { unfold bins. by rewrite seqZ_nil by lia. }
  rewrite <- (Z2Nat.id k) by lia. generalize (Z.to_nat k) as n. clear k Hk.
  induction n as [|n IH]; [done|]. rewrite Nat2Z.inj_succ, bins_S by lia.
  rewrite lookup_app_Some. intros [Hx|[Hp Hx]].
  - destruct (IH Hx) as (b & r & Hb & Hp & Hr). exists b, r. split_and!; [lia..|done].
  - exists (Z.of_nat n), (p - length (bins (Z.of_nat n) l))%nat. split_and!; [lia..|done].
Qed.

Lemma bins_perm k l :
  Forall (fun x => 0 <= key x < k) l -> bins k l ≡ₚ l.
Proof.
  induction 1 as [|x l Hx Hl IH].
  - unfold bins. induction (seqZ 0 k); simpl; [done|]. done.
  - transitivity (x :: bins k l); [|by rewrite IH]. clear IH Hl.
    assert (key x ∈ seqZ 0 k) as [i Hi]%list_elem_of_lookup by (apply elem_of_seqZ; lia).
    pose proof (NoDup_seqZ 0 k) as Hnd. unfold bins.
    apply list_elem_of_split_length in Hi as (l1 & l2 & E & _). rewrite E in Hnd |- *.
    apply NoDup_app in Hnd as (_ & Hd & [Hk2 _]%NoDup_cons).
    rewrite !bind_app, !bind_cons.
    assert (forall bs, key x ∉ bs ->
      (bs ≫= (fun b => bin b (x :: l))) = (bs ≫= (fun b => bin b l))) as Hother.
    { induction bs as [|b bs IH]; intros Hbs; [done|]. rewrite !bind_cons, IH by set_solver.
      f_equal. apply filter_cons_False. set_solver. }
    rewrite !Hother by (set_solver). replace (bin (key x) (x :: l)) with (x :: bin (key x) l)
      by (symmetry; by apply filter_cons_True).
    rewrite <- app_comm_cons. symmetry. apply Permutation_middle.
Qed.

(** What the scatter loop has written once it has consumed [front]. *)
Definition scattered (src front : list T) (counts : gmap Z nat) (dst : list T) : Prop :=
  length dst = length src /\
  forall b, 0 <= b < kBuckets ->
    cell counts b = (length (bins b src) + length (bin b front))%nat /\
    forall r x, bin b front !! r = Some x -> dst !! (length (bins b src) + r)%nat = Some x.

Lemma bin_app b l1 l2 : bin b (l1 ++ l2) = bin b l1 ++ bin b l2.
Proof. apply filter_app. Qed.

Lemma bin_singleton b x : bin b [x] = if decide (key x = b) then [x] else [].
Proof. unfold bin. rewrite filter_cons. by case_decide. Qed.

Lemma scattered_step src front x rest counts dst :
  src = front ++ x :: rest ->
  Forall (fun x => 0 <= key x < kBuckets) src ->
  scattered src front counts dst ->
  scattered src (front ++ [x]) (<[key x := S (cell counts (key x))]> counts)
    (<[cell counts (key x) := x]> dst).
Proof.
  intros Hsrc Hkey [Hlen Hinv].
  assert (0 <= key x < kBuckets) as Hx.
  { rewrite Forall_forall in Hkey. apply Hkey. set_solver. }
  assert (forall b, (length (bin b (front ++ [x])) <= length (bin b src))%nat) as Hle.
  { intros b. rewrite Hsrc, (cons_middle x front rest), app_assoc, (bin_app b _ rest), length_app. lia. }
  destruct (Hinv _ Hx) as [Hcx _]. pose proof (Hle (key x)) as Hlx.
  rewrite bin_app, bin_singleton, decide_True, length_app in Hlx by done. simpl in Hlx.
  assert (cell counts (key x) < length dst)%nat as Hpos.
  { pose proof (bins_gap (key x) kBuckets src Hx) as Hg.
    rewrite (bins_perm kBuckets src Hkey) in Hg. lia. }
  split; [by rewrite length_insert|]. intros b Hb. destruct (Hinv b Hb) as [Hcb Hold].
  rewrite cell_insert, bin_app, bin_singleton. split.
  { case_decide; subst; rewrite length_app; simpl; lia. }
  intros r y Hr. destruct (decide (key x = b)) as [<-|Hne].
  - apply lookup_app_Some in Hr as [Hr|[Hr1 Hr2]].
    + rewrite list_lookup_insert_ne; [by apply Hold|]. apply lookup_lt_Some in Hr. lia.
    + apply list_lookup_singleton_Some in Hr2 as [Hr2 <-].
      replace (length (bins (key x) src) + r)%nat with (cell counts (key x)) by lia.
      apply list_lookup_insert_eq. lia.
  - rewrite app_nil_r in Hr. rewrite list_lookup_insert_ne; [by apply Hold|].
    apply lookup_lt_Some in Hr. pose proof (Hle b) as Hlb.
    rewrite bin_app, length_app in Hlb.
    destruct (Z.lt_ge_cases b (key x)).
    + pose proof (bins_gap b (key x) src). lia.
    + pose proof (bins_gap (key x) b src). lia.
Qed.

Lemma scatter_loop_spec src rest : forall front counts dst,
  src = front ++ rest ->
  Forall (fun x => 0 <= key x < kBuckets) src ->
  scattered src front counts dst ->
  exists counts', scattered src src counts' (scatter_loop key rest counts dst).
Proof.
  induction rest as [|x rest IH]; intros front counts dst Hsrc Hkey Hinv; simpl.
  - rewrite app_nil_r in Hsrc. subst. by exists counts.
  - eapply (IH (front ++ [x])); [by rewrite <- app_assoc|done|]. by eapply scattered_step.
Qed.

(** The counting pass writes every bucket's elements, in input order. *)
Lemma radix_pass_bins src dst :
  Forall (fun x => 0 <= key x < kBuckets) src -> length dst = length src ->
  radix_pass key src dst = bins kBuckets src.
Proof.
  intros Hkey Hlen. unfold radix_pass.
  destruct (scatter_loop_spec src src [] (prefix_loop (seqZ 0 kBuckets) (count_loop key src ∅) 0) dst)
    as (counts & Hlen' & Hinv); [done|done| |].
  - split; [done|]. intros b Hb. split; [|done].
    pose proof (prefix_loop_spec src (Z.to_nat kBuckets) (count_loop key src ∅) 0 b) as Hp.
    change (Z.of_nat (Z.to_nat kBuckets)) with kBuckets in Hp.
    change (length (bins 0 src)) with 0%nat in Hp.
    rewrite Hp; [rewrite decide_True by lia; simpl; lia|lia|].
    intros c _. by rewrite count_loop_spec.
  - symmetry. apply list_eq_same_length_some.
    + by rewrite Hlen', bins_perm.
    + intros p x Hp. apply bins_lookup in Hp as (b & r & Hb & -> & Hr). by apply Hinv.
Qed.

Lemma elem_of_bins k l x : x ∈ bins k l <-> 0 <= key x < k /\ x ∈ l.
Proof.
  unfold bins, bin. rewrite list_elem_of_bind. setoid_rewrite list_elem_of_filter.
  setoid_rewrite elem_of_seqZ. naive_solver.
Qed.

(** A predicate that selects within one bucket does not see the distribution. *)
Lemma filter_bins P `{!forall x : T, Decision (P x)} b0 k l :
  0 <= b0 < k -> (forall x, P x -> key x = b0) -> filter P (bins k l) = filter P l.
Proof.
  intros [Hb Hk] HP.
  assert (forall n : nat, filter P (bins (Z.of_nat n) l) =
    if decide (b0 < Z.of_nat n) then filter P l else []) as Hn.
  { induction n as [|n IH]; [by rewrite decide_False by lia|].
    rewrite Nat2Z.inj_succ, bins_S, filter_app, IH by lia. unfold bin. rewrite list_filter_filter.
    destruct (decide (b0 = Z.of_nat n)) as [->|Hne].
    - rewrite decide_False, decide_True by lia. apply list_filter_iff. naive_solver.
    - assert (filter (fun x => P x /\ key x = Z.of_nat n) l = []) as ->.
      { apply filter_none. intros x _ [?%HP ?]. congruence. }
      rewrite app_nil_r. repeat case_decide; done || lia. }
  specialize (Hn (Z.to_nat k)). rewrite Z2Nat.id, decide_True in Hn by lia. done.
Qed.
End pass.

(** ** The passes together *)

(** [l'] is the stable sort of [l] by [f]. *)
Definition stable_by (f : T -> Z) (l l' : list T) : Prop :=
  StronglySorted (fun x y => f x <= f y) l' /\
  (forall v, filter (fun x => f x = v) l' = filter (fun x => f x = v) l) /\
  l' ≡ₚ l.

Lemma bins_sorted key f g M k src :
  (forall x, g x = key x * M + f x) -> (forall x, 0 <= f x < M) -> 0 <= k ->
  StronglySorted (fun x y => f x <= f y) src ->
  StronglySorted (fun x y => g x <= g y) (bins key k src).
Proof.
  intros Hg Hf Hk Hs. rewrite <- (Z2Nat.id k) by done. generalize (Z.to_nat k) as n.
  induction n as [|n IH]; [constructor|]. rewrite Nat2Z.inj_succ, bins_S by lia.
  apply StronglySorted_app_2; [|done|].
  - intros x y [Hx _]%elem_of_bins [Hy _]%list_elem_of_filter. rewrite !Hg, Hy.
    pose proof (Hf x). pose proof (Hf y). nia.
  - eapply StronglySorted_impl; [|by apply StronglySorted_filter].
    intros x y [Hx _]%list_elem_of_filter [Hy _]%list_elem_of_filter Hxy.
    simpl in *. rewrite !Hg. nia.
Qed.

Lemma digit_split k f M : 0 <= f < M -> (k * M + f) / M = k /\ (k * M + f) mod M = f.
Proof.
  intros. rewrite Z.div_add_l, Z.div_small by lia. 
  rewrite (Z.add_comm (k * M)), Z_mod_plus_full, Z.mod_small by lia. lia.
Qed.

Lemma stable_by_pass key f g M l src dst :
  (forall x, g x = key x * M + f x) -> (forall x, 0 <= f x < M) ->
  (forall x, 0 <= key x < kBuckets) ->
  length dst = length l -> stable_by f l src -> stable_by g l (radix_pass key src dst).
Proof.
  intros Hg Hf Hkey Hlen (Hs & Hst & Hp).
  assert (Forall (fun x => 0 <= key x < kBuckets) src) by (apply Forall_forall; auto).
  rewrite radix_pass_bins; [|done|by rewrite Hp].
  split_and!; [by eapply bins_sorted| |by rewrite bins_perm].
  assert (forall x v, g x = v -> v / M = key x /\ v mod M = f x) as Hd.
  { intros x v <-. rewrite Hg. by apply digit_split. }
  intros v. destruct (decide (0 <= v / M < kBuckets)) as [Hv|Hv].
  - rewrite (filter_bins key _ (v / M)); [|done|intros x Hx; symmetry; by apply Hd].
    rewrite (list_filter_iff (fun x => g x = v) (fun x => g x = v /\ f x = v mod M)).
    2: { intros x. split; [|tauto]. intros Hx. split; [done|]. symmetry. by apply Hd. }
    rewrite <- list_filter_filter, Hst, list_filter_filter.
    apply list_filter_iff. intros x. split; [tauto|]. intros Hx. split; [done|].
    symmetry. by apply Hd.
  - rewrite !filter_none; [done|..]; intros x _ Hx; apply Hv; destruct (Hd x v Hx) as [-> _]; auto.
Qed.

(** ** The correctness of [sort_by_client_id] *)

Lemma bucket_range shift x : 0 <= bucket shift x < kBuckets.
Proof.
  unfold bucket, kMask, kBuckets. change (65536 - 1) with (Z.ones 16).
  rewrite Z.land_ones by lia. apply Z.mod_pos_bound. lia.
Qed.

Lemma bucket_digit p x : 0 <= p ->
  client_id x mod 2 ^ ((p + 1) * kBits) =
    bucket (p * kBits) x * 2 ^ (p * kBits) + client_id x mod 2 ^ (p * kBits).
Proof.
  intros Hp. unfold bucket, kMask, kBuckets, kBits. change (65536 - 1) with (Z.ones 16).
  rewrite Z.land_ones, Z.shiftr_div_pow2 by lia.
  replace ((p + 1) * 16) with (p * 16 + 16) by lia. rewrite Z.pow_add_r by lia.
  rewrite Z.rem_mul_r by lia. lia.
Qed.

Lemma passes_stable (n : nat) (p : Z) l src dst :
  0 <= p -> length dst = length l ->
  stable_by (fun x => client_id x mod 2 ^ (p * kBits)) l src ->
  stable_by (fun x => client_id x mod 2 ^ ((p + Z.of_nat n) * kBits)) l
    (passes (seqZ p (Z.of_nat n)) src dst).1.
Proof.
  revert p src dst. induction n as [|n IH]; intros p src dst Hp Hlen Hst.
  { simpl. by rewrite Z.add_0_r. }
  rewrite seqZ_cons by lia. simpl passes. replace (Z.pred (Z.of_nat (S n))) with (Z.of_nat n) by lia.
  replace (p + Z.of_nat (S n)) with (Z.succ p + Z.of_nat n) by lia.
  apply IH; [lia|by destruct Hst as (_ & _ & ->)|].
  eapply stable_by_pass; [..|exact Hst]; [|..|done].
  - intros x. by apply bucket_digit.
  - intros x. apply Z.mod_pos_bound. unfold kBits. lia.
  - intros x. apply bucket_range.
Qed.

Lemma sort_by_client_id_radix dflt temp arr :
  kRadixThreshold <= Z.of_nat (length arr) -> Forall (fun x => is_u64 (client_id x)) arr ->
  stable_by client_id arr (sort_by_client_id dflt temp arr).1.
Proof.
  intros Hn Hid. unfold sort_by_client_id, kRadixThreshold in *.
  rewrite (proj2 (Z.leb_gt _ _)), (proj2 (Z.ltb_ge _ _)) by lia.
  destruct (passes_stable 4 0 arr arr (vec_resize dflt (length arr) temp)) as (Hs & Hf & Hp).
  - lia.
  - unfold vec_resize. rewrite length_app, length_take, length_replicate. lia.
  - split_and!; [|done..]. change (2 ^ (0 * kBits)) with 1.
    eapply (StronglySorted_impl (fun _ _ => True)); [intros; by rewrite !Z.mod_1_r|].
    clear. induction arr; constructor; [done|]. by apply Forall_forall.
  - assert (forall x, x ∈ arr -> client_id x mod 2 ^ ((0 + Z.of_nat 4) * kBits) = client_id x) as Hm.
    { intros x Hx. rewrite Forall_forall in Hid. by apply u64_id, Hid. }
    change (seqZ 0 (Z.of_nat 4)) with (seqZ 0 4) in *. split_and!; [|  |done].
    + eapply StronglySorted_impl; [|exact Hs]. intros x y Hx Hy. rewrite Hp in Hx, Hy.
      by rewrite !Hm.
    + intros v. etransitivity; [|etransitivity; [apply (Hf v)|]]; apply filter_ext_in; intros x Hx.
      * rewrite Hp in Hx. by rewrite Hm.
      * by rewrite Hm.
Qed.

(** Whatever its size, the array [sort_by_client_id] leaves is the input
    permuted into ascending client-id order; from [kRadixThreshold] elements on,
    where the four counting passes run, batches of one client keep their input
    order. *)
Theorem sort_by_client_id_correct dflt temp arr :
  Forall (fun x => is_u64 (client_id x)) arr ->
  let out := (sort_by_client_id dflt temp arr).1 in
  out ≡ₚ arr /\
  StronglySorted (fun x y => client_id x <= client_id y) out /\
  (kRadixThreshold <= Z.of_nat (length arr) ->
   forall c, filter (fun x => client_id x = c) out = filter (fun x => client_id x = c) arr).
Proof.
  intros Hid out. destruct (Z.le_gt_cases kRadixThreshold (Z.of_nat (length arr))) as [Hn|Hn].
  { destruct (sort_by_client_id_radix dflt temp arr Hn Hid) as (Hs & Hf & Hp). done. }
  assert (out ≡ₚ arr /\ StronglySorted (fun x y => client_id x <= client_id y) out) as [Hp Hs].
  { subst out. unfold sort_by_client_id. case_tests; bool_props; [| |lia].
    - split; [done|]. destruct arr as [|x [|y arr]]; simpl in *; repeat constructor; lia.
    - split; [apply std_sort_perm, by_key_swo|apply std_sort_by_key]. }
  split_and!; [done..|lia].
Qed.

(** ** [sort_by_client_seq] *)

  Context (batch_seq : T -> Z).

(** The inner [while] of [sort_by_client_seq]: [j] elements lie before the hole. *)
Fixpoint shift_loop (j : nat) (arr : list T) (kseq : Z) : nat * list T :=
  match j with
  | O => (O, arr)
  | S j' =>
      match arr !! j' with
      | Some p => if batch_seq p >? kseq then shift_loop j' (<[j := p]> arr) kseq else (j, arr)
      | None => (j, arr)
      end
  end.

Definition insert_step (arr : list T) (it : nat) : list T :=
  match arr !! it with
  | Some key =>
      let '(j, arr') := shift_loop it arr (batch_seq key) in <[j := key]> arr'
  | None => arr
  end.

Definition sort_by_client_seq (arr : list T) : list T :=
  if Z.of_nat (length arr) <=? 1 then arr
  else foldl insert_step arr (seq 1 (length arr - 1)).

Lemma shift_loop_spec pre x post kseq :
  exists a b y, pre = a ++ b /\
    shift_loop (length pre) (pre ++ x :: post) kseq = (length a, a ++ y :: b ++ post) /\
    Forall (fun p => batch_seq p > kseq) b /\
    (forall p, last a = Some p -> batch_seq p <= kseq).
Proof.
  revert x post. induction pre as [|p pre IH] using rev_ind; intros x post.
  { by exists [], [], x. }
  rewrite length_app, Nat.add_1_r. simpl shift_loop. rewrite <- app_assoc. simpl app.
  rewrite list_lookup_middle by done. destruct (batch_seq p >? kseq) eqn:Hgt.
  - replace (<[S (length pre):=p]> (pre ++ p :: x :: post)) with (pre ++ p :: p :: post).
    2: { rewrite insert_app_r_alt by lia. by replace (S (length pre) - length pre)%nat with 1%nat by lia. }
    destruct (IH p (p :: post)) as (a & b & y & -> & Heq & Hb & Ha).
    exists a, (b ++ [p]), y. rewrite Heq. split_and!; [by rewrite app_assoc| |..|done].
    + by rewrite <- app_assoc.
    + apply Forall_app. split; [done|]. repeat constructor. bool_props. lia.
  - exists (pre ++ [p]), [], x. rewrite app_nil_r. split_and!; [done| |constructor|].
    + by rewrite length_app, Nat.add_1_r, <- app_assoc.
    + intros q. rewrite last_snoc. intros [= <-]. bool_props. lia.
Qed.

Lemma insert_step_spec (l pre : list T) x post :
  stable_by batch_seq l pre ->
  exists pre', insert_step (pre ++ x :: post) (length pre) = pre' ++ post /\
    length pre' = S (length pre) /\ stable_by batch_seq (l ++ [x]) pre'.
Proof.
  intros (Hs & Hf & Hp). unfold insert_step. rewrite list_lookup_middle by done.
  destruct (shift_loop_spec pre x post (batch_seq x)) as (a & b & y & -> & -> & Hb & Ha).
  exists (a ++ x :: b). rewrite insert_app_r_alt, Nat.sub_diag by lia. simpl.
  rewrite <- app_assoc. split_and!; [done|rewrite !length_app; simpl; lia|].
  assert (Forall (fun p => batch_seq p <= batch_seq x) a) as Hax.
  { destruct a as [|z a _] using rev_ind; [done|]. apply StronglySorted_app_1_l in Hs.
    pose proof (Ha z) as Hz. rewrite last_snoc in Hz. specialize (Hz eq_refl).
    apply Forall_app. split; [|by repeat constructor]. apply Forall_forall. intros q Hq.
    transitivity (batch_seq z); [|done]. apply (StronglySorted_app_1_elem_of _ a [z] q z Hs); set_solver. }
  rewrite Forall_forall in Hax, Hb. apply StronglySorted_app in Hs as (Hab & Hsa & Hsb).
  split_and!.
  - apply StronglySorted_app_2; [|done|constructor; [done|]].
    + intros p q Hpa [->|Hq]%elem_of_cons; auto.
    + apply Forall_forall. intros q Hq%Hb. lia.
  - intros v. rewrite !filter_app, <- Hf, filter_app, <- app_assoc.
    f_equal. rewrite !filter_cons. destruct (decide (batch_seq x = v)) as [<-|]; simpl.
    + rewrite filter_none; [done|]. intros q Hq%Hb. lia.
    + by rewrite app_nil_r.
  - rewrite <- Hp, <- Permutation_middle. apply Permutation_cons_append.
Qed.

(** [sort_by_client_seq] is a stable sort by batch sequence. *)
Theorem sort_by_client_seq_correct arr : stable_by batch_seq arr (sort_by_client_seq arr).
Proof.
  assert (forall post pre l, stable_by batch_seq l pre ->
    stable_by batch_seq (l ++ post)
      (foldl insert_step (pre ++ post) (seq (length pre) (length post)))) as Hloop.
  { induction post as [|x post IH]; intros pre l Hl; simpl; [by rewrite !app_nil_r|].
    destruct (insert_step_spec l pre x post Hl) as (pre' & -> & <- & Hl').
    rewrite (cons_middle x l), app_assoc. by apply IH. }
  destruct arr as [|x [|y arr]]; [by repeat constructor..|].
  unfold sort_by_client_seq. rewrite (proj2 (Z.leb_gt _ _)) by (simpl; lia).
  apply (Hloop (y :: arr) [x] [x]). repeat constructor.
Qed.
End sorter.
End RadixSorter.

Lemma sort_by_client_id_correct_witness :
  let out := (RadixSorter.sort_by_client_id fst (0, 0) [] [(7, 0); (3, 1); (7, 2); (0, 3)]).1 in
  out ≡ₚ [(7, 0); (3, 1); (7, 2); (0, 3)] /\
  StronglySorted (fun x y : Z * Z => fst x <= fst y) out.
Proof.
  destruct (RadixSorter.sort_by_client_id_correct fst (0, 0) []
    [(7, 0); (3, 1); (7, 2); (0, 3)]) as (Hp & Hs & _); [|exact (conj Hp Hs)].
  repeat constructor; vm_compute; congruence.
Defined.
