(* ===== verification/Dedup.v ===== *)
(** [FastDeduplicator] of src/embarlet/sequencer_utils.h: an open-addressed
    hash table whose entries are evicted in insertion order. *)

From S2P Require Import Prelude.

Module FastDeduplicator.

Definition TABLE_SIZE : Z := 2097152.
Definition TABLE_MASK : Z := TABLE_SIZE - 1.
Definition RING_SIZE : Z := 1048576.
Definition RING_MASK : Z := RING_SIZE - 1.
Definition MAX_PROBES : nat := 128.
Definition EMPTY : Z := 18446744073709551615.
Definition TOMBSTONE : Z := 18446744073709551614.

(** The two vectors are filled with [EMPTY]: a cell not in the map holds it. *)
Record t := mk {
  table_ : gmap Z Z;
  ring_ : gmap Z Z;
  ring_head_ : Z;
  count_ : Z;
  skip_ : bool;
}.
#[global] Instance eta_t : Eta t := fun d =>
  mk (table_ d) (ring_ d) (ring_head_ d) (count_ d) (skip_ d).

Definition init : t := mk ∅ ∅ 0 0 false.
Definition set_skip (d : t) (skip : bool) : t := d <| skip_ := skip |>.

Definition at_ (m : gmap Z Z) (i : Z) : Z := default EMPTY (m !! i).

Definition hash64 (x : Z) : Z :=
  let x := Z.lxor x (Z.shiftr x 33) in
  let x := x *u 18397679294719823053 in
  let x := Z.lxor x (Z.shiftr x 33) in
  let x := x *u 14181476777654086739 in
  Z.lxor x (Z.shiftr x 33).

(** The probe loop: whether the id was met, and [insert_at] ([None] is the
    code's [static_cast<size_t>(-1)]). *)
Fixpoint probe_loop (probes : nat) (table : gmap Z Z) (batch_id idx : Z)
    (insert_at : option Z) : bool * option Z :=
  match probes with
  | O => (false, insert_at)
  | S n =>
      let entry := at_ table idx in
      if entry =? batch_id then (true, insert_at)
      else if entry =? EMPTY then
        (false, match insert_at with None => Some idx | Some _ => insert_at end)
      else
        let insert_at :=
          match insert_at with
          | None => if entry =? TOMBSTONE then Some idx else None
          | Some _ => insert_at
          end in
        probe_loop n table batch_id (Z.land (idx + 1) TABLE_MASK) insert_at
  end.

Fixpoint evict_loop (probes : nat) (table : gmap Z Z) (old_id old_idx : Z) : gmap Z Z :=
  match probes with
  | O => table
  | S n =>
      if at_ table old_idx =? old_id then <[old_idx := TOMBSTONE]> table
      else if at_ table old_idx =? EMPTY then table
      else evict_loop n table old_id (Z.land (old_idx + 1) TABLE_MASK)
  end.

Definition evict (d : t) : t :=
  if count_ d >=? RING_SIZE then
    let oldest := Z.land (ring_head_ d +u RING_SIZE -u count_ d) RING_MASK in
    let old_id := at_ (ring_ d) oldest in
    let d :=
      if negb (old_id =? EMPTY) && (old_id <? TOMBSTONE) then
        d <| table_ := evict_loop MAX_PROBES (table_ d) old_id
                         (Z.land (hash64 old_id) TABLE_MASK) |>
      else d in
    d <| ring_ := <[oldest := EMPTY]> (ring_ d) |> <| count_ := count_ d - 1 |>
  else d.

Definition check_and_insert (d : t) (batch_id : Z) : bool * t :=
  if skip_ d then (false, d)
  else if batch_id >=? TOMBSTONE then (false, d)
  else
    match probe_loop MAX_PROBES (table_ d) batch_id (Z.land (hash64 batch_id) TABLE_MASK) None with
    | (true, _) => (true, d)
    | (false, None) => (false, d)
    | (false, Some insert_at) =>
        let d := evict d in
        (false, mk (<[insert_at := batch_id]> (table_ d))
                   (<[ring_head_ d := batch_id]> (ring_ d))
                   (Z.land (ring_head_ d + 1) RING_MASK)
                   (count_ d + 1) (skip_ d))
    end.

(** ** The probe sequence *)

(** The [k]-th cell probed for [x]. *)
Definition pos (x : Z) (k : nat) : Z := (hash64 x + Z.of_nat k) mod TABLE_SIZE.

Lemma land_mask x n m : 0 <= n -> m = 2 ^ n -> Z.land x (m - 1) = x mod m.
Proof. intros Hn ->. rewrite Z.sub_1_r, <- Z.ones_equiv. by apply Z.land_ones. Qed.

Lemma land_table x : Z.land x TABLE_MASK = x mod TABLE_SIZE.
Proof. by apply (land_mask x 21). Qed.
Lemma land_ring x : Z.land x RING_MASK = x mod RING_SIZE.
Proof. by apply (land_mask x 20). Qed.

Lemma pos_0 x : Z.land (hash64 x) TABLE_MASK = pos x 0.
Proof. unfold pos. by rewrite land_table, Z.add_0_r. Qed.

Lemma pos_S x k : Z.land (pos x k + 1) TABLE_MASK = pos x (S k).
Proof.
  unfold pos. rewrite land_table, Zplus_mod_idemp_l. f_equal. lia.
Qed.

Lemma at_insert m i j v : at_ (<[i := v]> m) j = if decide (i = j) then v else at_ m j.
Proof. unfold at_. rewrite lookup_insert. by case_decide. Qed.

(** No cell probed for [x] between the [k]-th and the [m]-th is empty. *)
Definition path (table : gmap Z Z) (x : Z) (k m : nat) : Prop :=
  forall j, (k <= j < m)%nat -> at_ table (pos x j) <> EMPTY.

Lemma probe_loop_spec table id fuel : forall k ins,
  match probe_loop fuel table id (pos id k) ins with
  | (true, _) => exists j, at_ table (pos id j) = id
  | (false, o) =>
      (forall m, (k <= m < k + fuel)%nat -> path table id k m -> at_ table (pos id m) <> id) /\
      match ins with
      | Some i => o = Some i
      | None => forall i, o = Some i -> exists m, (k <= m < k + fuel)%nat /\ i = pos id m /\
                  (at_ table i = EMPTY \/ at_ table i = TOMBSTONE) /\ path table id k m
      end
  end.
Proof.
  induction fuel as [|n IH]; intros k ins; simpl.
  { split; [lia|]. destruct ins; naive_solver. }
  destruct (Z.eqb_spec (at_ table (pos id k)) id) as [Heq|Hne]; [by exists k|].
  destruct (Z.eqb_spec (at_ table (pos id k)) EMPTY) as [He|He].
  { split.
    - intros m Hm Hp. destruct (decide (m = k)) as [->|]; [done|].
      exfalso. apply (Hp k); [lia|done].
    - destruct ins; [done|]. intros i [= <-]. exists k. split_and!; [lia..|done|by left|].
      intros j ?. lia. }
  rewrite pos_S. match goal with |- context [probe_loop n table id _ ?i] => set (ins' := i) end.
  specialize (IH (S k) ins'). destruct (probe_loop n table id (pos id (S k)) ins') as [[] o]; [done|].
  destruct IH as [IH1 IH2]. split.
  - intros m Hm Hp. destruct (decide (m = k)) as [->|]; [done|].
    apply IH1; [lia|]. intros j ?. apply Hp. lia.
  - subst ins'. destruct ins; [done|].
    destruct (Z.eqb_spec (at_ table (pos id k)) TOMBSTONE) as [Ht|Ht]; intros i Ho.
    + rewrite IH2 in Ho. injection Ho as <-. exists k. split_and!; [lia..|done|by right|].
      intros j ?. lia.
    + destruct (IH2 i Ho) as (m & ? & ? & ? & Hp). exists m. split_and!; [lia..|done|done|].
      intros j ?. destruct (decide (j = k)) as [->|]; [done|]. apply Hp. lia.
Qed.

(** ** Refinement of a bounded queue of ids *)

(** The table holds exactly the ids of [q], each once and on its probe path. *)
Record table_ok (table : gmap Z Z) (q : list Z) : Prop := {
  tbl_found x : x ∈ q ->
    exists m, (m < MAX_PROBES)%nat /\ at_ table (pos x m) = x /\ path table x 0 m;
  tbl_sound i : at_ table i = EMPTY \/ at_ table i = TOMBSTONE \/ at_ table i ∈ q;
  tbl_unique i j : at_ table i ∈ q -> at_ table i = at_ table j -> i = j;
}.

(** The ring holds [q], oldest first, in the [count_] cells before its head. *)
Record ring_ok (ring : gmap Z Z) (head count : Z) (q : list Z) : Prop := {
  ring_head_range : 0 <= head < RING_SIZE;
  ring_count : count = Z.of_nat (length q);
  ring_count_le : count <= RING_SIZE;
  ring_cells i x : q !! i = Some x -> at_ ring ((head - count + Z.of_nat i) mod RING_SIZE) = x;
}.

Definition id_ok (x : Z) : Prop := 0 <= x < TOMBSTONE.

Record refines (d : t) (q : list Z) : Prop := {
  ref_skip : skip_ d = false;
  ref_table : table_ok (table_ d) q;
  ref_ring : ring_ok (ring_ d) (ring_head_ d) (count_ d) q;
  ref_nodup : NoDup q;
  ref_ids : Forall id_ok q;
}.

(** The specification: ids still queued are duplicates; a new id is queued,
    the oldest leaving first when the queue is full.  [stored = false] is the
    case of an id whose 128 probed cells are all taken. *)
Definition dropped (q : list Z) : list Z :=
  if Z.of_nat (length q) >=? RING_SIZE then tail q else q.
Inductive spec_step (q : list Z) (id : Z) : bool -> list Z -> Prop :=
  | spec_duplicate : id ∈ q -> spec_step q id true q
  | spec_stored : id ∉ q -> spec_step q id false (dropped q ++ [id])
  | spec_saturated : id ∉ q -> spec_step q id false q.

Lemma init_refines : refines init [].
Proof.
  split; [done| | |constructor|constructor].
  - split; [set_solver|left; done|set_solver].
  - by split.
Qed.

Lemma id_ok_live x : id_ok x -> x <> EMPTY /\ x <> TOMBSTONE.
Proof. unfold id_ok, EMPTY, TOMBSTONE. lia. Qed.

Lemma evict_loop_spec table x m c : forall fuel k,
  id_ok x -> (k <= m < k + fuel)%nat -> at_ table (pos x m) = x -> path table x k m ->
  (forall i, at_ table i = x -> i = c) ->
  evict_loop fuel table x (pos x k) = <[c := TOMBSTONE]> table.
Proof.
  intros fuel k Hx. revert k. induction fuel as [|n IH]; intros k Hm Hat Hp Hc; [lia|]. simpl.
  destruct (Z.eqb_spec (at_ table (pos x k)) x) as [Heq|Hne]; [by rewrite (Hc _ Heq)|].
  assert (m <> k) by by intros ->.
  destruct (Z.eqb_spec (at_ table (pos x k)) EMPTY) as [He|He]; [destruct (Hp k); [lia|done]|].
  rewrite pos_S. apply IH; [lia|done| |done]. intros j ?. apply Hp. lia.
Qed.

(** Turning the cell of the oldest id into a tombstone removes that id. *)
Lemma table_ok_tombstone table x q c :
  Forall id_ok (x :: q) -> NoDup (x :: q) -> at_ table c = x ->
  table_ok table (x :: q) -> table_ok (<[c := TOMBSTONE]> table) q.
Proof.
  intros [Hx Hq]%Forall_cons [Hnx Hnd]%NoDup_cons Hc [Hfound Hsound Huniq].
  assert (forall i, i <> c -> at_ table i <> x) as Hother.
  { intros i Hi Heq. apply Hi. apply Huniq; [rewrite Heq; set_solver|congruence]. }
  rewrite Forall_forall in Hq.
  split.
  - intros y Hy. destruct (Hfound y) as (m & Hm & Hat & Hp); [set_solver|].
    exists m. split_and!; [done| |].
    + rewrite at_insert. case_decide; [|done]. subst c. congruence.
    + intros j Hj. rewrite at_insert. case_decide; [done|]. by apply Hp.
  - intros i. rewrite at_insert. case_decide; [by right; left|].
    destruct (Hsound i) as [?|[?|Hin]]; [by left|by right; left|].
    apply elem_of_cons in Hin as [Heq|Hin]; [|by right; right].
    destruct (Hother i); [done|done].
  - intros i j. rewrite !at_insert. repeat case_decide; subst; try done.
    + intros Hin%Hq. destruct (id_ok_live _ Hin). done.
    + intros Hin%Hq Heq. destruct (id_ok_live _ Hin). done.
    + intros Hin. apply Huniq. set_solver.
Qed.

(** Writing a new id into a free cell of its probe path. *)
Lemma table_ok_insert table x q m :
  id_ok x -> x ∉ q -> Forall id_ok q -> (m < MAX_PROBES)%nat ->
  at_ table (pos x m) = EMPTY \/ at_ table (pos x m) = TOMBSTONE -> path table x 0 m ->
  table_ok table q -> table_ok (<[pos x m := x]> table) (q ++ [x]).
Proof.
  intros Hx Hnx Hq Hm Hfree Hp [Hfound Hsound Huniq].
  destruct (id_ok_live x Hx) as [Hxe Hxt]. rewrite Forall_forall in Hq.
  split.
  - intros y [Hy| ->%list_elem_of_singleton]%elem_of_app.
    + destruct (Hfound y Hy) as (n & Hn & Hat & Hpy). exists n. split_and!; [done| |].
      * rewrite at_insert. case_decide as Heq; [|done].
        destruct (id_ok_live y); [by apply Hq|]. rewrite Heq in Hfree.
        destruct Hfree; congruence.
      * intros j Hj. rewrite at_insert. case_decide; [done|]. by apply Hpy.
    + exists m. split_and!; [done|by rewrite at_insert, decide_True|].
      intros j Hj. rewrite at_insert. case_decide; [done|]. by apply Hp.
  - intros i. rewrite at_insert. case_decide; [right; right; set_solver|].
    destruct (Hsound i) as [?|[?|?]]; [by left|by right; left|right; right; set_solver].
  - assert (forall i, i <> pos x m -> at_ table i <> x) as Hother.
    { intros i _ Heq. destruct (Hsound i) as [?|[?|?]]; congruence. }
    intros i j. rewrite !at_insert. repeat case_decide; subst; try done.
    + intros _ Heq. by destruct (Hother j).
    + intros _ Heq. by destruct (Hother i).
    + intros [Hin|Heq%list_elem_of_singleton]%elem_of_app; [by apply Huniq|].
      by destruct (Hother i).
Qed.

Lemma evict_loop_cells table x fuel : forall idx i,
  at_ (evict_loop fuel table x idx) i = at_ table i \/
  at_ (evict_loop fuel table x idx) i = TOMBSTONE.
Proof.
  induction fuel as [|n IH]; intros idx i; simpl; [by left|].
  case_tests; [|by left|apply IH]. rewrite at_insert. case_decide; [by right|by left].
Qed.

#[global] Arguments evict_loop : simpl never.
#[global] Arguments probe_loop : simpl never.

Lemma evict_cells d i :
  at_ (table_ (evict d)) i = at_ (table_ d) i \/ at_ (table_ (evict d)) i = TOMBSTONE.
Proof.
  unfold evict. destruct (_ >=? _); [|by left]. destruct (_ && _); [apply evict_loop_cells|by left].
Qed.

Lemma ring_index_ne a b : 0 < Z.abs (a - b) < RING_SIZE -> a mod RING_SIZE <> b mod RING_SIZE.
Proof. unfold RING_SIZE. intros. Z.to_euclidean_division_equations. lia. Qed.

Lemma ring_ok_pop ring head x q :
  ring_ok ring head RING_SIZE (x :: q) ->
  ring_ok (<[head := EMPTY]> ring) head (RING_SIZE - 1) q.
Proof.
  intros [Hh Hc Hle Hcells]. simpl in Hc. split; [done|lia|lia|]. intros i y Hy.
  pose proof (lookup_lt_Some _ _ _ Hy) as Hi. specialize (Hcells (S i) y Hy).
  replace (head - (RING_SIZE - 1) + Z.of_nat i) with (head - RING_SIZE + Z.of_nat (S i)) by lia.
  rewrite at_insert, decide_False; [done|].
  rewrite <- (Z.mod_small head RING_SIZE) at 1 by done. apply ring_index_ne. lia.
Qed.

Lemma ring_ok_push ring head count q x :
  ring_ok ring head count q -> count < RING_SIZE ->
  ring_ok (<[head := x]> ring) ((head + 1) mod RING_SIZE) (count + 1) (q ++ [x]).
Proof.
  intros [Hh Hc Hle Hcells] Hlt. split; [apply Z.mod_pos_bound; done| |lia|].
  { rewrite length_app. simpl. lia. }
  intros i y Hy.
  replace (((head + 1) mod RING_SIZE - (count + 1) + Z.of_nat i) mod RING_SIZE)
    with ((head - count + Z.of_nat i) mod RING_SIZE).
  2: { unfold RING_SIZE. Z.to_euclidean_division_equations. lia. }
  pose proof (lookup_lt_Some _ _ _ Hy) as Hi. rewrite length_app in Hi. simpl in Hi.
  rewrite at_insert. apply lookup_app_Some in Hy as [Hy|[Hge Hy]].
  - pose proof (lookup_lt_Some _ _ _ Hy). rewrite decide_False; [by apply Hcells|].
    rewrite <- (Z.mod_small head RING_SIZE) at 1 by done. apply ring_index_ne. lia.
  - apply list_lookup_singleton_Some in Hy as [_ <-]. rewrite decide_True; [done|].
    replace (head - count + Z.of_nat i) with head by lia. by rewrite Z.mod_small.
Qed.

Lemma evict_refines d q :
  refines d q -> refines (evict d) (dropped q) /\ count_ (evict d) < RING_SIZE.
Proof.
  intros [Hskip Htab Hring Hnd Hids]. pose proof Hring as [Hh Hc Hle Hcells].
  unfold evict, dropped. rewrite <- Hc. destruct (count_ d >=? RING_SIZE) eqn:E; bool_props; [|by split].
  assert (count_ d = RING_SIZE) as Hfull by lia. rewrite Hfull in *.
  destruct q as [|x q]; [simpl in Hc; unfold RING_SIZE in Hc; lia|].
  replace (ring_head_ d +u RING_SIZE -u RING_SIZE) with (ring_head_ d)
    by (unfold RING_SIZE in *; word_lia).
  rewrite land_ring, (Z.mod_small _ _ Hh).
  replace (at_ (ring_ d) (ring_head_ d)) with x.
  2: { rewrite <- (Hcells 0%nat x eq_refl). f_equal.
       unfold RING_SIZE in *. Z.to_euclidean_division_equations. lia. }
  apply Forall_cons in Hids as [Hx Hq]. destruct (id_ok_live x Hx) as [Hxe Hxt].
  destruct (Z.eqb_spec x EMPTY); [done|].
  rewrite (proj2 (Z.ltb_lt x TOMBSTONE)) by (unfold id_ok in Hx; lia). simpl.
  destruct (tbl_found _ _ Htab x) as (m & Hm & Hat & Hp); [set_solver|].
  rewrite pos_0, (evict_loop_spec _ x m (pos x m)); [|done|lia|done|done|].
  2: { intros i Hi. symmetry. apply (tbl_unique _ _ Htab); [rewrite Hat; set_solver|congruence]. }
  split; [|lia]. split; simpl; [done|..].
  - apply (table_ok_tombstone _ x); [by constructor|done..].
  - rewrite Hfull. by apply (ring_ok_pop _ _ x).
  - by apply NoDup_cons in Hnd as [_ ?].
  - done.
Qed.

(** The deduplicator is a queue of the last 2^20 stored ids: an id is
    reported as a duplicate exactly when it is queued, and a new id is queued
    behind the others, the oldest leaving a full queue.  Only an id whose 128
    probed cells all hold other ids is passed on without being remembered. *)
Theorem check_and_insert_refines d q id r d' :
  refines d q -> id_ok id -> check_and_insert d id = (r, d') ->
  exists q', spec_step q id r q' /\ refines d' q'.
Proof.
  intros Href Hid Hrun. pose proof Href as [Hskip Htab Hring Hnd Hids]. unfold check_and_insert in Hrun.
  rewrite Hskip in Hrun. destruct (id >=? TOMBSTONE) eqn:E; [unfold id_ok in Hid; bool_props; lia|].
  rewrite pos_0 in Hrun. pose proof (probe_loop_spec (table_ d) id MAX_PROBES 0 None) as Hprobe.
  destruct (probe_loop _ _ _ _ _) as [[] o].
  { injection Hrun as <- <-. destruct Hprobe as [j Hj]. exists q. split; [constructor|done].
    destruct (tbl_sound _ _ Htab (pos id j)) as [?|[?|?]]; rewrite Hj in *;
      [by destruct (id_ok_live id Hid)..|done]. }
  destruct Hprobe as [Hmiss Hfree].
  assert (id ∉ q) as Hnin.
  { intros Hin. destruct (tbl_found _ _ Htab id Hin) as (m & Hm & Hat & Hp).
    apply (Hmiss m); [lia|done..]. }
  destruct o as [i|]; [|injection Hrun as <- <-; exists q; split; [by constructor|done]].
  destruct (Hfree i eq_refl) as (m & Hm & -> & Hcell & Hp).
  injection Hrun as <- <-. exists (dropped q ++ [id]). split; [by constructor|].
  destruct (evict_refines d q Href) as [[Hskip' Htab' Hring' Hnd' Hids'] Hlt].
  assert (id ∉ dropped q) by (unfold dropped; case_tests; destruct q; set_solver).
  split; simpl; [done|..].
  - apply table_ok_insert; [done..|lia| | |done].
    + destruct (evict_cells d (pos id m)) as [->| ->]; [done|by right].
    + intros j Hj. destruct (evict_cells d (pos id j)) as [->| ->]; [by apply Hp|done].
  - rewrite land_ring. by apply ring_ok_push.
  - apply NoDup_app. split_and!; [done|set_solver|apply NoDup_singleton].
  - apply Forall_app. split; [done|by constructor].
Qed.
End FastDeduplicator.

Lemma check_and_insert_refines_witness :
  let d := (FastDeduplicator.check_and_insert FastDeduplicator.init 42).2 in
  (FastDeduplicator.check_and_insert d 42).1 = true /\
  exists q', FastDeduplicator.spec_step [] 42 false q' /\ FastDeduplicator.refines d q'.
Proof.
  split; [by vm_compute|].
  apply (FastDeduplicator.check_and_insert_refines FastDeduplicator.init [] 42);
    [apply FastDeduplicator.init_refines|split; by vm_compute|by vm_compute].
Defined.
