(* ===== verification/SessionTable.v ===== *)
(** The authoritative session table: src/embarlet/topic_session.cc,
    src/embarlet/session_admission.h and the reader of
    src/network_manager/session_snapshot.h. *)

From S2P Require Import Prelude ClientState.

Module SessionTable.

Record SessionEntry := mkEntry {
  session_key : Z;
  expected_seq : Z;
  committed_hwm : Z;
  highest_sequenced : Z;
  state_word : Z;
}.
#[global] Instance eta_SessionEntry : Eta SessionEntry := fun e =>
  mkEntry (session_key e) (expected_seq e) (committed_hwm e) (highest_sequenced e) (state_word e).
Definition empty_entry : SessionEntry := mkEntry 0 0 0 0 0.

(** The CXL region of the table is zeroed: a slot not in the map is empty. *)
Abbreviation Table := (gmap Z SessionEntry).
Definition slot (t : Table) (i : Z) : SessionEntry := default empty_entry (t !! i).

Definition kMaxSessions : Z := 4096.

(** [for (probe = 0; probe < kMaxSessions; ++probe)] of [FindSessionEntry];
    [n] is the number of probes left. *)
Fixpoint find_loop (n : nat) (t : Table) (capacity key start probe : Z) : option Z :=
  match n with
  | O => None
  | S n' =>
      let i := (start + probe) mod capacity in
      let observed := session_key (slot t i) in
      if observed =? key then Some i
      else if observed =? 0 then None
      else find_loop n' t capacity key start (probe + 1)
  end.

Definition FindSessionEntry (t : Table) (key : Z) : option Z :=
  if key =? 0 then None
  else find_loop (Z.to_nat kMaxSessions) t kMaxSessions key (Mix64 key mod kMaxSessions) 0.

(** The claimed slot, whether this call claimed it, and the table after it. *)
Fixpoint claim_loop (n : nat) (t : Table) (capacity key start probe : Z)
    : option Z * bool * Table :=
  match n with
  | O => (None, false, t)
  | S n' =>
      let i := (start + probe) mod capacity in
      let seen := session_key (slot t i) in
      if seen =? key then (Some i, false, t)
      else if seen =? 0 then (Some i, true, <[i := (slot t i) <| session_key := key |>]> t)
      else claim_loop n' t capacity key start (probe + 1)
  end.

Definition FindOrClaimSession (t : Table) (capacity key start : Z) : option Z * bool * Table :=
  if (capacity =? 0) || (key =? 0) || (start >=? capacity) then (None, false, t)
  else claim_loop (Z.to_nat capacity) t capacity key start 0.

Definition FindOrCreateSessionEntry (t : Table) (key : Z) : option Z * Table :=
  let '(entry, _, t') := FindOrClaimSession t kMaxSessions key (Mix64 key mod kMaxSessions) in
  (entry, t').

Definition StoreSessionMaximum (current value : Z) : Z :=
  if current <? value then value else current.

Definition MergeSessionStateWord (current epoch : Z) (fenced : bool) : Z :=
  Z.lor (Z.lor (Z.lor (epoch <<u 32) 2) (Z.land current 1)) (if fenced then 1 else 0).

(** The new state word, and whether it changed. *)
Definition MergeSessionState (current epoch : Z) (fenced : bool) : Z * bool :=
  let next := MergeSessionStateWord current epoch fenced in
  if next =? current then (current, false) else (next, true).

Definition SessionClaimNeedsFlush (claimed : bool) (state_word : Z) : bool :=
  claimed || (Z.land state_word 2 =? 0).

Record SessionPublishSnapshot := mkSnapshot {
  snap_session_epoch : Z;
  snap_expected_seq : Z;
  snap_committed_hwm : Z;
  snap_highest_sequenced : Z;
  snap_fenced : bool;
}.

Definition publish_entry (e : SessionEntry) (snapshot : SessionPublishSnapshot) : SessionEntry :=
  let e := e <| expected_seq ::= fun v => StoreSessionMaximum v (snap_expected_seq snapshot) |> in
  let e := e <| committed_hwm ::= fun v => StoreSessionMaximum v (snap_committed_hwm snapshot) |> in
  let e := e <| highest_sequenced ::= fun v =>
                StoreSessionMaximum v (snap_highest_sequenced snapshot) |> in
  e <| state_word ::= fun v =>
    (MergeSessionState v (snap_session_epoch snapshot) (snap_fenced snapshot)).1 |>.

Definition PublishSessionEntry (t : Table) (key : Z) (snapshot : SessionPublishSnapshot)
    : bool * Table :=
  if snap_session_epoch snapshot =? 0 then (true, t)
  else
    match FindOrCreateSessionEntry t key with
    | (None, t') => (false, t')
    | (Some i, t') => (true, <[i := publish_entry (slot t' i) snapshot]> t')
    end.

Inductive SessionAdmission := admitted | fenced_ | unavailable.

Definition TryAdmitSession (t : Table) (capacity_exhausted : bool) (client_id epoch : Z)
    : SessionAdmission * Table :=
  if (client_id =? 0) || (epoch =? 0) || capacity_exhausted then (unavailable, t)
  else
    match FindOrCreateSessionEntry t (MakeSessionKey client_id epoch) with
    | (None, t') => (unavailable, t')
    | (Some i, t') =>
        (if negb (Z.land (state_word (slot t' i)) kSessionEntryFlagFenced =? 0)
         then fenced_ else admitted, t')
    end.

(** ** The reader of the broker's network path *)

Record DurableSessionSnapshot := mkDurable {
  dss_active : bool;
  dss_fenced : bool;
  dss_session_epoch : Z;
  dss_expected_seq : Z;
  dss_committed_hwm : Z;
  dss_highest_sequenced : Z;
  dss_goi_committed_hwm : Z;
  dss_goi_committed_hwm_found : bool;
  dss_reconnect_committed_hwm : Z;
}.
#[global] Instance eta_Durable : Eta DurableSessionSnapshot := fun s =>
  mkDurable (dss_active s) (dss_fenced s) (dss_session_epoch s) (dss_expected_seq s)
    (dss_committed_hwm s) (dss_highest_sequenced s) (dss_goi_committed_hwm s)
    (dss_goi_committed_hwm_found s) (dss_reconnect_committed_hwm s).
Definition durable_init : DurableSessionSnapshot := mkDurable false false 0 0 0 0 0 false 0.

Definition read_entry (e : SessionEntry) (out : DurableSessionSnapshot) : DurableSessionSnapshot :=
  let flags := Z.land (state_word e) 4294967295 in
  out <| dss_active := negb (Z.land flags kSessionEntryFlagActive =? 0) |>
      <| dss_fenced := negb (Z.land flags kSessionEntryFlagFenced =? 0) |>
      <| dss_session_epoch := u32 (Z.shiftr (state_word e) 32) |>
      <| dss_expected_seq := expected_seq e |>
      <| dss_committed_hwm := committed_hwm e |>
      <| dss_highest_sequenced := highest_sequenced e |>
      <| dss_reconnect_committed_hwm := committed_hwm e |>.

Fixpoint read_loop (n : nat) (t : Table) (key start probe : Z) (out : DurableSessionSnapshot)
    : bool * DurableSessionSnapshot :=
  match n with
  | O => (false, out)
  | S n' =>
      let e := slot t ((start + probe) mod kMaxSessions) in
      if session_key e =? 0 then (false, out)
      else if negb (session_key e =? key) then read_loop n' t key start (probe + 1) out
      else let out := read_entry e out in (dss_active out, out)
  end.

Definition ReadSessionEntrySnapshot (t : Table) (client_id session_epoch : Z)
    (out : DurableSessionSnapshot) : bool * DurableSessionSnapshot :=
  if session_epoch =? 0 then (false, out)
  else
    let key := MakeSessionKey client_id session_epoch in
    read_loop (Z.to_nat kMaxSessions) t key (Mix64 key mod kMaxSessions) 0 out.

(** ** Probing *)

Definition home (key : Z) : Z := Mix64 key mod kMaxSessions.
Definition key_at (t : Table) (i : Z) : Z := session_key (slot t i).
(** The cell probed for [key] after [d] steps, and the claimed run of cells before it. *)
Definition probed (key d : Z) : Z := (home key + d) mod kMaxSessions.
Definition taken (t : Table) (key a b : Z) : Prop :=
  forall j, a <= j < b -> key_at t (probed key j) <> 0.

Definition in_table (i : Z) : Prop := 0 <= i < kMaxSessions.

Record wf (t : Table) : Prop := {
  wf_blank i : key_at t i = 0 -> slot t i = empty_entry;
  wf_probe i : in_table i -> key_at t i <> 0 ->
    exists d, 0 <= d < kMaxSessions /\ i = probed (key_at t i) d /\ taken t (key_at t i) 0 d;
  wf_unique i j : in_table i -> in_table j -> key_at t i <> 0 ->
    key_at t i = key_at t j -> i = j;
}.

Lemma probed_range key d : in_table (probed key d).
Proof. apply Z.mod_pos_bound. done. Qed.
#[local] Hint Resolve probed_range : emb.

Lemma slot_insert t i j e : slot (<[i := e]> t) j = if decide (i = j) then e else slot t j.
Proof. unfold slot. rewrite lookup_insert. by case_decide. Qed.

Lemma probed_onto key i : in_table i -> exists d, 0 <= d < kMaxSessions /\ i = probed key d.
Proof.
  intros Hi. exists ((i - home key) mod kMaxSessions). split; [by apply Z.mod_pos_bound|].
  unfold probed. rewrite Zplus_mod_idemp_r.
  replace (home key + (i - home key)) with i by lia. symmetry. by apply Z.mod_small.
Qed.

Lemma find_loop_spec t key n : forall probe,
  0 <= probe ->
  match find_loop n t kMaxSessions key (home key) probe with
  | Some i => in_table i /\ key_at t i = key
  | None => forall d, probe <= d < probe + Z.of_nat n -> taken t key probe d ->
              key_at t (probed key d) <> key
  end.
Proof.
  induction n as [|n IH]; intros probe Hp; simpl; [lia|]. fold (probed key probe).
  fold (key_at t (probed key probe)).
  destruct (Z.eqb_spec (key_at t (probed key probe)) key); [split; [apply probed_range|done]|].
  destruct (Z.eqb_spec (key_at t (probed key probe)) 0) as [Hz|Hz].
  - intros d Hd Ht. destruct (decide (d = probe)) as [->|]; [done|].
    exfalso. apply (Ht probe); [lia|done].
  - specialize (IH (probe + 1) ltac:(lia)). destruct (find_loop _ _ _ _ _ _); [done|].
    intros d Hd Ht. destruct (decide (d = probe)) as [->|]; [done|].
    apply IH; [lia|]. intros j Hj. apply Ht. lia.
Qed.

(** Claiming is finding, except that the first free cell is taken. *)
Lemma claim_loop_spec t key n : forall probe,
  key <> 0 -> 0 <= probe ->
  match claim_loop n t kMaxSessions key (home key) probe with
  | (Some i, false, t') => t' = t /\ in_table i /\ key_at t i = key
  | (Some i, true, t') =>
      t' = <[i := (slot t i) <| session_key := key |>]> t /\ key_at t i = 0 /\
      exists d, probe <= d < probe + Z.of_nat n /\ i = probed key d /\ taken t key probe d /\
        forall j, probe <= j < d -> key_at t (probed key j) <> key
  | (None, _, t') =>
      t' = t /\ forall d, probe <= d < probe + Z.of_nat n ->
        key_at t (probed key d) <> 0 /\ key_at t (probed key d) <> key
  end.
Proof.
  induction n as [|n IH]; intros probe Hk Hp; simpl; [split; [done|lia]|].
  fold (probed key probe). fold (key_at t (probed key probe)).
  destruct (Z.eqb_spec (key_at t (probed key probe)) key); [split_and!; [done|apply probed_range|done]|].
  destruct (Z.eqb_spec (key_at t (probed key probe)) 0) as [Hz|Hz].
  - split_and!; [done..|]. exists probe. split_and!; [lia..|done| |]; intros j ?; lia.
  - specialize (IH (probe + 1) Hk ltac:(lia)).
    destruct (claim_loop _ _ _ _ _ _) as [[[i|] []] t'].
    + destruct IH as (-> & Hi0 & d & Hd & -> & Ht & Hne). split_and!; [done..|].
      exists d. split_and!; [lia..|done| |]; intros j Hj;
        (destruct (decide (j = probe)) as [->|]; [done|]).
      * apply Ht. lia.
      * apply Hne. lia.
    + done.
    + destruct IH as [-> IH]. split; [done|]. intros d Hd.
      destruct (decide (d = probe)) as [->|]; [done|]. apply IH. lia.
    + destruct IH as [-> IH]. split; [done|]. intros d Hd.
      destruct (decide (d = probe)) as [->|]; [done|]. apply IH. lia.
Qed.

(** In a well-formed table a key is found exactly at the cell that holds it. *)
Lemma FindSessionEntry_iff t key i :
  wf t -> key <> 0 ->
  (FindSessionEntry t key = Some i <-> in_table i /\ key_at t i = key).
Proof.
  intros Hwf Hk. unfold FindSessionEntry. destruct (Z.eqb_spec key 0); [done|].
  fold (home key). pose proof (find_loop_spec t key (Z.to_nat kMaxSessions) 0 ltac:(lia)) as Hs.
  assert (forall j, in_table j -> key_at t j = key -> exists d, 0 <= d < kMaxSessions /\
    j = probed key d /\ taken t key 0 d) as Hex.
  { intros j Hj <-. by apply (wf_probe t Hwf). }
  destruct (find_loop _ _ _ _ _ _) as [j|].
  - destruct Hs as [Hj Hkj]. split; [intros [= ->]; done|].
    intros [Hi Hki]. f_equal. apply (wf_unique t Hwf); done || congruence.
  - split; [done|]. intros [Hi Hki]. destruct (Hex i Hi Hki) as (d & Hd & -> & Ht).
    exfalso. apply (Hs d); [unfold kMaxSessions in *; lia|done..].
Qed.

Lemma wf_empty : wf ∅.
Proof. split; try done; unfold key_at, slot; intros *; rewrite lookup_empty; done. Qed.

(** Rewriting an entry without touching its key keeps the table well-formed. *)
Lemma key_at_update t i e j : session_key e = key_at t i -> key_at (<[i := e]> t) j = key_at t j.
Proof. intros He. unfold key_at. rewrite slot_insert. case_decide; by subst. Qed.

Lemma wf_update t i e :
  wf t -> key_at t i <> 0 -> session_key e = key_at t i -> wf (<[i := e]> t).
Proof.
  intros [Hb Hp Hu] Hi He. pose proof (fun j => key_at_update t i e j He) as Hk.
  split; setoid_rewrite Hk.
  - intros j Hj. rewrite slot_insert. case_decide; [by subst|auto].
  - intros j Hj Hnz. destruct (Hp j Hj Hnz) as (d & ? & ? & Ht). exists d. split_and!; [lia..|done|].
    intros m Hm. rewrite Hk. by apply Ht.
  - exact Hu.
Qed.

Lemma wf_claim t key d :
  wf t -> key <> 0 -> key_at t (probed key d) = 0 -> 0 <= d < kMaxSessions ->
  taken t key 0 d -> (forall i, in_table i -> key_at t i <> key) ->
  wf (<[probed key d := (slot t (probed key d)) <| session_key := key |>]> t).
Proof.
  intros [Hb Hp Hu] Hk Hz Hd Ht Habs.
  assert (forall e i j, key_at (<[i := e]> t) j = if decide (i = j) then session_key e else key_at t j)
    as Hka by (intros e i j; unfold key_at; rewrite slot_insert; by case_decide).
  assert (forall k a b e, session_key e <> 0 -> taken t k a b -> taken (<[probed key d := e]> t) k a b)
    as Htk.
  { intros k a b e He Htk j Hj. rewrite Hka. case_decide; [done|]. by apply Htk. }
  split; setoid_rewrite Hka; simpl.
  - intros j Hj. rewrite slot_insert. case_decide; [done|auto].
  - intros j Hj Hnz. case_decide.
    + exists d. split_and!; [lia..|done|by apply Htk].
    + destruct (Hp j Hj Hnz) as (d' & ? & ? & Ht'). exists d'. split_and!; [lia..|done|by apply Htk].
  - intros i j Hi Hj. repeat case_decide; subst; try done.
    + intros _ Heq. by destruct (Habs j Hj).
    + intros _ Heq. by destruct (Habs i Hi).
    + by apply Hu.
Qed.

(** A key whose next probed cell is free, and which no earlier probed cell
    holds, is nowhere in the table. *)
Lemma absent_if_free t key d :
  wf t -> key <> 0 -> 0 <= d -> key_at t (probed key d) = 0 ->
  (forall j, 0 <= j < d -> key_at t (probed key j) <> key) ->
  forall i, in_table i -> key_at t i <> key.
Proof.
  intros Hwf Hk Hd Hz Hne i Hi <-. destruct (wf_probe t Hwf i Hi Hk) as (d' & Hd' & Heq & Ht').
  destruct (Z.lt_total d' d) as [Hlt|[->|Hlt]].
  - apply (Hne d'); [lia|]. by rewrite <- Heq.
  - congruence.
  - by apply (Ht' d); [lia|].
Qed.

(** ** The table as a map from keys to entries *)

Definition view (t : Table) (key : Z) : option SessionEntry :=
  slot t <$> FindSessionEntry t key.

Lemma view_iff t key e :
  wf t -> key <> 0 -> (view t key = Some e <-> exists i, in_table i /\ key_at t i = key /\ slot t i = e).
Proof.
  intros Hwf Hk. unfold view. rewrite fmap_Some.
  setoid_rewrite (FindSessionEntry_iff t key); [|done..]. naive_solver.
Qed.

Lemma view_None t key :
  wf t -> key <> 0 -> (view t key = None <-> forall i, in_table i -> key_at t i <> key).
Proof.
  intros Hwf Hk. unfold view. rewrite fmap_None. split.
  - intros Hn i Hi Heq. pose proof (proj2 (FindSessionEntry_iff t key i Hwf Hk)). naive_solver.
  - intros Hno. destruct (FindSessionEntry t key) as [i|] eqn:E; [|done].
    apply (FindSessionEntry_iff t key i Hwf Hk) in E. naive_solver.
Qed.

Definition fresh_entry (key : Z) : SessionEntry := empty_entry <| session_key := key |>.

Lemma view_insert_other t t' i e key k :
  wf t -> wf t' -> t' = <[i := e]> t -> session_key e = key -> k <> 0 -> k <> key ->
  key_at t i = 0 \/ key_at t i = key -> view t' k = view t k.
Proof.
  intros Hwf Hwf' -> He Hk Hne Hi. apply option_eq. intros e'.
  rewrite !view_iff by done. unfold key_at in *. setoid_rewrite slot_insert.
  split; intros (j & Hj & Hkj & Hs); exists j; case_decide; subst; try done; naive_solver.
Qed.

Lemma FindOrCreate_spec t key :
  wf t -> key <> 0 ->
  match FindOrCreateSessionEntry t key with
  | (Some i, t') =>
      wf t' /\ in_table i /\ key_at t' i = key /\
      slot t' i = default (fresh_entry key) (view t key) /\
      forall k, k <> 0 -> k <> key -> view t' k = view t k
  | (None, t') => t' = t /\ view t key = None /\ forall i, in_table i -> key_at t i <> 0
  end.
Proof.
  intros Hwf Hk. unfold FindOrCreateSessionEntry, FindOrClaimSession. fold (home key).
  rewrite (proj2 (Z.eqb_neq _ _) Hk), (proj2 (Z.eqb_neq kMaxSessions 0)), Z.geb_leb,
    (proj2 (Z.leb_gt _ _)) by (done || (apply Z.mod_pos_bound; done)).
  cbn [orb]. pose proof (claim_loop_spec t key (Z.to_nat kMaxSessions) 0 Hk ltac:(lia)) as Hc.
  rewrite Z2Nat.id in Hc by done.
  destruct (claim_loop _ _ _ _ _ _) as [[[i|] []] t'].
  - destruct Hc as (-> & Hz & d & Hd & -> & Ht & Hne).
    assert (forall i, in_table i -> key_at t i <> key) as Habs
      by (apply (absent_if_free t key d); done || lia).
    pose proof (wf_claim t key d Hwf Hk Hz Hd Ht Habs) as Hwf'.
    split_and!; [done|apply probed_range|by unfold key_at; rewrite slot_insert, decide_True| |].
    + rewrite slot_insert, decide_True by done. rewrite (wf_blank t Hwf _ Hz).
      by rewrite (proj2 (view_None t key Hwf Hk)).
    + intros k Hk0 Hkne. eapply view_insert_other; [done..|by left].
  - destruct Hc as (-> & Hi & Hki). split_and!; try done.
    by rewrite (proj2 (view_iff t key (slot t i) Hwf Hk)) by eauto.
  - destruct Hc as [-> Hall]. split_and!; [done|apply view_None; [done..|]|]; intros i Hi;
      destruct (probed_onto key i Hi) as (d & Hd & ->); by apply Hall.
  - destruct Hc as [-> Hall]. split_and!; [done|apply view_None; [done..|]|]; intros i Hi;
      destruct (probed_onto key i Hi) as (d & Hd & ->); by apply Hall.
Qed.

Lemma publish_view t key snapshot ok t' :
  wf t -> key <> 0 -> snap_session_epoch snapshot <> 0 ->
  PublishSessionEntry t key snapshot = (ok, t') ->
  wf t' /\
  (forall k, k <> 0 -> k <> key -> view t' k = view t k) /\
  (if ok then view t' key = Some (publish_entry (default (fresh_entry key) (view t key)) snapshot)
   else t' = t /\ view t key = None /\ forall i, in_table i -> key_at t i <> 0).
Proof.
  intros Hwf Hk He Hrun. unfold PublishSessionEntry in Hrun. rewrite (proj2 (Z.eqb_neq _ _) He) in Hrun.
  pose proof (FindOrCreate_spec t key Hwf Hk) as Hc.
  destruct (FindOrCreateSessionEntry t key) as [[i|] t1]; injection Hrun as <- <-.
  2: { destruct Hc as (-> & ? & ?). done. }
  destruct Hc as (Hwf1 & Hi & Hki & Hs & Ho). rewrite <- Hs.
  assert (session_key (publish_entry (slot t1 i) snapshot) = key_at t1 i) as Hpk by done.
  assert (wf (<[i := publish_entry (slot t1 i) snapshot]> t1)) as Hwf2
    by (apply wf_update; [done|congruence|done]).
  split_and!; [done| |].
  - intros k Hk0 Hkne. rewrite <- Ho by done. eapply (view_insert_other t1 _ i _ key);
      [done..|congruence|done|done|by right].
  - apply view_iff; [done..|]. exists i. unfold key_at. rewrite slot_insert, decide_True by done. done.
Qed.

(** ** What publication promises *)

Definition entry_fenced (e : SessionEntry) : bool :=
  negb (Z.land (state_word e) kSessionEntryFlagFenced =? 0).
Definition entry_active (e : SessionEntry) : bool :=
  negb (Z.land (state_word e) kSessionEntryFlagActive =? 0).

Lemma land_bit w n : 0 <= n -> negb (Z.land w (2 ^ n) =? 0) = Z.testbit w n.
Proof.
  intros Hn. destruct (Z.testbit w n) eqn:E.
  - apply negb_true_iff, Z.eqb_neq. intros Hz.
    apply (f_equal (fun z => Z.testbit z n)) in Hz.
    by rewrite Z.land_spec, Z.pow2_bits_true, E, Z.bits_0 in Hz.
  - apply negb_false_iff, Z.eqb_eq, Z.bits_inj'. intros k Hk.
    rewrite Z.land_spec, Z.pow2_bits_eqb, Z.bits_0 by done.
    destruct (Z.eqb_spec n k); [subst; by rewrite E|apply andb_false_r].
Qed.

Lemma entry_fenced_bit e : entry_fenced e = Z.testbit (state_word e) 0.
Proof. by apply (land_bit _ 0). Qed.
Lemma entry_active_bit e : entry_active e = Z.testbit (state_word e) 1.
Proof. by apply (land_bit _ 1). Qed.

Lemma MergeSessionState_word current epoch fenced :
  (MergeSessionState current epoch fenced).1 = MergeSessionStateWord current epoch fenced.
Proof. unfold MergeSessionState. case_tests; bool_props; congruence. Qed.

Lemma merge_word_bits current epoch fenced :
  is_u32 epoch ->
  let w := MergeSessionStateWord current epoch fenced in
  Z.testbit w 0 = Z.testbit current 0 || fenced /\ Z.testbit w 1 = true /\
  Z.shiftr w 32 = epoch.
Proof.
  intros He w. assert (epoch <<u 32 = Z.shiftl epoch 32) as Hsh.
  { apply u64_id. rewrite Z.shiftl_mul_pow2 by lia. word_lia. }
  unfold w, MergeSessionStateWord. rewrite Hsh. split_and!.
  - rewrite !Z.lor_spec, Z.shiftl_spec_low, Z.land_spec by lia. simpl.
    rewrite andb_true_r. by destruct fenced.
  - rewrite !Z.lor_spec, Z.shiftl_spec_low by lia. by destruct (Z.land _ _), fenced.
  - rewrite !Z.shiftr_lor, Z.shiftr_shiftl_l, Z.shiftl_0_r by lia.
    replace (Z.shiftr (Z.land current 1) 32) with 0.
    2: { change (Z.land current 1) with (Z.land current (Z.ones 1)).
         rewrite Z.shiftr_div_pow2, Z.land_ones by lia.
         symmetry. apply Z.div_small. Z.to_euclidean_division_equations. lia. }
    destruct fenced; simpl; by rewrite !Z.lor_0_r.
Qed.

Lemma publish_entry_fields e snapshot :
  is_u32 (snap_session_epoch snapshot) ->
  let e' := publish_entry e snapshot in
  session_key e' = session_key e /\
  expected_seq e' = Z.max (expected_seq e) (snap_expected_seq snapshot) /\
  committed_hwm e' = Z.max (committed_hwm e) (snap_committed_hwm snapshot) /\
  highest_sequenced e' = Z.max (highest_sequenced e) (snap_highest_sequenced snapshot) /\
  entry_fenced e' = entry_fenced e || snap_fenced snapshot /\
  entry_active e' = true /\
  Z.shiftr (state_word e') 32 = snap_session_epoch snapshot.
Proof.
  intros Hep e'. rewrite !entry_fenced_bit, entry_active_bit. 
  assert (state_word e' = MergeSessionStateWord (state_word e) (snap_session_epoch snapshot)
    (snap_fenced snapshot)) as -> by apply MergeSessionState_word.
  destruct (merge_word_bits (state_word e) _ (snap_fenced snapshot) Hep) as (-> & -> & ->).
  split_and!; try done; simpl; unfold StoreSessionMaximum; case_tests; bool_props; lia.
Qed.

(** A publication never takes back what readers may have seen: the three
    frontiers of the entry only grow to cover the snapshot, a fence once set
    stays set, the entry is active afterwards and carries the session epoch. *)
Theorem publish_entry_monotone e snapshot :
  is_u32 (snap_session_epoch snapshot) ->
  let e' := publish_entry e snapshot in
  session_key e' = session_key e /\
  expected_seq e' = Z.max (expected_seq e) (snap_expected_seq snapshot) /\
  committed_hwm e' = Z.max (committed_hwm e) (snap_committed_hwm snapshot) /\
  highest_sequenced e' = Z.max (highest_sequenced e) (snap_highest_sequenced snapshot) /\
  entry_fenced e' = entry_fenced e || snap_fenced snapshot /\
  entry_active e' = true /\
  Z.shiftr (state_word e') 32 = snap_session_epoch snapshot.
Proof. apply publish_entry_fields. Qed.

(** ** Readers see what was published *)

Lemma read_loop_find t key n : forall probe out,
  key <> 0 ->
  read_loop n t key (home key) probe out =
    match find_loop n t kMaxSessions key (home key) probe with
    | Some i => let out := read_entry (slot t i) out in (dss_active out, out)
    | None => (false, out)
    end.
Proof.
  induction n as [|n IH]; intros probe out Hk; simpl; [done|].
  destruct (Z.eqb_spec (session_key (slot t ((home key + probe) mod kMaxSessions))) 0) as [->|].
  { by rewrite (proj2 (Z.eqb_neq 0 key)) by congruence. }
  destruct (Z.eqb_spec (session_key (slot t ((home key + probe) mod kMaxSessions))) key); [done|].
  by apply IH.
Qed.

Lemma ReadSessionEntrySnapshot_view t client epoch out :
  is_u32 epoch -> epoch <> 0 ->
  ReadSessionEntrySnapshot t client epoch out =
    match view t (MakeSessionKey client epoch) with
    | Some e => let out := read_entry e out in (dss_active out, out)
    | None => (false, out)
    end.
Proof.
  intros He Hz. pose proof (MakeSessionKey_nonzero client epoch He Hz) as Hk.
  unfold ReadSessionEntrySnapshot, view, FindSessionEntry.
  rewrite (proj2 (Z.eqb_neq epoch 0) Hz), (proj2 (Z.eqb_neq _ 0) Hk).
  fold (home (MakeSessionKey client epoch)). rewrite read_loop_find by done.
  by destruct (find_loop _ _ _ _ _ _).
Qed.

Lemma read_entry_fields e out :
  is_u64 (state_word e) ->
  let out' := read_entry e out in
  dss_active out' = entry_active e /\ dss_fenced out' = entry_fenced e /\
  dss_session_epoch out' = Z.shiftr (state_word e) 32.
Proof.
  intros Hw out'. unfold out', entry_active, entry_fenced. simpl.
  change 4294967295 with (Z.ones 32). rewrite <- !Z.land_assoc.
  split_and!; [done..|]. apply u32_id. rewrite Z.shiftr_div_pow2 by lia. word_lia.
Qed.
(** C39. Publishing a session refines an update of the map from session keys to
    entries: the published key's entry merges the snapshot, every other session
    is untouched, and the only failure, which changes nothing, is a table whose
    4096 cells all hold other sessions. *)
Theorem PublishSessionEntry_refines t key snapshot ok t' :
  wf t -> key <> 0 -> snap_session_epoch snapshot <> 0 ->
  PublishSessionEntry t key snapshot = (ok, t') ->
  wf t' /\
  (forall k, k <> 0 -> k <> key -> view t' k = view t k) /\
  (if ok then view t' key = Some (publish_entry (default (fresh_entry key) (view t key)) snapshot)
   else t' = t /\ view t key = None /\ forall i, in_table i -> key_at t i <> 0).
Proof. apply publish_view. Qed.

Lemma merge_word_range current epoch fenced :
  is_u32 epoch -> is_u64 (MergeSessionStateWord current epoch fenced).
Proof.
  intros He. unfold MergeSessionStateWord.
  rewrite u64_id by (rewrite Z.shiftl_mul_pow2 by lia; word_lia).
  change (Z.land current 1) with (Z.land current (Z.ones 1)). rewrite Z.land_ones by lia.
  assert (current mod 2 ^ 1 = 0 \/ current mod 2 ^ 1 = 1) as [-> | ->]
    by (Z.to_euclidean_division_equations; lia);
    destruct fenced; rewrite <- !Z.lor_assoc;
    match goal with |- context [Z.lor (Z.shiftl epoch 32) ?x] =>
      let y := eval vm_compute in x in change x with y end;
    rewrite lor_shiftl_low by lia; word_lia.
Qed.

(** A broker that reads the table after a publication for (client, epoch)
    finds the session active, with the merged frontiers and fence and with
    exactly that epoch, whatever other sessions share the table. *)
Theorem publish_read_roundtrip t client snapshot t' out :
  wf t -> is_u32 (snap_session_epoch snapshot) -> snap_session_epoch snapshot <> 0 ->
  let epoch := snap_session_epoch snapshot in
  let key := MakeSessionKey client epoch in
  PublishSessionEntry t key snapshot = (true, t') ->
  let e := default (fresh_entry key) (view t key) in
  exists out', ReadSessionEntrySnapshot t' client epoch out = (true, out') /\
    dss_session_epoch out' = epoch /\
    dss_expected_seq out' = Z.max (expected_seq e) (snap_expected_seq snapshot) /\
    dss_committed_hwm out' = Z.max (committed_hwm e) (snap_committed_hwm snapshot) /\
    dss_fenced out' = entry_fenced e || snap_fenced snapshot.
Proof.
  intros Hwf He Hz epoch key Hrun e.
  destruct (publish_view t key snapshot true t' Hwf) as (_ & _ & Hv);
    [by apply MakeSessionKey_nonzero|done|done|].
  rewrite ReadSessionEntrySnapshot_view by done. fold epoch key. rewrite Hv. fold e.
  destruct (publish_entry_fields e snapshot He) as (_ & Hx & Hc & _ & Hf & Ha & Hep).
  destruct (read_entry_fields (publish_entry e snapshot) out) as (Ha' & Hf' & He').
  { simpl. rewrite MergeSessionState_word. by apply merge_word_range. }
  eexists. split; [by rewrite <- Ha, <- Ha'|]. rewrite He', Hep, Hf', Hf, <- Hx, <- Hc. done.
Qed.

(** ** Concurrent claims

    Receive threads and the sequencer run [FindOrClaimSession] at once; its
    atomic steps are the load of a cell's key and the compare-exchange. *)

Inductive claim_pc := Observe | Cas | Done (entry : option Z).
Record claimer := mkClaimer { cl_key : Z; cl_probe : Z; cl_pc : claim_pc }.

(** The next atomic step of one call. *)
Definition claim_turn (t : Table) (c : claimer) : Table * claimer :=
  let '(mkClaimer key probe pc) := c in
  let i := probed key probe in
  match pc with
  | Done _ => (t, c)
  | Observe =>
      if probe >=? kMaxSessions then (t, mkClaimer key probe (Done None))
      else if key_at t i =? key then (t, mkClaimer key probe (Done (Some i)))
      else if key_at t i =? 0 then (t, mkClaimer key probe Cas)
      else (t, mkClaimer key (probe + 1) Observe)
  | Cas =>
      if key_at t i =? 0 then
        (<[i := (slot t i) <| session_key := key |>]> t, mkClaimer key probe (Done (Some i)))
      else if key_at t i =? key then (t, mkClaimer key probe (Done (Some i)))
      else (t, mkClaimer key (probe + 1) Observe)
  end.

Definition claim_state := (Table * gmap nat claimer)%type.
Inductive claim_step : claim_state -> claim_state -> Prop :=
  | claim_step_thread t cs tid c :
      cs !! tid = Some c ->
      claim_step (t, cs) ((claim_turn t c).1, <[tid := (claim_turn t c).2]> cs).

(** What a call in flight, or finished, knows of the table. *)
Definition claimer_ok (t : Table) (c : claimer) : Prop :=
  cl_key c <> 0 /\ 0 <= cl_probe c <= kMaxSessions /\
  match cl_pc c with
  | Done (Some i) => in_table i /\ key_at t i = cl_key c
  | Done None => forall i, in_table i -> key_at t i <> 0 /\ key_at t i <> cl_key c
  | pc =>
      (pc = Cas -> cl_probe c < kMaxSessions) /\
      forall j, 0 <= j < cl_probe c ->
        key_at t (probed (cl_key c) j) <> 0 /\ key_at t (probed (cl_key c) j) <> cl_key c
  end.

Definition claim_inv (s : claim_state) : Prop :=
  wf s.1 /\ map_Forall (fun _ c => claimer_ok s.1 c) s.2.

(** A cell changes only from free to claimed. *)
Definition grows (t t' : Table) : Prop :=
  forall i, key_at t i <> 0 -> key_at t' i = key_at t i.

Lemma claimer_ok_grows t t' c : grows t t' -> claimer_ok t c -> claimer_ok t' c.
Proof.
  intros Hg (Hk & Hp & Hpc). split_and!; [done|lia|lia|].
  destruct (cl_pc c) as [| |[i|]]; [..|destruct Hpc as [Hi Hpc]|].
  1,2: destruct Hpc as [Hc Hpc]; split; [done|]; intros j Hj; destruct (Hpc j Hj);
    by rewrite Hg.
  - split; [done|]. rewrite Hg; congruence.
  - intros i Hi. destruct (Hpc i Hi). by rewrite Hg.
Qed.

Lemma claim_turn_ok t c :
  wf t -> claimer_ok t c ->
  let '(t', c') := claim_turn t c in
  wf t' /\ grows t t' /\ claimer_ok t' c' /\ cl_key c' = cl_key c.
Proof.
  destruct c as [key probe [| |r]]; intros Hwf (Hk & Hp & Hpc); simpl in *.
  3: { by split_and!. }
  - destruct Hpc as [_ Hpc].
    destruct (probe >=? kMaxSessions) eqn:E1; bool_props.
    { split_and!; [done|by intros i Hi| |done]. red; simpl; split_and!; [done|lia|lia|]. intros i Hi. simpl.
      destruct (probed_onto key i Hi) as (d & Hd & ->). apply Hpc. lia. }
    destruct (key_at t (probed key probe) =? key) eqn:E2; bool_props.
    { split_and!; [done|by intros i Hi| |done]. red; simpl; split_and!; [done|lia|lia|apply probed_range|done]. }
    destruct (key_at t (probed key probe) =? 0) eqn:E3; bool_props.
    { split_and!; [done|by intros i Hi| |done]. red; simpl; split_and!; [done|lia|lia|intros _; lia|done]. }
    split_and!; [done|by intros i Hi| |done]. red; simpl; split_and!; [done|lia|lia|done|]. intros j Hj.
    destruct (decide (j = probe)) as [->|]; [done|]. apply Hpc. lia.
  - destruct Hpc as [Hlt Hpc]. specialize (Hlt eq_refl).
    destruct (key_at t (probed key probe) =? 0) eqn:E1; bool_props.
    { assert (forall i, in_table i -> key_at t i <> key) as Habs
        by (apply (absent_if_free t key probe); [done..|lia|done|apply Hpc]).
      split_and!; [apply wf_claim; [done..|lia|intros j Hj; by apply Hpc|done]| | |done].
      - intros i Hi. unfold key_at. rewrite slot_insert. case_decide; [by subst|done].
      - red; simpl; split_and!; [done|lia|lia|apply probed_range|].
        unfold key_at. by rewrite slot_insert, decide_True. }
    destruct (key_at t (probed key probe) =? key) eqn:E2; bool_props.
    { split_and!; [done|by intros i Hi| |done]. red; simpl; split_and!; [done|lia|lia|apply probed_range|done]. }
    split_and!; [done|by intros i Hi| |done]. red; simpl; split_and!; [done|lia|lia|done|]. intros j Hj.
    destruct (decide (j = probe)) as [->|]; [done|]. apply Hpc. lia.
Qed.

Lemma claim_step_inv s s' : claim_inv s -> claim_step s s' -> claim_inv s'.
Proof.
  intros [Hwf Hcs] Hstep. destruct Hstep as [t cs tid c Hc]. simpl in *.
  pose proof (claim_turn_ok t c Hwf (Hcs _ _ Hc)) as Ht.
  destruct (claim_turn t c) as [t' c']. destruct Ht as (Hwf' & Hg & Hok & _).
  split; [done|]. simpl. apply map_Forall_insert_2; [done|].
  intros j c2 Hj. eapply claimer_ok_grows; [done|by eapply Hcs].
Qed.

(** However the threads' loads and compare-exchanges interleave, starting
    from any well-formed table: no key is ever in two cells, a finished claim
    holds a cell with its own key, two finished claims of one key share the
    cell, and a claim gives up only when all 4096 cells hold other keys. *)
Theorem concurrent_claims_unique t cs t' cs' :
  wf t -> (forall tid c, cs !! tid = Some c ->
    cl_key c <> 0 /\ cl_probe c = 0 /\ cl_pc c = Observe) ->
  rtc claim_step (t, cs) (t', cs') ->
  wf t' /\
  (forall tid c i, cs' !! tid = Some c -> cl_pc c = Done (Some i) ->
     in_table i /\ key_at t' i = cl_key c) /\
  (forall tid1 c1 i1 tid2 c2 i2, cs' !! tid1 = Some c1 -> cs' !! tid2 = Some c2 ->
     cl_pc c1 = Done (Some i1) -> cl_pc c2 = Done (Some i2) -> cl_key c1 = cl_key c2 -> i1 = i2) /\
  (forall tid c, cs' !! tid = Some c -> cl_pc c = Done None ->
     forall i, in_table i -> key_at t' i <> 0 /\ key_at t' i <> cl_key c).
Proof.
  intros Hwf Hcs Hrun.
  assert (claim_inv (t', cs')) as [Hwf' Hok].
  { eapply (rtc_invariant claim_step claim_inv); [exact claim_step_inv| |exact Hrun].
    split; [done|]. intros tid c Hc. destruct (Hcs tid c Hc) as (Hk & Hp & Hpc).
    unfold claimer_ok. rewrite Hp, Hpc. split_and!; [done..|lia]. }
  simpl in *. assert (forall tid c i, cs' !! tid = Some c -> cl_pc c = Done (Some i) ->
     in_table i /\ key_at t' i = cl_key c) as Hdone.
  { intros tid c i Hc Hpc. destruct (Hok _ _ Hc) as (_ & _ & Hd). by rewrite Hpc in Hd. }
  split_and!; [done..| |].
  - intros tid1 c1 i1 tid2 c2 i2 H1 H2 Hp1 Hp2 Heq.
    destruct (Hdone _ _ _ H1 Hp1) as [Hi1 Hk1], (Hdone _ _ _ H2 Hp2) as [Hi2 Hk2].
    destruct (Hok _ _ H1) as [Hnz _]. apply (wf_unique t' Hwf'); [done..| |]; congruence.
  - intros tid c Hc Hpc. destruct (Hok _ _ Hc) as (_ & _ & Hd). by rewrite Hpc in Hd.
Qed.

(** A schedule names the thread that moves next. *)
Definition run_claims (schedule : list nat) (s : claim_state) : claim_state :=
  foldl (fun s tid =>
    match s.2 !! tid with
    | Some c => ((claim_turn s.1 c).1, <[tid := (claim_turn s.1 c).2]> s.2)
    | None => s
    end) s schedule.

Lemma run_claims_rtc schedule : forall s, rtc claim_step s (run_claims schedule s).
Proof.
  induction schedule as [|tid l IH]; intros [t cs]; simpl; [constructor|].
  destruct (cs !! tid) as [c|] eqn:E; [|apply IH]. eapply rtc_l; [by constructor|apply IH].
Qed.
End SessionTable.

Definition sample_snapshot : SessionTable.SessionPublishSnapshot :=
  SessionTable.mkSnapshot 7 12 11 11 true.

Lemma PublishSessionEntry_refines_witness :
  let key := MakeSessionKey 3 7 in
  let t' := (SessionTable.PublishSessionEntry ∅ key sample_snapshot).2 in
  SessionTable.wf t' /\
  SessionTable.view t' key =
    Some (SessionTable.publish_entry (SessionTable.fresh_entry key) sample_snapshot).
Proof.
  intros key t'.
  destruct (SessionTable.PublishSessionEntry_refines ∅ key sample_snapshot true
    (SessionTable.PublishSessionEntry ∅ key sample_snapshot).2 SessionTable.wf_empty)
    as (Hwf & _ & Hv); [by vm_compute..|by vm_compute|]. split; [exact Hwf|exact Hv].
Defined.

Lemma publish_entry_monotone_witness :
  SessionTable.entry_fenced
    (SessionTable.publish_entry (SessionTable.fresh_entry 5) sample_snapshot) = true.
Proof.
  destruct (SessionTable.publish_entry_monotone (SessionTable.fresh_entry 5) sample_snapshot)
    as (_ & _ & _ & _ & Hf & _); [split; by vm_compute|exact Hf].
Defined.

Lemma publish_read_roundtrip_witness :
  let key := MakeSessionKey 3 7 in
  let t' := (SessionTable.PublishSessionEntry ∅ key sample_snapshot).2 in
  exists out', SessionTable.ReadSessionEntrySnapshot t' 3 7 SessionTable.durable_init = (true, out') /\
    SessionTable.dss_expected_seq out' = 12.
Proof.
  intros key t'.
  destruct (SessionTable.publish_read_roundtrip ∅ 3 sample_snapshot
    (SessionTable.PublishSessionEntry ∅ key sample_snapshot).2 SessionTable.durable_init
    SessionTable.wf_empty) as (out' & Hr & _ & He & _);
    [split; by vm_compute|by vm_compute|by vm_compute|].
  exists out'. split; [exact Hr|exact He].
Defined.

(** Two threads claim one key and both see its home cell free before either
    compare-exchanges it. *)
Lemma concurrent_claims_unique_witness :
  let c := SessionTable.mkClaimer 5 0 SessionTable.Observe in
  let s' := SessionTable.run_claims [0; 1; 0; 1]%nat (∅, {[0%nat := c; 1%nat := c]}) in
  SessionTable.wf s'.1 /\
  (SessionTable.cl_pc <$> s'.2 !! 0%nat) = (SessionTable.cl_pc <$> s'.2 !! 1%nat).
Proof.
  split; [|by vm_compute].
  apply (SessionTable.concurrent_claims_unique ∅ {[0%nat := SessionTable.mkClaimer 5 0 SessionTable.Observe;
    1%nat := SessionTable.mkClaimer 5 0 SessionTable.Observe]}
    (SessionTable.run_claims [0; 1; 0; 1]%nat (∅, {[0%nat := SessionTable.mkClaimer 5 0 SessionTable.Observe;
    1%nat := SessionTable.mkClaimer 5 0 SessionTable.Observe]})).1
    (SessionTable.run_claims [0; 1; 0; 1]%nat (∅, {[0%nat := SessionTable.mkClaimer 5 0 SessionTable.Observe;
    1%nat := SessionTable.mkClaimer 5 0 SessionTable.Observe]})).2).
  - apply SessionTable.wf_empty.
  - intros tid c Hc. apply lookup_insert_Some in Hc as [[_ <-]|[_ Hc]]; [done|].
    apply lookup_singleton_Some in Hc as [_ <-]. done.
  - rewrite <- surjective_pairing. apply SessionTable.run_claims_rtc.
Defined.
