(* ===== verification/Reservation.v ===== *)
(** Bounded reservations: src/embarlet/bounded_reservation.h. *)

From S2P Require Import Prelude.

(** * The producer side of a PBR ring *)
Module PBR.

Record PBRProducerState := mkProducer { next_slot_seq : Z; logical_offset : Z }.
#[global] Instance PBRProducerState_eq_dec : EqDecision PBRProducerState.
Proof. solve_decision. Defined.

Definition UnwrapPBRConsumed (previous modulo slots : Z) : Z :=
  if (slots <? 2) || (modulo >=? slots) then previous
  else
    let old_modulo := previous mod slots in
    let delta := if modulo >=? old_modulo then modulo - old_modulo
                 else slots -u old_modulo +u modulo in
    if delta >? U64_MAX - previous then previous else previous + delta.

(** One call of [TryReservePBR], by its atomic operations: the control points
    of the loop, with the snapshot [current] it holds there. *)
Inductive pbr_pc :=
  | Start                               (** before [current = state.load()] *)
  | LoadConsumed (current : PBRProducerState)  (** [retired = consumed.load()] at the loop head *)
  | Recheck (current : PBRProducerState)       (** the second load, after [refresh()] *)
  | Reload                              (** [current = state.load(); continue] *)
  | TryCas (current : PBRProducerState)        (** [compare_exchange_weak(current, next)] *)
  | Reserved (slot logical absolute : Z)
  | Refused.

Record producer := mkProducerCall { pr_messages : Z; pr_pc : pbr_pc }.

Record ring := mkRing { state : PBRProducerState; consumed : Z }.

(** The next atomic operation; [weak] is a spurious failure of the weak CAS. *)
Definition pbr_turn (slots : Z) (r : ring) (messages : Z) (pc : pbr_pc) (weak : bool)
    : ring * pbr_pc :=
  match pc with
  | Start =>
      if (slots <? 2) || (messages =? 0) then (r, Refused) else (r, LoadConsumed (state r))
  | LoadConsumed current =>
      let retired := consumed r in
      if retired >? next_slot_seq current then (r, Reload)
      else if next_slot_seq current - retired >=? slots - 1 then (r, Recheck current)
      else (r, TryCas current)
  | Recheck current =>
      let retired := consumed r in
      if retired >? next_slot_seq current then (r, Reload)
      else if next_slot_seq current - retired >=? slots - 1 then (r, Refused)
      else (r, TryCas current)
  | Reload => (r, LoadConsumed (state r))
  | TryCas current =>
      if (next_slot_seq current =? U64_MAX) ||
         (messages >? U64_MAX - logical_offset current) then (r, Refused)
      else if bool_decide (state r = current) && negb weak then
        (mkRing (mkProducer (next_slot_seq current + 1) (logical_offset current + messages))
                (consumed r),
         Reserved (next_slot_seq current mod slots) (logical_offset current)
                  (next_slot_seq current))
      else (r, LoadConsumed (state r))
  | Reserved _ _ _ | Refused => (r, pc)
  end.

(** The ring with its callers, and the reservations granted so far. *)
Record grant := mkGrant { g_absolute : Z; g_slot : Z; g_logical : Z; g_messages : Z }.
Record system := mkSystem { ring_of : ring; calls : gmap nat producer; grants : list grant }.

Definition new_grants (messages : Z) (pc pc' : pbr_pc) : list grant :=
  match pc, pc' with
  | TryCas _, Reserved slot logical absolute => [mkGrant absolute slot logical messages]
  | _, _ => []
  end.

Inductive pbr_step (slots : Z) : system -> system -> Prop :=
  | pbr_call s tid messages :
      is_u32 messages ->
      pbr_step slots s (mkSystem (ring_of s) (<[tid := mkProducerCall messages Start]> (calls s))
                          (grants s))
  | pbr_turn_step s tid p weak r' pc' :
      calls s !! tid = Some p ->
      pbr_turn slots (ring_of s) (pr_messages p) (pr_pc p) weak = (r', pc') ->
      pbr_step slots s (mkSystem r' (<[tid := mkProducerCall (pr_messages p) pc']> (calls s))
                          (grants s ++ new_grants (pr_messages p) (pr_pc p) pc'))
  (** [refresh]: the consumer is observed to have retired more slots, never
      more than were reserved. *)
  | pbr_retire s c :
      consumed (ring_of s) <= c <= next_slot_seq (state (ring_of s)) ->
      pbr_step slots s (mkSystem (mkRing (state (ring_of s)) c) (calls s) (grants s)).

(** The modulo sample of a consumer less than one lap ahead determines it. *)
Lemma UnwrapPBRConsumed_exact previous actual slots :
  2 <= slots -> is_u64 slots -> 0 <= previous <= actual -> actual < previous + slots ->
  actual <= U64_MAX ->
  UnwrapPBRConsumed previous (actual mod slots) slots = actual.
Proof.
  intros Hs Hs64 Hp Ha Hm. unfold UnwrapPBRConsumed.
  assert (0 <= actual mod slots < slots) as Hmod by (apply Z.mod_pos_bound; lia).
  rewrite (proj2 (Z.ltb_ge _ _)), Z.geb_leb, (proj2 (Z.leb_gt _ _)) by lia. cbn [orb].
  assert (0 <= previous mod slots < slots) as Hpm by (apply Z.mod_pos_bound; lia).
  pose proof (Z.div_mod actual slots ltac:(lia)) as Ea.
  pose proof (Z.div_mod previous slots ltac:(lia)) as Ep.
  assert (actual / slots = previous / slots \/ actual / slots = previous / slots + 1) as Hq by nia.
  unfold is_u64, U64_MAX in *. rewrite Z.geb_leb.
  destruct (Z.leb_spec (previous mod slots) (actual mod slots)).
  - destruct Hq as [Hq|Hq]; rewrite Hq in Ea; [|nia]. case_tests; bool_props; lia.
  - destruct Hq as [Hq|Hq]; rewrite Hq in Ea; [nia|]. rewrite !u64_id by (rewrite ?u64_id; unfold is_u64; lia).
    case_tests; bool_props; lia.
Qed.

(** ** The invariant *)

Definition snapshot_ok (r : ring) (cur : PBRProducerState) : Prop :=
  0 <= next_slot_seq cur <= next_slot_seq (state r) /\ 0 <= logical_offset cur.

Definition pc_ok (slots : Z) (r : ring) (messages : Z) (pc : pbr_pc) : Prop :=
  match pc with
  | LoadConsumed cur | Recheck cur => 2 <= slots /\ messages <> 0 /\ snapshot_ok r cur
  | TryCas cur =>
      2 <= slots /\ messages <> 0 /\ snapshot_ok r cur /\
      next_slot_seq cur - consumed r < slots - 1
  | Reload => 2 <= slots /\ messages <> 0
  | _ => True
  end.

(** The grants are the sequence numbers from [first] up to [next], each one's
    messages starting where the previous one's end. *)
Fixpoint tiles (slots seq logical : Z) (gs : list grant) (last : PBRProducerState) : Prop :=
  match gs with
  | [] => last = mkProducer seq logical
  | g :: gs' =>
      g = mkGrant seq (seq mod slots) logical (g_messages g) /\ 0 < g_messages g /\
      tiles slots (seq + 1) (logical + g_messages g) gs' last
  end.

Record inv (slots : Z) (first : PBRProducerState) (s : system) : Prop := {
  inv_consumed : 0 <= consumed (ring_of s) <= next_slot_seq (state (ring_of s));
  inv_room : next_slot_seq (state (ring_of s)) - consumed (ring_of s) <= slots - 1;
  inv_width : next_slot_seq (state (ring_of s)) <= U64_MAX /\
              0 <= logical_offset (state (ring_of s)) <= U64_MAX;
  inv_tiles : tiles slots (next_slot_seq first) (logical_offset first) (grants s)
                (state (ring_of s));
  inv_calls : map_Forall (fun _ p => is_u32 (pr_messages p) /\
                pc_ok slots (ring_of s) (pr_messages p) (pr_pc p)) (calls s);
}.

Lemma tiles_snoc slots gs : forall seq logical last g,
  tiles slots seq logical gs last ->
  g_absolute g = next_slot_seq last -> g_slot g = next_slot_seq last mod slots ->
  g_logical g = logical_offset last -> 0 < g_messages g ->
  tiles slots seq logical (gs ++ [g])
    (mkProducer (next_slot_seq last + 1) (logical_offset last + g_messages g)).
Proof.
  induction gs as [|h gs IH]; intros seq logical last g Ht Ha Hs Hl Hm; simpl in *.
  - subst last. destruct g; simpl in *. by subst.
  - destruct Ht as (Hh & Hp & Ht). split_and!; [done..|]. by apply IH.
Qed.

(** A snapshot stays usable while the ring moves on. *)
Lemma pc_ok_later slots r r' messages pc :
  next_slot_seq (state r) <= next_slot_seq (state r') -> consumed r <= consumed r' ->
  pc_ok slots r messages pc -> pc_ok slots r' messages pc.
Proof. intros. destruct pc; simpl in *; unfold snapshot_ok in *; conj_lia. Qed.

Lemma pbr_turn_ok slots r messages pc weak r' pc' :
  0 <= consumed r <= next_slot_seq (state r) ->
  next_slot_seq (state r) - consumed r <= slots - 1 -> next_slot_seq (state r) <= U64_MAX ->
  0 <= logical_offset (state r) -> is_u32 messages -> pc_ok slots r messages pc ->
  pbr_turn slots r messages pc weak = (r', pc') ->
  pc_ok slots r' messages pc' /\
  (new_grants messages pc pc' = [] /\ r' = r \/
   exists slot logical absolute,
     new_grants messages pc pc' = [mkGrant absolute slot logical messages] /\
     absolute = next_slot_seq (state r) /\ slot = absolute mod slots /\
     logical = logical_offset (state r) /\ 0 < messages /\
     absolute + 1 <= U64_MAX /\ absolute + 1 - consumed r <= slots - 1 /\
     logical + messages <= U64_MAX /\
     r' = mkRing (mkProducer (absolute + 1) (logical + messages)) (consumed r)).
Proof.
  intros Hc Hroom Hw Hl Hm Hpc Hrun. destruct pc; simpl in *.
  all: repeat case_match; simplify_eq/=; bool_props; unfold snapshot_ok in *.
  all: try (split; [by conj_lia|by left]).
  destruct Hpc as (Hs & Hnz & Hsnap & Hlt). split; [done|]. right.
  match goal with H : bool_decide _ = true |- _ => apply bool_decide_eq_true in H as <- end.
  do 3 eexists. split_and!; [done..| | | | |done]; unfold is_u32 in *; lia.
Qed.

Lemma pbr_step_inv slots first s s' : inv slots first s -> pbr_step slots s s' -> inv slots first s'.
Proof.
  intros [Hc Hr [Hw Hl] Ht Hcalls] Hstep. destruct Hstep as [s tid messages Hm|s tid p weak r' pc' Hp Hrun|s c Hret].
  - split; try done. simpl. apply map_Forall_insert_2; [split; done|done].
  - destruct (Hcalls _ _ Hp) as [Hm Hpc].
    destruct (pbr_turn_ok _ _ _ _ _ _ _ Hc Hr Hw (proj1 Hl) Hm Hpc Hrun) as [Hpc' [[-> ->]|Hnew]].
    { rewrite app_nil_r. split; simpl; try done. by apply map_Forall_insert_2. }
    destruct Hnew as (slot & logical & absolute & -> & -> & -> & -> & Hpos & Hw1 & Hr1 & Hl1 & ->).
    split; simpl; [lia|lia|lia| |].
    + by apply (tiles_snoc slots _ _ _ _
        (mkGrant _ (next_slot_seq (state (ring_of s)) mod slots) _ (pr_messages p))).
    + apply map_Forall_insert_2; [split; [done|]|].
      * done.
      * eapply map_Forall_impl; [exact Hcalls|]. intros i q [Hq Hqc]. split; [done|].
        eapply pc_ok_later; [| |exact Hqc]; simpl; lia.
  - split; simpl; try done; [lia|lia|].
    eapply map_Forall_impl; [exact Hcalls|]. intros i q [Hq Hqc]. split; [done|].
    eapply pc_ok_later; [| |exact Hqc]; simpl; lia.
Qed.

Lemma tiles_lookup slots gs : forall seq logical last i g,
  tiles slots seq logical gs last -> gs !! i = Some g ->
  g_absolute g = seq + Z.of_nat i /\ g_slot g = g_absolute g mod slots /\
  logical <= g_logical g /\ 0 < g_messages g /\
  g_logical g + g_messages g <= logical_offset last /\ g_absolute g < next_slot_seq last.
Proof.
  assert (forall gs seq logical last, tiles slots seq logical gs last ->
    seq <= next_slot_seq last /\ logical <= logical_offset last) as Hle.
  { induction gs0 as [|h gs0 IH]; intros seq logical last Ht; simpl in *; [subst; simpl; lia|].
    destruct Ht as (_ & Hp & Ht). apply IH in Ht. lia. }
  induction gs as [|h gs IH]; intros seq logical last i g Ht Hi; [done|].
  destruct Ht as (Hh & Hp & Ht). destruct i as [|i]; simpl in Hi.
  - injection Hi as <-. rewrite Hh. simpl. apply Hle in Ht. split_and!; try done; lia.
  - destruct (IH _ _ _ _ _ Ht Hi) as (? & ? & ? & ? & ? & ?). split_and!; try done; lia.
Qed.

Lemma tiles_lookup_lt slots gs seq logical last i j g h :
  tiles slots seq logical gs last -> (i < j)%nat -> gs !! i = Some g -> gs !! j = Some h ->
  g_logical g + g_messages g <= g_logical h.
Proof.
  revert seq logical i j. induction gs as [|k gs IH]; intros seq logical i j Ht Hij Hi Hj; [done|].
  destruct Ht as (Hk & Hp & Ht). destruct i as [|i], j as [|j]; try lia; simpl in *.
  - injection Hi as <-. destruct (tiles_lookup _ _ _ _ _ _ _ Ht Hj) as (_ & _ & Hl & _).
    rewrite Hk. simpl. lia.
  - eapply (IH _ _ i j Ht); [lia|done..].
Qed.

(** Whatever the interleaving of producers' loads and (possibly spuriously
    failing) compare-exchanges with the consumer's progress: reservations are
    granted in sequence with no gap, their message ranges never overlap nor
    wrap, at most [slots - 1] slots are outstanding, and no two outstanding
    reservations share a ring slot. *)
Theorem pbr_reservations_disjoint slots st c s' :
  0 <= c <= next_slot_seq st -> next_slot_seq st - c <= slots - 1 ->
  next_slot_seq st <= U64_MAX -> 0 <= logical_offset st <= U64_MAX ->
  rtc (pbr_step slots) (mkSystem (mkRing st c) ∅ []) s' ->
  next_slot_seq (state (ring_of s')) - consumed (ring_of s') <= slots - 1 /\
  logical_offset (state (ring_of s')) <= U64_MAX /\
  (forall i g, grants s' !! i = Some g ->
     g_absolute g = next_slot_seq st + Z.of_nat i /\
     g_logical g + g_messages g <= logical_offset (state (ring_of s'))) /\
  (forall i j g h, (i < j)%nat -> grants s' !! i = Some g -> grants s' !! j = Some h ->
     g_logical g + g_messages g <= g_logical h /\
     (consumed (ring_of s') <= g_absolute g -> g_slot g <> g_slot h)).
Proof.
  intros Hc Hr Hw Hl Hrun.
  assert (inv slots st s') as [Hc' Hr' [Hw' Hl'] Ht' _].
  { eapply (rtc_invariant (pbr_step slots) (inv slots st)); [apply pbr_step_inv| |exact Hrun].
    split; simpl; try done. by destruct st. }
  split_and!; [done|lia| |].
  - intros i g Hi. destruct (tiles_lookup _ _ _ _ _ _ _ Ht' Hi) as (? & _ & _ & _ & ? & _). done.
  - intros i j g h Hij Hi Hj. split; [by eapply tiles_lookup_lt|]. intros Hout.
    destruct (tiles_lookup _ _ _ _ _ _ _ Ht' Hi) as (Hgi & -> & _ & _ & _ & Hi').
    destruct (tiles_lookup _ _ _ _ _ _ _ Ht' Hj) as (Hgj & -> & _ & _ & _ & Hj').
    intros Heq%mod_window; lia.
Qed.

(** A schedule of producers' calls and atomic operations. *)
Inductive action := Call (tid : nat) (messages : Z) | Turn (tid : nat) (weak : bool).
Definition act (slots : Z) (s : system) (a : action) : system :=
  match a with
  | Call tid messages =>
      if bool_decide (0 <= messages < 4294967296) then
        mkSystem (ring_of s) (<[tid := mkProducerCall messages Start]> (calls s)) (grants s)
      else s
  | Turn tid weak =>
      match calls s !! tid with
      | Some p =>
          let '(r', pc') := pbr_turn slots (ring_of s) (pr_messages p) (pr_pc p) weak in
          mkSystem r' (<[tid := mkProducerCall (pr_messages p) pc']> (calls s))
            (grants s ++ new_grants (pr_messages p) (pr_pc p) pc')
      | None => s
      end
  end.

Lemma pbr_acts_rtc slots l : forall s, rtc (pbr_step slots) s (foldl (act slots) s l).
Proof.
  induction l as [|a l IH]; intros s; simpl; [constructor|].
  etransitivity; [|apply IH]. destruct a as [tid m|tid weak]; simpl.
  - case_bool_decide; [|constructor]. apply rtc_once. by constructor.
  - destruct (calls s !! tid) as [p|] eqn:Hp; [|constructor].
    destruct (pbr_turn _ _ _ _ _) as [r' pc'] eqn:Hrun. apply rtc_once. by econstructor.
Qed.
End PBR.

(** Two producers race on a ring of three slots; the second one's first
    compare-exchange loses and it retries. *)
Definition pbr_race : list PBR.action :=
  [PBR.Call 0 10; PBR.Call 1 5; PBR.Turn 0 false; PBR.Turn 1 false; PBR.Turn 0 false;
   PBR.Turn 1 false; PBR.Turn 0 false; PBR.Turn 1 false; PBR.Turn 1 false; PBR.Turn 1 false].
Definition pbr_race_end : PBR.system :=
  foldl (PBR.act 3) (PBR.mkSystem (PBR.mkRing (PBR.mkProducer 0 0) 0) ∅ []) pbr_race.

Lemma pbr_reservations_disjoint_witness :
  length (PBR.grants pbr_race_end) = 2%nat /\
  PBR.next_slot_seq (PBR.state (PBR.ring_of pbr_race_end)) -
    PBR.consumed (PBR.ring_of pbr_race_end) <= 3 - 1.
Proof.
  split; [by vm_compute|].
  refine (proj1 (PBR.pbr_reservations_disjoint 3 (PBR.mkProducer 0 0) 0 pbr_race_end _ _ _ _
    (PBR.pbr_acts_rtc 3 pbr_race _))); vm_compute; try split; congruence.
Defined.

(** * The byte cursor of a BLog segment and its rollover *)
Module Segment.

Definition LocateAssignedPayload (segment first_payload extent offset bytes : Z) : option Z :=
  if (segment =? 0) || (first_payload <? segment) || (bytes =? 0) ||
     (segment >? U64_MAX - extent) then None
  else
    let header := first_payload - segment in
    if (header >=? extent) || (offset >? extent - header) ||
       (bytes >? extent - header - offset) then None
    else Some (first_payload +u offset).

(** The guards of [TryReserveSegmentBytes] before the loop, and those of one
    turn on the value [current] of the cursor. *)
Definition reserve_args_ok (segment extent bytes : Z) : bool :=
  negb ((segment =? 0) || (extent <=? 64) || (bytes =? 0) || (bytes >? extent - 64) ||
        (segment >? U64_MAX - extent)).
Definition reserve_fits (segment extent bytes current : Z) : bool :=
  negb ((current <? segment + 64) || (current >? segment + extent) ||
        (bytes >? segment + extent - current)).

Inductive reserve_pc := RLoad | RTry (current : Z) | RGot (result : Z) | RRefused.

Definition reserve_turn (extent segment bytes : Z) (cursor : Z) (pc : reserve_pc) (weak : bool)
    : Z * reserve_pc :=
  match pc with
  | RLoad =>
      if reserve_args_ok segment extent bytes then (cursor, RTry cursor) else (cursor, RRefused)
  | RTry current =>
      if negb (reserve_fits segment extent bytes current) then (cursor, RRefused)
      else if (cursor =? current) && negb weak then (current +u bytes, RGot current)
      else (cursor, RTry cursor)
  | RGot _ | RRefused => (cursor, pc)
  end.

(** [TryRolloverSegment] under its mutex.  [Frozen] is the state in which
    [initialize] runs; [Published] the one between the two final stores. *)
Inductive roll_pc :=
  | Idle
  | RollTry (bytes base current : Z)
  | Frozen (base current : Z)
  | Published (next_base : Z).

Record shared := mkShared { segment : Z; cursor : Z }.

Definition roll_turn (extent : Z) (m : shared) (pc : roll_pc) (weak : bool) : shared * roll_pc :=
  match pc with
  | RollTry bytes base current =>
      if (current <? base + 64) || (current >? base + extent) then (m, Idle)
      else if bytes <=? base + extent - current then (m, Idle)
      else if (cursor m =? current) && negb weak then (mkShared (segment m) 0, Frozen base current)
      else (m, RollTry bytes base (cursor m))
  | Published next_base => (mkShared (segment m) (next_base +u 64), Idle)
  | _ => (m, pc)
  end.

(** What follows [initialize]: [None] is its exception. *)
Definition roll_finish (extent : Z) (m : shared) (base current : Z) (next : option Z)
    : shared * roll_pc :=
  match next with
  | None => (mkShared (segment m) current, Idle)
  | Some next_base =>
      if (next_base =? 0) || (next_base =? base) ||
         negb (next_base mod extent =? base mod extent) || (next_base >? U64_MAX - extent)
      then (mkShared (segment m) current, Idle)
      else (mkShared next_base (cursor m), Published next_base)
  end.

Record grant := mkGrant { g_segment : Z; g_address : Z; g_bytes : Z }.
Record call := mkCall { c_segment : Z; c_bytes : Z; c_pc : reserve_pc }.
Record system := mkSystem {
  mem : shared;
  roll : roll_pc;
  calls : gmap nat call;
  grants : list grant;
  segments : list Z;   (** every segment [initialize] handed out *)
}.
#[global] Instance eta_system : Eta system := fun s =>
  mkSystem (mem s) (roll s) (calls s) (grants s) (segments s).

Definition got (c : call) (pc' : reserve_pc) : list grant :=
  match c_pc c, pc' with
  | RTry _, RGot a => [mkGrant (c_segment c) a (c_bytes c)]
  | _, _ => []
  end.

(** Extents of two segments do not overlap. *)
Definition apart (extent a b : Z) : Prop := a + extent <= b \/ b + extent <= a.

Inductive step (extent : Z) : system -> system -> Prop :=
  (** A receive thread loads the segment pointer and starts a reservation. *)
  | step_call s tid bytes :
      0 <= bytes ->
      step extent s (s <| calls := <[tid := mkCall (segment (mem s)) bytes RLoad]> (calls s) |>)
  | step_reserve s tid c weak cur pc' :
      calls s !! tid = Some c ->
      reserve_turn extent (c_segment c) (c_bytes c) (cursor (mem s)) (c_pc c) weak = (cur, pc') ->
      step extent s (mkSystem (mkShared (segment (mem s)) cur) (roll s)
        (<[tid := mkCall (c_segment c) (c_bytes c) pc']> (calls s))
        (grants s ++ got c pc') (segments s))
  (** The mutex holder checks its arguments and loads segment and cursor. *)
  | step_roll_start s bytes :
      roll s = Idle -> reserve_args_ok (segment (mem s)) extent bytes = true ->
      step extent s (s <| roll := RollTry bytes (segment (mem s)) (cursor (mem s)) |>)
  | step_roll s weak m' pc' :
      roll_turn extent (mem s) (roll s) weak = (m', pc') ->
      step extent s (s <| mem := m' |> <| roll := pc' |>)
  (** [initialize] never recycles an address: a segment it returns lies apart
      from every earlier one. *)
  | step_roll_finish s base current next m' pc' :
      roll s = Frozen base current ->
      (forall n, next = Some n -> n <> base -> 0 <= n /\ Forall (apart extent n) (segments s)) ->
      roll_finish extent (mem s) base current next = (m', pc') ->
      step extent s (s <| mem := m' |> <| roll := pc' |>
        <| segments := match pc' with Published n => n :: segments s | _ => segments s end |>).

(** ** The invariant *)

(** The allocation level of the current segment, also while the cursor is
    frozen at 0. *)
Definition level (s : system) : Z :=
  match roll s with
  | Frozen _ current => current
  | Published next_base => next_base + 64
  | _ => cursor (mem s)
  end.

Definition roll_ok (s : system) : Prop :=
  match roll s with
  | Idle => True
  | RollTry _ base _ => base = segment (mem s)
  | Frozen base _ => base = segment (mem s) /\ cursor (mem s) = 0
  | Published next_base => next_base = segment (mem s) /\ cursor (mem s) = 0
  end.

Definition grant_ok (extent : Z) (s : system) (g : grant) : Prop :=
  g_segment g ∈ segments s /\ 0 < g_bytes g /\
  g_segment g + 64 <= g_address g /\ g_address g + g_bytes g <= g_segment g + extent /\
  (g_segment g = segment (mem s) -> g_address g + g_bytes g <= level s).

Definition disjoint_grants (g h : grant) : Prop :=
  g_address g + g_bytes g <= g_address h \/ g_address h + g_bytes h <= g_address g.

Definition call_ok (extent : Z) (s : system) (c : call) : Prop :=
  c_segment c ∈ segments s /\ 0 <= c_bytes c /\
  match c_pc c with RTry _ => reserve_args_ok (c_segment c) extent (c_bytes c) = true | _ => True end.

Record inv (extent : Z) (s : system) : Prop := {
  inv_segments a : a ∈ segments s -> 0 < a /\ a + extent <= U64_MAX;
  inv_apart a b : a ∈ segments s -> b ∈ segments s -> a <> b -> apart extent a b;
  inv_current : segment (mem s) ∈ segments s;
  inv_level : segment (mem s) + 64 <= level s <= segment (mem s) + extent;
  inv_roll : roll_ok s;
  inv_grants : Forall (grant_ok extent s) (grants s);
  inv_disjoint : pairwise disjoint_grants (grants s);
  inv_calls : map_Forall (fun _ c => call_ok extent s c) (calls s);
}.

Lemma reserve_args_spec seg extent bytes :
  reserve_args_ok seg extent bytes = true <->
  seg <> 0 /\ 64 < extent /\ bytes <> 0 /\ bytes <= extent - 64 /\ seg <= U64_MAX - extent.
Proof.
  unfold reserve_args_ok. rewrite negb_true_iff, !orb_false_iff.
  rewrite Z.eqb_neq, Z.leb_gt, Z.eqb_neq, !Z.gtb_ltb, !Z.ltb_ge. tauto.
Qed.

Lemma reserve_fits_spec seg extent bytes current :
  reserve_fits seg extent bytes current = true <->
  seg + 64 <= current /\ current + bytes <= seg + extent /\ current <= seg + extent.
Proof.
  unfold reserve_fits. rewrite negb_true_iff, !orb_false_iff, !Z.gtb_ltb, !Z.ltb_ge. lia.
Qed.

(** A turn of a reservation either moves nothing or is a fitting grant at the
    cursor. *)
Lemma reserve_turn_cases extent c cur weak cur' pc' :
  reserve_turn extent (c_segment c) (c_bytes c) cur (c_pc c) weak = (cur', pc') ->
  match c_pc c with RTry _ => reserve_args_ok (c_segment c) extent (c_bytes c) = true | _ => True end ->
  match pc' with RTry _ => reserve_args_ok (c_segment c) extent (c_bytes c) = true | _ => True end /\
  (cur' = cur /\ got c pc' = [] \/
   reserve_args_ok (c_segment c) extent (c_bytes c) = true /\
   reserve_fits (c_segment c) extent (c_bytes c) cur = true /\
   cur' = cur +u c_bytes c /\ got c pc' = [mkGrant (c_segment c) cur (c_bytes c)]).
Proof.
  unfold reserve_turn, got. intros Hrun Hargs. destruct (c_pc c) eqn:Hpc.
  - destruct (reserve_args_ok _ _ _) eqn:E; simplify_eq; split; [done|by left|done|by left].
  - destruct (reserve_fits _ _ _ current) eqn:Ef; simpl in Hrun; [|simplify_eq; split; [done|by left]].
    destruct ((cur =? current) && negb weak) eqn:Ec; simplify_eq; [|split; [done|by left]].
    apply andb_true_iff in Ec as [->%Z.eqb_eq _]. split; [done|]. right. done.
  - simplify_eq. split; [done|by left].
  - simplify_eq. split; [done|by left].
Qed.

(** The invariant depends on the level, the segments and the grants. *)
Lemma inv_same extent s s' :
  inv extent s -> segment (mem s') = segment (mem s) -> segments s' = segments s ->
  grants s' = grants s -> level s' = level s -> roll_ok s' ->
  map_Forall (fun _ c => call_ok extent s c) (calls s') -> inv extent s'.
Proof.
  intros [H1 H2 H3 H4 H5 H6 H7 H8] Hseg Hsegs Hg Hl Hr Hcs.
  split; rewrite ?Hseg, ?Hsegs, ?Hg, ?Hl; try done.
  - eapply Forall_impl; [exact H6|]. unfold grant_ok. intros g. by rewrite Hsegs, Hseg, Hl.
  - eapply map_Forall_impl; [exact Hcs|]. unfold call_ok. intros i c. by rewrite Hsegs.
Qed.

Lemma inv_reserve extent s c tid weak cur pc' :
  inv extent s -> calls s !! tid = Some c ->
  reserve_turn extent (c_segment c) (c_bytes c) (cursor (mem s)) (c_pc c) weak = (cur, pc') ->
  inv extent (mkSystem (mkShared (segment (mem s)) cur) (roll s)
    (<[tid := mkCall (c_segment c) (c_bytes c) pc']> (calls s)) (grants s ++ got c pc') (segments s)).
Proof.
  intros Hinv Hc Hrun. pose proof Hinv as [H1 H2 H3 H4 H5 H6 H7 H8].
  destruct (H8 _ _ Hc) as (Hcs & Hb & Hpc).
  destruct (reserve_turn_cases _ _ _ _ _ _ Hrun Hpc) as [Hpc' Hcase].
  assert (map_Forall (fun _ c => call_ok extent s c)
    (<[tid := mkCall (c_segment c) (c_bytes c) pc']> (calls s))) as Hcalls.
  { apply map_Forall_insert_2; [by split_and!|done]. }
  destruct Hcase as [[-> ->]|(Ha & Hf & -> & ->)].
  { rewrite app_nil_r. by eapply (inv_same extent s). }
  apply reserve_args_spec in Ha as (_ & Hx & Hbz & _). apply reserve_fits_spec in Hf as (Hf1 & Hf2 & _).
  destruct (H1 _ Hcs) as [Hpos Hmax]. destruct (H1 _ H3) as [Hpos' _].
  assert (level s = cursor (mem s)) as Hlev.
  { unfold level, roll_ok in *. destruct (roll s); try done; lia. }
  rewrite Hlev in *. rewrite u64_id by (unfold is_u64, U64_MAX in *; lia).
  assert (c_segment c = segment (mem s)) as Hown.
  { destruct (decide (c_segment c = segment (mem s))) as [|Hne]; [done|].
    destruct (H2 _ _ Hcs H3 Hne); lia. }
  rewrite Hown in *.
  match goal with |- inv _ ?x => set (s' := x) end.
  assert (level s' = cursor (mem s) + c_bytes c) as Hlev'.
  { unfold level, roll_ok in *. simpl. destruct (roll s); try done; lia. }
  split; try done.
  - rewrite Hlev'. simpl. lia.
  - unfold roll_ok in *. simpl. destruct (roll s); try done; lia.
  - simpl. apply Forall_app. split.
    + eapply Forall_impl; [exact H6|]. intros g (? & ? & ? & ? & Hg). split_and!; try done.
      rewrite Hlev'. simpl. intros Hgs%Hg. lia.
    + repeat constructor; simpl; try done; try lia. 
  - simpl. apply pairwise_snoc; [done|]. eapply Forall_impl; [exact H6|].
    intros g (Hgin & ? & ? & ? & Hg). unfold disjoint_grants. simpl.
    destruct (decide (g_segment g = segment (mem s))) as [He|Hne]; [left; rewrite <- Hlev; auto|].
    destruct (H2 _ _ Hgin H3 Hne); lia.
Qed.

Lemma inv_roll_turn extent s weak m' pc' :
  64 < extent -> inv extent s -> roll_turn extent (mem s) (roll s) weak = (m', pc') ->
  inv extent (s <| mem := m' |> <| roll := pc' |>).
Proof.
  intros Hx Hinv Hrun. pose proof Hinv as [H1 H2 H3 H4 H5 _ _ H8].
  destruct (H1 _ H3) as [Hpos Hmax]. unfold level, roll_ok in H4, H5.
  destruct (roll s) as [|bytes base current|base current|n] eqn:Hr; simpl in Hrun.
  - simplify_eq. eapply (inv_same extent s); try done; unfold level; by rewrite Hr.
  - repeat case_match; simplify_eq; eapply (inv_same extent s); try done;
      unfold level; rewrite Hr; try done.
    simpl. match goal with H : _ && _ = true |- _ => apply andb_true_iff in H as [H%Z.eqb_eq _] end.
    congruence.
  - simplify_eq. eapply (inv_same extent s); try done; unfold level, roll_ok; by rewrite Hr.
  - simplify_eq. eapply (inv_same extent s); try done. unfold level. rewrite Hr. simpl.
    apply u64_id. unfold is_u64, U64_MAX in *. lia.
Qed.

Lemma inv_roll_finish extent s base current next m' pc' :
  64 < extent -> inv extent s -> roll s = Frozen base current ->
  (forall n, next = Some n -> n <> base -> 0 <= n /\ Forall (apart extent n) (segments s)) ->
  roll_finish extent (mem s) base current next = (m', pc') ->
  inv extent (s <| mem := m' |> <| roll := pc' |>
    <| segments := match pc' with Published n => n :: segments s | _ => segments s end |>).
Proof.
  intros Hx Hinv Hr Hfresh Hrun. pose proof Hinv as [H1 H2 H3 H4 H5 H6 H7 H8].
  unfold level, roll_ok in H4, H5. rewrite Hr in H4, H5. destruct H5 as [-> Hcur].
  assert (forall m, m = mkShared (segment (mem s)) current ->
    inv extent (s <| mem := m |> <| roll := Idle |> <| segments := segments s |>)) as Hback.
  { intros m ->. eapply (inv_same extent s); try done. unfold level. by rewrite Hr. }
  unfold roll_finish in Hrun. destruct next as [n|]; [|simplify_eq; by apply Hback].
  destruct (_ || _) eqn:E; [simplify_eq; by apply Hback|]. injection Hrun as <- <-. bool_props.
  destruct (Hfresh n eq_refl) as [Hn Hap]; [done|]. rewrite Forall_forall in Hap.
  assert (forall a, a ∈ segments s -> n <> a) as Hnew.
  { intros a Ha ->. destruct (Hap a Ha); lia. }
  split; simpl.
  - intros a [->|Ha]%elem_of_cons; [lia|auto].
  - intros a b [->|Ha]%elem_of_cons [->|Hb]%elem_of_cons Hne; auto; [done|].
    destruct (Hap a Ha); [right|left]; done.
  - set_solver.
  - unfold level. simpl. lia.
  - unfold roll_ok. simpl. done.
  - eapply Forall_impl; [exact H6|]. intros g (Hg & ? & ? & ? & _).
    split_and!; simpl; [set_solver|done..|]. intros Heq. destruct (Hnew _ Hg). done.
  - done.
  - eapply map_Forall_impl; [exact H8|]. intros i c (? & ? & ?). split_and!; simpl; [set_solver|done..].
Qed.

Lemma segment_step_inv extent s s' : 64 < extent -> inv extent s -> step extent s s' -> inv extent s'.
Proof.
  intros Hx Hinv Hstep. pose proof Hinv as [H1 H2 H3 H4 H5 H6 H7 H8]. destruct Hstep.
  - eapply (inv_same extent s); try done. simpl. apply map_Forall_insert_2; [by split_and!|done].
  - by eapply inv_reserve.
  - eapply (inv_same extent s); try done. unfold level. simpl.
    by match goal with H : roll s = Idle |- _ => rewrite H end.
  - by eapply inv_roll_turn.
  - by eapply inv_roll_finish.
Qed.

(** A schedule of the threads. *)
Inductive action :=
  | Call (tid : nat) (bytes : Z) | Reserve (tid : nat) | RollStart (bytes : Z) | Roll
  | Finish (next : option Z).
#[global] Instance apart_dec extent a b : Decision (apart extent a b).
Proof. unfold apart. apply _. Defined.

Definition act (extent : Z) (s : system) (a : action) : system :=
  match a with
  | Call tid bytes =>
      if bytes <? 0 then s
      else s <| calls := <[tid := mkCall (segment (mem s)) bytes RLoad]> (calls s) |>
  | Reserve tid =>
      match calls s !! tid with
      | None => s
      | Some c =>
          let '(cur, pc') :=
            reserve_turn extent (c_segment c) (c_bytes c) (cursor (mem s)) (c_pc c) false in
          mkSystem (mkShared (segment (mem s)) cur) (roll s)
            (<[tid := mkCall (c_segment c) (c_bytes c) pc']> (calls s))
            (grants s ++ got c pc') (segments s)
      end
  | RollStart bytes =>
      match roll s with
      | Idle =>
          if reserve_args_ok (segment (mem s)) extent bytes
          then s <| roll := RollTry bytes (segment (mem s)) (cursor (mem s)) |> else s
      | _ => s
      end
  | Roll => let '(m', pc') := roll_turn extent (mem s) (roll s) false in
            s <| mem := m' |> <| roll := pc' |>
  | Finish next =>
      match roll s with
      | Frozen base current =>
          if match next with
             | Some n => bool_decide (0 <= n) && bool_decide (Forall (apart extent n) (segments s))
             | None => true
             end
          then let '(m', pc') := roll_finish extent (mem s) base current next in
               s <| mem := m' |> <| roll := pc' |>
                 <| segments := match pc' with Published n => n :: segments s | _ => segments s end |>
          else s
      | _ => s
      end
  end.

Lemma act_step extent s a : rtc (step extent) s (act extent s a).
Proof.
  destruct a as [tid bytes|tid|bytes| |next]; simpl.
  - destruct (Z.ltb_spec bytes 0); [constructor|]. apply rtc_once. by constructor.
  - destruct (calls s !! tid) as [c|] eqn:Hc; [|constructor].
    destruct (reserve_turn _ _ _ _ _ _) as [cur pc'] eqn:Hr. apply rtc_once. by econstructor.
  - destruct (roll s) eqn:Hr; try constructor. destruct (reserve_args_ok _ _ _) eqn:Ha; [|constructor].
    apply rtc_once. by constructor.
  - destruct (roll_turn _ _ _ _) as [m' pc'] eqn:Hr. apply rtc_once. by econstructor.
  - destruct (roll s) eqn:Hr; try constructor.
    match goal with |- context [if ?b then _ else _] => destruct b eqn:Hb end; [|constructor].
    destruct (roll_finish _ _ _ _ _) as [m' pc'] eqn:Hf. apply rtc_once.
    eapply step_roll_finish; [done| |done]. intros n -> _.
    apply andb_true_iff in Hb as [?%bool_decide_eq_true ?%bool_decide_eq_true]. done.
Qed.

Lemma segment_acts_rtc extent l : forall s, rtc (step extent) s (foldl (act extent) s l).
Proof.
  induction l as [|a l IH]; intros s; simpl; [constructor|].
  etransitivity; [apply act_step|apply IH].
Qed.

(** Under every interleaving of receive threads with a rollover, including
    one whose initializer fails: each reserved byte range lies in the payload
    area of a segment, past its 64-byte header, and no two reservations ever
    overlap. *)
Theorem segment_reservations_disjoint extent base cur s' :
  64 < extent -> 0 < base -> base + extent <= U64_MAX ->
  base + 64 <= cur <= base + extent ->
  rtc (step extent) (mkSystem (mkShared base cur) Idle ∅ [] [base]) s' ->
  pairwise disjoint_grants (grants s') /\
  Forall (fun g => exists seg, seg ∈ segments s' /\ 0 < g_bytes g /\
            seg + 64 <= g_address g /\ g_address g + g_bytes g <= seg + extent) (grants s').
Proof.
  intros Hx Hb Hm Hc Hrun.
  assert (inv extent s') as [H1 H2 H3 H4 H5 H6 H7 H8].
  { eapply (rtc_invariant (step extent) (inv extent)); [intros; by eapply segment_step_inv| |exact Hrun].
    split; simpl; try done; [|set_solver..].
    intros a ->%list_elem_of_singleton. lia. }
  split; [done|]. eapply Forall_impl; [exact H6|]. intros g (? & ? & ? & ? & _). eauto.
Qed.

(** A located payload lies inside the extent, and its address does not wrap. *)
Theorem LocateAssignedPayload_bounds seg first_payload extent offset bytes a :
  is_u64 seg -> is_u64 extent -> 0 <= offset -> 0 <= bytes ->
  LocateAssignedPayload seg first_payload extent offset bytes = Some a ->
  a = first_payload + offset /\ seg <= a /\ 0 < bytes /\ a + bytes <= seg + extent.
Proof.
  intros Hs He Ho Hb. unfold LocateAssignedPayload. repeat case_match; intros Ha; simplify_eq.
  bool_props. rewrite u64_id; unfold is_u64, U64_MAX in *; lia.
Qed.
End Segment.

(** * The commit reservation *)

Definition TryReserveCommitRanges (goi messages capacity batches count : Z)
    : option (Z * Z * (Z * Z)) :=
  if (goi >? capacity) || (batches >? capacity - goi) || (count >? U64_MAX - messages) then None
  else Some (goi, messages, (goi + batches, messages + count)).

(** A reservation fills a segment of 256 bytes, a rollover installs the next
    one, and a thread that loaded the old segment is refused. *)
Definition segment_run : list Segment.action :=
  [Segment.Call 0 150; Segment.Reserve 0; Segment.Reserve 0; Segment.Call 1 40;
   Segment.RollStart 100; Segment.Roll; Segment.Finish (Some 1536); Segment.Roll;
   Segment.Call 2 100; Segment.Reserve 1; Segment.Reserve 1; Segment.Reserve 2; Segment.Reserve 2].
Definition segment_run_end : Segment.system :=
  foldl (Segment.act 256)
    (Segment.mkSystem (Segment.mkShared 1024 1088) Segment.Idle ∅ [] [1024]) segment_run.

Lemma segment_reservations_disjoint_witness :
  Segment.g_address <$> Segment.grants segment_run_end = [1088; 1600] /\
  pairwise Segment.disjoint_grants (Segment.grants segment_run_end).
Proof.
  split; [by vm_compute|].
  refine (proj1 (Segment.segment_reservations_disjoint 256 1024 1088 segment_run_end _ _ _ _
    (Segment.segment_acts_rtc 256 segment_run _))); vm_compute; try split; congruence.
Defined.

Lemma LocateAssignedPayload_bounds_witness :
  Segment.LocateAssignedPayload 4096 4352 1024 100 64 = Some 4452 /\ 4452 + 64 <= 4096 + 1024.
Proof.
  split; [by vm_compute|].
  refine (proj2 (proj2 (proj2
    (Segment.LocateAssignedPayload_bounds 4096 4352 1024 100 64 4452 _ _ _ _ _))));
    vm_compute; try split; congruence.
Defined.
