(* ===== verification/EpochBuffer.v ===== *)
(** The epoch buffer that scanners fill and the sequencer drains:
    [EpochBuffer5] of src/embarlet/topic.h with the extraction of
    src/embarlet/topic_order5_epoch.cc. *)

From S2P Require Import Prelude.

Module EpochBuffer5.

Definition NUM_MAX_BROKERS : Z := 32.

Inductive State := IDLE | RESETTING | COLLECTING | SEALING | SEALED.
#[global] Instance State_eq_dec : EqDecision State.
Proof. solve_decision. Defined.

Section buffer.
  Context {B : Type}.

(** [progress] is the loop index of the one thread that moves the buffer out
    of its current state: the resetter in [RESETTING], the sealer's scan of the
    flags in [SEALING], the sequencer's extraction in [SEALED]. *)
Record t := mk {
  state : State;
  broker_active : gset Z;
  per_broker : gmap Z (list B);
  progress : Z;
}.
#[global] Instance eta_t : Eta t := fun b =>
  mk (state b) (broker_active b) (per_broker b) (progress b).

Definition init : t := mk IDLE ∅ ∅ 0.

Definition queue (b : t) (i : Z) : list B := default [] (per_broker b !! i).

Definition valid_broker (broker_id : Z) : bool :=
  negb ((broker_id <? 0) || (broker_id >=? NUM_MAX_BROKERS)).

(** The critical section of [enter_collection], under [seal_mutex]. *)
Definition enter_collection (b : t) (broker_id : Z) : bool * t :=
  if negb (valid_broker broker_id) then (false, b)
  else if negb (bool_decide (state b = COLLECTING)) then (false, b)
  else (true, b <| broker_active := {[broker_id]} ∪ broker_active b |>).

(** The scanner's push under [per_broker[broker_id].mu]. *)
Definition push_back (b : t) (broker_id : Z) (x : B) : t :=
  b <| per_broker := <[broker_id := queue b broker_id ++ [x]]> (per_broker b) |>.

(** [exit_collection]; the notification it may send has no state. *)
Definition exit_collection (b : t) (broker_id : Z) : t :=
  if negb (valid_broker broker_id) then b
  else b <| broker_active := broker_active b ∖ {[broker_id]} |>.

(** The compare-exchange that opens [seal], under [seal_mutex]. *)
Definition seal_begin (b : t) : bool * t :=
  if bool_decide (state b = COLLECTING) then (true, b <| state := SEALING |> <| progress := 0 |>)
  else (false, b).

(** One read of the wait predicate's loop over the flags.  A set flag makes
    the predicate false; [timeout] tells whether the wait budget is used up. *)
Definition seal_scan (b : t) (timeout : bool) : t :=
  if progress b >=? NUM_MAX_BROKERS then b <| state := SEALED |> <| progress := 0 |>
  else if bool_decide (progress b ∈ broker_active b) then
    if timeout then b <| state := COLLECTING |> else b <| progress := 0 |>
  else b <| progress := progress b + 1 |>.

Definition reset_begin (b : t) : bool * t :=
  if bool_decide (state b = IDLE) then (true, b <| state := RESETTING |> <| progress := 0 |>)
  else (false, b).

(** The two loops of [reset_and_start], queues first, and its final store. *)
Definition reset_turn (b : t) : t :=
  if progress b <? NUM_MAX_BROKERS then
    b <| per_broker := <[progress b := []]> (per_broker b) |> <| progress := progress b + 1 |>
  else if progress b <? 2 * NUM_MAX_BROKERS then
    b <| broker_active := broker_active b ∖ {[progress b - NUM_MAX_BROKERS]} |>
      <| progress := progress b + 1 |>
  else b <| state := COLLECTING |> <| progress := 0 |>.

(** One turn of the sequencer's extraction of a sealed buffer: it moves a
    broker's queue into its batch list, and stores [IDLE] after the last one. *)
Definition drain_turn (b : t) : list B * t :=
  if progress b <? NUM_MAX_BROKERS then
    (queue b (progress b),
     b <| per_broker := <[progress b := []]> (per_broker b) |> <| progress := progress b + 1 |>)
  else ([], b <| state := IDLE |> <| progress := 0 |>).

Definition is_available (b : t) : bool := bool_decide (state b = IDLE).

Definition CanDrainAt (b : t) (next_to_extract current_epoch : Z) : bool :=
  (next_to_extract <? current_epoch) ||
  ((next_to_extract =? current_epoch) && bool_decide (state b = SEALED)).

(** ** The buffer with its threads

    One scanner per broker; [Entered] is a scanner between
    [enter_collection] and its push, [Pushing] between the push and
    [exit_collection].  [pushed] and [extracted] record, per broker, what went
    in and what the sequencer took out. *)
Inductive scanner := Outside | Entered (x : B) | Leaving.

Record system := mkSystem {
  buf : t;
  scanners : gmap Z scanner;
  pushed : gmap Z (list B);
  extracted : gmap Z (list B);
}.

Definition hist (m : gmap Z (list B)) (i : Z) : list B := default [] (m !! i).
Definition scanner_at (s : system) (i : Z) : scanner := default Outside (scanners s !! i).

Inductive step : system -> system -> Prop :=
  | step_enter s i x b' :
      scanner_at s i = Outside -> enter_collection (buf s) i = (true, b') ->
      step s (mkSystem b' (<[i := Entered x]> (scanners s)) (pushed s) (extracted s))
  | step_push s i x :
      scanner_at s i = Entered x ->
      step s (mkSystem (push_back (buf s) i x) (<[i := Leaving]> (scanners s))
                (<[i := hist (pushed s) i ++ [x]]> (pushed s)) (extracted s))
  | step_exit s i :
      scanner_at s i = Leaving ->
      step s (mkSystem (exit_collection (buf s) i) (<[i := Outside]> (scanners s))
                (pushed s) (extracted s))
  | step_seal s b' :
      seal_begin (buf s) = (true, b') ->
      step s (mkSystem b' (scanners s) (pushed s) (extracted s))
  | step_scan s timeout :
      state (buf s) = SEALING ->
      step s (mkSystem (seal_scan (buf s) timeout) (scanners s) (pushed s) (extracted s))
  | step_reset s b' :
      reset_begin (buf s) = (true, b') ->
      step s (mkSystem b' (scanners s) (pushed s) (extracted s))
  | step_clear s :
      state (buf s) = RESETTING ->
      step s (mkSystem (reset_turn (buf s)) (scanners s) (pushed s) (extracted s))
  | step_drain s xs b' :
      state (buf s) = SEALED -> drain_turn (buf s) = (xs, b') ->
      step s (mkSystem b' (scanners s) (pushed s)
                (<[progress (buf s) := hist (extracted s) (progress (buf s)) ++ xs]> (extracted s))).

Definition start : system := mkSystem init ∅ ∅ ∅.

(** ** The invariant *)

Definition quiet (b : State) : Prop := b = IDLE \/ b = RESETTING \/ b = SEALED.

Record inv (s : system) : Prop := {
  inv_quiet : quiet (state (buf s)) ->
    broker_active (buf s) = ∅ /\ forall i, scanner_at s i = Outside;
  inv_active i : scanner_at s i <> Outside ->
    i ∈ broker_active (buf s) /\ 0 <= i < NUM_MAX_BROKERS;
  inv_flags i : i ∈ broker_active (buf s) -> scanner_at s i <> Outside;
  inv_scan : state (buf s) = SEALING ->
    forall i, 0 <= i < progress (buf s) -> i ∉ broker_active (buf s);
  inv_empty : state (buf s) = IDLE \/ state (buf s) = RESETTING ->
    forall i, queue (buf s) i = [];
  inv_drained : state (buf s) = SEALED ->
    0 <= progress (buf s) /\ forall i, 0 <= i < progress (buf s) -> queue (buf s) i = [];
  inv_range i : queue (buf s) i <> [] -> 0 <= i < NUM_MAX_BROKERS;
  inv_fifo i : hist (pushed s) i = hist (extracted s) i ++ queue (buf s) i;
}.

Lemma default_insert {A} (d : A) (m : gmap Z A) i j x :
  default d (<[i := x]> m !! j) = if decide (i = j) then x else default d (m !! j).
Proof. rewrite lookup_insert. by case_decide. Qed.

Lemma queue_insert st act q p i j x :
  queue (mk st act (<[i := x]> q) p) j = if decide (i = j) then x else default [] (q !! j).
Proof. apply default_insert. Qed.

Lemma hist_insert m i j x : hist (<[i := x]> m) j = if decide (i = j) then x else hist m j.
Proof. apply default_insert. Qed.

Lemma scanner_at_insert b sc p e i j x :
  scanner_at (mkSystem b (<[i := x]> sc) p e) j =
    if decide (i = j) then x else default Outside (sc !! j).
Proof. apply default_insert. Qed.

Lemma valid_broker_spec i : valid_broker i = true <-> 0 <= i < NUM_MAX_BROKERS.
Proof.
  unfold valid_broker. rewrite negb_true_iff, orb_false_iff, Z.ltb_ge, Z.geb_leb, Z.leb_gt. done.
Qed.

Lemma start_inv : inv start.
Proof. split; try done. Qed.

Lemma enter_inv s i x b' :
  inv s -> scanner_at s i = Outside -> enter_collection (buf s) i = (true, b') ->
  inv (mkSystem b' (<[i := Entered x]> (scanners s)) (pushed s) (extracted s)).
Proof.
  intros [H1 H2 H3 H4 H5 H6 H7 H8] Hi Hrun. unfold enter_collection in Hrun.
  destruct (valid_broker i) eqn:Hv; simpl in Hrun; [|done]. apply valid_broker_spec in Hv.
  case_bool_decide as Hc; simpl in Hrun; [|done]. injection Hrun as <-.
  split; simpl; rewrite ?Hc; try done.
  - by intros [?|[?|?]].
  - intros j. rewrite scanner_at_insert. case_decide; [subst; intros _; split; [set_solver|done]|].
    intros Hj. destruct (H2 j Hj). split; [set_solver|done].
  - intros j. rewrite scanner_at_insert. case_decide; [done|]. intros Hj. apply H3. set_solver.
  - by intros [?|?].
Qed.

Lemma push_inv s i x :
  inv s -> scanner_at s i = Entered x ->
  inv (mkSystem (push_back (buf s) i x) (<[i := Leaving]> (scanners s))
         (<[i := hist (pushed s) i ++ [x]]> (pushed s)) (extracted s)).
Proof.
  intros [H1 H2 H3 H4 H5 H6 H7 H8] Hi.
  assert (~ quiet (state (buf s))) as Hnq.
  { intros Hq. destruct (H1 Hq) as [_ Hout]. by rewrite Hout in Hi. }
  destruct (H2 i) as [Hin Hr]; [by rewrite Hi|]. unfold push_back.
  split; simpl; try done.
  - intros j. rewrite scanner_at_insert. case_decide; [by subst|apply H2].
  - intros j Hj. rewrite scanner_at_insert. case_decide; [done|by apply H3].
  - intros Hs. destruct Hnq. unfold quiet. tauto.
  - intros Hs. destruct Hnq. unfold quiet. tauto.
  - intros j. rewrite queue_insert. case_decide; [by subst|apply H7].
  - intros j. rewrite queue_insert, hist_insert. case_decide; [subst|apply H8].
    by rewrite H8, app_assoc.
Qed.

Lemma exit_inv s i :
  inv s -> scanner_at s i = Leaving ->
  inv (mkSystem (exit_collection (buf s) i) (<[i := Outside]> (scanners s)) (pushed s) (extracted s)).
Proof.
  intros [H1 H2 H3 H4 H5 H6 H7 H8] Hi. destruct (H2 i) as [Hin Hr]; [by rewrite Hi|].
  unfold exit_collection. rewrite (proj2 (valid_broker_spec i) Hr).
  split; simpl; try done.
  - intros Hq. destruct (H1 Hq) as [_ Hout]. by rewrite Hout in Hi.
  - intros j. rewrite scanner_at_insert. case_decide; [done|]. intros Hj.
    destruct (H2 j Hj). split; [set_solver|done].
  - intros j Hj. rewrite scanner_at_insert. case_decide; [set_solver|]. apply H3. set_solver.
  - intros Hs j Hj. specialize (H4 Hs j Hj). set_solver.
Qed.

Lemma scan_inv s timeout :
  inv s -> state (buf s) = SEALING ->
  inv (mkSystem (seal_scan (buf s) timeout) (scanners s) (pushed s) (extracted s)).
Proof.
  intros [H1 H2 H3 H4 H5 H6 H7 H8] Hs. specialize (H4 Hs). unfold seal_scan.
  destruct (progress (buf s) >=? NUM_MAX_BROKERS) eqn:E; bool_props.
  { assert (broker_active (buf s) = ∅) as Hnone.
    { apply set_eq. intros i. split; [|set_solver]. intros Hi.
      destruct (H2 i (H3 i Hi)) as [_ Hr]. destruct (H4 i); [lia|done]. }
    split; simpl; try done.
    - intros _. split; [done|]. intros i. destruct (scanner_at s i) eqn:Ei; [done|..];
        destruct (H2 i); try (by rewrite Ei); set_solver.
    - by intros [?|?].
    - intros _. split; [lia|]. intros i ?. lia. }
  case_bool_decide as Hact; [destruct timeout|].
  - split; simpl; try done; [by intros [?|[?|?]]|by intros [?|?]].
  - split; simpl; rewrite ?Hs; try done; [by intros [?|[?|?]]|intros _ i ?; lia|by intros [?|?]].
  - split; simpl; rewrite ?Hs; try done; [by intros [?|[?|?]]| |by intros [?|?]].
    intros _ i Hi. destruct (decide (i = progress (buf s))) as [->|]; [done|]. apply H4. lia.
Qed.

Lemma clear_inv s :
  inv s -> state (buf s) = RESETTING ->
  inv (mkSystem (reset_turn (buf s)) (scanners s) (pushed s) (extracted s)).
Proof.
  intros [H1 H2 H3 H4 H5 H6 H7 H8] Hs. destruct H1 as [Hact Hout]; [unfold quiet; tauto|].
  assert (forall i, queue (buf s) i = []) as Hq by (apply H5; by right).
  assert (forall i, hist (pushed s) i = hist (extracted s) i) as Hh
    by (intros i; by rewrite H8, Hq, app_nil_r).
  unfold reset_turn. destruct (progress (buf s) <? NUM_MAX_BROKERS);
    [|destruct (progress (buf s) <? 2 * NUM_MAX_BROKERS)].
  - split; simpl; rewrite ?Hs; try done.
    + intros _ i. rewrite queue_insert. case_decide; [done|apply Hq].
    + intros i. rewrite queue_insert. case_decide; [done|]. intros Hi. by destruct Hi; apply Hq.
    + intros i. rewrite queue_insert, Hh. case_decide; [by rewrite app_nil_r|].
      symmetry. etransitivity; [|apply app_nil_r]. f_equal. apply Hq.
  - assert (broker_active (buf s) ∖ {[progress (buf s) - NUM_MAX_BROKERS]} = ∅) as Ha by set_solver.
    split; simpl; rewrite ?Hs, ?Ha; try done. intros i Hi. by destruct Hi; apply Hout.
  - by split.
Qed.

Lemma buffer_drain_inv s xs b' :
  inv s -> state (buf s) = SEALED -> drain_turn (buf s) = (xs, b') ->
  inv (mkSystem b' (scanners s) (pushed s)
         (<[progress (buf s) := hist (extracted s) (progress (buf s)) ++ xs]> (extracted s))).
Proof.
  intros [H1 H2 H3 H4 H5 H6 H7 H8] Hs Hrun. destruct H1 as [Hact Hout]; [unfold quiet; tauto|].
  destruct (H6 Hs) as [Hp Hdone]. unfold drain_turn in Hrun.
  destruct (progress (buf s) <? NUM_MAX_BROKERS) eqn:E; bool_props; injection Hrun as <- <-.
  - split; simpl; rewrite ?Hs; try done.
    + by intros [?|?].
    + intros _. split; [lia|]. intros i Hi. rewrite queue_insert. case_decide; [done|]. apply Hdone. lia.
    + intros i. rewrite queue_insert. case_decide; [done|apply H7].
    + intros i. rewrite queue_insert, hist_insert. case_decide; [subst|apply H8].
      by rewrite app_nil_r, H8.
  - assert (forall i, queue (buf s) i = []) as Hq.
    { intros i. destruct (queue (buf s) i) eqn:Eq; [done|]. destruct (H7 i) as [? ?]; [by rewrite Eq|].
      rewrite <- Eq. apply Hdone. lia. }
    split; simpl; try done.
    + intros i. rewrite hist_insert, app_nil_r. case_decide; [subst|]; apply H8.
Qed.

Lemma buffer_step_inv s s' : inv s -> step s s' -> inv s'.
Proof.
  intros Hinv Hstep. destruct Hstep as [s i x b' Hi Hrun|s i x Hi|s i Hi|s b' Hrun|s timeout Hs
    |s b' Hrun|s Hs|s xs b' Hs Hrun].
  - by apply enter_inv.
  - by apply push_inv.
  - by apply exit_inv.
  - destruct Hinv as [H1 H2 H3 H4 H5 H6 H7 H8]. unfold seal_begin in Hrun.
    case_bool_decide; simplify_eq.
    split; simpl; try done; [by intros [?|[?|?]]|intros _ i ?; lia|by intros [?|?]].
  - by apply scan_inv.
  - destruct Hinv as [H1 H2 H3 H4 H5 H6 H7 H8]. unfold reset_begin in Hrun.
    case_bool_decide as Hs; simplify_eq. destruct H1 as [Ha Ho]; [by left|].
    split; simpl; try done. intros _. apply H5. by left.
  - by apply clear_inv.
  - by apply buffer_drain_inv.
Qed.

(** C40. No interleaving of scanners, sealers, resets and the sequencer loses,
    duplicates or reorders a batch: per broker, what was pushed is what the
    sequencer extracted followed by what is still queued.  A sealed buffer has
    no scanner between admission and exit, and a buffer that is idle or being
    reset has handed everything over. *)
Theorem epoch_buffer_exactly_once s :
  rtc step start s ->
  (forall i, hist (pushed s) i = hist (extracted s) i ++ queue (buf s) i) /\
  (state (buf s) = SEALED ->
     broker_active (buf s) = ∅ /\ forall i, scanner_at s i = Outside) /\
  (state (buf s) = IDLE \/ state (buf s) = RESETTING ->
     forall i, hist (extracted s) i = hist (pushed s) i).
Proof.
  intros Hrun. assert (inv s) as [H1 H2 H3 H4 H5 H6 H7 H8].
  { eapply (rtc_invariant step inv); [exact buffer_step_inv|exact start_inv|exact Hrun]. }
  split_and!; [done| |].
  - intros Hs. apply H1. unfold quiet. tauto.
  - intros Hs i. by rewrite H8, (H5 Hs), app_nil_r.
Qed.

(** Sealing terminates: once no scanner is inside, the predicate's scan of
    the flags reaches [SEALED] after reading each flag, with the queues as the
    scanners left them. *)
Theorem seal_completes b :
  state b = SEALING -> progress b = 0 -> broker_active b = ∅ ->
  let b' := Nat.iter (S (Z.to_nat NUM_MAX_BROKERS)) (fun b => seal_scan b false) b in
  state b' = SEALED /\ per_broker b' = per_broker b.
Proof.
  intros Hs Hp Ha.
  assert (forall n : nat, Z.of_nat n <= NUM_MAX_BROKERS ->
    Nat.iter n (fun b => seal_scan b false) b = b <| progress := Z.of_nat n |>) as Hit.
  { induction n as [|n IH]; intros Hn.
    - destruct b; simpl in *. by subst.
    - rewrite Nat.iter_succ, IH by lia. unfold seal_scan. simpl. rewrite Ha.
      rewrite Z.geb_leb, (proj2 (Z.leb_gt _ _)) by lia. case_bool_decide; [set_solver|].
      f_equal. lia. }
  rewrite Nat.iter_succ, Hit by done. unfold seal_scan. simpl. done.
Qed.

(** A schedule of the threads. *)
Inductive action :=
  | Enter (i : Z) (x : B) | Push (i : Z) | Exit (i : Z) | Seal | Scan | Reset | Clear | Drain.
Definition act (s : system) (a : action) : system :=
  match a with
  | Enter i x =>
      match scanner_at s i, enter_collection (buf s) i with
      | Outside, (true, b') => mkSystem b' (<[i := Entered x]> (scanners s)) (pushed s) (extracted s)
      | _, _ => s
      end
  | Push i =>
      match scanner_at s i with
      | Entered x => mkSystem (push_back (buf s) i x) (<[i := Leaving]> (scanners s))
                        (<[i := hist (pushed s) i ++ [x]]> (pushed s)) (extracted s)
      | _ => s
      end
  | Exit i =>
      match scanner_at s i with
      | Leaving => mkSystem (exit_collection (buf s) i) (<[i := Outside]> (scanners s))
                     (pushed s) (extracted s)
      | _ => s
      end
  | Seal => let '(ok, b') := seal_begin (buf s) in
            if ok then mkSystem b' (scanners s) (pushed s) (extracted s) else s
  | Scan => if bool_decide (state (buf s) = SEALING)
            then mkSystem (seal_scan (buf s) false) (scanners s) (pushed s) (extracted s) else s
  | Reset => let '(ok, b') := reset_begin (buf s) in
             if ok then mkSystem b' (scanners s) (pushed s) (extracted s) else s
  | Clear => if bool_decide (state (buf s) = RESETTING)
             then mkSystem (reset_turn (buf s)) (scanners s) (pushed s) (extracted s) else s
  | Drain =>
      if bool_decide (state (buf s) = SEALED) then
        let '(xs, b') := drain_turn (buf s) in
        mkSystem b' (scanners s) (pushed s)
          (<[progress (buf s) := hist (extracted s) (progress (buf s)) ++ xs]> (extracted s))
      else s
  end.

Lemma buffer_act_rtc s a : rtc step s (act s a).
Proof.
  destruct a; simpl; repeat case_match; try constructor; simplify_eq; apply rtc_once;
    try (match goal with H : bool_decide _ = true |- _ => apply bool_decide_eq_true in H end);
    by constructor.
Qed.

Lemma buffer_acts_rtc l : forall s, rtc step s (foldl act s l).
Proof.
  induction l as [|a l IH]; intros s; simpl; [constructor|]. etransitivity; [apply buffer_act_rtc|apply IH].
Qed.
End buffer.
Arguments t : clear implicits.
Arguments system : clear implicits.
End EpochBuffer5.

(** Broker 3's scanner is inside when the driver starts to seal; the seal waits
    for it, a second scanner is refused, and the sequencer takes the batch. *)
Definition epoch_run : list (@EpochBuffer5.action Z) :=
  [EpochBuffer5.Reset] ++ replicate 65 EpochBuffer5.Clear ++
  [EpochBuffer5.Enter 3 77; EpochBuffer5.Seal] ++ replicate 9 EpochBuffer5.Scan ++
  [EpochBuffer5.Push 3; EpochBuffer5.Enter 4 88; EpochBuffer5.Exit 3] ++
  replicate 40 EpochBuffer5.Scan ++ replicate 33 EpochBuffer5.Drain.
Definition epoch_run_end : EpochBuffer5.system Z :=
  foldl EpochBuffer5.act EpochBuffer5.start epoch_run.

Lemma epoch_buffer_exactly_once_witness :
  EpochBuffer5.hist (EpochBuffer5.extracted epoch_run_end) 3 = [77] /\
  EpochBuffer5.state (EpochBuffer5.buf epoch_run_end) = EpochBuffer5.IDLE /\
  forall i, EpochBuffer5.hist (EpochBuffer5.extracted epoch_run_end) i =
            EpochBuffer5.hist (EpochBuffer5.pushed epoch_run_end) i.
Proof.
  split; [by vm_compute|]. split; [by vm_compute|].
  destruct (EpochBuffer5.epoch_buffer_exactly_once epoch_run_end) as (_ & _ & H);
    [exact (EpochBuffer5.buffer_acts_rtc epoch_run EpochBuffer5.start)|].
  apply H. left. by vm_compute.
Defined.

Lemma seal_completes_witness :
  let b := EpochBuffer5.mk (B := Z) EpochBuffer5.SEALING ∅ {[3 := [77]]} 0 in
  EpochBuffer5.state (Nat.iter 33 (fun b => EpochBuffer5.seal_scan b false) b) = EpochBuffer5.SEALED.
Proof. intros b. by apply (EpochBuffer5.seal_completes b). Defined.
