(* ===== verification/Order5State.v ===== *)
(** The data of the ORDER=5 sequencer: batch descriptors, one level-5 shard and
    the topic state its classifier touches (src/embarlet/topic.h,
    src/embarlet/topic_order5_sessions.cc). *)

From S2P Require Import Prelude Frontier ClientState Dedup SessionTable.

(** * Batch descriptors *)

Record HoldBatchMetadata := mkMeta {
  m_log_idx : Z;
  m_total_size : Z;
  m_batch_id : Z;
  m_batch_seq : Z;
  m_session_epoch : Z;
  m_pbr_absolute_index : Z;
  m_client_id : Z;
  m_epoch_created : Z;
  m_broker_id : Z;
  m_num_msg : Z;
  m_start_logical_offset : Z;
  m_slot_offset : Z;
}.
Definition meta_zero : HoldBatchMetadata := mkMeta 0 0 0 0 0 0 0 0 0 0 0 0.

(** [hdr] is the address of the ring slot's header, 0 for the null pointer. *)
Record PendingBatch5 := mkBatch {
  hdr : Z;
  broker_id : Z;
  num_msg : Z;
  client_id : Z;
  batch_seq : Z;
  session_epoch : Z;
  slot_offset : Z;
  epoch_created : Z;
  skipped : bool;
  is_held_marker : bool;
  from_hold : bool;
  hold_meta : HoldBatchMetadata;
  cached_log_idx : Z;
  cached_total_size : Z;
  cached_batch_id : Z;
  cached_pbr_absolute_index : Z;
  cached_start_logical_offset : Z;
}.
#[global] Instance eta_PendingBatch5 : Eta PendingBatch5 := fun p =>
  mkBatch (hdr p) (broker_id p) (num_msg p) (client_id p) (batch_seq p) (session_epoch p)
    (slot_offset p) (epoch_created p) (skipped p) (is_held_marker p) (from_hold p)
    (hold_meta p) (cached_log_idx p) (cached_total_size p) (cached_batch_id p)
    (cached_pbr_absolute_index p) (cached_start_logical_offset p).
(** [PendingBatch5{}]. *)
Definition batch_zero : PendingBatch5 :=
  mkBatch 0 0 0 0 0 0 0 0 false false false meta_zero 0 0 0 0 0.

Definition session_of (p : PendingBatch5) : Z := MakeSessionKey (client_id p) (session_epoch p).

Record HoldEntry5 := mkHold {
  he_batch : PendingBatch5;
  he_meta : HoldBatchMetadata;
  he_hold_start_ns : Z;
}.

Record ClientPressureStats := mkStats {
  hold_inserts : Z;
  expiries : Z;
  forced_skips : Z;
  late_drops : Z;
  max_held_depth : Z;
}.
#[global] Instance eta_Stats : Eta ClientPressureStats := fun s =>
  mkStats (hold_inserts s) (expiries s) (forced_skips s) (late_drops s) (max_held_depth s).
Definition stats_zero : ClientPressureStats := mkStats 0 0 0 0 0.

Record SessionFenceNotification := mkNote {
  note_client_id : Z;
  note_session_epoch : Z;
  note_committed_batch_seq : Z;
  note_has_committed_prefix : bool;
  note_committed_msg_hwm : Z;
  note_control_epoch : Z;
  note_reason : Z;
}.

(** * Constants *)

Definition kHoldBufferMaxEntries : Z := 100000.
Definition kDeferredL5MaxEntries : Z := kHoldBufferMaxEntries * 2.
Definition kClientTtlEpochs : Z := 1000000.
Definition kClientGcEpochInterval : Z := 1024.
Definition NUM_MAX_BROKERS : Z := 32.
(** [sizeof(BatchHeader)]. *)
Definition kBatchHeaderSize : Z := 128.

(** * What one call of the classifier reads and never writes *)
Record Env := mkEnv {
  true_client_chain : bool;
  fifo_ablation : bool;          (** [ShouldBypassOrder5SessionFIFOForAblation()] *)
  session_lease_ns : Z;          (** [GetSessionLeaseNs(replication_factor_ > 0)] *)
  hold_epoch : Z;                (** [current_epoch_for_hold_] *)
  cached_epoch : Z;
  control_epoch : Z;             (** [CurrentControlEpoch()] *)
  BATCHHEADERS_SIZE : Z;
  recovery_complete : bool;      (** [order5_recovery_complete_] *)
  recovered_next_expected : gmap Z Z;
  clock : nat -> Z;              (** the successive values of [SteadyNowNs()] *)
  (** The order in which a hash container is traversed. *)
  iter_order : gset Z -> list Z;
}.

(** Traversal visits each element once, in an order the code does not choose. *)
Definition iter_ok (e : Env) : Prop := forall X, iter_order e X ≡ₚ elements X.

(** * The shard, and the topic state it shares *)
Record St := mkSt {
  client_state : gmap Z ClientState5;
  client_emitted_tracker : gmap Z ClientEmitTracker.t;
  hold_buffer : gmap Z (gmap Z HoldEntry5);
  hold_buffer_size : Z;
  clients_with_held_batches : gset Z;
  client_pressure_stats : gmap Z ClientPressureStats;
  deferred_level5 : list PendingBatch5;
  dedup : FastDeduplicator.t;
  cv_logical_only_cumulative : gmap Z Z;
  cv_logical_only_pbr_index : gmap Z Z;
  backpressured_level5_slots : list Order5SlotIdentity;
  (** topic *)
  session_table : gmap Z SessionTable.SessionEntry;
  total_hold_size : Z;                    (** [order5_total_hold_size_] *)
  consumed_through : gmap Z Z;            (** [offsets[b].batch_headers_consumed_through] *)
  invalidated : list Z;                   (** headers [InvalidateOrder5HeldSlot] cleared *)
  fifo_violations : Z;
  hold_timeout_skips : Z;
  force_expire_hold_until_ns : Z;
  force_expire_rearm_cooldown_until_ns : Z;
  pending_session_fences : gmap Z SessionFenceNotification;
  capacity_exhausted : bool;
  per_client_ordered : gmap Z Z;
  per_client_ordered_epoch : gmap Z Z;
  ticks : nat;                            (** clock readings so far *)
  (** the call's results *)
  ready : list PendingBatch5;
  terminalized_delta : gmap Z Z;
}.
#[global] Instance eta_St : Eta St := fun s =>
  mkSt (client_state s) (client_emitted_tracker s) (hold_buffer s) (hold_buffer_size s)
    (clients_with_held_batches s) (client_pressure_stats s) (deferred_level5 s) (dedup s)
    (cv_logical_only_cumulative s) (cv_logical_only_pbr_index s)
    (backpressured_level5_slots s) (session_table s) (total_hold_size s)
    (consumed_through s) (invalidated s) (fifo_violations s) (hold_timeout_skips s)
    (force_expire_hold_until_ns s) (force_expire_rearm_cooldown_until_ns s)
    (pending_session_fences s) (capacity_exhausted s) (per_client_ordered s)
    (per_client_ordered_epoch s) (ticks s) (ready s) (terminalized_delta s).

Definition St_init : St :=
  mkSt ∅ ∅ ∅ 0 ∅ ∅ [] FastDeduplicator.init ∅ ∅ [] ∅ 0 ∅ [] 0 0 0 0 ∅ false ∅ ∅ 0 [] ∅.

(** [map[key]]: a missing key is value-initialised. *)
Definition state_at (s : St) (key : Z) : ClientState5 :=
  default ClientState5_init (client_state s !! key).
Definition tracker_at (s : St) (key : Z) : ClientEmitTracker.t :=
  default ClientEmitTracker.init (client_emitted_tracker s !! key).
Definition held_at (s : St) (key : Z) : gmap Z HoldEntry5 := default ∅ (hold_buffer s !! key).
Definition zlookup (m : gmap Z Z) (k : Z) : Z := default 0 (m !! k).

Definition put_state (s : St) (key : Z) (cs : ClientState5) : St :=
  s <| client_state := <[key := cs]> (client_state s) |>.
Definition put_tracker (s : St) (key : Z) (t : ClientEmitTracker.t) : St :=
  s <| client_emitted_tracker := <[key := t]> (client_emitted_tracker s) |>.
Definition push_ready (s : St) (p : PendingBatch5) : St := s <| ready := ready s ++ [p] |>.

Definition SteadyNowNs (e : Env) (s : St) : Z * St :=
  (clock e (ticks s), s <| ticks := S (ticks s) |>).
