(* ===== verification/Classifier.v ===== *)
(** The level-5 classifier: [ProcessLevel5BatchesShard] of
    src/embarlet/topic_order5_sessions.cc with its helpers and the state
    reconstruction of src/embarlet/topic_order5_recovery.cc. *)

From S2P Require Import Prelude Sorting Frontier ClientState Dedup SessionTable Order5State.

Section classifier.
  Context `{StdSort} (e : Env).

(** * Reconstruction of a session's state *)

Definition ApplyRecoveredSequencer5State (key : Z) (cs : ClientState5) : ClientState5 :=
  if negb (recovery_complete e) then cs
  else
    match recovered_next_expected e !! key with
    | None => cs
    | Some n =>
        let cs := if n >? next_expected cs then set_next_expected cs n else cs in
        if n >? 0 then cs <| committed_hwm := Z.max (committed_hwm cs) (n - 1) |> else cs
    end.

(** The merge of an active durable entry into the session's state. *)
Definition absorb_entry (entry : SessionTable.SessionEntry) (cs : ClientState5) : ClientState5 :=
  let flags := Z.land (SessionTable.state_word entry) 4294967295 in
  let durable_epoch := u32 (Z.shiftr (SessionTable.state_word entry) 32) in
  let cs := cs <| ClientState.session_epoch ::= fun v => Z.max v durable_epoch |> in
  let cs := if SessionTable.expected_seq entry >? next_expected cs
            then set_next_expected cs (SessionTable.expected_seq entry) else cs in
  let cs := cs <| committed_hwm ::= fun v => Z.max v (SessionTable.committed_hwm entry) |>
               <| highest_sequenced ::= fun v =>
                    Z.max v (SessionTable.highest_sequenced entry) |> in
  if negb (Z.land flags kSessionEntryFlagFenced =? 0) then cs <| fenced := true |> else cs.

Definition ReconstructClientStateFromSessionEntry (t : gmap Z SessionTable.SessionEntry)
    (key : Z) (cs : ClientState5) : ClientState5 :=
  let cs := ApplyRecoveredSequencer5State key cs in
  match SessionTable.FindSessionEntry t key with
  | None => cs
  | Some i =>
      let entry := SessionTable.slot t i in
      let flags := Z.land (SessionTable.state_word entry) 4294967295 in
      if Z.land flags kSessionEntryFlagActive =? 0 then cs
      else ApplyRecoveredSequencer5State key (absorb_entry entry cs)
  end.

(** * Bookkeeping *)

Definition stats_update (s : St) (client : Z) (f : ClientPressureStats -> ClientPressureStats) : St :=
  if negb (true_client_chain e) then s
  else s <| client_pressure_stats :=
         <[client := f (default stats_zero (client_pressure_stats s !! client))]>
           (client_pressure_stats s) |>.

Definition record_hold_insert (s : St) (client : Z) (hold_map : gmap Z HoldEntry5) : St :=
  stats_update s client (fun st => st <| hold_inserts := hold_inserts st +u 1 |>
    <| max_held_depth := Z.max (max_held_depth st) (Z.of_nat (size hold_map)) |>).
Definition record_expiry (s : St) (client : Z) : St :=
  stats_update s client (fun st => st <| expiries := expiries st +u 1 |>).
Definition record_forced_skip (s : St) (client : Z) : St :=
  stats_update s client (fun st => st <| forced_skips := forced_skips st +u 1 |>).
Definition record_late_drop (s : St) (client : Z) : St :=
  stats_update s client (fun st => st <| late_drops := late_drops st +u 1 |>).

Definition CheckAndInsertBatchId (s : St) (batch_id : Z) : bool * St :=
  let '(r, d) := FastDeduplicator.check_and_insert (dedup s) batch_id in
  (r, s <| dedup := d |>).

Definition valid_broker (b : Z) : bool := negb ((b <? 0) || (b >=? NUM_MAX_BROKERS)).

Definition accumulate_logical_only (s : St) (broker start_logical_offset msgs pbr_index : Z) : St :=
  if negb (true_client_chain e) then s
  else if negb (valid_broker broker) then s
  else
    let cumulative := start_logical_offset +u msgs in
    let encoded := pbr_index +u 1 in
    s <| cv_logical_only_cumulative ::= fun m =>
           <[broker := Z.max (zlookup m broker) cumulative]> m |>
      <| cv_logical_only_pbr_index ::= fun m =>
           <[broker := Z.max (zlookup m broker) encoded]> m |>.

Definition terminalize_already_emitted (s : St) (client broker start_logical_offset msgs
    batch_id pbr_index : Z) : St :=
  if negb (true_client_chain e) then s
  else
    let s := accumulate_logical_only s broker start_logical_offset msgs pbr_index in
    let s := record_late_drop s client in
    (CheckAndInsertBatchId s batch_id).2.

Definition terminalize_batch (s : St) (p : PendingBatch5) : St :=
  terminalize_already_emitted s (client_id p) (broker_id p) (cached_start_logical_offset p)
    (num_msg p) (cached_batch_id p) (cached_pbr_absolute_index p).

Definition terminalize_held (s : St) (he : HoldEntry5) : St :=
  let m := he_meta he in
  terminalize_already_emitted s (m_client_id m) (m_broker_id m) (m_start_logical_offset m)
    (m_num_msg m) (m_batch_id m) (m_pbr_absolute_index m).

(** * Retiring ring slots *)

(** [consumed_through], with the sentinel "all slots free" read as slot 0. *)
Definition consumed_of (s : St) (b : Z) : Z :=
  let c := zlookup (consumed_through s) b in
  if c =? BATCHHEADERS_SIZE e then 0 else c.

Definition RetireOrder5HeldSlotAndAdvance (s : St) (header broker slot : Z) : St :=
  if capacity_exhausted s then s
  else
    let s := if header =? 0 then s else s <| invalidated ::= fun l => l ++ [header] |> in
    if negb (valid_broker broker) then s
    else if (slot >=? BATCHHEADERS_SIZE e) || negb (slot mod kBatchHeaderSize =? 0) then s
    else if consumed_of s broker =? slot then
      let next := slot + kBatchHeaderSize in
      let next := if next >=? BATCHHEADERS_SIZE e then BATCHHEADERS_SIZE e else next in
      s <| consumed_through := <[broker := next]> (consumed_through s) |>
    else s.

(** A [std::map] is traversed by ascending sequence. *)
Definition held_list (m : gmap Z HoldEntry5) : list (Z * HoldEntry5) :=
  InsertionSort.sort (by_key fst) (map_to_list m).
Definition held_max (m : gmap Z HoldEntry5) : Z :=
  foldr (fun kv acc => Z.max kv.1 acc) 0 (map_to_list m).

(** The comparator that orders the slots to retire by distance from the
    consumer's position. *)
Definition retire_lt (start : Z -> Z) (a b : Z * Z * Z) : bool :=
  let '(broker_a, slot_a, _) := a in
  let '(broker_b, slot_b, _) := b in
  if negb (broker_a =? broker_b) then broker_a <? broker_b
  else if negb (valid_broker broker_a) then slot_a <? slot_b
  else
    ((slot_a + BATCHHEADERS_SIZE e - start broker_a) mod BATCHHEADERS_SIZE e <?
     (slot_b + BATCHHEADERS_SIZE e - start broker_a) mod BATCHHEADERS_SIZE e).

Definition purge_fenced_session (s : St) (key : Z) : St :=
  let s :=
    match hold_buffer s !! key with
    | None => s
    | Some held =>
        let retire := (fun kv => (m_broker_id (he_meta kv.2), m_slot_offset (he_meta kv.2),
                                  hdr (he_batch kv.2))) <$> held_list held in
        let consume_start := consumed_of s in
        let retire := std_sort (retire_lt consume_start) retire in
        let s := foldl (fun s r => RetireOrder5HeldSlotAndAdvance s r.2 r.1.1 r.1.2) s retire in
        let n := Z.of_nat (size held) in
        s <| hold_buffer_size := hold_buffer_size s -u n |>
          <| total_hold_size := total_hold_size s -u n |>
          <| hold_buffer := delete key (hold_buffer s) |>
    end in
  s <| clients_with_held_batches := clients_with_held_batches s ∖ {[key]} |>
    <| client_emitted_tracker := delete key (client_emitted_tracker s) |>
    <| deferred_level5 := filter (fun p => session_of p <> key) (deferred_level5 s) |>.

(** * Fencing *)

Definition StopForCapacityExhaustion (s : St) : St := s <| capacity_exhausted := true |>.

Definition record_fence (s : St) (key : Z) : St :=
  let cs := state_at s key in
  if negb (true_client_chain e) then s
  else if negb (CanFenceSessionEpoch (ClientState.session_epoch cs)) then s
  else
    match SessionTable.FindOrCreateSessionEntry (session_table s) key with
    | (None, t) => StopForCapacityExhaustion (s <| session_table := t |>)
    | (Some i, t) =>
        let s := s <| session_table := t |> in
        let committed_expected := SessionTable.expected_seq (SessionTable.slot t i) in
        let committed := SessionTable.committed_hwm (SessionTable.slot t i) in
        let first_fence := negb (fenced cs) in
        let cs := (fence cs) <| committed_hwm := committed |> in
        let s := put_state s key cs in
        let snapshot := SessionTable.mkSnapshot (ClientState.session_epoch cs) committed_expected
                          (committed_hwm cs) (highest_sequenced cs) true in
        match SessionTable.PublishSessionEntry (session_table s) key snapshot with
        | (false, t) => StopForCapacityExhaustion (s <| session_table := t |>)
        | (true, t) =>
            let s := s <| session_table := t |> in
            let s :=
              if first_fence then
                let client := u32 (Z.shiftr key 32) in
                let note := mkNote client (ClientState.session_epoch cs) (committed_hwm cs)
                              (committed_expected >? 0) (zlookup (per_client_ordered s) client)
                              (control_epoch e) 0 in
                let s := s <| pending_session_fences := <[client := note]> (pending_session_fences s) |>
                           <| force_expire_hold_until_ns := 0 |> in
                let '(now, s) := SteadyNowNs e s in
                s <| force_expire_rearm_cooldown_until_ns := now +u session_lease_ns e |>
              else s in
            purge_fenced_session s key
        end
    end.

(** * Classifying one batch *)

Definition meta_of (p : PendingBatch5) : HoldBatchMetadata :=
  mkMeta (cached_log_idx p) (cached_total_size p) (cached_batch_id p) (batch_seq p)
    (session_epoch p) (cached_pbr_absolute_index p) (client_id p) (epoch_created p)
    (broker_id p) (num_msg p) (cached_start_logical_offset p) (slot_offset p).

(** The placeholder that stands in [ready] for a batch moved to the hold buffer. *)
Definition held_marker (p : PendingBatch5) : PendingBatch5 :=
  batch_zero <| broker_id := broker_id p |> <| slot_offset := slot_offset p |>
    <| is_held_marker := true |>
    <| cached_pbr_absolute_index := cached_pbr_absolute_index p |>.

(** [if (!CheckAndInsertBatchId(...))] hand the batch to commit, marked as emitted. *)
Definition emit_once (s : St) (key batch_id : Z) (p : PendingBatch5) : bool * St :=
  let '(dup, s) := CheckAndInsertBatchId s batch_id in
  if dup then (false, s)
  else (true, push_ready (put_tracker s key
                (ClientEmitTracker.MarkEmitted (tracker_at s key) (batch_seq p))) p).

Definition count_violation (s : St) : St := s <| fifo_violations := fifo_violations s +u 1 |>.

(** [seq < next_expected]: a late batch. *)
Definition classify_late (s : St) (key : Z) (p : PendingBatch5) (tcc : bool) : St :=
  let s := put_state s key (mark_sequenced (state_at s key) (batch_seq p)) in
  if tcc then
    let '(dup, s) := CheckAndInsertBatchId s (cached_batch_id p) in
    if dup then s
    else
      let s := accumulate_logical_only s (broker_id p) (cached_start_logical_offset p) (num_msg p)
                 (cached_pbr_absolute_index p) in
      let s := record_late_drop s (client_id p) in
      let c := u32 (client_id p) in
      s <| terminalized_delta := <[c := zlookup (terminalized_delta s) c +u num_msg p]>
                                   (terminalized_delta s) |>
  else
    let '(emitted, s) := emit_once s key (cached_batch_id p) p in
    if emitted then count_violation s else s.

(** [seq > next_expected]: the batch waits for its predecessors. *)
Definition classify_ahead (s : St) (key : Z) (p : PendingBatch5) (tcc : bool) : St :=
  let seq := batch_seq p in
  let s :=
    if tcc then
      let '(now, s) := SteadyNowNs e s in put_state s key (note_gap (state_at s key) now)
    else s in
  if hold_buffer_size s >=? kHoldBufferMaxEntries then
    if Z.of_nat (length (deferred_level5 s)) <? kDeferredL5MaxEntries then
      s <| deferred_level5 := deferred_level5 s ++ [p] |>
    else if existsb (fun slot => Order5SlotMatches slot (broker_id p) (slot_offset p)
                                   (cached_pbr_absolute_index p)) (backpressured_level5_slots s)
    then s
    else s <| backpressured_level5_slots := backpressured_level5_slots s ++
                [mkSlot (broker_id p) (slot_offset p) (cached_pbr_absolute_index p)] |>
  else
    let stream_map := held_at s key in
    match stream_map !! seq with
    | Some _ => s <| hold_buffer := <[key := stream_map]> (hold_buffer s) |>
    | None =>
        let '(now, s) := SteadyNowNs e s in
        let stream_map := <[seq := mkHold p (meta_of p) now]> stream_map in
        let s := s <| hold_buffer := <[key := stream_map]> (hold_buffer s) |> in
        let s := if tcc then record_hold_insert s (client_id p) stream_map else s in
        let s := s <| hold_buffer_size := hold_buffer_size s +u 1 |>
                   <| total_hold_size := total_hold_size s +u 1 |>
                   <| clients_with_held_batches := {[key]} ∪ clients_with_held_batches s |> in
        push_ready s (held_marker p)
    end.

(** [state.mark_sequenced(seq); if (seq >= next_expected) set_next_expected(seq + 1)]. *)
Definition mark_and_cover (cs : ClientState5) (seq : Z) : ClientState5 :=
  let cs := mark_sequenced cs seq in
  if seq >=? next_expected cs then set_next_expected cs (seq +u 1) else cs.

Definition classify_one (s : St) (key : Z) (p : PendingBatch5) (tcc : bool) : St :=
  let seq := batch_seq p in
  let cs := state_at s key in
  let emitted := tracker_at s key in
  if tcc && fenced cs then
    let s := accumulate_logical_only s (broker_id p) (cached_start_logical_offset p) (num_msg p)
               (cached_pbr_absolute_index p) in
    record_late_drop s (client_id p)
  else if is_duplicate cs seq && ClientEmitTracker.IsEmitted emitted seq then
    terminalize_batch s p
  else if ClientEmitTracker.IsEmitted emitted seq then
    let s := put_state s key (mark_and_cover cs seq) in
    if tcc then terminalize_batch s p
    else
      let '(emitted, s) := emit_once s key (cached_batch_id p) p in
      if emitted then count_violation s else s
  else if fifo_ablation e then
    let s := put_state s key (mark_and_cover cs seq) in
    (emit_once s key (cached_batch_id p) p).2
  else if seq =? next_expected cs then
    let s := put_state s key (advance_next_expected (mark_sequenced cs seq)) in
    (emit_once s key (cached_batch_id p) p).2
  else if seq <? next_expected cs then classify_late s key p tcc
  else classify_ahead s key p tcc.

(** [ClientState5& state = client_state[key]] with the epoch, the last-seen
    epoch and the recovered frontier, then the seeding rules. *)
Definition open_session (s : St) (key session_key epoch : Z) : St :=
  let cs := (state_at s key) <| ClientState.session_epoch := epoch |> <| last_epoch := hold_epoch e |> in
  let cs := ReconstructClientStateFromSessionEntry (session_table s) session_key cs in
  put_state s key cs.

Definition seed_session (s : St) (key : Z) : St :=
  let t := tracker_at s key in
  let s := put_tracker s key t in
  let cs := state_at s key in
  let cs :=
    if (next_expected cs =? 0) && negb (ClientEmitTracker.contiguous_max t =? U64_MAX) then
      (set_next_expected cs (ClientEmitTracker.contiguous_max t +u 1))
        <| highest_sequenced := ClientEmitTracker.contiguous_max t |>
    else cs in
  let cs :=
    if (next_expected cs =? 0) && (highest_sequenced cs =? 0) &&
       (ClientEmitTracker.contiguous_max t =? U64_MAX)
    then set_next_expected cs 0 else cs in
  put_state s key cs.

Definition classify_stream (s : St) (key session_key epoch : Z) (batches : list PendingBatch5) : St :=
  let s := seed_session (open_session s key session_key epoch) key in
  foldl (fun s p => classify_one s key p (true_client_chain e)) s batches.

(** * Scanner skip markers *)

Definition SIZE_MAX : Z := U64_MAX.

Definition skip_one (s : St) (p : PendingBatch5) : St :=
  let s :=
    if client_id p =? SIZE_MAX then s
    else
      let key := session_of p in
      let s := open_session s key key (session_epoch p) in
      let advance s :=
        let cs := mark_sequenced (state_at s key) (batch_seq p) in
        if batch_seq p >=? next_expected cs then
          record_forced_skip (put_state s key (set_next_expected cs (batch_seq p +u 1))) (client_id p)
        else put_state s key cs in
      if true_client_chain e then
        if CanFenceSessionEpoch (ClientState.session_epoch (state_at s key)) then
          record_forced_skip (record_fence s key) (client_id p)
        else advance s
      else advance s in
  push_ready s p.

(** The batches left for classification, after the markers were taken out. *)
Definition skip_filter (s : St) (level5 : list PendingBatch5) : St * list PendingBatch5 :=
  (foldl skip_one s (filter (fun p => skipped p = true) level5),
   filter (fun p => skipped p = false) level5).

(** * Grouping *)

(** Maximal runs of neighbours with the same key. *)
Fixpoint runs {T} (same : T -> T -> bool) (l : list T) : list (list T) :=
  match l with
  | [] => []
  | x :: l' =>
      match runs same l' with
      | (y :: g) :: gs => if same x y then (x :: y :: g) :: gs else [x] :: (y :: g) :: gs
      | gs => [x] :: gs
      end
  end.

Definition same_session (a b : PendingBatch5) : bool :=
  (client_id a =? client_id b) && (session_epoch a =? session_epoch b).
Definition same_stream (a b : PendingBatch5) : bool :=
  (broker_id a =? broker_id b) && (session_epoch a =? session_epoch b).
Definition stream_key (p : PendingBatch5) : Z :=
  MakeClientBrokerStreamKey (client_id p) (session_epoch p) (broker_id p).

(** One group of the true client chain, and one of the legacy streams. *)
Definition classify_session_group (s : St) (g : list PendingBatch5) : St :=
  match g with
  | [] => s
  | p :: _ => classify_stream s (session_of p) (session_of p) (session_epoch p) g
  end.
Definition classify_stream_group (s : St) (g : list PendingBatch5) : St :=
  match g with
  | [] => s
  | p :: _ => classify_stream s (stream_key p) (session_of p) (session_epoch p) g
  end.

Definition single_session (level5 : list PendingBatch5) : bool :=
  match level5 with
  | [] => false
  | first :: rest => forallb (same_session first) rest
  end.

(** * The fast path: one session, nothing held or deferred *)
Definition fast_path (s : St) (level5 : list PendingBatch5) : St :=
  if true_client_chain e then
    classify_session_group s (std_sort (by_key batch_seq) level5)
  else
    let keys := iter_order e (list_to_set (stream_key <$> level5)) in
    foldl (fun s k =>
      classify_stream_group s (std_sort (by_key batch_seq) (filter (fun p => stream_key p = k) level5)))
      s keys.

Definition session_lt : PendingBatch5 -> PendingBatch5 -> bool :=
  by_key_then client_id (by_key_then session_epoch (by_key batch_seq)).
Definition stream_lt : PendingBatch5 -> PendingBatch5 -> bool :=
  by_key_then broker_id (by_key_then session_epoch (by_key batch_seq)).

(** The radix sorter's scratch vector does not influence its result. *)
Definition general_path (s : St) (level5 : list PendingBatch5) : St :=
  if true_client_chain e then
    foldl classify_session_group s (runs same_session (std_sort session_lt level5))
  else
    let sorted := (RadixSorter.sort_by_client_id client_id batch_zero [] level5).1 in
    foldl (fun s g => foldl classify_stream_group s (runs same_stream (std_sort stream_lt g)))
      s (runs same_session sorted).

(** * Draining the hold buffer *)

Definition erase_held (s : St) (key seq : Z) : St :=
  s <| hold_buffer := <[key := delete seq (held_at s key)]> (hold_buffer s) |>
    <| hold_buffer_size := hold_buffer_size s -u 1 |>
    <| total_hold_size := total_hold_size s -u 1 |>.

Definition released (he : HoldEntry5) : PendingBatch5 :=
  (he_batch he) <| from_hold := true |> <| hold_meta := he_meta he |>.

(** One turn of the [while] of the drain loops, on the held batch at
    [next_expected].  [second] is the drain after the expiry sweep. *)
Definition drain_one (s : St) (key seq : Z) (he : HoldEntry5) (second : bool) : St :=
  let bseq := batch_seq (he_batch he) in
  let cs := advance_next_expected (mark_sequenced (state_at s key) bseq) in
  if ClientEmitTracker.IsEmitted (tracker_at s key) bseq then
    let s := put_state s key cs in
    let '(handed_to_commit, s) :=
      if true_client_chain e || second then (false, terminalize_held s he)
      else
        let '(emitted, s) := emit_once s key (m_batch_id (he_meta he)) (released he) in
        (emitted, if emitted then count_violation s else s) in
    let s := if handed_to_commit then s
             else RetireOrder5HeldSlotAndAdvance s (hdr (he_batch he)) (m_broker_id (he_meta he))
                    (m_slot_offset (he_meta he)) in
    erase_held s key seq
  else
    let s := put_state s key cs in
    let '(_, s) := emit_once s key (m_batch_id (he_meta he)) (released he) in
    erase_held s key seq.

(** Every turn erases the entry it found, so a session's loop ends within as
    many turns as it holds batches. *)
Fixpoint drain_loop (fuel : nat) (s : St) (key : Z) (second : bool) : St :=
  match fuel with
  | O => s
  | S n =>
      let seq := next_expected (state_at s key) in
      match held_at s key !! seq with
      | None => s
      | Some he => drain_loop n (drain_one s key seq he second) key second
      end
  end.

Definition drain_session (s : St) (key : Z) (second : bool) : St :=
  match hold_buffer s !! key with
  | None => s <| clients_with_held_batches := clients_with_held_batches s ∖ {[key]} |>
  | Some held =>
      let s := put_state s key ((state_at s key) <| last_epoch := hold_epoch e |>) in
      let s := put_tracker s key (tracker_at s key) in
      let s := drain_loop (size held) s key second in
      if bool_decide (held_at s key = ∅) then
        s <| hold_buffer := delete key (hold_buffer s) |>
          <| clients_with_held_batches := clients_with_held_batches s ∖ {[key]} |>
      else s
  end.

Definition drain (s : St) (second : bool) : St :=
  foldl (fun s key => drain_session s key second) s (iter_order e (clients_with_held_batches s)).

(** * The expiry sweep *)

(** The session's new state, and whether it is to be fenced. *)
Definition expiry_check (s : St) (key now effective_lease : Z) : bool * St :=
  match hold_buffer s !! key with
  | None => (false, s)
  | Some held =>
      if bool_decide (held = ∅) then (false, s)
      else
        let cs := state_at s key in
        let s := put_state s key cs in
        if negb (CanFenceSessionEpoch (ClientState.session_epoch cs)) then (false, s)
        else if fenced cs then (true, s)
        else if bool_decide (is_Some (held !! next_expected cs)) then
          (false, put_state s key (cs <| gap_since_ns := 0 |>))
        else if ShouldClearSessionGapFromHeldMax (next_expected cs) (held_max held) then
          (false, put_state s key (cs <| gap_since_ns := 0 |>))
        else
          let cs := note_gap cs now in
          (ShouldFenceSessionGap cs now effective_lease, put_state s key cs)
  end.

Definition expire_one (s : St) (key : Z) : St :=
  let s := put_state s key ((state_at s key) <| last_epoch := hold_epoch e |>) in
  let s := s <| hold_timeout_skips := hold_timeout_skips s +u 1 |> in
  let s := record_expiry s (Z.shiftr key 32) in
  record_fence s key.

Definition expiry_sweep (s : St) : St :=
  let '(now, s) := SteadyNowNs e s in
  let force_expire_active := now <? force_expire_hold_until_ns s in
  let lease := EffectiveOrder5SessionFenceLeaseNs (session_lease_ns e) force_expire_active in
  let '(s, expired) :=
    foldl (fun '(s, expired) key =>
      let '(b, s) := expiry_check s key now lease in
      (s, if b then expired ++ [key] else expired))
      (s, []) (iter_order e (clients_with_held_batches s)) in
  foldl expire_one s expired.

(** * The whole call *)

Definition gc_evictable (s : St) (key : Z) (cs : ClientState5) : bool :=
  bool_decide (held_at s key = ∅) && bool_decide (key ∉ clients_with_held_batches s) &&
  bool_decide (deferred_level5 s = []) &&
  ((hold_epoch e >? last_epoch cs) && (hold_epoch e -u last_epoch cs >? kClientTtlEpochs)).

Definition gc_evict (s : St) (key : Z) : St :=
  let n := Z.of_nat (size (held_at s key)) in
  s <| hold_buffer_size := hold_buffer_size s -u n |>
    <| total_hold_size := total_hold_size s -u n |>
    <| hold_buffer := delete key (hold_buffer s) |>
    <| clients_with_held_batches := clients_with_held_batches s ∖ {[key]} |>
    <| client_state := delete key (client_state s) |>
    <| client_emitted_tracker := delete key (client_emitted_tracker s) |>.

Definition ClientGc (s : St) : St :=
  if negb (Z.land (hold_epoch e) (kClientGcEpochInterval - 1) =? 0) then s
  else
    let evict := filter (fun kv => gc_evictable s kv.1 kv.2 = true) (map_to_list (client_state s)) in
    foldl (fun s kv => gc_evict s kv.1) s evict.

(** Batches terminalized without being emitted again still count for the
    client's acknowledged messages. *)
Definition credit_terminalized (s : St) : St :=
  foldl (fun s kv =>
    s <| per_client_ordered := <[kv.1 := zlookup (per_client_ordered s) kv.1 +u kv.2]>
                                 (per_client_ordered s) |>
      <| per_client_ordered_epoch := <[kv.1 := cached_epoch e]> (per_client_ordered_epoch s) |>)
    s (map_to_list (terminalized_delta s)).

Definition begin_call (s : St) (level5 : list PendingBatch5) : St * list PendingBatch5 :=
  let level5 := level5 ++ deferred_level5 s in
  let unblocked slot := forallb (fun p => negb (Order5SlotMatches slot (broker_id p) (slot_offset p)
                                                  (cached_pbr_absolute_index p))) level5 in
  (s <| deferred_level5 := [] |>
     <| backpressured_level5_slots := filter (fun slot => unblocked slot = true)
                                        (backpressured_level5_slots s) |>
     <| cv_logical_only_cumulative := ∅ |> <| cv_logical_only_pbr_index := ∅ |>
     <| terminalized_delta := ∅ |>, level5).

Definition ProcessLevel5BatchesShard (s : St) (level5 : list PendingBatch5) : St :=
  let '(s, level5) := begin_call s level5 in
  let '(s, level5) := skip_filter s level5 in
  if (hold_buffer_size s =? 0) && bool_decide (deferred_level5 s = []) &&
     negb (bool_decide (level5 = [])) && single_session level5
  then ClientGc (fast_path s level5)
  else
    let s := general_path s level5 in
    let s := drain s false in
    let s := expiry_sweep s in
    let s := drain s true in
    if capacity_exhausted s then s
    else ClientGc (credit_terminalized s).
End classifier.
