(* ===== verification/ClassifierInv.v ===== *)
(** The invariant of the level-5 classifier, for the true client chain. *)

From S2P Require Import Prelude.
From S2P Require Import Sorting.
From S2P Require Import Frontier.
From S2P Require Import ClientState.
From S2P Require Import Dedup.
From S2P Require Import SessionTable.
From S2P Require Import Order5State.
From S2P Require Import Classifier.

(** * The part of the state ordering depends on *)

Record Core := mkCore {
  c_states : gmap Z ClientState5;
  c_trackers : gmap Z ClientEmitTracker.t;
  c_held : gmap Z (gmap Z HoldEntry5);
  c_size : Z;
  c_total : Z;
  c_with_held : gset Z;
  c_deferred : list PendingBatch5;
  c_table : gmap Z SessionTable.SessionEntry;
  c_ready : list PendingBatch5;
}.
Definition core (s : St) : Core :=
  mkCore (client_state s) (client_emitted_tracker s) (hold_buffer s) (hold_buffer_size s)
    (total_hold_size s) (clients_with_held_batches s) (deferred_level5 s) (session_table s) (ready s).

Section frame.
  Context `{StdSort} (e : Env).

(** Bookkeeping leaves the core alone. *)
Lemma core_stats s c f : core (stats_update e s c f) = core s.
Proof. unfold stats_update. by destruct (negb _). Qed.
Lemma core_dedup s id : core (CheckAndInsertBatchId s id).2 = core s.
Proof. unfold CheckAndInsertBatchId. by destruct (FastDeduplicator.check_and_insert _ _). Qed.
Lemma core_logical s b o m p : core (accumulate_logical_only e s b o m p) = core s.
Proof. unfold accumulate_logical_only. by repeat case_match. Qed.
Lemma core_terminalize s c b o m i p : core (terminalize_already_emitted e s c b o m i p) = core s.
Proof.
  unfold terminalize_already_emitted. destruct (negb _); [done|].
  by rewrite core_dedup; unfold record_late_drop; rewrite core_stats, core_logical.
Qed.
Lemma core_retire s h b o : core (RetireOrder5HeldSlotAndAdvance e s h b o) = core s.
Proof.
  unfold RetireOrder5HeldSlotAndAdvance. destruct (capacity_exhausted s); [done|].
  destruct (h =? 0); repeat (case_match; try done).
Qed.
Lemma core_retires l : forall s,
  core (foldl (fun s (r : Z * Z * Z) => RetireOrder5HeldSlotAndAdvance e s r.2 r.1.1 r.1.2) s l) = core s.
Proof. induction l as [|r l IH]; intros s; simpl; [done|]. by rewrite IH, core_retire. Qed.
Lemma core_violation s : core (count_violation s) = core s.
Proof. done. Qed.
Lemma core_now s : core (SteadyNowNs e s).2 = core s.
Proof. done. Qed.
End frame.
Ltac core_simpl :=
  rewrite ?core_stats, ?core_dedup, ?core_logical, ?core_terminalize, ?core_retire, ?core_retires,
    ?core_violation, ?core_now.

(** * Reading the core *)

Definition cstate (c : Core) (k : Z) : ClientState5 := default ClientState5_init (c_states c !! k).
Definition ctracker (c : Core) (k : Z) : ClientEmitTracker.t :=
  default ClientEmitTracker.init (c_trackers c !! k).
Definition cheld (c : Core) (k : Z) : gmap Z HoldEntry5 := default ∅ (c_held c !! k).

(** A batch handed to commit for ordering: neither a scanner marker nor a
    placeholder. *)
Definition is_batch (p : PendingBatch5) : Prop := skipped p = false /\ is_held_marker p = false.
#[global] Instance is_batch_dec p : Decision (is_batch p).
Proof. unfold is_batch. apply _. Defined.

Definition emits (c : Core) (k : Z) : list Z :=
  batch_seq <$> filter (fun p => is_batch p /\ session_of p = k) (c_ready c).

Definition durable_fenced (t : gmap Z SessionTable.SessionEntry) (k : Z) : bool :=
  match SessionTable.view t k with
  | Some en => SessionTable.entry_fenced en
  | None => false
  end.

(** * Well-formed batches *)

(** The metadata of a batch released from the hold buffer is its own. *)
Definition meta_ok (p : PendingBatch5) : Prop := from_hold p = true -> hold_meta p = meta_of p.

Definition batch_ok (p : PendingBatch5) : Prop :=
  is_batch p /\ seq_ok (batch_seq p) /\ is_u32 (session_epoch p) /\ meta_ok p /\ is_u32 (num_msg p).

Definition hold_ok (k seq : Z) (he : HoldEntry5) : Prop :=
  batch_ok (he_batch he) /\ batch_seq (he_batch he) = seq /\ session_of (he_batch he) = k /\
  he_meta he = meta_of (he_batch he).

(** The number of held batches. *)
Definition held_total (m : gmap Z (gmap Z HoldEntry5)) : Z :=
  map_fold (fun _ held acc => Z.of_nat (size held) + acc) 0 m.

Lemma held_total_insert m k held :
  held_total (<[k := held]> m) =
    held_total m - Z.of_nat (size (default ∅ (m !! k))) + Z.of_nat (size held).
Proof.
  assert (forall m' h, m' !! k = None -> held_total (<[k := h]> m') = Z.of_nat (size h) + held_total m')
    as Hins.
  { intros m' h Hn. unfold held_total. rewrite map_fold_insert_L; [done| |done]. intros. lia. }
  rewrite <- insert_delete_eq, Hins by apply lookup_delete_eq.
  destruct (m !! k) as [h|] eqn:E; simpl.
  - rewrite <- (insert_delete_id m k h E) at 2. rewrite Hins by apply lookup_delete_eq. lia.
  - rewrite delete_id by done. rewrite map_size_empty. lia.
Qed.

Lemma held_total_delete m k :
  held_total (delete k m) = held_total m - Z.of_nat (size (default ∅ (m !! k))).
Proof.
  destruct (m !! k) as [h|] eqn:E; simpl.
  - rewrite <- (insert_delete_id m k h E) at 2.
    rewrite held_total_insert, lookup_delete_eq. simpl. rewrite map_size_empty. lia.
  - rewrite delete_id, map_size_empty by done. lia.
Qed.

Lemma held_total_nonneg m : 0 <= held_total m.
Proof.
  unfold held_total. apply (map_fold_weak_ind (fun r _ => 0 <= r)); [lia|]. intros. lia.
Qed.

Lemma held_total_at m k : Z.of_nat (size (default ∅ (m !! k) : gmap Z HoldEntry5)) <= held_total m.
Proof. pose proof (held_total_delete m k). pose proof (held_total_nonneg (delete k m)). lia. Qed.

(** * What the updates of a session's state keep *)

Lemma slide_window_keeps fuel : forall cs seq,
  let cs' := slide_window fuel cs seq in
  next_expected cs' = next_expected cs /\ fenced cs' = fenced cs /\
  ClientState.session_epoch cs' = ClientState.session_epoch cs.
Proof.
  induction fuel as [|n IH]; intros cs seq; simpl; [done|]. destruct (_ && _); [|done].
  match goal with |- context [slide_window n ?x seq] => destruct (IH x seq) as (-> & -> & ->) end.
  done.
Qed.

Lemma mark_sequenced_keeps cs seq :
  let cs' := mark_sequenced cs seq in
  next_expected cs' = next_expected cs /\ fenced cs' = fenced cs /\
  ClientState.session_epoch cs' = ClientState.session_epoch cs.
Proof.
  unfold mark_sequenced.
  match goal with |- context [slide_window ?n ?x seq] =>
    destruct (slide_window_keeps n x seq) as (-> & -> & ->) end.
  by destruct (_ && _).
Qed.

Definition limit : Z := 9223372036854775808.

(** A session's state is well-formed when its frontier and epoch are in range. *)
Definition cs_ok (cs : ClientState5) : Prop :=
  0 <= next_expected cs <= limit /\ is_u32 (ClientState.session_epoch cs).

(** [cs'] is a later state of the session [cs]. *)
Definition later (cs cs' : ClientState5) : Prop :=
  next_expected cs <= next_expected cs' /\ (fenced cs = true -> fenced cs' = true).

Lemma later_refl cs : later cs cs.
Proof. done. Qed.
Lemma later_trans a b c : later a b -> later b c -> later a c.
Proof. intros [H1 H2] [H3 H4]. split; [lia|auto]. Qed.

Lemma set_next_expected_fields cs n :
  let cs' := set_next_expected cs n in
  next_expected cs' = n /\ fenced cs' = fenced cs /\
  ClientState.session_epoch cs' = ClientState.session_epoch cs.
Proof. unfold set_next_expected. by destruct (negb _). Qed.

Lemma mark_and_cover_ok cs seq :
  cs_ok cs -> seq_ok seq ->
  cs_ok (mark_and_cover cs seq) /\ later cs (mark_and_cover cs seq) /\
  fenced (mark_and_cover cs seq) = fenced cs.
Proof.
  unfold cs_ok, seq_ok, limit, later, mark_and_cover. intros [Hn He] Hs.
  destruct (mark_sequenced_keeps cs seq) as (Hm & Hf & Hse).
  destruct (seq >=? next_expected (mark_sequenced cs seq)) eqn:E; bool_props.
  - destruct (set_next_expected_fields (mark_sequenced cs seq) (seq +u 1)) as (-> & -> & ->).
    rewrite Hf, Hse. rewrite u64_id by (unfold is_u64; lia). rewrite Hm in E. conj_lia.
  - rewrite Hm, Hf, Hse. conj_lia.
Qed.

(** Releasing the batch at the frontier moves the frontier past it. *)
Lemma advance_ok cs seq :
  cs_ok cs -> seq_ok (next_expected cs) ->
  let cs' := advance_next_expected (mark_sequenced cs seq) in
  cs_ok cs' /\ next_expected cs' = next_expected cs + 1 /\ fenced cs' = fenced cs.
Proof.
  unfold cs_ok, seq_ok, limit. intros [Hn He] Hs. simpl.
  destruct (mark_sequenced_keeps cs seq) as (-> & -> & ->).
  rewrite u64_id by (unfold is_u64; lia). conj_lia.
Qed.

Lemma note_gap_fields cs now :
  next_expected (note_gap cs now) = next_expected cs /\ fenced (note_gap cs now) = fenced cs /\
  ClientState.session_epoch (note_gap cs now) = ClientState.session_epoch cs.
Proof. unfold note_gap. by destruct (_ && _). Qed.

Definition env_ok (e : Env) : Prop :=
  iter_ok e /\ is_u64 (hold_epoch e) /\
  forall k n, recovered_next_expected e !! k = Some n -> 0 <= n <= limit.

Lemma ApplyRecovered_ok e key cs :
  env_ok e -> cs_ok cs ->
  let cs' := ApplyRecoveredSequencer5State e key cs in
  cs_ok cs' /\ later cs cs' /\ fenced cs' = fenced cs.
Proof.
  intros (_ & _ & Hrec) Hcs. unfold ApplyRecoveredSequencer5State.
  destruct (negb _); [done|].
  destruct (recovered_next_expected e !! key) as [n|] eqn:E; [|done].
  apply Hrec in E. destruct Hcs as [Hn He].
  set (cs1 := if n >? next_expected cs then set_next_expected cs n else cs).
  assert (cs_ok cs1 /\ later cs cs1 /\ fenced cs1 = fenced cs) as Hcs1.
  { subst cs1. destruct (n >? next_expected cs) eqn:Egt; bool_props; [|done].
    destruct (set_next_expected_fields cs n) as (Hx & Hf & Hse).
    unfold cs_ok, later. rewrite Hx, Hf, Hse. conj_lia. }
  destruct (n >? 0); done.
Qed.

(** The tables the reconstruction reads. *)
Definition table_ok (t : gmap Z SessionTable.SessionEntry) : Prop :=
  SessionTable.wf t /\
  forall k en, SessionTable.view t k = Some en ->
    0 <= SessionTable.expected_seq en <= limit /\
    (0 < SessionTable.expected_seq en \/ SessionTable.entry_fenced en = true ->
     SessionTable.entry_active en = true).

(** The next sequence number a session may commit. *)
Definition expected_at (t : gmap Z SessionTable.SessionEntry) (key : Z) : Z :=
  match SessionTable.view t key with Some en => SessionTable.expected_seq en | None => 0 end.

Lemma flags_land w f : 0 <= f < 4294967296 -> Z.land (Z.land w 4294967295) f = Z.land w f.
Proof.
  intros Hf. change 4294967295 with (Z.ones 32). rewrite <- Z.land_assoc. f_equal.
  rewrite Z.land_comm, Z.land_ones by lia. by apply Z.mod_small.
Qed.

Lemma absorb_entry_ok en cs :
  0 <= SessionTable.expected_seq en <= limit -> cs_ok cs ->
  let cs' := absorb_entry en cs in
  cs_ok cs' /\ later cs cs' /\ fenced cs' = fenced cs || SessionTable.entry_fenced en /\
  SessionTable.expected_seq en <= next_expected cs'.
Proof.
  intros Hexp [Hn He]. unfold absorb_entry.
  rewrite flags_land by done. fold (SessionTable.entry_fenced en).
  match goal with |- context [if SessionTable.expected_seq en >? ?n then ?a else ?b] =>
    set (csx := if SessionTable.expected_seq en >? n then a else b) end.
  assert (next_expected csx = Z.max (next_expected cs) (SessionTable.expected_seq en) /\
    fenced csx = fenced cs /\ is_u32 (ClientState.session_epoch csx)) as (Hnx & Hfx & Hex).
  { subst csx. pose proof (u32_range (Z.shiftr (SessionTable.state_word en) 32)).
    cbn [next_expected upd].
    destruct (SessionTable.expected_seq en >? next_expected cs) eqn:Eg; bool_props.
    - match goal with |- context [set_next_expected ?x ?n] =>
        destruct (set_next_expected_fields x n) as (-> & -> & ->) end.
      simpl. unfold is_u32 in *. conj_lia.
    - simpl. unfold is_u32 in *. conj_lia. }
  clearbody csx. unfold cs_ok, later. destruct (SessionTable.entry_fenced en); simpl;
    rewrite ?Hfx, ?Hnx, ?orb_true_r, ?orb_false_r; conj_lia.
Qed.

Lemma Reconstruct_ok e t key cs :
  env_ok e -> table_ok t -> cs_ok cs ->
  let cs' := ReconstructClientStateFromSessionEntry e t key cs in
  cs_ok cs' /\ later cs cs' /\ fenced cs' = fenced cs || durable_fenced t key.
Proof.
  intros He [Hwf Hent] Hcs. unfold ReconstructClientStateFromSessionEntry, durable_fenced.
  destruct (ApplyRecovered_ok e key cs He Hcs) as (Hok1 & Hl1 & Hf1).
  set (cs1 := ApplyRecoveredSequencer5State e key cs) in *. clearbody cs1.
  unfold SessionTable.view in *.
  destruct (SessionTable.FindSessionEntry t key) as [i|] eqn:Ei; cbn [fmap option_fmap option_map];
    [|by rewrite orb_false_r].
  set (en := SessionTable.slot t i) in *.
  destruct (Hent key en) as [Hexp Hact]; [by rewrite Ei|]. rewrite flags_land by done.
  destruct (Z.land (SessionTable.state_word en) kSessionEntryFlagActive =? 0) eqn:Ea.
  { destruct (SessionTable.entry_fenced en) eqn:Ef; [|by rewrite orb_false_r].
    specialize (Hact (or_intror eq_refl)). unfold SessionTable.entry_active in Hact. by rewrite Ea in Hact. }
  destruct (absorb_entry_ok en cs1 Hexp Hok1) as (Hok2 & Hl2 & Hf2 & _).
  destruct (ApplyRecovered_ok e key (absorb_entry en cs1) He Hok2) as (Hok3 & Hl3 & Hf3).
  split; [exact Hok3|split; [|by rewrite Hf3, Hf2, Hf1]].
  eapply later_trans; [exact Hl1|]. by eapply later_trans.
Qed.

(** * The emitted-sequence trackers stay in range *)

Definition track_ok (t : ClientEmitTracker.t) : Prop :=
  (ClientEmitTracker.contiguous_max t = U64_MAX \/ seq_ok (ClientEmitTracker.contiguous_max t)) /\
  forall x, x ∈ ClientEmitTracker.pending t -> seq_ok x.

Lemma absorb_track_ok fuel : forall cm p,
  seq_ok cm -> (forall x, x ∈ p -> seq_ok x) -> track_ok (ClientEmitTracker.absorb fuel cm p).
Proof.
  induction fuel as [|n IH]; intros cm p Hcm Hp; simpl; [split; [by right|done]|].
  destruct (decide _) as [Hin|_]; [|split; [by right|done]]. apply IH; [by apply Hp|set_solver].
Qed.

Lemma MarkEmitted_track_ok t seq :
  track_ok t -> seq_ok seq -> track_ok (ClientEmitTracker.MarkEmitted t seq).
Proof.
  intros Ht Hs. destruct (Ht) as [Hm Hp]. unfold ClientEmitTracker.MarkEmitted.
  assert (track_ok (ClientEmitTracker.mk (ClientEmitTracker.contiguous_max t)
    ({[seq]} ∪ ClientEmitTracker.pending t))) as Hins.
  { split; [done|]. simpl. intros x [->%elem_of_singleton|?]%elem_of_union; auto. }
  repeat case_match; [|done|done|by apply absorb_track_ok|done].
  split; [right; unfold seq_ok; simpl; lia|done].
Qed.

(** * The invariant

    [c0] is the core when the call began; [base] is what the other shards hold. *)
Record inv (base : Z) (c0 c : Core) : Prop := {
  inv_hold k held seq he :
    c_held c !! k = Some held -> held !! seq = Some he -> hold_ok k seq he;
  inv_size : c_size c = held_total (c_held c) /\ c_size c <= kHoldBufferMaxEntries;
  inv_total : c_total c = u64 (base + c_size c);
  inv_with k : cheld c k <> ∅ -> k ∈ c_with_held c;
  inv_cs k : cs_ok (cstate c k);
  inv_later k : next_expected (cstate c0 k) <= next_expected (cstate c k);
  inv_emits k : StronglySorted Z.lt (emits c k) /\
    Forall (fun q => next_expected (cstate c0 k) <= q < next_expected (cstate c k)) (emits c k);
  inv_fence k : fenced (cstate c k) = true \/ durable_fenced (c_table c) k = true ->
    cheld c k = ∅;
  inv_silent k : fenced (cstate c0 k) = true \/ durable_fenced (c_table c0) k = true ->
    emits c k = [] /\ (fenced (cstate c k) = true \/ durable_fenced (c_table c) k = true);
  inv_table : table_ok (c_table c);
  inv_track k : track_ok (ctracker c k);
  inv_deferred : Forall batch_ok (c_deferred c);
  inv_durable k : durable_fenced (c_table c0) k = true -> durable_fenced (c_table c) k = true;
  inv_expected k : k <> 0 -> expected_at (c_table c) k = expected_at (c_table c0) k;
  inv_ready : Forall (fun p => is_batch p -> batch_ok p) (c_ready c);
}.

Lemma cstate_insert c k k' cs :
  default ClientState5_init (<[k := cs]> (c_states c) !! k') = if decide (k = k') then cs else cstate c k'.
Proof. unfold cstate. rewrite lookup_insert. by case_decide. Qed.
Lemma ctracker_insert c k k' t :
  default ClientEmitTracker.init (<[k := t]> (c_trackers c) !! k') =
    if decide (k = k') then t else ctracker c k'.
Proof. unfold ctracker. rewrite lookup_insert. by case_decide. Qed.
Lemma cheld_insert c k k' held :
  default ∅ (<[k := held]> (c_held c) !! k') = if decide (k = k') then held else cheld c k'.
Proof. unfold cheld. rewrite lookup_insert. by case_decide. Qed.

(** A session's state moves forward. *)
Lemma inv_put_state base c0 c k cs' c' :
  inv base c0 c -> cs_ok cs' -> later (cstate c k) cs' ->
  (fenced cs' = true -> cheld c k = ∅) ->
  c' = mkCore (<[k := cs']> (c_states c)) (c_trackers c) (c_held c) (c_size c) (c_total c)
         (c_with_held c) (c_deferred c) (c_table c) (c_ready c) ->
  inv base c0 c'.
Proof.
  intros [H1 H2 H3 H4 H5 H6 H7 H8 H9 H10 H11 H12 H13 H14 H15] Hok [Hl Hlf] Hf ->.
  assert (forall k', next_expected (cstate c k') <= next_expected
    (default ClientState5_init (<[k := cs']> (c_states c) !! k'))) as Hmono.
  { intros k'. rewrite cstate_insert. case_decide; subst; lia. }
  split; try done.
  - intros k'. unfold cstate at 1. simpl. rewrite cstate_insert. by case_decide.
  - intros k'. etransitivity; [apply H6|apply Hmono].
  - intros k'. destruct (H7 k') as [Hs Hb]. split; [done|].
    eapply Forall_impl; [exact Hb|]. simpl. intros q Hq. pose proof (Hmono k'). unfold cstate at 2. simpl. lia.
  - intros k'. unfold cstate at 1. simpl. rewrite cstate_insert. case_decide; [subst|apply H8].
    intros [?|?]; [by apply Hf|apply H8; by right].
  - intros k' Hk'. destruct (H9 k' Hk') as [He Hx]. split; [done|]. simpl.
    unfold cstate at 1. simpl. rewrite cstate_insert. case_decide; [subst|done].
    destruct Hx; [left; auto|by right].
Qed.

(** Its tracker is updated. *)
Lemma inv_put_tracker base c0 c k t c' :
  inv base c0 c -> track_ok t ->
  c' = mkCore (c_states c) (<[k := t]> (c_trackers c)) (c_held c) (c_size c) (c_total c)
         (c_with_held c) (c_deferred c) (c_table c) (c_ready c) ->
  inv base c0 c'.
Proof.
  intros [H1 H2 H3 H4 H5 H6 H7 H8 H9 H10 H11 H12 H13 H14 H15] Ht ->. split; try done.
  intros k'. unfold ctracker. simpl. rewrite ctracker_insert. by case_decide.
Qed.

Lemma emits_snoc c p k r :
  c_ready r = c_ready c ++ [p] ->
  emits r k = emits c k ++ (if decide (is_batch p /\ session_of p = k) then [batch_seq p] else []).
Proof.
  intros Hr. unfold emits. rewrite Hr, filter_app, fmap_app. f_equal.
  rewrite filter_cons. case_decide; done.
Qed.

(** Something that is not a batch is appended to [ready]. *)
Lemma inv_push_marker base c0 c p c' :
  inv base c0 c -> ~ is_batch p ->
  c' = mkCore (c_states c) (c_trackers c) (c_held c) (c_size c) (c_total c)
         (c_with_held c) (c_deferred c) (c_table c) (c_ready c ++ [p]) ->
  inv base c0 c'.
Proof.
  intros [H1 H2 H3 H4 H5 H6 H7 H8 H9 H10 H11 H12 H13 H14 H15] Hp ->.
  assert (forall k, emits (mkCore (c_states c) (c_trackers c) (c_held c) (c_size c) (c_total c)
         (c_with_held c) (c_deferred c) (c_table c) (c_ready c ++ [p])) k = emits c k) as He.
  { intros k. rewrite (emits_snoc c p) by done. rewrite decide_False by tauto. apply app_nil_r. }
  split; try done; [intros k; rewrite He; apply H7|intros k; rewrite He; apply H9|].
  simpl. apply Forall_app. split; [done|by constructor].
Qed.

(** The batch at the frontier of an unfenced session is released. *)
Lemma inv_release base c0 c k p cs' c' :
  inv base c0 c -> batch_ok p -> session_of p = k ->
  batch_seq p = next_expected (cstate c k) ->
  cs_ok cs' -> next_expected cs' = next_expected (cstate c k) + 1 -> fenced cs' = false ->
  fenced (cstate c k) = false -> durable_fenced (c_table c) k = false ->
  c' = mkCore (<[k := cs']> (c_states c)) (c_trackers c) (c_held c) (c_size c) (c_total c)
         (c_with_held c) (c_deferred c) (c_table c) (c_ready c ++ [p]) ->
  inv base c0 c'.
Proof.
  intros Hinv Hp Hk Hseq Hok Hn Hf Hf0 Hd ->.
  pose proof Hinv as [_ _ _ _ _ H6 H7 _ H9 _ _ _ _ _ H15].
  assert (~ (fenced (cstate c0 k) = true \/ durable_fenced (c_table c0) k = true)) as Hns.
  { intros [_ Hx]%H9. rewrite Hf0, Hd in Hx. naive_solver. }
  set (c1 := mkCore (<[k := cs']> (c_states c)) (c_trackers c) (c_held c) (c_size c) (c_total c)
         (c_with_held c) (c_deferred c) (c_table c) (c_ready c)).
  assert (inv base c0 c1) as Hinv1.
  { eapply (inv_put_state base c0 c k cs'); [done|done| | |done].
    - split; [lia|]. by rewrite Hf0.
    - by rewrite Hf. }
  assert (next_expected (cstate c1 k) = next_expected (cstate c k) + 1) as Hn1.
  { unfold cstate at 1, c1. simpl. by rewrite cstate_insert, decide_True. }
  destruct Hinv1 as [G1 G2 G3 G4 G5 G6 G7 G8 G9 G10 G11 G12 G13 G14 G15].
  assert (forall k', emits (mkCore (<[k := cs']> (c_states c)) (c_trackers c) (c_held c) (c_size c)
    (c_total c) (c_with_held c) (c_deferred c) (c_table c) (c_ready c ++ [p])) k' =
    emits c k' ++ (if decide (k = k') then [batch_seq p] else [])) as He.
  { intros k'. rewrite (emits_snoc c p) by done. destruct Hp as [Hp _].
    repeat case_decide; try done; naive_solver. }
  split; try done; [| |simpl; apply Forall_app; split; [done|by constructor]];
    intros k'; rewrite He; case_decide as Hkk; rewrite ?app_nil_r; try done.
  - subst k'. destruct (H7 k) as [Hs Hb]. rewrite Forall_forall in Hb. split.
    + apply StronglySorted_app_2; [|done|repeat constructor].
      intros x y Hx ->%list_elem_of_singleton. specialize (Hb x Hx). lia.
    + apply Forall_app. split; [|repeat constructor].
      * apply Forall_forall. intros q Hq%Hb. fold c1. change (cstate _ k) with (cstate c1 k) at 2. lia.
      * rewrite Hseq. apply H6.
      * change (cstate _ k) with (cstate c1 k). lia.
  - apply G7.
  - subst k'. intros Hx. destruct (Hns Hx).
  - apply G9.
Qed.

(** A batch enters the hold buffer. *)
Lemma inv_hold_insert base c0 c k seq he c' :
  inv base c0 c -> hold_ok k seq he -> cheld c k !! seq = None ->
  c_size c < kHoldBufferMaxEntries ->
  fenced (cstate c k) = false -> durable_fenced (c_table c) k = false ->
  c' = mkCore (c_states c) (c_trackers c) (<[k := <[seq := he]> (cheld c k)]> (c_held c))
         (c_size c +u 1) (c_total c +u 1) ({[k]} ∪ c_with_held c) (c_deferred c) (c_table c)
         (c_ready c) ->
  inv base c0 c'.
Proof.
  intros [H1 [H2 H2'] H3 H4 H5 H6 H7 H8 H9 H10 H11 H12 H13 H14 H15] Hhe Hnone Hlt Hf Hd ->.
  pose proof (held_total_nonneg (c_held c)).
  assert (c_size c +u 1 = c_size c + 1) as Hsz
    by (apply u64_id; unfold is_u64, kHoldBufferMaxEntries in *; lia).
  split; try done; simpl.
  - intros k' held seq' he'. rewrite lookup_insert. case_decide; [subst; intros [= <-]|apply H1].
    rewrite lookup_insert. case_decide; [subst; by intros [= <-]|]. unfold cheld.
    destruct (c_held c !! k') as [h|] eqn:E; [|done]. by apply H1.
  - rewrite Hsz, held_total_insert. fold (cheld c k). rewrite map_size_insert_None by done. lia.
  - rewrite Hsz, H3. unfold u64. rewrite Zplus_mod_idemp_l. f_equal. lia.
  - intros k'. unfold cheld. simpl. rewrite cheld_insert. case_decide; [set_solver|].
    intros Hk'. apply H4 in Hk'. set_solver.
  - intros k' Hk'. unfold cheld. simpl. rewrite cheld_insert. case_decide; [subst|by apply H8].
    unfold cstate in *. simpl in *. rewrite Hf, Hd in Hk'. naive_solver.
Qed.

(** One leaves it. *)
Lemma inv_erase base c0 c k seq he c' :
  inv base c0 c -> cheld c k !! seq = Some he ->
  c' = mkCore (c_states c) (c_trackers c) (<[k := delete seq (cheld c k)]> (c_held c))
         (c_size c -u 1) (c_total c -u 1) (c_with_held c) (c_deferred c) (c_table c) (c_ready c) ->
  inv base c0 c'.
Proof.
  intros [H1 [H2 H2'] H3 H4 H5 H6 H7 H8 H9 H10 H11 H12 H13 H14 H15] Hhe ->.
  assert (size (delete seq (cheld c k)) = pred (size (cheld c k))) as Hdel
    by (apply map_size_delete_Some; by rewrite Hhe).
  assert (size (cheld c k) <> 0%nat) as Hpos.
  { intros Hz%map_size_empty_inv. by rewrite Hz, lookup_empty in Hhe. }
  pose proof (held_total_at (c_held c) k) as Hat. fold (cheld c k) in Hat.
  assert (c_size c -u 1 = c_size c - 1) as Hsz
    by (apply u64_id; unfold is_u64, kHoldBufferMaxEntries in *; lia).
  split; try done; simpl.
  - intros k' held seq' he'. rewrite lookup_insert. case_decide; [subst; intros [= <-]|apply H1].
    intros [_ Hl]%lookup_delete_Some. unfold cheld in Hl.
    destruct (c_held c !! k') as [h|] eqn:E; [|done]. by eapply H1.
  - rewrite Hsz, held_total_insert. fold (cheld c k). lia.
  - rewrite Hsz, H3. unfold u64. rewrite Zminus_mod_idemp_l. f_equal. lia.
  - intros k'. unfold cheld. simpl. rewrite cheld_insert. case_decide; [subst|apply H4].
    intros Hne. apply H4. intros Hz. by rewrite Hz, lookup_empty in Hhe.
  - intros k' Hk'. unfold cheld. simpl. rewrite cheld_insert. case_decide; [subst|by apply H8].
    apply H8 in Hk'. by rewrite Hk', lookup_empty in Hhe.
Qed.

Lemma cheld_delete c k k' :
  default ∅ (delete k (c_held c) !! k') = if decide (k = k') then ∅ else cheld c k'.
Proof. unfold cheld. rewrite lookup_delete. by case_decide. Qed.

(** A session with nothing held is forgotten by the hold buffer. *)
Lemma inv_forget base c0 c k held' c' :
  inv base c0 c -> cheld c k = ∅ -> held' = c_held c \/ held' = delete k (c_held c) ->
  c' = mkCore (c_states c) (c_trackers c) held' (c_size c) (c_total c)
         (c_with_held c ∖ {[k]}) (c_deferred c) (c_table c) (c_ready c) ->
  inv base c0 c'.
Proof.
  intros [H1 [H2 H2'] H3 H4 H5 H6 H7 H8 H9 H10 H11 H12 H13 H14 H15] Hz Hh ->.
  assert (held_total held' = held_total (c_held c)) as Ht.
  { destruct Hh as [->| ->]; [done|]. rewrite held_total_delete. fold (cheld c k).
    rewrite Hz, map_size_empty. lia. }
  assert (forall k', default ∅ (held' !! k') = cheld c k') as Hc.
  { intros k'. destruct Hh as [->| ->]; [done|]. rewrite cheld_delete. case_decide; by subst. }
  split; try done; simpl.
  - intros k' held seq he Hk'. apply H1. destruct Hh as [->| ->]; [done|].
    by apply lookup_delete_Some in Hk' as [_ ?].
  - by rewrite Ht.
  - intros k'. unfold cheld. simpl. rewrite Hc. intros Hk'. specialize (H4 k' Hk').
    assert (k' <> k) by congruence. set_solver.
  - intros k' Hk'. unfold cheld. simpl. rewrite Hc. by apply H8.
Qed.

(** A fence: the session's state and its durable entry are fenced and all its
    batches leave the shard. *)
Lemma inv_fenced base c0 c k cs' t' c' :
  inv base c0 c -> cs_ok cs' -> later (cstate c k) cs' -> fenced cs' = true ->
  table_ok t' -> (forall k', k' <> k -> durable_fenced t' k' = durable_fenced (c_table c) k') ->
  (durable_fenced (c_table c) k = true -> durable_fenced t' k = true) ->
  (forall k', k' <> 0 -> expected_at t' k' = expected_at (c_table c) k') ->
  c' = mkCore (<[k := cs']> (c_states c)) (delete k (c_trackers c)) (delete k (c_held c))
         (c_size c -u Z.of_nat (size (cheld c k))) (c_total c -u Z.of_nat (size (cheld c k)))
         (c_with_held c ∖ {[k]}) (filter (fun p => session_of p <> k) (c_deferred c)) t'
         (c_ready c) ->
  inv base c0 c'.
Proof.
  intros [H1 [H2 H2'] H3 H4 H5 H6 H7 H8 H9 H10 H11 H12 H13 H14 H15] Hok [Hl Hlf] Hf Ht Hother Hself Hexp ->.
  pose proof (held_total_at (c_held c) k) as Hat. fold (cheld c k) in Hat.
  assert (c_size c -u Z.of_nat (size (cheld c k)) = c_size c - Z.of_nat (size (cheld c k))) as Hsz
    by (apply u64_id; unfold is_u64, kHoldBufferMaxEntries in *; lia).
  assert (forall k', next_expected (cstate c k') <= next_expected
    (default ClientState5_init (<[k := cs']> (c_states c) !! k'))) as Hmono.
  { intros k'. rewrite cstate_insert. case_decide; subst; lia. }
  split; try done; simpl.
  - intros k' held seq he [_ Hk']%lookup_delete_Some. by apply H1.
  - rewrite Hsz, held_total_delete. fold (cheld c k). lia.
  - rewrite Hsz, H3. unfold u64. rewrite Zminus_mod_idemp_l. f_equal. lia.
  - intros k'. unfold cheld. simpl. rewrite cheld_delete. case_decide; [done|].
    intros Hk'%H4. set_solver.
  - intros k'. unfold cstate. simpl. rewrite cstate_insert. by case_decide.
  - intros k'. etransitivity; [apply H6|apply Hmono].
  - intros k'. destruct (H7 k') as [Hs Hb]. split; [done|].
    eapply Forall_impl; [exact Hb|]. simpl. intros q Hq. pose proof (Hmono k'). unfold cstate at 2. simpl. lia.
  - intros k'. unfold cheld. simpl. rewrite cheld_delete. case_decide; [done|].
    unfold cstate. simpl. rewrite cstate_insert, decide_False, Hother by done. apply H8.
  - intros k' Hk'. destruct (H9 k' Hk') as [He Hx]. split; [done|].
    unfold cstate. simpl. rewrite cstate_insert. case_decide; [subst; by left|].
    by rewrite Hother by done.
  - intros k'. unfold ctracker. simpl. rewrite lookup_delete. case_decide; [|apply H11].
    split; [by left|set_solver].
  - apply Forall_forall. intros p [_ Hp]%list_elem_of_filter. rewrite Forall_forall in H12. auto.
  - intros k' Hk'%H13. destruct (decide (k' = k)) as [->|Hne]; [auto|by rewrite Hother].
  - intros k' Hk'. by rewrite Hexp, H14.
Qed.

(** A batch is deferred to the next call. *)
Lemma inv_defer base c0 c p c' :
  inv base c0 c -> batch_ok p ->
  c' = mkCore (c_states c) (c_trackers c) (c_held c) (c_size c) (c_total c)
         (c_with_held c) (c_deferred c ++ [p]) (c_table c) (c_ready c) ->
  inv base c0 c'.
Proof.
  intros [H1 H2 H3 H4 H5 H6 H7 H8 H9 H10 H11 H12 H13 H14 H15] Hp ->. split; try done.
  simpl. apply Forall_app. split; [done|by constructor].
Qed.

(** * Fencing the durable entry of a session *)

Lemma view_zero t : SessionTable.view t 0 = None.
Proof. done. Qed.

Lemma fresh_entry_facts k :
  SessionTable.expected_seq (SessionTable.fresh_entry k) = 0 /\
  SessionTable.entry_fenced (SessionTable.fresh_entry k) = false.
Proof. done. Qed.

(** Claiming an entry changes nothing a reader of the table can act on. *)
Lemma claim_table_ok t key i t1 :
  table_ok t -> key <> 0 -> SessionTable.FindOrCreateSessionEntry t key = (Some i, t1) ->
  table_ok t1 /\ SessionTable.view t1 key = Some (SessionTable.slot t1 i) /\
  forall k, durable_fenced t1 k = durable_fenced t k /\ expected_at t1 k = expected_at t k.
Proof.
  intros [Hwf Hent] Hk Hrun. pose proof (SessionTable.FindOrCreate_spec t key Hwf Hk) as Hc.
  rewrite Hrun in Hc. destruct Hc as (Hwf1 & Hi & Hki & Hs & Ho).
  assert (SessionTable.view t1 key = Some (SessionTable.slot t1 i)) as Hv.
  { apply SessionTable.view_iff; [done..|]. eauto. }
  split; [split; [exact Hwf1|]|split; [exact Hv|]].
  - intros k en Hen. destruct (decide (k = 0)) as [->|Hk0]; [done|].
    destruct (decide (k = key)) as [->|Hne]; [|rewrite Ho in Hen by done; by eapply Hent].
    rewrite Hv, Hs in Hen. injection Hen as <-.
    destruct (SessionTable.view t key) as [en|] eqn:E; [by eapply Hent|].
    simpl. unfold limit. split; [lia|]. by intros [?|?].
  - intros k. destruct (decide (k = 0)) as [->|Hk0]; [done|]. unfold durable_fenced, expected_at.
    destruct (decide (k = key)) as [->|Hne]; [|by rewrite Ho]. rewrite Hv, Hs.
    by destruct (SessionTable.view t key).
Qed.

Lemma fence_table_ok t key epoch i t1 hwm hs ok t2 :
  table_ok t -> key <> 0 -> is_u32 epoch -> epoch <> 0 ->
  SessionTable.FindOrCreateSessionEntry t key = (Some i, t1) ->
  SessionTable.PublishSessionEntry t1 key (SessionTable.mkSnapshot epoch
    (SessionTable.expected_seq (SessionTable.slot t1 i)) hwm hs true) = (ok, t2) ->
  ok = true /\ table_ok t2 /\ durable_fenced t2 key = true /\
  (forall k, k <> key -> durable_fenced t2 k = durable_fenced t k) /\
  forall k, k <> 0 -> expected_at t2 k = expected_at t k.
Proof.
  intros Ht Hk Hep Hez Hclaim Hpub.
  set (snap := SessionTable.mkSnapshot _ _ _ _ _) in Hpub.
  destruct (claim_table_ok _ _ _ _ Ht Hk Hclaim) as ([Hwf1 Hent1] & Hv1 & Hd1).
  destruct (SessionTable.publish_view t1 key snap ok t2 Hwf1 Hk Hez Hpub) as (Hwf2 & Ho & Hok).
  destruct ok; [|destruct Hok as (_ & Hn & _); congruence].
  rewrite Hv1 in Hok. cbn [default from_option id] in Hok.
  destruct (SessionTable.publish_entry_fields (SessionTable.slot t1 i) snap Hep)
    as (_ & Hx & _ & _ & Hf & Ha & _).
  subst snap. cbn [SessionTable.snap_expected_seq SessionTable.snap_fenced] in *.
  rewrite Z.max_id in Hx. rewrite orb_true_r in Hf.
  split; [done|]. split; [split; [exact Hwf2|]|split; [|split]].
  - intros k en Hen. destruct (decide (k = 0)) as [->|Hk0]; [done|].
    destruct (decide (k = key)) as [->|Hne]; [|rewrite Ho in Hen by done; by eapply Hent1].
    rewrite Hok in Hen. injection Hen as <-. rewrite Hx, Ha. split; [by eapply Hent1|done].
  - unfold durable_fenced. by rewrite Hok.
  - intros k Hne. rewrite <- (proj1 (Hd1 k)). destruct (decide (k = 0)) as [->|Hk0]; [done|].
    unfold durable_fenced. by rewrite Ho.
  - intros k Hk0. rewrite <- (proj2 (Hd1 k)). unfold expected_at.
    destruct (decide (k = key)) as [->|Hne]; [by rewrite Hok, Hv1, Hx|by rewrite Ho].
Qed.
