(* ===== verification/ClassifierProofs.v ===== *)
(** The classifier of the true client chain keeps its invariant. *)

From S2P Require Import Prelude Sorting Frontier ClientState Dedup SessionTable Order5State Classifier ClassifierInv.

Section proofs.
  Context `{StdSort} (e : Env).
  Context (Htcc : true_client_chain e = true) (Hfifo : fifo_ablation e = false) (He : env_ok e).
  Context (base : Z) (c0 : Core).

Abbreviation I s := (inv base c0 (core s)).

(** What a step on session [key] promises besides the invariant: the table is
    untouched and no fence is lost. *)
Definition keeps (s s' : St) (key : Z) : Prop :=
  session_table s' = session_table s /\
  (fenced (state_at s key) = true -> fenced (state_at s' key) = true).

Definition opened (s : St) (key : Z) : Prop :=
  durable_fenced (session_table s) key = true -> fenced (state_at s key) = true.

Lemma keeps_refl s key : keeps s s key.
Proof. done. Qed.
Lemma keeps_trans s1 s2 s3 key : keeps s1 s2 key -> keeps s2 s3 key -> keeps s1 s3 key.
Proof. intros [H1 H2] [H3 H4]. split; [congruence|auto]. Qed.
Lemma keeps_opened s s' key : keeps s s' key -> opened s key -> opened s' key.
Proof. intros [Ht Hf] Ho. unfold opened. rewrite Ht. auto. Qed.

Lemma state_at_put s k cs : state_at (put_state s k cs) k = cs.
Proof. unfold state_at. simpl. by rewrite lookup_insert_eq. Qed.

Lemma core_keeps s s' key : core s' = core s -> keeps s s' key.
Proof. intros Hc. injection Hc. intros. split; [done|]. unfold state_at. by congruence. Qed.
Lemma core_inv s s' : core s' = core s -> I s -> I s'.
Proof. by intros ->. Qed.

Lemma emit_once_core s key id p :
  let s' := (emit_once s key id p).2 in
  core s' = core s \/
  core s' = mkCore (client_state s)
    (<[key := ClientEmitTracker.MarkEmitted (tracker_at s key) (batch_seq p)]> (client_emitted_tracker s))
    (hold_buffer s) (hold_buffer_size s) (total_hold_size s) (clients_with_held_batches s)
    (deferred_level5 s) (session_table s) (ready s ++ [p]).
Proof.
  unfold emit_once, CheckAndInsertBatchId.
  destruct (FastDeduplicator.check_and_insert (dedup s) id) as [[] d]; [by left|by right].
Qed.

(** Releasing a batch at the frontier, duplicate id or not. *)
Lemma release_inv s key id p cs' :
  I s -> batch_ok p -> session_of p = key -> batch_seq p = next_expected (state_at s key) ->
  cs_ok cs' -> next_expected cs' = next_expected (state_at s key) + 1 -> fenced cs' = false ->
  fenced (state_at s key) = false -> durable_fenced (session_table s) key = false ->
  let s' := (emit_once (put_state s key cs') key id p).2 in
  I s' /\ keeps s s' key /\ hold_buffer s' = hold_buffer s /\
  clients_with_held_batches s' = clients_with_held_batches s /\ state_at s' key = cs'.
Proof.
  intros Hinv Hp Hk Hseq Hok Hn Hf Hf0 Hd s'.
  assert (I (put_state s key cs')) as Hput.
  { eapply (inv_put_state base c0 (core s) key cs'); [done|done| | |done].
    - split; [change (cstate (core s) key) with (state_at s key); lia|].
      change (cstate (core s) key) with (state_at s key). by rewrite Hf0.
    - by rewrite Hf. }
  destruct (emit_once_core (put_state s key cs') key id p) as [Hc|Hc]; fold s' in Hc;
    pose proof Hc as Hcore; injection Hc as E1 E2 E3 E4 E5 E6 E7 E8 E9.
  - split; [by rewrite Hcore|]. split; [|split; [done|split; [done|]]].
    + split; [done|]. by rewrite Hf0.
    + unfold state_at. rewrite E1. simpl. by rewrite lookup_insert_eq.
  - split; [|split; [|split; [done|split; [done|]]]].
    + unfold core. rewrite E1, E2, E3, E4, E5, E6, E7, E8, E9. simpl.
      set (c1 := mkCore (<[key := cs']> (client_state s)) (client_emitted_tracker s) (hold_buffer s)
        (hold_buffer_size s) (total_hold_size s) (clients_with_held_batches s) (deferred_level5 s)
        (session_table s) (ready s ++ [p])).
      assert (inv base c0 c1) as Hrel by (by eapply (inv_release base c0 (core s) key p cs')).
      eapply (inv_put_tracker base c0 c1); [done| |done].
      apply MarkEmitted_track_ok; [apply (inv_track base c0 c1 Hrel key)|apply Hp].
    + split; [done|]. by rewrite Hf0.
    + unfold state_at. rewrite E1. simpl. by rewrite lookup_insert_eq.
Qed.

Lemma put_state_inv s key cs' :
  I s -> cs_ok cs' -> later (state_at s key) cs' -> fenced cs' = fenced (state_at s key) ->
  I (put_state s key cs') /\ keeps s (put_state s key cs') key.
Proof.
  intros Hinv Hok Hl Hf. split.
  - eapply (inv_put_state base c0 (core s) key cs'); [done|done|done| |done].
    intros Hfe. apply (inv_fence base c0 (core s) Hinv). left. change (fenced (state_at s key) = true). congruence.
  - split; [done|]. by rewrite state_at_put, Hf.
Qed.

Lemma classify_late_inv s key p :
  I s -> batch_ok p ->
  I (classify_late e s key p true) /\ keeps s (classify_late e s key p true) key.
Proof.
  intros Hinv Hp. unfold classify_late.
  destruct (mark_sequenced_keeps (state_at s key) (batch_seq p)) as (Hn & Hf & Hse).
  pose proof (inv_cs base c0 (core s) Hinv key) as Hcs. change (cstate (core s) key) with (state_at s key) in Hcs.
  destruct (put_state_inv s key (mark_sequenced (state_at s key) (batch_seq p)) Hinv) as [Hinv1 Hk1];
    [unfold cs_ok; by rewrite Hn, Hse|split; [by rewrite Hn|by rewrite Hf]|done|].
  set (s1 := put_state s key _) in *. clearbody s1.
  pose proof (core_dedup s1 (cached_batch_id p)) as Hd.
  destruct (CheckAndInsertBatchId s1 (cached_batch_id p)) as [[] s2]; simpl in Hd.
  { split; [by rewrite Hd|]. eapply keeps_trans; [exact Hk1|by apply core_keeps]. }
  match goal with |- I ?x /\ _ => assert (core x = core s2) as Hc end.
  { unfold core at 1. simpl. change (core (record_late_drop e (accumulate_logical_only e s2 (broker_id p)
      (cached_start_logical_offset p) (num_msg p) (cached_pbr_absolute_index p)) (client_id p)) = core s2).
    unfold record_late_drop. by rewrite core_stats, core_logical. }
  rewrite Hd in Hc. split; [by rewrite Hc|]. eapply keeps_trans; [exact Hk1|by apply core_keeps].
Qed.

(** The part of [classify_ahead] after the gap was noted. *)
Definition hold_or_defer (s : St) (key : Z) (p : PendingBatch5) : St :=
  if hold_buffer_size s >=? kHoldBufferMaxEntries then
    if Z.of_nat (length (deferred_level5 s)) <? kDeferredL5MaxEntries then
      s <| deferred_level5 := deferred_level5 s ++ [p] |>
    else if existsb (fun slot => Order5SlotMatches slot (broker_id p) (slot_offset p)
                                   (cached_pbr_absolute_index p)) (backpressured_level5_slots s)
    then s
    else s <| backpressured_level5_slots := backpressured_level5_slots s ++
                [mkSlot (broker_id p) (slot_offset p) (cached_pbr_absolute_index p)] |>
  else
    match held_at s key !! batch_seq p with
    | Some _ => s <| hold_buffer := <[key := held_at s key]> (hold_buffer s) |>
    | None =>
        let stream_map := <[batch_seq p := mkHold p (meta_of p) (SteadyNowNs e s).1]> (held_at s key) in
        let s := record_hold_insert e ((SteadyNowNs e s).2 <| hold_buffer := <[key := stream_map]> (hold_buffer s) |>)
                   (client_id p) stream_map in
        push_ready (s <| hold_buffer_size := hold_buffer_size s +u 1 |>
                      <| total_hold_size := total_hold_size s +u 1 |>
                      <| clients_with_held_batches := {[key]} ∪ clients_with_held_batches s |>)
          (held_marker p)
    end.

Lemma classify_ahead_unfold s key p :
  classify_ahead e s key p true =
    let s1 := put_state (SteadyNowNs e s).2 key
                (note_gap (state_at s key) (SteadyNowNs e s).1) in
    hold_or_defer s1 key p.
Proof. reflexivity. Qed.

Lemma held_marker_not_batch p : ~ is_batch (held_marker p).
Proof. intros [_ Hm]. change (true = false) in Hm. done. Qed.

Lemma hold_or_defer_inv s key p :
  I s -> batch_ok p -> session_of p = key -> fenced (state_at s key) = false ->
  durable_fenced (session_table s) key = false ->
  I (hold_or_defer s key p) /\ keeps s (hold_or_defer s key p) key.
Proof.
  intros Hinv Hp Hk Hf Hd. unfold hold_or_defer.
  destruct (hold_buffer_size s >=? kHoldBufferMaxEntries) eqn:Esz; bool_props.
  { case_match; [|by case_match]. split; [|done]. by eapply (inv_defer base c0 (core s)). }
  destruct (held_at s key !! batch_seq p) eqn:Eh.
  - assert (<[key := held_at s key]> (hold_buffer s) = hold_buffer s) as Hid.
    { apply insert_id. unfold held_at in *. by destruct (hold_buffer s !! key). }
    rewrite Hid. split; [|done]. exact Hinv.
  - match goal with |- context [record_hold_insert e ?x ?c ?m] =>
      set (s1 := x); set (s2 := record_hold_insert e s1 c m) end.
    assert (core s2 = core s1) as Hc by apply core_stats.
    injection Hc as E1 E2 E3 E4 E5 E6 E7 E8 E9. split.
    + eapply (inv_push_marker base c0 (core (s2 <| hold_buffer_size := hold_buffer_size s2 +u 1 |>
        <| total_hold_size := total_hold_size s2 +u 1 |>
        <| clients_with_held_batches := {[key]} ∪ clients_with_held_batches s2 |>)));
        [|apply held_marker_not_batch|done].
      eapply (inv_hold_insert base c0 (core s) key (batch_seq p) (mkHold p (meta_of p) (SteadyNowNs e s).1));
        [done|split; [exact Hp|by split]|done..|].
      unfold core. simpl. by rewrite E1, E2, E3, E4, E5, E6, E7, E8, E9.
    + split; [exact E8|]. unfold state_at. simpl. by rewrite E1.
Qed.

Lemma classify_ahead_inv s key p :
  I s -> batch_ok p -> session_of p = key -> fenced (state_at s key) = false ->
  durable_fenced (session_table s) key = false ->
  I (classify_ahead e s key p true) /\ keeps s (classify_ahead e s key p true) key.
Proof.
  intros Hinv Hp Hk Hf Hd. rewrite classify_ahead_unfold.
  set (s0 := (SteadyNowNs e s).2). assert (I s0) as Hinv0 by done.
  destruct (note_gap_fields (state_at s key) (SteadyNowNs e s).1) as (Hn & Hfn & Hse).
  pose proof (inv_cs base c0 (core s) Hinv key) as Hcs. change (cstate (core s) key) with (state_at s key) in Hcs.
  destruct (put_state_inv s0 key (note_gap (state_at s key) (SteadyNowNs e s).1) Hinv0) as [Hinv1 Hk1];
    [unfold cs_ok; by rewrite Hn, Hse|split; [by rewrite Hn|by rewrite Hfn]|done|].
  destruct (hold_or_defer_inv (put_state s0 key (note_gap (state_at s key) (SteadyNowNs e s).1)) key p)
    as [Hinv2 Hk2]; [done..|by rewrite state_at_put, Hfn|done|].
  split; [done|]. eapply keeps_trans; [exact Hk1|exact Hk2].
Qed.

Lemma classify_one_inv s key p :
  I s -> batch_ok p -> session_of p = key -> opened s key ->
  I (classify_one e s key p true) /\ keeps s (classify_one e s key p true) key.
Proof.
  intros Hinv Hp Hk Ho. unfold classify_one.
  pose proof (inv_cs base c0 (core s) Hinv key) as Hcs. change (cstate (core s) key) with (state_at s key) in Hcs.
  destruct (fenced (state_at s key)) eqn:Hf; simpl.
  { match goal with |- I ?x /\ _ => assert (core x = core s) as Hc end.
    { unfold record_late_drop. by rewrite core_stats, core_logical. }
    split; [by rewrite Hc|by apply core_keeps]. }
  assert (durable_fenced (session_table s) key = false) as Hd.
  { destruct (durable_fenced _ _) eqn:E; [|done]. rewrite (Ho E) in Hf. done. }
  destruct (is_duplicate _ _ && _).
  { unfold terminalize_batch. split; [by rewrite core_terminalize|apply core_keeps, core_terminalize]. }
  destruct (ClientEmitTracker.IsEmitted _ _).
  { destruct (mark_and_cover_ok (state_at s key) (batch_seq p) Hcs) as (Hok & Hl & Hfe); [apply Hp|].
    destruct (put_state_inv s key (mark_and_cover (state_at s key) (batch_seq p)) Hinv Hok Hl Hfe) as [Hi1 Hk1].
    unfold terminalize_batch. split; [by rewrite core_terminalize|].
    eapply keeps_trans; [exact Hk1|apply core_keeps, core_terminalize]. }
  rewrite Hfifo. destruct (Z.eqb_spec (batch_seq p) (next_expected (state_at s key))) as [Heq|Hne].
  { destruct (advance_ok (state_at s key) (batch_seq p) Hcs) as (Hok & Hn & Hfe); [rewrite <- Heq; apply Hp|].
    destruct (release_inv s key (cached_batch_id p) p (advance_next_expected
      (mark_sequenced (state_at s key) (batch_seq p)))) as (Hi & Hk1 & _); try done. by rewrite Hfe. }
  destruct (batch_seq p <? next_expected (state_at s key)); [by apply classify_late_inv|].
  by apply classify_ahead_inv.
Qed.

(** ** Fencing *)

Lemma purge_core s key :
  is_u64 (hold_buffer_size s) -> is_u64 (total_hold_size s) ->
  core (purge_fenced_session e s key) =
    mkCore (client_state s) (delete key (client_emitted_tracker s)) (delete key (hold_buffer s))
      (hold_buffer_size s -u Z.of_nat (size (held_at s key)))
      (total_hold_size s -u Z.of_nat (size (held_at s key)))
      (clients_with_held_batches s ∖ {[key]})
      (filter (fun p => session_of p <> key) (deferred_level5 s)) (session_table s) (ready s).
Proof.
  intros H2 H3. unfold purge_fenced_session, held_at.
  destruct (hold_buffer s !! key) as [held|] eqn:E.
  - match goal with |- context [foldl ?f s ?l] => pose proof (core_retires e l s) as Hc;
      set (s1 := foldl f s l) in * end.
    injection Hc as E1 E2 E3 E4 E5 E6 E7 E8 E9. unfold core. simpl.
    by rewrite E1, E2, E3, E4, E5, E6, E7, E8, E9.
  - cbn [default from_option id]. rewrite map_size_empty, !Z.sub_0_r, !u64_id by done.
    by rewrite (delete_id (hold_buffer s)) by done.
Qed.

Lemma inv_sizes s : I s -> is_u64 (hold_buffer_size s) /\ is_u64 (total_hold_size s).
Proof.
  intros Hinv. destruct (inv_size _ _ _ Hinv) as [H1 H2]. pose proof (inv_total _ _ _ Hinv) as H3.
  pose proof (held_total_nonneg (c_held (core s))).
  change (c_size (core s)) with (hold_buffer_size s) in *.
  change (c_total (core s)) with (total_hold_size s) in H3. rewrite H3.
  split; [unfold is_u64, kHoldBufferMaxEntries in *; lia|apply u64_range].
Qed.

Lemma record_fence_inv s key :
  I s ->
  I (record_fence e s key) /\
  (forall k, k <> key -> state_at (record_fence e s key) k = state_at s k).
Proof.
  intros Hinv. unfold record_fence. rewrite Htcc. cbn [negb].
  destruct (CanFenceSessionEpoch _) eqn:Hcan; [|done]. cbn [negb].
  unfold CanFenceSessionEpoch in Hcan. bool_props.
  destruct (decide (key = 0)) as [->|Hk]; [by split|].
  pose proof (inv_table _ _ _ Hinv) as Ht. pose proof (inv_cs _ _ _ Hinv key) as Hcs.
  change (c_table (core s)) with (session_table s) in Ht.
  change (cstate (core s) key) with (state_at s key) in Hcs.
  destruct (SessionTable.FindOrCreateSessionEntry (session_table s) key) as [[i|] t1] eqn:Ef.
  2: { pose proof (SessionTable.FindOrCreate_spec _ key (proj1 Ht) Hk) as Hc. rewrite Ef in Hc.
       destruct Hc as (-> & _ & _). split; [|done]. by destruct s. }
  set (cs' := (fence (state_at s key)) <| committed_hwm := _ |>).
  assert (fenced cs' = true /\ next_expected cs' = next_expected (state_at s key) /\
    ClientState.session_epoch cs' = ClientState.session_epoch (state_at s key)) as (Hf' & Hn' & Hse').
  { unfold cs', fence. by destruct (fenced (state_at s key)) eqn:Ex. }
  change (session_table (put_state (s <| session_table := t1 |>) key cs')) with t1.
  destruct (SessionTable.PublishSessionEntry t1 key _) as [ok t2] eqn:Ep.
  rewrite Hse' in Ep. destruct Hcs as [Hn He'].
  destruct (fence_table_ok _ _ _ _ _ _ _ _ _ Ht Hk He' Hcan Ef Ep) as (-> & Ht2 & Hd2 & Ho2 & Hx2).
  match goal with |- context [purge_fenced_session e ?x key] => set (s2 := x) end.
  assert (core s2 = mkCore (<[key := cs']> (client_state s)) (client_emitted_tracker s) (hold_buffer s)
    (hold_buffer_size s) (total_hold_size s) (clients_with_held_batches s) (deferred_level5 s) t2
    (ready s)) as Hc2 by (subst s2; by destruct (negb _)).
  assert (core (purge_fenced_session e s2 key) =
    mkCore (<[key := cs']> (client_state s)) (delete key (client_emitted_tracker s))
      (delete key (hold_buffer s)) (hold_buffer_size s -u Z.of_nat (size (held_at s key)))
      (total_hold_size s -u Z.of_nat (size (held_at s key))) (clients_with_held_batches s ∖ {[key]})
      (filter (fun p => session_of p <> key) (deferred_level5 s)) t2 (ready s)) as Hc3.
  { destruct (inv_sizes s Hinv) as [Hs1 Hs2]. injection Hc2 as E1 E2 E3 E4 E5 E6 E7 E8 E9.
    rewrite purge_core by (rewrite ?E4, ?E5; done). unfold held_at.
    by rewrite E1, E2, E3, E4, E5, E6, E7, E8, E9. }
  split.
  - rewrite Hc3. eapply (inv_fenced base c0 (core s) key cs' t2); try done.
    + unfold cs_ok. by rewrite Hn', Hse'.
    + split; [by rewrite Hn'|done].
  - intros k Hne. change (cstate (core (purge_fenced_session e s2 key)) k = state_at s k).
    rewrite Hc3. unfold cstate. simpl. by rewrite lookup_insert_ne.
Qed.
(** ** Opening a session *)

Lemma open_session_inv s key epoch :
  I s -> is_u32 epoch ->
  let s' := open_session e s key key epoch in
  I s' /\ opened s' key /\ session_table s' = session_table s.
Proof.
  intros Hinv Hep. unfold open_session.
  pose proof (inv_cs base c0 (core s) Hinv key) as Hcs. change (cstate (core s) key) with (state_at s key) in Hcs.
  set (cs0 := (state_at s key) <| ClientState.session_epoch := epoch |> <| last_epoch := hold_epoch e |>).
  assert (cs_ok cs0) as Hok0 by (split; [apply Hcs|done]).
  destruct (Reconstruct_ok e (session_table s) key cs0 He (inv_table _ _ _ Hinv) Hok0) as (Hok & Hl & Hf).
  set (cs' := ReconstructClientStateFromSessionEntry e _ key cs0) in *. clearbody cs'.
  split; [|split; [|done]].
  - eapply (inv_put_state base c0 (core s) key cs'); [done|done|exact Hl| |done].
    intros Hft. apply (inv_fence base c0 (core s) Hinv). rewrite Hf in Hft.
    apply orb_true_iff in Hft as [?|?]; [by left|by right].
  - unfold opened. rewrite state_at_put. intros Hd.
    change (durable_fenced (session_table s) key = true) in Hd. by rewrite Hf, Hd, orb_true_r.
Qed.

Lemma seed_session_inv s key :
  I s -> I (seed_session s key) /\ keeps s (seed_session s key) key.
Proof.
  intros Hinv. unfold seed_session.
  pose proof (inv_track base c0 (core s) Hinv key) as Ht.
  change (ctracker (core s) key) with (tracker_at s key) in Ht.
  set (t := tracker_at s key) in *. clearbody t.
  assert (I (put_tracker s key t)) as Hi1 by (by eapply (inv_put_tracker base c0 (core s) key t)).
  pose proof (inv_cs base c0 (core s) Hinv key) as Hcs.
  change (cstate (core s) key) with (state_at (put_tracker s key t) key) in Hcs.
  set (cs := state_at (put_tracker s key t) key) in *.
  match goal with |- context [set_next_expected ?x 0] => set (cs1 := x) end.
  assert (cs_ok cs1 /\ later cs cs1 /\ fenced cs1 = fenced cs) as (Hok1 & Hl1 & Hf1).
  { subst cs1. case_match eqn:Ec; [|done]. bool_props. destruct Ht as [[?|Hm] _]; [done|].
    unfold seq_ok in Hm. unfold cs_ok, later, limit in *.
    rewrite u64_id by (unfold is_u64; lia).
    destruct (set_next_expected_fields cs (ClientEmitTracker.contiguous_max t + 1)) as (Hn & Hfe & Hse).
    set (csn := set_next_expected cs _) in *. clearbody csn. simpl. rewrite Hn, Hfe, Hse. conj_lia. }
  clearbody cs1.
  match goal with |- context [put_state _ key ?x] => set (cs2 := x) end.
  assert (cs_ok cs2 /\ later cs cs2 /\ fenced cs2 = fenced cs) as (Hok2 & Hl2 & Hf2).
  { subst cs2. case_match eqn:Ec; [|done]. bool_props. unfold cs_ok, later, limit in *.
    destruct (set_next_expected_fields cs1 0) as (-> & -> & ->). conj_lia. }
  destruct (put_state_inv (put_tracker s key t) key cs2 Hi1 Hok2 Hl2 Hf2) as [Hi2 Hk2].
  split; [exact Hi2|exact Hk2].
Qed.

(** Batches of one session are classified one after the other. *)
Definition input_ok (p : PendingBatch5) : Prop :=
  is_held_marker p = false /\ seq_ok (batch_seq p) /\ is_u32 (session_epoch p) /\ meta_ok p /\ is_u32 (num_msg p).

Lemma classify_all_inv key l : forall s,
  I s -> opened s key -> Forall (fun p => batch_ok p /\ session_of p = key) l ->
  I (foldl (fun s p => classify_one e s key p true) s l).
Proof.
  induction l as [|p l IH]; intros s Hinv Ho Hl; [done|].
  apply Forall_cons in Hl as [[Hp Hk] Hl]. simpl.
  destruct (classify_one_inv s key p Hinv Hp Hk Ho) as [Hi Hkp].
  apply IH; [done|by eapply keeps_opened|done].
Qed.

Lemma classify_stream_inv s key epoch l :
  I s -> is_u32 epoch -> Forall (fun p => batch_ok p /\ session_of p = key) l ->
  I (classify_stream e s key key epoch l).
Proof.
  intros Hinv Hep Hl. unfold classify_stream. rewrite Htcc.
  destruct (open_session_inv s key epoch Hinv Hep) as (Hi1 & Ho1 & _).
  destruct (seed_session_inv _ key Hi1) as [Hi2 Hk2].
  apply classify_all_inv; [done|by eapply keeps_opened|done].
Qed.

(** The batches of a group have the session of its first one. *)
Definition group_ok (g : list PendingBatch5) : Prop :=
  Forall batch_ok g /\ forall p q, p ∈ g -> q ∈ g -> session_of p = session_of q.

Lemma classify_session_group_inv s g : I s -> group_ok g -> I (classify_session_group e s g).
Proof.
  intros Hinv [Hb Hs]. destruct g as [|p g]; [done|].
  apply classify_stream_inv; [done|by apply Forall_inv in Hb as (_ & _ & ? & _)|].
  rewrite Forall_forall in Hb. apply Forall_forall. intros q Hq. split; [by apply Hb|].
  apply Hs; [done|by left].
Qed.

Lemma classify_groups_inv gs : forall s,
  I s -> Forall group_ok gs -> I (foldl (classify_session_group e) s gs).
Proof.
  induction gs as [|g gs IH]; intros s Hinv Hg; [done|]. apply Forall_cons in Hg as [? ?].
  apply IH; [by apply classify_session_group_inv|done].
Qed.

Lemma same_session_key p q : same_session p q = true -> session_of p = session_of q.
Proof. unfold same_session, session_of. intros. bool_props. congruence. Qed.

(** Runs regroup the list, and neighbours in a run agree. *)
Lemma runs_concat {T} (same : T -> T -> bool) l : concat (runs same l) = l.
Proof.
  induction l as [|x l IH]; [done|]. simpl. revert IH.
  destruct (runs same l) as [|[|y g] gs]; simpl; intros <-; [done|done|]. by destruct (same x y).
Qed.

Lemma runs_ok l : Forall batch_ok l -> Forall group_ok (runs same_session l).
Proof.
  induction l as [|x l IH]; intros Hl; [constructor|]. apply Forall_cons in Hl as [Hx Hl].
  specialize (IH Hl). simpl.
  assert (group_ok [x]) as H1.
  { split; [by constructor|]. by intros p q ->%list_elem_of_singleton ->%list_elem_of_singleton. }
  destruct (runs same_session l) as [|[|y g] gs]; [by constructor|by constructor|].
  apply Forall_cons in IH as [[Hb Hs] Hgs]. destruct (same_session x y) eqn:Exy; [|do 2 (constructor; [done|]); done].
  apply same_session_key in Exy. constructor; [|done]. split; [by constructor|].
  assert (forall q, q ∈ x :: y :: g -> session_of q = session_of y) as Hy.
  { intros q [->|Hq]%elem_of_cons; [done|]. apply Hs; [done|by left]. }
  intros p q Hp Hq. by rewrite (Hy p), (Hy q).
Qed.

Lemma general_path_inv s l : I s -> Forall batch_ok l -> I (general_path e s l).
Proof.
  intros Hinv Hl. unfold general_path. rewrite Htcc. apply classify_groups_inv; [done|].
  apply runs_ok. by rewrite std_sort_perm by (unfold session_lt; auto with emb).
Qed.

Lemma single_session_group l :
  Forall batch_ok l -> single_session l = true -> group_ok (std_sort (by_key batch_seq) l).
Proof.
  intros Hl Hs. destruct l as [|x l]; [done|].
  assert (forall p, p ∈ std_sort (by_key batch_seq) (x :: l) -> session_of p = session_of x) as Hx.
  { intros p. rewrite std_sort_perm by auto with emb. intros [->|Hp]%elem_of_cons; [done|].
    symmetry. apply same_session_key. by eapply (proj1 (forallb_forall _ _) Hs), list_elem_of_In. }
  split; [by rewrite std_sort_perm by auto with emb|]. intros p q Hp Hq. by rewrite (Hx p), (Hx q).
Qed.

Lemma fast_path_inv s l :
  I s -> Forall batch_ok l -> single_session l = true -> I (fast_path e s l).
Proof.
  intros Hinv Hl Hs. unfold fast_path. rewrite Htcc.
  by apply classify_session_group_inv, single_session_group.
Qed.

(** ** Skip markers *)

Lemma skip_one_inv s p :
  I s -> skipped p = true -> seq_ok (batch_seq p) -> is_u32 (session_epoch p) -> I (skip_one e s p).
Proof.
  intros Hinv Hsk Hs Hep. unfold skip_one.
  assert (~ is_batch p) as Hnb by (intros [? _]; congruence).
  enough (forall x, I x -> I (push_ready x p)) as Hpush.
  2: { intros x Hx. by eapply (inv_push_marker base c0 (core x) p). }
  apply Hpush. destruct (client_id p =? SIZE_MAX); [done|]. rewrite Htcc.
  destruct (open_session_inv s (session_of p) (session_epoch p) Hinv Hep) as (Hi1 & _ & _).
  set (s1 := open_session e s _ _ _) in *. clearbody s1. cbn zeta.
  destruct (CanFenceSessionEpoch _).
  { eapply core_inv; [apply core_stats|]. by apply record_fence_inv. }
  pose proof (inv_cs base c0 (core s1) Hi1 (session_of p)) as Hcs.
  destruct (mark_and_cover_ok (state_at s1 (session_of p)) (batch_seq p) Hcs Hs) as (Hok & Hl & Hf).
  unfold mark_and_cover in *.
  destruct (batch_seq p >=? next_expected _).
  - eapply core_inv; [apply core_stats|]. by apply put_state_inv.
  - by apply put_state_inv.
Qed.

Lemma skips_inv l : forall s,
  I s -> Forall input_ok l -> I (foldl (skip_one e) s (filter (fun p => skipped p = true) l)).
Proof.
  induction l as [|p l IH]; intros s Hinv Hl; [done|]. apply Forall_cons in Hl as [(Hm & Hs & Hep & _) Hl].
  rewrite filter_cons. case_decide; [|by apply IH]. apply IH; [by apply skip_one_inv|done].
Qed.

(** ** Draining *)

(** A session that holds a batch is not fenced. *)
Lemma held_open s key seq he :
  I s -> held_at s key !! seq = Some he ->
  hold_ok key seq he /\ fenced (state_at s key) = false /\ durable_fenced (session_table s) key = false.
Proof.
  intros Hinv Hh.
  assert (cheld (core s) key <> ∅) as Hne.
  { change (held_at s key <> ∅). intros Hz. by rewrite Hz, lookup_empty in Hh. }
  pose proof (inv_fence base c0 (core s) Hinv key) as Hfe.
  split; [|split].
  - unfold held_at in Hh. destruct (hold_buffer s !! key) as [held|] eqn:E; [|done].
    by eapply (inv_hold base c0 (core s) Hinv).
  - destruct (fenced (state_at s key)) eqn:E; [|done]. destruct Hne. apply Hfe. by left.
  - destruct (durable_fenced (session_table s) key) eqn:E; [|done]. destruct Hne. apply Hfe. by right.
Qed.

(** [s'] differs from [s], in what draining looks at, only at session [key]. *)
Definition elsewhere (s s' : St) (key : Z) : Prop :=
  forall k, k <> key -> held_at s' k = held_at s k /\ state_at s' k = state_at s k.

Lemma elsewhere_trans s1 s2 s3 key : elsewhere s1 s2 key -> elsewhere s2 s3 key -> elsewhere s1 s3 key.
Proof. intros H1 H2 k Hk. destruct (H1 k Hk), (H2 k Hk). split; congruence. Qed.

Lemma erase_held_inv s key seq he :
  I s -> held_at s key !! seq = Some he ->
  I (erase_held s key seq) /\ held_at (erase_held s key seq) key = delete seq (held_at s key) /\
  elsewhere s (erase_held s key seq) key.
Proof.
  intros Hinv Hh. split; [by eapply (inv_erase base c0 (core s) key seq)|]. unfold erase_held, held_at at 1.
  split; [simpl; by rewrite lookup_insert_eq|]. intros k Hk. split; [|done].
  unfold held_at at 1. simpl. by rewrite lookup_insert_ne.
Qed.

Lemma emit_once_elsewhere s key id p cs' :
  let s' := (emit_once (put_state s key cs') key id p).2 in
  hold_buffer s' = hold_buffer s /\ client_state s' = <[key := cs']> (client_state s).
Proof.
  intros s'. destruct (emit_once_core (put_state s key cs') key id p) as [Hc|Hc];
    by injection Hc as E1 E2 E3 E4 E5 E6 E7 E8 E9.
Qed.

Lemma drain_one_inv s key he second :
  I s -> held_at s key !! next_expected (state_at s key) = Some he ->
  let s' := drain_one e s key (next_expected (state_at s key)) he second in
  I s' /\ held_at s' key = delete (next_expected (state_at s key)) (held_at s key) /\ elsewhere s s' key.
Proof.
  intros Hinv Hh. destruct (held_open _ _ _ _ Hinv Hh) as ((Hb & Hseq & Hk & Hmeta) & Hf & Hd).
  pose proof (inv_cs base c0 (core s) Hinv key) as Hcs. change (cstate (core s) key) with (state_at s key) in Hcs.
  destruct (advance_ok (state_at s key) (batch_seq (he_batch he)) Hcs) as (Hok & Hn & Hfe);
    [rewrite <- Hseq; apply Hb|].
  unfold drain_one. set (cs' := advance_next_expected _) in *. clearbody cs'.
  set (seq := next_expected (state_at s key)) in *.
  assert (forall s1, I s1 -> hold_buffer s1 = hold_buffer s -> client_state s1 = <[key := cs']> (client_state s) ->
    I (erase_held s1 key seq) /\ held_at (erase_held s1 key seq) key = delete seq (held_at s key) /\
    elsewhere s (erase_held s1 key seq) key) as Hgo.
  { intros s1 Hi1 Hh1 Hc1. assert (forall k, held_at s1 k = held_at s k) as Heq by (unfold held_at; by rewrite Hh1).
    destruct (erase_held_inv s1 key seq he Hi1) as (? & He1 & Hel); [by rewrite Heq|].
    split; [done|split; [by rewrite He1, Heq|]]. intros k Hne. destruct (Hel k Hne) as [-> ->].
    split; [done|]. unfold state_at. by rewrite Hc1, lookup_insert_ne. }
  destruct (ClientEmitTracker.IsEmitted _ _).
  - rewrite Htcc. cbn [orb]. unfold terminalize_held.
    match goal with |- context [erase_held ?x key seq] => set (s1 := x) end.
    assert (core s1 = core (put_state s key cs')) as Hc
      by (subst s1; by rewrite core_retire, core_terminalize).
    apply Hgo; [|by injection Hc..]. eapply core_inv; [exact Hc|]. apply put_state_inv; try done.
    split; [lia|]. by rewrite Hf.
  - destruct (release_inv s key (m_batch_id (he_meta he)) (released he) cs') as (Hi & _); try done;
      [destruct Hb as (? & ? & ? & _ & ?); do 3 (split; [done|]); split; [intros _; exact Hmeta|done]|by rewrite Hfe|].
    destruct (emit_once_elsewhere s key (m_batch_id (he_meta he)) (released he) cs') as [Eh Ec].
    destruct (emit_once _ _ _ _) as [b s1]. by apply Hgo.
Qed.

(** The batch whose turn it is is not held. *)
Definition drained (s : St) (key : Z) : Prop :=
  held_at s key !! next_expected (state_at s key) = None.

(** As many turns as there are held batches are enough. *)
Lemma drain_loop_inv key second fuel : forall s,
  I s -> (size (held_at s key) <= fuel)%nat ->
  let s' := drain_loop e fuel s key second in
  I s' /\ drained s' key /\ elsewhere s s' key.
Proof.
  induction fuel as [|n IH]; intros s Hinv Hsz; simpl.
  - split; [done|split; [|done]]. unfold drained.
    rewrite (map_size_empty_inv (held_at s key)) by lia. apply lookup_empty.
  - destruct (held_at s key !! next_expected (state_at s key)) as [he|] eqn:E; [|by split].
    destruct (drain_one_inv s key he second Hinv E) as (Hi1 & Hh1 & Hel1).
    set (s1 := drain_one e s key _ he second) in *. clearbody s1.
    assert (size (delete (next_expected (state_at s key)) (held_at s key)) =
      pred (size (held_at s key))) as Hdel by (apply map_size_delete_Some; by rewrite E).
    destruct (IH s1 Hi1) as (Hi2 & Hd2 & Hel2); [rewrite Hh1; lia|].
    split; [done|split; [done|by eapply elsewhere_trans]].
Qed.

Lemma drain_session_inv s key second :
  I s ->
  let s' := drain_session e s key second in
  I s' /\ drained s' key /\ elsewhere s s' key.
Proof.
  intros Hinv. unfold drain_session. destruct (hold_buffer s !! key) as [held|] eqn:E.
  - set (cs1 := (state_at s key) <| last_epoch := hold_epoch e |>).
    pose proof (inv_cs base c0 (core s) Hinv key) as Hcs.
    destruct (put_state_inv s key cs1 Hinv Hcs (later_refl _) eq_refl) as [Hi1 _].
    set (s1 := put_state s key cs1) in *.
    assert (I (put_tracker s1 key (tracker_at s1 key))) as Hi2.
    { eapply (inv_put_tracker base c0 (core s1)); [done| |done]. apply (inv_track base c0 _ Hi1). }
    destruct (drain_loop_inv key second (size held) (put_tracker s1 key (tracker_at s1 key)) Hi2)
      as (Hi3 & Hd3 & Hel3); [unfold held_at; simpl; by rewrite E|].
    set (s3 := drain_loop e _ _ key second) in *. clearbody s3.
    assert (elsewhere s s3 key) as Hel.
    { intros k Hk. destruct (Hel3 k Hk) as [-> ->]. split; [done|].
      unfold state_at. simpl. by rewrite lookup_insert_ne. }
    case_bool_decide as Hz; [|done]. split; [|split].
    + eapply (inv_forget base c0 (core s3) key (delete key (hold_buffer s3))); [done|exact Hz|by right|done].
    + unfold drained, held_at. simpl. rewrite lookup_delete_eq. apply lookup_empty.
    + intros k Hk. destruct (Hel k Hk) as [<- <-]. split; [|done].
      unfold held_at. simpl. by rewrite lookup_delete_ne.
  - assert (held_at s key = ∅) as Hz by (unfold held_at; by rewrite E).
    split; [by eapply (inv_forget base c0 (core s) key (hold_buffer s)); [done|exact Hz|left|]|].
    split; [|done]. unfold drained. change (held_at s key !! next_expected (state_at s key) = None).
    by rewrite Hz, lookup_empty.
Qed.

Lemma drain_sessions_inv second l : forall s,
  I s ->
  let s' := foldl (fun s key => drain_session e s key second) s l in
  I s' /\ forall k, k ∈ l \/ drained s k -> drained s' k.
Proof.
  induction l as [|key l IH]; intros s Hinv; simpl; [split; [done|set_solver]|].
  destruct (drain_session_inv s key second Hinv) as (Hi1 & Hd1 & Hel1).
  destruct (IH _ Hi1) as [Hi2 Hd2]. split; [done|]. intros k Hk. apply Hd2.
  destruct (decide (k = key)) as [->|Hne]; [by right|].
  destruct Hk as [[?|?]%elem_of_cons|Hk]; [done|by left|right].
  unfold drained. by destruct (Hel1 k Hne) as [-> ->].
Qed.

(** After a drain no session holds the batch it waits for. *)
Lemma drain_inv s second :
  I s -> I (drain e s second) /\ forall k, drained (drain e s second) k.
Proof.
  intros Hinv. destruct (drain_sessions_inv second (iter_order e (clients_with_held_batches s)) s Hinv)
    as [Hi Hd]. split; [done|]. intros k. apply Hd.
  destruct (decide (held_at s k = ∅)) as [Hz|Hne].
  - right. unfold drained. by rewrite Hz, lookup_empty.
  - left. destruct He as [Hit _]. unfold iter_ok in Hit. rewrite Hit. apply elem_of_elements. by apply (inv_with base c0 _ Hinv).
Qed.

(** ** The expiry sweep *)

Lemma expiry_check_inv s key now lease : I s -> I (expiry_check s key now lease).2.
Proof.
  intros Hinv. unfold expiry_check. destruct (hold_buffer s !! key) as [held|]; [|done].
  case_bool_decide; [done|].
  pose proof (inv_cs base c0 (core s) Hinv key) as Hcs.
  change (cstate (core s) key) with (state_at s key) in Hcs.
  destruct (put_state_inv s key (state_at s key) Hinv Hcs (later_refl _) eq_refl) as [Hi1 _].
  set (s1 := put_state s key (state_at s key)) in *.
  assert (forall cs', next_expected cs' = next_expected (state_at s key) ->
    fenced cs' = fenced (state_at s key) ->
    ClientState.session_epoch cs' = ClientState.session_epoch (state_at s key) ->
    I (put_state s1 key cs')) as Hput.
  { intros cs' Hn Hf Hse. apply put_state_inv; [done| | |]; subst s1; rewrite ?state_at_put; [|split|done].
    - unfold cs_ok. by rewrite Hn, Hse.
    - by rewrite Hn.
    - by rewrite Hf. }
  destruct (negb _); [done|]. destruct (fenced (state_at s key)) eqn:Ef; [done|]. case_bool_decide; [by apply Hput|].
  destruct (ShouldClearSessionGapFromHeldMax _ _); [by apply Hput|].
  destruct (note_gap_fields (state_at s key) now) as (? & ? & ?). apply Hput; congruence.
Qed.

Lemma expire_one_inv s key : I s -> I (expire_one e s key).
Proof.
  intros Hinv. unfold expire_one. apply record_fence_inv. eapply core_inv; [apply core_stats|].
  pose proof (inv_cs base c0 (core s) Hinv key) as Hcs.
  by apply (put_state_inv s key ((state_at s key) <| last_epoch := hold_epoch e |>)).
Qed.

Lemma expire_all_inv l : forall s, I s -> I (foldl (expire_one e) s l).
Proof. induction l as [|k l IH]; intros s Hinv; [done|]. by apply IH, expire_one_inv. Qed.

Lemma expiry_checks_inv now lease l : forall s acc,
  I s ->
  I (foldl (fun '(s, expired) key =>
      let '(b, s) := expiry_check s key now lease in
      (s, if b then expired ++ [key] else expired)) (s, acc) l).1.
Proof.
  induction l as [|k l IH]; intros s acc Hinv; [done|]. cbn [foldl].
  pose proof (expiry_check_inv s k now lease Hinv) as Hi.
  destruct (expiry_check s k now lease) as [b s1]. by apply IH.
Qed.

Lemma expiry_sweep_inv s : I s -> I (expiry_sweep e s).
Proof.
  intros Hinv. unfold expiry_sweep. cbn [SteadyNowNs].
  match goal with |- context [foldl ?f (?x, []) ?l] =>
    pose proof (expiry_checks_inv (clock e (ticks s)) (EffectiveOrder5SessionFenceLeaseNs
      (session_lease_ns e) (clock e (ticks s) <? force_expire_hold_until_ns s)) l x [] Hinv) as Hi end.
  destruct (foldl _ _ _) as [s1 expired]. by apply expire_all_inv.
Qed.

(** ** A gap that outlives the lease is fenced *)

Lemma record_fence_fences s key :
  I s -> CanFenceSessionEpoch (ClientState.session_epoch (state_at s key)) = true ->
  fenced (state_at (record_fence e s key) key) = true \/ capacity_exhausted (record_fence e s key) = true.
Proof.
  intros Hinv Hcan. unfold record_fence. rewrite Htcc, Hcan. cbn [negb].
  destruct (SessionTable.FindOrCreateSessionEntry (session_table s) key) as [[i|] t1]; [|by right].
  set (cs' := (fence (state_at s key)) <| committed_hwm := _ |>).
  assert (fenced cs' = true) as Hf by (unfold cs', fence; by destruct (fenced (state_at s key)) eqn:Ex).
  change (session_table (put_state (s <| session_table := t1 |>) key cs')) with t1.
  destruct (SessionTable.PublishSessionEntry t1 key _) as [[] t2]; [left|by right].
  match goal with |- context [purge_fenced_session e ?x key] => set (s2 := x) end.
  assert (client_state s2 = <[key := cs']> (client_state s) /\ hold_buffer_size s2 = hold_buffer_size s /\
    total_hold_size s2 = total_hold_size s) as (E1 & E2 & E3) by (subst s2; by destruct (negb _)).
  clearbody s2. destruct (inv_sizes s Hinv) as [Hs1 Hs2].
  change (fenced (cstate (core (purge_fenced_session e s2 key)) key) = true).
  rewrite purge_core by (rewrite ?E2, ?E3; done). unfold cstate. simpl.
  by rewrite E1, lookup_insert_eq.
Qed.

Lemma retires_capacity l : forall s,
  capacity_exhausted (foldl (fun s (r : Z * Z * Z) =>
    RetireOrder5HeldSlotAndAdvance e s r.2 r.1.1 r.1.2) s l) = capacity_exhausted s.
Proof.
  induction l as [|[[b o] h] l IH]; intros s; [done|]. simpl. rewrite IH.
  unfold RetireOrder5HeldSlotAndAdvance. destruct (capacity_exhausted s) eqn:Ec; [done|].
  destruct (h =? 0); repeat (case_match; try done).
Qed.

Lemma record_fence_capacity s key :
  capacity_exhausted s = true -> capacity_exhausted (record_fence e s key) = true.
Proof.
  intros Hc. unfold record_fence. do 2 (destruct (negb _); [done|]).
  destruct (SessionTable.FindOrCreateSessionEntry _ _) as [[i|] t1]; [|done].
  destruct (SessionTable.PublishSessionEntry _ _ _) as [[] t2]; [|done].
  unfold purge_fenced_session.
  match goal with |- context [hold_buffer ?x !! key] => set (s2 := x) end.
  assert (capacity_exhausted s2 = true) as H2 by (subst s2; by destruct (negb _)).
  clearbody s2. destruct (hold_buffer s2 !! key); simpl; by rewrite ?retires_capacity.
Qed.

Definition fenced_or_stopped (s : St) (key : Z) : Prop :=
  fenced (state_at s key) = true \/ capacity_exhausted s = true.

Lemma stats_capacity s c f : capacity_exhausted (stats_update e s c f) = capacity_exhausted s.
Proof. unfold stats_update. by destruct (negb _). Qed.

(** Expiring another session leaves this one alone. *)
Lemma expire_one_other s key k :
  I s -> k <> key ->
  state_at (expire_one e s k) key = state_at s key /\
  (fenced_or_stopped s key -> fenced_or_stopped (expire_one e s k) key).
Proof.
  intros Hinv Hne. unfold expire_one.
  set (s1 := (put_state s k _) <| hold_timeout_skips := _ |>).
  assert (core (record_expiry e s1 (Z.shiftr k 32)) = core s1) as Hc by apply core_stats.
  assert (I s1) as Hi1.
  { pose proof (inv_cs base c0 (core s) Hinv k) as Hcs.
    by apply (put_state_inv s k ((state_at s k) <| last_epoch := hold_epoch e |>)). }
  assert (I (record_expiry e s1 (Z.shiftr k 32))) as Hi2 by (by rewrite Hc).
  destruct (record_fence_inv _ k Hi2) as [_ Hel].
  assert (state_at (record_fence e (record_expiry e s1 (Z.shiftr k 32)) k) key = state_at s key) as Heq.
  { rewrite Hel by done. change (cstate (core (record_expiry e s1 (Z.shiftr k 32))) key = state_at s key).
    rewrite Hc. unfold cstate. simpl. by rewrite lookup_insert_ne. }
  split; [exact Heq|]. intros [Hf|Hs]; [left; by rewrite Heq|right].
  apply record_fence_capacity. unfold record_expiry. by rewrite stats_capacity.
Qed.

Lemma expire_all_others key l : forall s,
  I s -> key ∉ l -> fenced_or_stopped s key -> fenced_or_stopped (foldl (expire_one e) s l) key.
Proof.
  induction l as [|k l IH]; intros s Hinv Hn Hf; [done|]. apply not_elem_of_cons in Hn as [Hk Hn].
  apply IH; [by apply expire_one_inv|done|]. by apply expire_one_other.
Qed.

Lemma expire_all_fences key l : forall s,
  I s -> NoDup l -> key ∈ l ->
  CanFenceSessionEpoch (ClientState.session_epoch (state_at s key)) = true ->
  fenced_or_stopped (foldl (expire_one e) s l) key.
Proof.
  induction l as [|k l IH]; intros s Hinv Hnd Hin Hcan; [by apply elem_of_nil in Hin|].
  apply NoDup_cons in Hnd as [Hk Hnd]. pose proof (expire_one_inv s k Hinv) as Hi1.
  destruct (decide (k = key)) as [->|Hne].
  - cbn [foldl]. apply expire_all_others; [done|done|]. unfold fenced_or_stopped, expire_one. apply record_fence_fences.
    + eapply core_inv; [apply core_stats|]. pose proof (inv_cs base c0 (core s) Hinv key) as Hcs.
      by apply (put_state_inv s key ((state_at s key) <| last_epoch := hold_epoch e |>)).
    + match goal with |- context [record_expiry e ?x ?c] => set (s1 := x);
        assert (core (record_expiry e s1 c) = core s1) as Hc by apply core_stats end.
      injection Hc as E1 _ _ _ _ _ _ _ _. unfold state_at. rewrite E1. simpl.
      rewrite lookup_insert_eq. exact Hcan.
  - apply elem_of_cons in Hin as [->|Hin]; [done|]. apply IH; try done.
    by rewrite (proj1 (expire_one_other s key k Hinv Hne)).
Qed.

(** The session's gap is to be fenced at time [now]. *)
Definition gap_expired (s : St) (key now lease : Z) : Prop :=
  held_at s key <> ∅ /\ drained s key /\
  CanFenceSessionEpoch (ClientState.session_epoch (state_at s key)) = true /\
  fenced (state_at s key) = false /\
  ShouldClearSessionGapFromHeldMax (next_expected (state_at s key)) (held_max (held_at s key)) = false /\
  ShouldFenceSessionGap (note_gap (state_at s key) now) now lease = true.

Lemma expiry_check_frame s k now lease :
  hold_buffer (expiry_check s k now lease).2 = hold_buffer s /\
  forall k', k' <> k -> state_at (expiry_check s k now lease).2 k' = state_at s k'.
Proof.
  assert (forall cs s1 k', k' <> k -> state_at (put_state s1 k cs) k' = state_at s1 k') as Hp
    by (intros; unfold state_at; simpl; by rewrite lookup_insert_ne).
  unfold expiry_check. destruct (hold_buffer s !! k) as [held|]; [|done].
  case_bool_decide; [done|]. destruct (negb _); [split; [done|intros k' Hk; by apply Hp]|].
  destruct (fenced (state_at s k)); [split; [done|intros k' Hk; by apply Hp]|].
  case_bool_decide; [|destruct (ShouldClearSessionGapFromHeldMax _ _)];
    (split; [done|intros k' Hk; simpl; by rewrite !Hp]).
Qed.

Lemma gap_expired_frame s s' key now lease :
  hold_buffer s' = hold_buffer s -> state_at s' key = state_at s key ->
  gap_expired s key now lease -> gap_expired s' key now lease.
Proof. unfold gap_expired, drained, held_at. by intros -> ->. Qed.

Lemma expiry_check_expired s key now lease :
  gap_expired s key now lease ->
  (expiry_check s key now lease).1 = true /\
  CanFenceSessionEpoch (ClientState.session_epoch (state_at (expiry_check s key now lease).2 key)) = true.
Proof.
  intros (Hne & Hd & Hcan & Hf & Hcl & Hsf). unfold expiry_check. unfold drained, held_at in *.
  destruct (hold_buffer s !! key) as [held|] eqn:E; [|done]. simpl in *.
  rewrite bool_decide_eq_false_2 by done. rewrite Hcan, Hf. cbn [negb].
  rewrite bool_decide_eq_false_2 by (rewrite Hd; by intros [??]).
  rewrite Hcl. simpl. rewrite state_at_put. split; [done|].
  destruct (note_gap_fields (state_at s key) now) as (_ & _ & Hse).
  unfold held_at in Hse. by rewrite Hse.
Qed.

Lemma expiry_checks_expired key now lease l : forall s acc,
  NoDup l ->
  (key ∈ l /\ gap_expired s key now lease) \/
    (key ∈ acc /\ (key ∉ l) /\ CanFenceSessionEpoch (ClientState.session_epoch (state_at s key)) = true) ->
  NoDup (acc ++ l) ->
  let '(s', expired) := foldl (fun '(s, expired) key =>
      let '(b, s) := expiry_check s key now lease in
      (s, if b then expired ++ [key] else expired)) (s, acc) l in
  key ∈ expired /\ NoDup expired /\
  CanFenceSessionEpoch (ClientState.session_epoch (state_at s' key)) = true.
Proof.
  clear Htcc Hfifo He.
  induction l as [|k l IH]; intros s acc Hnd Hk Hnda.
  { rewrite app_nil_r in Hnda. destruct Hk as [[?%elem_of_nil _]|(? & _ & ?)]; done. }
  cbn [foldl]. apply NoDup_cons in Hnd as [Hkl Hnd].
  pose proof (expiry_check_frame s k now lease) as [Hh Hst].
  pose proof (expiry_check_expired s k now lease) as Hex.
  destruct (expiry_check s k now lease) as [b s1]. simpl in *. apply IH; [done| |].
  - destruct Hk as [[[->|Hin]%elem_of_cons Hg]|(Hin & [Hne Hn]%not_elem_of_cons & Hcan)].
    + right. destruct (Hex Hg) as [-> ?]. set_solver.
    + left. split; [done|]. assert (key <> k) by congruence.
      eapply gap_expired_frame; [exact Hh|by apply Hst|done].
    + right. rewrite Hst by done. destruct b; set_solver.
  - destruct b; [by rewrite <- app_assoc|].
    apply NoDup_app in Hnda as (Ha & Hb & Hc). apply NoDup_app. split; [done|].
    split; [set_solver|]. by apply NoDup_cons in Hc as [_ ?].
Qed.

Lemma expiry_sweep_fences s key :
  I s ->
  gap_expired s key (clock e (ticks s)) (EffectiveOrder5SessionFenceLeaseNs (session_lease_ns e)
    (clock e (ticks s) <? force_expire_hold_until_ns s)) ->
  fenced_or_stopped (expiry_sweep e s) key.
Proof.
  intros Hinv Hg. unfold expiry_sweep. cbn [SteadyNowNs].
  match goal with |- context [foldl ?f (?x, []) ?l] =>
    pose proof (expiry_checks_inv (clock e (ticks s)) (EffectiveOrder5SessionFenceLeaseNs
      (session_lease_ns e) (clock e (ticks s) <? force_expire_hold_until_ns s)) l x [] Hinv) as Hi;
    pose proof (expiry_checks_expired key (clock e (ticks s)) (EffectiveOrder5SessionFenceLeaseNs
      (session_lease_ns e) (clock e (ticks s) <? force_expire_hold_until_ns s)) l x []) as Hx end.
  assert (iter_order e (clients_with_held_batches s) ≡ₚ elements (clients_with_held_batches s)) as Hp
    by apply He.
  simpl in Hx, Hi |- *. destruct (foldl _ _ _) as [s1 expired]. simpl in Hi.
  destruct Hx as (H1 & H2 & H3).
  - rewrite Hp. apply NoDup_elements.
  - left. split; [|exact Hg]. rewrite Hp. apply elem_of_elements, (inv_with base c0 _ Hinv). apply Hg.
  - rewrite Hp. apply NoDup_elements.
  - by apply expire_all_fences.
Qed.

(** ** What classifying one batch does to the hold buffer *)

Definition held_step (s s' : St) (key seq : Z) : Prop :=
  elsewhere s s' key /\
  ((held_at s' key = held_at s key /\
    (next_expected (state_at s' key) = next_expected (state_at s key) \/
     next_expected (state_at s' key) = seq + 1)) \/
   (exists he, held_at s' key = <[seq := he]> (held_at s key) /\
     next_expected (state_at s' key) = next_expected (state_at s key) /\
     seq <> next_expected (state_at s key))).

Lemma held_step_core s s' key seq cs' :
  core s' = core (put_state s key cs') ->
  next_expected cs' = next_expected (state_at s key) \/ next_expected cs' = seq + 1 ->
  held_step s s' key seq.
Proof.
  intros Hc Hn. injection Hc as E1 E2 E3 E4 E5 E6 E7 E8 E9. unfold held_step, elsewhere, held_at, state_at.
  rewrite E1, E3. split.
  - intros k Hk. by rewrite lookup_insert_ne.
  - left. by rewrite lookup_insert_eq.
Qed.

Lemma held_step_same s s' key seq : core s' = core s -> held_step s s' key seq.
Proof.
  intros Hc. injection Hc as E1 E2 E3 E4 E5 E6 E7 E8 E9. unfold held_step, elsewhere, held_at, state_at.
  rewrite E1, E3. split; [done|]. left. split; [done|by left].
Qed.

Lemma hold_or_defer_step s key p :
  batch_seq p <> next_expected (state_at s key) -> held_step s (hold_or_defer s key p) key (batch_seq p).
Proof.
  intros Hne. unfold hold_or_defer. destruct (hold_buffer_size s >=? kHoldBufferMaxEntries).
  { assert (forall s', hold_buffer s' = hold_buffer s -> client_state s' = client_state s ->
      held_step s s' key (batch_seq p)) as Hs.
    { intros s' E1 E3. unfold held_step, elsewhere, held_at, state_at. rewrite E1, E3.
      split; [done|]. left. split; [done|by left]. }
    destruct (_ <? _); [by apply Hs|]. destruct (existsb _ _); by apply Hs. }
  destruct (held_at s key !! batch_seq p) eqn:Eh.
  - split; [|left; split; [|by left]].
    + intros k Hk. unfold held_at at 1. simpl. by rewrite lookup_insert_ne.
    + unfold held_at at 1. simpl. by rewrite lookup_insert_eq.
  - match goal with |- context [record_hold_insert e ?x ?c ?m] =>
      set (s1 := x); set (s2 := record_hold_insert e s1 c m) end.
    assert (core s2 = core s1) as Hc by apply core_stats.
    injection Hc as E1 E2 E3 E4 E5 E6 E7 E8 E9. split.
    + intros k Hk. unfold held_at at 1, state_at at 1. simpl. rewrite E1, E3. simpl.
      by rewrite lookup_insert_ne.
    + right. exists (mkHold p (meta_of p) (SteadyNowNs e s).1).
      unfold held_at at 1, state_at at 1. simpl. rewrite E1, E3. simpl. by rewrite lookup_insert_eq.
Qed.

Lemma classify_late_core s key p : exists cs',
  core (classify_late e s key p true) = core (put_state s key cs') /\
  next_expected cs' = next_expected (state_at s key).
Proof.
  exists (mark_sequenced (state_at s key) (batch_seq p)).
  split; [|apply mark_sequenced_keeps]. unfold classify_late.
  match goal with |- context [CheckAndInsertBatchId ?x ?i] => pose proof (core_dedup x i) as Hd;
    destruct (CheckAndInsertBatchId x i) as [[] s2]; simpl in Hd; [done|] end.
  rewrite <- Hd. unfold core at 1. simpl.
  change (core (record_late_drop e (accumulate_logical_only e s2 (broker_id p)
      (cached_start_logical_offset p) (num_msg p) (cached_pbr_absolute_index p)) (client_id p)) = core s2).
  unfold record_late_drop. by rewrite core_stats, core_logical.
Qed.

Lemma classify_one_step s key p :
  cs_ok (state_at s key) -> batch_ok p ->
  held_step s (classify_one e s key p true) key (batch_seq p).
Proof.
  intros Hcs Hp. unfold classify_one. destruct (fenced (state_at s key)); simpl.
  { apply held_step_same. unfold record_late_drop. by rewrite core_stats, core_logical. }
  destruct (is_duplicate _ _ && _); [apply held_step_same, core_terminalize|].
  destruct Hp as (_ & Hs & _).
  destruct (ClientEmitTracker.IsEmitted _ _).
  { eapply held_step_core; [apply core_terminalize|]. unfold mark_and_cover.
    destruct (mark_sequenced_keeps (state_at s key) (batch_seq p)) as (Hm & _).
    destruct (_ >=? _); [right|by left].
    rewrite (proj1 (set_next_expected_fields _ _)). apply u64_id. unfold seq_ok, is_u64 in *. lia. }
  rewrite Hfifo. destruct (Z.eqb_spec (batch_seq p) (next_expected (state_at s key))) as [Heq|Hne].
  { destruct (advance_ok (state_at s key) (batch_seq p) Hcs) as (Hok & Hn & Hfe); [by rewrite <- Heq|].
    destruct (emit_once_elsewhere s key (cached_batch_id p) p (advance_next_expected
      (mark_sequenced (state_at s key) (batch_seq p)))) as [Eh Ec].
    set (s' := (emit_once _ _ _ _).2) in *. clearbody s'.
    split; [intros k Hk|left]; unfold held_at, state_at; rewrite Eh, Ec.
    - by rewrite lookup_insert_ne.
    - rewrite lookup_insert_eq. split; [done|right]. simpl. simpl in Hn. lia. }
  destruct (batch_seq p <? next_expected (state_at s key)).
  { destruct (classify_late_core s key p) as (cs' & Hc & Hn). eapply held_step_core; [exact Hc|by left]. }
  rewrite classify_ahead_unfold.
  destruct (note_gap_fields (state_at s key) (SteadyNowNs e s).1) as (Hn & _).
  set (s1 := put_state (SteadyNowNs e s).2 key (note_gap (state_at s key) (SteadyNowNs e s).1)).
  assert (elsewhere s s1 key /\ held_at s1 key = held_at s key /\
    next_expected (state_at s1 key) = next_expected (state_at s key)) as (H1 & H2 & H3).
  { split; [|split; [done|by unfold s1; rewrite state_at_put]]. intros k Hk. split; [done|].
    unfold state_at. simpl. by rewrite lookup_insert_ne. }
  clearbody s1. destruct (hold_or_defer_step s1 key p) as [H4 H5]; [by rewrite H3|].
  split; [by eapply elsewhere_trans|]. by rewrite <- H2, <- H3.
Qed.
End proofs.
