(* ===== verification/ClassifierSpec.v ===== *)
(** What one call of the level-5 classifier guarantees: per-session FIFO,
    bounded holding, silence after a fence, and nothing held past its turn. *)

From S2P Require Import Prelude.
From S2P Require Import Sorting.
From S2P Require Import Frontier.
From S2P Require Import ClientState.
From S2P Require Import Dedup.
From S2P Require Import SessionTable.
From S2P Require Import Order5State.
From S2P Require Import Classifier.
From S2P Require Import ClassifierInv.
From S2P Require Import ClassifierProofs.

Section call.
  Context `{StdSort} (e : Env).
  Context (Htcc : true_client_chain e = true) (Hfifo : fifo_ablation e = false) (He : env_ok e).
  Context (base : Z).

(** * The fast path leaves nothing to drain *)

(** Nothing above [M] is held, and not the batch whose turn it is. *)
Definition settled (s : St) (key M : Z) : Prop :=
  forall h, is_Some (held_at s key !! h) -> h <= M /\ h <> next_expected (state_at s key).

Lemma settled_drained s key M : settled s key M -> drained s key.
Proof.
  intros Hs. unfold drained. destruct (held_at s key !! _) eqn:E; [|done].
  destruct (Hs (next_expected (state_at s key))) as [_ ?]; [by rewrite E|done].
Qed.

Lemma classify_one_settled s key p M :
  cs_ok (state_at s key) -> batch_ok p -> M <= batch_seq p -> settled s key M ->
  settled (classify_one e s key p true) key (batch_seq p).
Proof.
  intros Hcs Hp HM Hs. destruct (classify_one_step e Hfifo s key p Hcs Hp) as [_ [[Hh Hn]|(he & Hh & Hn & Hne)]];
    intros h; rewrite Hh.
  - intros Hin. apply Hs in Hin as [??]. destruct Hn as [-> | ->]; lia.
  - rewrite lookup_insert_is_Some. rewrite Hn. intros [<-|[_ Hin]]; [lia|]. apply Hs in Hin. lia.
Qed.

Lemma classify_sorted c0 key l : forall s M,
  inv base c0 (core s) -> opened s key -> Forall (fun p => batch_ok p /\ session_of p = key) l ->
  StronglySorted (fun a b => batch_seq a <= batch_seq b) l -> Forall (fun p => M <= batch_seq p) l ->
  settled s key M ->
  let s' := foldl (fun s p => classify_one e s key p true) s l in
  drained s' key /\ elsewhere s s' key.
Proof.
  induction l as [|p l IH]; intros s M Hinv Ho Hl Hss HM Hs.
  { split; [by eapply settled_drained|done]. }
  apply Forall_cons in Hl as [[Hp Hk] Hl]. apply Forall_cons in HM as [HMp _].
  apply StronglySorted_inv in Hss as [Hss Hge]. simpl.
  assert (cs_ok (state_at s key)) as Hcs by apply (inv_cs _ _ _ Hinv).
  destruct (classify_one_inv e Htcc Hfifo base c0 s key p Hinv Hp Hk Ho) as [Hi Hkp].
  destruct (IH (classify_one e s key p true) (batch_seq p)) as [Hd Hel]; try done.
  - by eapply keeps_opened.
  - by eapply classify_one_settled.
  - split; [done|]. eapply elsewhere_trans; [|done]. apply (classify_one_step e Hfifo s key p Hcs Hp).
Qed.

Lemma open_seed_elsewhere s key epoch :
  let s' := seed_session (open_session e s key key epoch) key in
  hold_buffer s' = hold_buffer s /\ elsewhere s s' key.
Proof.
  split; [done|]. intros k Hk. split; [done|]. unfold seed_session, open_session, state_at. simpl.
  by rewrite !lookup_insert_ne.
Qed.

Lemma fast_path_drained c0 s l :
  inv base c0 (core s) -> (forall k, held_at s k = ∅) -> Forall batch_ok l ->
  single_session l = true -> forall k, drained (fast_path e s l) k.
Proof.
  intros Hinv Hz Hl Hs k. unfold fast_path. rewrite Htcc.
  pose proof (single_session_group l Hl Hs) as [Hg Hsame].
  pose proof (std_sort_by_key batch_seq l) as Hsort.
  set (g := std_sort (by_key batch_seq) l) in *. clearbody g.
  assert (forall s', (forall k, held_at s' k = ∅) -> drained s' k) as Hempty.
  { intros s' Hz'. unfold drained. by rewrite Hz', lookup_empty. }
  destruct g as [|p g]; [by apply Hempty|]. unfold classify_session_group, classify_stream. rewrite Htcc.
  set (key := session_of p).
  assert (is_u32 (session_epoch p)) as Hep by apply (Forall_inv Hg).
  destruct (open_session_inv e He base c0 s key (session_epoch p) Hinv Hep) as (Hi1 & Ho1 & _).
  destruct (seed_session_inv base c0 _ key Hi1) as [Hi2 Hk2].
  destruct (open_seed_elsewhere s key (session_epoch p)) as [Hh2 Hel2].
  set (s2 := seed_session _ key) in *. clearbody s2.
  assert (held_at s2 key = ∅) as Hz2 by (unfold held_at; rewrite Hh2; apply Hz).
  destruct (classify_sorted c0 key (p :: g) s2 (batch_seq p)) as [Hd Hel]; try done.
  - by eapply keeps_opened.
  - rewrite Forall_forall in Hg. apply Forall_forall. intros q Hq. split; [by apply Hg|].
    apply Hsame; [done|by left].
  - apply StronglySorted_inv in Hsort as [_ Hge]. by constructor.
  - intros h. rewrite Hz2, lookup_empty. by intros [??].
  - destruct (decide (k = key)) as [->|Hne]; [done|]. unfold drained.
    destruct (Hel k Hne) as [-> ->], (Hel2 k Hne) as [-> ->]. by rewrite Hz, lookup_empty.
Qed.

(** * Between calls *)

(** The part of the invariant that does not refer to the start of a call. *)
Record shard_ok (c : Core) : Prop := {
  so_hold k held seq he : c_held c !! k = Some held -> held !! seq = Some he -> hold_ok k seq he;
  so_size : c_size c = held_total (c_held c) /\ c_size c <= kHoldBufferMaxEntries;
  so_total : c_total c = u64 (base + c_size c);
  so_with k : cheld c k <> ∅ -> k ∈ c_with_held c;
  so_cs k : cs_ok (cstate c k);
  so_fence k : fenced (cstate c k) = true \/ durable_fenced (c_table c) k = true -> cheld c k = ∅;
  so_table : table_ok (c_table c);
  so_track k : track_ok (ctracker c k);
  so_deferred : Forall batch_ok (c_deferred c);
}.

Lemma inv_shard_ok c0 c : inv base c0 c -> shard_ok c.
Proof. intros []. by split. Qed.

Lemma shard_ok_start c c' :
  shard_ok c -> c' = mkCore (c_states c) (c_trackers c) (c_held c) (c_size c) (c_total c)
    (c_with_held c) [] (c_table c) [] -> inv base c c'.
Proof. intros [] ->. split; try done. intros k. split; constructor. Qed.

Lemma shard_ok_inv c : shard_ok c -> c_ready c = [] -> inv base c c.
Proof.
  intros [] Hr. split; try done.
  - intros k. unfold emits. rewrite Hr. split; constructor.
  - intros k Hk. unfold emits. by rewrite Hr.
  - by rewrite Hr.
Qed.

Lemma shard_ok_taken c c' :
  shard_ok c -> c' = mkCore (c_states c) (c_trackers c) (c_held c) (c_size c) (c_total c)
    (c_with_held c) (c_deferred c) (c_table c) [] -> shard_ok c'.
Proof. by intros [] ->. Qed.

(** The eviction of a session that holds nothing. *)
Lemma shard_ok_evict s k :
  shard_ok (core s) -> held_at s k = ∅ ->
  shard_ok (core (gc_evict s k)) /\ (forall k', held_at (gc_evict s k) k' = held_at s k') /\
  (forall k', drained s k' -> drained (gc_evict s k) k').
Proof.
  intros [H1 [H2 H2'] H3 H4 H5 H6 H7 H8 H9] Hz.
  assert (forall k', held_at (gc_evict s k) k' = held_at s k') as Hh.
  { intros k'. unfold held_at, gc_evict. simpl. rewrite lookup_delete. case_decide; [subst|done].
    symmetry. exact Hz. }
  assert (core (gc_evict s k) = mkCore (delete k (client_state s)) (delete k (client_emitted_tracker s))
    (delete k (hold_buffer s)) (hold_buffer_size s) (total_hold_size s)
    (clients_with_held_batches s ∖ {[k]}) (deferred_level5 s) (session_table s) (ready s)) as Hc.
  { unfold core, gc_evict. simpl. rewrite Hz, map_size_empty, !Z.sub_0_r.
    unfold core in H2, H2', H3; simpl in H2, H2', H3.
    pose proof (held_total_nonneg (hold_buffer s)). unfold kHoldBufferMaxEntries in *.
    rewrite H3, u64_idemp. rewrite (u64_id (hold_buffer_size s)) by (unfold is_u64; lia). done. }
  split; [|split; [exact Hh|]].
  - rewrite Hc. unfold core in *. simpl in *. split; try done; simpl.
    + intros k' held seq he [_ Hk']%lookup_delete_Some. by apply H1.
    + split; [|done]. rewrite held_total_delete. fold (held_at s k). rewrite Hz, map_size_empty. lia.
    + intros k' Hk'. assert (held_at s k' <> ∅) as Hne by (rewrite <- Hh; by unfold gc_evict).
      specialize (H4 k' Hne). assert (k' <> k) by congruence. set_solver.
    + intros k'. unfold cstate. simpl. rewrite lookup_delete. case_decide; [|apply H5].
      unfold cs_ok, limit, is_u32. simpl. lia.
    + intros k' Hk'. change (held_at (gc_evict s k) k' = ∅). rewrite Hh.
      destruct (decide (k' = k)) as [->|Hne]; [done|]. apply H6.
      revert Hk'. unfold cstate. simpl. by rewrite lookup_delete_ne.
    + intros k'. unfold ctracker. simpl. rewrite lookup_delete. case_decide; [|apply H8].
      split; [by left|set_solver].
  - intros k' Hd. unfold drained. rewrite Hh. destruct (decide (k' = k)) as [->|Hne].
    + by rewrite Hz, lookup_empty.
    + unfold drained in Hd. rewrite <- Hd. unfold state_at, gc_evict. simpl. by rewrite lookup_delete_ne.
Qed.

(** Garbage collection keeps the shard well-formed, and [ready] untouched. *)
Lemma gc_ok s :
  shard_ok (core s) ->
  shard_ok (core (ClientGc e s)) /\ ready (ClientGc e s) = ready s /\
  session_table (ClientGc e s) = session_table s /\
  (forall k', held_at (ClientGc e s) k' = held_at s k') /\
  (forall k', drained s k' -> drained (ClientGc e s) k').
Proof.
  intros Hok. unfold ClientGc. destruct (negb _); [done|].
  set (l := filter _ _).
  assert (Forall (fun kv => held_at s kv.1 = ∅) l) as Hl.
  { apply Forall_forall. intros kv [Hg _]%list_elem_of_filter. unfold gc_evictable in Hg.
    do 3 apply andb_true_iff in Hg as [Hg _]. by apply bool_decide_eq_true in Hg. }
  clearbody l. revert s Hok Hl. induction l as [|kv l IH]; intros s Hok Hl; [done|].
  apply Forall_cons in Hl as [Hkv Hl]. simpl.
  destruct (shard_ok_evict s kv.1 Hok Hkv) as (Hok1 & Hh1 & Hd1).
  destruct (IH (gc_evict s kv.1) Hok1) as (Hok2 & Hr2 & Ht2 & Hh2 & Hd2).
  { eapply Forall_impl; [exact Hl|]. simpl. intros x Hx. by rewrite Hh1. }
  split; [done|split; [done|split; [done|split; [|auto]]]]. intros k'. by rewrite Hh2.
Qed.

(** * One call *)

Lemma credit_core s : core (credit_terminalized e s) = core s.
Proof.
  unfold credit_terminalized. generalize (map_to_list (terminalized_delta s)) as l.
  intros l. revert s. induction l as [|kv l IH]; intros s; [done|]. simpl. by rewrite IH.
Qed.

Lemma core_drained s s' k : core s' = core s -> drained s k -> drained s' k.
Proof. unfold drained, held_at, state_at. intros [= -> _ -> _ _ _ _ _ _]. done. Qed.

(** The state [c] before garbage collection. *)
Lemma call_spec s level5 :
  shard_ok (core s) -> ready s = [] -> Forall input_ok level5 ->
  let s' := ProcessLevel5BatchesShard e s level5 in
  exists c, inv base (core s) c /\ c_ready c = ready s' /\ c_table c = session_table s' /\
    shard_ok (core s') /\ (forall k, held_at s' k = cheld c k) /\ forall k, drained s' k.
Proof.
  intros Hok Hr Hin. unfold ProcessLevel5BatchesShard, begin_call, skip_filter.
  set (l := level5 ++ deferred_level5 s).
  assert (Forall input_ok l) as Hl.
  { apply Forall_app. split; [done|]. eapply Forall_impl; [apply (so_deferred _ Hok)|].
    intros p ((Hsk & Hm) & Hs & Hep & Hmo). by split. }
  match goal with |- context [foldl (skip_one e) ?x _] => set (s1 := x) end.
  assert (inv base (core s) (core s1)) as Hi1.
  { eapply (shard_ok_start (core s)); [done|]. unfold core. simpl. by rewrite Hr. }
  pose proof (skips_inv e Htcc He base (core s) l s1 Hi1 Hl) as Hi2.
  set (s2 := foldl (skip_one e) s1 _) in *. clearbody s1 s2.
  set (bs := filter (fun p => skipped p = false) l).
  assert (Forall batch_ok bs) as Hb.
  { apply Forall_forall. intros p [Hsk Hp]%list_elem_of_filter. rewrite Forall_forall in Hl.
    destruct (Hl p Hp) as (Hm & Hs & Hep & Hmo). split; [by split|by split]. }
  assert (forall s3, inv base (core s) (core s3) -> (forall k, drained s3 k) ->
    exists c, inv base (core s) c /\ c_ready c = ready (ClientGc e s3) /\
      c_table c = session_table (ClientGc e s3) /\ shard_ok (core (ClientGc e s3)) /\
      (forall k, held_at (ClientGc e s3) k = cheld c k) /\ forall k, drained (ClientGc e s3) k) as Hgc.
  { intros s3 Hi3 Hd3. destruct (gc_ok s3 (inv_shard_ok _ _ Hi3)) as (Hg1 & Hg2 & Hg3 & Hg4 & Hg5).
    exists (core s3). repeat (split; [done|]). auto. }
  destruct (_ && single_session bs) eqn:Ef; bool_props.
  - apply Hgc; [by apply fast_path_inv|].
    apply (fast_path_drained (core s)); try done. intros k.
    destruct (inv_size _ _ _ Hi2) as [Hsz _]. pose proof (held_total_at (hold_buffer s2) k) as Hat.
    fold (held_at s2 k) in Hat. change (hold_buffer_size s2 = held_total (hold_buffer s2)) in Hsz.
    apply map_size_empty_inv. lia.
  - pose proof (general_path_inv e Htcc Hfifo He base (core s) s2 bs Hi2 Hb) as Hi3.
    set (s3 := general_path e s2 bs) in *. clearbody s3.
    destruct (drain_inv e Htcc Hfifo He base (core s) s3 false Hi3) as [Hi4 _].
    pose proof (expiry_sweep_inv e Htcc base (core s) _ Hi4) as Hi5.
    destruct (drain_inv e Htcc Hfifo He base (core s) _ true Hi5) as [Hi6 Hd6].
    set (s6 := drain e (expiry_sweep e (drain e s3 false)) true) in *. clearbody s6.
    destruct (capacity_exhausted s6).
    + exists (core s6). repeat (split; [done|]). split; [by eapply inv_shard_ok|by split].
    + apply Hgc; [by rewrite credit_core|]. intros k. eapply core_drained; [apply credit_core|done].
Qed.
End call.

(** * What a call guarantees *)

Section guarantees.
  Context `{StdSort}.

(** C7. Per-session FIFO: with the true client chain and no FIFO ablation, the
    batches of a session that one call hands to commit have strictly increasing
    sequence numbers, none below the frontier the session had when the call
    began.  The sequence numbers are below 2^63, and the ready list was empty. *)
Theorem classifier_session_fifo e base s level5 key :
  true_client_chain e = true -> fifo_ablation e = false -> env_ok e ->
  shard_ok base (core s) -> ready s = [] -> Forall input_ok level5 ->
  let s' := ProcessLevel5BatchesShard e s level5 in
  StronglySorted Z.lt (emits (core s') key) /\
  Forall (fun q => next_expected (state_at s key) <= q) (emits (core s') key).
Proof.
  intros Htcc Hff He Hok Hr Hin s'.
  destruct (call_spec e Htcc Hff He base s level5 Hok Hr Hin) as (c & Hi & Hcr & _).
  assert (emits (core s') key = emits c key) as Hem
    by (unfold emits; rewrite Hcr; reflexivity).
  destruct (inv_emits _ _ _ Hi key) as [Hs Hb]. rewrite Hem. split; [done|].
  eapply Forall_impl; [exact Hb|]. simpl. intros q [? _]. done.
Qed.

(** C26. Bounded holding: with the true client chain and no FIFO ablation, the
    shard's counters stay exact and the invariants of the shard survive the
    call, so the next one may rely on them.  Sequence numbers are below 2^63, and
    the ready list was empty. *)
Theorem classifier_keeps_shard e base s level5 :
  true_client_chain e = true -> fifo_ablation e = false -> env_ok e ->
  shard_ok base (core s) -> ready s = [] -> Forall input_ok level5 ->
  let s' := ProcessLevel5BatchesShard e s level5 in
  shard_ok base (core (s' <| ready := [] |>)) /\
  hold_buffer_size s' = held_total (hold_buffer s') /\
  hold_buffer_size s' <= kHoldBufferMaxEntries /\
  total_hold_size s' = u64 (base + hold_buffer_size s').
Proof.
  intros Htcc Hff He Hok Hr Hin s'.
  destruct (call_spec e Htcc Hff He base s level5 Hok Hr Hin) as (c & _ & _ & _ & Hok' & _).
  fold s' in Hok'. split; [by eapply (shard_ok_taken base (core s'))|].
  destruct (so_size _ _ Hok') as [Hs1 Hs2]. split; [exact Hs1|split; [exact Hs2|]].
  exact (so_total _ _ Hok').
Qed.

(** C24. Silence after a fence: with the true client chain and no FIFO ablation,
    a session fenced in memory or in the durable table when the call begins has
    no batch handed to commit and none held; a durable fence is never lifted.
    Sequence numbers are below 2^63, and the ready list was empty. *)
Theorem fenced_session_is_silent e base s level5 key :
  true_client_chain e = true -> fifo_ablation e = false -> env_ok e ->
  shard_ok base (core s) -> ready s = [] -> Forall input_ok level5 ->
  fenced (state_at s key) = true \/ durable_fenced (session_table s) key = true ->
  let s' := ProcessLevel5BatchesShard e s level5 in
  emits (core s') key = [] /\ held_at s' key = ∅ /\
  (durable_fenced (session_table s) key = true -> durable_fenced (session_table s') key = true).
Proof.
  intros Htcc Hff He Hok Hr Hin Hf s'.
  destruct (call_spec e Htcc Hff He base s level5 Hok Hr Hin) as (c & Hi & Hcr & Hct & _ & Hh & _).
  fold s' in Hcr, Hct, Hh. destruct (inv_silent _ _ _ Hi key Hf) as [Hem Hfe].
  assert (emits (core s') key = emits c key) as Hem'
    by (unfold emits; rewrite Hcr; reflexivity).
  split; [by rewrite Hem'|split].
  - rewrite Hh. by apply (inv_fence _ _ _ Hi).
  - rewrite <- Hct. apply (inv_durable _ _ _ Hi).
Qed.

(** C25. Nothing is held past its turn: with the true client chain and no FIFO
    ablation, when the call returns no session holds the batch its frontier
    waits for.  Sequence numbers are below 2^63, and the ready list was empty. *)
Theorem no_batch_held_at_frontier e base s level5 key :
  true_client_chain e = true -> fifo_ablation e = false -> env_ok e ->
  shard_ok base (core s) -> ready s = [] -> Forall input_ok level5 ->
  let s' := ProcessLevel5BatchesShard e s level5 in
  held_at s' key !! next_expected (state_at s' key) = None.
Proof.
  intros Htcc Hff He Hok Hr Hin s'.
  destruct (call_spec e Htcc Hff He base s level5 Hok Hr Hin) as (c & _ & _ & _ & _ & _ & Hd).
  apply Hd.
Qed.

(** The lease bounds a gap: a session whose next batch has been missing
    for the effective lease when the sweep reads the clock is fenced by the
    sweep, unless the session table is full and the topic stops. *)
Theorem expired_gap_is_fenced e base s key :
  true_client_chain e = true -> env_ok e -> shard_ok base (core s) -> ready s = [] ->
  gap_expired s key (clock e (ticks s))
    (EffectiveOrder5SessionFenceLeaseNs (session_lease_ns e)
       (clock e (ticks s) <? force_expire_hold_until_ns s)) ->
  fenced (state_at (expiry_sweep e s) key) = true \/ capacity_exhausted (expiry_sweep e s) = true.
Proof.
  intros Htcc He Hok Hr Hg.
  exact (expiry_sweep_fences e Htcc He base (core s) s key (shard_ok_inv base (core s) Hok Hr) Hg).
Qed.
End guarantees.

(** * A run *)

Definition demo_env : Env :=
  mkEnv true false 1000000000 5 1 1 1048576 true ∅ (fun n => 10000000000 * (Z.of_nat n + 1)) elements.
Definition demo_batch (client seq id : Z) : PendingBatch5 :=
  batch_zero <| hdr := 4096 + id |> <| num_msg := 10 |> <| client_id := client |>
    <| batch_seq := seq |> <| Order5State.session_epoch := 1 |> <| cached_batch_id := id |>.

(** The first call releases batch 0 and holds batch 2 until batch 1 is there. *)
Definition demo_first : list PendingBatch5 := [demo_batch 7 2 102; demo_batch 7 0 100].
Definition demo_state : St := (ProcessLevel5BatchesShard demo_env St_init demo_first) <| ready := [] |>.
Definition demo_second : list PendingBatch5 := [demo_batch 7 1 101; demo_batch 8 0 200].
Definition demo_key : Z := MakeSessionKey 7 1.


(** Batch 0 of this client does not come, and its lease runs out. *)
Definition demo_third : list PendingBatch5 := [demo_batch 9 1 301].
Definition demo_gap : St := (ProcessLevel5BatchesShard demo_env St_init demo_third) <| ready := [] |>.
Definition demo_fenced : St := (ProcessLevel5BatchesShard demo_env demo_gap []) <| ready := [] |>.
Definition demo_late : list PendingBatch5 := [demo_batch 9 0 300].

Lemma demo_env_ok : env_ok demo_env.
Proof.
  split; [by intros X|split; [unfold is_u64; simpl; lia|]]. intros k n Hk.
  simpl in Hk. by rewrite lookup_empty in Hk.
Qed.

Lemma shard_ok_init : shard_ok 0 (core St_init).
Proof.
  split; simpl; try done.
  - split; [apply SessionTable.wf_empty|]. intros k en Hk. destruct (decide (k = 0)) as [->|Hne]; [done|].
    apply SessionTable.view_iff in Hk as (i & _ & Hi & _); [|apply SessionTable.wf_empty|done].
    unfold SessionTable.key_at, SessionTable.slot in Hi. by rewrite lookup_empty in Hi.
  - intros k. split; [by left|set_solver].
Qed.

Lemma demo_ok base s l :
  shard_ok base (core s) -> ready s = [] -> Forall input_ok l ->
  shard_ok base (core ((ProcessLevel5BatchesShard demo_env s l) <| ready := [] |>)).
Proof.
  intros Hok Hr Hl.
  destruct (call_spec demo_env eq_refl eq_refl demo_env_ok base s l Hok Hr Hl)
    as (c & _ & _ & _ & Hok' & _).
  by eapply (shard_ok_taken base (core (ProcessLevel5BatchesShard demo_env s l))).
Qed.

Lemma demo_batch_ok client seq id : seq_ok seq -> input_ok (demo_batch client seq id).
Proof. intros Hs. split; [done|split; [exact Hs|split; [unfold is_u32; simpl; lia|split; [done|unfold is_u32; simpl; lia]]]]. Qed.

Lemma demo_inputs :
  Forall input_ok demo_first /\ Forall input_ok demo_second /\ Forall input_ok demo_third /\
  Forall input_ok demo_late.
Proof. by split_and!; repeat (apply Forall_cons_2; [apply demo_batch_ok; unfold seq_ok; lia|]). Qed.

Lemma taken_ready s : ready (s <| ready := [] |>) = [].
Proof. done. Qed.

Lemma demo_gap_ok : shard_ok 0 (core demo_gap).
Proof. exact (demo_ok 0 St_init demo_third shard_ok_init eq_refl (proj1 (proj2 (proj2 demo_inputs)))). Qed.

Lemma demo_states_ok : shard_ok 0 (core demo_state) /\ shard_ok 0 (core demo_fenced).
Proof.
  destruct demo_inputs as (H1 & H2 & H3 & H4).
  split; [exact (demo_ok 0 St_init demo_first shard_ok_init eq_refl H1)|].
  exact (demo_ok 0 demo_gap [] demo_gap_ok (taken_ready _) (Forall_nil_2 _)).
Qed.

Lemma classifier_session_fifo_witness :
  let s' := ProcessLevel5BatchesShard demo_env demo_state demo_second in
  emits (core s') demo_key = [1; 2] /\
  (StronglySorted Z.lt (emits (core s') demo_key) /\
   Forall (fun q => next_expected (state_at demo_state demo_key) <= q) (emits (core s') demo_key)).
Proof.
  split; [vm_compute; reflexivity|].
  refine (classifier_session_fifo demo_env 0 demo_state demo_second demo_key eq_refl eq_refl
    demo_env_ok (proj1 demo_states_ok) (taken_ready _) _).
  apply demo_inputs.
Defined.

Lemma classifier_keeps_shard_witness :
  let s' := ProcessLevel5BatchesShard demo_env St_init demo_first in
  hold_buffer_size s' = 1 /\
  (shard_ok 0 (core (s' <| ready := [] |>)) /\
   hold_buffer_size s' = held_total (hold_buffer s') /\
   hold_buffer_size s' <= kHoldBufferMaxEntries /\
   total_hold_size s' = u64 (0 + hold_buffer_size s')).
Proof.
  split; [vm_compute; reflexivity|].
  refine (classifier_keeps_shard demo_env 0 St_init demo_first eq_refl eq_refl
    demo_env_ok shard_ok_init eq_refl _).
  apply demo_inputs.
Defined.

Lemma fenced_session_is_silent_witness :
  durable_fenced (session_table demo_fenced) (MakeSessionKey 9 1) = true /\
  let s' := ProcessLevel5BatchesShard demo_env demo_fenced demo_late in
  emits (core s') (MakeSessionKey 9 1) = [] /\ held_at s' (MakeSessionKey 9 1) = ∅ /\
  (durable_fenced (session_table demo_fenced) (MakeSessionKey 9 1) = true ->
   durable_fenced (session_table s') (MakeSessionKey 9 1) = true).
Proof.
  assert (durable_fenced (session_table demo_fenced) (MakeSessionKey 9 1) = true) as Hf
    by (vm_compute; reflexivity).
  split; [exact Hf|].
  refine (fenced_session_is_silent demo_env 0 demo_fenced demo_late (MakeSessionKey 9 1) eq_refl
    eq_refl demo_env_ok (proj2 demo_states_ok) (taken_ready _) _ (or_intror Hf)).
  apply demo_inputs.
Defined.

Lemma no_batch_held_at_frontier_witness :
  let s' := ProcessLevel5BatchesShard demo_env demo_state demo_second in
  held_at s' demo_key !! next_expected (state_at s' demo_key) = None.
Proof.
  refine (no_batch_held_at_frontier demo_env 0 demo_state demo_second demo_key eq_refl eq_refl
    demo_env_ok (proj1 demo_states_ok) (taken_ready _) _).
  apply demo_inputs.
Defined.

Lemma expired_gap_is_fenced_witness :
  fenced (state_at demo_gap (MakeSessionKey 9 1)) = false /\
  (fenced (state_at (expiry_sweep demo_env demo_gap) (MakeSessionKey 9 1)) = true \/
   capacity_exhausted (expiry_sweep demo_env demo_gap) = true).
Proof.
  split; [vm_compute; reflexivity|].
  refine (expired_gap_is_fenced demo_env 0 demo_gap (MakeSessionKey 9 1) eq_refl demo_env_ok
    demo_gap_ok (taken_ready _) _).
  split; [intros Hz; apply (f_equal size) in Hz; vm_compute in Hz; discriminate|].
  split; [vm_compute; reflexivity|]. split; [vm_compute; reflexivity|].
  split; [vm_compute; reflexivity|]. split; vm_compute; reflexivity.
Defined.

(** ** Two observations about the code *)

(** A late batch is terminalized without being ordered again, and its messages
    are to be credited to the client's acknowledged count.  The general path
    does so; the fast path, taken when the epoch has a single session, returns
    before the credit. *)
Definition late_env : Env :=
  mkEnv true false 1000000000 5 1 1 1048576 true {[ demo_key := 5 ]} (fun n => Z.of_nat n + 1) elements.

Theorem fast_path_drops_terminalized_credit :
  let alone := ProcessLevel5BatchesShard late_env St_init [demo_batch 7 3 103] in
  let with_other := ProcessLevel5BatchesShard late_env St_init
                      [demo_batch 7 3 103; demo_batch 8 0 200] in
  terminalized_delta alone !! 7 = Some 10 /\ per_client_ordered alone !! 7 = None /\
  per_client_ordered with_other !! 7 = Some 10.
Proof. vm_compute. done. Qed.

(** A held batch that a skip marker's jump leaves below the frontier of a
    session without an epoch is neither released nor retired. *)
Definition legacy_batch (seq id : Z) (skip : bool) : PendingBatch5 :=
  (demo_batch 7 seq id) <| Order5State.session_epoch := 0 |> <| skipped := skip |>.

Theorem skip_strands_held_batch :
  let s1 := ProcessLevel5BatchesShard demo_env St_init [legacy_batch 2 102 false] in
  let s2 := ProcessLevel5BatchesShard demo_env (s1 <| ready := [] |>) [legacy_batch 5 105 true] in
  let s3 := ProcessLevel5BatchesShard demo_env (s2 <| ready := [] |>) [] in
  next_expected (state_at s2 (MakeSessionKey 7 0)) = 6 /\
  size (held_at s2 (MakeSessionKey 7 0)) = 1%nat /\ size (held_at s3 (MakeSessionKey 7 0)) = 1%nat.
Proof. vm_compute. done. Qed.
