(* ===== verification/Commit.v ===== *)
(** Committing an epoch: [CommitEpoch] of src/embarlet/topic_order5_commit.cc
    with the completion-vector updates, and
    [AdvanceConsumedThroughForProcessedSlots] of
    src/embarlet/topic_order5_scanner.cc. *)

From S2P Require Import Prelude ClientState SessionTable Reservation Order5State.

(** * Shared memory *)

Record GOIEntry := mkGOI {
  goi_global_seq : Z;
  goi_batch_id : Z;
  goi_total_order : Z;
  goi_broker_id : Z;
  goi_epoch_sequenced : Z;
  goi_blog_offset : Z;
  goi_payload_size : Z;
  goi_message_count : Z;
  goi_num_replicated : Z;
  goi_client_id : Z;
  goi_client_seq : Z;
  goi_pbr_index : Z;
  goi_cumulative_message_count : Z;
  goi_session_epoch : Z;
}.

(** A ring slot.  The producer's ring of a broker is also where the sequencer
    writes that broker's export descriptors. *)
Record BatchHeader := mkHeader {
  bh_batch_seq : Z;
  bh_client_id : Z;
  bh_num_msg : Z;
  bh_batch_complete : Z;
  bh_broker_id : Z;
  bh_ordered : Z;
  bh_flags : Z;
  bh_epoch_created : Z;
  bh_session_epoch : Z;
  bh_session_epoch32 : Z;
  bh_batch_id : Z;
  bh_pbr_absolute_index : Z;
  bh_total_size : Z;
  bh_start_logical_offset : Z;
  bh_log_idx : Z;
  bh_total_order : Z;
  bh_batch_off_to_export : Z;
  bh_publish_commit : Z;
}.
#[global] Instance eta_BatchHeader : Eta BatchHeader := fun h =>
  mkHeader (bh_batch_seq h) (bh_client_id h) (bh_num_msg h) (bh_batch_complete h) (bh_broker_id h)
    (bh_ordered h) (bh_flags h) (bh_epoch_created h) (bh_session_epoch h) (bh_session_epoch32 h)
    (bh_batch_id h) (bh_pbr_absolute_index h) (bh_total_size h) (bh_start_logical_offset h)
    (bh_log_idx h) (bh_total_order h) (bh_batch_off_to_export h) (bh_publish_commit h).
Definition header_zero : BatchHeader := mkHeader 0 0 0 0 0 0 0 0 0 0 0 0 0 0 0 0 0 0.

Definition kBatchHeaderFlagRetired : Z := 4.
Definition kBatchHeaderPublishUncommitted : Z := U64_MAX.

(** [tinode_->offsets[b]]. *)
Record Offsets := mkOffsets {
  o_ordered : Z;
  o_ordered_offset : Z;
  o_consumed_through : Z;
  o_batch_headers_offset : Z;
}.
#[global] Instance eta_Offsets : Eta Offsets := fun o =>
  mkOffsets (o_ordered o) (o_ordered_offset o) (o_consumed_through o) (o_batch_headers_offset o).
Definition offsets_zero : Offsets := mkOffsets 0 0 0 0.

Record CompletionVectorEntry := mkCV {
  completed_pbr_head : Z;
  sequencer_logical_offset : Z;
  completed_logical_offset : Z;
}.
#[global] Instance eta_CV : Eta CompletionVectorEntry := fun c =>
  mkCV (completed_pbr_head c) (sequencer_logical_offset c) (completed_logical_offset c).
Definition kNoProgress : Z := U64_MAX.
(** As the head initialises the vector. *)
Definition cv_zero : CompletionVectorEntry := mkCV kNoProgress 0 0.

Definition kGOICapacity : Z := 256 * 1024 * 1024.

(** What a commit reads and never writes. *)
Record CEnv := mkCEnv {
  cxl_addr : Z;
  ce_BATCHHEADERS_SIZE : Z;
  ce_true_client_chain : bool;
  replication_factor : Z;
  producing_epoch : Z;              (** [cached_epoch_] *)
  shards : list St;                 (** [level5_shards_] *)
  publish_order : gset Z -> list Z; (** traversal of [session_publish_epoch] *)
}.

Record CSt := mkCSt {
  cs_table : gmap Z SessionTable.SessionEntry;
  cs_exhausted : bool;              (** [order5_capacity_exhausted_] *)
  global_batch_seq : Z;
  global_seq : Z;
  goi : gmap Z GOIEntry;
  headers : gmap Z BatchHeader;     (** ring slots, by address *)
  offsets : gmap Z Offsets;         (** by broker *)
  cv : gmap Z CompletionVectorEntry;
  export_cursor : gmap Z Z;         (** [export_cursor_by_broker_], 0 for null *)
  export_sequence : gmap Z Z;
  client_ordered : gmap Z Z;        (** [per_client_ordered_] *)
  client_ordered_epoch : gmap Z Z;
  committed_batches : gmap Z Z;     (** [sequencer_committed_batches_] *)
  committed_msgs : gmap Z Z;
  completed_ranges : list (Z * Z);  (** ranges handed to the committed-seq updater *)
  spatial_guard_rejects : Z;
}.
#[global] Instance eta_CSt : Eta CSt := fun s =>
  mkCSt (cs_table s) (cs_exhausted s) (global_batch_seq s) (global_seq s) (goi s) (headers s)
    (offsets s) (cv s) (export_cursor s) (export_sequence s) (client_ordered s)
    (client_ordered_epoch s) (committed_batches s) (committed_msgs s) (completed_ranges s)
    (spatial_guard_rejects s).

Definition header_at (s : CSt) (a : Z) : BatchHeader := default header_zero (headers s !! a).
Definition offsets_at (s : CSt) (b : Z) : Offsets := default offsets_zero (offsets s !! b).
Definition cv_at (s : CSt) (b : Z) : CompletionVectorEntry := default cv_zero (cv s !! b).
Definition put_header (s : CSt) (a : Z) (h : BatchHeader) : CSt := s <| headers := <[a := h]> (headers s) |>.
Definition put_offsets (s : CSt) (b : Z) (o : Offsets) : CSt := s <| offsets := <[b := o]> (offsets s) |>.
Definition put_cv (s : CSt) (b : Z) (c : CompletionVectorEntry) : CSt := s <| cv := <[b := c]> (cv s) |>.
Definition brokers : list Z := Z.of_nat <$> seq 0 32.
Definition in_brokers (b : Z) : bool := (b >=? 0) && (b <? NUM_MAX_BROKERS).

Definition ClearOrder5PublishState (s : CSt) (a : Z) : CSt :=
  if a =? 0 then s
  else put_header s a ((header_at s a) <| bh_publish_commit := kBatchHeaderPublishUncommitted |>
                         <| bh_batch_complete := 0 |> <| bh_flags := kBatchHeaderFlagRetired |>).

(** [StopForCapacityExhaustion]: also stops the shard workers. *)
Definition StopForCapacity (s : CSt) : CSt := s <| cs_exhausted := true |>.

(** * Entries of [ready]

    A batch released from the hold buffer is described by its [hold_meta], any
    other one by its own fields. *)
Definition e_client_id (p : PendingBatch5) := if from_hold p then m_client_id (hold_meta p) else client_id p.
Definition e_session_epoch (p : PendingBatch5) :=
  if from_hold p then m_session_epoch (hold_meta p) else session_epoch p.
Definition e_batch_seq (p : PendingBatch5) := if from_hold p then m_batch_seq (hold_meta p) else batch_seq p.
Definition e_broker_id (p : PendingBatch5) := if from_hold p then m_broker_id (hold_meta p) else broker_id p.
Definition e_num_msg (p : PendingBatch5) := if from_hold p then m_num_msg (hold_meta p) else num_msg p.
Definition e_log_idx (p : PendingBatch5) := if from_hold p then m_log_idx (hold_meta p) else cached_log_idx p.
Definition e_total_size (p : PendingBatch5) :=
  if from_hold p then m_total_size (hold_meta p) else cached_total_size p.
Definition e_batch_id (p : PendingBatch5) := if from_hold p then m_batch_id (hold_meta p) else cached_batch_id p.
Definition e_pbr_index (p : PendingBatch5) :=
  if from_hold p then m_pbr_absolute_index (hold_meta p) else cached_pbr_absolute_index p.
Definition e_epoch_created (p : PendingBatch5) :=
  if from_hold p then m_epoch_created (hold_meta p) else epoch_created p.
Definition e_start_logical_offset (p : PendingBatch5) :=
  if from_hold p then m_start_logical_offset (hold_meta p) else cached_start_logical_offset p.
Definition e_slot_offset (p : PendingBatch5) :=
  if from_hold p then m_slot_offset (hold_meta p) else slot_offset p.

Definition committable (p : PendingBatch5) : bool := negb (skipped p || is_held_marker p).

Section commit.
  Context (e : CEnv).

(** * The spatial guard *)

(** The session's entry, claimed when it has none. *)
Definition guard_entry (s : CSt) (session_key : Z) : option Z * CSt :=
  match SessionTable.FindSessionEntry (cs_table s) session_key with
  | Some i => (Some i, s)
  | None =>
      let '(i, t) := SessionTable.FindOrCreateSessionEntry (cs_table s) session_key in
      (i, s <| cs_table := t |>)
  end.

(** The predicate of [std::remove_if]; the flag says that a session could not
    be admitted to the table. *)
Definition spatial_guard_reject (s : CSt) (failed : bool) (p : PendingBatch5) : bool * bool * CSt :=
  if skipped p || is_held_marker p then (false, failed, s)
  else if e_session_epoch p =? 0 then (false, failed, s)
  else
    let session_key := MakeSessionKey (e_client_id p) (e_session_epoch p) in
    let '(entry, s) := guard_entry s session_key in
    match entry with
    | None => (false, true, s)
    | Some i =>
        let entry := SessionTable.slot (cs_table s) i in
        let flags := Z.land (SessionTable.state_word entry) 4294967295 in
        let active := negb (Z.land flags kSessionEntryFlagActive =? 0) in
        let fenced := negb (Z.land flags kSessionEntryFlagFenced =? 0) in
        if negb active then (false, failed, s)
        else if negb (ShouldRejectOrder5SpatialGuard active fenced (e_batch_seq p)
                        (SessionTable.expected_seq entry))
        then (false, failed, s)
        else
          let s := s <| spatial_guard_rejects := spatial_guard_rejects s +u 1 |> in
          (true, failed, if hdr p =? 0 then s else ClearOrder5PublishState s (hdr p))
    end.

(** [ready.erase(std::remove_if(...))]. *)
Fixpoint guard_ready (s : CSt) (failed : bool) (ready : list PendingBatch5)
    : list PendingBatch5 * bool * CSt :=
  match ready with
  | [] => ([], failed, s)
  | p :: ready =>
      let '(reject, failed, s) := spatial_guard_reject s failed p in
      let '(kept, failed, s) := guard_ready s failed ready in
      (if reject then kept else p :: kept, failed, s)
  end.

(** The messages and the GOI slots the epoch needs; [None] when an entry has no
    header or the messages overflow. *)
Fixpoint count_ready (ready : list PendingBatch5) (total_msg num_goi : Z) : option (Z * Z) :=
  match ready with
  | [] => Some (total_msg, num_goi)
  | p :: ready =>
      if negb (committable p) then count_ready ready total_msg num_goi
      else if (negb (from_hold p) && (hdr p =? 0)) || (num_msg p >? U64_MAX - total_msg) then None
      else count_ready ready (total_msg + num_msg p) (num_goi + 1)
  end.

(** * The global order index *)

(** [goi_cumulative_tracker] and [goi_tracker_initialized]. *)
Definition goi_tracker_at (s : CSt) (tr : gmap Z Z) (b : Z) : Z :=
  match tr !! b with Some v => v | None => o_ordered (offsets_at s b) end.

(** The cumulative count stored in the entry, and the tracker after it. *)
Definition goi_cumulative (s : CSt) (tr : gmap Z Z) (b n : Z) : Z * gmap Z Z :=
  if in_brokers b then
    let c := goi_tracker_at s tr b +u n in (c, <[b := c]> tr)
  else (n, tr).

Definition goi_one (st : CSt * Z * Z * gmap Z Z) (p : PendingBatch5) : CSt * Z * Z * gmap Z Z :=
  let '(s, batch_index, next_order, tr) := st in
  if negb (committable p) then st
  else if from_hold p then
    let m := hold_meta p in
    let '(cumulative, tr) := goi_cumulative s tr (m_broker_id m) (m_num_msg m) in
    let entry := mkGOI batch_index (m_batch_id m) next_order (u16 (m_broker_id m)) (m_epoch_created m)
                   (m_log_idx m) (u32 (m_total_size m)) (u32 (m_num_msg m)) 0 (m_client_id m)
                   (m_batch_seq m) (m_pbr_absolute_index m) cumulative (m_session_epoch m) in
    (s <| goi := <[batch_index := entry]> (goi s) |>, batch_index + 1, next_order +u m_num_msg m, tr)
  else if hdr p =? 0 then (s, batch_index + 1, next_order, tr)
  else
    let '(cumulative, tr) := goi_cumulative s tr (broker_id p) (num_msg p) in
    let h := (header_at s (hdr p)) <| bh_total_order := next_order |> in
    let entry := mkGOI batch_index (cached_batch_id p) next_order (u16 (broker_id p)) (epoch_created p)
                   (cached_log_idx p) (u32 (cached_total_size p)) (u32 (num_msg p)) 0 (client_id p)
                   (bh_batch_seq h) (cached_pbr_absolute_index p) cumulative (session_epoch p) in
    ((put_header s (hdr p) h) <| goi := <[batch_index := entry]> (goi s) |>, batch_index + 1,
     next_order +u num_msg p, tr).

Definition goi_loop (s : CSt) (base_index base_order : Z) (ready : list PendingBatch5) : CSt :=
  (foldl goi_one (s, base_index, base_order, ∅) ready).1.1.1.

(** * Export descriptors *)

Definition export_descriptor (p : PendingBatch5) (export_seq next_order : Z) : BatchHeader :=
  mkHeader export_seq (u32 (e_client_id p)) (e_num_msg p) 0 (u32 (e_broker_id p)) 1
    kBatchHeaderFlagRetired (e_epoch_created p) (u16 (e_session_epoch p)) (e_session_epoch p)
    (e_batch_id p) (e_pbr_index p) (u32 (e_total_size p)) (e_start_logical_offset p) (e_log_idx p)
    next_order 0 kBatchHeaderPublishUncommitted.

Definition export_one (st : CSt * Z) (p : PendingBatch5) : CSt * Z :=
  let '(s, next_order) := st in
  if negb (committable p) then st
  else
    let b := e_broker_id p in
    let s :=
      if in_brokers b && negb (o_batch_headers_offset (offsets_at s b) =? 0) then
        let ring_start := cxl_addr e + o_batch_headers_offset (offsets_at s b) in
        let ring_end := ring_start + ce_BATCHHEADERS_SIZE e in
        let cur := zlookup (export_cursor s) b in
        let cur := if (cur =? 0) || (cur <? ring_start) || (cur >=? ring_end) then ring_start else cur in
        let export_seq := zlookup (export_sequence s) b in
        let s := s <| export_sequence := <[b := export_seq +u 1]> (export_sequence s) |> in
        let s := put_header s cur (export_descriptor p export_seq next_order) in
        let next := cur + kBatchHeaderSize in
        let next := if next >=? ring_end then ring_start else next in
        s <| export_cursor := <[b := next]> (export_cursor s) |>
      else s in
    let s := if hdr p =? 0 then s else ClearOrder5PublishState s (hdr p) in
    (s, next_order +u e_num_msg p).

Definition export_loop (s : CSt) (base_order : Z) (ready : list PendingBatch5) : CSt :=
  (foldl export_one (s, base_order) ready).1.

(** * Completion vector *)

(** The arrays [max_cumulative] and [max_pbr_index] of a commit. *)
Definition AccumulateCVUpdate (broker_id pbr_index cumulative : Z) (arrays : gmap Z Z * gmap Z Z)
    : gmap Z Z * gmap Z Z :=
  if broker_id >=? NUM_MAX_BROKERS then arrays
  else
    let '(cum, pbr) := arrays in
    (if cumulative >? zlookup cum broker_id then <[broker_id := cumulative]> cum else cum,
     if pbr_index >? zlookup pbr broker_id then <[broker_id := pbr_index]> pbr else pbr).

(** The compare-and-swap loops are atomic maxima. *)
Definition flush_cv_one (cum pbr : gmap Z Z) (s : CSt) (b : Z) : CSt :=
  let owns := replication_factor e <=? 1 in
  let c := cv_at s b in
  let cumulative := zlookup cum b in
  let pbr_val := zlookup pbr b in
  let logical := if cumulative >? sequencer_logical_offset c then cumulative
                 else sequencer_logical_offset c in
  let durable := if owns && (cumulative >? completed_logical_offset c) then cumulative
                 else completed_logical_offset c in
  let head := if owns && ((completed_pbr_head c =? kNoProgress) || (pbr_val >? completed_pbr_head c))
              then pbr_val else completed_pbr_head c in
  put_cv s b (mkCV head logical durable).

Definition FlushAccumulatedCV (s : CSt) (cum pbr : gmap Z Z) (touched : option (gset Z)) : CSt :=
  if cs_exhausted s then s
  else
    let visited := match touched with
                   | None => brokers
                   | Some t => filter (fun b => b ∈ t) brokers
                   end in
    foldl (flush_cv_one cum pbr) s visited.

Definition flush_logical_one (cum pbr_plus_one : gmap Z Z) (s : CSt) (b : Z) : CSt :=
  let cumulative := zlookup cum b in
  let plus_one := zlookup pbr_plus_one b in
  if (cumulative =? 0) && (plus_one =? 0) then s
  else
    let pbr_index := if plus_one =? 0 then 0 else plus_one - 1 in
    let owns := replication_factor e <=? 1 in
    let c := cv_at s b in
    let logical := if cumulative >? sequencer_logical_offset c then cumulative
                   else sequencer_logical_offset c in
    let durable := if owns && (cumulative >? completed_logical_offset c) then cumulative
                   else completed_logical_offset c in
    let head := if owns && negb (plus_one =? 0) &&
                     ((completed_pbr_head c =? kNoProgress) || (pbr_index >? completed_pbr_head c))
                then pbr_index else completed_pbr_head c in
    put_cv s b (mkCV head logical durable).

Definition FlushAccumulatedCVLogicalOnly (s : CSt) (cum pbr_plus_one : gmap Z Z) : CSt :=
  if cs_exhausted s then s else foldl (flush_logical_one cum pbr_plus_one) s brokers.

(** * Retiring the processed ring slots *)

(** [CollectOrder5DeferredSlotIdentities]. *)
Definition deferred_slots (sh : list St) : list Order5SlotIdentity :=
  concat ((fun s => ((fun p => mkSlot (broker_id p) (slot_offset p) (cached_pbr_absolute_index p)) <$>
                       deferred_level5 s) ++ backpressured_level5_slots s) <$> sh).

Definition hold_key (p : PendingBatch5) : Z :=
  if ce_true_client_chain e then session_of p
  else MakeClientBrokerStreamKey (client_id p) (session_epoch p) (broker_id p).

Definition IsOrder5SlotHeldInHoldBuffer (p : PendingBatch5) : bool :=
  let n := Z.of_nat (length (shards e)) in
  if (n =? 0) || (client_id p =? 0) || (client_id p =? U64_MAX) then false
  else
    match shards e !! Z.to_nat (client_id p mod n) with
    | None => false
    | Some s =>
        match held_at s (hold_key p) !! batch_seq p with
        | None => false
        | Some he =>
            let m := he_meta he in
            (m_broker_id m =? broker_id p) && (m_slot_offset m =? slot_offset p) &&
            (m_pbr_absolute_index m =? cached_pbr_absolute_index p)
        end
    end.

Definition slot_held (p : PendingBatch5) : bool :=
  existsb (fun slot => Order5SlotMatches slot (broker_id p) (slot_offset p) (cached_pbr_absolute_index p))
    (deferred_slots (shards e)) || IsOrder5SlotHeldInHoldBuffer p.

(** The batches held by a shard, in the order of its maps. *)
Definition held_entries (s : St) : list HoldEntry5 :=
  concat ((fun kv => snd <$> map_to_list kv.2) <$> map_to_list (hold_buffer s)).

(** [CollectOrder5HeldSlotIdentities]: the sweep of everything a shard holds. *)
Definition held_slots (sh : list St) : list Order5SlotIdentity :=
  concat ((fun s =>
    ((fun p => mkSlot (broker_id p) (slot_offset p) (cached_pbr_absolute_index p)) <$> deferred_level5 s) ++
    backpressured_level5_slots s ++
    ((fun he => mkSlot (m_broker_id (he_meta he)) (m_slot_offset (he_meta he))
                  (m_pbr_absolute_index (he_meta he))) <$> held_entries s)) <$> sh).

Definition IsOrder5HeldSlot (broker slot_off pbr_index : Z) : bool :=
  existsb (fun s =>
    existsb (fun p => Order5SlotMatches (mkSlot (broker_id p) (slot_offset p) (cached_pbr_absolute_index p))
                        broker slot_off pbr_index) (deferred_level5 s) ||
    existsb (fun slot => Order5SlotMatches slot broker slot_off pbr_index) (backpressured_level5_slots s) ||
    existsb (fun he => Order5SlotMatches (mkSlot (m_broker_id (he_meta he)) (m_slot_offset (he_meta he))
                         (m_pbr_absolute_index (he_meta he))) broker slot_off pbr_index) (held_entries s))
    (shards e).

(** The ring positions of broker [b] that the epoch processed for good. *)
Definition processed_slots (batch_list : list PendingBatch5) (b : Z) : gset Z :=
  list_to_set ((fun p => slot_offset p / kBatchHeaderSize) <$>
    filter (fun p => (broker_id p =? b) && (slot_offset p <? ce_BATCHHEADERS_SIZE e) &&
                     (slot_offset p mod kBatchHeaderSize =? 0) && negb (slot_held p) = true) batch_list).

Fixpoint advance_slots (fuel : nat) (slot_count : Z) (processed : gset Z) (next_slot : Z) : Z :=
  match fuel with
  | O => next_slot
  | S n =>
      if decide (next_slot ∈ processed)
      then advance_slots n slot_count processed ((next_slot + 1) mod slot_count)
      else next_slot
  end.

Definition advance_one (batch_list : list PendingBatch5) (contiguous : gmap Z Z) (b : Z) : gmap Z Z :=
  let size := ce_BATCHHEADERS_SIZE e in
  let slot_count := size / kBatchHeaderSize in
  let next := zlookup contiguous b in
  let next := if next >=? size then 0 else next in
  if negb (next mod kBatchHeaderSize =? 0) then contiguous
  else
    let slot := advance_slots (Z.to_nat slot_count) slot_count (processed_slots batch_list b)
                  (next / kBatchHeaderSize) in
    <[b := if slot =? 0 then size else slot * kBatchHeaderSize]> contiguous.

Definition store_consumed (contiguous : gmap Z Z) (s : CSt) (b : Z) : CSt :=
  put_offsets s b ((offsets_at s b) <| o_consumed_through := zlookup contiguous b |>).

(** The positions after the call, and the state. *)
Definition AdvanceConsumedThroughForProcessedSlots (s : CSt) (batch_list : list PendingBatch5)
    (contiguous : gmap Z Z) (seen : gset Z) (arrays : option (gmap Z Z * gmap Z Z)) : gmap Z Z * CSt :=
  let flush s := match arrays with
                 | Some (cum, pbr) => FlushAccumulatedCV s cum pbr None
                 | None => s
                 end in
  if cs_exhausted s then (contiguous, s)
  else if bool_decide (batch_list = []) then (contiguous, flush s)
  else
    let visited := filter (fun b => b ∈ seen) brokers in
    let contiguous := foldl (advance_one batch_list) contiguous visited in
    (contiguous, flush (foldl (store_consumed contiguous) s visited)).

(** * Metadata of the epoch *)

Record Meta := mkMetaAcc {
  md_cv_tracker : gmap Z Z;         (** [cv_cumulative_tracker], where initialised *)
  md_arrays : gmap Z Z * gmap Z Z;  (** [cv_max_cumulative], [cv_max_pbr_index] *)
  md_increment : gmap Z Z;          (** [ordered_increment] *)
  md_last_offset : gmap Z Z;
  md_seen : gset Z;                 (** [ordered_broker_seen] *)
  md_committed : gmap Z Z;          (** [committed_this_epoch] *)
  md_contiguous : gmap Z Z;         (** [contiguous_consumed_per_broker] *)
  md_client_delta : gmap Z Z;
  md_publish : gmap Z SessionTable.SessionPublishSnapshot;
}.
#[global] Instance eta_Meta : Eta Meta := fun m =>
  mkMetaAcc (md_cv_tracker m) (md_arrays m) (md_increment m) (md_last_offset m) (md_seen m)
    (md_committed m) (md_contiguous m) (md_client_delta m) (md_publish m).

Definition cv_tracker_at (s : CSt) (tr : gmap Z Z) (b : Z) : Z :=
  match tr !! b with
  | Some v => v
  | None => Z.max (o_ordered (offsets_at s b))
              (Z.max (sequencer_logical_offset (cv_at s b)) (completed_logical_offset (cv_at s b)))
  end.

Definition snapshot_zero : SessionTable.SessionPublishSnapshot := SessionTable.mkSnapshot 0 0 0 0 false.

Definition record_session_publish (m : Meta) (client epoch seq : Z) : Meta :=
  if epoch =? 0 then m
  else
    let key := MakeSessionKey client epoch in
    let snap := default snapshot_zero (md_publish m !! key) in
    let snap := SessionTable.mkSnapshot epoch
                  (Z.max (SessionTable.snap_expected_seq snap) (seq +u 1))
                  (Z.max (SessionTable.snap_committed_hwm snap) seq)
                  (Z.max (SessionTable.snap_highest_sequenced snap) seq)
                  (SessionTable.snap_fenced snap) in
    m <| md_publish := <[key := snap]> (md_publish m) |>.

Definition advance_contiguous (next slot : Z) : Z :=
  let size := ce_BATCHHEADERS_SIZE e in
  if (slot =? next) || ((next =? size) && (slot =? 0)) then
    if slot + kBatchHeaderSize >=? size then size else slot + kBatchHeaderSize
  else next.

Definition bump (m : gmap Z Z) (k n : Z) : gmap Z Z := <[k := zlookup m k +u n]> m.

Definition meta_one (s : CSt) (m : Meta) (p : PendingBatch5) : Meta :=
  if negb (committable p) then m
  else
    let b := e_broker_id p in
    let n := e_num_msg p in
    let '(cumulative, tr) :=
      if in_brokers b then
        let c := cv_tracker_at s (md_cv_tracker m) b +u n in (c, <[b := c]> (md_cv_tracker m))
      else (n, md_cv_tracker m) in
    let m := m <| md_cv_tracker := tr |>
               <| md_arrays := AccumulateCVUpdate (u16 b) (e_pbr_index p) cumulative (md_arrays m) |> in
    let m := m <| md_client_delta := bump (md_client_delta m) (u32 (e_client_id p)) n |> in
    let m := record_session_publish m (e_client_id p) (e_session_epoch p) (e_batch_seq p) in
    if in_brokers b then
      m <| md_increment := bump (md_increment m) b n |>
        <| md_last_offset := <[b := if from_hold p then m_log_idx (hold_meta p)
                                    else hdr p - cxl_addr e]> (md_last_offset m) |>
        <| md_seen := {[b]} ∪ md_seen m |>
        <| md_contiguous := <[b := advance_contiguous (zlookup (md_contiguous m) b) (e_slot_offset p)]>
                              (md_contiguous m) |>
        <| md_committed := bump (md_committed m) b 1 |>
    else m.

Definition meta_loop (s : CSt) (arrays : gmap Z Z * gmap Z Z) (contiguous : gmap Z Z)
    (ready : list PendingBatch5) : Meta :=
  foldl (meta_one s) (mkMetaAcc ∅ arrays ∅ ∅ ∅ ∅ contiguous ∅ ∅) ready.

(** * Publishing the metadata *)

Definition write_tinode (m : Meta) (s : CSt) (b : Z) : CSt :=
  let inc := zlookup (md_increment m) b in
  let o := offsets_at s b in
  (put_offsets s b (o <| o_ordered := o_ordered o +u inc |>
                      <| o_ordered_offset := zlookup (md_last_offset m) b |>))
    <| committed_batches := bump (committed_batches s) b (zlookup (md_committed m) b) |>
    <| committed_msgs := bump (committed_msgs s) b inc |>.

Definition credit_clients (m : Meta) (s : CSt) : CSt :=
  foldl (fun s kv =>
    s <| client_ordered := bump (client_ordered s) kv.1 kv.2 |>
      <| client_ordered_epoch := <[kv.1 := producing_epoch e]> (client_ordered_epoch s) |>)
    s (map_to_list (md_client_delta m)).

(** Stops at the first session that cannot be published. *)
Fixpoint publish_sessions (m : Meta) (s : CSt) (keys : list Z) : bool * CSt :=
  match keys with
  | [] => (true, s)
  | k :: keys =>
      let snap := default snapshot_zero (md_publish m !! k) in
      let '(ok, t) := SessionTable.PublishSessionEntry (cs_table s) k snap in
      let s := s <| cs_table := t |> in
      if ok then publish_sessions m s keys else (false, s)
  end.

Definition EnqueueCompletedRange (s : CSt) (first last : Z) : CSt :=
  if last <=? first then s else s <| completed_ranges := completed_ranges s ++ [(first, last)] |>.

(** * The commit *)

(** After the ranges were reserved. *)
Definition commit_reserved (s : CSt) (ready batch_list : list PendingBatch5) (contiguous : gmap Z Z)
    (seen : gset Z) (arrays : gmap Z Z * gmap Z Z) (base_index base_order num_goi : Z) : CSt :=
  let s := goi_loop s base_index base_order ready in
  let s := export_loop s base_order ready in
  let m := meta_loop s arrays contiguous ready in
  let s := foldl (write_tinode m) s (filter (fun b => b ∈ md_seen m) brokers) in
  let s := credit_clients m s in
  let '(ok, s) := publish_sessions m s (publish_order e (dom (md_publish m))) in
  if negb ok then StopForCapacity s
  else
    let s := FlushAccumulatedCV s (md_arrays m).1 (md_arrays m).2 (Some (md_seen m)) in
    let '(contiguous, s) :=
      AdvanceConsumedThroughForProcessedSlots s batch_list (md_contiguous m) seen None in
    let s := EnqueueCompletedRange s base_index (base_index + num_goi) in
    foldl (store_consumed contiguous) s (filter (fun b => b ∈ seen) brokers).

Definition CommitEpoch (s : CSt) (ready batch_list : list PendingBatch5) (contiguous : gmap Z Z)
    (seen : gset Z) (arrays : gmap Z Z * gmap Z Z) : CSt :=
  if cs_exhausted s then s
  else
    let '(ready, failed, s) := guard_ready s false ready in
    if failed then StopForCapacity s
    else if bool_decide (ready = []) then
      (AdvanceConsumedThroughForProcessedSlots s batch_list contiguous seen (Some arrays)).2
    else
      match count_ready ready 0 0 with
      | None => StopForCapacity s
      | Some (total_msg, num_goi) =>
          match TryReserveCommitRanges (global_batch_seq s) (global_seq s) kGOICapacity num_goi total_msg with
          | None => StopForCapacity s
          | Some (base_index, base_order, (next_index, next_msg)) =>
              commit_reserved (s <| global_batch_seq := next_index |> <| global_seq := next_msg |>)
                ready batch_list contiguous seen arrays base_index base_order num_goi
          end
      end.
End commit.
