(* ===== verification/CommitProofs.v ===== *)
(** What a commit does to the global order index, the session table and the
    acknowledgement state. *)

From S2P Require Import Prelude.
From S2P Require Import ClientState.
From S2P Require Import SessionTable.
From S2P Require Import Reservation.
From S2P Require Import Order5State.
From S2P Require Import Classifier.
From S2P Require Import ClassifierInv.
From S2P Require Import Commit.

(** * The log *)

(** [m] holds exactly the entries of [l], from index 0. *)
Definition log_of (m : gmap Z GOIEntry) (l : list GOIEntry) : Prop :=
  forall i : nat, m !! Z.of_nat i = l !! i.

(** The entries are numbered from [idx], and their messages fill the orders
    from [start] to [stop] without a gap or an overlap. *)
Fixpoint tiles (idx start : Z) (l : list GOIEntry) (stop : Z) : Prop :=
  match l with
  | [] => start = stop
  | g :: l =>
      goi_global_seq g = idx /\ goi_total_order g = start /\
      tiles (idx + 1) (start + goi_message_count g) l stop
  end.

Definition committed (ready : list PendingBatch5) : list PendingBatch5 :=
  filter (fun p => committable p = true) ready.
Definition msgs (ready : list PendingBatch5) : Z := foldr (fun p n => num_msg p + n) 0 (committed ready).

(** The index entry of a batch. *)
Definition entry_of (s : CSt) (p : PendingBatch5) (g : GOIEntry) : Prop :=
  goi_message_count g = num_msg p /\ goi_client_id g = client_id p /\
  goi_session_epoch g = session_epoch p /\ goi_batch_id g = cached_batch_id p /\
  goi_client_seq g = if from_hold p then batch_seq p else bh_batch_seq (header_at s (hdr p)).

(** What a commit needs to know of the batches it is given. *)
Definition ready_ok (p : PendingBatch5) : Prop :=
  committable p = true ->
  meta_ok p /\ is_u32 (num_msg p) /\ is_u32 (session_epoch p) /\ seq_ok (batch_seq p).
Definition placed (p : PendingBatch5) : Prop :=
  committable p = true -> from_hold p = true \/ hdr p <> 0.

Lemma committable_batch p : committable p = true <-> is_batch p.
Proof. unfold committable, is_batch. destruct (skipped p), (is_held_marker p); naive_solver. Qed.

Lemma tiles_app idx start l stop l' stop' :
  tiles idx start l stop -> tiles (idx + Z.of_nat (length l)) stop l' stop' ->
  tiles idx start (l ++ l') stop'.
Proof.
  revert idx start. induction l as [|g l IH]; intros idx start; simpl.
  - intros ->. by rewrite Z.add_0_r.
  - intros (H1 & H2 & H3) H4. split; [done|split; [done|]]. apply IH; [done|].
    by rewrite <- Z.add_assoc, Z.add_1_l, <- Nat2Z.inj_succ.
Qed.

Lemma log_snoc m l g : log_of m l -> log_of (<[Z.of_nat (length l) := g]> m) (l ++ [g]).
Proof.
  intros Hl i. destruct (decide (i = length l)) as [->|Hne].
  - by rewrite lookup_insert_eq, lookup_app_r, Nat.sub_diag by lia.
  - rewrite lookup_insert_ne by lia. rewrite Hl. destruct (decide (i < length l)%nat).
    + by rewrite lookup_app_l.
    + rewrite lookup_ge_None_2, lookup_app_r, lookup_ge_None_2 by (simpl; lia). done.
Qed.

(** The first entries of [m] are those of [l]; what stands after them may be
    left over from before a restart. *)
Definition prefix_of_log (m : gmap Z GOIEntry) (l : list GOIEntry) : Prop :=
  forall i : nat, (i < length l)%nat -> m !! Z.of_nat i = l !! i.

Lemma log_prefix m l1 l2 : log_of m (l1 ++ l2) -> prefix_of_log m l1.
Proof. intros Hl i Hi. by rewrite Hl, lookup_app_l. Qed.

Lemma prefix_of_log_app m l1 l2 : prefix_of_log m (l1 ++ l2) -> prefix_of_log m l1.
Proof. intros Hl i Hi. by rewrite Hl, lookup_app_l by (rewrite ?length_app; lia). Qed.

Lemma prefix_snoc m l g :
  prefix_of_log m l -> prefix_of_log (<[Z.of_nat (length l) := g]> m) (l ++ [g]).
Proof.
  intros Hl i Hi. rewrite length_app in Hi. simpl in Hi. destruct (decide (i = length l)) as [->|Hne].
  - by rewrite lookup_insert_eq, lookup_app_r, Nat.sub_diag by lia.
  - rewrite lookup_insert_ne by lia. by rewrite Hl, lookup_app_l by lia.
Qed.

(** Writing the entries from [m] to [m'] takes [l1] to [l2], whatever stands
    behind [l1]. *)
Definition extends_log (m m' : gmap Z GOIEntry) (l1 l2 : list GOIEntry) : Prop :=
  (prefix_of_log m l1 -> prefix_of_log m' l2) /\ (log_of m l1 -> log_of m' l2).

Lemma extends_refl m l : extends_log m m l l.
Proof. done. Qed.
Lemma extends_trans m1 m2 m3 l1 l2 l3 :
  extends_log m1 m2 l1 l2 -> extends_log m2 m3 l2 l3 -> extends_log m1 m3 l1 l3.
Proof. intros [A1 A2] [B1 B2]. split; auto. Qed.
Lemma extends_snoc m l g : extends_log m (<[Z.of_nat (length l) := g]> m) l (l ++ [g]).
Proof. split; [apply prefix_snoc|apply log_snoc]. Qed.

(** ** The fields a released batch is described by are its own *)

Lemma e_fields p : meta_ok p ->
  e_client_id p = client_id p /\ e_session_epoch p = session_epoch p /\ e_batch_seq p = batch_seq p /\
  e_num_msg p = num_msg p /\ e_broker_id p = broker_id p.
Proof.
  unfold meta_ok, e_client_id, e_session_epoch, e_batch_seq, e_num_msg, e_broker_id.
  destruct (from_hold p); [|done]. intros Hm. by rewrite Hm by done.
Qed.

(** ** Counting *)

Lemma count_ready_spec ready : forall t n t' n',
  Forall ready_ok ready -> 0 <= t -> t <= U64_MAX -> count_ready ready t n = Some (t', n') ->
  t' = t + msgs ready /\ n' = n + Z.of_nat (length (committed ready)) /\ Forall placed ready /\
  0 <= t' <= U64_MAX /\ 0 <= msgs ready.
Proof.
  unfold msgs, committed. induction ready as [|p ready IH]; intros t n t' n' Hok Ht0 Ht Hc; simpl in Hc.
  - injection Hc as <- <-. simpl. conj_lia.
  - apply Forall_cons in Hok as [Hp Hok]. rewrite filter_cons. destruct (committable p) eqn:Ec; simpl in Hc.
    + rewrite decide_True by done. destruct (Hp Ec) as (_ & Hn & _). unfold is_u32 in Hn.
      destruct (_ || _) eqn:Eo in Hc; [done|]. apply orb_false_iff in Eo as [Eh Eo]. bool_props.
      apply IH in Hc as (-> & -> & Hpl & Hr & Hm); [|done|lia|lia]. simpl.
      split; [lia|split; [lia|split; [|lia]]]. constructor; [|done]. intros _.
      destruct Eh as [?|?]; [by left|right; by apply Z.eqb_neq].
    + rewrite decide_False by congruence. apply IH in Hc as (H1 & H2 & H3 & H4); [|done..].
      split; [done|split; [done|split; [|done]]]. constructor; [|done]. unfold placed. congruence.
Qed.

(** ** The index loop *)

Lemma goi_one_fields s idx order tr p :
  committable p = true -> meta_ok p -> is_u32 (num_msg p) -> placed p ->
  exists s' tr' g,
    goi_one (s, idx, order, tr) p = (s', idx + 1, order +u num_msg p, tr') /\
    goi s' = <[idx := g]> (goi s) /\ entry_of s p g /\ goi_global_seq g = idx /\
    goi_total_order g = order /\ (forall a, bh_batch_seq (header_at s' a) = bh_batch_seq (header_at s a)) /\
    cs_table s' = cs_table s /\ cs_exhausted s' = cs_exhausted s /\ global_batch_seq s' = global_batch_seq s /\
    global_seq s' = global_seq s /\ client_ordered s' = client_ordered s /\
    offsets s' = offsets s /\ cv s' = cv s.
Proof.
  intros Hc Hm Hn Hp. unfold goi_one. rewrite Hc. cbn [negb]. specialize (Hp Hc). unfold meta_ok in Hm.
  assert (u32 (num_msg p) = num_msg p) as Hu by (by apply u32_id). unfold entry_of.
  destruct (from_hold p) eqn:Ef.
  - specialize (Hm eq_refl). rewrite Hm. cbn [meta_of m_broker_id m_num_msg].
    destruct (goi_cumulative s tr (broker_id p) (num_msg p)) as [c tr'].
    eexists _, _, _. split; [reflexivity|]. split; [reflexivity|]. simpl. by rewrite Hu.
  - destruct Hp as [Hp|Hp]; [done|]. rewrite (proj2 (Z.eqb_neq _ _) Hp).
    destruct (goi_cumulative s tr (broker_id p) (num_msg p)) as [c tr'].
    eexists _, _, _. split; [reflexivity|]. split; [reflexivity|]. simpl. rewrite Hu.
    do 3 (split; [done|]). split; [|done]. intros a. unfold header_at at 1. simpl. rewrite lookup_insert.
    case_decide; [by subst|done].
Qed.

Definition goi_frame (s s' : CSt) : Prop :=
  (forall a, bh_batch_seq (header_at s' a) = bh_batch_seq (header_at s a)) /\
  cs_table s' = cs_table s /\ cs_exhausted s' = cs_exhausted s /\ global_batch_seq s' = global_batch_seq s /\
  global_seq s' = global_seq s /\ client_ordered s' = client_ordered s /\
  offsets s' = offsets s /\ cv s' = cv s.

Lemma goi_frame_trans s1 s2 s3 : goi_frame s1 s2 -> goi_frame s2 s3 -> goi_frame s1 s3.
Proof.
  intros (A1 & A2 & A3 & A4 & A5 & A6 & A7 & A8) (B1 & B2 & B3 & B4 & B5 & B6 & B7 & B8).
  split; [intros a; by rewrite B1|]. repeat split; congruence.
Qed.

Lemma entry_of_frame s s' p g : goi_frame s s' -> entry_of s' p g -> entry_of s p g.
Proof. unfold entry_of. intros [Hh _]. by rewrite Hh. Qed.

Lemma goi_fold ready : forall s l order tr,
  Forall ready_ok ready -> Forall placed ready -> 0 <= order -> order + msgs ready <= U64_MAX ->
  exists s' l' tr',
    foldl goi_one (s, Z.of_nat (length l), order, tr) ready =
      (s', Z.of_nat (length (l ++ l')), order + msgs ready, tr') /\
    extends_log (goi s) (goi s') l (l ++ l') /\ Forall2 (entry_of s) (committed ready) l' /\
    tiles (Z.of_nat (length l)) order l' (order + msgs ready) /\ goi_frame s s'.
Proof.
  unfold msgs, committed. induction ready as [|p ready IH]; intros s l order tr Hok Hpl Ho Hmax.
  { exists s, [], tr. simpl. rewrite app_nil_r, Z.add_0_r. by repeat split. }
  apply Forall_cons in Hok as [Hp Hok]. apply Forall_cons in Hpl as [Hpp Hpl].
  rewrite filter_cons in *. cbn [foldl]. destruct (committable p) eqn:Ec.
  2: { rewrite decide_False in * by congruence.
       assert (goi_one (s, Z.of_nat (length l), order, tr) p = (s, Z.of_nat (length l), order, tr)) as ->
         by (unfold goi_one; by rewrite Ec). by apply IH. }
  rewrite decide_True in * by done. destruct (Hp Ec) as (Hm & Hn & _). simpl in Hmax.
  assert (0 <= foldr (fun p n => num_msg p + n) 0 (filter (fun p => committable p = true) ready)) as Hnn.
  { clear -Hok. induction ready as [|q r IH]; simpl; [lia|]. apply Forall_cons in Hok as [Hq Hok].
    rewrite filter_cons. case_decide as Hc; [|by apply IH]. simpl. destruct (Hq Hc) as (_ & Hn & _).
    unfold is_u32 in Hn. specialize (IH Hok). lia. }
  destruct (goi_one_fields s (Z.of_nat (length l)) order tr p Ec Hm Hn Hpp)
    as (s1 & tr1 & g & Hrun & Hg & He & Hidx & Hto & Hfr).
  unfold is_u32 in Hn. rewrite Hrun, u64_id by (unfold is_u64, U64_MAX in *; lia).
  destruct (IH s1 (l ++ [g]) (order + num_msg p) tr1) as (s2 & l2 & tr2 & Hrun2 & Hl2 & H2 & Ht & Hfr2);
    [done|done|lia|lia|].
  assert (Z.of_nat (length (l ++ [g])) = Z.of_nat (length l) + 1) as Hlen by (rewrite length_app; simpl; lia).
  rewrite Hlen in Hrun2, Ht.
  exists s2, (g :: l2), tr2. rewrite cons_middle, app_assoc. cbn [foldr]. rewrite Hrun2, Z.add_assoc. split; [done|split; [|split; [|split]]].
  - eapply extends_trans; [|exact Hl2]. rewrite Hg. apply extends_snoc.
  - constructor; [done|]. eapply Forall2_impl; [exact H2|]. intros. by eapply entry_of_frame.
  - destruct He as [Hmc _]. simpl. by rewrite Hmc.
  - by eapply goi_frame_trans.
Qed.

(** * The spatial guard *)

(** Only fresh entries were added to the table. *)
Definition grown (t t' : gmap Z SessionTable.SessionEntry) : Prop :=
  forall k, k <> 0 -> SessionTable.view t' k = SessionTable.view t k \/
    (SessionTable.view t k = None /\ SessionTable.view t' k = Some (SessionTable.fresh_entry k)).

Lemma grown_refl t : grown t t.
Proof. intros k _. by left. Qed.
Lemma grown_trans t1 t2 t3 : grown t1 t2 -> grown t2 t3 -> grown t1 t3.
Proof.
  intros H1 H2 k Hk. destruct (H1 k Hk) as [E1|[E1 E1']], (H2 k Hk) as [E2|[E2 E2']].
  - left. congruence.
  - right. split; congruence.
  - right. split; congruence.
  - congruence.
Qed.
Lemma grown_expected t t' k : grown t t' -> k <> 0 -> expected_at t' k = expected_at t k.
Proof. intros Hg Hk. unfold expected_at. destruct (Hg k Hk) as [->|[-> ->]]; done. Qed.
Lemma grown_fenced t t' k : grown t t' -> k <> 0 -> durable_fenced t' k = durable_fenced t k.
Proof. intros Hg Hk. unfold durable_fenced. destruct (Hg k Hk) as [->|[-> ->]]; done. Qed.

(** An entry with committed batches is active, and so is a fenced one. *)
Definition active_ok (t : gmap Z SessionTable.SessionEntry) : Prop :=
  forall k en, k <> 0 -> SessionTable.view t k = Some en ->
    0 < SessionTable.expected_seq en \/ SessionTable.entry_fenced en = true ->
    SessionTable.entry_active en = true.
Lemma grown_active t t' : grown t t' -> active_ok t -> active_ok t'.
Proof.
  intros Hg Ha k en Hk Hv Hor. destruct (Hg k Hk) as [E|[_ E]]; [apply (Ha k); congruence|].
  rewrite E in Hv. injection Hv as <-. destruct Hor as [H|H]; vm_compute in H; done.
Qed.

Definition session_key (p : PendingBatch5) : Z := MakeSessionKey (client_id p) (session_epoch p).

Lemma session_key_nonzero p : is_u32 (session_epoch p) -> session_epoch p <> 0 -> session_key p <> 0.
Proof. exact (MakeSessionKey_nonzero (client_id p) (session_epoch p)). Qed.

(** What the guard lets pass. *)
Definition admitted (t : gmap Z SessionTable.SessionEntry) (p : PendingBatch5) : Prop :=
  committable p = true -> session_epoch p <> 0 ->
  is_Some (SessionTable.view t (session_key p)) /\ durable_fenced t (session_key p) = false /\
  expected_at t (session_key p) <= batch_seq p.

Lemma grown_admitted t t' p : ready_ok p -> grown t t' -> admitted t p -> admitted t' p.
Proof.
  intros Hok Hg Ha Hc He. destruct (Ha Hc He) as (Hv & Hf & Hx). destruct (Hok Hc) as (_ & _ & Hep & _).
  pose proof (session_key_nonzero p Hep He) as Hk.
  rewrite (grown_fenced _ _ _ Hg Hk), (grown_expected _ _ _ Hg Hk). split; [|done].
  destruct (Hg _ Hk) as [->|[E _]]; [done|]. destruct Hv as [? ?]. congruence.
Qed.

Lemma ClearOrder5PublishState_frame s a : goi_frame s (ClearOrder5PublishState s a) /\
  goi (ClearOrder5PublishState s a) = goi s.
Proof.
  unfold ClearOrder5PublishState. destruct (a =? 0); [done|]. repeat split.
  intros x. unfold header_at at 1. simpl. rewrite lookup_insert. case_decide; [by subst|done].
Qed.

Lemma guard_entry_spec s key :
  SessionTable.wf (cs_table s) -> key <> 0 ->
  let '(entry, s1) := guard_entry s key in
  SessionTable.wf (cs_table s1) /\ grown (cs_table s) (cs_table s1) /\
  s1 = s <| cs_table := cs_table s1 |> /\
  match entry with
  | Some i => SessionTable.view (cs_table s1) key = Some (SessionTable.slot (cs_table s1) i)
  | None => True
  end.
Proof.
  intros Hwf Hk. unfold guard_entry.
  destruct (SessionTable.FindSessionEntry (cs_table s) key) as [i|] eqn:Ef.
  - split; [done|split; [apply grown_refl|split; [by destruct s|]]].
    unfold SessionTable.view. by rewrite Ef.
  - pose proof (SessionTable.FindOrCreate_spec _ key Hwf Hk) as Hc.
    destruct (SessionTable.FindOrCreateSessionEntry (cs_table s) key) as [[i|] t'].
    + destruct Hc as (Hw & Hi & Hki & Hs & Ho). cbn [cs_table upd].
      assert (SessionTable.view (cs_table s) key = None) as Hn0
        by (unfold SessionTable.view; by rewrite Ef).
      assert (SessionTable.view t' key = Some (SessionTable.slot t' i)) as Hv.
      { apply SessionTable.view_iff; [done..|]. eauto. }
      rewrite Hn0 in Hs. split; [done|split; [|split; [done|done]]].
      intros k Hk0. destruct (decide (k = key)) as [->|Hne]; [right|left; by apply Ho].
      rewrite Hv, Hs. done.
    + destruct Hc as (-> & _). split; [done|split; [apply grown_refl|done]].
Qed.

(** One batch: the table grows by at most its session's entry. *)
Lemma guard_one s failed p :
  ready_ok p -> SessionTable.wf (cs_table s) -> active_ok (cs_table s) ->
  let '(reject, failed', s') := spatial_guard_reject s failed p in
  SessionTable.wf (cs_table s') /\ grown (cs_table s) (cs_table s') /\
  goi_frame (s <| cs_table := cs_table s' |>) s' /\ goi s' = goi s /\
  (failed = true -> failed' = true) /\
  (failed' = false -> reject = false -> admitted (cs_table s') p).
Proof.
  intros Hok Hwf Hact. unfold spatial_guard_reject, admitted.
  assert (goi_frame (s <| cs_table := cs_table s |>) s) as Hfr by (by repeat split).
  destruct (skipped p || is_held_marker p) eqn:Ec.
  { unfold committable. rewrite Ec. repeat (split; [done||apply grown_refl|]). done. }
  destruct Hok as (Hm & Hn & Hep & Hseq); [by unfold committable; rewrite Ec|].
  destruct (e_fields p Hm) as (-> & -> & -> & _ & _).
  destruct (Z.eqb_spec (session_epoch p) 0) as [Hz|Hnz].
  { repeat (split; [done||apply grown_refl|]). done. }
  fold (session_key p). set (key := session_key p).
  pose proof (session_key_nonzero p Hep Hnz) as Hk. fold key in Hk.
  pose proof (guard_entry_spec s key Hwf Hk) as Hge.
  destruct (guard_entry s key) as [entry s1]. destruct Hge as (Hwf1 & Hg1 & Hs1 & Hv1).
  assert (goi_frame (s <| cs_table := cs_table s1 |>) s1 /\ goi s1 = goi s) as [Hf1 Hgo1]
    by (rewrite Hs1; by repeat split).
  destruct entry as [i|]; [|by do 5 (split; [done|])].
  set (en := SessionTable.slot (cs_table s1) i) in *.
  rewrite !flags_land by done. fold (SessionTable.entry_active en) (SessionTable.entry_fenced en).
  unfold durable_fenced, expected_at. destruct (SessionTable.entry_active en) eqn:Ea; cbn [negb].
  - destruct (ShouldRejectOrder5SpatialGuard true (SessionTable.entry_fenced en) (batch_seq p)
      (SessionTable.expected_seq en)) eqn:Er; cbn [negb].
    + match goal with |- context [if hdr p =? 0 then ?x else _] => set (s2 := x) end.
      assert (goi_frame (s <| cs_table := cs_table s1 |>) s2 /\ goi s2 = goi s /\ cs_table s2 = cs_table s1)
        as (Hf2 & Hgo2 & Ht2) by done.
      destruct (ClearOrder5PublishState_frame s2 (hdr p)) as [Hf3 Hgo3].
      destruct (hdr p =? 0); [by repeat (split; [done|])|].
      assert (cs_table (ClearOrder5PublishState s2 (hdr p)) = cs_table s1) as -> by apply Hf3.
      rewrite Hgo3. do 2 (split; [done|]). split; [|done]. by eapply goi_frame_trans.
    + unfold ShouldRejectOrder5SpatialGuard in Er. do 5 (split; [done|]). intros _ _ _ _.
      rewrite Hv1. apply orb_false_iff in Er as [Er1 Er2]. bool_props. by split.
  - do 5 (split; [done|]). intros _ _ _ _. rewrite Hv1. split; [done|].
    assert (SessionTable.entry_fenced en = false /\ SessionTable.expected_seq en <= 0) as [-> ?].
    { pose proof (grown_active _ _ Hg1 Hact key en Hk Hv1) as Hx.
      destruct (SessionTable.entry_fenced en); [rewrite Hx in Ea by auto; done|]. split; [done|].
      destruct (decide (0 < SessionTable.expected_seq en)) as [Hlt|]; [rewrite Hx in Ea by auto; done|lia]. }
    split; [done|]. unfold seq_ok in Hseq. lia.
Qed.

Lemma guard_ready_spec ready : forall s failed,
  Forall ready_ok ready -> SessionTable.wf (cs_table s) -> active_ok (cs_table s) ->
  let '(kept, failed', s') := guard_ready s failed ready in
  SessionTable.wf (cs_table s') /\ grown (cs_table s) (cs_table s') /\
  goi_frame (s <| cs_table := cs_table s' |>) s' /\ goi s' = goi s /\ sublist kept ready /\
  (failed = true -> failed' = true) /\
  (failed' = false -> Forall (admitted (cs_table s')) kept).
Proof.
  induction ready as [|p ready IH]; intros s failed Hok Hwf Hact; simpl.
  { split; [done|split; [apply grown_refl|]]. by repeat split. }
  apply Forall_cons in Hok as [Hp Hok]. pose proof (guard_one s failed p Hp Hwf Hact) as H1.
  destruct (spatial_guard_reject s failed p) as [[reject failed1] s1].
  destruct H1 as (Hwf1 & Hg1 & Hf1 & Hgo1 & Hfail1 & Hadm1).
  specialize (IH s1 failed1 Hok Hwf1 (grown_active _ _ Hg1 Hact)).
  destruct (guard_ready s1 failed1 ready) as [[kept failed2] s2].
  destruct IH as (Hwf2 & Hg2 & Hf2 & Hgo2 & Hsub & Hfail2 & Hadm2).
  split; [done|split; [by eapply grown_trans|split; [|split; [congruence|split; [|split; [auto|]]]]]].
  - destruct Hf1 as (A1 & A2 & A3 & A4 & A5 & A6 & A7 & A8), Hf2 as (B1 & B2 & B3 & B4 & B5 & B6 & B7 & B8).
    split; [intros a; etransitivity; [apply B1|apply A1]|]. simpl in *. repeat split; congruence.
  - destruct reject; by constructor.
  - intros Hf. destruct reject; [by apply Hadm2|]. constructor; [|by apply Hadm2].
    eapply grown_admitted; [done|exact Hg2|]. apply Hadm1; [|done].
    destruct failed1; [rewrite Hfail2 in Hf by done; done|done].
Qed.

(** * The session of a batch in the index *)

Definition seqs_of (ready : list PendingBatch5) (key : Z) : list Z :=
  batch_seq <$> filter (fun p => committable p = true /\ session_epoch p <> 0 /\ session_key p = key) ready.

Definition history (l : list GOIEntry) (key : Z) : list Z :=
  goi_client_seq <$> filter (fun g => goi_session_epoch g <> 0 /\
    MakeSessionKey (goi_client_id g) (goi_session_epoch g) = key) l.

(** The sequence number after the largest of [h]. *)
Definition hist_next (h : list Z) : Z := foldl (fun n q => Z.max n (q + 1)) 0 h.

Lemma hist_next_acc h : forall a, 0 <= a -> foldl (fun n q => Z.max n (q + 1)) a h = Z.max a (hist_next h).
Proof.
  unfold hist_next. induction h as [|q h IH]; intros a Ha; simpl; [lia|].
  rewrite IH by lia. rewrite (IH (Z.max 0 (q + 1))) by lia. lia.
Qed.

Lemma hist_next_nonneg h : 0 <= hist_next h.
Proof. induction h as [|q h IH]; unfold hist_next; simpl; [lia|]. rewrite hist_next_acc; lia. Qed.

Lemma hist_next_app h h' : hist_next (h ++ h') = Z.max (hist_next h) (hist_next h').
Proof. unfold hist_next at 1. rewrite foldl_app. apply hist_next_acc, hist_next_nonneg. Qed.

Lemma hist_next_elem q h : q ∈ h -> q < hist_next h.
Proof.
  intros (h1 & h2 & ->)%list_elem_of_split. rewrite hist_next_app. unfold hist_next at 2. simpl.
  rewrite hist_next_acc by lia. lia.
Qed.

(** The headers still hold what the scanner read. *)
Definition header_ok (s : CSt) (p : PendingBatch5) : Prop :=
  committable p = true -> from_hold p = false -> bh_batch_seq (header_at s (hdr p)) = batch_seq p.

(** A header that was overwritten since the scan holds a sequence number of
    another batch, in the same range. *)
Definition header_range (s : CSt) (p : PendingBatch5) : Prop :=
  committable p = true -> from_hold p = false -> seq_ok (bh_batch_seq (header_at s (hdr p))).

Lemma header_ok_range s ready :
  Forall ready_ok ready -> Forall (header_ok s) ready -> Forall (header_range s) ready.
Proof.
  rewrite !Forall_forall. intros Hok Hh p Hp Hc Hf. rewrite (Hh p Hp Hc Hf). by apply (Hok p Hp Hc).
Qed.

Lemma history_entries s ready l key :
  Forall (header_ok s) ready -> Forall2 (entry_of s) (committed ready) l ->
  history l key = seqs_of ready key.
Proof.
  unfold history, seqs_of, committed. intros Hh. revert l.
  induction ready as [|p ready IH]; intros l H2; [by apply Forall2_nil_inv_l in H2 as ->|].
  apply Forall_cons in Hh as [Hp Hh]. rewrite filter_cons in H2. rewrite (filter_cons _ p).
  destruct (decide (committable p = true)) as [Hc|Hc].
  2: { rewrite decide_False by naive_solver. by apply IH. }
  apply Forall2_cons_inv_l in H2 as (g & l' & He & H2 & ->).
  destruct He as (_ & Hcl & Hep & _ & Hseq). rewrite filter_cons.
  assert (goi_client_seq g = batch_seq p) as Hs.
  { rewrite Hseq. destruct (from_hold p) eqn:Ef; [done|]. by apply Hp. }
  rewrite Hcl, Hep. fold (session_key p). repeat case_decide; try naive_solver.
  rewrite !fmap_cons, Hs. f_equal. by apply IH.
Qed.

(** * What the later phases leave alone *)

Definition log_frame (s s' : CSt) : Prop :=
  goi s' = goi s /\ cs_table s' = cs_table s /\ cs_exhausted s' = cs_exhausted s /\
  global_batch_seq s' = global_batch_seq s /\ global_seq s' = global_seq s.

Lemma log_frame_refl s : log_frame s s.
Proof. done. Qed.
Lemma log_frame_trans s1 s2 s3 : log_frame s1 s2 -> log_frame s2 s3 -> log_frame s1 s3.
Proof. intros (?&?&?&?&?) (?&?&?&?&?). repeat split; congruence. Qed.

Lemma log_frame_foldl {T} (f : CSt -> T -> CSt) l : (forall s x, log_frame s (f s x)) ->
  forall s, log_frame s (foldl f s l).
Proof.
  intros Hf. induction l as [|x l IH]; intros s; simpl; [done|].
  eapply log_frame_trans; [apply Hf|apply IH].
Qed.

Lemma export_loop_frame e s order ready :
  log_frame s (export_loop e s order ready) /\
  client_ordered (export_loop e s order ready) = client_ordered s /\
  offsets (export_loop e s order ready) = offsets s /\ cv (export_loop e s order ready) = cv s.
Proof.
  unfold export_loop. revert s order. induction ready as [|p ready IH]; intros s order; [done|].
  cbn [foldl]. assert (exists s1 o1, export_one e (s, order) p = (s1, o1) /\ log_frame s s1 /\
    client_ordered s1 = client_ordered s /\ offsets s1 = offsets s /\ cv s1 = cv s) as
    (s1 & o1 & -> & Hf & H1 & H2 & H3).
  { unfold export_one. destruct (negb (committable p)); [by eexists _, _|].
    destruct (in_brokers _ && _); destruct (hdr p =? 0) eqn:Eh; unfold ClearOrder5PublishState;
      rewrite ?Eh; by eexists _, _. }
  destruct (IH s1 o1) as (G & G1 & G2 & G3). split; [by eapply log_frame_trans|].
  split; [congruence|split; congruence].
Qed.

Lemma write_tinode_frame m l s : log_frame s (foldl (write_tinode m) s l).
Proof. by apply log_frame_foldl. Qed.
Lemma credit_frame e m s : log_frame s (credit_clients e m s).
Proof. unfold credit_clients. by apply log_frame_foldl. Qed.
Lemma FlushAccumulatedCV_frame e s cum pbr t : log_frame s (FlushAccumulatedCV e s cum pbr t).
Proof. unfold FlushAccumulatedCV. destruct (cs_exhausted s); [done|]. by apply log_frame_foldl. Qed.
Lemma store_consumed_frame c l s : log_frame s (foldl (store_consumed c) s l).
Proof. by apply log_frame_foldl. Qed.
Lemma Advance_frame e s bl c seen arrays :
  log_frame s (AdvanceConsumedThroughForProcessedSlots e s bl c seen arrays).2.
Proof.
  unfold AdvanceConsumedThroughForProcessedSlots. destruct (cs_exhausted s); [done|].
  destruct arrays as [[cum pbr]|]; destruct (bool_decide _); simpl; try done.
  - apply FlushAccumulatedCV_frame.
  - eapply log_frame_trans; [apply store_consumed_frame|apply FlushAccumulatedCV_frame].
  - apply store_consumed_frame.
Qed.
Lemma Enqueue_frame s a b : log_frame s (EnqueueCompletedRange s a b).
Proof. unfold EnqueueCompletedRange. by destruct (b <=? a). Qed.

(** * The snapshots an epoch publishes *)

Lemma seqs_of_snoc ready p key :
  seqs_of (ready ++ [p]) key = seqs_of ready key ++
    (if decide (committable p = true /\ session_epoch p <> 0 /\ session_key p = key) then [batch_seq p] else []).
Proof.
  unfold seqs_of. rewrite filter_app, fmap_app. f_equal. rewrite filter_cons. by case_decide.
Qed.

(** [pub] is what the epoch's batches so far are to publish. *)
Definition publish_ok (ready : list PendingBatch5) (pub : gmap Z SessionTable.SessionPublishSnapshot) : Prop :=
  forall key,
    match pub !! key with
    | None => seqs_of ready key = []
    | Some snap =>
        seqs_of ready key <> [] /\
        SessionTable.snap_session_epoch snap <> 0 /\ is_u32 (SessionTable.snap_session_epoch snap) /\
        SessionTable.snap_expected_seq snap = hist_next (seqs_of ready key) /\
        SessionTable.snap_fenced snap = false /\ key <> 0
    end.

Lemma record_session_publish_ok ready p m :
  ready_ok p -> committable p = true -> publish_ok ready (md_publish m) ->
  publish_ok (ready ++ [p])
    (md_publish (record_session_publish m (client_id p) (session_epoch p) (batch_seq p))).
Proof.
  intros Hok Hc Hm key. rewrite seqs_of_snoc. specialize (Hm key). unfold record_session_publish.
  destruct (Hok Hc) as (_ & _ & Hep & Hseq). destruct (Z.eqb_spec (session_epoch p) 0) as [Hz|Hnz].
  { rewrite decide_False by naive_solver. by rewrite app_nil_r. }
  fold (session_key p). cbn [md_publish upd]. rewrite lookup_insert.
  destruct (decide (session_key p = key)) as [Hk|Hk].
  - rewrite decide_True by done. simpl. unfold seq_ok in Hseq.
    rewrite u64_id by (unfold is_u64; lia). subst key. split; [by destruct (seqs_of ready _)|].
    do 2 (split; [done|]). rewrite hist_next_app. unfold hist_next at 2. simpl.
    destruct (md_publish m !! session_key p) as [snap|]; simpl.
    + destruct Hm as (_ & _ & _ & -> & -> & _). split; [lia|split; [done|]]. by apply session_key_nonzero.
    + rewrite Hm. unfold hist_next. simpl. split; [lia|split; [done|]]. by apply session_key_nonzero.
  - rewrite decide_False by naive_solver. by rewrite app_nil_r.
Qed.

Lemma meta_one_publish e s m p :
  md_publish (meta_one e s m p) =
    if committable p then
      md_publish (record_session_publish m (e_client_id p) (e_session_epoch p) (e_batch_seq p))
    else md_publish m.
Proof.
  unfold meta_one. destruct (committable p); [|done]. cbn [negb].
  destruct (in_brokers (e_broker_id p)); unfold record_session_publish; by destruct (_ =? 0).
Qed.

Lemma meta_loop_publish e s arrays contiguous ready :
  Forall ready_ok ready -> publish_ok ready (md_publish (meta_loop e s arrays contiguous ready)).
Proof.
  intros Hok. unfold meta_loop. set (m0 := mkMetaAcc _ _ _ _ _ _ _ _ _).
  assert (publish_ok [] (md_publish m0)) as H0 by (intros key; simpl; by rewrite lookup_empty).
  clearbody m0. change ready with ([] ++ ready) at 1. revert m0 H0. generalize (@nil PendingBatch5) as pre.
  induction ready as [|p ready IH]; intros pre m0 H0; simpl; [by rewrite app_nil_r|].
  apply Forall_cons in Hok as [Hp Hok]. rewrite cons_middle, app_assoc. apply IH; [done|].
  rewrite meta_one_publish. destruct (committable p) eqn:Ec.
  - destruct (Hp Ec) as (Hm & _). destruct (e_fields p Hm) as (-> & -> & -> & _).
    by apply record_session_publish_ok.
  - intros key. rewrite seqs_of_snoc, decide_False by (intros [? _]; congruence). rewrite app_nil_r. apply H0.
Qed.

(** ** Publishing them *)

Lemma publish_sessions_spec m keys : forall s,
  SessionTable.wf (cs_table s) -> NoDup keys ->
  (forall k, k ∈ keys -> k <> 0 /\ is_Some (SessionTable.view (cs_table s) k) /\
     SessionTable.snap_session_epoch (default snapshot_zero (md_publish m !! k)) <> 0) ->
  exists t', publish_sessions m s keys = (true, s <| cs_table := t' |>) /\ SessionTable.wf t' /\
    forall k, k <> 0 -> SessionTable.view t' k =
      if decide (k ∈ keys) then
        (fun en => SessionTable.publish_entry en (default snapshot_zero (md_publish m !! k))) <$>
          SessionTable.view (cs_table s) k
      else SessionTable.view (cs_table s) k.
Proof.
  induction keys as [|key keys IH]; intros s Hwf Hnd Hk; simpl.
  { exists (cs_table s). split; [by destruct s|]. split; [done|]. done. }
  apply NoDup_cons in Hnd as [Hnin Hnd]. destruct (Hk key) as (Hk0 & [en Hv] & Hep); [by left|].
  destruct (SessionTable.PublishSessionEntry (cs_table s) key _) as [ok t1] eqn:Ep.
  destruct (SessionTable.publish_view _ _ _ _ _ Hwf Hk0 Hep Ep) as (Hwf1 & Ho & Hok).
  destruct ok; [|destruct Hok as (_ & Hn & _); congruence]. rewrite Hv in Hok. simpl in Hok.
  destruct (IH (s <| cs_table := t1 |>)) as (t2 & Hrun & Hwf2 & Hv2); [done|done| |].
  { intros k Hin. destruct (Hk k) as (? & ? & ?); [by right|]. split; [done|split; [|done]]. simpl.
    rewrite Ho; [done|done|]. congruence. }
  exists t2. split; [exact Hrun|split; [done|]]. intros k Hkz. rewrite Hv2 by done. simpl.
  destruct (decide (k = key)) as [->|Hne].
  - rewrite decide_False, decide_True by (done || by left). by rewrite Hok, Hv.
  - rewrite Ho by done. by repeat case_decide; set_solver.
Qed.

Lemma filter_of_sublist {A} (P : A -> Prop) `{!forall x, Decision (P x)} l l' :
  sublist l l' -> sublist (filter P l) (filter P l').
Proof.
  induction 1 as [|x l1 l2 _ IH|x l1 l2 _ IH]; [constructor| |]; rewrite !filter_cons;
    repeat case_decide; try done; by constructor.
Qed.

Lemma seqs_of_sublist r r' k : sublist r r' -> sublist (seqs_of r k) (seqs_of r' k).
Proof. intros Hs. unfold seqs_of. by apply fmap_sublist, filter_of_sublist. Qed.

Lemma StronglySorted_sublist {A} (R : A -> A -> Prop) l l' :
  sublist l l' -> StronglySorted R l' -> StronglySorted R l.
Proof.
  induction 1 as [|x l1 l2 Hs IH|x l1 l2 Hs IH]; intros Hss; [done| |];
    apply StronglySorted_inv in Hss as [Hss Hx]; [|by apply IH].
  constructor; [by apply IH|]. rewrite Forall_forall in *. intros y Hy. by apply Hx, (elem_of_sublist l1).
Qed.

(** * The acknowledged messages of a client *)

Definition client_msgs (ready : list PendingBatch5) (c : Z) : Z :=
  foldr (fun p n => num_msg p + n) 0 (filter (fun p => committable p = true /\ u32 (client_id p) = c) ready).

Lemma bump_at m k n k' : zlookup (bump m k n) k' = if decide (k = k') then zlookup m k +u n else zlookup m k'.
Proof. unfold bump, zlookup. rewrite lookup_insert. by case_decide. Qed.

Lemma meta_one_delta e s m p :
  md_client_delta (meta_one e s m p) =
    if committable p then bump (md_client_delta m) (u32 (e_client_id p)) (e_num_msg p)
    else md_client_delta m.
Proof.
  unfold meta_one. destruct (committable p); [|done]. cbn [negb].
  destruct (in_brokers (e_broker_id p)); unfold record_session_publish; by destruct (_ =? 0).
Qed.

Lemma meta_loop_delta e s arrays contiguous ready c :
  Forall ready_ok ready ->
  u64 (zlookup (md_client_delta (meta_loop e s arrays contiguous ready)) c) = u64 (client_msgs ready c).
Proof.
  intros Hok. unfold meta_loop. set (m0 := mkMetaAcc _ _ _ _ _ _ _ _ _).
  assert (zlookup (md_client_delta m0) c = 0) as H0 by (unfold zlookup; simpl; by rewrite lookup_empty).
  replace (client_msgs ready c) with (zlookup (md_client_delta m0) c + client_msgs ready c) by lia.
  clearbody m0. clear H0. revert m0.
  induction ready as [|p ready IH]; intros m0; simpl; [f_equal; unfold client_msgs; simpl; lia|].
  apply Forall_cons in Hok as [Hp Hok]. rewrite IH by done. rewrite meta_one_delta.
  unfold client_msgs. rewrite (filter_cons _ p). destruct (committable p) eqn:Ec.
  - destruct (Hp Ec) as (Hm & _). destruct (e_fields p Hm) as (-> & _ & _ & -> & _). rewrite bump_at.
    destruct (decide (u32 (client_id p) = c)) as [Hc|Hc].
    + rewrite decide_True by done. simpl. subst c. unfold u64. rewrite Zplus_mod_idemp_l. f_equal. lia.
    + rewrite decide_False by naive_solver. done.
  - rewrite decide_False by (intros [? _]; congruence). done.
Qed.

Lemma credit_clients_at e m s c :
  u64 (zlookup (client_ordered (credit_clients e m s)) c) =
    u64 (zlookup (client_ordered s) c + zlookup (md_client_delta m) c).
Proof.
  unfold credit_clients. pose proof (NoDup_fst_map_to_list (md_client_delta m)) as Hnd.
  assert (zlookup (md_client_delta m) c = default 0 (list_to_map (M := gmap Z Z)
    (map_to_list (md_client_delta m)) !! c)) as -> by (by rewrite list_to_map_to_list).
  revert s. induction (map_to_list (md_client_delta m)) as [|[k n] l IH]; intros s; simpl.
  { rewrite lookup_empty. simpl. f_equal. lia. }
  simpl in Hnd. apply NoDup_cons in Hnd as [Hk Hnd]. rewrite IH by done. simpl.
  rewrite bump_at, lookup_insert. case_decide; [subst|done]. simpl.
  rewrite (not_elem_of_list_to_map_1 l c) by done. simpl. by rewrite Z.add_0_r, u64_idemp.
Qed.

Definition ack_frame (s s' : CSt) : Prop := client_ordered s' = client_ordered s.
Lemma ack_frame_foldl {T} (f : CSt -> T -> CSt) l : (forall s x, ack_frame s (f s x)) ->
  forall s, ack_frame s (foldl f s l).
Proof.
  intros Hf. induction l as [|x l IH]; intros s; simpl; [done|]. unfold ack_frame in *.
  by rewrite IH, Hf.
Qed.

Lemma publish_sessions_ack m keys : forall s, ack_frame s (publish_sessions m s keys).2.
Proof.
  induction keys as [|k keys IH]; intros s; simpl; [done|].
  destruct (SessionTable.PublishSessionEntry _ _ _) as [[] t]; [|done].
  unfold ack_frame in *. by rewrite IH.
Qed.

Lemma FlushAccumulatedCV_ack e s cum pbr t : ack_frame s (FlushAccumulatedCV e s cum pbr t).
Proof. unfold FlushAccumulatedCV. destruct (cs_exhausted s); [done|]. by apply ack_frame_foldl. Qed.

Lemma Advance_ack e s bl c seen arrays :
  ack_frame s (AdvanceConsumedThroughForProcessedSlots e s bl c seen arrays).2.
Proof.
  unfold AdvanceConsumedThroughForProcessedSlots. destruct (cs_exhausted s); [done|].
  destruct arrays as [[cum pbr]|]; destruct (bool_decide _); simpl; try done.
  - apply FlushAccumulatedCV_ack.
  - unfold ack_frame. rewrite FlushAccumulatedCV_ack. by apply ack_frame_foldl.
  - by apply ack_frame_foldl.
Qed.

(** The messages of a client in the index. *)
Definition goi_msgs (l : list GOIEntry) (c : Z) : Z :=
  foldr (fun g n => goi_message_count g + n) 0 (filter (fun g => u32 (goi_client_id g) = c) l).

Lemma goi_msgs_entries s ready l c :
  Forall2 (entry_of s) (committed ready) l -> goi_msgs l c = client_msgs ready c.
Proof.
  unfold goi_msgs, client_msgs, committed. revert l.
  induction ready as [|p ready IH]; intros l H2; [by apply Forall2_nil_inv_l in H2 as ->|].
  rewrite filter_cons in H2. rewrite (filter_cons _ p).
  destruct (decide (committable p = true)) as [Hc|Hc].
  2: { rewrite (decide_False (P := _ /\ _)) by naive_solver. by apply IH. }
  apply Forall2_cons_inv_l in H2 as (g & l' & (Hn & Hcl & _) & H2 & ->).
  rewrite filter_cons, Hcl. destruct (decide (u32 (client_id p) = c)).
  - rewrite decide_True by done. simpl. by rewrite Hn, (IH l').
  - rewrite decide_False by naive_solver. by apply IH.
Qed.

(** The clients are credited with the messages the epoch committed. *)
Lemma commit_reserved_credit e s ready bl cont seen arrays base_index base_order num c :
  Forall ready_ok ready ->
  client_ordered (goi_loop s base_index base_order ready) = client_ordered s ->
  u64 (zlookup (client_ordered (commit_reserved e s ready bl cont seen arrays base_index base_order num)) c) =
    u64 (zlookup (client_ordered s) c + client_msgs ready c).
Proof.
  intros Hok Hgoi. unfold commit_reserved.
  destruct (export_loop_frame e (goi_loop s base_index base_order ready) base_order ready) as (_ & Hc2 & _).
  set (s2 := export_loop e _ base_order ready) in *.
  set (m := meta_loop e s2 arrays cont ready). set (s3 := foldl (write_tinode m) s2 _).
  assert (ack_frame s2 s3) as Hc3 by (by apply ack_frame_foldl).
  assert (u64 (zlookup (client_ordered (credit_clients e m s3)) c) =
    u64 (zlookup (client_ordered s) c + client_msgs ready c)) as Hcr.
  { rewrite credit_clients_at. unfold ack_frame in Hc3. rewrite Hc3, Hc2, Hgoi. unfold u64.
    rewrite Z.add_mod by done. fold (u64 (zlookup (md_client_delta m) c)). unfold m.
    rewrite meta_loop_delta by done. unfold u64. by rewrite <- Z.add_mod. }
  set (s4 := credit_clients e m s3) in *. clearbody s4.
  pose proof (publish_sessions_ack m (publish_order e (dom (md_publish m))) s4) as Hp.
  destruct (publish_sessions m s4 _) as [ok s5]. unfold ack_frame in Hp. simpl in Hp.
  rewrite <- Hcr, <- Hp. destruct ok; [cbn [negb]|done].
  pose proof (FlushAccumulatedCV_ack e s5 (md_arrays m).1 (md_arrays m).2 (Some (md_seen m))) as Hf.
  set (s6 := FlushAccumulatedCV e s5 _ _ _) in *.
  pose proof (Advance_ack e s6 bl (md_contiguous m) seen None) as Ha.
  destruct (AdvanceConsumedThroughForProcessedSlots e s6 _ _ _ _) as [cont' s7]. unfold ack_frame in *.
  rewrite ack_frame_foldl by done. simpl in Ha. unfold EnqueueCompletedRange.
  destruct (_ <=? _); simpl; by rewrite Ha, Hf.
Qed.

(** * The invariant of the log *)

(** The index is a log: its messages tile the order from 0, and the session
    table is well-formed. *)
Record index_inv (s : CSt) (l : list GOIEntry) : Prop := {
  ii_log : prefix_of_log (goi s) l;
  ii_len : Z.of_nat (length l) = global_batch_seq s;
  ii_cap : global_batch_seq s <= kGOICapacity;
  ii_tiles : tiles 0 0 l (global_seq s);
  ii_max : 0 <= global_seq s <= U64_MAX;
  ii_wf : SessionTable.wf (cs_table s);
  ii_active : active_ok (cs_table s);
  ii_expected k : k <> 0 -> 0 <= expected_at (cs_table s) k <= limit;
  ii_range k : Forall seq_ok (history l k);
  ii_counts : Forall (fun g => is_u32 (goi_message_count g)) l;
}.

(** Every session stands in the log in the order of its sequence numbers, below
    the number the table expects next. *)
Record session_inv (s : CSt) (l : list GOIEntry) : Prop := {
  si_next k : k <> 0 -> hist_next (history l k) <= expected_at (cs_table s) k;
  si_fifo k : StronglySorted Z.lt (history l k);
}.

(** The index holds the log and nothing else, and the table expects of every
    session the number after its last batch. *)
Record commit_inv (s : CSt) (l : list GOIEntry) : Prop := {
  ci_index :> index_inv s l;
  ci_session :> session_inv s l;
  ci_log : log_of (goi s) l;
  ci_next k : k <> 0 -> expected_at (cs_table s) k = hist_next (history l k);
}.

Lemma history_app l l' k : history (l ++ l') k = history l k ++ history l' k.
Proof. unfold history. by rewrite filter_app, fmap_app. Qed.

Lemma hist_next_mono h h' : hist_next h <= hist_next (h ++ h').
Proof. rewrite hist_next_app. lia. Qed.

Lemma hist_next_limit h : Forall seq_ok h -> hist_next h <= limit.
Proof.
  unfold limit. induction h as [|q h IH]; intros Hf; unfold hist_next; simpl; [lia|].
  apply Forall_cons in Hf as [Hq Hf]. rewrite hist_next_acc by lia. specialize (IH Hf).
  unfold seq_ok in Hq. lia.
Qed.

(** From [s] to [s'] nothing was appended. *)
Record same_log (s s' : CSt) : Prop := {
  sl_goi : goi s' = goi s;
  sl_batch : global_batch_seq s' = global_batch_seq s;
  sl_seq : global_seq s' = global_seq s;
  sl_wf : SessionTable.wf (cs_table s) -> SessionTable.wf (cs_table s');
  sl_active : active_ok (cs_table s) -> active_ok (cs_table s');
  sl_expected k : k <> 0 -> expected_at (cs_table s') k = expected_at (cs_table s) k;
}.

Lemma index_inv_frame s s' l : same_log s s' -> index_inv s l -> index_inv s' l.
Proof.
  intros [Hg Hb Hs Hwf Hact Hex] [H1 H2 H3 H4 H5 H6 H7 H8 H9 H10].
  split; rewrite ?Hg, ?Hb, ?Hs; try done; [by apply Hwf|by apply Hact|].
  intros k Hk. rewrite Hex by done. by apply H8.
Qed.

Lemma session_inv_frame s s' l : same_log s s' -> session_inv s l -> session_inv s' l.
Proof.
  intros Hsl [H1 H2]. split; [|done]. intros k Hk. rewrite (sl_expected _ _ Hsl k Hk). by apply H1.
Qed.

Lemma commit_inv_frame s s' l : same_log s s' -> commit_inv s l -> commit_inv s' l.
Proof.
  intros Hsl [H1 H2 H3 H4].
  split; [by eapply index_inv_frame|by eapply session_inv_frame|by rewrite (sl_goi _ _ Hsl)|].
  intros k Hk. rewrite (sl_expected _ _ Hsl k Hk). by apply H4.
Qed.

Lemma log_frame_same s s' : log_frame s s' -> same_log s s'.
Proof. intros (A1 & A2 & _ & A4 & A5). by split; rewrite ?A2. Qed.

Lemma grown_same s s' :
  goi s' = goi s -> global_batch_seq s' = global_batch_seq s -> global_seq s' = global_seq s ->
  SessionTable.wf (cs_table s') -> grown (cs_table s) (cs_table s') -> same_log s s'.
Proof.
  intros. split; try done; [by eapply grown_active|]. intros k Hk. by apply grown_expected.
Qed.

Lemma publish_expected en snap :
  is_u32 (SessionTable.snap_session_epoch snap) ->
  SessionTable.expected_seq (SessionTable.publish_entry en snap) =
    Z.max (SessionTable.expected_seq en) (SessionTable.snap_expected_seq snap) /\
  SessionTable.entry_active (SessionTable.publish_entry en snap) = true /\
  SessionTable.entry_fenced (SessionTable.publish_entry en snap) =
    SessionTable.entry_fenced en || SessionTable.snap_fenced snap.
Proof.
  intros Hep. by destruct (SessionTable.publish_entry_fields en snap Hep) as (_ & -> & _ & _ & -> & -> & _).
Qed.

Lemma admitted_some t ready k :
  Forall (admitted t) ready -> seqs_of ready k <> [] -> is_Some (SessionTable.view t k).
Proof.
  intros Hadm Hne. unfold seqs_of in Hne. destruct (filter _ ready) as [|p r] eqn:Ef; [done|].
  assert (p ∈ p :: r) as Hp by left. rewrite <- Ef in Hp.
  apply list_elem_of_filter in Hp as [(Hc & Hpe & <-) Hp]. rewrite Forall_forall in Hadm.
  by apply (Hadm p Hp).
Qed.

Section commit_log.
  Context (e : CEnv) (Hord : forall X, publish_order e X ≡ₚ elements X).

(** The session table after the epoch's sessions were published. *)
Lemma publish_epoch s s1 ready arrays contiguous :
  let m := meta_loop e s1 arrays contiguous ready in
  SessionTable.wf (cs_table s) -> active_ok (cs_table s) -> Forall ready_ok ready ->
  (forall k, k <> 0 -> 0 <= expected_at (cs_table s) k) -> Forall (admitted (cs_table s)) ready ->
  exists t', publish_sessions m s (publish_order e (dom (md_publish m))) = (true, s <| cs_table := t' |>) /\
    SessionTable.wf t' /\ active_ok t' /\
    (forall k, k <> 0 -> expected_at t' k = Z.max (expected_at (cs_table s) k) (hist_next (seqs_of ready k)) /\
       durable_fenced t' k = durable_fenced (cs_table s) k).
Proof.
  intros m Hwf Hact Hok Hnn Hadm. pose proof (meta_loop_publish e s1 arrays contiguous ready Hok) as Hpub.
  fold m in Hpub. set (keys := publish_order e (dom (md_publish m))).
  assert (forall k, k ∈ keys <-> is_Some (md_publish m !! k)) as Hin.
  { intros k. unfold keys. rewrite Hord, elem_of_elements. by rewrite elem_of_dom. }
  destruct (publish_sessions_spec m keys s Hwf) as (t' & Hrun & Hwf' & Hv).
  { unfold keys. rewrite Hord. apply NoDup_elements. }
  { intros k [snap Hs]%Hin. specialize (Hpub k). rewrite Hs in Hpub |- *.
    destruct Hpub as (Hne & Hep & _ & _ & _ & Hk). split; [done|split; [|done]]. by eapply admitted_some. }
  exists t'. split; [exact Hrun|split; [done|]].
  assert (forall k, k <> 0 ->
    (seqs_of ready k = [] /\ SessionTable.view t' k = SessionTable.view (cs_table s) k) \/
    (exists snap en, is_u32 (SessionTable.snap_session_epoch snap) /\
       SessionTable.snap_expected_seq snap = hist_next (seqs_of ready k) /\
       SessionTable.snap_fenced snap = false /\ SessionTable.view (cs_table s) k = Some en /\
       SessionTable.view t' k = Some (SessionTable.publish_entry en snap))) as Hcase.
  { intros k Hk. rewrite Hv by done. specialize (Hpub k). destruct (md_publish m !! k) as [snap|] eqn:Es.
    - right. destruct Hpub as (Hne & Hep & Hu & Hx & Hf & _).
      destruct (admitted_some _ _ k Hadm Hne) as [en Hen]. exists snap, en.
      rewrite decide_True by (apply Hin; by rewrite Es). by rewrite Hen.
    - left. split; [done|]. rewrite decide_False; [done|]. rewrite Hin, Es. by intros [??]. }
  split.
  - intros k en Hk Hen Hor. destruct (Hcase k Hk) as [[_ Hsame]|(snap & en0 & Hu & _ & _ & _ & Hview)].
    + apply (Hact k); [done|congruence|done].
    + rewrite Hview in Hen. injection Hen as <-. by apply publish_expected.
  - intros k Hk. specialize (Hnn k Hk). unfold expected_at, durable_fenced in *.
    destruct (Hcase k Hk) as [[-> ->]|(snap & en & Hu & Hx & Hf & Hen & ->)].
    + split; [|done]. unfold hist_next. simpl. lia.
    + rewrite Hen. destruct (publish_expected en snap Hu) as (-> & _ & ->).
      by rewrite Hx, Hf, orb_false_r.
Qed.

(** ** The entries of an epoch extend the log *)

Lemma entries_range s ready l k :
  Forall ready_ok ready -> Forall (header_range s) ready -> Forall2 (entry_of s) (committed ready) l ->
  Forall seq_ok (history l k) /\ Forall (fun g => is_u32 (goi_message_count g)) l.
Proof.
  unfold committed, history. revert l. induction ready as [|p ready IH]; intros l Hok Hh He;
    [by apply Forall2_nil_inv_l in He as ->|].
  apply Forall_cons in Hok as [Hp Hok]. apply Forall_cons in Hh as [Hhp Hh].
  rewrite filter_cons in He. case_decide as Hc; [|by apply IH].
  apply Forall2_cons_inv_l in He as (g & l2 & (Hn & _ & _ & _ & Hs) & He & ->).
  destruct (IH l2 Hok Hh He) as [I1 I2]. destruct (Hp Hc) as (_ & Hu & _ & Hq).
  split; [|constructor; [by rewrite Hn|done]].
  rewrite filter_cons. case_decide; [|done]. rewrite fmap_cons. constructor; [|done].
  rewrite Hs. destruct (from_hold p) eqn:Ef; [done|]. by apply Hhp.
Qed.

(** What an epoch of the admitted batches [ready] did to the sessions. *)
Record epoch_entries (s s' : CSt) (ready : list PendingBatch5) (l' : list GOIEntry) : Prop := {
  ee_entries : Forall2 (entry_of s) (committed ready) l';
  ee_admitted : Forall (admitted (cs_table s)) ready;
  ee_ready : Forall ready_ok ready;
  ee_expected k : k <> 0 -> expected_at (cs_table s') k =
    Z.max (expected_at (cs_table s) k) (hist_next (seqs_of ready k));
}.

Lemma session_inv_append s s' l l' ready :
  session_inv s l -> epoch_entries s s' ready l' -> Forall (header_ok s) ready ->
  (forall k, StronglySorted Z.lt (seqs_of ready k)) -> session_inv s' (l ++ l').
Proof.
  intros [Hn Hf] [He Hadm Hok Hexp] Hh Hss.
  assert (forall k, history l' k = seqs_of ready k) as Hhist by (intros k; by apply (history_entries s)).
  split; intros k; rewrite history_app, Hhist.
  - intros Hk. rewrite hist_next_app, Hexp by done. specialize (Hn k Hk). lia.
  - apply StronglySorted_app_2; [|apply Hf|apply Hss]. intros x y Hx Hy. unfold seqs_of in Hy.
    apply list_elem_of_fmap in Hy as (p & -> & [(Hc & Hep & <-) Hp]%list_elem_of_filter).
    rewrite Forall_forall in Hadm, Hok. destruct (Hok p Hp Hc) as (_ & _ & Hu & _).
    destruct (Hadm p Hp Hc Hep) as (_ & _ & Hle).
    specialize (Hn _ (session_key_nonzero p Hu Hep)). apply hist_next_elem in Hx. lia.
Qed.

Lemma index_inv_append s s' l l' ready :
  index_inv s l -> epoch_entries s s' ready l' -> Forall (header_range s) ready ->
  extends_log (goi s) (goi s') l (l ++ l') ->
  tiles (Z.of_nat (length l)) (global_seq s) l' (global_seq s') ->
  global_batch_seq s' = Z.of_nat (length (l ++ l')) -> global_batch_seq s' <= kGOICapacity ->
  0 <= global_seq s' <= U64_MAX -> SessionTable.wf (cs_table s') -> active_ok (cs_table s') ->
  index_inv s' (l ++ l').
Proof.
  intros [H1 H2 H3 H4 H5 H6 H7 H8 H9 H10] [He Hadm Hok Hexp] Hh [Hl _] Hti Hb Hcap Hmax Hwf Hact.
  assert (forall k, Forall seq_ok (seqs_of ready k)) as Hq.
  { intros k. apply Forall_forall. intros y (p & -> & [(Hc & _) Hp]%list_elem_of_filter)%list_elem_of_fmap.
    rewrite Forall_forall in Hok. by apply (Hok p Hp Hc). }
  split; try done.
  - by apply Hl.
  - by eapply tiles_app.
  - intros k Hk. rewrite Hexp by done. specialize (H8 k Hk).
    pose proof (hist_next_limit _ (Hq k)). lia.
  - intros k. rewrite history_app. apply Forall_app. split; [done|]. by eapply entries_range.
  - apply Forall_app. split; [done|]. by eapply (entries_range s ready l' 0).
Qed.

Lemma commit_inv_append s s' l l' ready :
  commit_inv s l -> index_inv s' (l ++ l') -> epoch_entries s s' ready l' -> Forall (header_ok s) ready ->
  (forall k, StronglySorted Z.lt (seqs_of ready k)) -> extends_log (goi s) (goi s') l (l ++ l') ->
  commit_inv s' (l ++ l').
Proof.
  intros [Hi Hs Hl Hn] Hi' Hee Hh Hss [_ Hext].
  split; [done|by eapply session_inv_append|by apply Hext|]. intros k Hk.
  rewrite (ee_expected _ _ _ _ Hee k Hk), history_app, hist_next_app, Hn by done.
  by rewrite (history_entries s ready l' k Hh (ee_entries _ _ _ _ Hee)).
Qed.

(** [commit_reserved] on the ranges [CommitEpoch] reserves for [ready]. *)
Definition commit_ranges (s : CSt) (ready batch_list : list PendingBatch5) (contiguous : gmap Z Z)
    (seen : gset Z) (arrays : gmap Z Z * gmap Z Z) : CSt :=
  let num := Z.of_nat (length (committed ready)) in
  commit_reserved e (s <| global_batch_seq := global_batch_seq s + num |>
      <| global_seq := global_seq s + msgs ready |>) ready batch_list contiguous seen arrays
    (global_batch_seq s) (global_seq s) num.

Lemma commit_ranges_inv s ready batch_list contiguous seen arrays l :
  let s' := commit_ranges s ready batch_list contiguous seen arrays in
  index_inv s l -> Forall ready_ok ready -> Forall placed ready -> Forall (header_range s) ready ->
  Forall (admitted (cs_table s)) ready ->
  global_batch_seq s + Z.of_nat (length (committed ready)) <= kGOICapacity -> 0 <= msgs ready ->
  global_seq s + msgs ready <= U64_MAX ->
  exists l', index_inv s' (l ++ l') /\ epoch_entries s s' ready l' /\
    extends_log (goi s) (goi s') l (l ++ l') /\ cs_exhausted s' = cs_exhausted s /\
    forall k, k <> 0 -> durable_fenced (cs_table s') k = durable_fenced (cs_table s) k.
Proof.
  cbv zeta. intros Hinv Hok Hpl Hh Hadm Hcap Ht Hmax. unfold commit_ranges.
  set (s0 := s <| global_batch_seq := _ |> <| global_seq := _ |>).
  pose proof Hinv as [H1 H2 H3 H4 H5 H6 H7 H8 H9 H10].
  destruct (goi_fold ready s0 l (global_seq s) ∅ Hok Hpl) as (s1 & l' & tr' & Hrun & Hl & He & Hti & Hfr);
    [lia|lia|].
  exists l'. unfold commit_reserved, goi_loop. rewrite <- H2, Hrun. simpl fst.
  destruct (export_loop_frame e s1 (global_seq s) ready) as (Hf2 & _).
  set (s2 := export_loop e s1 (global_seq s) ready) in *. clearbody s2.
  set (m := meta_loop e s2 arrays contiguous ready).
  set (s3 := foldl (write_tinode m) s2 _). pose proof (write_tinode_frame m _ s2 : log_frame s2 s3) as Hf3.
  pose proof (credit_frame e m s3) as Hf4. set (s4 := credit_clients e m s3) in *. clearbody s3 s4.
  assert (log_frame s1 s4) as Hf14 by (eapply log_frame_trans; [exact Hf2|]; by eapply log_frame_trans).
  destruct Hf14 as (G1 & G2 & G3 & G4 & G5). destruct Hfr as (F1 & F2 & F3 & F4 & F5 & _).
  assert (cs_table s4 = cs_table s) as Ht4 by (rewrite G2; exact F2).
  destruct (publish_epoch s4 s2 ready arrays contiguous) as (t' & Hp & Hwf' & Hact' & Hexp);
    rewrite ?Ht4 in *; try done; [intros k Hk; by apply H8|].
  fold m in Hp. rewrite Hp. cbn [negb].
  set (s5 := s4 <| cs_table := t' |>) in *.
  match goal with |- context [AdvanceConsumedThroughForProcessedSlots e ?x ?a ?b ?c ?d] =>
    pose proof (Advance_frame e x a b c d) as Hf6;
    pose proof (FlushAccumulatedCV_frame e s5 (md_arrays m).1 (md_arrays m).2 (Some (md_seen m))) as Hf5;
    destruct (AdvanceConsumedThroughForProcessedSlots e x a b c d) as [cont s6]; simpl in Hf6 end.
  match goal with |- context [foldl (store_consumed cont) ?x ?y] =>
    pose proof (store_consumed_frame cont y x) as Hf8; set (s8 := foldl (store_consumed cont) x y) in * end.
  match goal with _ : context [EnqueueCompletedRange s6 ?a ?b] |- _ =>
    pose proof (Enqueue_frame s6 a b) as Hf7 end.
  assert (log_frame s5 s8) as Hf58.
  { eapply log_frame_trans; [exact Hf5|]. eapply log_frame_trans; [exact Hf6|]. by eapply log_frame_trans. }
  clearbody s8. destruct Hf58 as (K1 & K2 & K3 & K4 & K5).
  assert (epoch_entries s s8 ready l') as Hee
    by (split; [exact He|done|done|]; intros k Hk; rewrite K2; by apply Hexp).
  assert (extends_log (goi s) (goi s8) l (l ++ l')) as Hext by (rewrite K1; simpl; by rewrite G1).
  assert (global_batch_seq s8 = Z.of_nat (length (l ++ l')) /\ global_seq s8 = global_seq s + msgs ready)
    as [Hb8 Hs8].
  { rewrite K4, K5. simpl. rewrite G4, G5, F4, F5. simpl. split; [|done].
    rewrite length_app. apply Forall2_length in He. lia. }
  split; [|split; [exact Hee|split; [exact Hext|split; [rewrite K3; simpl; by rewrite G3, F3|]]]];
    [|intros k Hk; rewrite K2; by apply Hexp].
  apply (index_inv_append s s8 l l' ready); rewrite ?K2, ?Hs8; try done; [|lia].
  rewrite Hb8, length_app. apply Forall2_length in He. lia.
Qed.

(** A fenced session passes the guard with nothing. *)
Lemma admitted_fenced t ready k :
  Forall (admitted t) ready -> durable_fenced t k = true -> seqs_of ready k = [].
Proof.
  intros Hadm Hf. unfold seqs_of. destruct (filter _ ready) as [|p r] eqn:Ef; [done|].
  assert (p ∈ p :: r) as Hp by left. rewrite <- Ef in Hp.
  apply list_elem_of_filter in Hp as [(Hc & Hpe & <-) Hp]. rewrite Forall_forall in Hadm.
  destruct (Hadm p Hp Hc Hpe) as (_ & Hx & _). congruence.
Qed.

Lemma history_length s ready l k :
  Forall2 (entry_of s) (committed ready) l -> length (history l k) = length (seqs_of ready k).
Proof.
  unfold history, seqs_of, committed. revert l. induction ready as [|p ready IH]; intros l H2;
    [by apply Forall2_nil_inv_l in H2 as ->|].
  rewrite filter_cons in H2. rewrite (filter_cons _ p).
  destruct (decide (committable p = true)) as [Hc|Hc].
  2: { rewrite decide_False by naive_solver. by apply IH. }
  apply Forall2_cons_inv_l in H2 as (g & l' & (_ & Hcl & Hep & _) & H2 & ->).
  rewrite filter_cons, Hcl, Hep. fold (session_key p). repeat case_decide; naive_solver.
Qed.

(** What a commit of [ready] adds to the log [l]; the sessions' order needs the
    headers the scanner read. *)
Record commit_result (s s' : CSt) (ready : list PendingBatch5) (l l' : list GOIEntry) : Prop := {
  cr_index : index_inv s' (l ++ l');
  cr_session : session_inv s l -> Forall (header_ok s) ready -> session_inv s' (l ++ l');
  cr_inv : commit_inv s l -> Forall (header_ok s) ready -> commit_inv s' (l ++ l');
  cr_source k : Forall (header_ok s) ready -> sublist (history l' k) (seqs_of ready k);
  cr_fenced k : k <> 0 -> durable_fenced (cs_table s) k = true -> history l' k = [];
  cr_credit c : u64 (zlookup (client_ordered s') c) =
    u64 (zlookup (client_ordered s) c + goi_msgs l' c);
  cr_stop : cs_exhausted s' = true -> l' = [];
  cr_fences k : k <> 0 -> durable_fenced (cs_table s') k = durable_fenced (cs_table s) k;
}.

Lemma commit_nothing s s' ready l :
  index_inv s l -> same_log s s' -> grown (cs_table s) (cs_table s') ->
  client_ordered s' = client_ordered s -> commit_result s s' ready l [].
Proof.
  intros Hi Hsl Hgr E5. split; rewrite ?app_nil_r; try done.
  - by eapply index_inv_frame.
  - intros. by eapply session_inv_frame.
  - intros. by eapply commit_inv_frame.
  - intros k _. apply sublist_nil_l.
  - intros c. rewrite E5. f_equal. unfold goi_msgs. simpl. lia.
  - intros k Hk. by apply grown_fenced.
Qed.

Lemma commit_kept s s1 ready kept bl cont seen arrays l :
  index_inv s l -> same_log s s1 -> grown (cs_table s) (cs_table s1) -> Forall ready_ok kept -> Forall (header_range s1) kept ->
  (Forall (header_ok s) ready -> Forall (header_ok s1) kept) -> sublist kept ready ->
  Forall (admitted (cs_table s1)) kept -> client_ordered s1 = client_ordered s -> cs_exhausted s1 = false ->
  (forall k, StronglySorted Z.lt (seqs_of kept k)) -> Forall placed kept ->
  global_batch_seq s1 + Z.of_nat (length (committed kept)) <= kGOICapacity -> 0 <= msgs kept ->
  global_seq s1 + msgs kept <= U64_MAX ->
  exists l', commit_result s (commit_ranges s1 kept bl cont seen arrays) ready l l'.
Proof.
  intros Hi Hsl Hgr Hok1 Hr1 Hh1 Hsub Hadm Hco Hx Hss Hpl Hcap Hm Hmax.
  pose proof (index_inv_frame _ _ _ Hsl Hi) as Hi1.
  destruct (commit_ranges_inv s1 kept bl cont seen arrays l) as (l' & Hi' & Hee & Hext & Hx' & Hfe); try done.
  pose proof (ee_entries _ _ _ _ Hee) as He. exists l'. split; [exact Hi'| | | | | | |].
  - intros Hs Hh. eapply session_inv_append; [|exact Hee|by apply Hh1|done].
    by eapply session_inv_frame.
  - intros Hc Hh. eapply commit_inv_append; [|exact Hi'|exact Hee|by apply Hh1|done|done].
    by eapply commit_inv_frame.
  - intros k Hh. rewrite (history_entries s1 kept l' k (Hh1 Hh) He). by apply seqs_of_sublist.
  - intros k Hk Hf. apply nil_length_inv. rewrite (history_length s1 kept) by done.
    rewrite (admitted_fenced (cs_table s1)); [done|done|]. by rewrite (grown_fenced _ _ _ Hgr Hk).
  - intros c. unfold commit_ranges. rewrite commit_reserved_credit; [|done|].
    + simpl. by rewrite Hco, (goi_msgs_entries s1 kept).
    + pose proof (ii_len _ _ Hi1) as Hlen. set (s0 := s1 <| global_batch_seq := _ |> <| global_seq := _ |>).
      destruct (goi_fold kept s0 l (global_seq s1) ∅ Hok1 Hpl) as (s2 & l2 & tr & Hrun & _ & _ & _ & Hfr);
        [apply Hi1|done|].
      unfold goi_loop. rewrite <- Hlen, Hrun. simpl. by destruct Hfr as (_ & _ & _ & _ & _ & -> & _).
  - rewrite Hx', Hx. done.
  - intros k Hk. rewrite Hfe by done. by apply grown_fenced.
Qed.

Lemma CommitEpoch_spec s ready batch_list contiguous seen arrays l :
  index_inv s l -> Forall ready_ok ready -> Forall (header_range s) ready ->
  (forall k, StronglySorted Z.lt (seqs_of ready k)) ->
  exists l', commit_result s (CommitEpoch e s ready batch_list contiguous seen arrays) ready l l'.
Proof.
  intros Hinv Hok Hr Hss. unfold CommitEpoch.
  destruct (cs_exhausted s) eqn:Ex; [exists []; apply commit_nothing; [done|by apply log_frame_same|apply grown_refl|done]|].
  pose proof (guard_ready_spec ready s false Hok (ii_wf _ _ Hinv) (ii_active _ _ Hinv)) as Hg.
  destruct (guard_ready s false ready) as [[kept failed] s1].
  destruct Hg as (Hwf1 & Hgr & Hfr & Hgo & Hsub & _ & Hadm).
  destruct Hfr as (F1 & F2 & F3 & F4 & F5 & F6 & _). simpl in F3, F4, F5, F6.
  assert (same_log s s1) as Hsl by (by apply grown_same).
  assert (commit_result s (StopForCapacity s1) ready l []) as Hstop 
    by (apply commit_nothing; [done|by apply grown_same|done..]).
  destruct failed; [by exists []|]. specialize (Hadm eq_refl).
  destruct (bool_decide (kept = [])).
  { exists []. destruct (Advance_frame e s1 batch_list contiguous seen (Some arrays)) as (A1 & A2 & _ & A4 & A5).
    apply commit_nothing; [done| |by rewrite A2|etransitivity; [apply Advance_ack|done]].
    apply grown_same; rewrite ?A1, ?A2, ?A4, ?A5; done. }
  assert (Forall ready_ok kept /\ Forall (header_range s1) kept) as [Hok1 Hr1].
  { rewrite Forall_forall in Hok, Hr. split; apply Forall_forall; intros p Hp;
      pose proof (elem_of_sublist _ _ _ Hp Hsub) as Hp'; [by apply Hok|].
    intros Hc Hf. rewrite F1. by apply Hr. }
  assert (Forall (header_ok s) ready -> Forall (header_ok s1) kept) as Hh1.
  { rewrite !Forall_forall. intros Hh p Hp Hc Hf. rewrite F1. apply Hh; [|done..]. by eapply elem_of_sublist. }
  destruct (count_ready kept 0 0) as [[total num]|] eqn:Ec; [|by exists []].
  destruct (count_ready_spec kept 0 0 total num Hok1) as (-> & -> & Hpl & Hrn & Hm); [done..|].
  unfold TryReserveCommitRanges. destruct (_ || _) eqn:Er; [by exists []|]. bool_props.
  rewrite !Z.add_0_l. apply commit_kept; try done.
  - congruence.
  - intros k. eapply StronglySorted_sublist; [by apply seqs_of_sublist|apply Hss].
  - lia.
  - lia.
Qed.

Lemma CommitEpoch_exact s ready batch_list contiguous seen arrays l :
  let s' := CommitEpoch e s ready batch_list contiguous seen arrays in
  commit_inv s l -> Forall ready_ok ready -> Forall (header_ok s) ready ->
  (forall k, StronglySorted Z.lt (seqs_of ready k)) ->
  exists l', commit_inv s' (l ++ l') /\ commit_result s s' ready l l'.
Proof.
  intros s' Hi Hok Hh Hss. destruct (CommitEpoch_spec s ready batch_list contiguous seen arrays l)
    as (l' & Hr); [apply Hi|done|by apply header_ok_range|done|].
  exists l'. split; [by apply (cr_inv _ _ _ _ _ Hr)|exact Hr].
Qed.
End commit_log.
