(* ===== verification/CommitSpec.v ===== *)
(** What [Topic::CommitEpoch] guarantees: the index it extends, the sessions it
    publishes, the acknowledgements it credits and the ring slots it retires. *)

From S2P Require Import Prelude.
From S2P Require Import ClientState.
From S2P Require Import SessionTable.
From S2P Require Import Reservation.
From S2P Require Import Order5State.
From S2P Require Import Classifier.
From S2P Require Import ClassifierInv.
From S2P Require Import Commit.
From S2P Require Import CommitProofs.

(** * The whole epoch is released when the guard and the capacity allow it *)

Lemma admitted_entry s key :
  SessionTable.wf (cs_table s) -> is_Some (SessionTable.view (cs_table s) key) ->
  exists i, guard_entry s key = (Some i, s) /\
    SessionTable.view (cs_table s) key = Some (SessionTable.slot (cs_table s) i).
Proof.
  intros Hwf Hv. unfold guard_entry, SessionTable.view in *.
  destruct (SessionTable.FindSessionEntry (cs_table s) key) as [i|]; [by exists i|].
  by destruct Hv as [? ?].
Qed.

Lemma guard_passes s failed p :
  SessionTable.wf (cs_table s) -> ready_ok p -> admitted (cs_table s) p ->
  spatial_guard_reject s failed p = (false, failed, s).
Proof.
  intros Hwf Hok Ha. unfold spatial_guard_reject.
  destruct (skipped p || is_held_marker p) eqn:Ec; [done|].
  assert (committable p = true) as Hc by (unfold committable; by rewrite Ec).
  destruct (Hok Hc) as (Hm & _). destruct (e_fields p Hm) as (-> & -> & -> & _ & _).
  destruct (Z.eqb_spec (session_epoch p) 0) as [|Hne]; [done|].
  destruct (Ha Hc Hne) as (Hv & Hf & Hx). fold (session_key p).
  destruct (admitted_entry s (session_key p) Hwf Hv) as (i & -> & Hvi).
  rewrite !flags_land by done. unfold durable_fenced, expected_at in Hf, Hx. rewrite Hvi in Hf, Hx.
  fold (SessionTable.entry_active (SessionTable.slot (cs_table s) i))
    (SessionTable.entry_fenced (SessionTable.slot (cs_table s) i)).
  rewrite Hf. destruct (SessionTable.entry_active _); [|done].
  unfold ShouldRejectOrder5SpatialGuard. simpl. by rewrite (proj2 (Z.ltb_ge _ _) Hx).
Qed.

Lemma guard_passes_all ready s failed :
  SessionTable.wf (cs_table s) -> Forall ready_ok ready -> Forall (admitted (cs_table s)) ready ->
  guard_ready s failed ready = (ready, failed, s).
Proof.
  intros Hwf. induction ready as [|p ready IH]; [done|].
  intros [Hp Hok]%Forall_cons [Ha Had]%Forall_cons. simpl. by rewrite guard_passes, IH.
Qed.

Lemma msgs_nonneg ready : Forall ready_ok ready -> 0 <= msgs ready.
Proof.
  unfold msgs, committed. induction ready as [|q ready IH]; [done|]. intros [Hq Hok]%Forall_cons.
  rewrite filter_cons. case_decide as Hc; [|auto]. simpl. destruct (Hq Hc) as (_ & Hn & _).
  unfold is_u32 in Hn. specialize (IH Hok). lia.
Qed.

Lemma count_ready_fits ready : forall t n,
  Forall ready_ok ready -> Forall placed ready -> 0 <= t -> t + msgs ready <= U64_MAX ->
  count_ready ready t n = Some (t + msgs ready, n + Z.of_nat (length (committed ready))).
Proof.
  unfold msgs, committed. induction ready as [|p ready IH]; intros t n; [simpl; intros; do 2 f_equal; lia|].
  intros [Hp Hok]%Forall_cons [Hq Hpl]%Forall_cons Ht. rewrite filter_cons.
  destruct (decide (committable p = true)) as [Hc|Hc].
  - cbn [foldr length]. intros Hle. cbn [count_ready]. rewrite Hc. cbn [negb].
    destruct (Hp Hc) as (_ & Hn & _).
    pose proof (msgs_nonneg ready Hok) as Hge. unfold msgs, committed in Hge.
    unfold is_u32 in Hn. rewrite Z.gtb_ltb, (proj2 (Z.ltb_ge _ _)) by lia.
    assert (negb (from_hold p) && (hdr p =? 0) = false) as ->.
    { destruct (Hq Hc) as [->|Hh]; [done|]. apply Z.eqb_neq in Hh as ->. by destruct (from_hold p). }
    cbn [orb]. rewrite IH by (done || lia). do 2 f_equal; lia.
  - intros Hle. cbn [count_ready]. destruct (committable p); [done|]. by apply IH.
Qed.

(** * The guarantees of a commit *)
Section commit_spec.
  Context (e : CEnv) (s : CSt) (ready batch_list : list PendingBatch5) (contiguous : gmap Z Z)
    (seen : gset Z) (arrays : gmap Z Z * gmap Z Z) (l : list GOIEntry).
  Hypothesis Horder : forall X, publish_order e X ≡ₚ elements X.
  Hypothesis Hinv : commit_inv s l.
  Hypothesis Hok : Forall ready_ok ready.
  Hypothesis Hhdr : Forall (header_ok s) ready.
  Hypothesis Hfifo : forall k, StronglySorted Z.lt (seqs_of ready k).

Let s' := CommitEpoch e s ready batch_list contiguous seen arrays.

(** A commit appends to the global order index: the entries already there
    stay, the new ones take the next indices, and the messages of all entries
    fill the total order from 0 without a gap or an overlap.  A commit that
    runs out of capacity appends nothing. *)
Theorem commit_extends_total_order :
  exists l', log_of (goi s') (l ++ l') /\ tiles 0 0 (l ++ l') (global_seq s') /\
    Z.of_nat (length (l ++ l')) = global_batch_seq s' /\ global_batch_seq s' <= kGOICapacity /\
    global_seq s' <= U64_MAX /\ (cs_exhausted s' = true -> l' = []).
Proof.
  destruct (CommitEpoch_exact e Horder s ready batch_list contiguous seen arrays l) as (l' & Hi & Hr);
    [done..|].
  exists l'. fold s' in Hi, Hr. split; [apply Hi|split; [apply Hi|split; [apply Hi|split; [apply Hi|]]]].
  split; [apply Hi|apply Hr].
Qed.

(** In the index every session's batches stand in the order of their
    sequence numbers, each at most once; a commit adds batches of the epoch
    only, none of a fenced session, and leaves in the session table the
    sequence number after the last committed batch. *)
Theorem commit_session_order k :
  exists l', log_of (goi s') (l ++ l') /\ sublist (history l' k) (seqs_of ready k) /\
    StronglySorted Z.lt (history (l ++ l') k) /\
    (k <> 0 -> expected_at (cs_table s') k = hist_next (history (l ++ l') k)) /\
    (k <> 0 -> durable_fenced (cs_table s) k = true ->
       history l' k = [] /\ durable_fenced (cs_table s') k = true).
Proof.
  destruct (CommitEpoch_exact e Horder s ready batch_list contiguous seen arrays l)
    as (l' & Hi & Hr); [done..|].
  exists l'. fold s' in Hi, Hr. split; [apply Hi|split; [by apply Hr|split; [apply Hi|]]].
  split; [by apply (ci_next _ _ Hi)|]. intros Hk Hd.
  split; [by apply (cr_fenced _ _ _ _ _ Hr)|by rewrite (cr_fences _ _ _ _ _ Hr)].
Qed.

(** The acknowledged count of every client grows by the messages of the
    entries that the commit appended for it. *)
Theorem commit_credits_clients c :
  exists l', log_of (goi s') (l ++ l') /\
    u64 (zlookup (client_ordered s') c) = u64 (zlookup (client_ordered s) c + goi_msgs l' c).
Proof.
  destruct (CommitEpoch_exact e Horder s ready batch_list contiguous seen arrays l) as (l' & Hi & Hr);
    [done..|].
  exists l'. split; [apply Hi|apply (cr_credit _ _ _ _ _ Hr)].
Qed.

(** When the session table admits every batch of the epoch and there is room
    for them, the commit appends the entry of every batch, in the order of the
    epoch. *)
Theorem commit_releases_all :
  cs_exhausted s = false -> Forall (admitted (cs_table s)) ready -> Forall placed ready ->
  global_batch_seq s + Z.of_nat (length (committed ready)) <= kGOICapacity ->
  global_seq s + msgs ready <= U64_MAX ->
  exists l', log_of (goi s') (l ++ l') /\ Forall2 (entry_of s) (committed ready) l' /\
    global_batch_seq s' = global_batch_seq s + Z.of_nat (length (committed ready)) /\
    cs_exhausted s' = false.
Proof.
  intros Hx Hadm Hpl Hcap Hmax. subst s'. unfold CommitEpoch. rewrite Hx.
  rewrite (guard_passes_all _ _ _ (ii_wf _ _ Hinv) Hok Hadm). cbn iota beta.
  pose proof (ii_max _ _ Hinv) as Hgs. pose proof (ii_len _ _ Hinv) as Hlen.
  destruct (bool_decide_reflect (ready = [])) as [->|Hne].
  { destruct (Advance_frame e s batch_list contiguous seen (Some arrays)) as (A1 & A2 & A3 & A4 & A5).
    exists []. rewrite app_nil_r, A1, A3, A4. simpl. split; [apply Hinv|]. split; [constructor|split; [lia|done]]. }
  pose proof (msgs_nonneg ready Hok) as Hm0.
  rewrite count_ready_fits by (done || lia). unfold TryReserveCommitRanges.
  destruct (_ || _) eqn:Er; [exfalso; bool_props; unfold kGOICapacity, U64_MAX in *; lia|].
  rewrite !Z.add_0_l.
  destruct (commit_ranges_inv e Horder s ready batch_list contiguous seen arrays l) as
    (l' & Hi' & Hee & [_ Hext] & Hx' & _); try done; [apply Hinv|by apply header_ok_range|].
  pose proof (ee_entries _ _ _ _ Hee) as He. exists l'. split; [apply Hext, Hinv|split; [exact He|split]].
  - pose proof (ii_len _ _ Hi') as Hl'. unfold commit_ranges in Hl'. rewrite <- Hl', length_app.
    apply Forall2_length in He. lia.
  - by rewrite <- Hx, <- Hx'.
Qed.
End commit_spec.

(** * The completion vector *)

(** [kNoProgress] counts as no progress. *)
Definition cv_le (a b : CompletionVectorEntry) : Prop :=
  sequencer_logical_offset a <= sequencer_logical_offset b /\
  completed_logical_offset a <= completed_logical_offset b /\
  (completed_pbr_head a = kNoProgress \/ completed_pbr_head a <= completed_pbr_head b).

Lemma cv_le_refl a : cv_le a a.
Proof. unfold cv_le. repeat split; auto; lia. Qed.

(** What one broker's entry becomes. *)
Definition flushed (e : CEnv) (cum pbr : Z) (a : CompletionVectorEntry) : CompletionVectorEntry :=
  if replication_factor e <=? 1 then
    mkCV (if completed_pbr_head a =? kNoProgress then pbr else Z.max (completed_pbr_head a) pbr)
      (Z.max (sequencer_logical_offset a) cum) (Z.max (completed_logical_offset a) cum)
  else mkCV (completed_pbr_head a) (Z.max (sequencer_logical_offset a) cum) (completed_logical_offset a).

Lemma flush_cv_one_at e cum pbr s b b' :
  cv_at (flush_cv_one e cum pbr s b) b' =
    if decide (b' = b) then flushed e (zlookup cum b) (zlookup pbr b) (cv_at s b) else cv_at s b'.
Proof.
  unfold flush_cv_one, cv_at at 1, put_cv. simpl. rewrite lookup_insert.
  destruct (decide (b = b')) as [->|Hne]; [rewrite decide_True by done|by rewrite decide_False by done].
  simpl. unfold flushed. destruct (replication_factor e <=? 1); simpl; f_equal; rewrite ?Z.gtb_ltb;
    repeat case_match; bool_props; try done; lia.
Qed.

Lemma flush_cv_fold e cum pbr bs : forall s b,
  NoDup bs ->
  cv_at (foldl (flush_cv_one e cum pbr) s bs) b =
    if decide (b ∈ bs) then flushed e (zlookup cum b) (zlookup pbr b) (cv_at s b) else cv_at s b.
Proof.
  induction bs as [|x bs IH]; intros s b Hnd; simpl; [done|].
  apply NoDup_cons in Hnd as [Hx Hnd]. rewrite IH by done. rewrite !flush_cv_one_at.
  destruct (decide (b = x)) as [->|Hne].
  - rewrite (decide_False (P := x ∈ bs)) by done. by rewrite decide_True by left.
  - destruct (decide (b ∈ bs)) as [Hin|Hin]; [by rewrite decide_True by (by right)|].
    rewrite decide_False; [done|]. intros [?|?]%elem_of_cons; done.
Qed.

Lemma brokers_NoDup : NoDup brokers.
Proof. apply (NoDup_fmap_2 _), NoDup_seq. Qed.

Lemma flushed_le e cum pbr a : cv_le a (flushed e cum pbr a).
Proof.
  unfold cv_le, flushed. destruct (replication_factor e <=? 1); simpl; [|lia].
  destruct (Z.eqb_spec (completed_pbr_head a) kNoProgress); simpl; lia.
Qed.

(** A flush of the completion vector never moves an entry backwards.  The
    entry of a visited broker reaches the accumulated ordered count; its
    durable count and its ring head move with it only when there is no
    replication, where the sequencer owns them. *)
Theorem FlushAccumulatedCV_monotone e s cum pbr touched b :
  let s' := FlushAccumulatedCV e s cum pbr touched in
  cv_le (cv_at s b) (cv_at s' b) /\
  (cs_exhausted s = false -> b ∈ brokers -> (forall t, touched = Some t -> b ∈ t) ->
   sequencer_logical_offset (cv_at s' b) = Z.max (sequencer_logical_offset (cv_at s b)) (zlookup cum b) /\
   (replication_factor e <= 1 ->
    completed_logical_offset (cv_at s' b) = Z.max (completed_logical_offset (cv_at s b)) (zlookup cum b))) /\
  (replication_factor e > 1 ->
    completed_logical_offset (cv_at s' b) = completed_logical_offset (cv_at s b) /\
    completed_pbr_head (cv_at s' b) = completed_pbr_head (cv_at s b)).
Proof.
  unfold FlushAccumulatedCV. simpl. destruct (cs_exhausted s) eqn:Ex.
  { split; [apply cv_le_refl|]. by split. }
  set (bs := match touched with Some t => _ | None => _ end).
  assert (NoDup bs) as Hnd
    by (unfold bs; destruct touched; [apply NoDup_filter|]; apply brokers_NoDup).
  rewrite flush_cv_fold by done. split; [|split].
  - case_decide; [apply flushed_le|apply cv_le_refl].
  - intros _ Hb Ht. rewrite decide_True.
    + unfold flushed. destruct (Z.leb_spec (replication_factor e) 1); simpl; split; done || lia.
    + unfold bs. destruct touched as [t|]; [|done]. apply list_elem_of_filter. split; [by apply Ht|done].
  - intros Hrf. case_decide; [|done]. unfold flushed.
    rewrite (proj2 (Z.leb_gt _ _)) by lia. done.
Qed.

(** * Retired ring slots *)

Lemma advance_slots_spec fuel count processed : 0 < count -> forall start,
  0 <= start < count ->
  exists n : nat, (n <= fuel)%nat /\
    advance_slots fuel count processed start = (start + Z.of_nat n) mod count /\
    (forall i : nat, (i < n)%nat -> (start + Z.of_nat i) mod count ∈ processed) /\
    ((n < fuel)%nat -> (start + Z.of_nat n) mod count ∉ processed).
Proof.
  intros Hc. induction fuel as [|fuel IH]; intros start Hs; simpl.
  { exists 0%nat. split; [done|]. rewrite Z.add_0_r, Z.mod_small by lia. split; [done|split; lia]. }
  destruct (decide (start ∈ processed)) as [Hin|Hin].
  - destruct (IH ((start + 1) mod count)) as (n & Hn & -> & H1 & H2); [apply Z.mod_pos_bound; lia|].
    assert (forall k, ((start + 1) mod count + k) mod count = (start + (1 + k)) mod count) as Hm.
    { intros k. rewrite Zplus_mod_idemp_l. f_equal. lia. }
    exists (S n). rewrite Nat2Z.inj_succ, <- Z.add_1_l, <- Hm.
    split; [lia|split; [done|split; [|intros; apply H2; lia]]].
    intros [|i] Hi; [rewrite Z.add_0_r, Z.mod_small by lia; done|].
    rewrite Nat2Z.inj_succ, <- Z.add_1_l, <- Hm. apply H1. lia.
  - exists 0%nat. rewrite Z.add_0_r, Z.mod_small by lia. split; [lia|split; [done|split; [lia|done]]].
Qed.

(** The position in the ring that [consumed_through] stands for. *)
Definition ring_slot (e : CEnv) (consumed : Z) : Z :=
  (if consumed >=? ce_BATCHHEADERS_SIZE e then 0 else consumed) / kBatchHeaderSize.

Lemma zlookup_insert_eq m k v : zlookup (<[k := v]> m) k = v.
Proof. unfold zlookup. by rewrite lookup_insert_eq. Qed.

Lemma advance_one_ne e bl c b b' : b <> b' -> zlookup (advance_one e bl c b) b' = zlookup c b'.
Proof.
  intros Hne. unfold advance_one. destruct (negb _); [done|]. unfold zlookup.
  by rewrite lookup_insert_ne.
Qed.

Lemma advance_one_cong e bl c c' b :
  zlookup c b = zlookup c' b -> zlookup (advance_one e bl c b) b = zlookup (advance_one e bl c' b) b.
Proof.
  intros E. unfold advance_one. rewrite E. destruct (negb _); [done|]. by rewrite !zlookup_insert_eq.
Qed.

Lemma advance_fold_at e bl bs : forall c b,
  NoDup bs -> b ∈ bs -> zlookup (foldl (advance_one e bl) c bs) b = zlookup (advance_one e bl c b) b.
Proof.
  assert (forall bs c b, b ∉ bs -> zlookup (foldl (advance_one e bl) c bs) b = zlookup c b) as Hout.
  { clear. induction bs as [|x bs IH]; intros c b Hb; simpl; [done|].
    apply not_elem_of_cons in Hb as [Hx Hb]. by rewrite IH, advance_one_ne by done. }
  induction bs as [|x bs IH]; intros c b Hnd Hb; [by apply not_elem_of_nil in Hb|].
  apply NoDup_cons in Hnd as [Hx Hnd]. simpl. apply elem_of_cons in Hb as [->|Hb]; [by rewrite Hout|].
  rewrite IH by done. apply advance_one_cong, advance_one_ne. by intros ->.
Qed.

Lemma store_consumed_fold c bs : forall s b,
  NoDup bs -> b ∈ bs -> o_consumed_through (offsets_at (foldl (store_consumed c) s bs) b) = zlookup c b.
Proof.
  assert (forall bs s b, b ∉ bs -> offsets_at (foldl (store_consumed c) s bs) b = offsets_at s b) as Hout.
  { clear. induction bs as [|x bs IH]; intros s b Hb; simpl; [done|].
    apply not_elem_of_cons in Hb as [Hx Hb]. rewrite IH by done.
    unfold store_consumed, put_offsets, offsets_at at 1. simpl. by rewrite lookup_insert_ne. }
  induction bs as [|x bs IH]; intros s b Hnd Hb; [by apply not_elem_of_nil in Hb|].
  apply NoDup_cons in Hnd as [Hx Hnd]. simpl. apply elem_of_cons in Hb as [->|Hb]; [|by apply IH].
  rewrite Hout by done. unfold store_consumed, put_offsets, offsets_at at 1. simpl.
  by rewrite lookup_insert_eq.
Qed.

Lemma flush_cv_offsets e s cum pbr t : offsets (FlushAccumulatedCV e s cum pbr t) = offsets s.
Proof.
  unfold FlushAccumulatedCV. destruct (cs_exhausted s); [done|].
  set (bs := match t with Some _ => _ | None => _ end). clearbody bs. revert s.
  induction bs as [|b bs IH]; intros s; simpl; [done|]. by rewrite IH.
Qed.

Lemma processed_slots_elem e bl b slot :
  slot ∈ processed_slots e bl b <->
  exists p, p ∈ bl /\ broker_id p = b /\ slot_offset p < ce_BATCHHEADERS_SIZE e /\
    slot_offset p = slot * kBatchHeaderSize /\ slot_held e p = false.
Proof.
  unfold processed_slots. rewrite elem_of_list_to_set, list_elem_of_fmap. split.
  - intros (p & -> & [Hf Hp]%list_elem_of_filter). exists p. bool_props. split; [done|].
    split; [done|split; [done|split; [|done]]].
    pose proof (Z.div_mod (slot_offset p) kBatchHeaderSize). unfold kBatchHeaderSize in *. lia.
  - intros (p & Hp & <- & Hlt & Hs & Hh). exists p. rewrite Hs, Z.div_mul by done. split; [done|].
    apply list_elem_of_filter. split; [|done]. rewrite Hh, Z.eqb_refl, (proj2 (Z.ltb_lt _ _)) by lia.
    rewrite Hs, Z.mod_mul by done. done.
Qed.

(** The consumed position of a broker's ring advances over exactly the run of
    slots from its start whose batches the epoch has processed for good: every
    slot passed belongs to a batch of the epoch that is not held, and the slot
    where it stops does not, unless the whole ring was passed. *)
Theorem consumed_advances_over_processed_run e s batch_list contiguous seen arrays b :
  let H := kBatchHeaderSize in
  let count := ce_BATCHHEADERS_SIZE e / H in
  let '(c', s') := AdvanceConsumedThroughForProcessedSlots e s batch_list contiguous seen arrays in
  cs_exhausted s = false -> batch_list <> [] -> b ∈ brokers -> b ∈ seen ->
  0 < count -> ce_BATCHHEADERS_SIZE e = count * H ->
  0 <= zlookup contiguous b -> zlookup contiguous b mod H = 0 ->
  let retired slot := exists p, p ∈ batch_list /\ broker_id p = b /\ slot_offset p = slot * H /\
                                slot_held e p = false in
  o_consumed_through (offsets_at s' b) = zlookup c' b /\
  0 < zlookup c' b <= ce_BATCHHEADERS_SIZE e /\
  exists n : nat, Z.of_nat n <= count /\
    ring_slot e (zlookup c' b) = (ring_slot e (zlookup contiguous b) + Z.of_nat n) mod count /\
    (forall i : nat, (i < n)%nat -> retired ((ring_slot e (zlookup contiguous b) + Z.of_nat i) mod count)) /\
    (Z.of_nat n < count -> ~ retired (ring_slot e (zlookup c' b))).
Proof.
  simpl. destruct (AdvanceConsumedThroughForProcessedSlots _ _ _ _ _ _) as [c' s'] eqn:Ea.
  unfold AdvanceConsumedThroughForProcessedSlots in Ea. intros Hx Hbl Hb Hseen Hc Hsize H0 Hal.
  rewrite Hx, bool_decide_eq_false_2 in Ea by done.
  set (bs := filter (fun b => b ∈ seen) brokers) in Ea.
  assert (NoDup bs /\ b ∈ bs) as [Hnd Hbs]
    by (split; [apply NoDup_filter, brokers_NoDup|by apply list_elem_of_filter]).
  injection Ea as <- <-. split.
  { unfold offsets_at. destruct arrays as [[cum pbr]|]; rewrite ?flush_cv_offsets;
      by apply store_consumed_fold. }
  rewrite advance_fold_at by done. unfold advance_one. fold (ring_slot e (zlookup contiguous b)).
  set (size := ce_BATCHHEADERS_SIZE e) in *. set (count := size / kBatchHeaderSize) in *.
  assert (negb ((if zlookup contiguous b >=? size then 0 else zlookup contiguous b) mod kBatchHeaderSize =? 0)
    = false) as -> by (destruct (_ >=? _); [done|by rewrite Hal]).
  set (start := ring_slot e (zlookup contiguous b)).
  assert (0 <= start < count) as Hst.
  { unfold start, ring_slot. fold size. rewrite Z.geb_leb.
    destruct (Z.leb_spec size (zlookup contiguous b)); [rewrite Z.div_0_l by done; lia|].
    split; [by apply Z.div_pos|]. apply Z.div_lt_upper_bound; [done|]. by rewrite Z.mul_comm, <- Hsize. }
  destruct (advance_slots_spec (Z.to_nat count) count (processed_slots e batch_list b) Hc start Hst)
    as (n & Hn & -> & H1 & H2).
  set (stop := (start + Z.of_nat n) mod count) in *.
  assert (0 <= stop < count) as Hstop by (apply Z.mod_pos_bound; lia).
  rewrite !zlookup_insert_eq.
  assert (ring_slot e (if stop =? 0 then size else stop * kBatchHeaderSize) = stop) as Hring.
  { unfold ring_slot. fold size. rewrite Z.geb_leb.
    destruct (Z.eqb_spec stop 0) as [->|Hs0]; [by rewrite Z.leb_refl|].
    rewrite (proj2 (Z.leb_gt _ _)) by (unfold kBatchHeaderSize in *; lia). by apply Z.div_mul. }
  split; [unfold kBatchHeaderSize in *; destruct (Z.eqb_spec stop 0); lia|].
  exists n. rewrite Hring. split; [lia|split; [done|split]].
  - intros i Hi. apply H1, processed_slots_elem in Hi as (p & ? & ? & ? & ? & ?). by exists p.
  - intros Hlt (p & Hp & Hpb & Hps & Hph). apply H2; [lia|]. apply processed_slots_elem.
    exists p. unfold kBatchHeaderSize in *. fold size. split; [done|split; [done|split; [lia|done]]].
Qed.

(** * The keyed probe and the sweep *)

Lemma held_entries_elem s he :
  he ∈ held_entries s <-> exists k seq, held_at s k !! seq = Some he.
Proof.
  unfold held_entries. rewrite list_elem_of_In, in_concat. split.
  - intros (l & ([k held] & -> & Hk)%list_elem_of_In%list_elem_of_fmap & He%list_elem_of_In). simpl in He.
    apply list_elem_of_fmap in He as ([seq he'] & -> & Hs). apply elem_of_map_to_list in Hk, Hs.
    exists k, seq. unfold held_at. by rewrite Hk.
  - intros (k & seq & Hs). unfold held_at in Hs.
    destruct (hold_buffer s !! k) as [held|] eqn:Hk; simpl in Hs; [|by rewrite lookup_empty in Hs].
    exists (snd <$> map_to_list held). rewrite <- !list_elem_of_In. split.
    + apply list_elem_of_fmap. exists (k, held). split; [done|by apply elem_of_map_to_list].
    + apply list_elem_of_fmap. exists (seq, he). split; [done|by apply elem_of_map_to_list].
Qed.

Section keyed_probe.
  Context (e : CEnv).

(** Every held batch is in its client's shard, under its stream and sequence
    number. *)
Definition hold_sound : Prop := forall i s k seq he,
  shards e !! i = Some s -> held_at s k !! seq = Some he ->
  let b := he_batch he in
  he_meta he = meta_of b /\ k = hold_key e b /\ seq = batch_seq b /\
  client_id b <> 0 /\ client_id b <> U64_MAX /\
  Z.of_nat i = client_id b mod Z.of_nat (length (shards e)).

(** A ring slot and its generation belong to one batch. *)
Definition slot_identifies (p : PendingBatch5) : Prop := forall i s k seq he,
  shards e !! i = Some s -> held_at s k !! seq = Some he ->
  let b := he_batch he in
  broker_id b = broker_id p -> slot_offset b = slot_offset p ->
  cached_pbr_absolute_index b = cached_pbr_absolute_index p ->
  client_id b = client_id p /\ session_epoch b = session_epoch p /\ batch_seq b = batch_seq p.

Lemma probe_iff p : hold_sound -> slot_identifies p ->
  IsOrder5SlotHeldInHoldBuffer e p = true <->
  exists s he, s ∈ shards e /\ he ∈ held_entries s /\
    m_broker_id (he_meta he) = broker_id p /\ m_slot_offset (he_meta he) = slot_offset p /\
    m_pbr_absolute_index (he_meta he) = cached_pbr_absolute_index p.
Proof.
  intros Hs Hid. unfold IsOrder5SlotHeldInHoldBuffer. split.
  - destruct (_ || _); [done|]. destruct (shards e !! _) as [s|] eqn:Esh; [|done].
    destruct (held_at s _ !! _) as [he|] eqn:Ehe; [|done]. intros Hm. bool_props.
    exists s, he. split; [by eapply list_elem_of_lookup_2|]. split; [|done].
    apply held_entries_elem. eauto.
  - intros (s & he & [i Hi]%list_elem_of_lookup & (k & seq & Hh)%held_entries_elem & M1 & M2 & M3).
    destruct (Hs i s k seq he Hi Hh) as (Hme & Hk & Hq & Hc0 & Hcm & Hmod).
    rewrite Hme in M1, M2, M3. simpl in M1, M2, M3.
    destruct (Hid i s k seq he Hi Hh M1 M2 M3) as (Ec & Ee & Eq).
    pose proof (lookup_lt_Some _ _ _ Hi) as Hlt. rewrite Ec in *.
    rewrite (proj2 (Z.eqb_neq _ _)), (proj2 (Z.eqb_neq _ _) Hc0), (proj2 (Z.eqb_neq _ _) Hcm) by lia.
    cbn [orb]. rewrite <- Hmod, Nat2Z.id, Hi.
    assert (hold_key e p = k) as -> .
    { rewrite Hk. unfold hold_key, session_of. by rewrite Ec, Ee, M1. }
    rewrite <- Eq, <- Hq, Hh, Hme. cbn [meta_of m_broker_id m_slot_offset m_pbr_absolute_index].
    by rewrite M1, M2, M3, !Z.eqb_refl.
Qed.

Lemma deferred_iff p :
  existsb (fun slot => Order5SlotMatches slot (broker_id p) (slot_offset p) (cached_pbr_absolute_index p))
    (deferred_slots (shards e)) = true <->
  exists s, s ∈ shards e /\
    (existsb (fun q => Order5SlotMatches (mkSlot (broker_id q) (slot_offset q) (cached_pbr_absolute_index q))
       (broker_id p) (slot_offset p) (cached_pbr_absolute_index p)) (deferred_level5 s) ||
     existsb (fun slot => Order5SlotMatches slot (broker_id p) (slot_offset p) (cached_pbr_absolute_index p))
       (backpressured_level5_slots s)) = true.
Proof.
  unfold deferred_slots. induction (shards e) as [|s sh IH]; [split; [done|by intros (? & ?%not_elem_of_nil & _)]|].
  simpl. rewrite existsb_app, existsb_app, orb_true_iff, IH.
  assert (existsb (fun slot => Order5SlotMatches slot (broker_id p) (slot_offset p) (cached_pbr_absolute_index p))
      ((fun p => mkSlot (broker_id p) (slot_offset p) (cached_pbr_absolute_index p)) <$> deferred_level5 s) =
    existsb (fun q => Order5SlotMatches (mkSlot (broker_id q) (slot_offset q) (cached_pbr_absolute_index q))
       (broker_id p) (slot_offset p) (cached_pbr_absolute_index p)) (deferred_level5 s)) as ->.
  { induction (deferred_level5 s) as [|q d IHd]; [done|]. cbn [fmap list_fmap existsb]. by rewrite <- IHd. }
  split.
  - intros [H|(s' & Hin & H)]; [exists s; split; [left|done]|exists s'; split; [by right|done]].
  - intros (s' & [->|Hin]%elem_of_cons & H); [by left|right; eauto].
Qed.

(** The keyed probe of the hold buffers, with the sweep of the deferred and
    backpressured lists, finds exactly the slots that the full sweep of
    everything held finds. *)
Theorem keyed_probe_equals_sweep p : hold_sound -> slot_identifies p ->
  slot_held e p = IsOrder5HeldSlot e (broker_id p) (slot_offset p) (cached_pbr_absolute_index p).
Proof.
  intros Hs Hid. apply eq_true_iff_eq. unfold slot_held, IsOrder5HeldSlot.
  rewrite orb_true_iff, deferred_iff, (probe_iff p Hs Hid), existsb_exists. split.
  - intros [(s & Hin & H)|(s & he & Hin & Hhe & M1 & M2 & M3)]; exists s;
      (split; [by apply list_elem_of_In|]); apply orb_true_iff; [by left|right].
    apply existsb_exists. exists he. split; [by apply list_elem_of_In|].
    unfold Order5SlotMatches. simpl. by rewrite M1, M2, M3, !Z.eqb_refl.
  - intros (s & Hin%list_elem_of_In & [H|H]%orb_true_iff); [left; eauto|right].
    apply existsb_exists in H as (he & Hhe%list_elem_of_In & H). exists s, he.
    unfold Order5SlotMatches in H. simpl in H. bool_props. done.
Qed.
End keyed_probe.

(** * A run *)

(** A ring of eight slots for broker 0 at [65536 + 4096]. *)
Definition ring_env : CEnv := mkCEnv 65536 1024 true 1 3 [] elements.
Definition ring_batch (slot seq : Z) : PendingBatch5 :=
  batch_zero <| hdr := 69632 + 128 * slot |> <| num_msg := 10 |> <| client_id := 7 |>
    <| batch_seq := seq |> <| Order5State.session_epoch := 1 |> <| slot_offset := 128 * slot |>
    <| cached_batch_id := 100 + seq |> <| cached_pbr_absolute_index := slot |>.
Definition ring_header (seq : Z) : BatchHeader := header_zero <| bh_batch_seq := seq |>.
Definition ring_init : CSt :=
  mkCSt ∅ false 0 0 ∅ (list_to_map [(69632, ring_header 0); (69760, ring_header 1)])
    {[0 := mkOffsets 0 0 0 4096]} ∅ ∅ ∅ ∅ ∅ ∅ ∅ [] 0.
Definition ring_ready : list PendingBatch5 := [ring_batch 0 0; ring_batch 1 1].
Definition ring_state : CSt :=
  CommitEpoch ring_env ring_init ring_ready ring_ready {[0 := 0]} {[0]} (∅, ∅).

Lemma view_empty k : k <> 0 -> SessionTable.view ∅ k = None.
Proof.
  intros Hk. destruct (SessionTable.view ∅ k) as [en|] eqn:E; [|done].
  apply SessionTable.view_iff in E as (i & _ & Hi & _); [|apply SessionTable.wf_empty|done].
  unfold SessionTable.key_at, SessionTable.slot in Hi. by rewrite lookup_empty in Hi.
Qed.

Lemma ring_init_inv : commit_inv ring_init [].
Proof.
  assert (forall k, k <> 0 -> expected_at (cs_table ring_init) k = 0) as Hx
    by (intros k Hk; unfold expected_at; simpl; by rewrite view_empty).
  split; [split| |done|done]; simpl; try done.
  - intros k en Hk Hv. simpl in Hv. by rewrite view_empty in Hv.
  - intros k Hk. simpl in Hx. rewrite Hx by done. unfold limit. lia.
  - split; [|constructor]. intros k Hk. by rewrite Hx.
Qed.

Lemma sorted_seqs ready k : StronglySorted Z.lt (batch_seq <$> ready) -> StronglySorted Z.lt (seqs_of ready k).
Proof. apply StronglySorted_sublist. unfold seqs_of. apply fmap_sublist, sublist_filter. Qed.

Lemma ring_order : forall X, publish_order ring_env X ≡ₚ elements X.
Proof. done. Qed.
Lemma ring_ready_ok : Forall ready_ok ring_ready.
Proof.
  repeat (apply Forall_cons_2; [intros _; unfold meta_ok, is_u32, seq_ok; simpl; repeat split; done || lia|]).
  constructor.
Qed.
Lemma ring_headers_ok : Forall (header_ok ring_init) ring_ready.
Proof. repeat (apply Forall_cons_2; [intros _ _; reflexivity|]). constructor. Qed.
Lemma ring_fifo k : StronglySorted Z.lt (seqs_of ring_ready k).
Proof. apply sorted_seqs. repeat (constructor; simpl; try done). Qed.

Lemma ring_state_inv : exists l, commit_inv ring_state l /\ length l = 2%nat.
Proof.
  assert (global_batch_seq ring_state = 2) as E by (vm_compute; reflexivity). revert E. unfold ring_state.
  destruct (CommitEpoch_exact ring_env ring_order ring_init ring_ready ring_ready {[0 := 0]} {[0]} (∅, ∅) []
    ring_init_inv ring_ready_ok ring_headers_ok ring_fifo) as (l & Hi & _).
  rewrite app_nil_l in Hi. set (s := CommitEpoch _ _ _ _ _ _ _) in *. clearbody s.
  intros E. exists l. split; [exact Hi|]. pose proof (ii_len _ _ Hi) as Hl. lia.
Qed.

Lemma commit_extends_total_order_witness :
  global_seq ring_state = 20 /\
  exists l', log_of (goi ring_state) ([] ++ l') /\ tiles 0 0 ([] ++ l') (global_seq ring_state) /\
    Z.of_nat (length ([] ++ l')) = global_batch_seq ring_state /\
    global_batch_seq ring_state <= kGOICapacity /\
    global_seq ring_state <= U64_MAX /\ (cs_exhausted ring_state = true -> l' = []).
Proof.
  split; [vm_compute; reflexivity|].
  exact (commit_extends_total_order ring_env ring_init ring_ready ring_ready {[0 := 0]} {[0]} (∅, ∅) []
    ring_order ring_init_inv ring_ready_ok ring_headers_ok ring_fifo).
Defined.

Lemma commit_session_order_witness :
  let k := MakeSessionKey 7 1 in
  expected_at (cs_table ring_state) k = 2 /\
  exists l', log_of (goi ring_state) ([] ++ l') /\ sublist (history l' k) (seqs_of ring_ready k) /\
    StronglySorted Z.lt (history ([] ++ l') k) /\
    (k <> 0 -> expected_at (cs_table ring_state) k = hist_next (history ([] ++ l') k)) /\
    (k <> 0 -> durable_fenced (cs_table ring_init) k = true ->
       history l' k = [] /\ durable_fenced (cs_table ring_state) k = true).
Proof.
  split; [vm_compute; reflexivity|].
  exact (commit_session_order ring_env ring_init ring_ready ring_ready {[0 := 0]} {[0]} (∅, ∅) []
    ring_order ring_init_inv ring_ready_ok ring_headers_ok ring_fifo (MakeSessionKey 7 1)).
Defined.

Lemma commit_credits_clients_witness :
  zlookup (client_ordered ring_state) 7 = 20 /\
  exists l', log_of (goi ring_state) ([] ++ l') /\
    u64 (zlookup (client_ordered ring_state) 7) = u64 (zlookup (client_ordered ring_init) 7 + goi_msgs l' 7).
Proof.
  split; [vm_compute; reflexivity|].
  exact (commit_credits_clients ring_env ring_init ring_ready ring_ready {[0 := 0]} {[0]} (∅, ∅) []
    ring_order ring_init_inv ring_ready_ok ring_headers_ok ring_fifo 7).
Defined.

(** The epoch after [ring_state]: the session is in the table, at batch 2. *)
Definition ring_next : list PendingBatch5 := [ring_batch 2 2; ring_batch 3 3].
Definition ring_scanned : CSt :=
  put_header (put_header ring_state 69888 (ring_header 2)) 70016 (ring_header 3).

Lemma ring_next_ok :
  Forall ready_ok ring_next /\ Forall (header_ok ring_scanned) ring_next /\
  (forall k, StronglySorted Z.lt (seqs_of ring_next k)) /\
  Forall (admitted (cs_table ring_scanned)) ring_next /\ Forall placed ring_next.
Proof.
  split; [|split; [|split; [|split]]].
  - repeat (apply Forall_cons_2; [intros _; unfold meta_ok, is_u32, seq_ok; simpl; repeat split; done || lia|]).
    constructor.
  - repeat (apply Forall_cons_2; [intros _ _; vm_compute; reflexivity|]). constructor.
  - intros k. apply sorted_seqs. repeat (constructor; simpl; try done).
  - repeat (apply Forall_cons_2;
      [intros _ _; split; [vm_compute; eexists; reflexivity|split; [vm_compute; reflexivity|vm_compute; congruence]]|]).
    constructor.
  - repeat (apply Forall_cons_2; [intros _; right; vm_compute; congruence|]). constructor.
Qed.

Lemma ring_scanned_inv : exists l, commit_inv ring_scanned l /\ length l = 2%nat.
Proof.
  destruct ring_state_inv as (l & Hi & Hl). exists l. split; [|exact Hl].
  revert Hi. unfold ring_scanned. generalize ring_state as s. intros s Hi.
  by eapply (commit_inv_frame s), Hi; apply log_frame_same.
Qed.

Lemma commit_releases_all_witness :
  exists l, length l = 2%nat /\
  let s' := CommitEpoch ring_env ring_scanned ring_next ring_next {[0 := 256]} {[0]} (∅, ∅) in
  exists l', log_of (goi s') (l ++ l') /\ Forall2 (entry_of ring_scanned) (committed ring_next) l' /\
    global_batch_seq s' = global_batch_seq ring_scanned + Z.of_nat (length (committed ring_next)) /\
    cs_exhausted s' = false.
Proof.
  destruct ring_scanned_inv as (l & Hi & Hl). exists l. split; [exact Hl|].
  destruct ring_next_ok as (H1 & H2 & H3 & H4 & H5).
  refine (commit_releases_all ring_env ring_scanned ring_next ring_next {[0 := 256]} {[0]} (∅, ∅) l
    ring_order Hi H1 H2 H3 _ H4 H5 _ _); vm_compute; congruence.
Defined.

Lemma FlushAccumulatedCV_monotone_witness :
  let s' := FlushAccumulatedCV ring_env ring_init {[0 := 20]} {[0 := 1]} (Some {[0]}) in
  cv_at s' 0 = mkCV 1 20 20 /\
  sequencer_logical_offset (cv_at s' 0) =
    Z.max (sequencer_logical_offset (cv_at ring_init 0)) (zlookup {[0 := 20]} 0).
Proof.
  split; [vm_compute; reflexivity|].
  refine (proj1 (proj1 (proj2 (FlushAccumulatedCV_monotone ring_env ring_init {[0 := 20]} {[0 := 1]}
    (Some {[0]}) 0)) eq_refl _ _)).
  - apply list_elem_of_In. vm_compute. by left.
  - intros t [= <-]. by apply elem_of_singleton.
Defined.

Lemma consumed_advances_over_processed_run_witness :
  let r := AdvanceConsumedThroughForProcessedSlots ring_env ring_init ring_ready {[0 := 0]} {[0]} None in
  zlookup r.1 0 = 256 /\ o_consumed_through (offsets_at r.2 0) = zlookup r.1 0.
Proof.
  split; [vm_compute; reflexivity|].
  refine (proj1 (consumed_advances_over_processed_run ring_env ring_init ring_ready {[0 := 0]} {[0]} None 0
    _ _ _ _ _ _ _ _)); try (vm_compute; congruence).
  - apply list_elem_of_In. vm_compute. by left.
Defined.

(** Two shards; the shard of client 7 holds its batch 1. *)
Definition held_batch : PendingBatch5 := ring_batch 1 1.
Definition held_shard : St :=
  St_init <| hold_buffer := {[MakeSessionKey 7 1 := {[1 := mkHold held_batch (meta_of held_batch) 0]}]} |>.
Definition held_env : CEnv := mkCEnv 65536 1024 true 1 3 [St_init; held_shard] elements.

Lemma held_env_entry i s k seq he :
  shards held_env !! i = Some s -> held_at s k !! seq = Some he ->
  i = 1%nat /\ k = MakeSessionKey 7 1 /\ seq = 1 /\ he = mkHold held_batch (meta_of held_batch) 0.
Proof.
  destruct i as [|[|i]]; simpl; intros Hs; [injection Hs as <-|injection Hs as <-|done];
    unfold held_at; [done|].
  change (hold_buffer held_shard) with
    ({[MakeSessionKey 7 1 := {[1 := mkHold held_batch (meta_of held_batch) 0]}]} : gmap Z (gmap Z HoldEntry5)).
  rewrite lookup_singleton. case_decide as Hk; [|done]. simpl.
  rewrite lookup_singleton. case_decide; [|done]. intros [= <-]. by subst.
Qed.

Lemma held_env_sound : hold_sound held_env.
Proof.
  assert (MakeSessionKey 7 1 = hold_key held_env held_batch) as Hk by (vm_compute; reflexivity).
  intros i s k seq he Hi Hh. destruct (held_env_entry i s k seq he Hi Hh) as (-> & -> & -> & ->).
  cbn [he_batch he_meta]. split; [reflexivity|]. split; [exact Hk|]. split; [reflexivity|].
  split; [discriminate|]. split; [discriminate|reflexivity].
Qed.

Lemma held_slot_identifies : slot_identifies held_env held_batch.
Proof.
  intros i s k seq he Hi Hh. destruct (held_env_entry i s k seq he Hi Hh) as (_ & _ & _ & ->).
  cbn [he_batch]. intros _ _ _. split; [reflexivity|]. split; reflexivity.
Qed.

Lemma keyed_probe_equals_sweep_witness :
  slot_held held_env held_batch = true /\
  slot_held held_env held_batch =
    IsOrder5HeldSlot held_env (broker_id held_batch) (slot_offset held_batch)
      (cached_pbr_absolute_index held_batch).
Proof.
  split; [vm_compute; reflexivity|].
  exact (keyed_probe_equals_sweep held_env held_batch held_env_sound held_slot_identifies).
Defined.

(** * Observations about the code *)

(** A flush on an epoch without batches, under a replication factor of at most
    one, reports the first ring entry of every broker as completed. *)
Theorem idle_flush_reports_first_batch :
  completed_pbr_head (cv_at ring_init 5) = kNoProgress /\
  completed_pbr_head (cv_at (AdvanceConsumedThroughForProcessedSlots ring_env ring_init [] ∅ ∅
    (Some (∅, ∅))).2 5) = 0.
Proof. vm_compute. done. Qed.

(** The export descriptors go to the ring whose headers the index entries of
    the batches that are not from the hold buffer are read from: the batch in
    slot 0, committed after the batch of slot 1, enters the index with the
    descriptor's sequence number 0 instead of its own, 1. *)
Theorem export_overwrites_deferred_header :
  let first := [ring_batch 1 0] in
  let later := [ring_batch 0 1] in
  let s0 := ring_init <| headers := list_to_map [(69632, ring_header 1); (69760, ring_header 0)] |> in
  let s1 := CommitEpoch ring_env s0 first first {[0 := 0]} {[0]} (∅, ∅) in
  let s2 := CommitEpoch ring_env s1 later later {[0 := 0]} {[0]} (∅, ∅) in
  goi_client_seq <$> goi s2 !! 1 = Some 0 /\ expected_at (cs_table s2) (MakeSessionKey 7 1) = 2.
Proof. vm_compute. done. Qed.
