(* ===== verification/Recovery.v ===== *)
(** Recovering the sequencer's frontiers from the global order index and the
    session table: [RecoverSequencer5State] of
    src/embarlet/topic_order5_recovery.cc with the restart in [Sequencer5] of
    src/embarlet/topic_order5_epoch.cc, and the reconnect snapshot of
    src/network_manager/session_snapshot.h. *)

From S2P Require Import Prelude.
From S2P Require Import ClientState.
From S2P Require Import SessionTable.
From S2P Require Import Reservation.
From S2P Require Import Order5State.
From S2P Require Import Classifier.
From S2P Require Import ClassifierInv.
From S2P Require Import Commit.
From S2P Require Import CommitProofs.
From S2P Require Import CommitSpec.

Definition goi_zero : GOIEntry := mkGOI 0 0 0 0 0 0 0 0 0 0 0 0 0 0.
Definition goi_at (m : gmap Z GOIEntry) (i : Z) : GOIEntry := default goi_zero (m !! i).

(** * The scan of the index *)

Record Recovered := mkRecovered {
  rec_next_goi : Z;
  rec_global_seq : Z;               (** [recovered_global_seq_] *)
  rec_next_expected : gmap Z Z;     (** [recovered_order5_next_expected_] *)
  rec_msg_counts : gmap Z Z;        (** [recovered_order5_msg_counts_] *)
}.

Definition recover_entry (m : gmap Z GOIEntry) (r : Recovered) (i : Z) : Recovered :=
  let g := goi_at m i in
  if negb (goi_global_seq g =? i) then r
  else
    let batch_end := goi_total_order g +u goi_message_count g in
    let seq := if batch_end >? rec_global_seq r then batch_end else rec_global_seq r in
    if goi_session_epoch g =? 0 then mkRecovered (i + 1) seq (rec_next_expected r) (rec_msg_counts r)
    else
      let key := MakeSessionKey (goi_client_id g) (goi_session_epoch g) in
      mkRecovered (i + 1) seq
        (<[key := RecoveredNextExpected (zlookup (rec_next_expected r) key) (goi_client_seq g +u 1)]>
           (rec_next_expected r))
        (bump (rec_msg_counts r) (u32 (goi_client_id g)) (goi_message_count g)).

Definition scan_indices (n : Z) : list Z := Z.of_nat <$> seq 0 (Z.to_nat n).

Definition recover_goi (m : gmap Z GOIEntry) (committed_seq : Z) : Recovered :=
  let r0 := mkRecovered 0 0 ∅ ∅ in
  if committed_seq =? U64_MAX then r0
  else foldl (recover_entry m) r0 (scan_indices (committed_seq + 1)).

(** * The scan of the session table *)

Definition recover_session (t : gmap Z SessionTable.SessionEntry) (next : gmap Z Z) (i : Z) : gmap Z Z :=
  let en := SessionTable.slot t i in
  let key := SessionTable.session_key en in
  if key =? 0 then next
  else if Z.land (Z.land (SessionTable.state_word en) 4294967295) kSessionEntryFlagActive =? 0 then next
  else <[key := RecoveredNextExpected (zlookup next key) (SessionTable.expected_seq en)]> next.

Definition recover_table (t : gmap Z SessionTable.SessionEntry) (next : gmap Z Z) : gmap Z Z :=
  foldl (recover_session t) next (scan_indices SessionTable.kMaxSessions).

(** [None]: the check on [committed_seq] aborts the process. *)
Definition RecoverSequencer5State (m : gmap Z GOIEntry) (t : gmap Z SessionTable.SessionEntry)
    (committed_seq : Z) : option Recovered :=
  if negb (committed_seq =? U64_MAX) && (committed_seq >=? kGOICapacity) then None
  else
    let r := recover_goi m committed_seq in
    Some (mkRecovered (rec_next_goi r) (rec_global_seq r) (recover_table t (rec_next_expected r))
            (rec_msg_counts r)).

(** The start of [Sequencer5]: the counters, and [ControlBlock.committed_seq]. *)
Definition restart (c : CSt) (r : Recovered) : CSt * Z :=
  let c := c <| global_batch_seq := rec_next_goi r |> <| global_seq := rec_global_seq r |>
             <| client_ordered := foldl (fun m kv => <[kv.1 := Z.max (zlookup m kv.1) kv.2]> m)
                                    (client_ordered c) (map_to_list (rec_msg_counts r)) |>
             <| export_cursor := ∅ |> <| export_sequence := ∅ |> <| completed_ranges := [] |> in
  (c, if rec_next_goi r =? 0 then U64_MAX else rec_next_goi r - 1).

(** * Reconnecting clients *)

Fixpoint scan_backward (n : nat) (m : gmap Z GOIEntry) (client epoch : Z) : option Z :=
  match n with
  | O => None
  | S i =>
      let g := goi_at m (Z.of_nat i) in
      if negb (goi_global_seq g =? Z.of_nat i) then scan_backward i m client epoch
      else if (goi_client_id g =? client) && (goi_session_epoch g =? epoch) then Some (goi_client_seq g)
      else scan_backward i m client epoch
  end.

(** [None] when no committed batch of the session is found; the outer option is
    the abort of the check on [committed_seq]. *)
Definition ScanGOICommittedHwm (m : gmap Z GOIEntry) (committed_seq client epoch : Z) : option (option Z) :=
  if epoch =? 0 then Some None
  else if committed_seq =? U64_MAX then Some None
  else if committed_seq >=? kGOICapacity then None
  else Some (scan_backward (Z.to_nat (committed_seq + 1)) m client epoch).

(** The answer to a reconnecting client. *)
Definition ReadSessionSnapshot (t : gmap Z SessionTable.SessionEntry) (m : gmap Z GOIEntry)
    (committed_seq client epoch : Z) : option SessionTable.DurableSessionSnapshot :=
  let snapshot := (SessionTable.ReadSessionEntrySnapshot t client epoch SessionTable.durable_init).2 in
  match ScanGOICommittedHwm m committed_seq client epoch with
  | None => None
  | Some hwm =>
      let found := bool_decide (is_Some hwm) in
      let goi_hwm := default 0 hwm in
      Some (snapshot
        <| SessionTable.dss_goi_committed_hwm_found := found |>
        <| SessionTable.dss_goi_committed_hwm := goi_hwm |>
        <| SessionTable.dss_reconnect_committed_hwm :=
             ReconnectAnswerHwm (SessionTable.dss_committed_hwm snapshot) found goi_hwm |>)
  end.

(** * The scan of a well-formed log *)

Lemma tiles_snoc_inv l g : forall idx start stop,
  tiles idx start (l ++ [g]) stop ->
  tiles idx start l (goi_total_order g) /\ goi_global_seq g = idx + Z.of_nat (length l) /\
  stop = goi_total_order g + goi_message_count g.
Proof.
  induction l as [|x l IH]; intros idx start stop; simpl.
  - intros (H1 & H2 & H3). rewrite Z.add_0_r, H2. done.
  - intros (H1 & H2 & H3). apply IH in H3 as (H3 & H4 & H5).
    split; [done|split; [lia|done]].
Qed.

Lemma tiles_bounds l : forall idx start stop,
  Forall (fun g => is_u32 (goi_message_count g)) l -> tiles idx start l stop -> start <= stop.
Proof.
  induction l as [|g l IH]; intros idx start stop Hc; simpl; [intros ->; lia|].
  apply Forall_cons in Hc as [Hg Hc]. intros (_ & _ & Ht). apply IH in Ht; [|done]. unfold is_u32 in Hg. lia.
Qed.

Lemma history_snoc l g k :
  history (l ++ [g]) k = history l k ++
    (if decide (goi_session_epoch g <> 0 /\ MakeSessionKey (goi_client_id g) (goi_session_epoch g) = k)
     then [goi_client_seq g] else []).
Proof. rewrite history_app. f_equal. unfold history. rewrite filter_cons. by case_decide. Qed.

Lemma recover_scan m l : forall stop,
  prefix_of_log m l -> tiles 0 0 l stop -> Forall (fun g => is_u32 (goi_message_count g)) l ->
  (forall k, Forall seq_ok (history l k)) -> stop <= U64_MAX ->
  let r := foldl (recover_entry m) (mkRecovered 0 0 ∅ ∅) (Z.of_nat <$> seq 0 (length l)) in
  rec_next_goi r = Z.of_nat (length l) /\ rec_global_seq r = stop /\
  forall k, zlookup (rec_next_expected r) k = hist_next (history l k).
Proof.
  induction l as [|g l IH] using rev_ind; intros stop Hp Ht Hc Hs Hmax.
  { simpl in *. split; [done|split; [done|]]. intros k. unfold zlookup. by rewrite lookup_empty. }
  apply tiles_snoc_inv in Ht as (Ht & Hidx & ->). apply Forall_app in Hc as [Hc Hg].
  apply Forall_inv in Hg. unfold is_u32 in Hg.
  pose proof (tiles_bounds _ _ _ _ Hc Ht) as Hb.
  rewrite length_app, Nat.add_1_r, seq_S, fmap_app, foldl_app. simpl.
  destruct (IH (goi_total_order g)) as (I1 & I2 & I3); [|done|done| |lia|].
  { intros i Hi. rewrite Hp by (rewrite length_app; simpl; lia). by rewrite lookup_app_l. }
  { intros k. specialize (Hs k). rewrite history_app in Hs. by apply Forall_app in Hs as [? _]. }
  clear IH. set (r := foldl _ _ _) in *. clearbody r.
  assert (goi_at m (Z.of_nat (length l)) = g) as Hat.
  { unfold goi_at. rewrite Hp by (rewrite length_app; simpl; lia).
    by rewrite lookup_app_r, Nat.sub_diag by lia. }
  unfold recover_entry. rewrite Hat, Hidx, Z.add_0_l, Z.eqb_refl. cbn [negb].
  rewrite u64_id by (unfold is_u64, U64_MAX in *; lia).
  assert ((if goi_total_order g + goi_message_count g >? rec_global_seq r
    then goi_total_order g + goi_message_count g else rec_global_seq r) =
    goi_total_order g + goi_message_count g) as -> by (case_tests; bool_props; lia).
  destruct (Z.eqb_spec (goi_session_epoch g) 0) as [Hz|Hnz]; simpl.
  - split; [lia|split; [done|]]. intros k. rewrite history_snoc, decide_False by tauto.
    by rewrite app_nil_r.
  - split; [lia|split; [done|]]. intros k. rewrite history_snoc. unfold zlookup at 1.
    rewrite lookup_insert. specialize (Hs k). rewrite history_snoc in Hs.
    destruct (decide (MakeSessionKey (goi_client_id g) (goi_session_epoch g) = k)) as [Hk|Hk].
    + rewrite decide_True by done. rewrite decide_True in Hs by done.
      apply Forall_app in Hs as [_ Hs]. apply Forall_inv in Hs. unfold seq_ok in Hs. simpl.
      rewrite hist_next_app, <- I3. unfold RecoveredNextExpected.
      rewrite u64_id by (unfold is_u64; lia). unfold hist_next. simpl. subst k. lia.
    + rewrite decide_False by tauto. rewrite app_nil_r. apply I3.
Qed.

(** * The scan of the session table *)

Lemma recover_others t k l : forall next,
  Forall (fun i => SessionTable.key_at t i <> k) l ->
  zlookup (foldl (recover_session t) next l) k = zlookup next k.
Proof.
  induction l as [|i l IH]; intros next Hl; simpl; [done|]. apply Forall_cons in Hl as [Hi Hl].
  rewrite IH by done. unfold recover_session. destruct (_ =? 0); [done|]. destruct (_ =? 0); [done|].
  unfold zlookup. by rewrite lookup_insert_ne.
Qed.

Lemma scan_indices_spec n i : 0 <= n -> i ∈ scan_indices n <-> 0 <= i < n.
Proof.
  intros Hn. unfold scan_indices. rewrite list_elem_of_fmap. split.
  - intros (j & -> & Hj%elem_of_seq). lia.
  - intros Hi. exists (Z.to_nat i). rewrite elem_of_seq. lia.
Qed.
Lemma scan_indices_NoDup n : NoDup (scan_indices n).
Proof. unfold scan_indices. apply NoDup_fmap; [apply _|apply NoDup_seq]. Qed.

Lemma recover_table_spec t next k :
  SessionTable.wf t -> active_ok t -> k <> 0 -> 0 <= zlookup next k ->
  zlookup (recover_table t next) k = Z.max (zlookup next k) (expected_at t k).
Proof.
  intros Hwf Hact Hk Hn. unfold recover_table, expected_at.
  destruct (SessionTable.view t k) as [en|] eqn:Ev.
  - pose proof Ev as Ev'. apply SessionTable.view_iff in Ev as (i & Hi & Hki & Hs); [|done..].
    pose proof (scan_indices_NoDup SessionTable.kMaxSessions) as Hnd.
    assert (i ∈ scan_indices SessionTable.kMaxSessions) as Hin by (by apply scan_indices_spec).
    apply list_elem_of_split in Hin as (l1 & l2 & Hl).
    assert (Forall (fun j => SessionTable.key_at t j <> k) (l1 ++ l2)) as Hother.
    { apply Forall_forall. intros j Hj Hkj. assert (j = i) as ->.
      { symmetry. apply (SessionTable.wf_unique _ Hwf); [done| |congruence|congruence].
        apply (scan_indices_spec SessionTable.kMaxSessions); [done|]. rewrite Hl. set_solver. }
      rewrite Hl in Hnd. apply NoDup_app in Hnd as (_ & Hd & Hc). apply NoDup_cons in Hc as [Hc _].
      apply elem_of_app in Hj as [Hj|Hj]; [|done]. apply (Hd i Hj). by left. }
    apply Forall_app in Hother as [Ho1 Ho2]. rewrite Hl, foldl_app. simpl.
    rewrite (recover_others t k l2) by done. pose proof (recover_others t k l1 next Ho1) as H1.
    set (next1 := foldl (recover_session t) next l1) in *. clearbody next1. unfold recover_session.
    unfold SessionTable.key_at in Hki. rewrite Hs in Hki |- *. rewrite Hki, (proj2 (Z.eqb_neq _ _) Hk).
    rewrite flags_land by done. pose proof (Hact k en Hk Ev') as Ha. unfold SessionTable.entry_active in Ha.
    destruct (Z.land _ kSessionEntryFlagActive =? 0) eqn:Ea.
    + rewrite H1. destruct (decide (0 < SessionTable.expected_seq en)); [|lia].
      by specialize (Ha (or_introl l)).
    + unfold zlookup at 1. rewrite lookup_insert_eq. simpl. by rewrite H1.
  - rewrite recover_others; [lia|]. apply Forall_forall. intros i Hi Hki.
    assert (SessionTable.view t k = Some (SessionTable.slot t i)) as Hv; [|congruence].
    apply SessionTable.view_iff; [done..|]. exists i. split; [|done].
    by apply (scan_indices_spec SessionTable.kMaxSessions).
Qed.

(** * Restarting *)

(** [ControlBlock.committed_seq] when the first [n] entries are committed. *)
Definition committed_seq_of (n : nat) : Z := if (n =? 0)%nat then U64_MAX else Z.of_nat n - 1.

Lemma tiles_split l1 l2 : forall idx start stop,
  tiles idx start (l1 ++ l2) stop ->
  exists mid, tiles idx start l1 mid /\ tiles (idx + Z.of_nat (length l1)) mid l2 stop.
Proof.
  induction l1 as [|g l1 IH]; intros idx start stop; simpl; [rewrite Z.add_0_r; by exists start|].
  intros (H1 & H2 & H3). apply IH in H3 as (mid & H3 & H4). exists mid. split; [done|].
  by replace (idx + Z.of_nat (S (length l1))) with (idx + 1 + Z.of_nat (length l1)) by lia.
Qed.

Lemma tiles_fun l : forall idx start stop stop',
  tiles idx start l stop -> tiles idx start l stop' -> stop = stop'.
Proof.
  induction l as [|g l IH]; simpl; [congruence|].
  intros idx start stop stop' (_ & _ & H1) (_ & _ & H2). by eapply IH.
Qed.

Lemma recover_prefix c l1 l2 :
  index_inv c (l1 ++ l2) ->
  exists r, RecoverSequencer5State (goi c) (cs_table c) (committed_seq_of (length l1)) = Some r /\
    rec_next_goi r = Z.of_nat (length l1) /\ tiles 0 0 l1 (rec_global_seq r) /\
    0 <= rec_global_seq r <= global_seq c /\
    forall k, k <> 0 -> zlookup (rec_next_expected r) k =
      Z.max (hist_next (history l1 k)) (expected_at (cs_table c) k).
Proof.
  intros Hi. pose proof (ii_len _ _ Hi) as Hlen. pose proof (ii_cap _ _ Hi) as Hcap.
  rewrite length_app in Hlen. destruct (tiles_split l1 l2 0 0 _ (ii_tiles _ _ Hi)) as (mid & Ht & Ht2).
  pose proof (ii_counts _ _ Hi) as Hc. apply Forall_app in Hc as [Hc1 Hc2].
  pose proof (tiles_bounds _ _ _ _ Hc1 Ht). pose proof (tiles_bounds _ _ _ _ Hc2 Ht2).
  pose proof (ii_max _ _ Hi) as Hmax.
  destruct (recover_scan (goi c) l1 mid (prefix_of_log_app _ _ _ (ii_log _ _ Hi)) Ht Hc1) as (R1 & R2 & R3); [|lia|].
  { intros k. pose proof (ii_range _ _ Hi k) as Hr. rewrite history_app in Hr. by apply Forall_app in Hr as [? _]. }
  unfold RecoverSequencer5State, recover_goi, committed_seq_of, kGOICapacity, U64_MAX in *.
  destruct l1 as [|g l1]; simpl Nat.eqb; cbn iota.
  - simpl in R1, R2, R3. subst mid. eexists. split; [reflexivity|].
    split; [done|split; [done|split; [simpl; lia|]]].
    intros k Hk. simpl. rewrite recover_table_spec; [|apply Hi|apply Hi|done|by rewrite R3; apply hist_next_nonneg].
    by rewrite R3.
  - rewrite (proj2 (Z.eqb_neq _ _)) by (simpl in *; lia). cbn [negb andb].
    rewrite Z.geb_leb, (proj2 (Z.leb_gt _ _)) by (simpl in *; lia).
    remember (g :: l1) as l eqn:El. clear El. unfold scan_indices.
    replace (Z.to_nat (Z.of_nat (length l) - 1 + 1)) with (length l) by lia.
    eexists. split; [reflexivity|]. cbn [rec_next_goi rec_global_seq rec_next_expected].
    split; [exact R1|]. rewrite R2. split; [exact Ht|split; [lia|]]. intros k Hk.
    rewrite recover_table_spec; [|apply Hi|apply Hi|done|by rewrite R3; apply hist_next_nonneg].
    by rewrite R3.
Qed.

Lemma index_inv_prefix c c' l1 l2 :
  index_inv c (l1 ++ l2) -> goi c' = goi c -> cs_table c' = cs_table c ->
  global_batch_seq c' = Z.of_nat (length l1) -> tiles 0 0 l1 (global_seq c') ->
  0 <= global_seq c' <= global_seq c -> index_inv c' l1.
Proof.
  intros [H1 H2 H3 H4 H5 H6 H7 H8 H9 H10] Hg Ht Hb Hti Hs. rewrite length_app in H2.
  split; rewrite ?Hg, ?Ht, ?Hb; try done; try lia.
  - by eapply prefix_of_log_app.
  - intros k. specialize (H9 k). rewrite history_app in H9. by apply Forall_app in H9 as [? _].
  - by apply Forall_app in H10 as [? _].
Qed.

Lemma session_inv_prefix c c' l1 l2 :
  session_inv c (l1 ++ l2) -> cs_table c' = cs_table c -> session_inv c' l1.
Proof.
  intros [Hn Hf] Ht. split; rewrite ?Ht.
  - intros k Hk. specialize (Hn k Hk). rewrite history_app in Hn.
    pose proof (hist_next_mono (history l1 k) (history l2 k)). lia.
  - intros k. specialize (Hf k). rewrite history_app in Hf. by apply StronglySorted_app_1_l in Hf.
Qed.

(** A restart that finds the first entries [l1] committed. *)
Lemma restart_inv c l1 l2 :
  index_inv c (l1 ++ l2) ->
  exists r, RecoverSequencer5State (goi c) (cs_table c) (committed_seq_of (length l1)) = Some r /\
    index_inv (restart c r).1 l1 /\ (restart c r).2 = committed_seq_of (length l1) /\
    forall k, k <> 0 -> zlookup (rec_next_expected r) k =
      Z.max (hist_next (history l1 k)) (expected_at (cs_table c) k).
Proof.
  intros Hi. destruct (recover_prefix c l1 l2 Hi) as (r & Hr & R1 & R2 & R3 & R4). exists r.
  split; [exact Hr|split; [|split; [|exact R4]]].
  - by apply (index_inv_prefix c _ l1 l2).
  - unfold committed_seq_of, restart. simpl. rewrite R1. by destruct l1.
Qed.

Lemma commit_inv_restart c l r :
  commit_inv c l -> index_inv (restart c r).1 l -> commit_inv (restart c r).1 l.
Proof.
  intros [_ Hs Hl Hn] Hi. rewrite <- (app_nil_r l) in Hs.
  split; [done|by eapply session_inv_prefix|exact Hl|exact Hn].
Qed.

Lemma recovered_frontier c l1 l2 k :
  commit_inv c (l1 ++ l2) -> k <> 0 ->
  Z.max (hist_next (history l1 k)) (expected_at (cs_table c) k) = hist_next (history (l1 ++ l2) k).
Proof.
  intros Hi Hk. rewrite (ci_next _ _ Hi k Hk), history_app.
  pose proof (hist_next_mono (history l1 k) (history l2 k)). lia.
Qed.

(** C8. A restart of the sequencer that finds the entries [l1] of the index
    committed resumes right after them, whatever stands behind: the counters
    continue [l1], [committed_seq] stays, and the recovered frontier of a
    session is not below the batches it has in [l1].  Over a fully committed
    index the counters are those of the predecessor, and every frontier is the
    sequence number after the session's last committed batch. *)
Theorem recovery_resumes c l1 l2 :
  index_inv c (l1 ++ l2) ->
  exists r, RecoverSequencer5State (goi c) (cs_table c) (committed_seq_of (length l1)) = Some r /\
    global_batch_seq (restart c r).1 = Z.of_nat (length l1) /\ tiles 0 0 l1 (global_seq (restart c r).1) /\
    (restart c r).2 = committed_seq_of (length l1) /\
    (forall k, k <> 0 -> hist_next (history l1 k) <= zlookup (rec_next_expected r) k) /\
    (l2 = [] -> global_batch_seq (restart c r).1 = global_batch_seq c /\
       global_seq (restart c r).1 = global_seq c /\
       (commit_inv c l1 -> forall k, k <> 0 -> zlookup (rec_next_expected r) k = hist_next (history l1 k))).
Proof.
  intros Hi. destruct (restart_inv c l1 l2 Hi) as (r & Hr & Hi' & Hcs & Hn). exists r.
  split; [exact Hr|]. split; [symmetry; apply Hi'|split; [apply Hi'|split; [exact Hcs|split]]].
  - intros k Hk. rewrite Hn by done. lia.
  - intros ->. rewrite app_nil_r in Hi. split; [by rewrite <- (ii_len _ _ Hi), <- (ii_len _ _ Hi')|].
    split; [exact (tiles_fun _ _ _ _ _ (ii_tiles _ _ Hi') (ii_tiles _ _ Hi))|].
    intros Hc k Hk. rewrite <- (app_nil_r l1) in Hc. rewrite Hn, (recovered_frontier c l1 [] k Hc Hk) by done.
    by rewrite app_nil_r.
Qed.

(** C9. A restart while the committed-sequence updater lags behind the index
    resumes at the lagging index, but with the session frontiers of the
    whole index. *)
Theorem recovery_truncates_lagging_tail c l1 l2 :
  commit_inv c (l1 ++ l2) ->
  exists r, RecoverSequencer5State (goi c) (cs_table c) (committed_seq_of (length l1)) = Some r /\
    global_batch_seq (restart c r).1 = Z.of_nat (length l1) /\
    forall k, k <> 0 -> zlookup (rec_next_expected r) k = hist_next (history (l1 ++ l2) k).
Proof.
  intros Hi. destruct (restart_inv c l1 l2 Hi) as (r & Hr & Hi' & _ & Hn). exists r.
  split; [exact Hr|split; [symmetry; apply Hi'|]]. intros k Hk. by rewrite Hn, (recovered_frontier c l1 l2 k Hi Hk).
Qed.

(** * The backward scan *)

Lemma hist_next_le h b : 0 <= b -> Forall (fun x => x + 1 <= b) h -> hist_next h <= b.
Proof.
  intros Hb. induction 1 as [|x h Hx _ IH]; [done|]. unfold hist_next. simpl.
  rewrite hist_next_acc; lia.
Qed.

Definition goi_ids_ok (g : GOIEntry) : Prop := is_u32 (goi_client_id g) /\ is_u32 (goi_session_epoch g).

Lemma scan_backward_spec m client epoch : is_u32 client -> is_u32 epoch -> epoch <> 0 ->
  forall l stop, prefix_of_log m l -> tiles 0 0 l stop -> Forall goi_ids_ok l ->
  scan_backward (length l) m client epoch = last (history l (MakeSessionKey client epoch)).
Proof.
  intros Hc He He0 l. induction l as [|g l IH] using rev_ind; intros stop Hp Ht Hids; [done|].
  apply Forall_app in Hids as [Hids [Hg1 Hg2]%Forall_singleton].
  apply tiles_snoc_inv in Ht as (Ht & Hgs & _).
  rewrite length_app, Nat.add_comm. cbn [length Nat.add scan_backward].
  assert (goi_at m (Z.of_nat (length l)) = g) as ->.
  { unfold goi_at. rewrite Hp by (rewrite length_app; simpl; lia). by rewrite lookup_app_r, Nat.sub_diag. }
  rewrite Hgs, Z.add_0_l, Z.eqb_refl. cbn [negb].
  assert (scan_backward (length l) m client epoch = last (history l (MakeSessionKey client epoch))) as IH'.
  { eapply IH; [|exact Ht|done]. intros i Hi. rewrite Hp by (rewrite length_app; lia). by rewrite lookup_app_l. }
  rewrite history_app. unfold history at 2. rewrite filter_cons, filter_nil.
  case_decide as Hk; destruct ((goi_client_id g =? client) && (goi_session_epoch g =? epoch)) eqn:E.
  - simpl. by rewrite last_snoc.
  - exfalso. destruct Hk as [_ Hk]. apply MakeSessionKey_inj in Hk as [E1 E2]; [|done..].
    by rewrite E1, E2, !Z.eqb_refl in E.
  - exfalso. apply Hk. bool_props. subst. done.
  - by rewrite app_nil_r.
Qed.

Lemma scan_finds_hwm c l client epoch :
  commit_inv c l -> is_u32 client -> is_u32 epoch -> epoch <> 0 -> Forall goi_ids_ok l ->
  exists hwm, ScanGOICommittedHwm (goi c) (committed_seq_of (length l)) client epoch = Some hwm /\
    match hwm with
    | None => expected_at (cs_table c) (MakeSessionKey client epoch) = 0
    | Some q => 0 <= q /\ expected_at (cs_table c) (MakeSessionKey client epoch) = q + 1
    end.
Proof.
  intros Hi Hc He He0 Hids. exists (last (history l (MakeSessionKey client epoch))). split.
  - pose proof (ii_len _ _ Hi). pose proof (ii_cap _ _ Hi). unfold kGOICapacity in *.
    pose proof (scan_backward_spec (goi c) client epoch Hc He He0 l (global_seq c)
      (log_prefix (goi c) l [] ltac:(rewrite app_nil_r; apply Hi)) (ii_tiles _ _ Hi) Hids) as Hs.
    unfold ScanGOICommittedHwm, committed_seq_of, U64_MAX, kGOICapacity.
    rewrite (proj2 (Z.eqb_neq _ _) He0). destruct l as [|g l]; [done|]. cbn [length Nat.eqb].
    rewrite (proj2 (Z.eqb_neq _ _)) by (simpl in *; lia).
    rewrite Z.geb_leb, (proj2 (Z.leb_gt _ _)) by (simpl in *; lia).
    rewrite Z.sub_add, Nat2Z.id. by rewrite <- Hs.
  - pose proof (ci_next _ _ Hi (MakeSessionKey client epoch) (MakeSessionKey_nonzero client epoch He He0)) as ->.
    pose proof (si_fifo _ _ Hi (MakeSessionKey client epoch)) as Hs.
    destruct (last _) as [q|] eqn:El; [|by apply last_None in El as ->].
    apply last_Some in El as (h & Eh). rewrite Eh in *. rewrite hist_next_app.
    pose proof (ii_range _ _ Hi (MakeSessionKey client epoch)) as Hq. rewrite Eh in Hq.
    apply Forall_app in Hq as [_ [Hq0 _]%Forall_singleton].
    assert (hist_next h <= q); [|unfold hist_next at 2; simpl; split; [done|lia]].
    apply hist_next_le; [done|]. apply Forall_forall. intros x Hx.
    assert (x < q); [|lia]. apply (StronglySorted_app_1_elem_of Z.lt h [q]); [done|done|by left].
Qed.

(** The answer to a reconnecting client: the backward scan of the index finds
    a high-water mark exactly when a batch of the session is committed, it is
    the sequence number before the next expected one, and the answer never
    exceeds it. *)
Theorem reconnect_answer_is_committed c l client epoch :
  commit_inv c l -> is_u32 client -> is_u32 epoch -> epoch <> 0 -> Forall goi_ids_ok l ->
  let expected := expected_at (cs_table c) (MakeSessionKey client epoch) in
  exists snap,
    ReadSessionSnapshot (cs_table c) (goi c) (committed_seq_of (length l)) client epoch = Some snap /\
    SessionTable.dss_goi_committed_hwm_found snap = (0 <? expected) /\
    (0 < expected -> SessionTable.dss_goi_committed_hwm snap + 1 = expected /\
                     SessionTable.dss_reconnect_committed_hwm snap < expected).
Proof.
  intros Hi Hc He He0 Hids expected.
  destruct (scan_finds_hwm c l client epoch Hi Hc He He0 Hids) as (hwm & Hs & Hh).
  unfold ReadSessionSnapshot. rewrite Hs. eexists. split; [reflexivity|].
  cbn [SessionTable.dss_goi_committed_hwm_found SessionTable.dss_goi_committed_hwm
       SessionTable.dss_reconnect_committed_hwm upd].
  fold expected in Hh. destruct hwm as [q|].
  - destruct Hh as [Hq Hx]. rewrite Hx. rewrite bool_decide_eq_true_2 by done.
    split; [symmetry; apply Z.ltb_lt; simpl; lia|]. intros _. split; [done|].
    unfold ReconnectAnswerHwm. simpl. lia.
  - rewrite Hh. split; [done|lia].
Qed.

(** * A restart of the demonstration log *)

Lemma recovery_resumes_witness :
  exists l1 l2 : list GOIEntry, length l1 = 1%nat /\ length l2 = 1%nat /\
  exists r, RecoverSequencer5State (goi ring_state) (cs_table ring_state) (committed_seq_of (length l1)) = Some r /\
    global_batch_seq (restart ring_state r).1 = Z.of_nat (length l1) /\
    tiles 0 0 l1 (global_seq (restart ring_state r).1) /\
    (restart ring_state r).2 = committed_seq_of (length l1) /\
    (forall k, k <> 0 -> hist_next (history l1 k) <= zlookup (rec_next_expected r) k) /\
    (l2 = [] -> global_batch_seq (restart ring_state r).1 = global_batch_seq ring_state /\
       global_seq (restart ring_state r).1 = global_seq ring_state /\
       (commit_inv ring_state l1 ->
        forall k, k <> 0 -> zlookup (rec_next_expected r) k = hist_next (history l1 k))).
Proof.
  destruct ring_state_inv as (l & Hi & Hl). destruct l as [|g1 [|g2 [|]]]; try discriminate.
  exists [g1], [g2]. split; [reflexivity|split; [reflexivity|]].
  exact (recovery_resumes ring_state [g1] [g2] (ci_index _ _ Hi)).
Defined.

Lemma recovery_truncates_lagging_tail_witness :
  exists l1 l2, length l2 = 1%nat /\
  exists r, RecoverSequencer5State (goi ring_state) (cs_table ring_state) (committed_seq_of (length l1)) = Some r /\
    global_batch_seq (restart ring_state r).1 = Z.of_nat (length l1) /\
    forall k, k <> 0 -> zlookup (rec_next_expected r) k = hist_next (history (l1 ++ l2) k).
Proof.
  destruct ring_state_inv as (l & Hi & Hl). destruct l as [|g1 [|g2 [|]]]; try discriminate.
  exists [g1], [g2]. split; [reflexivity|]. exact (recovery_truncates_lagging_tail ring_state [g1] [g2] Hi).
Defined.

Lemma log_ids (m : gmap Z GOIEntry) l : log_of m l -> (forall i g, m !! i = Some g -> goi_ids_ok g) -> Forall goi_ids_ok l.
Proof.
  intros Hl Hm. apply Forall_forall. intros g [i Hi]%list_elem_of_lookup. rewrite <- Hl in Hi. by eapply Hm.
Qed.

Definition goi_ids_okb (g : GOIEntry) : bool :=
  (0 <=? goi_client_id g) && (goi_client_id g <? 2 ^ 32) &&
  (0 <=? goi_session_epoch g) && (goi_session_epoch g <? 2 ^ 32).

Lemma goi_ids_check (m : gmap Z GOIEntry) :
  forallb (fun ig => goi_ids_okb ig.2) (map_to_list m) = true -> forall i g, m !! i = Some g -> goi_ids_ok g.
Proof.
  intros Hf i g Hg%elem_of_map_to_list. rewrite forallb_forall in Hf.
  specialize (Hf _ (proj1 (list_elem_of_In _ _) Hg)). unfold goi_ids_okb in Hf. bool_props.
  unfold goi_ids_ok, is_u32 in *. simpl in *. lia.
Qed.

Lemma ring_ids : forall i g, goi ring_state !! i = Some g -> goi_ids_ok g.
Proof. apply goi_ids_check. vm_compute. reflexivity. Qed.

Lemma reconnect_answer_is_committed_witness :
  let expected := expected_at (cs_table ring_state) (MakeSessionKey 7 1) in
  expected = 2 /\
  exists snap,
    ReadSessionSnapshot (cs_table ring_state) (goi ring_state) (committed_seq_of 2) 7 1 = Some snap /\
    SessionTable.dss_goi_committed_hwm_found snap = (0 <? expected) /\
    (0 < expected -> SessionTable.dss_goi_committed_hwm snap + 1 = expected /\
                     SessionTable.dss_reconnect_committed_hwm snap < expected).
Proof.
  split; [vm_compute; reflexivity|]. destruct ring_state_inv as (l & Hi & <-).
  refine (reconnect_answer_is_committed ring_state l 7 1 Hi _ _ _ (log_ids _ _ (ci_log _ _ Hi) ring_ids));
    unfold is_u32; lia.
Defined.
