(* ===== verification/Pipeline.v ===== *)
(** One epoch of the sequencer: the body of [EpochSequencerThread]'s loop of
    src/embarlet/topic_order5_epoch.cc, from the batches of a sealed epoch to
    the commit, with one level-5 shard; and the order of the log over any
    number of epochs and of restarts that find any part of the index
    committed. *)

From S2P Require Import Prelude.
From S2P Require Import Sorting.
From S2P Require Import Frontier.
From S2P Require Import ClientState.
From S2P Require Import Dedup.
From S2P Require Import SessionTable.
From S2P Require Import Reservation.
From S2P Require Import Order5State.
From S2P Require Import Classifier.
From S2P Require Import ClassifierInv.
From S2P Require Import ClassifierProofs.
From S2P Require Import ClassifierSpec.
From S2P Require Import Commit.
From S2P Require Import CommitProofs.
From S2P Require Import CommitSpec.
From S2P Require Import Recovery.

(** * The epoch *)

Definition kMaxEpochAge : Z := 2000.

(** A batch accepted too many epochs ago is treated as a skipped slot. *)
Definition batch_age (current_epoch : Z) (p : PendingBatch5) : Z :=
  u16 (u16 current_epoch - epoch_created p).
Definition mark_stale (current_epoch : Z) (p : PendingBatch5) : PendingBatch5 :=
  if skipped p then p
  else if batch_age current_epoch p >? kMaxEpochAge then p <| skipped := true |> else p.

(** The ring positions of the brokers that have batches in the epoch. *)
Definition start_positions (e : Env) (c : CSt) (batch_list : list PendingBatch5) : gmap Z Z * gset Z :=
  foldl (fun '(cont, seen) p =>
    let b := broker_id p in
    if negb (in_brokers b) || bool_decide (b ∈ seen) then (cont, seen)
    else
      let initial := o_consumed_through (offsets_at c b) in
      let initial := if initial =? BATCHHEADERS_SIZE e then 0 else initial in
      (<[b := initial]> cont, {[b]} ∪ seen)) (∅, ∅) batch_list.

(** The topic's state is shared: the shard works on the table, the counters and
    the ring positions the commit owns. *)
Definition load_shared (c : CSt) (s : St) : St :=
  s <| session_table := cs_table c |> <| capacity_exhausted := cs_exhausted c |>
    <| per_client_ordered := client_ordered c |> <| per_client_ordered_epoch := client_ordered_epoch c |>
    <| consumed_through := o_consumed_through <$> offsets c |> <| invalidated := [] |> <| ready := [] |>.
Definition store_shared (s : St) (c : CSt) : CSt :=
  let c := c <| cs_table := session_table s |> <| cs_exhausted := capacity_exhausted s |>
             <| client_ordered := per_client_ordered s |>
             <| client_ordered_epoch := per_client_ordered_epoch s |> in
  let c := foldl ClearOrder5PublishState c (invalidated s) in
  foldl (fun c kv => put_offsets c kv.1 ((offsets_at c kv.1) <| o_consumed_through := kv.2 |>)) c
    (map_to_list (consumed_through s)).

Definition with_shard (ce : CEnv) (s : St) : CEnv :=
  mkCEnv (cxl_addr ce) (ce_BATCHHEADERS_SIZE ce) (ce_true_client_chain ce) (replication_factor ce)
    (producing_epoch ce) [s] (publish_order ce).

(** The shard's map, clipped to the brokers' array. *)
Definition shard_array (m : gmap Z Z) : gmap Z Z := filter (fun kv => in_brokers kv.1 = true) m.

Section epoch.
  Context `{StdSort} (e : Env) (ce : CEnv).

(** The batches for commit, and the shard after classification. *)
Definition ProcessLevel5Batches (s : St) (level5 : list PendingBatch5) : St :=
  if capacity_exhausted s then s else ProcessLevel5BatchesShard e s level5.

Definition level0_of (batch_list : list PendingBatch5) : list PendingBatch5 :=
  filter (fun p => client_id p = 0) batch_list.
Definition level5_of (batch_list : list PendingBatch5) : list PendingBatch5 :=
  filter (fun p => client_id p <> 0) batch_list.

Definition epoch_commit (s : St) (c : CSt) (ready batch_list : list PendingBatch5) (contiguous : gmap Z Z)
    (seen : gset Z) : CSt :=
  let logical := shard_array (cv_logical_only_cumulative s) in
  let logical_pbr := shard_array (cv_logical_only_pbr_index s) in
  let ce := with_shard ce s in
  if bool_decide (ready = []) then
    let c := (AdvanceConsumedThroughForProcessedSlots ce c batch_list contiguous seen (Some (∅, ∅))).2 in
    FlushAccumulatedCVLogicalOnly ce c logical logical_pbr
  else
    let c := CommitEpoch ce c ready batch_list contiguous seen (∅, ∅) in
    if cs_exhausted c then c else FlushAccumulatedCVLogicalOnly ce c logical logical_pbr.

Definition epoch_body (sys : St * CSt) (batch_list : list PendingBatch5) : St * CSt :=
  let '(s, c) := sys in
  let batch_list := mark_stale (cached_epoch e) <$> batch_list in
  let '(contiguous, seen) := start_positions e c batch_list in
  let s := ProcessLevel5Batches (load_shared c s) (level5_of batch_list) in
  let c := store_shared s c in
  (s, epoch_commit s c (level0_of batch_list ++ ready s) batch_list contiguous seen).
End epoch.

(** * The invariant of the sequencer *)

(** What the scanners deliver: a batch of client 0 has no session. *)
Definition scanned_ok (p : PendingBatch5) : Prop :=
  input_ok p /\ (client_id p = 0 -> session_epoch p = 0).

Lemma mark_stale_ok epoch p : scanned_ok p -> scanned_ok (mark_stale epoch p).
Proof. unfold mark_stale. destruct (skipped p); [done|]. by destruct (_ >? _). Qed.

Lemma clear_all_frame l : forall c,
  goi_frame c (foldl ClearOrder5PublishState c l) /\ goi (foldl ClearOrder5PublishState c l) = goi c.
Proof.
  induction l as [|a l IH]; intros c; simpl; [by repeat split|].
  destruct (ClearOrder5PublishState_frame c a) as [F1 G1], (IH (ClearOrder5PublishState c a)) as [F2 G2].
  split; [by eapply goi_frame_trans|congruence].
Qed.

Lemma store_positions_frame (l : list (Z * Z)) : forall c,
  let c' := foldl (fun c kv => put_offsets c kv.1 ((offsets_at c kv.1) <| o_consumed_through := kv.2 |>)) c l in
  log_frame c c' /\ headers c' = headers c.
Proof.
  induction l as [|kv l IH]; intros c; simpl; [done|].
  destruct (IH (put_offsets c kv.1 ((offsets_at c kv.1) <| o_consumed_through := kv.2 |>))) as [F H]. done.
Qed.

Lemma store_shared_frame s c :
  let c' := store_shared s c in
  cs_table c' = session_table s /\ goi c' = goi c /\ global_batch_seq c' = global_batch_seq c /\
  global_seq c' = global_seq c /\ cs_exhausted c' = capacity_exhausted s /\
  forall a, bh_batch_seq (header_at c' a) = bh_batch_seq (header_at c a).
Proof.
  unfold store_shared.
  match goal with |- context [foldl ClearOrder5PublishState ?x _] => set (c0 := x) end.
  destruct (clear_all_frame (invalidated s) c0) as [(F1 & F2 & F3 & F4 & F5 & _) G].
  set (c1 := foldl ClearOrder5PublishState c0 _) in *. clearbody c1.
  destruct (store_positions_frame (map_to_list (consumed_through s)) c1) as [(H1 & H2 & H3 & H4 & H5) H6].
  cbv zeta in *. rewrite H1, H2, H3, H4, H5, G, F2, F3, F4, F5. do 5 (split; [done|]).
  intros a. unfold header_at at 1. rewrite H6. apply F1.
Qed.

Lemma FlushLogicalOnly_frame ce c cum pbr : log_frame c (FlushAccumulatedCVLogicalOnly ce c cum pbr).
Proof.
  unfold FlushAccumulatedCVLogicalOnly. destruct (cs_exhausted c); [done|]. apply log_frame_foldl.
  intros s b. unfold flush_logical_one. by destruct (_ && _).
Qed.

Lemma index_table_ok c l : index_inv c l -> table_ok (cs_table c).
Proof.
  intros Hi. split; [apply Hi|]. intros k en Hv.
  destruct (decide (k = 0)) as [->|Hk]; [by rewrite view_zero in Hv|].
  pose proof (ii_expected _ _ Hi k Hk) as Hx. unfold expected_at in Hx. rewrite Hv in Hx.
  split; [lia|]. intros Hor. by apply (ii_active _ _ Hi k).
Qed.

(** The shard after a commit: only the session table changed under it. *)
Lemma shard_ok_table base s c c' :
  shard_ok base (core s) -> cs_table c = session_table s -> table_ok (cs_table c') ->
  (forall k, k <> 0 -> durable_fenced (cs_table c') k = durable_fenced (cs_table c) k) ->
  shard_ok base (core (load_shared c' s)).
Proof.
  intros [H1 H2 H3 H4 H5 H6 H7 H8 H9] Ht Hok Hf. split; try done.
  intros k Hk. apply H6. destruct Hk as [Hk|Hk]; [by left|right].
  change (durable_fenced (session_table s) k = true). rewrite <- Ht.
  destruct (decide (k = 0)) as [->|Hk0]; [done|]. rewrite <- Hf by done. exact Hk.
Qed.

Section epoch_inv.
  Context `{StdSort} (e : Env) (ce : CEnv) (base : Z).
  Context (Htcc : true_client_chain e = true) (Hfifo : fifo_ablation e = false) (He : env_ok e).
  Context (Hord : forall X, publish_order ce X ≡ₚ elements X).

Lemma classified s level5 :
  shard_ok base (core s) -> ready s = [] -> Forall input_ok level5 ->
  let s' := ProcessLevel5Batches e s level5 in
  shard_ok base (core s') /\ Forall (fun p => is_batch p -> batch_ok p) (ready s') /\
  (forall k, StronglySorted Z.lt (emits (core s') k)) /\
  (forall k, k <> 0 -> expected_at (session_table s') k = expected_at (session_table s) k) /\
  (forall k, durable_fenced (session_table s) k = true -> durable_fenced (session_table s') k = true).
Proof.
  intros Hok Hr Hin. unfold ProcessLevel5Batches. destruct (capacity_exhausted s).
  { cbv zeta. rewrite Hr. split; [done|split; [done|split; [|done]]]. intros k. unfold emits. simpl.
    rewrite Hr. constructor. }
  destruct (call_spec e Htcc Hfifo He base s level5 Hok Hr Hin) as (c & Hi & Hcr & Hct & Hok' & _).
  cbv zeta. set (s' := ProcessLevel5BatchesShard e s level5) in *.
  assert (forall k, emits (core s') k = emits c k) as Hem
    by (intros k; unfold emits; rewrite Hcr; reflexivity).
  split; [done|]. rewrite <- Hcr, <- Hct. split; [apply Hi|split; [|split]].
  - intros k. rewrite Hem. apply (inv_emits _ _ _ Hi).
  - apply (inv_expected _ _ _ Hi).
  - apply (inv_durable _ _ _ Hi).
Qed.

(** The order of the batches handed to commit. *)
Lemma seqs_of_ready level0 s k :
  Forall (fun p => session_epoch p = 0) level0 -> StronglySorted Z.lt (emits (core s) k) ->
  StronglySorted Z.lt (seqs_of (level0 ++ ready s) k).
Proof.
  intros H0 Hs. unfold seqs_of. rewrite filter_app.
  assert (filter (fun p => committable p = true /\ session_epoch p <> 0 /\ session_key p = k) level0 = [])
    as ->.
  { apply filter_none. intros p Hp. rewrite Forall_forall in H0. specialize (H0 p Hp). naive_solver. }
  simpl. eapply StronglySorted_sublist; [|exact Hs]. unfold emits. apply fmap_sublist. simpl.
  generalize (ready s) as r. induction r as [|p r IH]; [constructor|]. rewrite !filter_cons.
  case_decide as Hp; case_decide as Hq; [by constructor| |by constructor|done].
  destruct Hp as (Hc & _ & Hk), Hq. split; [by apply committable_batch|exact Hk].
Qed.

Lemma input_ready_ok p : input_ok p -> ready_ok p.
Proof. intros (_ & Hs & Hep & Hm & Hn) _. done. Qed.
Lemma batch_ready_ok p : (is_batch p -> batch_ok p) -> ready_ok p.
Proof. intros Hb Hc. apply committable_batch in Hc. by destruct (Hb Hc) as (_ & Hs & Hep & Hm & Hn). Qed.

(** What an epoch does to the log [l]; [intact] is the state of the headers of
    its batches. *)
Record epoch_result (c c' : CSt) (intact : Prop) (l l' : list GOIEntry) : Prop := {
  er_index : index_inv c' (l ++ l');
  er_session : session_inv c l -> intact -> session_inv c' (l ++ l');
  er_exact : commit_inv c l -> intact -> commit_inv c' (l ++ l');
  er_fenced k : k <> 0 -> durable_fenced (cs_table c) k = true -> history l' k = [];
  er_fences k : k <> 0 -> durable_fenced (cs_table c') k = durable_fenced (cs_table c) k;
}.

Lemma epoch_result_frame c c1 c2 intact l l' :
  log_frame c1 c2 -> epoch_result c c1 intact l l' -> epoch_result c c2 intact l l'.
Proof.
  intros Hf [H1 H2 H3 H4 H5]. pose proof (log_frame_same _ _ Hf) as Hsl. split; [| | |done|].
  - by eapply index_inv_frame.
  - intros. eapply session_inv_frame; [done|]. by apply H2.
  - intros. eapply commit_inv_frame; [done|]. by apply H3.
  - destruct Hf as (_ & -> & _). exact H5.
Qed.

Lemma epoch_commit_spec s c r bl cont seen l :
  index_inv c l -> Forall ready_ok r -> Forall (header_range c) r ->
  (forall k, StronglySorted Z.lt (seqs_of r k)) ->
  exists l', epoch_result c (epoch_commit ce s c r bl cont seen) (Forall (header_ok c) r) l l'.
Proof.
  intros Hi Hok Hh Hss. unfold epoch_commit.
  destruct (bool_decide (r = [])).
  - exists []. eapply epoch_result_frame; [apply FlushLogicalOnly_frame|].
    eapply epoch_result_frame; [apply Advance_frame|]. by split; rewrite ?app_nil_r.
  - destruct (CommitEpoch_spec (with_shard ce s) Hord c r bl cont seen (∅, ∅) l Hi Hok Hh Hss)
      as (l' & [R1 R2 R3 _ R5 _ _ R8]). exists l'. destruct (cs_exhausted _); [by split|].
    eapply epoch_result_frame; [apply FlushLogicalOnly_frame|]. by split.
Qed.

(** The table the classifier leaves: only fences were added. *)
Lemma store_shared_same s' c :
  shard_ok base (core s') ->
  (forall k, k <> 0 -> expected_at (session_table s') k = expected_at (cs_table c) k) ->
  same_log c (store_shared s' c).
Proof.
  intros Hsh Hex. destruct (store_shared_frame s' c) as (T1 & T2 & T3 & T4 & _).
  destruct (so_table _ _ Hsh) as [Hwf Hent]. split; rewrite ?T1; try done.
  intros _ k en Hk Hv. by apply (Hent k).
Qed.

(** From the classified shard [s'] to the end of the epoch. *)
Lemma epoch_rest_inv s' c bl cont seen l :
  let r := level0_of bl ++ ready s' in
  index_inv c l -> shard_ok base (core s') ->
  (forall k, k <> 0 -> expected_at (session_table s') k = expected_at (cs_table c) k) ->
  (forall k, StronglySorted Z.lt (emits (core s') k)) ->
  Forall (fun p => is_batch p -> batch_ok p) (ready s') ->
  Forall scanned_ok bl -> Forall (header_range c) r ->
  let c' := epoch_commit ce s' (store_shared s' c) r bl cont seen in
  shard_ok base (core (load_shared c' s')) /\
  exists l', epoch_result (store_shared s' c) c' (Forall (header_ok c) r) l l'.
Proof.
  cbv zeta. intros Hci Hsh' Hex Hem Hr' Hbl Hh.
  assert (Forall input_ok (level0_of bl) /\ Forall (fun p => session_epoch p = 0) (level0_of bl))
    as (H0 & H0e).
  { rewrite Forall_forall in Hbl. split; apply Forall_forall; intros p [Hc Hp]%list_elem_of_filter;
      by apply (Hbl p Hp). }
  pose proof (store_shared_same s' c Hsh' Hex) as Hsl.
  destruct (store_shared_frame s' c) as (T1 & _ & _ & _ & _ & T6).
  set (c1 := store_shared s' c) in *. clearbody c1.
  destruct (epoch_commit_spec s' c1 (level0_of bl ++ ready s') bl cont seen l) as (l' & Hres).
  { by eapply index_inv_frame. }
  { apply Forall_app. split; [eapply Forall_impl; [exact H0|apply input_ready_ok]|].
    eapply Forall_impl; [exact Hr'|apply batch_ready_ok]. }
  { eapply Forall_impl; [exact Hh|]. intros p Hp Hc Hf. rewrite T6. by apply Hp. }
  { intros k. by apply seqs_of_ready. }
  split.
  - eapply shard_ok_table; [exact Hsh'|exact T1|eapply index_table_ok, Hres|apply Hres].
  - exists l'. destruct Hres as [R1 R2 R3 R4 R5].
    assert (Forall (header_ok c) (level0_of bl ++ ready s') ->
      Forall (header_ok c1) (level0_of bl ++ ready s')) as Hmove.
    { intros Hho. eapply Forall_impl; [exact Hho|]. intros p Hp Hc Hf. rewrite T6. by apply Hp. }
    split; auto.
Qed.

Lemma epoch_body_eq s c batch_list :
  let bl := mark_stale (cached_epoch e) <$> batch_list in
  let s' := ProcessLevel5Batches e (load_shared c s) (level5_of bl) in
  epoch_body e ce (s, c) batch_list =
    (s', epoch_commit ce s' (store_shared s' c) (level0_of bl ++ ready s') bl
           (start_positions e c bl).1 (start_positions e c bl).2).
Proof. intros bl s'. unfold epoch_body. fold bl. by destruct (start_positions e c bl). Qed.

(** One epoch: the log grows, and every part of the invariant is kept. *)
Lemma epoch_body_inv s c batch_list l :
  let bl := mark_stale (cached_epoch e) <$> batch_list in
  let r := level0_of bl ++ ready (ProcessLevel5Batches e (load_shared c s) (level5_of bl)) in
  let y := epoch_body e ce (s, c) batch_list in
  shard_ok base (core (load_shared c s)) -> index_inv c l -> Forall scanned_ok batch_list ->
  Forall (header_range c) r ->
  shard_ok base (core (load_shared y.2 y.1)) /\
  exists l', index_inv y.2 (l ++ l') /\
    (session_inv c l -> Forall (header_ok c) r -> session_inv y.2 (l ++ l')) /\
    (commit_inv c l -> Forall (header_ok c) r -> commit_inv y.2 (l ++ l')) /\
    forall k, k <> 0 -> durable_fenced (cs_table c) k = true ->
      history l' k = [] /\ durable_fenced (cs_table y.2) k = true.
Proof.
  intros bl r y Hsh Hci Hin Hh. subst r y.
  assert (Forall scanned_ok bl) as Hbl
    by (apply Forall_fmap; eapply Forall_impl; [exact Hin|]; intros; by apply mark_stale_ok).
  assert (Forall input_ok (level5_of bl)) as H5.
  { rewrite Forall_forall in Hbl. apply Forall_forall. intros p [Hc Hp]%list_elem_of_filter.
    by apply (Hbl p Hp). }
  destruct (classified (load_shared c s) (level5_of bl) Hsh eq_refl H5) as (Hsh' & Hr' & Hem & Hex & Hdur).
  rewrite epoch_body_eq. fold bl. set (s' := ProcessLevel5Batches e _ _) in *.
  destruct (epoch_rest_inv s' c bl (start_positions e c bl).1 (start_positions e c bl).2 l Hci
    Hsh' Hex Hem Hr' Hbl Hh) as (Hsh2 & l' & [R1 R2 R3 R4 R5]).
  pose proof (store_shared_same s' c Hsh' Hex) as Hsl.
  split; [exact Hsh2|]. exists l'. split; [exact R1|split; [|split]].
  - intros Hs. apply R2. by eapply session_inv_frame.
  - intros Hs. apply R3. by eapply commit_inv_frame.
  - intros k Hk Hd%Hdur. destruct (store_shared_frame s' c) as (T1 & _). rewrite <- T1 in Hd.
    split; [by apply R4|]. simpl. by rewrite R5.
Qed.
End epoch_inv.

(** * Any number of epochs *)

(** The headers of the batches of an epoch when it commits them: as the scanner
    read them, or overwritten by other batches of the broker meanwhile. *)
Definition header_state (intact : bool) (c : CSt) (ready : list PendingBatch5) : Prop :=
  Forall (header_range c) ready /\ (intact = true -> Forall (header_ok c) ready).

(** The brokers write headers, the sequencer runs an epoch, or it restarts from
    the shared memory with the first [n] entries of the index committed.  The
    runs are told apart by the state of the headers and by the number [keep] of
    entries that are committed before a restart: with 0 a restart finds any
    prefix of the index committed, with the capacity of the index all of it. *)
Inductive seq_step `{StdSort} (intact : bool) (keep : Z) : St * CSt -> St * CSt -> Prop :=
  | step_scan s c hs : seq_step intact keep (s, c) (s, c <| headers := hs |>)
  | step_epoch e ce s c batch_list :
      true_client_chain e = true -> fifo_ablation e = false -> env_ok e ->
      (forall X, publish_order ce X ≡ₚ elements X) -> Forall scanned_ok batch_list ->
      (let bl := mark_stale (cached_epoch e) <$> batch_list in
       header_state intact c (level0_of bl ++
         ready (ProcessLevel5Batches e (load_shared c s) (level5_of bl)))) ->
      seq_step intact keep (s, c) (epoch_body e ce (s, c) batch_list)
  | step_restart s c n r :
      Z.min keep (global_batch_seq c) <= Z.of_nat n <= global_batch_seq c ->
      RecoverSequencer5State (goi c) (cs_table c) (committed_seq_of n) = Some r ->
      seq_step intact keep (s, c) (St_init, (restart c r).1).

Definition seq_init : CSt := mkCSt ∅ false 0 0 ∅ ∅ ∅ ∅ ∅ ∅ ∅ ∅ ∅ ∅ [] 0.

Record seq_inv (intact : bool) (keep : Z) (sys : St * CSt) (l : list GOIEntry) : Prop := {
  sq_shard : shard_ok 0 (core (load_shared sys.2 sys.1));
  sq_index : index_inv sys.2 l;
  sq_session : intact = true -> session_inv sys.2 l;
  sq_exact : intact = true -> kGOICapacity <= keep -> commit_inv sys.2 l;
}.

Lemma fresh_shard_ok c l : index_inv c l -> shard_ok 0 (core (load_shared c St_init)).
Proof.
  intros Hi. destruct shard_ok_init as [H1 H2 H3 H4 H5 H6 H7 H8 H9].
  split; try done. by eapply index_table_ok.
Qed.

Lemma seq_init_inv intact keep : seq_inv intact keep (St_init, seq_init) [].
Proof.
  assert (commit_inv seq_init []) as Hi.
  { eapply (commit_inv_frame ring_init); [|apply ring_init_inv].
    apply grown_same; [done..|apply SessionTable.wf_empty|apply grown_refl]. }
  split; [eapply fresh_shard_ok; apply Hi|apply Hi|intros _; apply Hi|done].
Qed.

(** From the log [l] to [l']: the first [keep] entries stay, and a fenced session
    gains nothing. *)
Definition log_kept (keep : Z) (c c' : CSt) (l l' : list GOIEntry) : Prop :=
  take (Z.to_nat keep) l `prefix_of` l' /\
  forall k, k <> 0 -> durable_fenced (cs_table c) k = true ->
    history l' k `prefix_of` history l k /\ durable_fenced (cs_table c') k = true.

Lemma log_kept_trans keep c1 c2 c3 l1 l2 l3 :
  log_kept keep c1 c2 l1 l2 -> log_kept keep c2 c3 l2 l3 -> log_kept keep c1 c3 l1 l3.
Proof.
  intros [A1 A2] [B1 B2]. split.
  - etransitivity; [|exact B1]. destruct A1 as [x ->].
    rewrite take_app. rewrite take_take, Nat.min_id. by apply prefix_app_r.
  - intros k Hk Hd. destruct (A2 k Hk Hd) as [P1 D1], (B2 k Hk D1) as [P2 D2].
    split; [by etransitivity|done].
Qed.

Lemma log_kept_same keep c c' l : cs_table c' = cs_table c -> log_kept keep c c' l l.
Proof. intros Ht. split; [|rewrite Ht; naive_solver]. exists (drop (Z.to_nat keep) l). by rewrite take_drop. Qed.

Lemma restart_step intact keep c n r l :
  index_inv c l -> (intact = true -> session_inv c l) ->
  (intact = true -> kGOICapacity <= keep -> commit_inv c l) ->
  Z.min keep (global_batch_seq c) <= Z.of_nat n <= global_batch_seq c ->
  RecoverSequencer5State (goi c) (cs_table c) (committed_seq_of n) = Some r ->
  exists l', seq_inv intact keep (St_init, (restart c r).1) l' /\ log_kept keep c (restart c r).1 l l'.
Proof.
  intros Hi Hs Hx Hn Hr. pose proof (ii_len _ _ Hi) as Hlen. exists (take n l).
  assert (length (take n l) = n) as Hl by (rewrite length_take; lia).
  pose proof (take_drop n l) as Hsplit. rewrite <- Hsplit in Hi.
  destruct (restart_inv c _ _ Hi) as (r' & Hr' & Hi' & _). rewrite Hl, Hr in Hr'. injection Hr' as <-.
  split; [split|split].
  - by eapply fresh_shard_ok.
  - exact Hi'.
  - intros Hin. specialize (Hs Hin). rewrite <- Hsplit in Hs. by eapply session_inv_prefix.
  - intros Hin Hk. pose proof (Hx Hin Hk) as Hc. pose proof (ii_cap _ _ Hc).
    assert (take n l = l) as E by (apply take_ge; lia). rewrite E in *. by apply commit_inv_restart.
  - destruct (decide (keep <= Z.of_nat n)) as [Hle|Hgt].
    + exists (drop (Z.to_nat keep) (take n l)). rewrite <- (take_drop (Z.to_nat keep) (take n l)) at 1.
      f_equal. rewrite take_take. f_equal. lia.
    + rewrite !take_ge by lia. done.
  - intros k Hk Hd. split; [|done]. rewrite <- Hsplit at 2. rewrite history_app. by apply prefix_app_r.
Qed.

Lemma seq_step_inv `{StdSort} intact keep x y l :
  seq_step intact keep x y -> seq_inv intact keep x l ->
  exists l', seq_inv intact keep y l' /\ log_kept keep x.2 y.2 l l'.
Proof.
  intros [s c hs|e ce s c bl Htcc Hff He Hord Hbl [Hr Hh]|s c n r Hn Hr] [H1 H2 H3 H4]; cbn [fst snd] in *.
  - exists l. split; [|by apply log_kept_same].
    assert (same_log c (c <| headers := hs |>)) as Hsl by (by apply log_frame_same).
    split; [exact H1|by eapply index_inv_frame| |].
    + intros. eapply session_inv_frame; [exact Hsl|by apply H3].
    + intros. eapply commit_inv_frame; [exact Hsl|by apply H4].
  - destruct (epoch_body_inv e ce 0 Htcc Hff He Hord s c bl l H1 H2 Hbl Hr) as (G1 & l' & G2 & G3 & G4 & G5).
    exists (l ++ l'). split; [by split; auto|]. split.
    + etransitivity; [|by apply prefix_app_r]. exists (drop (Z.to_nat keep) l). by rewrite take_drop.
    + intros k Hk Hd. destruct (G5 k Hk Hd) as [E D]. split; [|exact D].
      by rewrite history_app, E, app_nil_r.
  - by eapply restart_step.
Qed.

Lemma seq_run_inv `{StdSort} intact keep x y l :
  rtc (seq_step intact keep) x y -> seq_inv intact keep x l ->
  exists l', seq_inv intact keep y l' /\ log_kept keep x.2 y.2 l l'.
Proof.
  intros Hrun. revert l. induction Hrun as [x|x y z Hs _ IH]; intros l Hinv.
  - exists l. split; [done|]. by apply log_kept_same.
  - destruct (seq_step_inv intact keep x y l Hs Hinv) as (l1 & H1 & K1), (IH l1 H1) as (l2 & H2 & K2).
    exists l2. split; [exact H2|by eapply log_kept_trans].
Qed.

(** C1. Over any number of epochs and restarts the index starts with one log
    whose messages tile the total order from 0, whatever prefix of it a restart
    finds committed and whatever became of the scanned headers.  When the
    headers stay as they were scanned, every session's batches stand in it in
    the order of their sequence numbers, each at most once, below the number
    the session table expects next.  When moreover every restart finds the
    whole index committed, the index holds nothing but the log, and the table
    expects exactly the number after each session's last batch. *)
Theorem sequencer_total_order `{StdSort} intact keep s c :
  rtc (seq_step intact keep) (St_init, seq_init) (s, c) ->
  exists l, prefix_of_log (goi c) l /\ tiles 0 0 l (global_seq c) /\
    Z.of_nat (length l) = global_batch_seq c /\
    (intact = true -> forall k, StronglySorted Z.lt (history l k) /\
      (k <> 0 -> hist_next (history l k) <= expected_at (cs_table c) k)) /\
    (intact = true -> kGOICapacity <= keep -> log_of (goi c) l /\
      forall k, k <> 0 -> expected_at (cs_table c) k = hist_next (history l k)).
Proof.
  intros Hrun. destruct (seq_run_inv _ _ _ _ [] Hrun (seq_init_inv _ _)) as (l & [_ Hi Hs Hx] & _).
  exists l. simpl in *. split; [apply Hi|split; [apply Hi|split; [apply Hi|split]]].
  - intros Hin k. split; [apply (Hs Hin)|apply (si_next _ _ (Hs Hin))].
  - intros Hin Hk. split; [apply (Hx Hin Hk)|apply (ci_next _ _ (Hx Hin Hk))].
Qed.

(** C2. What is committed stays: when every restart finds at least the first
    [keep] entries of the index committed, or all of a shorter index, then the
    first [keep] entries at some point are entries of the log for ever, and
    with restarts that find the whole index committed so is the whole log.  A
    session that was fenced never gains a batch. *)
Theorem sequencer_log_stable `{StdSort} intact keep s c s' c' :
  rtc (seq_step intact keep) (St_init, seq_init) (s, c) -> rtc (seq_step intact keep) (s, c) (s', c') ->
  exists l l', prefix_of_log (goi c) l /\ Z.of_nat (length l) = global_batch_seq c /\
    prefix_of_log (goi c') l' /\ Z.of_nat (length l') = global_batch_seq c' /\
    take (Z.to_nat keep) l `prefix_of` l' /\ (kGOICapacity <= keep -> l `prefix_of` l') /\
    forall k, k <> 0 -> durable_fenced (cs_table c) k = true -> history l' k `prefix_of` history l k.
Proof.
  intros H1 H2. destruct (seq_run_inv _ _ _ _ [] H1 (seq_init_inv _ _)) as (l & Hi & _).
  destruct (seq_run_inv _ _ _ _ l H2 Hi) as (l' & [_ Hi' _ _] & Hp & Hf). destruct Hi as [_ Hi _ _].
  simpl in *. exists l, l'. split; [apply Hi|split; [apply Hi|split; [apply Hi'|split; [apply Hi'|]]]].
  split; [exact Hp|split; [|intros k Hk Hd; by apply Hf]].
  intros Hk. pose proof (ii_len _ _ Hi). pose proof (ii_cap _ _ Hi). by rewrite take_ge in Hp by lia.
Qed.

(** Two epochs with the scan of a header before each, and a restart. *)
Definition run_ce : CEnv := mkCEnv 65536 1048576 true 1 3 [] elements.
Definition run_batch (seq slot : Z) : PendingBatch5 :=
  (demo_batch 7 seq (300 + slot)) <| slot_offset := 128 * slot |> <| hdr := 69632 + 128 * slot |>
    <| cached_pbr_absolute_index := slot |> <| epoch_created := 1 |>.
Definition run_headers : gmap Z BatchHeader :=
  list_to_map [(69632, ring_header 0); (69760, ring_header 1)].
Definition run_start : CSt := seq_init <| headers := run_headers |>.
Definition run_first : St * CSt := epoch_body demo_env run_ce (St_init, run_start) [run_batch 0 0; run_batch 1 1].

Lemma header_check c ready :
  forallb (fun p => negb (committable p) || from_hold p || (bh_batch_seq (header_at c (hdr p)) =? batch_seq p))
    ready = true -> Forall (header_ok c) ready.
Proof.
  intros Hf. apply Forall_forall. intros p Hp%list_elem_of_In Hc Hh. rewrite forallb_forall in Hf.
  specialize (Hf p Hp). rewrite Hc, Hh in Hf. by apply Z.eqb_eq.
Qed.

Lemma run_ready_ok : Forall ready_ok [run_batch 0 0; run_batch 1 1].
Proof.
  repeat (apply Forall_cons_2; [intros _; unfold meta_ok, is_u32, seq_ok; simpl; repeat split; done || lia|]).
  constructor.
Qed.

Lemma header_check_state intact c ready :
  forallb (fun p => negb (committable p) || from_hold p || (bh_batch_seq (header_at c (hdr p)) =? batch_seq p))
    ready = true -> Forall ready_ok ready -> header_state intact c ready.
Proof. intros Hf%header_check Hok. split; [by apply header_ok_range|done]. Qed.

Lemma run_first_step keep : seq_step true keep (St_init, run_start) run_first.
Proof.
  apply step_epoch; [reflexivity|reflexivity|apply demo_env_ok|done| |].
  - repeat (apply Forall_cons_2;
      [split; [split; [reflexivity|unfold seq_ok, is_u32, meta_ok; simpl; repeat split; done || lia]|done]|]).
    constructor.
  - apply header_check_state; [vm_compute; reflexivity|].
    match goal with |- Forall _ ?r => assert (r = [run_batch 0 0; run_batch 1 1]) as -> by (vm_compute; reflexivity) end.
    apply run_ready_ok.
Qed.

Lemma run_first_reach keep : rtc (seq_step true keep) (St_init, seq_init) (run_first.1, run_first.2).
Proof.
  rewrite <- surjective_pairing. eapply rtc_l; [apply (step_scan _ _ _ _ run_headers)|].
  apply rtc_once, run_first_step.
Qed.

Lemma sequencer_total_order_witness :
  global_batch_seq run_first.2 = 2 /\
  exists l, prefix_of_log (goi run_first.2) l /\ tiles 0 0 l (global_seq run_first.2) /\
    Z.of_nat (length l) = global_batch_seq run_first.2 /\
    (true = true -> forall k, StronglySorted Z.lt (history l k) /\
      (k <> 0 -> hist_next (history l k) <= expected_at (cs_table run_first.2) k)) /\
    (true = true -> kGOICapacity <= kGOICapacity -> log_of (goi run_first.2) l /\
      forall k, k <> 0 -> expected_at (cs_table run_first.2) k = hist_next (history l k)).
Proof.
  split; [vm_compute; reflexivity|].
  exact (sequencer_total_order true kGOICapacity run_first.1 run_first.2 (run_first_reach kGOICapacity)).
Defined.

(** The run goes on with a restart that finds one of the two entries committed. *)
Definition run_recovered : Recovered :=
  default (mkRecovered 0 0 ∅ ∅) (RecoverSequencer5State (goi run_first.2) (cs_table run_first.2) 0).

Lemma run_restart : seq_step true 1 (run_first.1, run_first.2) (St_init, (restart run_first.2 run_recovered).1).
Proof.
  assert (RecoverSequencer5State (goi run_first.2) (cs_table run_first.2) (committed_seq_of 1) =
    Some run_recovered) as Hr by (vm_compute; reflexivity).
  assert (global_batch_seq run_first.2 = 2) as Hb by (vm_compute; reflexivity).
  revert Hr Hb. generalize run_recovered as r. destruct run_first as [s c]. cbn [fst snd]. intros r Hr Hb.
  apply (step_restart _ _ _ _ 1); [lia|exact Hr].
Qed.

Lemma sequencer_log_stable_witness :
  let c' := (restart run_first.2 run_recovered).1 in
  global_batch_seq run_first.2 = 2 /\ global_batch_seq c' = 1 /\
  exists l l', prefix_of_log (goi run_first.2) l /\ Z.of_nat (length l) = global_batch_seq run_first.2 /\
    prefix_of_log (goi c') l' /\ Z.of_nat (length l') = global_batch_seq c' /\
    take (Z.to_nat 1) l `prefix_of` l' /\ (kGOICapacity <= 1 -> l `prefix_of` l') /\
    forall k, k <> 0 -> durable_fenced (cs_table run_first.2) k = true -> history l' k `prefix_of` history l k.
Proof.
  split; [vm_compute; reflexivity|split; [vm_compute; reflexivity|]].
  exact (sequencer_log_stable true 1 run_first.1 run_first.2 St_init (restart run_first.2 run_recovered).1
    (run_first_reach 1) (rtc_once _ _ run_restart)).
Defined.

(** * An observation about the code *)

(** Batch 1 of client 9 waits in slot 0 of the ring for batch 0, which does not
    come.  In the epoch that fences its session and takes the batch of slot 1,
    the purge moves the consumed position over slot 0, and the commit writes
    back the position it had read before: slot 0 is retired and the ring still
    starts with it. *)
Definition stall_ce : CEnv := mkCEnv 65536 1048576 true 1 3 [] elements.
Definition stall_init : CSt := mkCSt ∅ false 0 0 ∅ ∅ {[0 := mkOffsets 0 0 0 4096]} ∅ ∅ ∅ ∅ ∅ ∅ ∅ [] 0.
Definition stall_batch (client seq slot : Z) : PendingBatch5 :=
  (demo_batch client seq (300 + slot)) <| slot_offset := 128 * slot |> <| hdr := 69632 + 128 * slot |>
    <| cached_pbr_absolute_index := slot |> <| epoch_created := 1 |>.
Definition stall_held : St * CSt := epoch_body demo_env stall_ce (St_init, stall_init) [stall_batch 9 1 0].

Theorem commit_undoes_purge :
  let s := ProcessLevel5Batches demo_env (load_shared stall_held.2 stall_held.1) [stall_batch 8 0 1] in
  let '(s', c') := epoch_body demo_env stall_ce stall_held [stall_batch 8 0 1] in
  consumed_through s !! 0 = Some 128 /\ hold_buffer_size s' = 0 /\
  global_batch_seq c' = 1 /\ o_consumed_through (offsets_at c' 0) = 1048576.
Proof. vm_compute. done. Qed.
