(* ===== verification/Mailbox.v ===== *)
(** The single-writer single-reader mailbox ring over non-coherent shared memory
    of src/cxl_transport/cxl_mailbox_ring.h. *)

From S2P Require Import Prelude.

Module MailboxRing.

Definition kCacheLine : Z := 64.
(** [size_t] arithmetic. *)
Definition AlignUp (n a : Z) : Z := Z.land (n + a - 1) (u64 (Z.lnot (a - 1))).
Definition sizeof_MailboxRingHeader : Z := 3 * kCacheLine.
(** 16 bytes of fields, aligned to a cache line. *)
Definition sizeof_MailboxSlotHeader : Z := kCacheLine.

Definition SlotStride (record_size : Z) : Z :=
  if sizeof_MailboxSlotHeader + record_size <=? kCacheLine then kCacheLine
  else u32 (AlignUp (sizeof_MailboxSlotHeader + record_size) kCacheLine).
Definition BytesNeeded (record_size capacity : Z) : Z :=
  sizeof_MailboxRingHeader +u (SlotStride record_size *u capacity).

(** * The parties *)

(** The shared memory: the line of each slot's header ([seq] and [len]), the
    lines of its payload, and the consumer's cursor. *)
Record mem := mkMem {
  m_hdr : gmap Z (Z * Z);
  m_body : gmap (Z * nat) (list Z);
  m_read : Z;
}.
#[global] Instance eta_mem : Eta mem := fun m => mkMem (m_hdr m) (m_body m) (m_read m).

Inductive PerRingStatus := SUCCESS | FULL | WEDGED.
Inductive call :=
  | TryProduce (record : list Z)
  | Produce (record : list Z)
  | TryProduceBounded (record : list Z) (max_spins : Z)
  | HasSpace.
Inductive result := RBool (b : bool) | RStatus (st : PerRingStatus).

(** Where the producer is: before the space check, writing the header's length
    and the payload's lines ([PublishSlot]), at the fence after them, at the
    stamp of [seq], and at the fence after it. *)
Inductive producer_pc :=
  | PIdle
  | PCheck (c : call) (spin : Z)
  | PLen (c : call) (record : list Z)
  | PBody (c : call) (record : list Z) (j : nat)
  | PFence (c : call) (record : list Z)
  | PStamp (c : call) (record : list Z)
  | PPublish (c : call) (record : list Z)
  | PDone (r : result).

(** The producer's dirty cache lines, its cursor and its shadow of the
    consumer's. *)
Record producer := mkProducer {
  p_hdr : gmap Z (Z * Z);
  p_body : gmap (Z * nat) (list Z);
  write_index : Z;
  cached_read_index : Z;
  p_pc : producer_pc;
}.
#[global] Instance eta_producer : Eta producer := fun p =>
  mkProducer (p_hdr p) (p_body p) (write_index p) (cached_read_index p) (p_pc p).

Inductive consumer_pc :=
  | CIdle
  | CHeader
  | CBody (len : Z) (j : nat) (out : list Z)
  | CAdvance (out : list Z)
  | CFence (out : list Z)
  | CDone (out : option (list Z))
  | CAborted.

(** [read_index] as the consumer sees it; the store is dirty until the fence. *)
Record consumer := mkConsumer { read_index : Z; c_dirty : bool; c_pc : consumer_pc }.
#[global] Instance eta_consumer : Eta consumer := fun c =>
  mkConsumer (read_index c) (c_dirty c) (c_pc c).

(** * Lines *)

Definition line (x : list Z) (j : nat) : list Z := take 64 (drop (64 * j) x).
Definition nlines (n : nat) : nat := ((n + 63) / 64)%nat.
Definition len_of (x : list Z) : Z := Z.of_nat (length x).

Section ring.
  Context (capacity record_size out_cap : Z).

(** [SlotAt].  Slots are told apart by their index: their bytes are disjoint as
    long as [SlotStride] does not wrap (MailboxSegment.v has the stride at its
    width, and [SlotStride_wraps]). *)
Definition slot_at (index : Z) : Z := Z.land index (capacity - 1).

(** A line the producer has not written is fetched from the memory. *)
Definition p_view_hdr (m : mem) (p : producer) (slot : Z) : Z * Z :=
  default (default (0, 0) (m_hdr m !! slot)) (p_hdr p !! slot).

(** * The producer *)

(** The check against the shadow, refreshed when the ring looks full. *)
Definition refresh (m : mem) (p : producer) : producer :=
  if write_index p -u cached_read_index p >=? capacity
  then p <| cached_read_index := m_read m |> else p.
Definition has_space (p : producer) : bool := write_index p -u cached_read_index p <? capacity.

Definition p_done (p : producer) (r : result) : producer := p <| p_pc := PDone r |>.

Definition success (c : call) : result :=
  match c with TryProduceBounded _ _ => RStatus SUCCESS | _ => RBool true end.

Definition check_turn (m : mem) (p : producer) (c : call) (spin : Z) : producer :=
  match c with
  | HasSpace => let p := refresh m p in p_done p (RBool (has_space p))
  | TryProduce record =>
      if len_of record >? record_size then p_done p (RBool false)
      else
        let p := refresh m p in
        if has_space p then p <| p_pc := PLen c record |> else p_done p (RBool false)
  | Produce record =>
      if len_of record >? record_size then p_done p (RBool false)
      else
        let p := refresh m p in
        if has_space p then p <| p_pc := PLen c record |> else p <| p_pc := PCheck c spin |>
  | TryProduceBounded record max_spins =>
      if len_of record >? record_size then p_done p (RStatus FULL)
      else
        let p := refresh m p in
        if has_space p then p <| p_pc := PLen c record |>
        else if spin >=? max_spins then p_done p (RStatus WEDGED)
        else p <| p_pc := PCheck c (spin + 1) |>
  end.

(** The lines of the slot reach the memory. *)
Definition write_back (m : mem) (p : producer) : mem * producer :=
  (m <| m_hdr := p_hdr p ∪ m_hdr m |> <| m_body := p_body p ∪ m_body m |>,
   p <| p_hdr := ∅ |> <| p_body := ∅ |>).

Definition producer_turn (m : mem) (p : producer) : mem * producer :=
  let w := write_index p in
  let slot := slot_at w in
  match p_pc p with
  | PIdle | PDone _ => (m, p)
  | PCheck c spin => (m, check_turn m p c spin)
  | PLen c record =>
      (m, p <| p_hdr := <[slot := ((p_view_hdr m p slot).1, len_of record)]> (p_hdr p) |>
            <| p_pc := PBody c record 0 |>)
  | PBody c record j =>
      if decide (j < nlines (length record))%nat
      then (m, p <| p_body := <[(slot, j) := line record j]> (p_body p) |>
                 <| p_pc := PBody c record (S j) |>)
      else (m, p <| p_pc := PFence c record |>)
  | PFence c record =>
      let '(m, p) := write_back m p in (m, p <| p_pc := PStamp c record |>)
  | PStamp c record =>
      (m, p <| p_hdr := <[slot := (w +u 1, (p_view_hdr m p slot).2)]> (p_hdr p) |>
            <| p_pc := PPublish c record |>)
  | PPublish c record =>
      let '(m, p) := write_back m p in
      (m, p <| write_index := w +u 1 |> <| p_pc := PDone (success c) |>)
  end.

(** * The consumer *)

Definition consumer_turn (m : mem) (c : consumer) : mem * consumer :=
  let r := read_index c in
  let slot := slot_at r in
  match c_pc c with
  | CIdle | CDone _ | CAborted => (m, c)
  | CHeader =>
      let '(seq, len) := default (0, 0) (m_hdr m !! slot) in
      if negb (seq =? r +u 1) then (m, c <| c_pc := CDone None |>)
      else if len >? out_cap then (m, c <| c_pc := CAborted |>)
      else (m, c <| c_pc := CBody len 0 [] |>)
  | CBody len j out =>
      if decide (j < nlines (Z.to_nat len))%nat
      then (m, c <| c_pc := CBody len (S j)
                  (out ++ take (Z.to_nat len - length out) (default [] (m_body m !! (slot, j)))) |>)
      else (m, c <| c_pc := CAdvance out |>)
  | CAdvance out =>
      (m, c <| read_index := r +u 1 |> <| c_dirty := true |> <| c_pc := CFence out |>)
  | CFence out =>
      (m <| m_read := r |>, c <| c_dirty := false |> <| c_pc := CDone (Some out) |>)
  end.

(** * Their interleaving

    [sent] and [received] record the stamped and the consumed records.  A dirty
    line may reach the memory at any time. *)
Record system := mkSystem {
  memory : mem;
  prod : producer;
  cons : consumer;
  sent : list (list Z);
  received : list (list Z);
}.
#[global] Instance eta_system : Eta system := fun s =>
  mkSystem (memory s) (prod s) (cons s) (sent s) (received s).

Definition stamps (p : producer) : list (list Z) :=
  match p_pc p with PStamp _ record => [record] | _ => [] end.
Definition takes (c : consumer) : list (list Z) :=
  match c_pc c with CAdvance out => [out] | _ => [] end.

Definition turn_producer (s : system) : system :=
  let '(m, p) := producer_turn (memory s) (prod s) in
  mkSystem m p (cons s) (sent s ++ stamps (prod s)) (received s).
Definition turn_consumer (s : system) : system :=
  let '(m, c) := consumer_turn (memory s) (cons s) in
  mkSystem m (prod s) c (sent s) (received s ++ takes (cons s)).

Inductive mailbox_step : system -> system -> Prop :=
  | step_call s c : p_pc (prod s) = PIdle ->
      mailbox_step s (s <| prod := (prod s) <| p_pc := PCheck c 0 |> |>)
  | step_return s r : p_pc (prod s) = PDone r ->
      mailbox_step s (s <| prod := (prod s) <| p_pc := PIdle |> |>)
  | step_producer s : mailbox_step s (turn_producer s)
  | step_consume s : c_pc (cons s) = CIdle ->
      mailbox_step s (s <| cons := (cons s) <| c_pc := CHeader |> |>)
  | step_consumed s out : c_pc (cons s) = CDone out ->
      mailbox_step s (s <| cons := (cons s) <| c_pc := CIdle |> |>)
  | step_consumer s : mailbox_step s (turn_consumer s)
  | step_evict_hdr s slot h : p_hdr (prod s) !! slot = Some h ->
      mailbox_step s (s <| memory := (memory s) <| m_hdr := <[slot := h]> (m_hdr (memory s)) |> |>
                        <| prod := (prod s) <| p_hdr := delete slot (p_hdr (prod s)) |> |>)
  | step_evict_body s key x : p_body (prod s) !! key = Some x ->
      mailbox_step s (s <| memory := (memory s) <| m_body := <[key := x]> (m_body (memory s)) |> |>
                        <| prod := (prod s) <| p_body := delete key (p_body (prod s)) |> |>)
  | step_evict_read s : c_dirty (cons s) = true ->
      mailbox_step s (s <| memory := (memory s) <| m_read := read_index (cons s) |> |>
                        <| cons := (cons s) <| c_dirty := false |> |>).

(** [Create]: the region is zeroed. *)
Definition mailbox_start : system :=
  mkSystem (mkMem ∅ ∅ 0) (mkProducer ∅ ∅ 0 0 PIdle) (mkConsumer 0 false CIdle) [] [].

(** * What the ring guarantees *)

Context (k : Z) (Hk : 0 <= k <= 31) (Hcap : capacity = 2 ^ k).

Lemma slot_at_mod i : slot_at i = i mod capacity.
Proof.
  unfold slot_at. replace (capacity - 1) with (Z.ones k) by (rewrite Z.ones_equiv, Hcap; lia).
  by rewrite Z.land_ones, Hcap by lia.
Qed.
Lemma capacity_pos : 0 < capacity <= 2147483648.
Proof.
  rewrite Hcap. split; [apply Z.pow_pos_nonneg; lia|]. change 2147483648 with (2 ^ 31).
  apply Z.pow_le_mono_r; lia.
Qed.
(** Two live indices have different slots. *)
Lemma slot_apart i j : i < j < i + capacity -> slot_at i <> slot_at j.
Proof.
  rewrite !slot_at_mod. intros Hij Heq. apply mod_window in Heq; lia.
Qed.

Definition stamped (p : producer) : Z := match p_pc p with PPublish _ _ => 1 | _ => 0 end.
(** The headers and the payload lines as the producer sees them. *)
Definition vh (s : system) : gmap Z (Z * Z) := p_hdr (prod s) ∪ m_hdr (memory s).
Definition vb (s : system) : gmap (Z * nat) (list Z) := p_body (prod s) ∪ m_body (memory s).

Definition lines_in (b : gmap (Z * nat) (list Z)) (slot : Z) (x : list Z) (n : nat) : Prop :=
  forall j, (j < n)%nat -> b !! (slot, j) = Some (line x j).

Definition pc_ok (s : system) : Prop :=
  let w := write_index (prod s) in
  let clean := p_hdr (prod s) = ∅ /\ p_body (prod s) = ∅ in
  let room := w - cached_read_index (prod s) < capacity in
  match p_pc (prod s) with
  | PLen _ x => clean /\ room
  | PBody _ x j => room /\ (j <= nlines (length x))%nat /\ (exists q, vh s !! slot_at w = Some (q, len_of x)) /\
      lines_in (vb s) (slot_at w) x j
  | PFence _ x => room /\ (exists q, vh s !! slot_at w = Some (q, len_of x)) /\
      lines_in (vb s) (slot_at w) x (nlines (length x))
  | PStamp _ x => clean /\ room /\ (exists q, m_hdr (memory s) !! slot_at w = Some (q, len_of x)) /\
      lines_in (m_body (memory s)) (slot_at w) x (nlines (length x))
  | PPublish _ _ => p_body (prod s) = ∅
  | _ => clean
  end.

Definition cons_ok (s : system) : Prop :=
  let r := read_index (cons s) in
  match c_pc (cons s) with
  | CBody len j out => exists x, sent s !! Z.to_nat r = Some x /\ len = len_of x /\
      (j <= nlines (length x))%nat /\ out = take (64 * j) x
  | CAdvance out => sent s !! Z.to_nat r = Some out
  | _ => True
  end.

Record inv (s : system) : Prop := {
  v_w : Z.of_nat (length (sent s)) = write_index (prod s) + stamped (prod s);
  v_r : Z.of_nat (length (received s)) = read_index (cons s);
  v_prefix : received s `prefix_of` sent s;
  v_read : 0 <= cached_read_index (prod s) <= m_read (memory s) /\ m_read (memory s) <= read_index (cons s);
  v_room : Z.of_nat (length (sent s)) - cached_read_index (prod s) <= capacity;
  v_seq slot h : m_hdr (memory s) !! slot = Some h \/ p_hdr (prod s) !! slot = Some h ->
    h.1 = 0 \/ (1 <= h.1 <= Z.of_nat (length (sent s)) /\ slot = slot_at (h.1 - 1));
  v_dirty_h slot : is_Some (p_hdr (prod s) !! slot) -> slot = slot_at (write_index (prod s));
  v_dirty_b key : is_Some (p_body (prod s) !! key) -> key.1 = slot_at (write_index (prod s));
  v_pub i x : sent s !! i = Some x -> read_index (cons s) <= Z.of_nat i ->
    lines_in (m_body (memory s)) (slot_at (Z.of_nat i)) x (nlines (length x)) /\
    vh s !! slot_at (Z.of_nat i) = Some (Z.of_nat i + 1, len_of x) /\
    (forall n, m_hdr (memory s) !! slot_at (Z.of_nat i) = Some (Z.of_nat i + 1, n) -> n = len_of x);
  v_pc : pc_ok s;
  v_cons : cons_ok s;
}.

Lemma v_le s : inv s -> read_index (cons s) <= Z.of_nat (length (sent s)).
Proof. intros Hi. rewrite <- (v_r _ Hi). pose proof (prefix_length _ _ (v_prefix _ Hi)). lia. Qed.

Lemma mailbox_start_inv : inv (mailbox_start).
Proof.
  pose proof capacity_pos. split; simpl; try done; try lia.
  - intros slot h [Hs|Hs]; by rewrite lookup_empty in Hs.
  - intros slot [? Hs]. by rewrite lookup_empty in Hs.
  - intros key [? Hs]. by rewrite lookup_empty in Hs.
Qed.

(** A write-back does not change what the producer sees. *)
Lemma evict_union {K V} `{Countable K} (p m : gmap K V) key v :
  p !! key = Some v -> delete key p ∪ <[key := v]> m = p ∪ m.
Proof.
  intros Hp. apply map_eq. intros x. rewrite !lookup_union.
  destruct (decide (key = x)) as [->|Hne].
  - rewrite lookup_delete_eq, lookup_insert_eq, Hp. by destruct (m !! x).
  - by rewrite lookup_delete_ne, lookup_insert_ne.
Qed.
Lemma view_default (m p : gmap Z (Z * Z)) slot :
  default (default (0, 0) (m !! slot)) (p !! slot) = default (0, 0) ((p ∪ m) !! slot).
Proof. rewrite lookup_union. by destruct (p !! slot), (m !! slot). Qed.

Lemma take_line x j : take (64 * j) x ++ line x j = take (64 * S j) x.
Proof. unfold line. rewrite take_take_drop. f_equal. lia. Qed.
Lemma nlines_cover n : (n <= 64 * nlines n)%nat.
Proof. unfold nlines. pose proof (Nat.div_mod (n + 63) 64). pose proof (Nat.mod_upper_bound (n + 63) 64). lia. Qed.
Lemma nlines_full n j : (j < nlines n)%nat -> (64 * j < n)%nat.
Proof. unfold nlines. intros Hj. pose proof (Nat.div_mod (n + 63) 64). lia. Qed.

(** Live records other than the one being written have other slots. *)
Lemma live_apart s i x :
  inv s -> stamped (prod s) = 0 -> write_index (prod s) - cached_read_index (prod s) < capacity ->
  sent s !! i = Some x -> read_index (cons s) <= Z.of_nat i ->
  slot_at (Z.of_nat i) <> slot_at (write_index (prod s)).
Proof.
  intros Hi Hst Hroom Hx Hr. apply slot_apart. apply lookup_lt_Some in Hx.
  pose proof (v_w _ Hi). pose proof (v_read _ Hi). lia.
Qed.

(** A step of the producer that touches neither its lines nor its cursor. *)
Lemma inv_local s p' :
  inv s -> stamped (prod s) = 0 -> stamped p' = 0 -> p_hdr p' = p_hdr (prod s) ->
  p_body p' = p_body (prod s) -> write_index p' = write_index (prod s) ->
  cached_read_index (prod s) <= cached_read_index p' <= m_read (memory s) ->
  pc_ok (s <| prod := p' |>) -> inv (s <| prod := p' |>).
Proof.
  intros [V1 V2 V3 V4 V5 V6 V7 V8 V9 V10 V11] H0 H0' Eh Eb Ew Hc Hpc. split; simpl; try done.
  - rewrite Ew, H0'. lia.
  - lia.
  - lia.
  - intros slot h. rewrite Eh. apply V6.
  - intros slot. rewrite Eh, Ew. apply V7.
  - intros key. rewrite Eb, Ew. apply V8.
  - intros i x Hx Hr. unfold vh. simpl. rewrite Eh. by apply V9.
Qed.

Lemma check_inv s c spin :
  inv s -> p_pc (prod s) = PCheck c spin -> inv (s <| prod := check_turn (memory s) (prod s) c spin |>).
Proof.
  intros Hi Hpc. pose proof (v_pc _ Hi) as Hok. unfold pc_ok in Hok. rewrite Hpc in Hok.
  destruct Hok as [Eh Eb]. pose proof (v_read _ Hi) as Hr.
  assert (stamped (prod s) = 0) as H0 by (unfold stamped; by rewrite Hpc).
  set (p1 := refresh (memory s) (prod s)).
  assert (p_hdr p1 = p_hdr (prod s) /\ p_body p1 = p_body (prod s) /\ write_index p1 = write_index (prod s) /\
    cached_read_index (prod s) <= cached_read_index p1 <= m_read (memory s)) as (R1 & R2 & R3 & R4).
  { unfold p1, refresh. destruct (_ >=? _); simpl; repeat split; try done; lia. }
  assert (forall pc', (pc' = PIdle \/ (exists r, pc' = PDone r) \/ exists c s', pc' = PCheck c s') ->
    forall p', (p' = prod s \/ p' = p1) -> inv (s <| prod := p' <| p_pc := pc' |> |>)) as Hquiet.
  { intros pc' Hpc' p' Hp'.
    assert (p_hdr p' = p_hdr (prod s) /\ p_body p' = p_body (prod s) /\ write_index p' = write_index (prod s) /\
      cached_read_index (prod s) <= cached_read_index p' <= m_read (memory s)) as (Q1 & Q2 & Q3 & Q4)
      by (destruct Hp' as [->| ->]; [repeat split; done || lia|done]).
    apply inv_local; [done|done| |done|done|done|done|].
    - by destruct Hpc' as [->|[[? ->]|(? & ? & ->)]].
    - unfold pc_ok. simpl. rewrite Q1, Q2. by destruct Hpc' as [->|[[? ->]|(? & ? & ->)]]. }
  assert (forall x, has_space p1 = true -> inv (s <| prod := p1 <| p_pc := PLen c x |> |>)) as Hgo.
  { intros x Hsp. apply inv_local; try done. unfold pc_ok. simpl. rewrite R1, R2. split; [done|].
    unfold has_space in Hsp. bool_props. pose proof (v_w _ Hi). pose proof (v_le _ Hi).
    rewrite u64_id in Hsp; [done|]. pose proof (v_room _ Hi). pose proof capacity_pos.
    unfold is_u64. lia. }
  unfold check_turn. fold p1. destruct c as [x|x|x spins|]; unfold p_done;
    repeat case_test; try (by apply Hgo); apply Hquiet; naive_solver.
Qed.

Lemma len_inv s c x :
  inv s -> p_pc (prod s) = PLen c x ->
  let slot := slot_at (write_index (prod s)) in
  inv (s <| prod := (prod s) <| p_hdr := <[slot := ((p_view_hdr (memory s) (prod s) slot).1, len_of x)]>
                                           (p_hdr (prod s)) |> <| p_pc := PBody c x 0 |> |>).
Proof.
  intros Hi Hpc slot. pose proof (v_pc _ Hi) as Hok. unfold pc_ok in Hok. rewrite Hpc in Hok.
  destruct Hok as [[Eh Eb] Hroom].
  assert (stamped (prod s) = 0) as H0 by (unfold stamped; by rewrite Hpc).
  pose proof (live_apart s) as Hapart.
  destruct Hi as [V1 V2 V3 V4 V5 V6 V7 V8 V9 V10 V11]. split; simpl; try done.
  - by rewrite V1, H0.
  - intros slot' h. rewrite lookup_insert. intros [Hh|Hh]; [by apply V6; left|].
    destruct (decide (slot = slot')) as [<-|Hne]; [|by apply V6; right]. injection Hh as <-. simpl.
    unfold p_view_hdr. rewrite Eh, lookup_empty. simpl.
    destruct (m_hdr (memory s) !! slot) as [h|] eqn:Em; [|by left]. simpl. apply (V6 slot). by left.
  - intros slot' [h Hh]. rewrite lookup_insert in Hh. case_decide; [done|]. by rewrite Eh, lookup_empty in Hh.
  - intros i y Hy Hr. destruct (V9 i y Hy Hr) as (P1 & P2 & P3). split; [done|]. split; [|done].
    unfold vh in *. simpl. rewrite <- insert_union_l, lookup_insert_ne; [done|].
    apply not_eq_sym. apply (Hapart i y); try done.
  - unfold pc_ok. simpl. split; [done|]. split; [lia|]. split; [|intros j Hj; lia].
    eexists. unfold vh. simpl. by rewrite <- insert_union_l, lookup_insert_eq.
Qed.

Lemma body_inv s c x j :
  inv s -> p_pc (prod s) = PBody c x j -> (j < nlines (length x))%nat ->
  inv (s <| prod := (prod s) <| p_body := <[(slot_at (write_index (prod s)), j) := line x j]> (p_body (prod s)) |>
                      <| p_pc := PBody c x (S j) |> |>).
Proof.
  intros Hi Hpc Hj. pose proof (v_pc _ Hi) as Hok. unfold pc_ok in Hok. rewrite Hpc in Hok.
  destruct Hok as (Hroom & _ & Hh & Hl).
  assert (stamped (prod s) = 0) as H0 by (unfold stamped; by rewrite Hpc).
  destruct Hi as [V1 V2 V3 V4 V5 V6 V7 V8 V9 V10 V11]. split; simpl; try done.
  - by rewrite V1, H0.
  - intros key [y Hy]. rewrite lookup_insert in Hy. case_decide; [by subst|]. apply V8. by exists y.
  - unfold pc_ok. simpl. split; [done|]. split; [lia|]. split; [exact Hh|]. unfold vb. simpl.
    intros i Hi. rewrite <- insert_union_l, lookup_insert. case_decide as E; [injection E as <-; done|].
    apply Hl. destruct (decide (i = j)) as [->|]; [done|lia].
Qed.

Lemma fence_inv s c x :
  inv s -> p_pc (prod s) = PFence c x ->
  inv (mkSystem ((memory s) <| m_hdr := vh s |> <| m_body := vb s |>)
         ((prod s) <| p_hdr := ∅ |> <| p_body := ∅ |> <| p_pc := PStamp c x |>) (cons s) (sent s) (received s)).
Proof.
  intros Hi Hpc. pose proof (v_pc _ Hi) as Hok. unfold pc_ok in Hok. rewrite Hpc in Hok.
  destruct Hok as (Hroom & Hh & Hl).
  assert (stamped (prod s) = 0) as H0 by (unfold stamped; by rewrite Hpc).
  pose proof (live_apart s) as Hapart. pose proof Hi as Hi'.
  destruct Hi as [V1 V2 V3 V4 V5 V6 V7 V8 V9 V10 V11]. split; simpl; try done.
  - by rewrite V1, H0.
  - intros slot h [Hs|Hs]; [|by rewrite lookup_empty in Hs]. unfold vh in Hs.
    apply lookup_union_Some_raw in Hs as [Hs|[_ Hs]]; apply (V6 slot); [by right|by left].
  - intros slot [h Hs]. by rewrite lookup_empty in Hs.
  - intros key [h Hs]. by rewrite lookup_empty in Hs.
  - intros i y Hy Hr. destruct (V9 i y Hy Hr) as (P1 & P2 & P3).
    assert (slot_at (Z.of_nat i) <> slot_at (write_index (prod s))) as Hne by (by eapply Hapart).
    split; [|split].
    + intros j Hj. unfold vb. rewrite lookup_union_r; [by apply P1|].
      destruct (p_body (prod s) !! _) eqn:E; [|done]. specialize (V8 _ (mk_is_Some _ _ E)). done.
    + unfold vh at 1. simpl. by rewrite (left_id_L ∅ (∪)).
    + intros n Hn. rewrite P2 in Hn. congruence.
Qed.

Lemma stamp_inv s c x :
  inv s -> p_pc (prod s) = PStamp c x -> Z.of_nat (length (sent s)) < U64_MAX ->
  let w := write_index (prod s) in
  let slot := slot_at w in
  inv (mkSystem (memory s) ((prod s) <| p_hdr := <[slot := (w +u 1, (p_view_hdr (memory s) (prod s) slot).2)]>
                                          (p_hdr (prod s)) |> <| p_pc := PPublish c x |>)
         (cons s) (sent s ++ [x]) (received s)).
Proof.
  intros Hi Hpc Hbound w slot. pose proof (v_pc _ Hi) as Hok. unfold pc_ok in Hok. rewrite Hpc in Hok.
  destruct Hok as ([Eh Eb] & Hroom & [q Hh] & Hl).
  assert (stamped (prod s) = 0) as H0 by (unfold stamped; by rewrite Hpc).
  pose proof (live_apart s) as Hapart. pose proof Hi as Hi'.
  assert (Z.of_nat (length (sent s ++ [x])) = Z.of_nat (length (sent s)) + 1) as El
    by (rewrite length_app; simpl; lia).
  destruct Hi as [V1 V2 V3 V4 V5 V6 V7 V8 V9 V10 V11]. rewrite H0, Z.add_0_r in V1. fold w in V1.
  assert (w +u 1 = w + 1) as Ew by (apply u64_id; word_unfold; lia).
  assert ((p_view_hdr (memory s) (prod s) slot).2 = len_of x) as Elen.
  { unfold p_view_hdr. rewrite Eh, lookup_empty. simpl. fold w slot in Hh. by rewrite Hh. }
  rewrite Ew, Elen, Eh. split; simpl; rewrite ?El; try done.
  - fold w. unfold stamped. simpl. lia.
  - by apply prefix_app_r.
  - fold w in Hroom. lia.
  - intros slot' h [Hs|Hs].
    + destruct (V6 slot' h (or_introl Hs)) as [?|[? ?]]; [by left|right]. split; [lia|done].
    + rewrite lookup_insert, lookup_empty in Hs. case_decide; [|done]. injection Hs as <-. simpl.
      right. split; [lia|]. subst. f_equal. lia.
  - intros slot' [h Hs]. rewrite lookup_insert, lookup_empty in Hs. case_decide; [by subst|].
    done.
  - intros i y Hy Hr. apply lookup_app_Some in Hy as [Hy|[Hge Hy]].
    + destruct (V9 i y Hy Hr) as (P1 & P2 & P3). split; [done|]. split; [|done].
      unfold vh in *. simpl. rewrite <- insert_union_l, lookup_insert_ne.
      * by rewrite Eh in P2.
      * apply not_eq_sym. by eapply Hapart.
    + apply list_lookup_singleton_Some in Hy as [Hi0 <-]. assert (Z.of_nat i = w) as -> by lia.
      split; [done|]. split; [unfold vh; simpl; by rewrite <- insert_union_l, lookup_insert_eq|].
      intros n Hn. destruct (V6 _ _ (or_introl Hn)) as [Hz|[Hz _]]; simpl in Hz; lia.
  - unfold cons_ok in *. simpl. destruct (c_pc (cons s)); try done.
    + destruct V11 as (y & Hy & ? & ? & ?). exists y. split; [by apply lookup_app_l_Some|done].
    + by apply lookup_app_l_Some.
Qed.

Lemma publish_inv s c x :
  inv s -> p_pc (prod s) = PPublish c x -> Z.of_nat (length (sent s)) < U64_MAX ->
  inv (mkSystem ((memory s) <| m_hdr := vh s |> <| m_body := vb s |>)
         ((prod s) <| p_hdr := ∅ |> <| p_body := ∅ |> <| write_index := write_index (prod s) +u 1 |>
            <| p_pc := PDone (success c) |>) (cons s) (sent s) (received s)).
Proof.
  intros Hi Hpc Hbound. pose proof (v_pc _ Hi) as Eb. unfold pc_ok in Eb. rewrite Hpc in Eb.
  assert (stamped (prod s) = 1) as H1 by (unfold stamped; by rewrite Hpc).
  pose proof (v_le _ Hi) as Hle. destruct Hi as [V1 V2 V3 V4 V5 V6 V7 V8 V9 V10 V11].
  assert (write_index (prod s) +u 1 = write_index (prod s) + 1) as ->
    by (apply u64_id; word_unfold; lia).
  assert (vb s = m_body (memory s)) as Evb by (unfold vb; by rewrite Eb, (left_id_L ∅ (∪))).
  split; simpl; try done.
  - unfold stamped. simpl. lia.
  - intros slot h [Hs|Hs]; [|by rewrite lookup_empty in Hs]. unfold vh in Hs.
    apply lookup_union_Some_raw in Hs as [Hs|[_ Hs]]; apply (V6 slot); [by right|by left].
  - intros slot [h Hs]. by rewrite lookup_empty in Hs.
  - intros key [h Hs]. by rewrite lookup_empty in Hs.
  - intros i y Hy Hr. destruct (V9 i y Hy Hr) as (P1 & P2 & P3). rewrite Evb. split; [done|].
    split; [unfold vh at 1; simpl; by rewrite (left_id_L ∅ (∪))|]. intros n Hn. rewrite P2 in Hn. congruence.
Qed.

Lemma producer_turn_inv s :
  inv s -> Z.of_nat (length (sent (turn_producer s))) < U64_MAX -> inv (turn_producer s).
Proof.
  intros Hi. unfold turn_producer, producer_turn, stamps, write_back.
  destruct (p_pc (prod s)) as [|c spin|c x|c x j|c x|c x|c x|r] eqn:Hpc; simpl; rewrite ?app_nil_r; intros Hb.
  - by destruct s.
  - exact (check_inv s c spin Hi Hpc).
  - exact (len_inv s c x Hi Hpc).
  - destruct (decide _) as [Hj|Hj]; simpl; [exact (body_inv s c x j Hi Hpc Hj)|].
    pose proof (v_pc _ Hi) as Hok. unfold pc_ok in Hok. rewrite Hpc in Hok. destruct Hok as (Hr & Hle & Hh & Hl).
    change (inv (s <| prod := (prod s) <| p_pc := PFence c x |> |>)). apply inv_local; simpl; try done.
    + by unfold stamped; rewrite Hpc.
    + pose proof (v_read _ Hi). lia.
    + unfold pc_ok. simpl. split; [done|]. split; [exact Hh|].
      replace (nlines (length x)) with j by lia. exact Hl.
  - exact (fence_inv s c x Hi Hpc).
  - apply (stamp_inv s c x Hi Hpc). rewrite length_app in Hb. simpl in Hb. lia.
  - exact (publish_inv s c x Hi Hpc Hb).
  - by destruct s.
Qed.

(** A step of the consumer that does not move its cursor. *)
Lemma inv_reader s c' :
  inv s -> read_index c' = read_index (cons s) ->
  cons_ok (mkSystem (memory s) (prod s) c' (sent s) (received s)) ->
  inv (mkSystem (memory s) (prod s) c' (sent s) (received s)).
Proof.
  intros [V1 V2 V3 V4 V5 V6 V7 V8 V9 V10 V11] Er Hc. split; simpl; rewrite ?Er; done.
Qed.

(** The header that the consumer finds stamped is the one of the next record. *)
Lemma header_found s len :
  inv s -> Z.of_nat (length (sent s)) < U64_MAX ->
  default (0, 0) (m_hdr (memory s) !! slot_at (read_index (cons s))) = (read_index (cons s) +u 1, len) ->
  exists x, sent s !! Z.to_nat (read_index (cons s)) = Some x /\ len = len_of x.
Proof.
  intros Hi Hb Hh. pose proof (v_le _ Hi) as Hle. pose proof (v_read _ Hi) as Hrd.
  set (r := read_index (cons s)) in *.
  assert (r +u 1 = r + 1) as Er by (apply u64_id; word_unfold; lia). rewrite Er in Hh.
  destruct (m_hdr (memory s) !! slot_at r) as [[q n]|] eqn:Em; simpl in Hh;
    [injection Hh as -> ->|injection Hh as Hz _; lia].
  destruct (v_seq _ Hi (slot_at r) (r + 1, len) (or_introl Em)) as [Hz|[Hz _]]; simpl in Hz; [lia|].
  destruct (lookup_lt_is_Some_2 (sent s) (Z.to_nat r)) as [x Hx]; [lia|]. exists x. split; [done|].
  destruct (v_pub _ Hi (Z.to_nat r) x Hx) as (_ & _ & P3); [fold r; lia|].
  rewrite Z2Nat.id in P3 by lia. by apply P3.
Qed.

Lemma consumer_turn_inv s :
  inv s -> Z.of_nat (length (sent s)) < U64_MAX -> inv (turn_consumer s).
Proof.
  intros Hi Hb. pose proof (v_cons _ Hi) as Hc. unfold cons_ok in Hc.
  pose proof (v_le _ Hi) as Hle. pose proof (v_read _ Hi) as Hrd.
  unfold turn_consumer, consumer_turn, takes.
  destruct (c_pc (cons s)) as [| |len j out|out|out|out|] eqn:Hpc; simpl; rewrite ?app_nil_r; try (by destruct s).
  - destruct (default (0, 0) _) as [q len] eqn:Eh. destruct (q =? _) eqn:Eq; simpl;
      [|by apply inv_reader].
    destruct (len >? out_cap); [by apply inv_reader|].
    apply inv_reader; [done|done|]. apply Z.eqb_eq in Eq as ->.
    destruct (header_found s len Hi Hb Eh) as (x & Hx & ->). exists x. split; [done|split; [done|split; [lia|done]]].
  - destruct Hc as (x & Hx & -> & Hj & ->). destruct (decide _) as [Hlt|Hge]; simpl.
    + apply inv_reader; [done|done|]. exists x.
      unfold len_of in *. rewrite Nat2Z.id in *. split; [done|split; [done|split; [lia|]]].
      destruct (v_pub _ Hi (Z.to_nat (read_index (cons s))) x Hx) as (P1 & _); [lia|].
      rewrite Z2Nat.id in P1 by lia. rewrite (P1 j Hlt). simpl.
      etransitivity; [|apply take_line]. f_equal. apply take_ge. unfold line.
      rewrite !length_take, length_drop. lia.
    + apply inv_reader; [done|done|]. unfold cons_ok. simpl.
      unfold len_of in Hge. rewrite Nat2Z.id in Hge. rewrite take_ge; [done|].
      pose proof (nlines_cover (length x)). lia.
  - pose proof (lookup_lt_Some _ _ _ Hc).
    assert (read_index (cons s) +u 1 = read_index (cons s) + 1) as -> by (apply u64_id; word_unfold; lia).
    destruct Hi as [V1 V2 V3 V4 V5 V6 V7 V8 V9 V10 V11]. split; simpl; try done.
    + rewrite length_app. simpl. lia.
    + destruct V3 as [rest Hs]. rewrite Hs in Hc. rewrite <- V2, Nat2Z.id in Hc.
      rewrite lookup_app_r, Nat.sub_diag in Hc by lia. destruct rest as [|y rest]; [done|].
      injection Hc as ->. exists rest. by rewrite Hs, <- app_assoc.
    + lia.
    + intros i x Hx Hr. apply V9; [done|lia].
  - destruct Hi as [V1 V2 V3 V4 V5 V6 V7 V8 V9 V10 V11]. split; simpl; try done. lia.
Qed.

Lemma evict_hdr_inv s slot h :
  inv s -> p_hdr (prod s) !! slot = Some h ->
  inv (s <| memory := (memory s) <| m_hdr := <[slot := h]> (m_hdr (memory s)) |> |>
         <| prod := (prod s) <| p_hdr := delete slot (p_hdr (prod s)) |> |>).
Proof.
  intros Hi Hh.
  match goal with |- inv ?x => set (s' := x) end.
  assert (vh s' = vh s) as Evh by (unfold vh, s'; simpl; by apply evict_union).
  assert (vb s' = vb s) as Evb by done.
  destruct Hi as [V1 V2 V3 V4 V5 V6 V7 V8 V9 V10 V11]. split; simpl; try done.
  - intros slot' h' [Hs|Hs].
    + rewrite lookup_insert in Hs. case_decide; [|by apply V6; left]. subst. injection Hs as <-.
      apply V6. by right.
    + apply lookup_delete_Some in Hs as [_ Hs]. apply V6. by right.
  - intros slot' [h' Hs]. apply lookup_delete_Some in Hs as [_ Hs]. apply V7. by exists h'.
  - intros i x Hx Hr. destruct (V9 i x Hx Hr) as (P1 & P2 & P3). split; [done|]. rewrite Evh. split; [done|].
    intros n Hn. rewrite lookup_insert in Hn. case_decide; [|by apply P3]. subst. injection Hn as ->.
    unfold vh in P2. erewrite lookup_union_Some_l in P2 by exact Hh. congruence.
  - unfold pc_ok in *. rewrite Evh, Evb. change (p_pc (prod s')) with (p_pc (prod s)).
    change (write_index (prod s')) with (write_index (prod s)).
    change (cached_read_index (prod s')) with (cached_read_index (prod s)).
    change (p_body (prod s')) with (p_body (prod s)).
    assert (forall P Q : Prop, p_hdr (prod s) = ∅ /\ P -> Q) as Hno
      by (intros P Q [E _]; by rewrite E, lookup_empty in Hh).
    destruct (p_pc (prod s)); try done; try (by eapply Hno); destruct V10 as [V10 _]; by eapply Hno.
Qed.

Lemma evict_body_inv s key x :
  inv s -> p_body (prod s) !! key = Some x ->
  inv (s <| memory := (memory s) <| m_body := <[key := x]> (m_body (memory s)) |> |>
         <| prod := (prod s) <| p_body := delete key (p_body (prod s)) |> |>).
Proof.
  intros Hi Hx.
  match goal with |- inv ?x => set (s' := x) end.
  assert (vb s' = vb s) as Evb by (unfold vb, s'; simpl; by apply evict_union).
  assert (vh s' = vh s) as Evh by done.
  assert (p_body (prod s) <> ∅) as Hne by (intros E; by rewrite E, lookup_empty in Hx).
  pose proof (v_pc _ Hi) as Hok. unfold pc_ok in Hok.
  assert (stamped (prod s) = 0 /\ write_index (prod s) - cached_read_index (prod s) < capacity) as [H0 Hroom].
  { unfold stamped. destruct (p_pc (prod s)); try tauto; by destruct Hok. }
  pose proof (live_apart s) as Hapart. pose proof Hi as Hi'.
  destruct Hi as [V1 V2 V3 V4 V5 V6 V7 V8 V9 V10 V11]. split; simpl; try done.
  - intros key' [y Hy]. apply lookup_delete_Some in Hy as [_ Hy]. apply V8. by exists y.
  - intros i y Hy Hr. destruct (V9 i y Hy Hr) as (P1 & P2 & P3). split; [|done]. intros j Hj.
    rewrite lookup_insert_ne; [by apply P1|]. intros ->. specialize (V8 _ (mk_is_Some _ _ Hx)). simpl in V8.
    exact (Hapart i y Hi' H0 Hroom Hy Hr V8).
  - unfold pc_ok in *. rewrite Evh, Evb. change (p_pc (prod s')) with (p_pc (prod s)).
    change (write_index (prod s')) with (write_index (prod s)).
    change (cached_read_index (prod s')) with (cached_read_index (prod s)).
    destruct (p_pc (prod s)); try tauto; by destruct Hok.
Qed.

Lemma mailbox_step_inv s s' :
  mailbox_step s s' -> Z.of_nat (length (sent s')) < U64_MAX -> inv s -> inv s'.
Proof.
  intros Hstep Hb Hi. destruct Hstep as [s c Hpc|s r Hpc|s|s Hpc|s out Hpc|s|s slot h Hh|s key x Hx|s Hd].
  - pose proof (v_pc _ Hi) as Hok. unfold pc_ok in Hok. rewrite Hpc in Hok. pose proof (v_read _ Hi).
    apply inv_local; try done; [by unfold stamped; rewrite Hpc|simpl; lia].
  - pose proof (v_pc _ Hi) as Hok. unfold pc_ok in Hok. rewrite Hpc in Hok. pose proof (v_read _ Hi).
    apply inv_local; try done; [by unfold stamped; rewrite Hpc|simpl; lia].
  - by apply producer_turn_inv.
  - by apply inv_reader.
  - by apply inv_reader.
  - apply consumer_turn_inv; [done|]. unfold turn_consumer in Hb.
    destruct (consumer_turn (memory s) (cons s)). exact Hb.
  - by apply evict_hdr_inv.
  - by apply evict_body_inv.
  - destruct Hi as [V1 V2 V3 V4 V5 V6 V7 V8 V9 V10 V11]. split; simpl; try done. lia.
Qed.

Lemma sent_grows s s' : mailbox_step s s' -> (length (sent s) <= length (sent s'))%nat.
Proof.
  intros [ | |s0| | |s0| | | ]; simpl; try lia.
  - unfold turn_producer. destruct (producer_turn _ _). simpl. rewrite length_app. lia.
  - unfold turn_consumer. destruct (consumer_turn _ _). simpl. lia.
Qed.

Lemma mailbox_run_inv s s' :
  rtc mailbox_step s s' -> (length (sent s) <= length (sent s'))%nat /\
    (Z.of_nat (length (sent s')) < U64_MAX -> inv s -> inv s').
Proof.
  induction 1 as [|s1 s2 s3 Hstep _ [IHl IH]]; [done|]. pose proof (sent_grows _ _ Hstep).
  split; [lia|]. intros Hb Hi. apply IH; [done|]. eapply mailbox_step_inv; [exact Hstep|lia|exact Hi].
Qed.

Lemma mailbox_reach_inv s :
  rtc mailbox_step mailbox_start s -> Z.of_nat (length (sent s)) < U64_MAX -> inv s.
Proof. intros Hr Hb. apply (mailbox_run_inv _ _ Hr); [done|apply mailbox_start_inv]. Qed.

(** C36. Whatever the interleaving and whenever dirty cache lines reach the shared
    memory, the records that the consumer takes are the first of those that
    the producer stamped, whole and in order, and at most [capacity] of them
    are in the ring. *)
Theorem mailbox_delivers_in_order s :
  rtc mailbox_step mailbox_start s -> Z.of_nat (length (sent s)) < U64_MAX ->
  received s `prefix_of` sent s /\
  Z.of_nat (length (sent s)) - Z.of_nat (length (received s)) <= capacity.
Proof.
  intros Hr Hb. pose proof (mailbox_reach_inv s Hr Hb) as Hi. split; [apply Hi|].
  pose proof (v_r _ Hi). pose proof (v_read _ Hi). pose proof (v_room _ Hi). lia.
Qed.

(** The consumer alone. *)
Definition consumer_run (n : nat) (s : system) : system := Nat.iter n turn_consumer s.

Lemma consumer_run_S n s : consumer_run (S n) s = consumer_run n (turn_consumer s).
Proof. unfold consumer_run. by rewrite Nat.iter_succ_r. Qed.

Lemma body_run s x n : forall j out c,
  (forall i, (i < nlines (length x))%nat -> m_body (memory s) !! (slot_at (read_index c), i) = Some (line x i)) ->
  c_pc c = CBody (len_of x) j out -> out = take (64 * j) x -> (j + n = nlines (length x))%nat ->
  c_pc (cons (consumer_run (n + 3) (mkSystem (memory s) (prod s) c (sent s) (received s)))) = CDone (Some x).
Proof.
  revert s. induction n as [|n IH]; intros s j out c Hl Hpc Hout Hj.
  - simpl. unfold turn_consumer at 3. unfold consumer_turn. simpl. rewrite Hpc. unfold len_of. rewrite Nat2Z.id.
    rewrite decide_False by lia. simpl. subst out. rewrite take_ge; [done|]. pose proof (nlines_cover (length x)).
    replace j with (nlines (length x)) by lia. done.
  - simpl Nat.add. rewrite consumer_run_S. unfold turn_consumer at 1, consumer_turn, takes. simpl.
    rewrite Hpc. unfold len_of. rewrite Nat2Z.id. rewrite decide_True by lia. simpl. rewrite app_nil_r.
    eapply (IH s (S j)); [exact Hl|reflexivity| |lia]. simpl. rewrite Hl by lia. simpl. subst out.
    etransitivity; [|apply take_line]. f_equal. apply take_ge. unfold line.
    rewrite !length_take, length_drop. lia.
Qed.

(** C37. A record that was published and not yet taken is taken: the consumer's
    call returns the next record within as many turns as it has lines, and
    four. *)
Theorem mailbox_consume_completes s x :
  rtc mailbox_step mailbox_start s -> Z.of_nat (length (sent s)) < U64_MAX ->
  p_pc (prod s) = PIdle -> c_pc (cons s) = CHeader ->
  sent s !! length (received s) = Some x -> len_of x <= out_cap ->
  c_pc (cons (consumer_run (nlines (length x) + 4) s)) = CDone (Some x).
Proof.
  intros Hr Hb Hp Hc Hx Hout. pose proof (mailbox_reach_inv s Hr Hb) as Hi.
  pose proof (v_pc _ Hi) as Hok. unfold pc_ok in Hok. rewrite Hp in Hok. destruct Hok as [Eh _].
  pose proof (v_r _ Hi) as Hrr. pose proof (lookup_lt_Some _ _ _ Hx).
  destruct (v_pub _ Hi _ _ Hx) as (P1 & P2 & _); [lia|]. rewrite Hrr in P1, P2.
  unfold vh in P2. rewrite Eh, (left_id_L ∅ (∪)) in P2.
  rewrite <- plus_n_Sm, consumer_run_S. unfold turn_consumer at 1, consumer_turn, takes. simpl.
  rewrite Hc, P2. simpl. rewrite u64_id, Z.eqb_refl by (word_unfold; lia). simpl.
  rewrite Z.gtb_ltb, (proj2 (Z.ltb_ge _ _)) by lia. rewrite app_nil_r.
  by eapply (body_run s x _ 0 []).
Qed.

(** After [HasSpace] answered yes, the next [TryProduce] of a record that fits
    goes through, whatever the memory then holds. *)
Lemma has_space_commits m m' p x :
  p_pc (check_turn m p HasSpace 0) = PDone (RBool true) -> len_of x <= record_size ->
  p_pc (check_turn m' (check_turn m p HasSpace 0) (TryProduce x) 0) = PLen (TryProduce x) x.
Proof.
  intros Hs Hle. assert (has_space (check_turn m p HasSpace 0) = true) as Hsp by (by injection Hs).
  set (p2 := check_turn m p HasSpace 0) in *. clearbody p2. unfold check_turn.
  rewrite Z.gtb_ltb, (proj2 (Z.ltb_ge _ _)) by lia.
  assert (refresh m' p2 = p2) as ->.
  { unfold refresh. unfold has_space in Hsp. rewrite Z.geb_leb, (proj2 (Z.leb_gt _ _)); [done|]. by apply Z.ltb_lt. }
  by rewrite Hsp.
Qed.

(** * Schedules *)
Inductive action :=
  | ACall (c : call) | AReturn | AProducer | AConsume | AConsumed | AConsumer
  | AEvictHdr (slot : Z) | AEvictBody (key : Z * nat) | AEvictRead.

Definition act (s : system) (a : action) : system :=
  match a with
  | ACall c => match p_pc (prod s) with
               | PIdle => s <| prod := (prod s) <| p_pc := PCheck c 0 |> |> | _ => s end
  | AReturn => match p_pc (prod s) with
               | PDone _ => s <| prod := (prod s) <| p_pc := PIdle |> |> | _ => s end
  | AProducer => turn_producer s
  | AConsume => match c_pc (cons s) with
                | CIdle => s <| cons := (cons s) <| c_pc := CHeader |> |> | _ => s end
  | AConsumed => match c_pc (cons s) with
                 | CDone _ => s <| cons := (cons s) <| c_pc := CIdle |> |> | _ => s end
  | AConsumer => turn_consumer s
  | AEvictHdr slot => match p_hdr (prod s) !! slot with
      | Some h => s <| memory := (memory s) <| m_hdr := <[slot := h]> (m_hdr (memory s)) |> |>
                    <| prod := (prod s) <| p_hdr := delete slot (p_hdr (prod s)) |> |>
      | None => s end
  | AEvictBody key => match p_body (prod s) !! key with
      | Some x => s <| memory := (memory s) <| m_body := <[key := x]> (m_body (memory s)) |> |>
                    <| prod := (prod s) <| p_body := delete key (p_body (prod s)) |> |>
      | None => s end
  | AEvictRead =>
      if c_dirty (cons s) then s <| memory := (memory s) <| m_read := read_index (cons s) |> |>
                                 <| cons := (cons s) <| c_dirty := false |> |>
      else s
  end.

Lemma mailbox_act_rtc s a : rtc mailbox_step s (act s a).
Proof.
  destruct a as [c| | | | | |slot|key|]; simpl; try (apply rtc_once; constructor).
  - destruct (p_pc (prod s)) eqn:E; try done. by apply rtc_once, step_call.
  - destruct (p_pc (prod s)) eqn:E; try done. apply rtc_once. by eapply step_return.
  - destruct (c_pc (cons s)) eqn:E; try done. by apply rtc_once, step_consume.
  - destruct (c_pc (cons s)) eqn:E; try done. apply rtc_once. by eapply step_consumed.
  - destruct (p_hdr (prod s) !! slot) eqn:E; [|done]. by apply rtc_once, step_evict_hdr.
  - destruct (p_body (prod s) !! key) eqn:E; [|done]. by apply rtc_once, step_evict_body.
  - destruct (c_dirty (cons s)) eqn:E; [|done]. by apply rtc_once, step_evict_read.
Qed.

Lemma mailbox_acts_rtc acts : forall s, rtc mailbox_step s (foldl act s acts).
Proof.
  induction acts as [|a acts IH]; intros s; [done|]. simpl. etransitivity; [apply mailbox_act_rtc|apply IH].
Qed.
End ring.
End MailboxRing.

(** A record of two lines: its second line reaches the memory early, its stamp
    before the producer's fence, and the consumer takes it before the producer
    returns. *)
Definition mail_record : list Z := Z.of_nat <$> seq 1 70.
Definition mail_start : MailboxRing.system := MailboxRing.mailbox_start.
Definition mail_run : list MailboxRing.action :=
  let P := MailboxRing.AProducer in let C := MailboxRing.AConsumer in
  [MailboxRing.ACall (MailboxRing.TryProduce mail_record); P; P; P; P; MailboxRing.AEvictBody (0, 1%nat);
   P; P; P; MailboxRing.AEvictHdr 0; MailboxRing.AConsume; C; C; C; C; C; MailboxRing.AEvictRead; P;
   MailboxRing.AReturn].
Definition mail_end : MailboxRing.system := foldl (MailboxRing.act 2 256 256) mail_start mail_run.

Lemma mailbox_delivers_in_order_witness :
  MailboxRing.received mail_end = [mail_record] /\
  (MailboxRing.received mail_end `prefix_of` MailboxRing.sent mail_end /\
   Z.of_nat (length (MailboxRing.sent mail_end)) - Z.of_nat (length (MailboxRing.received mail_end)) <= 2).
Proof.
  split; [vm_compute; reflexivity|].
  refine (MailboxRing.mailbox_delivers_in_order 2 256 256 1 _ eq_refl mail_end
    (MailboxRing.mailbox_acts_rtc 2 256 256 mail_run mail_start) _); [lia|vm_compute; reflexivity].
Defined.

(** The same record, published while the consumer starts. *)
Definition mail_waiting : MailboxRing.system :=
  foldl (MailboxRing.act 2 256 256) mail_start
    ([MailboxRing.ACall (MailboxRing.TryProduce mail_record)] ++ repeat MailboxRing.AProducer 8 ++
     [MailboxRing.AReturn; MailboxRing.AConsume]).

Lemma mailbox_consume_completes_witness :
  MailboxRing.c_pc (MailboxRing.cons (MailboxRing.consumer_run 2 256 6 mail_waiting)) =
    MailboxRing.CDone (Some mail_record).
Proof.
  refine (MailboxRing.mailbox_consume_completes 2 256 256 1 _ eq_refl mail_waiting mail_record
    (MailboxRing.mailbox_acts_rtc 2 256 256 _ mail_start) _ _ _ _ _); try (vm_compute; reflexivity).
  - lia.
  - vm_compute. discriminate.
Defined.
