(* ===== verification/MailboxSegment.v ===== *)
(** A segment of mailbox rings, one pair per broker: the layout that
    src/cxl_transport/cxl_mailbox.cc writes and checks, and the coordinator's
    broadcast over the rings of Mailbox.v. *)

From S2P Require Import Prelude.
From S2P Require Import Mailbox.
Import MailboxRing.

Module MailboxSegment.

Definition kMailboxRingMagic : Z := 0x584D4245.
Definition kMailboxRingVersion : Z := 1.
Definition kMailboxSegmentMagic : Z := 0x53424D45.
Definition kMailboxSegmentVersion : Z := 2.

Record MailboxParams := mkParams {
  num_brokers : Z;
  record_size : Z;
  up_capacity : Z;
  down_capacity : Z;
  broadcast_spin_bound : Z;
}.

Record MailboxRingHeader := mkRingHeader {
  rh_magic : Z;
  rh_version : Z;
  rh_record_size : Z;
  rh_capacity : Z;
  rh_slot_stride : Z;
  rh_slots_offset : Z;
  rh_write_index : Z;
  rh_read_index : Z;
}.

Record MailboxSegmentHeader := mkSegmentHeader {
  h_magic : Z;
  h_version : Z;
  h_num_brokers : Z;
  h_record_size : Z;
  h_up_capacity : Z;
  h_down_capacity : Z;
  h_up_stride : Z;
  h_down_stride : Z;
  h_up_base : Z;
  h_down_base : Z;
  h_broadcast_spin_bound : Z;
}.
Definition sizeof_MailboxSegmentHeader : Z := kCacheLine.

(** The shared bytes: the segment's header and the ring headers, by their
    offset from the segment's base. *)
Record shm := mkShm { s_hdr : MailboxSegmentHeader; s_rings : gmap Z MailboxRingHeader }.

(** A [MailboxRing]: a borrowed view and the producer's shadow. *)
Record ring_view := mkRing { r_off : Z; cached_read_index_ : Z }.

(** A [MailboxSegment] that is bound. *)
Record segment := mkSegment {
  num_brokers_ : Z;
  record_size_ : Z;
  broadcast_spin_bound_ : Z;
  up_ : list ring_view;
  down_ : list ring_view;
}.

(** [MailboxSegment::BytesNeeded]. *)
Definition SegmentBytesNeeded (p : MailboxParams) : Z :=
  AlignUp sizeof_MailboxSegmentHeader kCacheLine
    +u (BytesNeeded (record_size p) (up_capacity p) *u num_brokers p)
    +u (BytesNeeded (record_size p) (down_capacity p) *u num_brokers p).

(** [capacity & (capacity - 1)] on [uint32_t]. *)
Definition pow2_or_zero (capacity : Z) : bool := Z.land capacity (u32 (capacity - 1)) =? 0.

(** A failed CHECK aborts the process. *)
Definition CHECK (b : bool) : option unit := if b then Some tt else None.

Section rings.
  (** The address at which this process maps the segment. *)
  Context (base : Z).

(** [MailboxRing::Attach]. *)
Definition RingAttach (m : shm) (off region_bytes : Z) : option ring_view :=
  _ ← CHECK (negb (base +u off =? 0));
  _ ← CHECK ((base +u off) mod kCacheLine =? 0);
  h ← s_rings m !! off;
  _ ← CHECK (rh_magic h =? kMailboxRingMagic);
  _ ← CHECK (rh_version h =? kMailboxRingVersion);
  _ ← CHECK (region_bytes >=? BytesNeeded (rh_record_size h) (rh_capacity h));
  Some (mkRing off (rh_read_index h)).

(** The headers that [n] zeroed bytes at [off] leave. *)
Definition memset (rings : gmap Z MailboxRingHeader) (off n : Z) : gmap Z MailboxRingHeader :=
  filter (fun kv => kv.1 + sizeof_MailboxRingHeader <= off \/ off + n <= kv.1) rings.

Definition fresh_header (record_size capacity : Z) : MailboxRingHeader :=
  mkRingHeader kMailboxRingMagic kMailboxRingVersion record_size capacity
    (SlotStride record_size) sizeof_MailboxRingHeader 0 0.

(** [MailboxRing::Create]. *)
Definition RingCreate (m : shm) (off region_bytes record_size capacity : Z) : option (shm * ring_view) :=
  _ ← CHECK (negb (base +u off =? 0));
  _ ← CHECK ((base +u off) mod kCacheLine =? 0);
  _ ← CHECK (pow2_or_zero capacity);
  let need := BytesNeeded record_size capacity in
  _ ← CHECK (region_bytes >=? need);
  let m := mkShm (s_hdr m) (<[off := fresh_header record_size capacity]> (memset (s_rings m) off need)) in
  r ← RingAttach m off region_bytes;
  Some (m, r).

Definition up_off (h : MailboxSegmentHeader) (b : Z) : Z := h_up_base h +u (h_up_stride h *u b).
Definition down_off (h : MailboxSegmentHeader) (b : Z) : Z := h_down_base h +u (h_down_stride h *u b).

Definition open_ring (create : bool) (m : shm) (off stride record_size capacity : Z) : option (shm * ring_view) :=
  if create then RingCreate m off stride record_size capacity
  else r ← RingAttach m off stride; Some (m, r).

(** The loop of [BindRings] over the brokers [bs]. *)
Fixpoint bind_loop (create : bool) (h : MailboxSegmentHeader) (bs : list Z) (m : shm)
    (ups downs : list ring_view) : option (shm * (list ring_view * list ring_view)) :=
  match bs with
  | [] => Some (m, (ups, downs))
  | b :: bs =>
      '(m, u) ← open_ring create m (up_off h b) (h_up_stride h) (h_record_size h) (h_up_capacity h);
      '(m, d) ← open_ring create m (down_off h b) (h_down_stride h) (h_record_size h) (h_down_capacity h);
      bind_loop create h bs m (ups ++ [u]) (downs ++ [d])
  end.

Definition brokers (n : Z) : list Z := Z.of_nat <$> seq 0 (Z.to_nat n).

Definition bind_rings (create : bool) (h : MailboxSegmentHeader) (m : shm) : option (shm * segment) :=
  '(m, (ups, downs)) ← bind_loop create h (brokers (h_num_brokers h)) m [] [];
  Some (m, mkSegment (h_num_brokers h) (h_record_size h) (h_broadcast_spin_bound h) ups downs).

(** The header that [BindRings] writes when it creates. *)
Definition create_header (p : MailboxParams) : MailboxSegmentHeader :=
  let up_stride := BytesNeeded (record_size p) (up_capacity p) in
  let up_base := AlignUp sizeof_MailboxSegmentHeader kCacheLine in
  mkSegmentHeader kMailboxSegmentMagic kMailboxSegmentVersion (num_brokers p) (record_size p)
    (up_capacity p) (down_capacity p) up_stride
    (BytesNeeded (record_size p) (down_capacity p)) up_base
    (up_base +u (up_stride *u num_brokers p)) (broadcast_spin_bound p).

Definition BindRings_create (p : MailboxParams) (m : shm) : option (shm * segment) :=
  _ ← CHECK (num_brokers p >? 0);
  _ ← CHECK (record_size p >? 0);
  _ ← CHECK (pow2_or_zero (up_capacity p));
  _ ← CHECK (pow2_or_zero (down_capacity p));
  let h := create_header p in
  bind_rings true h (mkShm h (s_rings m)).

(** The checks of an attaching process on the header it finds. *)
Definition attach_header_ok (bytes : Z) (h : MailboxSegmentHeader) : bool :=
  (bytes >=? sizeof_MailboxSegmentHeader) &&
  (h_magic h =? kMailboxSegmentMagic) && (h_version h =? kMailboxSegmentVersion) &&
  (h_num_brokers h >? 0) && (h_record_size h >? 0) && (h_up_capacity h >? 0) && (h_down_capacity h >? 0) &&
  pow2_or_zero (h_up_capacity h) && pow2_or_zero (h_down_capacity h) &&
  (h_up_stride h =? BytesNeeded (h_record_size h) (h_up_capacity h)) &&
  (h_down_stride h =? BytesNeeded (h_record_size h) (h_down_capacity h)) &&
  (h_up_base h >=? sizeof_MailboxSegmentHeader) && (h_down_base h >=? h_up_base h) &&
  (h_up_base h <=? bytes) && (h_up_stride h <=? (bytes -u h_up_base h) / h_num_brokers h) &&
  (h_down_base h >=? h_up_base h +u (h_up_stride h *u h_num_brokers h)) &&
  (h_down_base h <=? bytes) && (h_down_stride h <=? (bytes -u h_down_base h) / h_num_brokers h).

Definition BindRings_attach (bytes : Z) (m : shm) : option segment :=
  _ ← CHECK (attach_header_ok bytes (s_hdr m));
  '(_, seg) ← bind_rings false (s_hdr m) m;
  Some seg.

Definition CreateInPlace (bytes : Z) (p : MailboxParams) (m : shm) : option (shm * segment) :=
  _ ← CHECK (negb (base =? 0));
  _ ← CHECK (base mod kCacheLine =? 0);
  _ ← CHECK (bytes >=? SegmentBytesNeeded p);
  BindRings_create p m.

Definition AttachInPlace (bytes : Z) (m : shm) : option segment :=
  _ ← CHECK (negb (base =? 0));
  _ ← CHECK (base mod kCacheLine =? 0);
  BindRings_attach bytes m.

(** * The extents of an attached segment *)

(** The regions of the rings, up rings first. *)
Definition regions (h : MailboxSegmentHeader) : list (Z * Z) :=
  ((fun b => (up_off h b, h_up_stride h)) <$> brokers (h_num_brokers h)) ++
  ((fun b => (down_off h b, h_down_stride h)) <$> brokers (h_num_brokers h)).

(** The fields at their widths. *)
Definition header_wf (h : MailboxSegmentHeader) : Prop :=
  is_u32 (h_num_brokers h) /\ is_u64 (h_up_stride h) /\ is_u64 (h_down_stride h) /\
  is_u64 (h_up_base h) /\ is_u64 (h_down_base h).

Lemma CHECK_inv b x : CHECK b = Some x -> b = true.
Proof. by destruct b. Qed.

Lemma brokers_lookup n i b : brokers n !! i = Some b -> b = Z.of_nat i /\ 0 <= b < n.
Proof.
  unfold brokers. rewrite list_lookup_fmap. intros H. destruct (seq _ _ !! i) as [j|] eqn:E; [|done].
  injection H as <-. apply lookup_seq in E. lia.
Qed.
Lemma brokers_length n : length (brokers n) = Z.to_nat n.
Proof. unfold brokers. by rewrite length_fmap, length_seq. Qed.
Lemma brokers_elem n b : b ∈ brokers n <-> 0 <= b < n.
Proof.
  unfold brokers. rewrite list_elem_of_fmap. split.
  - intros (i & -> & Hi). apply elem_of_seq in Hi. lia.
  - intros Hb. exists (Z.to_nat b). split; [lia|]. apply elem_of_seq. lia.
Qed.

(** An extent of [n] strides that was checked by division does not wrap. *)
Lemma extent_fits bytes lo stride n :
  is_u64 bytes -> is_u64 stride -> 0 <= lo <= bytes -> 0 < n ->
  stride <= (bytes -u lo) / n -> lo + stride * n <= bytes.
Proof.
  intros Hb Hs Hlo Hn Hd. rewrite u64_id in Hd by (word_unfold; lia).
  pose proof (Z.mul_div_le (bytes - lo) n ltac:(lia)). nia.
Qed.

Lemma attach_extents bytes h :
  is_u64 bytes -> header_wf h -> attach_header_ok bytes h = true ->
  0 < h_num_brokers h /\ 64 <= h_up_base h /\
  h_up_base h + h_up_stride h * h_num_brokers h <= h_down_base h /\
  h_down_base h + h_down_stride h * h_num_brokers h <= bytes.
Proof.
  intros Hb (W1 & W2 & W3 & W4 & W5) H. unfold attach_header_ok, sizeof_MailboxSegmentHeader, kCacheLine in H.
  bool_props. word_unfold.
  assert (h_up_base h + h_up_stride h * h_num_brokers h <= bytes) by (apply extent_fits; word_unfold; lia).
  assert (h_down_base h + h_down_stride h * h_num_brokers h <= bytes) by (apply extent_fits; word_unfold; lia).
  repeat match goal with H : context [(?a * ?b) mod _] |- _ => rewrite (Z.mod_small (a * b)) in H by nia end.
  repeat match goal with H : context [(?a + ?b) mod _] |- _ => rewrite (Z.mod_small (a + b)) in H by nia end.
  lia.
Qed.

(** A ring header is at [off], on a cache line, and its slots fit [len] bytes. *)
Definition attached (m : shm) (off len : Z) : Prop :=
  exists rh, s_rings m !! off = Some rh /\
    BytesNeeded (rh_record_size rh) (rh_capacity rh) <= len /\ (base +u off) mod kCacheLine = 0.

Lemma RingAttach_inv m off len r : RingAttach m off len = Some r -> r_off r = off /\ attached m off len.
Proof.
  unfold RingAttach. intros H.
  repeat match goal with
         | H : (_ ← CHECK _; _) = Some _ |- _ =>
             apply bind_Some in H as ([] & ?%CHECK_inv & H); bool_props
         | H : (_ ← _ !! _; _) = Some _ |- _ => apply bind_Some in H as (rh & ? & H)
         end.
  injection H as <-. split; [done|]. exists rh. split_and!; [done|lia|done].
Qed.

Lemma attach_loop h bs : forall m ups downs m' us ds,
  bind_loop false h bs m ups downs = Some (m', (us, ds)) ->
  m' = m /\ r_off <$> us = (r_off <$> ups) ++ (up_off h <$> bs) /\
  r_off <$> ds = (r_off <$> downs) ++ (down_off h <$> bs) /\
  forall b, b ∈ bs -> attached m (up_off h b) (h_up_stride h) /\ attached m (down_off h b) (h_down_stride h).
Proof.
  induction bs as [|b bs IH]; intros m ups downs m' us ds H; simpl in H.
  - simplify_eq. rewrite !app_nil_r. split_and!; [done..|]. by intros b Hb%elem_of_nil.
  - apply bind_Some in H as ([m1 u] & (r1 & H1%RingAttach_inv & E1)%bind_Some & H). simplify_eq.
    apply bind_Some in H as ([m2 d] & (r2 & H2%RingAttach_inv & E2)%bind_Some & H). simplify_eq.
    destruct H1 as [O1 A1], H2 as [O2 A2]. apply IH in H as (-> & -> & -> & Hall).
    rewrite !fmap_app, <- !app_assoc. simpl. rewrite O1, O2. split_and!; [done..|].
    intros b' [->|Hb]%elem_of_cons; [done|]. by apply Hall.
Qed.

Lemma regions_lookup h i o l :
  regions h !! i = Some (o, l) ->
  (exists b, 0 <= b < h_num_brokers h /\ Z.of_nat i = b /\ o = up_off h b /\ l = h_up_stride h) \/
  (exists b, 0 <= b < h_num_brokers h /\ Z.of_nat i = h_num_brokers h + b /\
     o = down_off h b /\ l = h_down_stride h).
Proof.
  unfold regions. rewrite lookup_app_Some, !list_lookup_fmap, length_fmap, brokers_length.
  intros [H|[Hi H]].
  - destruct (brokers _ !! _) as [b|] eqn:E; [|done]. apply brokers_lookup in E as [-> ?].
    left. exists (Z.of_nat i). simplify_option_eq. split_and!; (lia || done).
  - destruct (brokers _ !! _) as [b|] eqn:E; [|done]. apply brokers_lookup in E as [-> ?].
    right. exists (Z.of_nat (i - Z.to_nat (h_num_brokers h))). simplify_option_eq. split_and!; (lia || done).
Qed.

(** Without wrap-around. *)
Lemma offs_flat bytes h b :
  is_u64 bytes -> header_wf h -> attach_header_ok bytes h = true -> 0 <= b < h_num_brokers h ->
  up_off h b = h_up_base h + h_up_stride h * b /\ down_off h b = h_down_base h + h_down_stride h * b.
Proof.
  intros Hb Hw Ha Hbr. pose proof (attach_extents bytes h Hb Hw Ha) as (A1 & A2 & A3 & A4).
  destruct Hw as (W1 & W2 & W3 & W4 & W5). unfold up_off, down_off. word_unfold.
  assert (h_up_stride h * b <= h_up_stride h * h_num_brokers h) by nia.
  assert (h_down_stride h * b <= h_down_stride h * h_num_brokers h) by nia.
  rewrite !(Z.mod_small (_ * _)) by nia. rewrite !Z.mod_small by nia. done.
Qed.

Lemma regions_apart bytes h i j o l o' l' :
  is_u64 bytes -> header_wf h -> attach_header_ok bytes h = true -> (i < j)%nat ->
  regions h !! i = Some (o, l) -> regions h !! j = Some (o', l') -> o + l <= o'.
Proof.
  intros Hb Hw Ha Hij Hi Hj. pose proof (attach_extents bytes h Hb Hw Ha) as (A1 & A2 & A3 & A4).
  pose proof Hw as (W1 & W2 & W3 & W4 & W5). word_unfold.
  destruct (regions_lookup _ _ _ _ Hi) as [(b & B1 & B2 & -> & ->)|(b & B1 & B2 & -> & ->)];
    destruct (regions_lookup _ _ _ _ Hj) as [(c & C1 & C2 & -> & ->)|(c & C1 & C2 & -> & ->)];
    pose proof (offs_flat bytes h b Hb Hw Ha B1) as [F1 F2]; pose proof (offs_flat bytes h c Hb Hw Ha C1) as [G1 G2];
    rewrite ?F1, ?F2, ?G1, ?G2; nia.
Qed.

(** C38. A process that attaches to a segment, whatever the shared header holds, binds
    rings whose regions lie inside the mapped bytes and after the header, do
    not overlap one another, and hold the whole of the ring found in each. *)
Theorem attach_regions_safe bytes m seg :
  is_u64 bytes -> header_wf (s_hdr m) -> AttachInPlace bytes m = Some seg ->
  r_off <$> up_ seg ++ down_ seg = fst <$> regions (s_hdr m) /\
  (forall i o l, regions (s_hdr m) !! i = Some (o, l) ->
     64 <= o /\ o + l <= bytes /\ attached m o l) /\
  (forall i j o l o' l', (i < j)%nat -> regions (s_hdr m) !! i = Some (o, l) ->
     regions (s_hdr m) !! j = Some (o', l') -> o + l <= o').
Proof.
  intros Hb Hw H. unfold AttachInPlace, BindRings_attach, bind_rings in H.
  apply bind_Some in H as ([] & _ & H). apply bind_Some in H as ([] & _ & H).
  apply bind_Some in H as ([] & Ha%CHECK_inv & H).
  apply bind_Some in H as ([m' sg] & ((m'' & us & ds) & HL & Hs)%bind_Some & H). simplify_eq.
  apply attach_loop in HL as (_ & Hu & Hd & Hall).
  split_and!.
  - simpl. rewrite fmap_app, Hu, Hd. unfold regions. rewrite fmap_app, <- !list_fmap_compose. done.
  - intros i o l Hi. pose proof (attach_extents bytes _ Hb Hw Ha) as (A1 & A2 & A3 & A4).
    pose proof Hw as (W1 & W2 & W3 & W4 & W5). word_unfold.
    destruct (regions_lookup _ _ _ _ Hi) as [(b & B1 & B2 & -> & ->)|(b & B1 & B2 & -> & ->)];
      pose proof (offs_flat bytes _ b Hb Hw Ha B1) as [F1 F2];
      (split_and!; [rewrite ?F1, ?F2; nia..|by apply Hall, brokers_elem]).
  - intros i j o l o' l'. by apply (regions_apart bytes).
Qed.
End rings.

(** * A created segment can be attached *)

Lemma AlignUp_line n : 0 <= n < 2 ^ 64 - 64 -> AlignUp n kCacheLine = 64 * ((n + 63) / 64).
Proof.
  intros Hn. unfold AlignUp, kCacheLine. change (64 - 1) with 63. replace (n + 64 - 1) with (n + 63) by lia.
  apply land_line_mask. lia.
Qed.

(** The stride is a number of cache lines. *)
Lemma SlotStride_lines rs : is_u32 rs -> exists q, SlotStride rs = 64 * q /\ 0 <= q < 67108864.
Proof.
  intros Hrs. word_unfold. unfold SlotStride, sizeof_MailboxSlotHeader. change kCacheLine with 64. case_test.
  - exists 1. lia.
  - change 64 with kCacheLine at 2. rewrite AlignUp_line by lia. unfold u32.
    exists ((64 + rs + 63) / 64 mod 67108864).
    change 4294967296 with (64 * 67108864). rewrite Z.mul_mod_distr_l by lia. split; [done|].
    apply Z.mod_pos_bound. lia.
Qed.

(** [BytesNeeded] does not wrap on 32-bit parameters. *)
Lemma BytesNeeded_flat rs cap :
  is_u32 rs -> is_u32 cap ->
  BytesNeeded rs cap = 192 + SlotStride rs * cap /\ BytesNeeded rs cap mod 64 = 0 /\ 192 <= BytesNeeded rs cap.
Proof.
  intros Hrs Hc. destruct (SlotStride_lines rs Hrs) as (q & E & Hq). unfold BytesNeeded. rewrite E. word_unfold.
  change sizeof_MailboxRingHeader with 192.
  assert (64 * q * cap <= 64 * 67108863 * 4294967295) by nia.
  rewrite (Z.mod_small (64 * q * cap)) by nia. rewrite Z.mod_small by nia. split_and!; [done| |nia].
  replace (192 + 64 * q * cap) with ((3 + q * cap) * 64) by lia. apply Z.mod_mul. lia.
Qed.

(** The mapping of a process. *)
Definition mapping_ok (base bytes : Z) : Prop := 0 < base /\ base mod 64 = 0 /\ base + bytes < 2 ^ 64.

Lemma mapped base bytes off :
  mapping_ok base bytes -> 0 <= off <= bytes -> off mod 64 = 0 ->
  (base +u off =? 0) = false /\ (base +u off) mod kCacheLine = 0.
Proof.
  intros (H1 & H2 & H3) Ho Hm. rewrite u64_id by (word_unfold; lia). split; [lia|].
  change kCacheLine with 64. rewrite <- Z.add_mod_idemp_l, H2 by lia. done.
Qed.

Lemma RingAttach_fresh base bytes m off rs cap :
  mapping_ok base bytes -> 0 <= off <= bytes -> off mod 64 = 0 ->
  s_rings m !! off = Some (fresh_header rs cap) ->
  RingAttach base m off (BytesNeeded rs cap) = Some (mkRing off 0).
Proof.
  intros Hm Ho Ha Hl. destruct (mapped _ _ _ Hm Ho Ha) as [E1 E2]. unfold RingAttach.
  rewrite E1, E2, Hl. simpl. by rewrite (proj2 (Z.geb_le _ _)) by lia.
Qed.

Definition put_ring (m : shm) (off rs cap : Z) : shm :=
  mkShm (s_hdr m) (<[off := fresh_header rs cap]> (memset (s_rings m) off (BytesNeeded rs cap))).

Lemma RingCreate_fresh base bytes m off rs cap :
  mapping_ok base bytes -> 0 <= off <= bytes -> off mod 64 = 0 -> pow2_or_zero cap = true ->
  RingCreate base m off (BytesNeeded rs cap) rs cap = Some (put_ring m off rs cap, mkRing off 0).
Proof.
  intros Hm Ho Ha Hp. destruct (mapped _ _ _ Hm Ho Ha) as [E1 E2]. unfold RingCreate.
  rewrite E1, E2, Hp. cbn [CHECK negb mbind option_bind Z.eqb]. rewrite (proj2 (Z.geb_le _ _)) by lia.
  cbn [CHECK mbind option_bind]. fold (put_ring m off rs cap).
  rewrite (RingAttach_fresh _ _ _ _ _ _ Hm Ho Ha); [done|]. simpl. by rewrite lookup_insert_eq.
Qed.

Lemma put_ring_keep m off rs cap a h :
  s_rings m !! a = Some h -> 192 <= BytesNeeded rs cap -> a + 192 <= off \/ off + BytesNeeded rs cap <= a ->
  s_rings (put_ring m off rs cap) !! a = Some h.
Proof.
  intros Hl Hn Hd. simpl. rewrite lookup_insert_ne by lia. unfold memset. by apply map_lookup_filter_Some.
Qed.

Section created.
  Context (p : MailboxParams) (bytes : Z).
  Local Abbreviation n := (num_brokers p).
  Local Abbreviation rs := (record_size p).
  Local Abbreviation U := (BytesNeeded rs (up_capacity p)).
  Local Abbreviation D := (BytesNeeded rs (down_capacity p)).
  Context (Hn : 0 < n <= 4294967295) (Hrs : 0 < rs <= 4294967295).
  Context (Hup : 0 < up_capacity p <= 4294967295) (Hdn : 0 < down_capacity p <= 4294967295).
  Context (Hup2 : pow2_or_zero (up_capacity p) = true) (Hdn2 : pow2_or_zero (down_capacity p) = true).
  Context (Hbytes : is_u64 bytes) (Hsize : 64 + U * n + D * n <= bytes).

Lemma strides : U mod 64 = 0 /\ 192 <= U /\ D mod 64 = 0 /\ 192 <= D.
Proof.
  destruct (BytesNeeded_flat rs (up_capacity p)) as (_ & A & B); [word_unfold; lia..|].
  destruct (BytesNeeded_flat rs (down_capacity p)) as (_ & C & E); [word_unfold; lia..|]. done.
Qed.

Lemma created_offs b :
  0 <= b < n ->
  up_off (create_header p) b = 64 + U * b /\ down_off (create_header p) b = 64 + U * n + D * b /\
  64 + U * b + U <= 64 + U * n /\ 64 + U * n + D * b + D <= bytes /\
  (64 + U * b) mod 64 = 0 /\ (64 + U * n + D * b) mod 64 = 0.
Proof.
  intros Hb. destruct strides as (M1 & L1 & M2 & L2). unfold up_off, down_off, create_header. simpl.
  replace (AlignUp sizeof_MailboxSegmentHeader kCacheLine) with 64 by reflexivity. word_unfold.
  assert (U * b + U <= U * n) by nia. assert (D * b + D <= D * n) by nia.
  assert (0 <= U * b) by nia. assert (0 <= D * b) by nia.
  rewrite !(Z.mod_small (_ * _)) by lia. rewrite !(Z.mod_small (64 + _)) by lia. rewrite Z.mod_small by lia.
  split_and!; try done; try lia.
  - apply Z.mod_divide; [lia|]. apply Z.divide_add_r; [by exists 1|]. by apply Z.divide_mul_l, Z.mod_divide.
  - apply Z.mod_divide; [lia|]. repeat apply Z.divide_add_r; [by exists 1|..]; by apply Z.divide_mul_l, Z.mod_divide.
Qed.

(** The rings of broker [b] are in place. *)
Definition in_place (m : shm) (b : Z) : Prop :=
  s_rings m !! (64 + U * b) = Some (fresh_header rs (up_capacity p)) /\
  s_rings m !! (64 + U * n + D * b) = Some (fresh_header rs (down_capacity p)).

Definition up_view (b : Z) : ring_view := mkRing (64 + U * b) 0.
Definition down_view (b : Z) : ring_view := mkRing (64 + U * n + D * b) 0.

Lemma put_pair_in_place m b c :
  0 <= b < n -> 0 <= c < n -> (c = b \/ in_place m c) ->
  in_place (put_ring (put_ring m (64 + U * b) rs (up_capacity p)) (64 + U * n + D * b) rs (down_capacity p)) c.
Proof.
  intros Hb Hc H. destruct strides as (M1 & L1 & M2 & L2).
  assert (U * b + U <= U * n) by nia. assert (U * c + U <= U * n) by nia.
  destruct (decide (c = b)) as [->|Hne].
  - split; [|simpl; by rewrite lookup_insert_eq].
    apply put_ring_keep; [|lia|lia]. simpl. by rewrite lookup_insert_eq.
  - destruct H as [|[I1 I2]]; [done|].
    assert (U * c + U <= U * b \/ U * b + U <= U * c) by nia.
    assert (D * c + D <= D * b \/ D * b + D <= D * c) by nia.
    assert (0 <= D * c /\ 0 <= D * b) by nia.
    split; (apply put_ring_keep; [apply put_ring_keep; [done|lia|lia]|lia|lia]).
Qed.

Lemma create_loop base k : forall i m ups downs,
  mapping_ok base bytes -> Z.of_nat (i + k) <= n -> (forall b, 0 <= b < Z.of_nat i -> in_place m b) ->
  exists m', bind_loop base true (create_header p) (Z.of_nat <$> seq i k) m ups downs =
      Some (m', (ups ++ (up_view <$> (Z.of_nat <$> seq i k)), downs ++ (down_view <$> (Z.of_nat <$> seq i k)))) /\
    s_hdr m' = s_hdr m /\ (forall b, 0 <= b < Z.of_nat (i + k) -> in_place m' b).
Proof.
  induction k as [|k IH]; intros i m ups downs Hm Hk Hin; simpl.
  - exists m. rewrite !app_nil_r. replace (i + 0)%nat with i by lia. done.
  - destruct (created_offs (Z.of_nat i)) as (E1 & E2 & B1 & B2 & A1 & A2); [lia|].
    destruct strides as (_ & L1 & _ & L2).
    rewrite E1, E2, (RingCreate_fresh _ bytes) by (done || nia). simpl.
    rewrite (RingCreate_fresh _ bytes) by (done || nia). simpl.
    fold (put_ring m (64 + U * Z.of_nat i) rs (up_capacity p)).
    edestruct (IH (S i)) as (m' & HL & Hh & Hin'); [done|lia| |].
    2:{ exists m'. rewrite HL, <- !app_assoc. split_and!; [done|by rewrite Hh|].
        intros b Hb. apply Hin'. lia. }
    intros b Hb. apply put_pair_in_place; [lia|lia|]. destruct (decide (b = Z.of_nat i)); [by left|].
    right. apply Hin. lia.
Qed.

Lemma attach_loop_fresh base m bs : forall ups downs,
  mapping_ok base bytes -> (forall b, b ∈ bs -> 0 <= b < n /\ in_place m b) ->
  bind_loop base false (create_header p) bs m ups downs =
    Some (m, (ups ++ (up_view <$> bs), downs ++ (down_view <$> bs))).
Proof.
  induction bs as [|b bs IH]; intros ups downs Hm Hin; simpl; [by rewrite !app_nil_r|].
  destruct (Hin b) as [Hb [I1 I2]]; [by left|].
  destruct (created_offs b Hb) as (E1 & E2 & B1 & B2 & A1 & A2). destruct strides as (_ & L1 & _ & L2).
  rewrite E1, E2, (RingAttach_fresh _ bytes) by (done || nia). simpl.
  rewrite (RingAttach_fresh _ bytes) by (done || nia). simpl.
  rewrite IH by (try done; intros c Hc; apply Hin; by right). by rewrite <- !app_assoc.
Qed.

Lemma created_header_ok : attach_header_ok bytes (create_header p) = true.
Proof.
  destruct strides as (_ & L1 & _ & L2). unfold attach_header_ok, create_header. simpl.
  replace (AlignUp sizeof_MailboxSegmentHeader kCacheLine) with 64 by reflexivity.
  change sizeof_MailboxSegmentHeader with 64. rewrite !Z.eqb_refl, Hup2, Hdn2. word_unfold.
  assert (0 <= U * n) by nia. assert (0 <= D * n) by nia.
  rewrite !(Z.mod_small (U * n)) by lia. rewrite !(Z.mod_small (64 + _)) by lia.
  rewrite !(Z.mod_small (bytes - _)) by lia.
  assert (U <= (bytes - 64) / n) by (apply Z.div_le_lower_bound; lia).
  assert (D <= (bytes - (64 + U * n)) / n) by (apply Z.div_le_lower_bound; lia).
  repeat (apply andb_true_intro; split); lia.
Qed.

(** A segment created with positive power-of-two capacities in a region that
    holds it is bound, and any process that maps the region then attaches to
    the same rings, empty ones. *)
Theorem create_then_attach base base' m :
  mapping_ok base bytes -> mapping_ok base' bytes ->
  exists m' seg, CreateInPlace base bytes p m = Some (m', seg) /\ AttachInPlace base' bytes m' = Some seg /\
    up_ seg = up_view <$> brokers n /\ down_ seg = down_view <$> brokers n.
Proof.
  intros Hm Hm'. destruct (create_loop base (Z.to_nat n) 0 (mkShm (create_header p) (s_rings m)) [] [])
    as (m' & HL & Hh & Hin); [done|lia|lia|].
  exists m', (mkSegment n rs (broadcast_spin_bound p) (up_view <$> brokers n) (down_view <$> brokers n)).
  split_and!; [| |done..].
  - unfold CreateInPlace, BindRings_create, bind_rings. destruct Hm as (H1 & H2 & _). change kCacheLine with 64.
    rewrite H2. replace (base =? 0) with false by lia. simpl.
    assert (SegmentBytesNeeded p = 64 + U * n + D * n) as ->.
    { unfold SegmentBytesNeeded. replace (AlignUp sizeof_MailboxSegmentHeader kCacheLine) with 64 by reflexivity.
      destruct strides as (_ & L1 & _ & L2). word_unfold. assert (0 <= U * n) by nia. assert (0 <= D * n) by nia.
      rewrite (Z.mod_small (U * n)), (Z.mod_small (D * n)) by lia.
      rewrite (Z.mod_small (64 + U * n)) by lia. by rewrite Z.mod_small by lia. }
    rewrite (proj2 (Z.geb_le _ _)) by lia. simpl. rewrite !(proj2 (Z.gtb_lt _ _)) by lia. simpl.
    rewrite Hup2, Hdn2. simpl. unfold brokers. by rewrite HL.
  - unfold AttachInPlace, BindRings_attach, bind_rings. destruct (Hm') as (H1 & H2 & _). change kCacheLine with 64.
    rewrite H2. replace (base' =? 0) with false by lia. simpl. rewrite Hh. simpl. rewrite created_header_ok. simpl.
    rewrite attach_loop_fresh; [done|done|]. intros b [Hb1 Hb2]%brokers_elem. split; [done|]. apply Hin. lia.
Qed.
End created.

(** * The slots of a ring *)

(** The bytes of the slot that [index] selects, in a ring of 2^k slots. *)
Definition SlotOff (h : MailboxRingHeader) (index : Z) : Z :=
  rh_slots_offset h + slot_at (rh_capacity h) index * rh_slot_stride h.

(** A record of the largest size stays in its slot, and the slot in the ring. *)
Lemma slot_in_ring k rs index :
  0 <= k <= 31 -> 0 < rs <= 4294967295 - 127 ->
  let h := fresh_header rs (2 ^ k) in
  192 <= SlotOff h index /\ 64 + rs <= rh_slot_stride h /\ SlotOff h index + rh_slot_stride h <= BytesNeeded rs (2 ^ k).
Proof.
  intros Hk Hrs h. pose proof (capacity_pos (2 ^ k) k Hk eq_refl) as Hc.
  destruct (BytesNeeded_flat rs (2 ^ k)) as (-> & _); [word_unfold; lia..|].
  unfold SlotOff. simpl. change sizeof_MailboxRingHeader with 192.
  rewrite (slot_at_mod _ k Hk eq_refl). pose proof (Z.mod_pos_bound index (2 ^ k) ltac:(lia)).
  assert (64 + rs <= SlotStride rs).
  { unfold SlotStride, sizeof_MailboxSlotHeader. change kCacheLine with 64. rewrite (proj2 (Z.leb_gt _ _)) by lia.
    change 64 with kCacheLine at 3. rewrite AlignUp_line by lia.
    pose proof (Z.mul_div_le (64 + rs + 63) 64 ltac:(lia)). pose proof (Z.mod_pos_bound (64 + rs + 63) 64 ltac:(lia)).
    pose proof (Z.div_mod (64 + rs + 63) 64 ltac:(lia)). rewrite u32_id by (word_unfold; lia). lia. }
  split_and!; [nia|done|]. nia.
Qed.

(** Above that size the 32-bit stride wraps. *)
Example SlotStride_wraps : SlotStride 4294967295 = 64 /\ SlotStride 4294967232 = 0.
Proof. split; reflexivity. Qed.

(** * The broadcast *)

Record BroadcastStatus := mkStatus { wedged_count : Z; failed_count : Z; per_ring : list PerRingStatus }.

Section broadcast.
  Context (capacity record_size spin_bound : Z).
  (** What the broker of ring [b] and the caches do between the coordinator's
      [i]th turn on the ring and its next. *)
  Context (others : Z -> nat -> system -> system).

(** [TryProduceBounded], with [fuel] turns. *)
Fixpoint produce_run (b : Z) (fuel i : nat) (s : system) : option (result * system) :=
  match p_pc (prod s) with
  | PDone r => Some (r, s <| prod := (prod s) <| p_pc := PIdle |> |>)
  | _ => match fuel with
         | O => None
         | S fuel => produce_run b fuel (S i) (others b i (turn_producer capacity record_size s))
         end
  end.

Definition try_produce_bounded (b : Z) (fuel : nat) (record : list Z) (s : system) : option (PerRingStatus * system) :=
  match produce_run b fuel 0 (s <| prod := (prod s) <| p_pc := PCheck (TryProduceBounded record spin_bound) 0 |> |>) with
  | Some (RStatus st, s) => Some (st, s)
  | _ => None
  end.

Definition count_status (status : BroadcastStatus) (s : PerRingStatus) : BroadcastStatus :=
  mkStatus
    (match s with WEDGED => u32 (wedged_count status + 1) | _ => wedged_count status end)
    (match s with FULL => u32 (failed_count status + 1) | _ => failed_count status end)
    (per_ring status ++ [s]).

Fixpoint broadcast_loop (fuel : nat) (record : list Z) (b : Z) (down : list system) (status : BroadcastStatus)
    : option (BroadcastStatus * list system) :=
  match down with
  | [] => Some (status, [])
  | s :: down =>
      '(st, s) ← try_produce_bounded b fuel record s;
      '(status, down) ← broadcast_loop fuel record (b + 1) down (count_status status st);
      Some (status, s :: down)
  end.

Definition BroadcastDownNonBlocking (fuel : nat) (record : list Z) (down : list system) :=
  broadcast_loop fuel record 0 down (mkStatus 0 0 []).

(** The turns that a call can take: its spins, its lines, and the fixed ones. *)
Definition call_turns (record : list Z) : nat := Z.to_nat spin_bound + nlines (length record) + 6.

Context (others_ok : forall b i s, p_pc (prod (others b i s)) = p_pc (prod s) /\ sent (others b i s) = sent s).

(** The turns left, and what was already stamped, at a point of the call. *)
Definition turns_left (record : list Z) (pc : producer_pc) : nat :=
  match pc with
  | PCheck _ spin => Z.to_nat (spin_bound - spin) + nlines (length record) + 6
  | PLen _ _ => nlines (length record) + 5
  | PBody _ _ j => nlines (length record) - j + 4
  | PFence _ _ => 3 | PStamp _ _ => 2 | PPublish _ _ => 1 | _ => 0
  end.
Definition at_call (record : list Z) (before : list (list Z)) (s : system) : Prop :=
  match p_pc (prod s) with
  | PCheck c spin => c = TryProduceBounded record spin_bound /\ 0 <= spin <= Z.max 0 spin_bound /\ sent s = before
  | PLen c x | PBody c x _ | PFence c x | PStamp c x =>
      c = TryProduceBounded record spin_bound /\ x = record /\ sent s = before /\ len_of record <= record_size
  | PPublish c x =>
      c = TryProduceBounded record spin_bound /\ sent s = before ++ [record] /\ len_of record <= record_size
  | PDone r =>
      (r = RStatus SUCCESS /\ sent s = before ++ [record] /\ len_of record <= record_size) \/
      (r = RStatus FULL /\ sent s = before /\ record_size < len_of record) \/
      (r = RStatus WEDGED /\ sent s = before /\ len_of record <= record_size)
  | PIdle => False
  end.

Lemma at_call_turn record before s :
  at_call record before s -> (forall r, p_pc (prod s) <> PDone r) ->
  let s' := turn_producer capacity record_size s in
  at_call record before s' /\ (turns_left record (p_pc (prod s')) < turns_left record (p_pc (prod s)))%nat.
Proof.
  intros H Hnd. destruct s as [m p c st rc]. unfold at_call in *. simpl in *.
  unfold turn_producer, producer_turn, stamps. simpl.
  destruct (p_pc p) as [|c0 spin|c0 x|c0 x j|c0 x|c0 x|c0 x|r] eqn:E; try done.
  - destruct H as (-> & Hs & ->). unfold check_turn. simpl. rewrite app_nil_r.
    destruct (len_of record >? record_size) eqn:E1; simpl; [split; [|lia]; right; left; split_and!; [done..|lia]|].
    destruct (has_space _ _) eqn:E2; simpl; [split; [|lia]; split_and!; [done..|lia]|].
    destruct (spin >=? spin_bound) eqn:E3; simpl; [split; [|lia]; right; right; split_and!; [done..|lia]|].
    split; [split_and!; [done|lia..|done]|lia].
  - destruct H as (-> & -> & -> & Hl). simpl. rewrite app_nil_r. split; [done|lia].
  - destruct H as (-> & -> & -> & Hl). case_decide; simpl; rewrite app_nil_r; (split; [done|lia]).
  - destruct H as (-> & -> & -> & Hl). simpl. rewrite app_nil_r. split; [done|lia].
  - destruct H as (-> & -> & -> & Hl). simpl. split; [done|lia].
  - destruct H as (-> & -> & Hl). simpl. rewrite app_nil_r. split; [by left|lia].
  - by destruct (Hnd r).
Qed.

(** What a ring's status says of the ring. *)
Definition delivered (record : list Z) (s : system) (st : PerRingStatus) (s' : system) : Prop :=
  sent s' = sent s ++ (match st with SUCCESS => [record] | _ => [] end) /\
  (st = FULL <-> record_size < len_of record) /\ p_pc (prod s') = PIdle.

Lemma produce_run_ends b record before fuel : forall i s,
  at_call record before s -> (turns_left record (p_pc (prod s)) <= fuel)%nat ->
  exists st s', produce_run b fuel i s = Some (RStatus st, s') /\ p_pc (prod s') = PIdle /\
    sent s' = before ++ (match st with SUCCESS => [record] | _ => [] end) /\
    (st = FULL <-> record_size < len_of record).
Proof.
  induction fuel as [|fuel IH]; intros i s Ha Hf.
  all: destruct (p_pc (prod s)) as [|c0 spin|c0 x|c0 x j|c0 x|c0 x|c0 x|r] eqn:E;
    try (simpl in Hf; lia); try (unfold at_call in Ha; rewrite E in Ha; done).
  all: try (unfold at_call in Ha; simpl; rewrite E in Ha |- *;
    destruct Ha as [(-> & Es & ?)|[(-> & Es & ?)|(-> & Es & ?)]];
    eexists _, _; (split; [reflexivity|]); split_and!; simpl; rewrite ?app_nil_r; try done; (split; intros; (done || lia))).
  all: destruct (at_call_turn record before s Ha) as [Ha' Hlt]; [by rewrite E|];
    cbn [produce_run]; rewrite E;
    match type of Ha' with at_call _ _ ?t => destruct (others_ok b i t) as [O1 O2] end;
    (apply IH; [unfold at_call in *; by rewrite O1, O2|rewrite O1; rewrite E in Hlt; lia]).
Qed.

Lemma broadcast_loop_spec record down : forall b status,
  exists status' down',
    broadcast_loop (call_turns record) record b down status = Some (status', down') /\
    exists sts, per_ring status' = per_ring status ++ sts /\ Forall3 (delivered record) down sts down' /\
      wedged_count status' = foldl (fun n st => match st with WEDGED => u32 (n + 1) | _ => n end) (wedged_count status) sts /\
      failed_count status' = foldl (fun n st => match st with FULL => u32 (n + 1) | _ => n end) (failed_count status) sts.
Proof.
  induction down as [|s down IH]; intros b status; simpl.
  - exists status, []. split; [done|]. exists []. rewrite app_nil_r. split_and!; [done|constructor|done..].
  - unfold try_produce_bounded.
    edestruct (produce_run_ends b record (sent s) (call_turns record) 0) as (st & s' & -> & Hi & Hs & Hfull).
    3:{ simpl. destruct (IH (b + 1) (count_status status st)) as (status' & down' & -> & sts & Hp & H3 & Hw & Hf).
        simpl in *. exists status', (s' :: down'). split; [done|]. exists (st :: sts).
        rewrite Hp, <- app_assoc. split_and!; [done| |by rewrite Hw|by rewrite Hf].
        constructor; [|done]. done. }
    + unfold at_call. simpl. split_and!; [done|lia|lia|done].
    + simpl. unfold call_turns. lia.
Qed.

(** [BroadcastDown]: a ring that rejects the record aborts. *)
Definition BroadcastDown (fuel : nat) (record : list Z) (down : list system) : option (BroadcastStatus * list system) :=
  '(status, down) ← BroadcastDownNonBlocking fuel record down;
  _ ← CHECK (failed_count status =? 0);
  Some (status, down).

#[local] Instance status_eq_dec : EqDecision PerRingStatus.
Proof. solve_decision. Defined.

Lemma tally (want : PerRingStatus) sts : forall n,
  0 <= n -> n + Z.of_nat (length sts) < 2 ^ 32 ->
  foldl (fun n st => if decide (st = want) then u32 (n + 1) else n) n sts =
    n + Z.of_nat (length (filter (fun st => st = want) sts)).
Proof.
  induction sts as [|st sts IH]; intros n Hn Hb; simpl in *; [lia|]. rewrite filter_cons.
  destruct (decide (st = want)); [|rewrite IH by lia; lia].
  rewrite u32_id by (word_unfold; lia). rewrite IH by lia. simpl. lia.
Qed.
Lemma tally_wedged sts n :
  foldl (fun n st => match st with WEDGED => u32 (n + 1) | _ => n end) n sts =
  foldl (fun n st => if decide (st = WEDGED) then u32 (n + 1) else n) n sts.
Proof. revert n. induction sts as [|[] sts IH]; intros n; simpl; apply IH || done. Qed.
Lemma no_full_no_fail sts n :
  Forall (fun st => st <> FULL) sts ->
  foldl (fun n st => match st with FULL => u32 (n + 1) | _ => n end) n sts = n.
Proof. revert n. induction sts as [|[] sts IH]; intros n; rewrite ?Forall_cons; simpl; naive_solver. Qed.

(** The broadcast of a record that fits always returns, whatever the brokers do
    or fail to do: each ring is reported delivered exactly when the record was
    stamped in it, the other rings are left as they were, and the wedged rings
    are counted. *)
Theorem broadcast_isolated record down :
  len_of record <= record_size -> Z.of_nat (length down) < 2 ^ 32 ->
  exists status down',
    BroadcastDown (call_turns record) record down = Some (status, down') /\
    Forall3 (delivered record) down (per_ring status) down' /\
    Forall (fun st => st = SUCCESS \/ st = WEDGED) (per_ring status) /\
    wedged_count status = Z.of_nat (length (filter (fun st => st = WEDGED) (per_ring status))).
Proof.
  intros Hfit Hlen. unfold BroadcastDown, BroadcastDownNonBlocking.
  destruct (broadcast_loop_spec record down 0 (mkStatus 0 0 [])) as (status & down' & -> & sts & Hp & H3 & Hw & Hf).
  simpl in *. subst sts. assert (length (per_ring status) = length down) as Hl.
  { clear -H3. induction H3; simpl; congruence. }
  assert (Forall (fun st => st <> FULL) (per_ring status)) as HF.
  { clear -H3 Hfit. induction H3 as [|s st s' ? ? ? [_ [Hd _]]]; constructor; [|done]. intros Hst%Hd. lia. }
  exists status, down'. rewrite Hf, no_full_no_fail by done. split_and!; [done|done| |].
  - eapply Forall_impl; [exact HF|]. intros [] Hst; [by left|done|by right].
  - rewrite Hw, tally_wedged, tally by lia. lia.
Qed.
End broadcast.
End MailboxSegment.

Import MailboxSegment.

(** A segment of two brokers. *)
Definition seg_params : MailboxParams := mkParams 2 512 4 8 10240.
Definition seg_zero : shm := mkShm (mkSegmentHeader 0 0 0 0 0 0 0 0 0 0 0) ∅.
Definition seg_created : shm :=
  match CreateInPlace 4096 16384 seg_params seg_zero with Some (m, _) => m | None => seg_zero end.

Lemma attach_regions_safe_witness :
  exists seg, AttachInPlace 8192 16384 seg_created = Some seg /\
    r_off <$> up_ seg ++ down_ seg = [64; 2560; 5056; 9856].
Proof.
  destruct (AttachInPlace 8192 16384 seg_created) as [seg|] eqn:E; [|exfalso; revert E; vm_compute; done].
  exists seg. split; [done|].
  rewrite (proj1 (attach_regions_safe 8192 16384 seg_created seg ltac:(word_unfold; lia)
    ltac:(unfold header_wf; vm_compute; intuition discriminate) E)).
  vm_compute. reflexivity.
Defined.

Lemma create_then_attach_witness :
  exists m' seg, CreateInPlace 4096 16384 seg_params seg_zero = Some (m', seg) /\
    AttachInPlace 8192 16384 m' = Some seg.
Proof.
  destruct (create_then_attach seg_params 16384 ltac:(cbn; lia) ltac:(cbn; lia) ltac:(cbn; lia) ltac:(cbn; lia)
    eq_refl eq_refl ltac:(word_unfold; lia) ltac:(vm_compute; discriminate) 4096 8192 seg_zero
    ltac:(split_and!; reflexivity) ltac:(split_and!; reflexivity)) as (m' & seg & H1 & H2 & _).
  by exists m', seg.
Defined.

(** A capacity of zero passes the creator's checks and no attach. *)
Example zero_capacity_created :
  match CreateInPlace 4096 16384 (mkParams 1 512 0 8 0) seg_zero with
  | Some (m, _) => AttachInPlace 8192 16384 m = None
  | None => False
  end.
Proof. vm_compute. reflexivity. Qed.

(** Two brokers: the first ring is full, since its broker is gone. *)
Definition full_ring : system :=
  foldl (act 1 512 512) mailbox_start ([ACall (TryProduce [7])] ++ repeat AProducer 7 ++ [AReturn]).

Lemma broadcast_isolated_witness :
  exists status down',
    BroadcastDown 1 512 3 (fun _ _ s => s) (call_turns 3 [1; 2]) [1; 2] [full_ring; mailbox_start] =
      Some (status, down') /\ per_ring status = [WEDGED; SUCCESS].
Proof.
  destruct (broadcast_isolated 1 512 3 (fun _ _ s => s) ltac:(done) [1; 2] [full_ring; mailbox_start]) as
    (status & down' & H & _); [vm_compute; congruence|vm_compute; reflexivity|].
  exists status, down'. split; [done|]. revert H. vm_compute. intros [= <- <-]. reflexivity.
Defined.
