(* ===== verification/MailboxSequencer.v ===== *)
(** The poll loop that the coordinators of the baselines run over mailbox rings:
    drain the up rings, decide, broadcast on the down rings.  The loop is that
    of src/cxl_manager/scalog_mailbox_sequencer.cc and
    src/cxl_manager/lazylog_mailbox_sequencer.cc, over a core that is an
    argument. *)

From S2P Require Import Prelude.

(** What a coordinator's core offers the loop: [add] takes in one record of an up
    ring, [emit] decides; [None] is a failed CHECK. *)
Class PollCore (C M R : Type) := {
  add : C -> M -> C;
  emit : C -> option (option R * C);
}.

(** The records that a well-formed core can still meet. *)
Class PollCoreOk (C M R : Type) `{PollCore C M R} := {
  core_ok : C -> Prop;
  msg_ok : M -> Prop;
  add_ok : forall c m, core_ok c -> msg_ok m -> core_ok (add c m);
  emit_ok : forall c, core_ok c -> exists r c', emit c = Some (r, c') /\ core_ok c';
}.

Module MailboxSequencer.
Section poll.
  Context {C M R : Type} `{PollCore C M R}.
  (** The records of each broker that the loop takes in a pass. *)
  Context (K : nat).
  (** Whether the ring of a broker stays full for the whole of the bounded
      broadcast of a round. *)
  Context (wedged : nat -> nat -> bool).

(** The rings as queues: the records not yet consumed of each up ring, those
    delivered on each down ring, and those that each wedged ring missed. *)
Record poll := mkPoll {
  p_core : C;
  p_up : list (list M);
  p_down : list (list R);
  p_missed : list (list R);
  p_round : nat;
}.

Definition DrainBroker (c : C) (q : list M) : C * list M * nat :=
  (foldl add c (take K q), drop K q, length (take K q)).

Fixpoint drain_all (c : C) (ups : list (list M)) : C * list (list M) * nat :=
  match ups with
  | [] => (c, [], 0%nat)
  | q :: ups =>
      let '(c, q, n) := DrainBroker c q in
      let '(c, ups, n') := drain_all c ups in
      (c, q :: ups, (n + n')%nat)
  end.

Definition broadcast (round : nat) (r : R) (downs : list (list R)) : list (list R) :=
  imap (fun b d => if wedged round b then d else d ++ [r]) downs.
Definition miss (round : nat) (r : R) (missed : list (list R)) : list (list R) :=
  imap (fun b d => if wedged round b then d ++ [r] else d) missed.

(** One pass of the loop, and whether it made progress. *)
Definition pass (s : poll) : option (poll * bool) :=
  let '(c, ups, drained) := drain_all (p_core s) (p_up s) in
  if (drained =? 0)%nat then Some (mkPoll c ups (p_down s) (p_missed s) (p_round s), false)
  else
    '(r, c) ← emit c;
    match r with
    | None => Some (mkPoll c ups (p_down s) (p_missed s) (p_round s), true)
    | Some r =>
        Some (mkPoll c ups (broadcast (p_round s) r (p_down s)) (miss (p_round s) r (p_missed s))
          (S (p_round s)), true)
    end.

(** The loop once [Stop] was called: it ends after a pass without progress. *)
Fixpoint Run (fuel : nat) (s : poll) : option poll :=
  match fuel with
  | O => None
  | S fuel =>
      '(s, made_progress) ← pass s;
      if made_progress : bool then Run fuel s else Some s
  end.

(** The records that wait. *)
Definition backlog (ups : list (list M)) : nat := sum_list_with length ups.

Lemma drain_all_backlog ups : forall c c' ups' n,
  drain_all c ups = (c', ups', n) -> (backlog ups' + n = backlog ups)%nat /\ length ups' = length ups.
Proof.
  induction ups as [|q ups IH]; intros c c' ups' n E; simpl in E; [by simplify_eq|].
  destruct (drain_all _ ups) as [[c1 ups1] n1] eqn:E1. simplify_eq.
  destruct (IH _ _ _ _ E1) as [IH1 IH2]. unfold backlog in *. simpl. rewrite length_drop, length_take. lia.
Qed.

Lemma drain_none ups : (0 < K)%nat -> forall c c' ups', drain_all c ups = (c', ups', 0%nat) -> backlog ups = 0%nat.
Proof.
  intros HK. induction ups as [|q ups IH]; intros c c' ups' E; simpl in E; [done|].
  destruct (drain_all _ ups) as [[c1 ups1] n1] eqn:E1. simplify_eq.
  assert (n1 = 0%nat) as -> by lia. rewrite length_take in *. unfold backlog in *. simpl.
  rewrite (IH _ _ _ E1). lia.
Qed.

Context `{!PollCoreOk C M R}.

Lemma foldl_add_ok q : forall c, core_ok c -> Forall msg_ok q -> core_ok (foldl add c q).
Proof.
  induction q as [|m q IH]; intros c Hc Hq; [done|]. apply Forall_cons in Hq as [H1 H2]. apply IH; [|done].
  by apply add_ok.
Qed.

Lemma drain_all_ok ups : forall c c' ups' n,
  core_ok c -> Forall (Forall msg_ok) ups -> drain_all c ups = (c', ups', n) ->
  core_ok c' /\ Forall (Forall msg_ok) ups'.
Proof.
  induction ups as [|q ups IH]; intros c c' ups' n Hc Hu E; simpl in E; [by simplify_eq|].
  destruct (drain_all _ ups) as [[c1 ups1] n1] eqn:E1. simplify_eq. apply Forall_cons in Hu as [H1 H2].
  destruct (IH _ _ _ _ (foldl_add_ok _ _ Hc (Forall_take _ _ _ H1)) H2 E1) as [? ?].
  split; [done|]. constructor; [by apply Forall_drop|done].
Qed.

(** The loop drains the rings and ends. *)
Lemma Run_ends (I : poll -> Prop) :
  (0 < K)%nat -> (forall s s' b, core_ok (p_core s) -> I s -> pass s = Some (s', b) -> I s') ->
  forall fuel s, (backlog (p_up s) < fuel)%nat -> core_ok (p_core s) -> Forall (Forall msg_ok) (p_up s) -> I s ->
  exists s', Run fuel s = Some s' /\ backlog (p_up s') = 0%nat /\ length (p_up s') = length (p_up s) /\ I s'.
Proof.
  intros HK HI. induction fuel as [|fuel IH]; intros s Hf Hc Hm Hs; [lia|]. simpl.
  assert (exists s' b, pass s = Some (s', b) /\ core_ok (p_core s') /\ Forall (Forall msg_ok) (p_up s') /\
    length (p_up s') = length (p_up s) /\
    (if b then (backlog (p_up s') < backlog (p_up s))%nat else backlog (p_up s') = 0%nat)) as (s' & b & E & Hc' & Hm' & Hl & Hb).
  { unfold pass. destruct (drain_all _ _) as [[c ups] n] eqn:E.
    destruct (drain_all_ok _ _ _ _ _ Hc Hm E) as [Hc' Hm']. destruct (drain_all_backlog _ _ _ _ _ E) as [Hbl Hl].
    destruct (n =? 0)%nat eqn:En.
    - apply Nat.eqb_eq in En as ->. eexists _, _. split; [done|]. pose proof (drain_none _ HK _ _ _ E).
      simpl. split_and!; [done..|lia].
    - apply Nat.eqb_neq in En. destruct (emit_ok c Hc') as ([r|] & c' & -> & Hok); simpl;
        eexists _, _; (split; [done|]); simpl; (split_and!; [done..|lia]). }
  rewrite E. simpl. specialize (HI _ _ _ Hc Hs E). destruct b.
  - destruct (IH s') as (s'' & -> & H1 & H2 & H3); [lia|done..|]. exists s''. split_and!; [done..|congruence|done].
  - exists s'. done.
Qed.
End poll.
#[global] Arguments poll : clear implicits.
End MailboxSequencer.
