(* ===== verification/GlobalCut.v ===== *)
(** The Scalog baseline: the global-cut core of
    src/cxl_manager/scalog_global_ordering_core.cc and the sequencer that runs
    it over mailbox rings, src/cxl_manager/scalog_mailbox_sequencer.cc. *)

From S2P Require Import Prelude.
From S2P Require Import MailboxSequencer.

Module ScalogGlobalOrderingCore.

(** broker -> replica -> value *)
Abbreviation by_replica := (gmap Z (gmap Z Z)).

Record core := mkCore {
  cumulative_cut : by_replica;
  logical_offsets : by_replica;
  last_epoch : by_replica;
  registered_brokers : gset Z;
  num_replicas_per_broker : Z;
  last_emitted_epoch : Z;
}.
#[global] Instance eta_core : Eta core := fun c =>
  mkCore (cumulative_cut c) (logical_offsets c) (last_epoch c) (registered_brokers c)
    (num_replicas_per_broker c) (last_emitted_epoch c).

Definition core_init (num_replicas : Z) : core := mkCore ∅ ∅ ∅ ∅ num_replicas (-1).

(** [m[b][r]], and [m[b][r] = x], which default-constructs the inner map. *)
Definition at_replica (m : by_replica) (b r : Z) : option Z := m !! b ≫= (fun rm => rm !! r).
Definition set_replica (m : by_replica) (b r x : Z) : by_replica := <[b := <[r := x]> (default ∅ (m !! b))]> m.

Definition RegisterBroker (c : core) (broker_id replication_factor : Z) : core :=
  (if broker_id =? 0 then c <| num_replicas_per_broker := replication_factor |> else c)
    <| registered_brokers := {[broker_id]} ∪ registered_brokers c |>.

Definition AddLocalCut (c : core) (broker_id replica_id epoch local_cut : Z) : core :=
  let previous_cut := default 0 (at_replica (logical_offsets c) broker_id replica_id) in
  if local_cut <? previous_cut then c
  else
    let cumulative := default 0 (at_replica (cumulative_cut c) broker_id replica_id) in
    let tracked_epoch := default 0 (at_replica (last_epoch c) broker_id replica_id) in
    c <| cumulative_cut := set_replica (cumulative_cut c) broker_id replica_id
           (cumulative + (local_cut - previous_cut)) |>
      <| logical_offsets := set_replica (logical_offsets c) broker_id replica_id local_cut |>
      <| last_epoch := set_replica (last_epoch c) broker_id replica_id (Z.max tracked_epoch epoch) |>.

(** [std::min_element], by value. *)
Fixpoint min_element (l : list Z) : option Z :=
  match l with
  | [] => None
  | x :: l => Some (match min_element l with Some y => Z.min x y | None => x end)
  end.
Definition values {A} (m : gmap Z A) : list A := (map_to_list m).*2.

Definition total_num_replicas (m : by_replica) : nat := map_fold (fun _ rm n => (size rm + n)%nat) 0%nat m.

(** The durable prefix of one broker. *)
Definition broker_cut (num_replicas_per_broker : Z) (replicas : gmap Z Z) : Z :=
  if decide (replicas = ∅) then 0
  else if Z.of_nat (size replicas) <? num_replicas_per_broker then 0
  else default 0 (min_element (values replicas)).

(** The oldest of the replicas' latest epochs. *)
Definition closed_epoch (m : by_replica) : option Z := min_element (values m ≫= values).

(** The result of [ComputeGlobalCut]: the cut and [out_epoch], when ready. *)
Definition ComputeGlobalCut (c : core) (expected_brokers : Z) (use_epoch_barrier : bool)
    : option (gmap Z Z * Z) * core :=
  let streams_per_broker := Z.max 1 (num_replicas_per_broker c) in
  let expected_replicas := u64 expected_brokers *u streams_per_broker in
  if negb (Z.of_nat (total_num_replicas (cumulative_cut c)) =? expected_replicas) then (None, c)
  else
    let cut := broker_cut (num_replicas_per_broker c) <$> cumulative_cut c in
    if use_epoch_barrier then
      match closed_epoch (last_epoch c) with
      | None => (None, c)
      | Some min_epoch =>
          if min_epoch <=? last_emitted_epoch c then (None, c)
          else (Some (cut, min_epoch), c <| last_emitted_epoch := min_epoch |>)
      end
    else (Some (cut, -1), c).

(** * Runs *)
Inductive op :=
  | Register (broker_id replication_factor : Z)
  | LocalCut (broker_id replica_id epoch local_cut : Z)
  | Compute (expected_brokers : Z) (use_epoch_barrier : bool).

Definition do_op (c : core) (o : op) : core :=
  match o with
  | Register b rf => RegisterBroker c b rf
  | LocalCut b r e x => AddLocalCut c b r e x
  | Compute n barrier => (ComputeGlobalCut c n barrier).2
  end.

(** The largest cut that replica [r] of broker [b] has reported. *)
Definition report_of (b r : Z) (o : op) : option Z :=
  match o with
  | LocalCut b' r' _ x => if decide (b = b' /\ r = r' /\ 0 <= x) then Some x else None
  | _ => None
  end.
Definition join (x y : option Z) : option Z :=
  match x, y with Some x, Some y => Some (Z.max x y) | Some x, None => Some x | None, _ => y end.
Definition high_water (ops : list op) (b r : Z) : option Z :=
  foldl (fun acc o => join acc (report_of b r o)) None ops.

(** * Lemmas on the nested maps *)

Lemma at_set m b r x b' r' :
  at_replica (set_replica m b r x) b' r' = if decide (b = b' /\ r = r') then Some x else at_replica m b' r'.
Proof.
  unfold at_replica, set_replica. destruct (decide (b = b')) as [<-|Hb].
  - rewrite lookup_insert_eq. simpl. destruct (decide (r = r')) as [<-|Hr].
    + by rewrite lookup_insert_eq, decide_True.
    + rewrite lookup_insert_ne by done. rewrite decide_False by naive_solver. by destruct (m !! b).
  - rewrite lookup_insert_ne by done. by rewrite decide_False by naive_solver.
Qed.

Lemma min_element_le l v : min_element l = Some v -> v ∈ l /\ forall x, x ∈ l -> v <= x.
Proof.
  revert v. induction l as [|x l IH]; intros v H; [done|]. simpl in H. injection H as <-.
  destruct (min_element l) as [y|] eqn:E.
  - destruct (IH y eq_refl) as [Hy Hl]. split.
    + destruct (Z.min_spec x y) as [[_ ->]|[_ ->]]; [by left|by right].
    + intros z [->|Hz]%elem_of_cons; [lia|]. specialize (Hl z Hz). lia.
  - split; [by left|]. intros z [->|Hz]%elem_of_cons; [lia|]. destruct l; [by apply elem_of_nil in Hz|done].
Qed.
Lemma min_element_some l x : x ∈ l -> exists v, min_element l = Some v.
Proof. destruct l; [by intros ?%elem_of_nil|]. simpl. eauto. Qed.

Lemma elem_of_values {A} (m : gmap Z A) x : x ∈ values m <-> exists k, m !! k = Some x.
Proof.
  unfold values. rewrite list_elem_of_fmap. split.
  - intros ([k y] & -> & Hk). apply elem_of_map_to_list in Hk. by exists k.
  - intros [k Hk]. exists (k, x). split; [done|]. by apply elem_of_map_to_list.
Qed.

(** The cut of a broker: zero below the replication factor, else the least
    value, which some replica has. *)
Lemma broker_cut_spec rf m :
  (broker_cut rf m = 0 /\ Z.of_nat (size m) < Z.max 1 rf) \/
  (Z.max 1 rf <= Z.of_nat (size m) /\ (exists r, m !! r = Some (broker_cut rf m)) /\
   forall r x, m !! r = Some x -> broker_cut rf m <= x).
Proof.
  unfold broker_cut. case_decide as He; [subst m; left; rewrite map_size_empty; split; [done|lia]|].
  assert (size m <> 0%nat) by (by apply map_size_non_empty_iff).
  case_test; [left; split; [done|lia]|right].
  destruct (map_choose m He) as (k & x & Hx).
  destruct (min_element_some (values m) x) as [v Hv]; [apply elem_of_values; eauto|].
  rewrite Hv. destruct (min_element_le _ _ Hv) as [Hin Hle]. simpl. split; [lia|]. split.
  - by apply elem_of_values.
  - intros r y Hy. apply Hle, elem_of_values. eauto.
Qed.

(** * The invariant: the accumulated cuts are the latest reports *)
Record core_inv (ops : list op) (c : core) : Prop := {
  ci_offsets : forall b r, at_replica (logical_offsets c) b r = high_water ops b r;
  ci_same : cumulative_cut c = logical_offsets c;
  ci_nonneg : forall b r x, high_water ops b r = Some x -> 0 <= x;
  ci_inner : forall b rm, cumulative_cut c !! b = Some rm -> rm <> ∅;
}.

Lemma high_water_snoc ops o b r : high_water (ops ++ [o]) b r = join (high_water ops b r) (report_of b r o).
Proof. unfold high_water. by rewrite foldl_app. Qed.

Lemma join_none x : join x None = x.
Proof. by destruct x. Qed.

Lemma high_water_cut ops b r e x b' r' :
  (forall y, high_water ops b' r' = Some y -> 0 <= y) ->
  high_water (ops ++ [LocalCut b r e x]) b' r' =
    if decide (b = b' /\ r = r') then
      if x <? default 0 (high_water ops b r) then high_water ops b r else Some x
    else high_water ops b' r'.
Proof.
  intros Hn. rewrite high_water_snoc. simpl. destruct (decide (b = b' /\ r = r')) as [[<- <-]|Hne].
  - destruct (high_water ops b r) as [y|]; simpl.
    + specialize (Hn y eq_refl). case_decide; case_test; simpl; try done; try (f_equal; lia); lia.
    + case_decide; case_test; (done || lia).
  - rewrite decide_False by naive_solver. apply join_none.
Qed.

Lemma core_inv_same ops c o :
  core_inv ops c -> (forall b r, report_of b r o = None) ->
  cumulative_cut (do_op c o) = cumulative_cut c -> logical_offsets (do_op c o) = logical_offsets c ->
  core_inv (ops ++ [o]) (do_op c o).
Proof.
  intros [H1 H2 H3 H4] Hn E1 E2.
  split; intros *; rewrite ?E1, ?E2, ?high_water_snoc, ?Hn, ?join_none; eauto.
Qed.

Lemma AddLocalCut_inv ops c b r e x :
  core_inv ops c -> core_inv (ops ++ [LocalCut b r e x]) (AddLocalCut c b r e x).
Proof.
  intros [H1 H2 H3 H4].
  assert (forall b' r', high_water (ops ++ [LocalCut b r e x]) b' r' = _) as HW
    by (intros b' r'; apply high_water_cut, H3).
  unfold AddLocalCut. rewrite H1. destruct (x <? default 0 (high_water ops b r)) eqn:E.
  - assert (forall b' r', high_water (ops ++ [LocalCut b r e x]) b' r' = high_water ops b' r') as HW'.
    { intros b' r'. rewrite HW. case_decide as Hd; [by destruct Hd as [<- <-]|done]. }
    split; [intros b' r'; by rewrite HW'|done| |done]. intros b' r' y. rewrite HW'. apply H3.
  - split; cbn -[set_replica].
    + intros b' r'. by rewrite HW, at_set, H1.
    + rewrite H2, H1. by replace (default 0 (high_water ops b r) + (x - default 0 (high_water ops b r))) with x by lia.
    + intros b' r' y. rewrite HW. case_decide; [|apply H3]. intros [= <-].
      destruct (high_water ops b r) as [z|] eqn:Ez; simpl in E; [specialize (H3 _ _ _ Ez)|]; lia.
    + intros b' rm. unfold set_replica. destruct (decide (b = b')) as [<-|Hb].
      * rewrite lookup_insert_eq. intros [= <-]. apply insert_non_empty.
      * rewrite lookup_insert_ne by done. apply H4.
Qed.

Lemma Compute_keeps c n barrier :
  let c' := (ComputeGlobalCut c n barrier).2 in
  cumulative_cut c' = cumulative_cut c /\ logical_offsets c' = logical_offsets c /\
  last_epoch c' = last_epoch c /\ num_replicas_per_broker c' = num_replicas_per_broker c.
Proof.
  unfold ComputeGlobalCut. case_test; [done|]. destruct barrier; [|done].
  destruct (closed_epoch _); [|done]. by case_test.
Qed.

Lemma cut_op_inv ops c o : core_inv ops c -> core_inv (ops ++ [o]) (do_op c o).
Proof.
  intros Hi. destruct o as [b rf|b r e x|n barrier].
  - apply core_inv_same; [done..| |]; unfold do_op, RegisterBroker; by case_test.
  - by apply AddLocalCut_inv.
  - destruct (Compute_keeps c n barrier) as (? & ? & _). by apply core_inv_same.
Qed.

Lemma cut_run_inv rf ops : core_inv ops (foldl do_op (core_init rf) ops).
Proof.
  induction ops as [|o ops IH] using rev_ind.
  - split; intros *; simpl; unfold at_replica; rewrite ?lookup_empty; done.
  - rewrite foldl_app. by apply cut_op_inv.
Qed.

(** * Counting replicas *)

Lemma total_insert m b rm :
  m !! b = None -> total_num_replicas (<[b := rm]> m) = (size rm + total_num_replicas m)%nat.
Proof. intros Hb. unfold total_num_replicas. rewrite map_fold_insert_L; [done| |done]. intros. lia. Qed.
Lemma total_delete m b rm :
  m !! b = Some rm -> total_num_replicas m = (size rm + total_num_replicas (delete b m))%nat.
Proof.
  intros Hb. rewrite <- (insert_delete_id m b rm Hb) at 1. by rewrite total_insert by apply lookup_delete_eq.
Qed.
Lemma total_nonempty m b rm : m !! b = Some rm -> rm <> ∅ -> (0 < total_num_replicas m)%nat.
Proof.
  intros Hb Hne. rewrite (total_delete m b rm Hb). assert (size rm <> 0%nat) by (by apply map_size_non_empty_iff). lia.
Qed.

Definition within (m m' : by_replica) : Prop :=
  forall b rm, m !! b = Some rm -> exists rm', m' !! b = Some rm' /\ dom rm ⊆ dom rm'.

(** A set of replica streams that did not change in number did not change. *)
Lemma within_total m : forall m',
  within m m' -> (forall b rm, m' !! b = Some rm -> rm <> ∅) ->
  (total_num_replicas m <= total_num_replicas m')%nat /\
  (total_num_replicas m = total_num_replicas m' ->
   dom m = dom m' /\ forall b rm rm', m !! b = Some rm -> m' !! b = Some rm' -> dom rm = dom rm').
Proof.
  induction m as [|b rm m Hb IH] using map_ind; intros m' Hw Hne.
  - split; [unfold total_num_replicas; rewrite map_fold_empty; lia|]. intros Ht.
    assert (m' = ∅) as ->; [|done]. apply map_empty. intros b. destruct (m' !! b) as [rm|] eqn:E; [|done].
    pose proof (total_nonempty _ _ _ E (Hne _ _ E)). unfold total_num_replicas at 1 in Ht.
    rewrite map_fold_empty in Ht. lia.
  - destruct (Hw b rm) as (rm' & Hb' & Hd); [by rewrite lookup_insert_eq|].
    rewrite total_insert, (total_delete m' b rm' Hb') by done.
    pose proof (subseteq_size _ _ Hd) as Hs. rewrite !size_dom in Hs.
    destruct (IH (delete b m')) as [IH1 IH2].
    { intros k x Hk. destruct (decide (k = b)) as [->|Hne']; [congruence|].
      rewrite lookup_delete_ne by done. apply Hw. by rewrite lookup_insert_ne. }
    { intros k x [_ Hk]%lookup_delete_Some. by apply (Hne k). }
    split; [lia|]. intros Ht. destruct IH2 as [D1 D2]; [lia|].
    assert (dom rm = dom rm') as Hdd by (apply set_subseteq_size_eq; [done|rewrite !size_dom; lia]).
    split.
    + rewrite dom_insert_L, D1, dom_delete_L. apply elem_of_dom_2 in Hb'. 
      rewrite <- union_difference_L; set_solver.
    + intros k x y Hx Hy. destruct (decide (k = b)) as [->|Hkb]; [rewrite lookup_insert_eq in Hx; congruence|].
      rewrite lookup_insert_ne in Hx by done. eapply D2; [done|]. by rewrite lookup_delete_ne.
Qed.

Lemma high_water_grows ops ops' b r x :
  high_water ops b r = Some x -> exists y, high_water (ops ++ ops') b r = Some y /\ x <= y.
Proof.
  intros Hx. induction ops' as [|o ops' IH] using rev_ind; [rewrite app_nil_r; eauto with lia|].
  destruct IH as (y & Hy & Hxy). rewrite app_assoc, high_water_snoc, Hy.
  destruct (report_of b r o) as [z|]; simpl; eexists; split; [done|lia|done|lia].
Qed.

Lemma run_grows rf ops ops' b rm :
  let c := foldl do_op (core_init rf) ops in
  let c' := foldl do_op (core_init rf) (ops ++ ops') in
  cumulative_cut c !! b = Some rm ->
  exists rm', cumulative_cut c' !! b = Some rm' /\
    (forall r x, rm !! r = Some x -> exists y, rm' !! r = Some y /\ x <= y).
Proof.
  intros c c' Hb. pose proof (cut_run_inv rf ops) as Hi. pose proof (cut_run_inv rf (ops ++ ops')) as Hi'.
  fold c in Hi. fold c' in Hi'. 
  assert (forall r x, rm !! r = Some x -> exists y, at_replica (cumulative_cut c') b r = Some y /\ x <= y) as Hg.
  { intros r x Hr. rewrite (ci_same _ _ Hi'), (ci_offsets _ _ Hi'). apply high_water_grows.
    rewrite <- (ci_offsets _ _ Hi), <- (ci_same _ _ Hi). unfold at_replica. by rewrite Hb. }
  destruct (map_choose rm) as (r & x & Hr); [by apply (ci_inner _ _ Hi b)|].
  destruct (Hg r x Hr) as (y & Hy & _). unfold at_replica in Hy.
  destruct (cumulative_cut c' !! b) as [rm'|] eqn:E; [|done]. exists rm'. split; [done|].
  intros r' x' Hr'. destruct (Hg r' x' Hr') as (y' & Hy' & ?). unfold at_replica in Hy'. rewrite E in Hy'. eauto.
Qed.

Lemma broker_cut_mono rf rm rm' :
  dom rm = dom rm' -> (forall r x, rm !! r = Some x -> exists y, rm' !! r = Some y /\ x <= y) ->
  broker_cut rf rm <= broker_cut rf rm'.
Proof.
  intros Hd Hg. assert (size rm = size rm') as Hs by (by rewrite <- !size_dom, Hd).
  destruct (broker_cut_spec rf rm) as [[-> H1]|(H1 & [r Hr] & Hle)];
    destruct (broker_cut_spec rf rm') as [[-> H2]|(H2 & [r' Hr'] & Hle')]; try lia.
  assert (r' ∈ dom rm) as [x Hx]%elem_of_dom by (rewrite Hd; by apply elem_of_dom_2 in Hr').
  destruct (Hg r' x Hx) as (y & Hy & ?). specialize (Hle r' x Hx). rewrite Hr' in Hy. simplify_eq. lia.
Qed.

(** * What the cuts promise *)

Lemma Compute_ready c n barrier cut e :
  (ComputeGlobalCut c n barrier).1 = Some (cut, e) ->
  cut = broker_cut (num_replicas_per_broker c) <$> cumulative_cut c /\
  Z.of_nat (total_num_replicas (cumulative_cut c)) = u64 n *u Z.max 1 (num_replicas_per_broker c) /\
  (if barrier then closed_epoch (last_epoch c) = Some e /\ last_emitted_epoch c < e else e = -1) /\
  last_emitted_epoch (ComputeGlobalCut c n barrier).2 = (if barrier then e else last_emitted_epoch c).
Proof.
  unfold ComputeGlobalCut. destruct (negb _) eqn:E1; [done|]. apply negb_false_iff, Z.eqb_eq in E1.
  destruct barrier; [|by intros [= <- <-]].
  destruct (closed_epoch _) as [m|]; [|done]. destruct (m <=? _) eqn:E2; [done|]. intros [= <- <-].
  split_and!; [done..|lia|done].
Qed.

(** C34. A cut that the core emits covers exactly the brokers that reported, and never
    goes past what any replica of the broker reported: it is zero or the
    report of one of them. *)
Theorem scalog_cut_durable rf ops n barrier cut e :
  let c := foldl do_op (core_init rf) ops in
  (ComputeGlobalCut c n barrier).1 = Some (cut, e) ->
  (forall b, is_Some (cut !! b) <-> exists r x, high_water ops b r = Some x) /\
  (forall b v, cut !! b = Some v ->
     0 <= v /\ (forall r x, high_water ops b r = Some x -> v <= x) /\
     (v = 0 \/ exists r, high_water ops b r = Some v)).
Proof.
  intros c H. destruct (Compute_ready _ _ _ _ _ H) as (-> & _). pose proof (cut_run_inv rf ops) as Hi. fold c in Hi.
  assert (forall b r, at_replica (cumulative_cut c) b r = high_water ops b r) as Hat
    by (intros; by rewrite (ci_same _ _ Hi), (ci_offsets _ _ Hi)).
  unfold at_replica in Hat. split.
  - intros b. rewrite lookup_fmap, fmap_is_Some. split.
    + intros [rm Hb]. destruct (map_choose rm) as (r & x & Hr); [by apply (ci_inner _ _ Hi b)|].
      exists r, x. rewrite <- Hat, Hb. done.
    + intros (r & x & Hx). rewrite <- Hat in Hx. by destruct (cumulative_cut c !! b).
  - intros b v. rewrite lookup_fmap. destruct (cumulative_cut c !! b) as [rm|] eqn:E; [|done]. intros [= <-].
    pose proof (fun r => Hat b r) as Hb. rewrite E in Hb. simpl in Hb.
    destruct (broker_cut_spec (num_replicas_per_broker c) rm) as [[-> _]|(_ & [r Hr] & Hle)].
    + split_and!; [lia| |by left]. intros r x. apply (ci_nonneg _ _ Hi).
    + rewrite Hb in Hr. split_and!; [by eapply (ci_nonneg _ _ Hi)| |by right; exists r].
      intros r' x Hx. rewrite <- Hb in Hx. eauto.
Qed.

Lemma emitted_mono c o : last_emitted_epoch c <= last_emitted_epoch (do_op c o).
Proof.
  destruct o as [b f|b r e x|n barrier]; simpl.
  - unfold RegisterBroker. by case_test.
  - unfold AddLocalCut. by case_test.
  - destruct (ComputeGlobalCut c n barrier).1 as [[cut e]|] eqn:E.
    + destruct (Compute_ready _ _ _ _ _ E) as (_ & _ & H1 & ->). destruct barrier; [|lia]. lia.
    + unfold ComputeGlobalCut in *. destruct (negb _); [done|]. destruct barrier; [|done].
      destruct (closed_epoch _); [|done]. by destruct (_ <=? _).
Qed.
Lemma emitted_run ops : forall c, last_emitted_epoch c <= last_emitted_epoch (foldl do_op c ops).
Proof. induction ops as [|o ops IH]; intros c; simpl; [done|]. etransitivity; [apply emitted_mono|apply IH]. Qed.

(** The replication factor that broker 0 registers does not change. *)
Definition same_factor (f : Z) (o : op) : Prop := match o with Register 0 f' => f' = f | _ => True end.
Lemma factor_run f ops : forall c,
  Forall (same_factor f) ops -> num_replicas_per_broker c = f -> num_replicas_per_broker (foldl do_op c ops) = f.
Proof.
  induction ops as [|o ops IH]; intros c Hf Hc; simpl; [done|]. apply Forall_cons in Hf as [H1 H2].
  apply IH; [done|]. destruct o as [b g|b r e x|n barrier]; simpl.
  - unfold RegisterBroker. case_test; [|done]. simpl. by destruct b.
  - unfold AddLocalCut. by case_test.
  - destruct (Compute_keeps c n barrier) as (_ & _ & _ & ->). done.
Qed.

(** Two cuts that the core emits one after the other, with the same number of
    brokers and the same replication factor, are for the same brokers and the
    later one is nowhere behind; under the epoch barrier its epoch is later. *)
Theorem scalog_cuts_advance rf ops n barrier ops' cut1 e1 cut2 e2 :
  let c1 := foldl do_op (core_init rf) ops in
  let c2 := foldl do_op (ComputeGlobalCut c1 n barrier).2 ops' in
  Forall (same_factor (num_replicas_per_broker c1)) ops' ->
  (ComputeGlobalCut c1 n barrier).1 = Some (cut1, e1) -> (ComputeGlobalCut c2 n barrier).1 = Some (cut2, e2) ->
  dom cut1 = dom cut2 /\
  (forall b v1 v2, cut1 !! b = Some v1 -> cut2 !! b = Some v2 -> v1 <= v2) /\
  (barrier = true -> e1 < e2).
Proof.
  intros c1 c2 Hf H1 H2. destruct (Compute_keeps c1 n barrier) as (K1 & _ & _ & K4).
  assert (num_replicas_per_broker c2 = num_replicas_per_broker c1) as Hrf by (by apply factor_run).
  assert (c2 = foldl do_op (core_init rf) (ops ++ ([Compute n barrier] ++ ops'))) as Ec2
    by (by rewrite foldl_app).
  destruct (Compute_ready _ _ _ _ _ H1) as (-> & T1 & E1 & L1).
  destruct (Compute_ready _ _ _ _ _ H2) as (-> & T2 & E2 & _). rewrite Hrf in T2 |- *.
  pose proof (run_grows rf ops ([Compute n barrier] ++ ops')) as Hg. cbv zeta in Hg. fold c1 in Hg. rewrite <- Ec2 in Hg.
  destruct (within_total (cumulative_cut c1) (cumulative_cut c2)) as [_ HT].
  { intros b rm Hb. destruct (Hg b rm Hb) as (rm' & Hb' & Hr). exists rm'. split; [done|].
    intros r [x Hx]%elem_of_dom. destruct (Hr r x Hx) as (y & Hy & _). by apply elem_of_dom_2 in Hy. }
  { rewrite Ec2. apply (ci_inner _ _ (cut_run_inv rf _)). }
  destruct HT as [D1 D2]; [lia|]. split_and!.
  - by rewrite !dom_fmap_L.
  - intros b v1 v2. rewrite !lookup_fmap. destruct (cumulative_cut c1 !! b) as [rm|] eqn:B1; [|done].
    destruct (Hg b rm B1) as (rm' & B2 & Hr). rewrite B2. intros [= <-] [= <-].
    apply broker_cut_mono; [by eapply D2|done].
  - intros ->. destruct E2 as [_ E2]. pose proof (emitted_run ops' (ComputeGlobalCut c1 n true).2) as Hm.
    fold c2 in Hm. rewrite L1 in Hm. lia.
Qed.
End ScalogGlobalOrderingCore.

Module ScalogMailboxSequencer.
Import ScalogGlobalOrderingCore MailboxSequencer.

Definition kMaxBrokers : Z := 32.
Definition kAbsentCut : Z := -1.

Record ScalogLocalCutMsg := mkLocalCutMsg {
  local_cut : Z;
  epoch : Z;
  topic_id : Z;
  broker_id : Z;
  replica_id : Z;
}.
Record ScalogGlobalCutMsg := mkGlobalCutMsg { gc_epoch : Z; gc_num_brokers : Z; gc_cut : list Z }.

Definition in_array (b : Z) : bool := (0 <=? b) && (b <? kMaxBrokers).

(** The fixed array by broker; a broker out of range fails a CHECK. *)
Definition encode_cut (cut_by_broker : gmap Z Z) : option (list Z) :=
  if forallb in_array (map_to_list cut_by_broker).*1
  then Some ((fun i => default kAbsentCut (cut_by_broker !! Z.of_nat i)) <$> seq 0 (Z.to_nat kMaxBrokers))
  else None.

Section sequencer.
  Context (num_brokers : Z).

Definition MaybeEmitGlobalCut (c : core) : option (option ScalogGlobalCutMsg * core) :=
  match ComputeGlobalCut c num_brokers true with
  | (None, c) => Some (None, c)
  | (Some (cut_by_broker, aligned_epoch), c) =>
      cut ← encode_cut cut_by_broker;
      Some (Some (mkGlobalCutMsg aligned_epoch num_brokers cut), c)
  end.

#[global] Instance scalog_core : PollCore core ScalogLocalCutMsg ScalogGlobalCutMsg := {
  add c msg := AddLocalCut c (broker_id msg) (replica_id msg) (epoch msg) (local_cut msg);
  emit := MaybeEmitGlobalCut;
}.

(** [DrainBrokerCuts], one pass of [Run], and [Run]. *)
Definition DrainBrokerCuts : nat -> core -> list ScalogLocalCutMsg -> core * list ScalogLocalCutMsg * nat :=
  DrainBroker.
Definition Run : nat -> (nat -> nat -> bool) -> nat ->
    poll core ScalogLocalCutMsg ScalogGlobalCutMsg -> option (poll core ScalogLocalCutMsg ScalogGlobalCutMsg) :=
  MailboxSequencer.Run.

(** The reader skips the absent brokers. *)
Lemma encode_cut_lookup cut l b :
  encode_cut cut = Some l -> (forall b v, cut !! b = Some v -> 0 <= v) -> in_array b = true ->
  l !!! Z.to_nat b = default kAbsentCut (cut !! b) /\ (cut !! b = None <-> l !!! Z.to_nat b = kAbsentCut).
Proof.
  unfold encode_cut. destruct (forallb _ _); [|done]. intros [= <-] Hn Hb. unfold in_array, kMaxBrokers in *. bool_props.
  assert (forall i, (i < 32)%nat -> ((fun i => default kAbsentCut (cut !! Z.of_nat i)) <$> seq 0 32) !!! i =
    default kAbsentCut (cut !! Z.of_nat i)) as Hl.
  { intros i Hi. apply list_lookup_total_correct. rewrite list_lookup_fmap, lookup_seq_lt by done. done. }
  change (Z.to_nat 32) with 32%nat. rewrite Hl by lia. rewrite Z2Nat.id by lia. split; [done|].
  destruct (cut !! b) as [v|] eqn:E; simpl; [|done]. specialize (Hn _ _ E). unfold kAbsentCut. split; [done|lia].
Qed.

Lemma encode_cut_some cut : (forall b, is_Some (cut !! b) -> in_array b = true) -> exists l, encode_cut cut = Some l.
Proof.
  intros Hb. unfold encode_cut. replace (forallb _ _) with true; [eauto|]. symmetry. apply forallb_forall.
  intros b Hin. apply list_elem_of_In, list_elem_of_fmap in Hin as ([b' v] & -> & Hin). apply Hb.
  apply elem_of_map_to_list in Hin. by exists v.
Qed.

Definition core_in_array (c : core) : Prop := forall b, is_Some (cumulative_cut c !! b) -> in_array b = true.

#[global] Program Instance scalog_core_ok : PollCoreOk core ScalogLocalCutMsg ScalogGlobalCutMsg := {
  core_ok := core_in_array;
  msg_ok m := in_array (broker_id m) = true;
}.
Next Obligation.
  intros c m Hc Hm. simpl. unfold AddLocalCut. case_test; [done|]. intros b. simpl. unfold set_replica.
  destruct (decide (broker_id m = b)) as [<-|]; [done|]. rewrite lookup_insert_ne by done. apply Hc.
Qed.
Next Obligation.
  intros c Hc. simpl. unfold MaybeEmitGlobalCut. destruct (ComputeGlobalCut c num_brokers true) as [[[cut e]|] c'] eqn:E.
  - destruct (Compute_ready c num_brokers true cut e) as (-> & _); [by rewrite E|].
    destruct (encode_cut_some (broker_cut (num_replicas_per_broker c) <$> cumulative_cut c)) as [l ->].
    { intros b. rewrite lookup_fmap, fmap_is_Some. apply Hc. }
    exists (Some (mkGlobalCutMsg e num_brokers l)), c'. split; [done|].
    pose proof (Compute_keeps c num_brokers true) as (Hk & _). rewrite E in Hk. simpl in Hk.
    intros b. rewrite Hk. apply Hc.
  - exists None, c'. split; [done|]. pose proof (Compute_keeps c num_brokers true) as (Hk & _).
    rewrite E in Hk. simpl in Hk. intros b. rewrite Hk. apply Hc.
Qed.

(** On every down ring the epochs increase, up to the last one that was emitted. *)
Definition epochs_ordered (s : poll core ScalogLocalCutMsg ScalogGlobalCutMsg) : Prop :=
  Forall (fun d => StronglySorted Z.lt (gc_epoch <$> d) /\
                   Forall (fun e => e <= last_emitted_epoch (p_core s)) (gc_epoch <$> d)) (p_down s).

Lemma StronglySorted_snoc (l : list Z) x : StronglySorted Z.lt l -> Forall (fun y => y < x) l -> StronglySorted Z.lt (l ++ [x]).
Proof.
  induction 1 as [|y l Hs IH Hy]; intros Hx; simpl; [repeat constructor|]. apply Forall_cons in Hx as [H1 H2].
  constructor; [by apply IH|]. apply Forall_app. by split; [|constructor].
Qed.

Lemma add_emitted q : forall c, last_emitted_epoch (foldl add c q) = last_emitted_epoch c.
Proof. induction q as [|m q IH]; intros c; simpl; [done|]. rewrite IH. unfold AddLocalCut. by case_test. Qed.
Lemma drain_emitted K ups : forall c c' ups' n,
  drain_all K c ups = (c', ups', n) -> last_emitted_epoch c' = last_emitted_epoch c.
Proof.
  induction ups as [|q ups IH]; intros c c' ups' n E; simpl in E; [by simplify_eq|].
  destruct (drain_all K _ ups) as [[c1 ups1] n1] eqn:E1. simplify_eq. apply IH in E1. by rewrite E1, add_emitted.
Qed.

Lemma pass_epochs K wedged s s' b : epochs_ordered s -> pass K wedged s = Some (s', b) -> epochs_ordered s'.
Proof.
  intros Hs. unfold pass. destruct (drain_all K _ _) as [[c ups] n] eqn:E. apply drain_emitted in E.
  unfold epochs_ordered in Hs. rewrite <- E in Hs. destruct (n =? 0)%nat; [by intros [= <- <-]|].
  simpl. unfold MaybeEmitGlobalCut. destruct (ComputeGlobalCut c num_brokers true) as [[[cut e]|] c'] eqn:EC.
  - destruct (Compute_ready c num_brokers true cut e) as (_ & _ & [_ H1] & H2); [by rewrite EC|].
    rewrite EC in H2. simpl in H2. destruct (encode_cut cut) as [l|]; [|done]. simpl. intros [= <- <-].
    unfold epochs_ordered, broadcast. simpl. apply Forall_lookup. intros i d.
    rewrite list_lookup_imap. destruct (p_down s !! i) as [d0|] eqn:Ed; [|done]. intros [= <-].
    apply (Forall_lookup_1 _ _ _ _ Hs) in Ed as [S1 S2]. rewrite H2. destruct (wedged _ i).
    + split; [done|]. eapply Forall_impl; [exact S2|]. simpl. lia.
    + rewrite fmap_app. split.
      * apply StronglySorted_snoc; [done|]. eapply Forall_impl; [exact S2|]. simpl. lia.
      * apply Forall_app. split; [eapply Forall_impl; [exact S2|]; simpl; lia|]. constructor; [simpl; lia|constructor].
  - pose proof (emitted_mono c (Compute num_brokers true)) as Hm. simpl in Hm. rewrite EC in Hm. simpl in *.
    intros [= <- <-]. unfold epochs_ordered. simpl. eapply Forall_impl; [exact Hs|]. intros d [S1 S2]. split; [done|].
    eapply Forall_impl; [exact S2|]. simpl. lia.
Qed.

(** C35. The coordinator's loop that was asked to stop takes in every record that waits in
    the up rings and ends, within as many passes as there are records, and one;
    on every down ring, wedged or not, the epochs of the cuts increase. *)
Theorem scalog_run_drains K wedged rf ups downs :
  (0 < K)%nat -> Forall (Forall (fun m => in_array (broker_id m) = true)) ups ->
  exists s', Run K wedged (S (backlog ups)) (mkPoll (core_init rf) ups (repeat [] downs) (repeat [] downs) 0) = Some s' /\
    backlog (p_up s') = 0%nat /\
    Forall (fun d => StronglySorted Z.lt (gc_epoch <$> d)) (p_down s').
Proof.
  intros HK Hm.
  destruct (Run_ends K wedged epochs_ordered HK (fun s s' b _ => pass_epochs K wedged s s' b) (S (backlog ups))
    (mkPoll (core_init rf) ups (repeat [] downs) (repeat [] downs) 0)) as (s' & H1 & H2 & _ & H3).
  - simpl. lia.
  - intros b. simpl. rewrite lookup_empty. by intros [].
  - done.
  - unfold epochs_ordered. simpl. apply Forall_forall. intros d Hd%list_elem_of_In%repeat_spec. subst d.
    split; constructor.
  - exists s'. split_and!; [done..|]. eapply Forall_impl; [exact H3|]. by intros d [? _].
Qed.
End sequencer.
End ScalogMailboxSequencer.

Import ScalogGlobalOrderingCore.

(** Two brokers with two replicas each; the second replica of broker 1 lags. *)
Definition cut_ops : list op :=
  [Register 0 2; Register 1 2; LocalCut 0 0 0 10; LocalCut 0 1 0 12; LocalCut 1 0 0 7; LocalCut 1 1 0 4;
   LocalCut 1 1 0 2].

Lemma scalog_cut_durable_witness :
  exists cut, (ComputeGlobalCut (foldl do_op (core_init 1) cut_ops) 2 true).1 = Some (cut, 0) /\
    cut !! 1 = Some 4 /\ (forall r x, high_water cut_ops 1 r = Some x -> 4 <= x).
Proof.
  destruct (ComputeGlobalCut (foldl do_op (core_init 1) cut_ops) 2 true).1 as [[cut e]|] eqn:E;
    [|exfalso; revert E; vm_compute; done].
  assert (e = 0 /\ cut !! 1 = Some 4) as [-> Hc] by (revert E; vm_compute; by intros [= <- <-]).
  exists cut. split_and!; [done..|].
  destruct (scalog_cut_durable 1 cut_ops 2 true cut 0 E) as [_ H]. by apply (H 1 4 Hc).
Defined.

Definition later_ops : list op := [LocalCut 0 0 1 20; LocalCut 0 1 1 15; LocalCut 1 0 1 7; LocalCut 1 1 2 9].

Lemma scalog_cuts_advance_witness :
  let c1 := foldl do_op (core_init 1) cut_ops in
  let c2 := foldl do_op (ComputeGlobalCut c1 2 true).2 later_ops in
  exists cut1 cut2, (ComputeGlobalCut c1 2 true).1 = Some (cut1, 0) /\ (ComputeGlobalCut c2 2 true).1 = Some (cut2, 1) /\
    dom cut1 = dom cut2.
Proof.
  intros c1 c2. destruct (ComputeGlobalCut c1 2 true).1 as [[cut1 e1]|] eqn:E1; [|exfalso; revert E1; vm_compute; done].
  destruct (ComputeGlobalCut c2 2 true).1 as [[cut2 e2]|] eqn:E2; [|exfalso; revert E2; vm_compute; done].
  exists cut1, cut2. pose proof (scalog_cuts_advance 1 cut_ops 2 true later_ops cut1 e1 cut2 e2
    ltac:(repeat constructor) E1 E2) as (Hd & _ & _).
  split_and!; [revert E1; vm_compute; by intros [= <- <-]|revert E2; vm_compute; by intros [= <- <-]|done].
Defined.

Import ScalogMailboxSequencer.

Lemma scalog_run_drains_witness :
  exists s', Run 2 2 (fun _ _ => false) 6
      (MailboxSequencer.mkPoll (core_init 1)
        [[mkLocalCutMsg 5 0 0 0 0; mkLocalCutMsg 6 1 0 0 0; mkLocalCutMsg 8 2 0 0 0];
         [mkLocalCutMsg 3 0 0 1 0; mkLocalCutMsg 4 1 0 1 0]] [[]; []] [[]; []] 0) = Some s' /\
    MailboxSequencer.backlog (MailboxSequencer.p_up s') = 0%nat.
Proof.
  destruct (scalog_run_drains 2 2 (fun _ _ => false) 1
    [[mkLocalCutMsg 5 0 0 0 0; mkLocalCutMsg 6 1 0 0 0; mkLocalCutMsg 8 2 0 0 0];
     [mkLocalCutMsg 3 0 0 1 0; mkLocalCutMsg 4 1 0 1 0]] 2 ltac:(lia) ltac:(repeat constructor)) as (s' & H1 & H2 & _).
  exists s'. by split.
Defined.
