(* ===== verification/Binding.v ===== *)
(** The LazyLog baseline: the binding core of
    src/cxl_manager/lazylog_binding_core.cc and the sequencer that runs it over
    mailbox rings, src/cxl_manager/lazylog_mailbox_sequencer.cc. *)

From S2P Require Import Prelude.
From S2P Require Import MailboxSequencer.

Module LazyLogBindingCore.

Record core := mkCore {
  last_progress : gmap Z Z;
  bound_progress : gmap Z Z;
  reported_brokers : gset Z;
  last_epoch : gmap Z Z;
  registered_brokers : gset Z;
  last_emitted_epoch : Z;
}.
#[global] Instance eta_core : Eta core := fun c =>
  mkCore (last_progress c) (bound_progress c) (reported_brokers c) (last_epoch c) (registered_brokers c)
    (last_emitted_epoch c).

Definition core_init : core := mkCore ∅ ∅ ∅ ∅ ∅ (-1).
Definition kMaxBindingsPerBrokerPerTick : Z := 2 ^ 63 - 1.

(** [m[b]], which default-constructs the entry. *)
Definition get (m : gmap Z Z) (b : Z) : Z := default 0 (m !! b).

Definition RegisterBroker (c : core) (broker_id : Z) : core :=
  c <| registered_brokers := {[broker_id]} ∪ registered_brokers c |>.

Definition AddLocalProgress (c : core) (broker_id epoch local_progress : Z) : core :=
  let previous := get (last_progress c) broker_id in
  if local_progress <? previous then c
  else
    c <| last_progress := <[broker_id := local_progress]> (last_progress c) |>
      <| reported_brokers := {[broker_id]} ∪ reported_brokers c |>
      <| last_epoch := <[broker_id := Z.max (get (last_epoch c) broker_id) epoch]> (last_epoch c) |>.

(** One broker of the loop, over the two maps and the output. *)
Definition bind_broker (st : gmap Z Z * gmap Z Z * gmap Z Z) (broker_id : Z) : gmap Z Z * gmap Z Z * gmap Z Z :=
  let '(last, bound, out) := st in
  let reported := get last broker_id in
  let last := <[broker_id := reported]> last in
  let already_bound := get bound broker_id in
  let bound := <[broker_id := already_bound]> bound in
  if reported <=? already_bound then (last, bound, out)
  else
    let available := reported - already_bound in
    let bind_now := Z.min available kMaxBindingsPerBrokerPerTick in
    if bind_now <=? 0 then (last, bound, out)
    else (last, <[broker_id := already_bound + bind_now]> bound, <[broker_id := bind_now]> out).

(** The oldest of the brokers' latest epochs. *)
Definition min_epoch (m : gmap Z Z) : Z := map_fold (fun _ ep acc => Z.min acc ep) (2 ^ 63 - 1) m.

(** The binding and [out_epoch], when ready. *)
Definition ComputeGlobalBinding (c : core) (expected_brokers : Z) (use_epoch_barrier : bool)
    : option (gmap Z Z * Z) * core :=
  if (Z.of_nat (size (registered_brokers c)) <? expected_brokers) ||
     (Z.of_nat (size (reported_brokers c)) <? expected_brokers) then (None, c)
  else
    let closed := min_epoch (last_epoch c) in
    if use_epoch_barrier && (bool_decide (last_epoch c = ∅) || (closed <=? last_emitted_epoch c)) then (None, c)
    else
      let '(last, bound, out) :=
        foldl bind_broker (last_progress c, bound_progress c, ∅) (elements (registered_brokers c)) in
      let c := c <| last_progress := last |> <| bound_progress := bound |> in
      if use_epoch_barrier then (Some (out, closed), c <| last_emitted_epoch := closed |>)
      else (Some (out, -1), c).

(** * Runs, with the bindings that they emit *)
Inductive op :=
  | Register (broker_id : Z)
  | Progress (broker_id epoch local_progress : Z)
  | Compute (expected_brokers : Z) (use_epoch_barrier : bool).

Definition do_op (s : core * list (gmap Z Z)) (o : op) : core * list (gmap Z Z) :=
  match o with
  | Register b => (RegisterBroker s.1 b, s.2)
  | Progress b e x => (AddLocalProgress s.1 b e x, s.2)
  | Compute n barrier =>
      match ComputeGlobalBinding s.1 n barrier with
      | (Some (out, _), c) => (c, s.2 ++ [out])
      | (None, c) => (c, s.2)
      end
  end.

(** The largest progress that broker [b] reported, zero before any. *)
Definition report_of (b : Z) (o : op) : Z := match o with Progress b' _ x => if decide (b = b') then x else 0 | _ => 0 end.
Definition high_water (ops : list op) (b : Z) : Z := foldl (fun acc o => Z.max acc (report_of b o)) 0 ops.
(** All that was bound to broker [b]. *)
Definition total (outs : list (gmap Z Z)) (b : Z) : Z := foldr (fun out acc => get out b + acc) 0 outs.

(** * The loop over the brokers *)
Lemma get_insert m b x b' : get (<[b := x]> m) b' = if decide (b = b') then x else get m b'.
Proof.
  unfold get. case_decide as Hd; [subst; by rewrite lookup_insert_eq|by rewrite lookup_insert_ne].
Qed.
Lemma get_touch m b b' : get (<[b := get m b]> m) b' = get m b'.
Proof. rewrite get_insert. by case_decide; subst. Qed.

Lemma bind_broker_spec last bound out b :
  get out b = 0 -> get last b - get bound b <= kMaxBindingsPerBrokerPerTick ->
  let '(last', bound', out') := bind_broker (last, bound, out) b in
  (forall k, get last' k = get last k) /\
  (forall k, get bound' k = if decide (b = k) then Z.max (get bound k) (get last k) else get bound k) /\
  (forall k, get out' k = if decide (b = k) then Z.max (get bound k) (get last k) - get bound k else get out k) /\
  (forall k v, out' !! k = Some v -> out !! k = Some v \/ 0 < v).
Proof.
  intros Ho Hmax. unfold bind_broker. unfold kMaxBindingsPerBrokerPerTick in *.
  destruct (_ <=? _) eqn:E1; [|destruct (_ <=? 0) eqn:E2; [lia|]].
  - split_and!; intros k; rewrite ?get_touch; [done| | |by left]; case_decide; subst; lia || done.
  - split_and!; intros k; rewrite ?get_touch; rewrite ?get_insert; [done| | |].
    + case_decide; subst; lia || done.
    + case_decide; subst; lia || done.
    + intros v. destruct (decide (b = k)) as [<-|]; [rewrite lookup_insert_eq; intros [= <-]; right; lia|].
      rewrite lookup_insert_ne by done. by left.
Qed.

Lemma bind_loop bs : forall last bound out,
  NoDup bs -> (forall b, b ∈ bs -> get out b = 0) ->
  (forall b, get last b - get bound b <= kMaxBindingsPerBrokerPerTick) ->
  let '(last', bound', out') := foldl bind_broker (last, bound, out) bs in
  (forall k, get last' k = get last k) /\
  (forall k, get bound' k = if decide (k ∈ bs) then Z.max (get bound k) (get last k) else get bound k) /\
  (forall k, get out' k = if decide (k ∈ bs) then Z.max (get bound k) (get last k) - get bound k else get out k) /\
  (forall k v, out' !! k = Some v -> out !! k = Some v \/ 0 < v).
Proof.
  induction bs as [|b bs IH]; intros last bound out Hnd Ho Hm; cbn [foldl].
  - split_and!; intros k; [done| | |by left]; (rewrite decide_False; [done|apply not_elem_of_nil]).
  - apply NoDup_cons in Hnd as [Hb Hnd].
    pose proof (bind_broker_spec last bound out b (Ho b ltac:(by left)) (Hm b)) as HS.
    destruct (bind_broker (last, bound, out) b) as [[last1 bound1] out1]. destruct HS as (S1 & S2 & S3 & S4).
    specialize (IH last1 bound1 out1 Hnd). destruct (foldl bind_broker _ bs) as [[last' bound'] out'].
    destruct IH as (I1 & I2 & I3 & I4).
    + intros k Hk. rewrite S3, decide_False by (intros ->; done). apply Ho. by right.
    + intros k. rewrite S1, S2. specialize (Hm k). case_decide; lia.
    + split_and!; intros k.
      * by rewrite I1.
      * rewrite I2, S1, S2. destruct (decide (b = k)) as [<-|Hne].
        -- rewrite (decide_False (P := b ∈ bs)) by done. by rewrite decide_True by set_solver.
        -- destruct (decide (k ∈ bs)); [by rewrite decide_True by set_solver|].
           by rewrite decide_False by set_solver.
      * rewrite I3, S1, S2, S3. destruct (decide (b = k)) as [<-|Hne].
        -- rewrite (decide_False (P := b ∈ bs)) by done. by rewrite decide_True by set_solver.
        -- destruct (decide (k ∈ bs)); [by rewrite decide_True by set_solver|].
           by rewrite decide_False by set_solver.
      * intros v Hv. destruct (I4 k v Hv) as [Hv'|]; [by apply S4|by right].
Qed.

(** * The invariant: what was bound is what was emitted, and was reported *)
Record core_inv (ops : list op) (s : core * list (gmap Z Z)) : Prop := {
  ci_last : forall b, get (last_progress s.1) b = high_water ops b;
  ci_bound : forall b, get (bound_progress s.1) b = total s.2 b;
  ci_le : forall b, 0 <= total s.2 b <= high_water ops b;
  ci_pos : Forall (map_Forall (fun _ v => 0 < v)) s.2;
}.

Definition op_ok (o : op) : Prop := match o with Progress _ _ x => x <= 2 ^ 63 - 1 | _ => True end.

Lemma progress_high_water_snoc ops o b : high_water (ops ++ [o]) b = Z.max (high_water ops b) (report_of b o).
Proof. unfold high_water. by rewrite foldl_app. Qed.
Lemma high_water_bound ops b : Forall op_ok ops -> 0 <= high_water ops b <= 2 ^ 63 - 1.
Proof.
  induction ops as [|o ops IH] using rev_ind; [intros; unfold high_water; simpl; lia|].
  rewrite Forall_app, Forall_singleton. intros [H1 H2]. specialize (IH H1). rewrite progress_high_water_snoc.
  destruct o; simpl in *; [lia| |lia]. case_decide; lia.
Qed.
Lemma total_snoc outs out b : total (outs ++ [out]) b = total outs b + get out b.
Proof. induction outs as [|o outs IH]; simpl; [lia|]. rewrite IH. lia. Qed.

(** A ready round binds all that the registered brokers reported. *)
Lemma Binding_ready ops s n barrier out e c' :
  Forall op_ok ops -> core_inv ops s -> ComputeGlobalBinding s.1 n barrier = (Some (out, e), c') ->
  core_inv ops (c', s.2 ++ [out]) /\
  (forall b, b ∈ registered_brokers s.1 -> total (s.2 ++ [out]) b = high_water ops b).
Proof.
  intros Hok [H1 H2 H3 H4] HC. unfold ComputeGlobalBinding in HC.
  destruct (_ || _); [done|]. destruct (barrier && _); [done|].
  pose proof (bind_loop (elements (registered_brokers s.1)) (last_progress s.1) (bound_progress s.1) ∅
    (NoDup_elements _)) as HL.
  destruct (foldl bind_broker _ _) as [[last' bound'] out'].
  destruct HL as (L1 & L2 & L3 & L4).
  { intros b _. done. }
  { intros b. rewrite H1, H2. pose proof (high_water_bound ops b Hok). specialize (H3 b).
    unfold kMaxBindingsPerBrokerPerTick. lia. }
  assert (last_progress c' = last' /\ bound_progress c' = bound' /\ out = out') as (E1 & E2 & ->)
    by (destruct barrier; by simplify_eq).
  assert (forall b, total (s.2 ++ [out']) b = get bound' b) as HT.
  { intros b. rewrite total_snoc, L2, L3, H2. case_decide; [lia|]. unfold get. rewrite lookup_empty. simpl. lia. }
  split; [split; cbn [fst snd]|].
  - intros b. by rewrite E1, L1.
  - intros b. by rewrite E2, HT.
  - intros b. rewrite HT, L2, H1, H2. specialize (H3 b). case_decide; lia.
  - apply Forall_app. split; [done|]. constructor; [|constructor]. intros k v Hv.
    destruct (L4 k v Hv) as [Hk|]; [by rewrite lookup_empty in Hk|done].
  - intros b Hb. rewrite HT, L2, H1, H2. rewrite decide_True by (by apply elem_of_elements). specialize (H3 b). lia.
Qed.

Lemma Compute_not_ready c n barrier c' : ComputeGlobalBinding c n barrier = (None, c') -> c' = c.
Proof.
  unfold ComputeGlobalBinding. destruct (_ || _); [by intros [= ->]|]. destruct (barrier && _); [by intros [= ->]|].
  destruct (foldl _ _ _) as [[? ?] ?]. by destruct barrier.
Qed.

Lemma binding_op_inv ops s o : Forall op_ok ops -> core_inv ops s -> core_inv (ops ++ [o]) (do_op s o).
Proof.
  intros Hok Hi. assert (forall o, (forall b, report_of b o = 0) -> core_inv (ops ++ [o]) s) as Hquiet.
  { intros o' Hr. destruct Hi as [H1 H2 H3 H4]. assert (forall b, high_water (ops ++ [o']) b = high_water ops b) as E.
    { intros b. rewrite progress_high_water_snoc, Hr. specialize (H3 b). lia. }
    split; [|done| |done]; intros b; rewrite E; done. }
  destruct o as [b|b e x|n barrier]; simpl.
  - destruct (Hquiet (Register b)) as [H1 H2 H3 H4]; [done|]. by split.
  - destruct Hi as [H1 H2 H3 H4]. unfold AddLocalProgress. rewrite H1.
    assert (forall k, high_water (ops ++ [Progress b e x]) k =
      if decide (b = k) then Z.max (high_water ops k) x else high_water ops k) as HW.
    { intros k. rewrite progress_high_water_snoc. simpl. specialize (H3 k). case_decide; case_decide; try congruence; lia. }
    destruct (x <? high_water ops b) eqn:E; split; cbn [fst snd last_progress bound_progress]; try done.
    + intros k. rewrite HW, H1. case_decide; subst; lia.
    + intros k. rewrite HW. specialize (H3 k). case_decide; lia.
    + intros k. simpl. rewrite HW, get_insert, H1. case_decide; subst; lia.
    + intros k. rewrite HW. specialize (H3 k). case_decide; lia.
  - destruct (ComputeGlobalBinding s.1 n barrier) as [[[out e]|] c'] eqn:E.
    + destruct (Binding_ready _ _ _ _ _ _ _ Hok Hi E) as [[H1 H2 H3 H4] _].
      assert (forall b, high_water (ops ++ [Compute n barrier]) b = high_water ops b) as EW.
      { intros b. rewrite progress_high_water_snoc. simpl. specialize (H3 b). lia. }
      split; [|done| |done]; intros b; rewrite EW; done.
    + apply Compute_not_ready in E as ->. destruct (Hquiet (Compute n barrier)) as [H1 H2 H3 H4]; [done|]. by split.
Qed.

Lemma binding_run_inv ops : Forall op_ok ops -> core_inv ops (foldl do_op (core_init, []) ops).
Proof.
  induction ops as [|o ops IH] using rev_ind; intros Hok.
  - split; [done..| |constructor]. intros b. unfold high_water. simpl. lia.
  - apply Forall_app in Hok as [H1 H2]. rewrite foldl_app. apply binding_op_inv; [done|by apply IH].
Qed.

(** Over any run, the deltas that were emitted for a broker are positive and add
    up to no more than it reported, and a round that is ready brings every
    registered broker's sum to exactly what it reported: nothing is bound
    twice and nothing is left out. *)
Theorem lazylog_binds_exactly ops n barrier out e c' :
  Forall op_ok ops ->
  let s := foldl do_op (core_init, []) ops in
  ComputeGlobalBinding s.1 n barrier = (Some (out, e), c') ->
  (forall b, 0 <= total (s.2 ++ [out]) b <= high_water ops b) /\
  (forall b, b ∈ registered_brokers s.1 -> total (s.2 ++ [out]) b = high_water ops b) /\
  Forall (map_Forall (fun _ v => 0 < v)) (s.2 ++ [out]).
Proof.
  intros Hok s HC. destruct (Binding_ready ops s n barrier out e c' Hok (binding_run_inv ops Hok) HC) as [[H1 H2 H3 H4] H5].
  by split_and!.
Qed.
End LazyLogBindingCore.

Module LazyLogMailboxSequencer.
Import LazyLogBindingCore MailboxSequencer.

Definition kMaxBrokers : Z := 32.
Definition kAbsentBinding : Z := -1.

Record LazyLogLocalProgressMsg := mkLocalProgressMsg {
  local_progress : Z;
  epoch : Z;
  topic_id : Z;
  broker_id : Z;
}.
Record LazyLogGlobalBindingMsg := mkGlobalBindingMsg { gb_epoch : Z; gb_num_brokers : Z; gb_binding : list Z }.

Definition in_array (b : Z) : bool := (0 <=? b) && (b <? kMaxBrokers).

(** The fixed array by broker; a broker out of range fails a CHECK. *)
Definition encode_binding (binding_by_broker : gmap Z Z) : option (list Z) :=
  if forallb in_array (map_to_list binding_by_broker).*1
  then Some ((fun i => default kAbsentBinding (binding_by_broker !! Z.of_nat i)) <$> seq 0 (Z.to_nat kMaxBrokers))
  else None.

(** What a reader of the record adds to broker [b]'s bound: it skips the
    absent brokers. *)
Definition delta (b : Z) (m : LazyLogGlobalBindingMsg) : Z :=
  let v := gb_binding m !!! Z.to_nat b in if v =? kAbsentBinding then 0 else v.

Section sequencer.
  Context (num_brokers : Z).

Definition MaybeEmitGlobalBinding (c : core) : option (option LazyLogGlobalBindingMsg * core) :=
  match ComputeGlobalBinding c num_brokers true with
  | (None, c) => Some (None, c)
  | (Some (binding_by_broker, aligned_epoch), c) =>
      binding ← encode_binding binding_by_broker;
      Some (Some (mkGlobalBindingMsg aligned_epoch num_brokers binding), c)
  end.

#[global] Instance lazylog_core : PollCore core LazyLogLocalProgressMsg LazyLogGlobalBindingMsg := {
  add c msg := AddLocalProgress c (broker_id msg) (epoch msg) (local_progress msg);
  emit := MaybeEmitGlobalBinding;
}.

(** [DrainBrokerProgress] and [Run]. *)
Definition DrainBrokerProgress : nat -> core -> list LazyLogLocalProgressMsg -> core * list LazyLogLocalProgressMsg * nat :=
  DrainBroker.
Definition Run : nat -> (nat -> nat -> bool) -> nat ->
    poll core LazyLogLocalProgressMsg LazyLogGlobalBindingMsg ->
    option (poll core LazyLogLocalProgressMsg LazyLogGlobalBindingMsg) :=
  MailboxSequencer.Run.

Lemma encode_delta out l e n b :
  encode_binding out = Some l -> map_Forall (fun _ v => 0 < v) out -> in_array b = true ->
  delta b (mkGlobalBindingMsg e n l) = get out b.
Proof.
  intros Hl Hp Hb. assert (l !!! Z.to_nat b = default kAbsentBinding (out !! b)) as El.
  { unfold encode_binding in Hl. destruct (forallb _ _); [|done]. apply (inj Some) in Hl. subst l.
    unfold in_array, kMaxBrokers in *. bool_props.
    apply list_lookup_total_correct. rewrite list_lookup_fmap, lookup_seq_lt by lia. simpl. by rewrite Z2Nat.id by lia. }
  unfold delta. cbn [gb_binding]. rewrite El.
  unfold get, kAbsentBinding. destruct (out !! b) as [v|] eqn:E; simpl; [|done].
  specialize (Hp _ _ E). simpl in Hp. rewrite (proj2 (Z.eqb_neq _ _)) by lia. done.
Qed.

(** The brokers that the core knows are in the array, and its maps agree with
    what a run of the core reaches. *)
Definition core_fine (c : core) : Prop :=
  (forall b, b ∈ registered_brokers c -> in_array b = true) /\
  (forall b, 0 <= get (bound_progress c) b <= get (last_progress c) b /\ get (last_progress c) b <= 2 ^ 63 - 1).

Lemma Compute_fine c out e c' :
  core_fine c -> ComputeGlobalBinding c num_brokers true = (Some (out, e), c') ->
  core_fine c' /\ map_Forall (fun _ v => 0 < v) out /\
  (forall b, is_Some (out !! b) -> in_array b = true) /\
  (forall b, get (bound_progress c') b = get (bound_progress c) b + get out b).
Proof.
  intros [H1 H2] HC. unfold ComputeGlobalBinding in HC. destruct (_ || _); [done|]. destruct (true && _); [done|].
  pose proof (bind_loop (elements (registered_brokers c)) (last_progress c) (bound_progress c) ∅ (NoDup_elements _)) as HL.
  destruct (foldl bind_broker _ _) as [[last' bound'] out'] eqn:EF.
  destruct HL as (L1 & L2 & L3 & L4); [done|intros b; specialize (H2 b); unfold kMaxBindingsPerBrokerPerTick; lia|].
  simplify_eq. assert (map_Forall (fun _ v => 0 < v) out) as Hpos.
  { intros k v Hv. destruct (L4 k v Hv) as [Hk|]; [by rewrite lookup_empty in Hk|done]. }
  split; [split; [exact H1|]|split_and!; [done| |]].
  - intros b. simpl. rewrite L1, L2. specialize (H2 b). case_decide; lia.
  - intros b [v Hv]. specialize (L3 b). case_decide as Hd; [by apply H1, elem_of_elements|].
    specialize (Hpos b v Hv). simpl in Hpos. unfold get in L3. rewrite Hv, lookup_empty in L3. simpl in L3. lia.
  - intros b. simpl. rewrite L2, L3. case_decide; [lia|]. unfold get. rewrite lookup_empty. simpl. lia.
Qed.

Lemma encode_some out : (forall b, is_Some (out !! b) -> in_array b = true) -> exists l, encode_binding out = Some l.
Proof.
  intros Hb. unfold encode_binding. replace (forallb _ _) with true; [eauto|]. symmetry. apply forallb_forall.
  intros b Hin. apply list_elem_of_In, list_elem_of_fmap in Hin as ([b' v] & -> & Hin). apply Hb.
  apply elem_of_map_to_list in Hin. by exists v.
Qed.

#[global] Program Instance lazylog_core_ok : PollCoreOk core LazyLogLocalProgressMsg LazyLogGlobalBindingMsg := {
  core_ok := core_fine;
  msg_ok m := local_progress m <= 2 ^ 63 - 1;
}.
Next Obligation.
  intros c m [H1 H2] Hm. simpl. unfold AddLocalProgress. destruct (_ <? _) eqn:E; [done|]. split; [done|].
  intros b. simpl. rewrite get_insert. specialize (H2 b). case_decide; subst; lia.
Qed.
Next Obligation.
  intros c Hc. simpl. unfold MaybeEmitGlobalBinding.
  destruct (ComputeGlobalBinding c num_brokers true) as [[[out e]|] c'] eqn:E.
  - destruct (Compute_fine _ _ _ _ Hc E) as (Hc' & _ & Hb & _). destruct (encode_some out Hb) as [l ->]. simpl. eauto.
  - apply Compute_not_ready in E as ->. eauto.
Qed.

(** What was delivered on a ring and what the ring missed, for broker [b]. *)
Definition ring_sum (b : Z) (ms : list LazyLogGlobalBindingMsg) : Z := foldr (fun m acc => delta b m + acc) 0 ms.

Lemma ring_sum_snoc b ms m : ring_sum b (ms ++ [m]) = ring_sum b ms + delta b m.
Proof. induction ms as [|x ms IH]; simpl; [lia|]. rewrite IH. lia. Qed.

(** Each ring's two histories add up to what the core has bound. *)
Definition accounted (s : poll core LazyLogLocalProgressMsg LazyLogGlobalBindingMsg) : Prop :=
  length (p_missed s) = length (p_down s) /\
  forall i d m b, p_down s !! i = Some d -> p_missed s !! i = Some m -> in_array b = true ->
    ring_sum b d + ring_sum b m = get (bound_progress (p_core s)) b.

Lemma add_bound q : forall c, bound_progress (foldl add c q) = bound_progress c.
Proof. induction q as [|m q IH]; intros c; simpl; [done|]. rewrite IH. unfold AddLocalProgress. by case_test. Qed.
Lemma drain_bound K ups : forall c c' ups' n, drain_all K c ups = (c', ups', n) -> bound_progress c' = bound_progress c.
Proof.
  induction ups as [|q ups IH]; intros c c' ups' n E; simpl in E; [by simplify_eq|].
  destruct (drain_all K _ ups) as [[c1 ups1] n1] eqn:E1. simplify_eq. apply IH in E1. by rewrite E1, add_bound.
Qed.

(** The core and the records that wait stay well-formed. *)
Definition fine (s : poll core LazyLogLocalProgressMsg LazyLogGlobalBindingMsg) : Prop :=
  core_fine (p_core s) /\ Forall (Forall (fun m => local_progress m <= 2 ^ 63 - 1)) (p_up s) /\ accounted s.

Lemma pass_accounted K wedged s s' b : fine s -> pass K wedged s = Some (s', b) -> fine s'.
Proof.
  intros (Hc & Hu & Hl & Ha). unfold pass. destruct (drain_all K _ _) as [[c ups] n] eqn:E.
  destruct (drain_all_ok K (PollCoreOk0 := lazylog_core_ok) _ _ _ _ _ Hc Hu E) as [Hc1 Hu1]. apply drain_bound in E.
  rewrite <- E in Ha. destruct (n =? 0)%nat; [by intros [= <- <-]|].
  simpl. unfold MaybeEmitGlobalBinding. destruct (ComputeGlobalBinding c num_brokers true) as [[[out e]|] c'] eqn:EC.
  - destruct (Compute_fine _ _ _ _ Hc1 EC) as (Hc' & Hp & Hb & Hs).
    destruct (encode_binding out) as [l|] eqn:El; [|done]. simpl. intros [= <- <-].
    unfold fine, accounted. cbn [p_core p_up p_down p_missed]. split; [done|]. split; [done|].
    unfold broadcast, miss. rewrite !length_imap. split; [done|]. intros i d m k. rewrite !list_lookup_imap.
    destruct (p_down s !! i) as [d0|] eqn:Ed; [|done]. destruct (p_missed s !! i) as [m0|] eqn:Em; [|done].
    intros [= <-] [= <-] Hk. specialize (Ha i d0 m0 k Ed Em Hk).
    pose proof (encode_delta out l e num_brokers k El Hp Hk) as Hd. rewrite Hs.
    destruct (wedged _ i); rewrite ring_sum_snoc, Hd; lia.
  - apply Compute_not_ready in EC as ->. intros [= <- <-]. done.
Qed.

(** When the coordinator's loop has drained the up rings and ended, the deltas
    that a ring received and the deltas of the rounds in which it was wedged
    add up to what the core bound: a round that a ring missed is not in any
    later record. *)
Theorem lazylog_missed_round_not_resent K wedged c ups downs :
  (0 < K)%nat -> core_fine c -> bound_progress c = ∅ -> Forall (Forall (fun m => local_progress m <= 2 ^ 63 - 1)) ups ->
  exists s', Run K wedged (S (backlog ups)) (mkPoll c ups (repeat [] downs) (repeat [] downs) 0) = Some s' /\
    backlog (p_up s') = 0%nat /\
    forall i d m b, p_down s' !! i = Some d -> p_missed s' !! i = Some m -> in_array b = true ->
      ring_sum b d + ring_sum b m = get (bound_progress (p_core s')) b.
Proof.
  intros HK Hc Hb0 Hu.
  destruct (Run_ends K wedged fine HK (fun s s' b _ => pass_accounted K wedged s s' b) (S (backlog ups))
    (mkPoll c ups (repeat [] downs) (repeat [] downs) 0)) as (s' & H1 & H2 & _ & _ & _ & _ & H3); [simpl; lia|done|done| |].
  - split; [done|]. split; [done|]. split; [by simpl; rewrite !repeat_length|]. simpl. intros i d m b Hd Hm _.
    apply list_elem_of_lookup_2, list_elem_of_In, repeat_spec in Hd.
    apply list_elem_of_lookup_2, list_elem_of_In, repeat_spec in Hm. subst. by rewrite Hb0.
  - by exists s'.
Qed.
End sequencer.
End LazyLogMailboxSequencer.

Import LazyLogBindingCore.

Definition bind_ops : list op :=
  [Register 0; Register 1; Progress 0 0 10; Progress 1 0 4; Compute 2 true; Progress 0 1 12; Progress 0 1 11; Progress 1 1 9].

Lemma lazylog_binds_exactly_witness :
  exists out c', ComputeGlobalBinding (foldl do_op (core_init, []) bind_ops).1 2 true = (Some (out, 1), c') /\
    total ((foldl do_op (core_init, []) bind_ops).2 ++ [out]) 0 = high_water bind_ops 0.
Proof.
  destruct (ComputeGlobalBinding (foldl do_op (core_init, []) bind_ops).1 2 true) as [[[out e]|] c'] eqn:E;
    [|exfalso; revert E; vm_compute; done].
  exists out, c'. destruct (lazylog_binds_exactly bind_ops 2 true out e c') as (_ & H & _); [|done|].
  { repeat constructor; simpl; lia. }
  assert (bool_decide (0 ∈ registered_brokers (foldl do_op (core_init, []) bind_ops).1) = true) as Hb
    by (vm_compute; reflexivity).
  apply bool_decide_eq_true in Hb. split; [|by apply H].
  assert (e = 1) as ->; [|done]. revert E. vm_compute. by intros [= <- <- <-].
Defined.

Import LazyLogMailboxSequencer.

(** Two brokers, each reporting 10 and then 20 messages; the ring of broker 0 is
    wedged in the first round. *)
Definition lazy_ups : list (list LazyLogLocalProgressMsg) :=
  [[mkLocalProgressMsg 10 0 0 0; mkLocalProgressMsg 20 1 0 0]; [mkLocalProgressMsg 10 0 0 1; mkLocalProgressMsg 20 1 0 1]].
Definition lazy_wedged (round b : nat) : bool := (round =? 0)%nat && (b =? 0)%nat.
Definition lazy_core : core := RegisterBroker (RegisterBroker core_init 0) 1.

Lemma lazylog_missed_round_not_resent_witness :
  exists s' d, Run 2 1 lazy_wedged 5 (MailboxSequencer.mkPoll lazy_core lazy_ups [[]; []] [[]; []] 0) = Some s' /\
    MailboxSequencer.p_down s' !! 0%nat = Some d /\ ring_sum 0 d = 10 /\
    get (bound_progress (MailboxSequencer.p_core s')) 0 = 20.
Proof.
  destruct (lazylog_missed_round_not_resent 2 1 lazy_wedged lazy_core lazy_ups 2) as (s' & H1 & H2 & H3).
  - lia.
  - split; [intros b Hb; unfold lazy_core, RegisterBroker in Hb; simpl in Hb|intros b; vm_compute; intuition congruence].
    assert (b = 0 \/ b = 1) as [-> | ->] by set_solver; reflexivity.
  - reflexivity.
  - repeat constructor; simpl; lia.
  - change (S (MailboxSequencer.backlog lazy_ups)) with 5%nat in H1. exists s'.
    assert (exists d, MailboxSequencer.p_down s' !! 0%nat = Some d /\ ring_sum 0 d = 10 /\
      get (bound_progress (MailboxSequencer.p_core s')) 0 = 20) as (d & D1 & D2 & D3).
    { revert H1. vm_compute. intros [= <-]. by eexists. }
    by exists d.
Defined.
