(* ===== verification/Corfu.v ===== *)
(** The Corfu baseline: the token sequencer of
    src/cxl_manager/corfu_sequencer_service.cc as a function and as threads
    that interleave, the sequencer's loop over mailbox rings
    (src/cxl_manager/corfu_mailbox_sequencer.cc) and the client's gate that
    takes tokens in seal order (src/client/corfu_ordered_token_gate.h). *)

From stdpp Require Import strings.
From S2P Require Import Prelude.

Module CorfuSequencer.

Definition kMaxBrokers : Z := 32.

Record request := mkRequest {
  client_id : Z;
  batch_seq : Z;
  num_msg : Z;
  total_size : Z;
  broker_id : Z;
}.
Inductive TokenStatus := OK | INVALID_ARGUMENT | ALREADY_PROCESSED | OUT_OF_ORDER.
Record token := mkToken { total_order : Z; log_idx : Z; broker_batch_seq : Z }.

(** [client_state] keeps each stream's [expected_batch_seq]. *)
Record sequencer := mkSequencer {
  next_order : Z;
  idx_per_broker : gmap Z Z;
  batch_seq_per_broker : gmap Z Z;
  client_state : gmap Z Z;
}.
#[global] Instance eta_sequencer : Eta sequencer := fun q =>
  mkSequencer (next_order q) (idx_per_broker q) (batch_seq_per_broker q) (client_state q).
Definition sequencer_init : sequencer := mkSequencer 0 ∅ ∅ ∅.

Definition client_broker_key (r : request) : Z := Z.lor (client_id r <<u 32) (broker_id r).
Definition invalid (r : request) : bool :=
  (broker_id r <? 0) || (broker_id r >=? kMaxBrokers) || (num_msg r =? 0) || (total_size r =? 0).
Definition counter (m : gmap Z Z) (b : Z) : Z := default 0 (m !! b).

Definition GetOrCreateState (q : sequencer) (key : Z) : sequencer :=
  match client_state q !! key with
  | Some _ => q
  | None => q <| client_state := <[key := 0]> (client_state q) |>
  end.
Definition expected_batch_seq (q : sequencer) (key : Z) : Z := counter (client_state q) key.

(** A call that nothing interleaves with. *)
Definition AssignToken (q : sequencer) (r : request) : TokenStatus * option token * sequencer :=
  if invalid r then (INVALID_ARGUMENT, None, q)
  else
    let key := client_broker_key r in
    let q := GetOrCreateState q key in
    let expected := expected_batch_seq q key in
    if batch_seq r <? expected then (ALREADY_PROCESSED, None, q)
    else if negb (batch_seq r =? expected) then (OUT_OF_ORDER, None, q)
    else
      let start_order := next_order q in
      let log_offset := counter (idx_per_broker q) (broker_id r) in
      let bbseq := counter (batch_seq_per_broker q) (broker_id r) in
      (OK, Some (mkToken start_order log_offset bbseq),
       q <| next_order := start_order +u num_msg r |>
         <| idx_per_broker := <[broker_id r := log_offset +u total_size r]> (idx_per_broker q) |>
         <| batch_seq_per_broker := <[broker_id r := bbseq +u 1]> (batch_seq_per_broker q) |>
         <| client_state := <[key := expected +u 1]> (client_state q) |>).

(** [GetTotalOrder]'s status codes. *)
Inductive grpc_code := GRPC_OK | GRPC_INVALID_ARGUMENT | GRPC_UNAVAILABLE.
Definition GetTotalOrder (q : sequencer) (r : request) : grpc_code * option token * sequencer :=
  let '(status, tok, q) := AssignToken q r in
  match status with
  | OK => (GRPC_OK, tok, q)
  | INVALID_ARGUMENT | ALREADY_PROCESSED => (GRPC_INVALID_ARGUMENT, None, q)
  | OUT_OF_ORDER => (GRPC_UNAVAILABLE, None, q)
  end.

(** * Calls that interleave

    Where a call is: before the client's mutex, before the stream's, at the
    gate, at each of the three atomic additions, at the end of the critical
    section, returned. *)
Inductive pc :=
  | PStart (r : request)
  | PClient (r : request)
  | PGate (r : request)
  | POrder (r : request)
  | PIdx (r : request) (start : Z)
  | PSeq (r : request) (start idx : Z)
  | PBump (r : request) (tok : token)
  | PReturn (r : request) (status : TokenStatus) (tok : option token).

Record system := mkSystem {
  seqr : sequencer;
  client_locks : gset Z;
  stream_locks : gset Z;
  threads : gmap nat pc;
  issued : list (request * Z);
}.
#[global] Instance eta_system : Eta system := fun s =>
  mkSystem (seqr s) (client_locks s) (stream_locks s) (threads s) (issued s).
Definition system_init : system := mkSystem sequencer_init ∅ ∅ ∅ [].

Definition unlock (s : system) (r : request) : system :=
  s <| client_locks := client_locks s ∖ {[client_id r]} |>
    <| stream_locks := stream_locks s ∖ {[client_broker_key r]} |>.
Definition goto (s : system) (t : nat) (p : pc) : system := s <| threads := <[t := p]> (threads s) |>.

(** The next step of call [t]; [None] when it waits for a mutex or has returned. *)
Definition thread_step (s : system) (t : nat) : option system :=
  let q := seqr s in
  match threads s !! t with
  | Some (PStart r) =>
      if invalid r then Some (goto s t (PReturn r INVALID_ARGUMENT None))
      else if decide (client_id r ∈ client_locks s) then None
      else Some (goto (s <| client_locks := {[client_id r]} ∪ client_locks s |>) t (PClient r))
  | Some (PClient r) =>
      let key := client_broker_key r in
      if decide (key ∈ stream_locks s) then None
      else Some (goto (s <| seqr := GetOrCreateState q key |> <| stream_locks := {[key]} ∪ stream_locks s |>) t (PGate r))
  | Some (PGate r) =>
      let expected := expected_batch_seq q (client_broker_key r) in
      if batch_seq r <? expected then Some (goto (unlock s r) t (PReturn r ALREADY_PROCESSED None))
      else if negb (batch_seq r =? expected) then Some (goto (unlock s r) t (PReturn r OUT_OF_ORDER None))
      else Some (goto s t (POrder r))
  | Some (POrder r) =>
      let start := next_order q in
      Some (goto (s <| seqr := q <| next_order := start +u num_msg r |> |> <| issued := issued s ++ [(r, start)] |>)
              t (PIdx r start))
  | Some (PIdx r start) =>
      let idx := counter (idx_per_broker q) (broker_id r) in
      Some (goto (s <| seqr := q <| idx_per_broker := <[broker_id r := idx +u total_size r]> (idx_per_broker q) |> |>)
              t (PSeq r start idx))
  | Some (PSeq r start idx) =>
      let bbseq := counter (batch_seq_per_broker q) (broker_id r) in
      Some (goto (s <| seqr := q <| batch_seq_per_broker := <[broker_id r := bbseq +u 1]> (batch_seq_per_broker q) |> |>)
              t (PBump r (mkToken start idx bbseq)))
  | Some (PBump r tok) =>
      let key := client_broker_key r in
      Some (goto (unlock (s <| seqr := q <| client_state :=
              <[key := expected_batch_seq q key +u 1]> (client_state q) |> |>) r) t (PReturn r OK (Some tok)))
  | _ => None
  end.

Definition request_wf (r : request) : Prop := is_u64 (batch_seq r) /\ is_u64 (num_msg r).

Inductive corfu_step : system -> system -> Prop :=
  | step_call s t r : request_wf r -> threads s !! t = None -> corfu_step s (goto s t (PStart r))
  | step_thread s t s' : thread_step s t = Some s' -> corfu_step s s'.

(** * What the interleaving preserves *)

Definition req_of (p : pc) : request :=
  match p with
  | PStart r | PClient r | PGate r | POrder r | PIdx r _ | PSeq r _ _ | PBump r _ | PReturn r _ _ => r
  end.
(** The call holds the mutex of its stream. *)
Definition in_stream (p : pc) : bool :=
  match p with PGate _ | POrder _ | PIdx _ _ | PSeq _ _ _ | PBump _ _ => true | _ => false end.
(** The call has its place in the order and has not moved the gate yet. *)
Definition ordered (p : pc) : bool := match p with PIdx _ _ | PSeq _ _ _ | PBump _ _ => true | _ => false end.
Definition start_of (p : pc) : option Z :=
  match p with
  | PIdx _ start | PSeq _ start _ => Some start
  | PBump _ tok | PReturn _ _ (Some tok) => Some (total_order tok)
  | _ => None
  end.

Definition of_key (k : Z) (l : list (request * Z)) : list (request * Z) := filter (fun e => client_broker_key e.1 = k) l.
Definition msgs (l : list (request * Z)) : Z := foldr (fun e acc => num_msg e.1 + acc) 0 l.

Record inv (s : system) : Prop := {
  v_lock : forall t p, threads s !! t = Some p -> in_stream p = true -> client_broker_key (req_of p) ∈ stream_locks s;
  v_excl : forall t1 t2 p1 p2, t1 <> t2 -> threads s !! t1 = Some p1 -> threads s !! t2 = Some p2 ->
    in_stream p1 = true -> in_stream p2 = true -> client_broker_key (req_of p1) <> client_broker_key (req_of p2);
  v_wf : forall t p, threads s !! t = Some p -> request_wf (req_of p) /\ (in_stream p = true -> 0 < num_msg (req_of p));
  v_valid : forall t r, threads s !! t = Some (PClient r) -> 0 < num_msg r;
  v_fifo : forall k, (fun e => batch_seq e.1) <$> of_key k (issued s) = seqZ 0 (Z.of_nat (length (of_key k (issued s))));
  v_moved : forall k, (forall t p, threads s !! t = Some p -> ordered p = true -> client_broker_key (req_of p) <> k) ->
    expected_batch_seq (seqr s) k = Z.of_nat (length (of_key k (issued s)));
  v_moving : forall t p, threads s !! t = Some p -> ordered p = true ->
    expected_batch_seq (seqr s) (client_broker_key (req_of p)) + 1 =
      Z.of_nat (length (of_key (client_broker_key (req_of p)) (issued s)));
  v_gate : forall t r, threads s !! t = Some (POrder r) -> batch_seq r = expected_batch_seq (seqr s) (client_broker_key r);
  v_next : next_order (seqr s) = msgs (issued s);
  v_order : forall i r start, issued s !! i = Some (r, start) -> start = msgs (take i (issued s)) /\ 0 < num_msg r;
  v_token : forall t p start, threads s !! t = Some p -> start_of p = Some start -> (req_of p, start) ∈ issued s;
}.

Lemma ordered_in_stream p : ordered p = true -> in_stream p = true.
Proof. by destruct p. Qed.

Lemma msgs_app l l' : msgs (l ++ l') = msgs l + msgs l'.
Proof. induction l as [|e l IH]; simpl; [done|]. rewrite IH. lia. Qed.
Lemma msgs_length l : Forall (fun e => 0 < num_msg e.1) l -> Z.of_nat (length l) <= msgs l.
Proof. induction 1; simpl; lia. Qed.
Lemma of_key_snoc k l e : of_key k (l ++ [e]) = of_key k l ++ (if decide (client_broker_key e.1 = k) then [e] else []).
Proof. unfold of_key. rewrite filter_app, filter_cons. by case_decide. Qed.

Lemma invalid_num r : request_wf r -> invalid r = false -> 0 < num_msg r.
Proof. intros [_ H] Hi. unfold invalid in Hi. bool_props. word_unfold. lia. Qed.

(** A step that issues nothing and moves no gate. *)
Lemma inv_quiet s s' t p p' :
  inv s -> threads s !! t = Some p -> threads s' = <[t := p']> (threads s) ->
  issued s' = issued s -> next_order (seqr s') = next_order (seqr s) ->
  (forall k, expected_batch_seq (seqr s') k = expected_batch_seq (seqr s) k) ->
  req_of p' = req_of p -> ordered p' = ordered p -> start_of p' = start_of p ->
  (in_stream p' = true -> client_broker_key (req_of p) ∈ stream_locks s' /\ 0 < num_msg (req_of p) /\
     (in_stream p = true \/ client_broker_key (req_of p) ∉ stream_locks s)) ->
  (forall k, k ∈ stream_locks s -> k ∈ stream_locks s' \/ (k = client_broker_key (req_of p) /\ in_stream p = true)) ->
  (forall r, p' = PClient r -> 0 < num_msg r) ->
  (forall r, p' = POrder r -> batch_seq r = expected_batch_seq (seqr s) (client_broker_key r)) ->
  inv s'.
Proof.
  intros Hi Ht ET EI EN EX Er Eo Es Hin Hlk Hcl Hor. pose proof Hi as [H1 H2 H3 H4 H5 H6 H7 H8 H9 H10 H11].
  split; rewrite ?ET, ?EI, ?EN.
  - intros t' q. rewrite lookup_insert_Some. intros [[<- <-]|[Hne Hq]] Hs; [rewrite Er; by apply Hin|].
    destruct (Hlk _ (H1 _ _ Hq Hs)) as [|[Hk Hp]]; [done|]. by destruct (H2 _ _ _ _ Hne Ht Hq Hp Hs).
  - assert (forall t' q, t' <> t -> threads s !! t' = Some q -> in_stream q = true -> in_stream p' = true ->
      client_broker_key (req_of q) <> client_broker_key (req_of p)) as Hx.
    { intros t' q Hne Hq Hs Hp. destruct (Hin Hp) as (_ & _ & [Hold|Hfree]).
      - by apply (H2 t' t q p).
      - intros E. apply Hfree. rewrite <- E. by apply (H1 t'). }
    intros t1 t2 q1 q2 Hne. rewrite !lookup_insert_Some.
    intros [[<- <-]|[N1 Q1]] [[<- <-]|[N2 Q2]] S1 S2; [done| | |by apply (H2 t1 t2)]; rewrite Er.
    + intros E. by apply (Hx t2 q2).
    + by apply (Hx t1 q1).
  - intros t' q. rewrite lookup_insert_Some. intros [[<- <-]|[Hne Hq]]; [|by apply (H3 t')]. rewrite Er.
    split; [apply (H3 _ _ Ht)|]. intros Hs. by apply Hin.
  - intros t' r. rewrite lookup_insert_Some. intros [[_ E]|[_ Hq]]; [by apply Hcl|by apply (H4 t')].
  - done.
  - intros k Hk. rewrite EX. apply H6. intros t' q Hq Ho. destruct (decide (t' = t)) as [->|Hne].
    + rewrite Ht in Hq. simplify_eq. rewrite <- Er. apply (Hk t); [by rewrite lookup_insert_eq|congruence].
    + apply (Hk t'); [by rewrite lookup_insert_ne|done].
  - intros t' q. rewrite EX, lookup_insert_Some. intros [[<- <-]|[Hne Hq]] Ho; [|by apply (H7 t')].
    rewrite Er. apply (H7 t); [done|congruence].
  - intros t' r. rewrite EX, lookup_insert_Some. intros [[_ E]|[_ Hq]]; [by apply Hor|by apply (H8 t')].
  - done.
  - done.
  - intros t' q start. rewrite lookup_insert_Some. intros [[<- <-]|[_ Hq]]; [|by apply (H11 t')].
    rewrite Er, Es. by apply (H11 t).
Qed.

Lemma counter_insert m k x k' : counter (<[k := x]> m) k' = if decide (k = k') then x else counter m k'.
Proof. unfold counter. case_decide; [subst; by rewrite lookup_insert_eq|by rewrite lookup_insert_ne]. Qed.

Lemma GetOrCreate_expected q key k : expected_batch_seq (GetOrCreateState q key) k = expected_batch_seq q k.
Proof.
  unfold GetOrCreateState, expected_batch_seq. destruct (client_state q !! key) eqn:E; [done|]. simpl.
  rewrite counter_insert. case_decide; [subst|done]. unfold counter. by rewrite E.
Qed.

(** No other call is in the stream of a call that is. *)
Lemma alone s t p t' p' :
  inv s -> threads s !! t = Some p -> in_stream p = true -> threads s !! t' = Some p' -> in_stream p' = true ->
  t' = t \/ client_broker_key (req_of p') <> client_broker_key (req_of p).
Proof. intros Hi Ht Hs Ht' Hs'. destruct (decide (t' = t)); [by left|right]. by apply (v_excl _ Hi t' t). Qed.

Lemma seqZ_snoc n : seqZ 0 (Z.of_nat n + 1) = seqZ 0 (Z.of_nat n) ++ [Z.of_nat n].
Proof. rewrite seqZ_app by lia. f_equal. Qed.

Lemma order_inv s t r :
  inv s -> threads s !! t = Some (POrder r) -> msgs (issued s ++ [(r, next_order (seqr s))]) < 2 ^ 64 ->
  inv (goto (s <| seqr := (seqr s) <| next_order := next_order (seqr s) +u num_msg r |> |>
               <| issued := issued s ++ [(r, next_order (seqr s))] |>) t (PIdx r (next_order (seqr s)))).
Proof.
  intros Hi Ht Hb. pose proof Hi as [H1 H2 H3 H4 H5 H6 H7 H8 H9 H10 H11].
  destruct (H3 _ _ Ht) as [Hwf Hpos]. specialize (Hpos eq_refl). simpl in Hpos.
  assert (0 <= msgs (issued s)).
  { pose proof (msgs_length (issued s)) as Hm. assert (Z.of_nat (length (issued s)) <= msgs (issued s)); [|lia].
    apply Hm, Forall_lookup. intros i [r' st] Hl. by apply (H10 i r' st). }
  rewrite msgs_app in Hb. simpl in Hb.
  assert (expected_batch_seq (seqr s) (client_broker_key r) =
    Z.of_nat (length (of_key (client_broker_key r) (issued s)))) as Hexp.
  { apply H6. intros t' p' Ht' Ho. destruct (alone s t _ t' p' Hi Ht eq_refl Ht' (ordered_in_stream _ Ho)) as [->|]; [|done].
    rewrite Ht in Ht'. by simplify_eq. }
  assert (forall t' p', t' <> t -> threads s !! t' = Some p' -> in_stream p' = true ->
    client_broker_key (req_of p') <> client_broker_key r) as Hal.
  { intros t' p' Hne Ht' Hs'. destruct (alone s t _ t' p' Hi Ht eq_refl Ht' Hs') as [->|]; done. }
  split; cbn [threads issued seqr stream_locks goto]; simpl.
  - intros t' q. rewrite lookup_insert_Some. intros [[<- <-]|[_ Hq]]; [|by apply (H1 t')]. intros _. by apply (H1 t _ Ht).
  - intros t1 t2 q1 q2 Hne. rewrite !lookup_insert_Some.
    intros [[<- <-]|[N1 Q1]] [[<- <-]|[N2 Q2]] S1 S2; [done| | |by apply (H2 t1 t2)]; simpl.
    + intros E. by apply (Hal t2 q2).
    + by apply (Hal t1 q1).
  - intros t' q. rewrite lookup_insert_Some. intros [[<- <-]|[_ Hq]]; [done|by apply (H3 t')].
  - intros t' r'. rewrite lookup_insert_Some. intros [[_ E]|[_ Hq]]; [done|by apply (H4 t')].
  - intros k. rewrite of_key_snoc, fmap_app, length_app, H5. simpl. case_decide as Hk; simpl; [|by rewrite app_nil_r, Nat.add_0_r].
    subst k. rewrite Nat2Z.inj_add, seqZ_snoc. do 2 f_equal. by rewrite (H8 _ _ Ht).
  - intros k Hk. rewrite of_key_snoc. simpl. case_decide as E.
    + exfalso. apply (Hk t (PIdx r (next_order (seqr s)))); [by rewrite lookup_insert_eq|done|done].
    + rewrite app_nil_r. apply H6. intros t' p' Ht' Ho. destruct (decide (t' = t)) as [->|Hne].
      * rewrite Ht in Ht'. by simplify_eq.
      * apply (Hk t'); [by rewrite lookup_insert_ne|done].
  - intros t' p'. rewrite lookup_insert_Some. intros [[<- <-]|[Hne Ht']] Ho; rewrite of_key_snoc, length_app; simpl.
    + rewrite decide_True by done. simpl. unfold expected_batch_seq in *. simpl. rewrite Hexp. lia.
    + rewrite decide_False; [|intros E; exact (Hal t' p' (not_eq_sym Hne) Ht' (ordered_in_stream _ Ho) (eq_sym E))]. simpl.
      rewrite Nat.add_0_r. by apply (H7 t').
  - intros t' r'. rewrite lookup_insert_Some. intros [[_ E]|[_ Hq]]; [done|by apply (H8 t')].
  - rewrite H9, msgs_app. simpl. word_unfold. rewrite Z.mod_small by lia. lia.
  - intros i r' st. rewrite lookup_app_Some. intros [Hl|[Hi' Hl]].
    + rewrite take_app_le by (by apply lookup_lt_Some in Hl; lia). by apply H10.
    + apply list_lookup_singleton_Some in Hl as [Hz [= <- <-]]. split; [|done].
      rewrite H9, take_app_ge by lia. replace (i - length (issued s))%nat with 0%nat by lia. by rewrite app_nil_r.
  - intros t' p' st. rewrite lookup_insert_Some. intros [[<- <-]|[_ Ht']] Hst; [injection Hst as <-; set_solver|].
    apply elem_of_app. left. by apply (H11 t').
Qed.

Lemma bump_inv s t r tok :
  inv s -> threads s !! t = Some (PBump r tok) -> msgs (issued s) < 2 ^ 64 ->
  inv (goto (unlock (s <| seqr := (seqr s) <| client_state :=
      <[client_broker_key r := expected_batch_seq (seqr s) (client_broker_key r) +u 1]> (client_state (seqr s)) |> |>) r)
    t (PReturn r OK (Some tok))).
Proof.
  intros Hi Ht Hb. pose proof Hi as [H1 H2 H3 H4 H5 H6 H7 H8 H9 H10 H11].
  pose proof (H7 _ _ Ht eq_refl) as Hm. simpl in Hm.
  assert (Z.of_nat (length (issued s)) <= msgs (issued s)) as Hlen.
  { apply msgs_length, Forall_lookup. intros i [r' st] Hl. by apply (H10 i r' st). }
  assert (length (of_key (client_broker_key r) (issued s)) <= length (issued s))%nat by apply length_filter.
  assert (0 <= expected_batch_seq (seqr s) (client_broker_key r)) as Hnn.
  { destruct (of_key (client_broker_key r) (issued s)) eqn:E; simpl in Hm; [|lia].
    exfalso. pose proof (H11 _ _ _ Ht eq_refl) as Hin. simpl in Hin.
    assert ((r, total_order tok) ∈ of_key (client_broker_key r) (issued s)) as Hk by (by apply list_elem_of_filter).
    rewrite E in Hk. by apply elem_of_nil in Hk. }
  assert (forall k, expected_batch_seq ((seqr s) <| client_state := <[client_broker_key r :=
      expected_batch_seq (seqr s) (client_broker_key r) +u 1]> (client_state (seqr s)) |>) k =
    if decide (client_broker_key r = k) then expected_batch_seq (seqr s) k + 1 else expected_batch_seq (seqr s) k) as EX.
  { intros k. unfold expected_batch_seq at 1. simpl. rewrite counter_insert. case_decide; [subst|done].
    rewrite u64_id by (word_unfold; lia). done. }
  assert (forall t' p', t' <> t -> threads s !! t' = Some p' -> in_stream p' = true ->
    client_broker_key (req_of p') <> client_broker_key r) as Hal.
  { intros t' p' Hne Ht' Hs'. destruct (alone s t _ t' p' Hi Ht eq_refl Ht' Hs') as [->|]; done. }
  split; unfold unlock, goto; cbn [threads issued seqr stream_locks].
  - intros t' q. simpl. rewrite lookup_insert_Some. intros [[<- <-]|[Hne Hq]] Hs; [done|].
    apply elem_of_difference. split; [by apply (H1 t')|]. rewrite elem_of_singleton. by apply (Hal t').
  - intros t1 t2 q1 q2 Hne. simpl. rewrite !lookup_insert_Some.
    intros [[<- <-]|[N1 Q1]] [[<- <-]|[N2 Q2]] S1 S2; try done. by apply (H2 t1 t2).
  - intros t' q. simpl. rewrite lookup_insert_Some. intros [[<- <-]|[_ Hq]]; [|by apply (H3 t')].
    split; [apply (H3 _ _ Ht)|done].
  - intros t' r'. simpl. rewrite lookup_insert_Some. intros [[_ E]|[_ Hq]]; [done|by apply (H4 t')].
  - exact H5.
  - intros k Hk. rewrite EX. simpl in Hk. case_decide as E; [by subst k|]. apply H6. intros t' p' Ht' Ho.
    destruct (decide (t' = t)) as [->|Hne]; [rewrite Ht in Ht'; by simplify_eq|].
    apply (Hk t'); [by rewrite lookup_insert_ne|done].
  - intros t' p'. simpl threads. rewrite lookup_insert_Some. intros [[<- <-]|[Hne Ht']] Ho; [done|].
    rewrite EX, decide_False; [by apply (H7 t')|]. intros E.
    exact (Hal t' p' (not_eq_sym Hne) Ht' (ordered_in_stream _ Ho) (eq_sym E)).
  - intros t' r'. simpl threads. rewrite lookup_insert_Some. intros [[_ E]|[Hne Ht']]; [done|].
    rewrite EX, decide_False; [by apply (H8 t')|]. intros E. by apply (Hal t' (POrder r')).
  - exact H9.
  - exact H10.
  - intros t' p' st. simpl threads. rewrite lookup_insert_Some. intros [[<- <-]|[_ Ht']] Hst; [|by apply (H11 t')].
    by apply (H11 t (PBump r tok)).
Qed.

Lemma invalid_return_inv s t r :
  inv s -> threads s !! t = Some (PStart r) -> inv (goto s t (PReturn r INVALID_ARGUMENT None)).
Proof. intros Hi Ht. eapply (inv_quiet s _ t _ _ Hi Ht); [reflexivity|..]; try done. intros k Hk. by left. Qed.

Lemma client_inv s t r :
  inv s -> threads s !! t = Some (PStart r) -> invalid r = false ->
  inv (goto (s <| client_locks := {[client_id r]} ∪ client_locks s |>) t (PClient r)).
Proof.
  intros Hi Ht Hv. eapply (inv_quiet s _ t _ _ Hi Ht); [reflexivity|..]; try done.
  - intros k Hk. by left.
  - intros r' [= <-]. apply invalid_num; [by apply (v_wf _ Hi _ _ Ht)|done].
Qed.

Lemma stream_inv s t r :
  inv s -> threads s !! t = Some (PClient r) -> client_broker_key r ∉ stream_locks s ->
  inv (goto (s <| seqr := GetOrCreateState (seqr s) (client_broker_key r) |>
               <| stream_locks := {[client_broker_key r]} ∪ stream_locks s |>) t (PGate r)).
Proof.
  intros Hi Ht Hf. eapply (inv_quiet s _ t _ _ Hi Ht); [reflexivity|..]; try done.
  - simpl. unfold GetOrCreateState. by destruct (client_state (seqr s) !! _).
  - intros k. apply GetOrCreate_expected.
  - intros _. split_and!; [simpl; set_solver|exact (v_valid _ Hi t r Ht)|by right].
  - intros k Hk. left. simpl. set_solver.
Qed.

Lemma refuse_inv s t r status :
  inv s -> threads s !! t = Some (PGate r) -> inv (goto (unlock s r) t (PReturn r status None)).
Proof.
  intros Hi Ht. eapply (inv_quiet s _ t _ _ Hi Ht); [reflexivity|..]; try done.
  intros k Hk. simpl. destruct (decide (k = client_broker_key r)) as [->|]; [by right|left]. set_solver.
Qed.

Lemma forward_inv s t p p' q :
  inv s -> threads s !! t = Some p -> in_stream p = true -> in_stream p' = true ->
  req_of p' = req_of p -> ordered p' = ordered p -> start_of p' = start_of p ->
  next_order q = next_order (seqr s) -> client_state q = client_state (seqr s) ->
  (forall r, p' = POrder r -> batch_seq r = expected_batch_seq (seqr s) (client_broker_key r)) ->
  inv (goto (s <| seqr := q |>) t p').
Proof.
  intros Hi Ht Hs Hs' Er Eo Es En Ec Hor. eapply (inv_quiet s _ t _ _ Hi Ht); [reflexivity|..]; try done.
  - intros k. unfold expected_batch_seq. simpl. by rewrite Ec.
  - intros _. split_and!; [by apply (v_lock _ Hi t)|by apply (v_wf _ Hi _ _ Ht)|by left].
  - intros k Hk. by left.
  - intros r ->. done.
Qed.

Lemma thread_step_inv s t s' : inv s -> thread_step s t = Some s' -> msgs (issued s') < 2 ^ 64 -> inv s'.
Proof.
  intros Hi H Hb. unfold thread_step in H.
  destruct (threads s !! t) as [[r|r|r|r|r start|r start idx|r tok|r st tok]|] eqn:Ht; [..|done|done].
  - destruct (invalid r) eqn:Hv; [|case_decide; [done|]]; injection H as <-.
    + by apply invalid_return_inv.
    + by apply client_inv.
  - case_decide; [done|]. injection H as <-. by apply stream_inv.
  - destruct (_ <? _) eqn:E1; [|destruct (negb _) eqn:E2]; injection H as <-.
    + by apply refuse_inv.
    + by apply refuse_inv.
    + apply negb_false_iff, Z.eqb_eq in E2.
      eapply (inv_quiet s _ t _ _ Hi Ht); [reflexivity|..]; try done.
      * intros _. split_and!; [by apply (v_lock _ Hi t _ Ht)|by apply (v_wf _ Hi _ _ Ht)|by left].
      * intros k Hk. by left.
      * by intros r' [= <-].
  - injection H as <-. by apply order_inv.
  - injection H as <-. by eapply forward_inv.
  - injection H as <-. by eapply forward_inv.
  - injection H as <-. by apply bump_inv.
Qed.

Lemma call_inv s t r : inv s -> request_wf r -> threads s !! t = None -> inv (goto s t (PStart r)).
Proof.
  intros [H1 H2 H3 H4 H5 H6 H7 H8 H9 H10 H11] Hr Ht. split; simpl; try done.
  - intros t' q. rewrite lookup_insert_Some. intros [[<- <-]|[_ Hq]]; [done|by apply (H1 t')].
  - intros t1 t2 q1 q2 Hne. rewrite !lookup_insert_Some.
    intros [[<- <-]|[N1 Q1]] [[<- <-]|[N2 Q2]] S1 S2; try done. by apply (H2 t1 t2).
  - intros t' q. rewrite lookup_insert_Some. intros [[<- <-]|[_ Hq]]; [done|by apply (H3 t')].
  - intros t' r'. rewrite lookup_insert_Some. intros [[_ E]|[_ Hq]]; [done|by apply (H4 t')].
  - intros k Hk. apply H6. intros t' p' Ht'. apply (Hk t'). rewrite lookup_insert_ne; [done|]. intros ->. congruence.
  - intros t' p'. rewrite lookup_insert_Some. intros [[<- <-]|[_ Hq]] Ho; [done|by apply (H7 t')].
  - intros t' r'. rewrite lookup_insert_Some. intros [[_ E]|[_ Hq]]; [done|by apply (H8 t')].
  - intros t' p' st. rewrite lookup_insert_Some. intros [[<- <-]|[_ Hq]] Hst; [done|by apply (H11 t')].
Qed.

Lemma step_inv s s' : corfu_step s s' -> msgs (issued s') < 2 ^ 64 -> inv s -> inv s'.
Proof. intros [? t r Hr Ht|? t ? H] Hb Hi; [by apply call_inv|by eapply thread_step_inv]. Qed.

(** The requests are well-typed, so the number of messages only grows. *)
Definition typed (s : system) : Prop := map_Forall (fun _ p => request_wf (req_of p)) (threads s).

Lemma typed_goto s s' t p p' :
  typed s -> threads s !! t = Some p -> threads s' = threads s -> req_of p' = req_of p -> typed (goto s' t p').
Proof.
  intros Hs Ht E Er. unfold typed. simpl. rewrite E. apply map_Forall_insert_2; [|done]. rewrite Er. exact (Hs t p Ht).
Qed.

Lemma step_typed s s' : corfu_step s s' -> typed s -> typed s' /\ msgs (issued s) <= msgs (issued s').
Proof.
  intros [? t r Hr Ht|? t ? H] Hs; [split; [by apply map_Forall_insert_2|done]|]. unfold thread_step in H.
  destruct (threads _ !! t) as [p|] eqn:Ht; [|done]. pose proof (Hs _ _ Ht) as [_ Hp].
  destruct p as [r|r|r|r|r start|r start idx|r tok|r st tok]; try done;
    repeat (first [case_decide | destruct (invalid _) | destruct (_ <? _) | destruct (negb _)]; try done);
    injection H as <-; (split; [by eapply typed_goto|]); simpl; try lia.
  rewrite msgs_app. simpl in *. word_unfold. lia.
Qed.

Lemma corfu_run_inv s s' : rtc corfu_step s s' -> msgs (issued s') < 2 ^ 64 -> typed s -> inv s -> inv s'.
Proof.
  intros Hr Hb. induction Hr as [|s s1 s' Hstep Hr IH]; intros Ht Hi; [done|].
  destruct (step_typed _ _ Hstep Ht) as [Ht1 _]. apply IH; [done..|]. apply (step_inv s); [done| |done].
  clear -Hr Hb Ht1. revert Ht1. induction Hr as [|s s1 s' Hstep Hr IH]; intros Ht; [done|].
  destruct (step_typed _ _ Hstep Ht). specialize (IH Hb ltac:(done)). lia.
Qed.

Lemma init_inv : inv system_init.
Proof.
  split; intros *; simpl; try (by rewrite lookup_empty); try done.
Qed.

(** C27. However the calls of many clients interleave, the tokens that are issued are
    for disjoint ranges of the total order, in the order in which they were
    taken; each stream of a client to a broker has its batches issued once
    each, in sequence; and a call that returns a token was issued its range. *)
Theorem corfu_tokens_exactly_once s :
  rtc corfu_step system_init s -> msgs (issued s) < 2 ^ 64 ->
  (forall i j r st r' st', (i < j)%nat -> issued s !! i = Some (r, st) -> issued s !! j = Some (r', st') ->
     st + num_msg r <= st') /\
  (forall k, (fun e => batch_seq e.1) <$> of_key k (issued s) = seqZ 0 (Z.of_nat (length (of_key k (issued s))))) /\
  (forall t r tok, threads s !! t = Some (PReturn r OK (Some tok)) -> (r, total_order tok) ∈ issued s).
Proof.
  intros Hr Hb. assert (inv s) as Hi by (apply (corfu_run_inv _ _ Hr Hb); [by apply map_Forall_empty|apply init_inv]).
  split_and!.
  - intros i j r st r' st' Hij Hl Hl'. destruct (v_order _ Hi _ _ _ Hl) as [-> _]. destruct (v_order _ Hi _ _ _ Hl') as [-> _].
    replace j with (S i + (j - S i))%nat by lia. rewrite <- (take_take_drop (issued s) (S i) (j - S i)), msgs_app.
    rewrite (take_S_r _ _ _ Hl), msgs_app. simpl.
    assert (0 <= msgs (take (j - S i) (drop (S i) (issued s)))); [|lia].
    assert (Forall (fun e => 0 < num_msg e.1) (issued s)) as HF.
    { apply Forall_lookup. intros n [r0 st0] Hn. by apply (v_order _ Hi n r0 st0). }
    pose proof (msgs_length _ (Forall_take _ (j - S i) _ (Forall_drop _ (S i) _ HF))). lia.
  - apply (v_fifo _ Hi).
  - intros t r tok Ht. by apply (v_token _ Hi t _ _ Ht).
Qed.

(** [n] steps of the one call. *)
Fixpoint call_run (t n : nat) (s : system) : option system :=
  match n with O => Some s | S n => thread_step s t ≫= call_run t n end.

Lemma call_run_S t n s s' : thread_step s t = Some s' -> call_run t (S n) s = call_run t n s'.
Proof. intros H. simpl. by rewrite H. Qed.

(** A call that runs alone computes [AssignToken]. *)
Lemma call_alone s t r :
  threads s !! t = Some (PStart r) -> client_id r ∉ client_locks s -> client_broker_key r ∉ stream_locks s ->
  exists n s', call_run t n s = Some s' /\
    threads s' !! t = Some (PReturn r (AssignToken (seqr s) r).1.1 (AssignToken (seqr s) r).1.2) /\
    seqr s' = (AssignToken (seqr s) r).2.
Proof.
  intros Ht Hc Hs. unfold AssignToken.
  assert (thread_step s t = Some (if invalid r then goto s t (PReturn r INVALID_ARGUMENT None)
    else goto (s <| client_locks := {[client_id r]} ∪ client_locks s |>) t (PClient r))) as E1.
  { unfold thread_step. rewrite Ht. destruct (invalid r); [done|]. by rewrite decide_False. }
  destruct (invalid r); [exists 1%nat; eexists; split; [by rewrite (call_run_S _ _ _ _ E1)|]; simpl; by rewrite lookup_insert_eq|].
  set (s1 := goto _ _ (PClient r)) in E1.
  assert (thread_step s1 t = Some (goto (s1 <| seqr := GetOrCreateState (seqr s) (client_broker_key r) |>
    <| stream_locks := {[client_broker_key r]} ∪ stream_locks s |>) t (PGate r))) as E2.
  { unfold thread_step, s1. simpl. rewrite lookup_insert_eq. by rewrite decide_False. }
  set (s2 := goto _ _ (PGate r)) in E2.
  assert (thread_step s2 t = Some (
    if batch_seq r <? expected_batch_seq (seqr s2) (client_broker_key r) then goto (unlock s2 r) t (PReturn r ALREADY_PROCESSED None)
    else if negb (batch_seq r =? expected_batch_seq (seqr s2) (client_broker_key r))
    then goto (unlock s2 r) t (PReturn r OUT_OF_ORDER None) else goto s2 t (POrder r))) as E3.
  { unfold thread_step at 1, s2. simpl threads. rewrite lookup_insert_eq. by repeat destruct (_ : bool). }
  change (GetOrCreateState (seqr s) (client_broker_key r)) with (seqr s2).
  destruct (_ <? _).
  { exists 3%nat. eexists. split; [by rewrite (call_run_S _ _ _ _ E1), (call_run_S _ _ _ _ E2), (call_run_S _ _ _ _ E3)|].
    simpl. by rewrite lookup_insert_eq. }
  destruct (negb _).
  { exists 3%nat. eexists. split; [by rewrite (call_run_S _ _ _ _ E1), (call_run_S _ _ _ _ E2), (call_run_S _ _ _ _ E3)|].
    simpl. by rewrite lookup_insert_eq. }
  exists 7%nat. eexists. split.
  { rewrite (call_run_S _ _ _ _ E1), (call_run_S _ _ _ _ E2), (call_run_S _ _ _ _ E3).
    do 4 (erewrite call_run_S; [|unfold thread_step; simpl threads; rewrite lookup_insert_eq; reflexivity]). reflexivity. }
  simpl. split; [by rewrite lookup_insert_eq|]. done.
Qed.
End CorfuSequencer.

Module CorfuMailboxSequencer.
Import CorfuSequencer.

Record CorfuTokenRequest := mkTokenRequest {
  tr_client_id : Z;
  tr_batch_seq : Z;
  tr_num_msg : Z;
  tr_total_size : Z;
  tr_session_id : Z;
  tr_correlation_id : Z;
  tr_broker_id : Z;
}.
Record CorfuTokenGrant := mkTokenGrant {
  tg_total_order : Z;
  tg_log_idx : Z;
  tg_broker_batch_seq : Z;
  tg_client_id : Z;
  tg_batch_seq : Z;
  tg_session_id : Z;
  tg_correlation_id : Z;
  tg_broker_id : Z;
  tg_status : Z;
}.

Definition StatusToGrantValue (status : TokenStatus) : Z :=
  match status with OK => 0 | INVALID_ARGUMENT => 1 | ALREADY_PROCESSED => 2 | OUT_OF_ORDER => 3 end.

(** [static_cast<int>] of a 32-bit unsigned. *)
Definition to_int (x : Z) : Z := if x <? 2147483648 then x else x - 4294967296.

Definition request_of (m : CorfuTokenRequest) : request :=
  mkRequest (tr_client_id m) (tr_batch_seq m) (tr_num_msg m) (tr_total_size m) (to_int (tr_broker_id m)).

Definition grant_of (m : CorfuTokenRequest) (status : TokenStatus) (tok : option token) : CorfuTokenGrant :=
  let tok := match status with OK => default (mkToken 0 0 0) tok | _ => mkToken 0 0 0 end in
  mkTokenGrant (total_order tok) (log_idx tok) (broker_batch_seq tok) (tr_client_id m) (tr_batch_seq m)
    (tr_session_id m) (tr_correlation_id m) (tr_broker_id m) (StatusToGrantValue status).

Section drain.
  (** The capacity of the down ring. *)
  Context (capacity : nat).

Definition HasSpace (down : list CorfuTokenGrant) : bool := (length down <? capacity)%nat.
Definition TryProduce (down : list CorfuTokenGrant) (g : CorfuTokenGrant) : option (list CorfuTokenGrant) :=
  if (length down <? capacity)%nat then Some (down ++ [g]) else None.

(** The loop over at most [K] requests; a refused grant fails the CHECK. *)
Fixpoint DrainBrokerRequests (K : nat) (q : sequencer) (up : list CorfuTokenRequest) (down : list CorfuTokenGrant)
    (processed : nat) : option (sequencer * list CorfuTokenRequest * list CorfuTokenGrant * nat) :=
  match K with
  | O => Some (q, up, down, processed)
  | S K =>
      if negb (HasSpace down) then Some (q, up, down, processed)
      else match up with
           | [] => Some (q, up, down, processed)
           | m :: up =>
               let '(status, tok, q) := AssignToken q (request_of m) in
               down ← TryProduce down (grant_of m status tok);
               DrainBrokerRequests K q up down (S processed)
           end
  end.

(** One answer for each request, in their order. *)
Fixpoint answers (q : sequencer) (ms : list CorfuTokenRequest) : list CorfuTokenGrant * sequencer :=
  match ms with
  | [] => ([], q)
  | m :: ms =>
      let '(status, tok, q) := AssignToken q (request_of m) in
      let '(gs, q) := answers q ms in (grant_of m status tok :: gs, q)
  end.

(** No token is lost between the sequencer and the ring: the pass over a broker takes
    as many requests as it may, as wait, and as the down ring has room for, and
    each of them is answered on the ring, in order, with its identity and the
    token it was assigned; the CHECK on the ring's room cannot fail. *)
Theorem corfu_drain_delivers K : forall q up down processed,
  let n := Nat.min K (Nat.min (capacity - length down) (length up)) in
  DrainBrokerRequests K q up down processed =
    Some ((answers q (take n up)).2, drop n up, down ++ (answers q (take n up)).1, (processed + n)%nat).
Proof.
  induction K as [|K IH]; intros q up down processed n; subst n; cbn [DrainBrokerRequests].
  { simpl. by rewrite app_nil_r, Nat.add_0_r. }
  unfold HasSpace, TryProduce. destruct (length down <? capacity)%nat eqn:E; simpl negb; cbv iota.
  2:{ apply Nat.ltb_ge in E. replace (capacity - length down)%nat with 0%nat by lia.
      rewrite Nat.min_0_l, Nat.min_0_r. simpl. by rewrite app_nil_r, Nat.add_0_r. }
  apply Nat.ltb_lt in E. destruct up as [|m up].
  { simpl. rewrite Nat.min_0_r, ?Nat.min_0_r. simpl. by rewrite app_nil_r, Nat.add_0_r. }
  replace (Nat.min (S K) (Nat.min (capacity - length down) (length (m :: up))))
    with (S (Nat.min K (Nat.min (capacity - S (length down)) (length up)))) by (cbn [length]; lia).
  cbn [take drop answers]. destruct (AssignToken q (request_of m)) as [[status tok] q'].
  cbn [mbind option_bind]. rewrite IH, length_app. simpl length.
  replace (length down + 1)%nat with (S (length down)) by lia.
  set (n := Nat.min K _). destruct (answers q' (take n up)) as [gs q'']. simpl. rewrite <- app_assoc. simpl.
  by replace (processed + S n)%nat with (S (processed + n)) by lia.
Qed.
End drain.
End CorfuMailboxSequencer.

Module CorfuOrderedTokenGate.

Record gate := mkGate {
  next_ticket : Z;
  turn_held : bool;
  held_ticket : Z;
  aborted : bool;
  abort_transitions : Z;
  abort_reason : string;
}.
#[global] Instance eta_gate : Eta gate := fun g =>
  mkGate (next_ticket g) (turn_held g) (held_ticket g) (aborted g) (abort_transitions g) (abort_reason g).
Definition gate_init : gate := mkGate 0 false 0 false 0 EmptyString.

Definition AbortLocked (g : gate) (reason : string) : bool * gate :=
  if aborted g then (false, g)
  else (true, g <| aborted := true |> <| abort_reason := reason |> <| abort_transitions := abort_transitions g +u 1 |>).

Record AcquireResult := mkAcquire {
  acquired : bool;
  abort_transition : bool;
  ar_next_ticket : Z;
  ar_reason : string;
}.

(** One turn of [Acquire]'s loop under the mutex; [None] waits. *)
Definition Acquire (g : gate) (ticket : Z) (shutdown : bool) : option AcquireResult * gate :=
  let '(tr, g) := if shutdown then AbortLocked g "publisher shutdown while waiting for Corfu token turn" else (false, g) in
  if aborted g then (Some (mkAcquire false tr (next_ticket g) (abort_reason g)), g)
  else if next_ticket g >? ticket then
    let '(tr', g) := AbortLocked g "Corfu seal ticket re-entered after completion" in
    (Some (mkAcquire false (tr || tr') (next_ticket g) (abort_reason g)), g)
  else if next_ticket g =? ticket then
    if turn_held g then
      let '(tr', g) := AbortLocked g "duplicate Corfu seal ticket entered while turn held" in
      (Some (mkAcquire false (tr || tr') (next_ticket g) (abort_reason g)), g)
    else (Some (mkAcquire true tr (next_ticket g) EmptyString), g <| turn_held := true |> <| held_ticket := ticket |>)
  else (None, g).

Definition Complete (g : gate) (ticket : Z) (shutdown : bool) : bool * gate :=
  if shutdown then (false, (AbortLocked g "publisher shutdown while completing Corfu token turn").2)
  else if aborted g then (false, g)
  else if negb (turn_held g) || negb (held_ticket g =? ticket) || negb (next_ticket g =? ticket)
  then (false, (AbortLocked g "Corfu token turn completion mismatch").2)
  else (true, g <| turn_held := false |> <| next_ticket := ticket +u 1 |>).

Definition AdmitPayload (g : gate) (shutdown : bool) : bool * gate :=
  let g := if shutdown then (AbortLocked g "publisher shutdown before Corfu payload admission").2 else g in
  (negb (aborted g), g).

Definition Abort (g : gate) (reason : string) : bool * gate := AbortLocked g reason.

(** * Calls from many threads, each under the mutex *)
Inductive gate_call :=
  | CAcquire (ticket : Z) (shutdown : bool)
  | CComplete (ticket : Z) (shutdown : bool)
  | CAdmit (shutdown : bool)
  | CAbort (reason : string).
(** The calls that succeed. *)
Inductive gate_event := Acquired (ticket : Z) | Completed (ticket : Z) | Allowed.

Definition gate_do (s : gate * list gate_event) (c : gate_call) : gate * list gate_event :=
  let '(g, evs) := s in
  match c with
  | CAcquire ticket sd =>
      let '(r, g) := Acquire g ticket sd in
      (g, evs ++ match r with Some r => if acquired r then [Acquired ticket] else [] | None => [] end)
  | CComplete ticket sd => let '(ok, g) := Complete g ticket sd in (g, evs ++ if ok then [Completed ticket] else [])
  | CAdmit sd => let '(ok, g) := AdmitPayload g sd in (g, evs ++ if ok then [Allowed] else [])
  | CAbort reason => ((Abort g reason).2, evs)
  end.

(** The turns, in the order of the tickets: each is acquired and then completed. *)
Definition turn (t : Z) : list gate_event := [Acquired t; Completed t].
Definition turns (evs : list gate_event) : list gate_event := List.filter (fun e => match e with Allowed => false | _ => true end) evs.

Record gate_inv (g : gate) (evs : list gate_event) : Prop := {
  gi_next : 0 <= next_ticket g <= Z.of_nat (List.length evs);
  gi_turns : turns evs = (seqZ 0 (next_ticket g) ≫= turn) ++ (if turn_held g then [Acquired (held_ticket g)] else []);
  gi_held : turn_held g = true -> held_ticket g = next_ticket g;
  gi_abort : abort_transitions g = if aborted g then 1 else 0;
}.

Lemma abort_inv g evs reason : gate_inv g evs -> gate_inv (AbortLocked g reason).2 evs.
Proof.
  intros Hi. unfold AbortLocked. destruct (aborted g) eqn:E; [done|]. destruct Hi as [H1 H2 H3 H4].
  split; simpl; [done..|]. by rewrite H4, E.
Qed.
Lemma turns_app evs evs' : turns (evs ++ evs') = turns evs ++ turns evs'.
Proof. unfold turns. apply List.filter_app. Qed.

Lemma acquire_inv g evs :
  gate_inv g evs -> turn_held g = false ->
  gate_inv (g <| turn_held := true |> <| held_ticket := next_ticket g |>) (evs ++ [Acquired (next_ticket g)]).
Proof.
  intros [H1 H2 H3 H4] Hh. split; simpl; [rewrite length_app; simpl; lia| |done|done].
  by rewrite turns_app, H2, Hh, app_nil_r.
Qed.
Lemma complete_inv g evs :
  gate_inv g evs -> turn_held g = true -> Z.of_nat (List.length evs) < 2 ^ 64 - 1 ->
  gate_inv (g <| turn_held := false |> <| next_ticket := next_ticket g +u 1 |>) (evs ++ [Completed (next_ticket g)]).
Proof.
  intros [H1 H2 H3 H4] Hh Hb. rewrite u64_id by (word_unfold; lia).
  split; simpl; [rewrite length_app; simpl; lia| |done|done].
  rewrite turns_app, H2, Hh, (H3 Hh), app_nil_r. simpl. rewrite seqZ_app, bind_app by lia.
  change (seqZ (0 + next_ticket g) 1) with [0 + next_ticket g]. simpl. by rewrite <- app_assoc.
Qed.

Lemma gate_inv_nil g evs : gate_inv g evs -> gate_inv g (evs ++ []).
Proof. by rewrite app_nil_r. Qed.

Lemma gate_do_inv g evs c :
  gate_inv g evs -> Z.of_nat (List.length evs) < 2 ^ 64 - 1 ->
  gate_inv (gate_do (g, evs) c).1 (gate_do (g, evs) c).2.
Proof.
  intros Hi Hb. destruct c as [t sd|t sd|sd|reason]; simpl.
  - unfold Acquire. assert (exists tr g1, (if sd then AbortLocked g "publisher shutdown while waiting for Corfu token turn"
      else (false, g)) = (tr, g1) /\ gate_inv g1 evs) as (tr & g1 & -> & Hi1).
    { destruct sd; [|eauto]. eexists _, _. split; [apply surjective_pairing|]. by apply abort_inv. }
    destruct (aborted g1); [by apply gate_inv_nil|].
    destruct (next_ticket g1 >? t).
    { rewrite (surjective_pairing (AbortLocked _ _)). by apply gate_inv_nil, abort_inv. }
    destruct (next_ticket g1 =? t) eqn:E; [|by apply gate_inv_nil]. apply Z.eqb_eq in E as <-.
    destruct (turn_held g1) eqn:Eh; [rewrite (surjective_pairing (AbortLocked _ _)); by apply gate_inv_nil, abort_inv|].
    by apply acquire_inv.
  - unfold Complete. destruct sd; [by apply gate_inv_nil, abort_inv|].
    destruct (aborted g); [by apply gate_inv_nil|].
    destruct (negb (turn_held g) || _ || _) eqn:E; [by apply gate_inv_nil, abort_inv|]. bool_props.
    assert (t = next_ticket g) as -> by lia. simpl. apply complete_inv; [done| |done]. by destruct (turn_held g).
  - unfold AdmitPayload. assert (gate_inv (if sd then (AbortLocked g
      "publisher shutdown before Corfu payload admission").2 else g) evs) as Hi1 by (destruct sd; [by apply abort_inv|done]).
    destruct (if sd then _ else _) as [n h ht ab tr rs]. destruct Hi1 as [H1 H2 H3 H4]. simpl.
    split; simpl in *; [rewrite length_app; lia| |done|done]. rewrite turns_app, H2. destruct ab; by rewrite app_nil_r.
  - by apply abort_inv.
Qed.

Lemma gate_do_length s c : (List.length s.2 <= List.length (gate_do s c).2 <= S (List.length s.2))%nat.
Proof.
  destruct s as [g evs]. destruct c as [t sd|t sd|sd|r]; simpl; [| | |lia].
  - destruct (Acquire g t sd) as [[r|] g1]; simpl; rewrite length_app; [destruct (acquired r)|]; simpl; lia.
  - destruct (Complete g t sd) as [ok g1]. simpl. rewrite length_app. destruct ok; simpl; lia.
  - rewrite length_app. destruct (negb _); simpl; lia.
Qed.

Lemma gate_run_inv cs : forall s,
  gate_inv s.1 s.2 -> Z.of_nat (List.length s.2 + List.length cs) < 2 ^ 64 - 1 ->
  gate_inv (foldl gate_do s cs).1 (foldl gate_do s cs).2.
Proof.
  induction cs as [|c cs IH]; intros s Hi Hb; [done|]. simpl. pose proof (gate_do_length s c) as Hl. simpl in Hb. apply IH; [|lia].
  destruct s as [g evs]. simpl in *. apply gate_do_inv; [done|lia].
Qed.

(** An aborted gate stays aborted and lets nothing through. *)
Lemma aborted_do g evs c :
  aborted g = true -> exists g', gate_do (g, evs) c = (g', evs) /\ aborted g' = true.
Proof.
  intros Ha. assert (forall r, AbortLocked g r = (false, g)) as HA by (intros r; unfold AbortLocked; by rewrite Ha).
  destruct c as [t sd|t sd|sd|r]; simpl.
  - unfold Acquire. rewrite HA. assert ((if sd then (false, g) else (false, g)) = (false, g)) as -> by (by destruct sd).
    rewrite Ha. simpl. rewrite app_nil_r. eauto.
  - unfold Complete. rewrite !HA, Ha. destruct sd; simpl; rewrite app_nil_r; eauto.
  - rewrite HA. simpl. assert ((if sd then g else g) = g) as -> by (by destruct sd). rewrite Ha. simpl. rewrite app_nil_r. eauto.
  - unfold Abort. rewrite HA. eauto.
Qed.
Lemma aborted_run cs : forall g evs, aborted g = true -> exists g', foldl gate_do (g, evs) cs = (g', evs) /\ aborted g' = true.
Proof.
  induction cs as [|c cs IH]; intros g evs Ha; [eauto|]. cbn [foldl].
  destruct (aborted_do g evs c Ha) as (g' & -> & Ha'). by apply IH.
Qed.

(** Whatever the threads call, the turns are taken one at a time in the order of
    the tickets, each acquired and completed before the next, and the gate
    aborts at most once; once it has aborted, no turn is acquired or completed
    and no payload is let through. *)
Theorem gate_serializes_turns cs cs' :
  Z.of_nat (List.length cs) < 2 ^ 64 - 1 ->
  let s := foldl gate_do (gate_init, []) cs in
  turns s.2 = (seqZ 0 (next_ticket s.1) ≫= turn) ++ (if turn_held s.1 then [Acquired (next_ticket s.1)] else []) /\
  abort_transitions s.1 = (if aborted s.1 then 1 else 0) /\
  (aborted s.1 = true -> (foldl gate_do s cs').2 = s.2).
Proof.
  intros Hb s. assert (gate_inv s.1 s.2) as [H1 H2 H3 H4] by (apply gate_run_inv; [by split|done]).
  split_and!; [|done|].
  - rewrite H2. destruct (turn_held s.1) eqn:E; [|done]. by rewrite H3.
  - intros Ha. rewrite (surjective_pairing s). by destruct (aborted_run cs' s.1 s.2 Ha) as (g' & -> & _).
Qed.
End CorfuOrderedTokenGate.

Import CorfuSequencer.

(** Schedules of calls: a call starts, or a call takes its next step if it can. *)
Inductive corfu_act := ACall (t : nat) (r : request) | AStep (t : nat).
Definition corfu_do (s : system) (a : corfu_act) : system :=
  match a with
  | ACall t r => match threads s !! t with
                 | None => if decide (request_wf r) then goto s t (PStart r) else s
                 | Some _ => s end
  | AStep t => default s (thread_step s t)
  end.
Lemma corfu_do_rtc acts : forall s, rtc corfu_step s (foldl corfu_do s acts).
Proof.
  induction acts as [|a acts IH]; intros s; [done|]. simpl. etransitivity; [|apply IH]. destruct a as [t r|t]; simpl.
  - destruct (threads s !! t) eqn:E; [done|]. case_decide; [|done]. by apply rtc_once, step_call.
  - destruct (thread_step s t) eqn:E; [|done]. simpl. by eapply rtc_once, step_thread.
Qed.

(** Two clients whose calls to one broker interleave at the additions, and a call
    that repeats a batch. *)
Definition corfu_acts : list corfu_act :=
  [ACall 0 (mkRequest 7 0 3 100 1); ACall 1 (mkRequest 9 0 2 50 1); AStep 0; AStep 1; AStep 0; AStep 1; AStep 0; AStep 1;
   AStep 1; AStep 0; AStep 0; AStep 1; AStep 1; AStep 0; AStep 0; AStep 1;
   ACall 2 (mkRequest 7 0 3 100 1); AStep 2; AStep 2; AStep 2; ACall 3 (mkRequest 7 1 4 10 1); AStep 3; AStep 3; AStep 3;
   AStep 3; AStep 3; AStep 3; AStep 3].
Definition corfu_end : system := foldl corfu_do system_init corfu_acts.

Lemma corfu_tokens_exactly_once_witness :
  ((fun e => batch_seq e.1) <$> of_key (client_broker_key (mkRequest 7 0 0 0 1)) (issued corfu_end)) = [0; 1] /\
  threads corfu_end !! 2%nat = Some (PReturn (mkRequest 7 0 3 100 1) ALREADY_PROCESSED None).
Proof.
  split; [|vm_compute; reflexivity].
  assert (msgs (issued corfu_end) < 2 ^ 64) as Hb by (vm_compute; reflexivity).
  destruct (corfu_tokens_exactly_once corfu_end (corfu_do_rtc corfu_acts system_init) Hb) as (_ & H & _).
  rewrite (H (client_broker_key (mkRequest 7 0 0 0 1))). vm_compute. reflexivity.
Defined.

Import CorfuOrderedTokenGate.

(** Tickets 1 and 0 compete; ticket 0 comes back after its turn. *)
Definition gate_calls : list gate_call :=
  [CAcquire 1 false; CAcquire 0 false; CComplete 0 false; CAcquire 1 false; CAdmit false; CComplete 1 false; CAcquire 0 false].

Lemma gate_serializes_turns_witness :
  let s := foldl gate_do (gate_init, []) gate_calls in
  next_ticket s.1 = 2 /\ (foldl gate_do s [CAcquire 2 false; CAdmit false]).2 = s.2.
Proof.
  intros s. destruct (gate_serializes_turns gate_calls [CAcquire 2 false; CAdmit false]) as (_ & _ & H).
  - vm_compute. reflexivity.
  - split; [vm_compute; reflexivity|]. apply H. vm_compute. reflexivity.
Defined.
