(* ===== verification/Region.v ===== *)
(** The layout of the shared region (src/cxl_manager/region_layout.h and
    src/cxl_manager/baseline_cxl_layout.h) and the allocator of its payload
    segments (ClaimSegment there, GetNewSegment and FreeSegment of
    src/cxl_manager/cxl_manager.cc). *)

From S2P Require Import Prelude.
From S2P Require Import Mailbox.
From S2P Require Import MailboxSegment.

Module RegionLayout.

Definition kCompletionVectorOffset : Z := 0x1000.
Definition kGOIOffset : Z := 0x2000.
Definition kMaxGOIEntries : Z := 256 * 1024 * 1024.
Definition kPageSize : Z := 4096.
Definition kMailboxRecordSize : Z := 512.
Definition kMailboxCapacity : Z := 1024.
Definition kMaxSessions : Z := 4096.
Definition NUM_MAX_BROKERS : Z := 32.
Definition sizeof_GOIEntry : Z := 128.
Definition sizeof_BatchHeader : Z := 128.
Definition sizeof_SessionEntry : Z := 64.

(** The [AlignUp] of the layout divides; the mailbox's masks. *)
Definition AlignUp (value alignment : Z) : Z := u64 (value + alignment - 1) / alignment *u alignment.

Definition BaselineMailboxParams (max_brokers : Z) : MailboxSegment.MailboxParams :=
  MailboxSegment.mkParams max_brokers kMailboxRecordSize kMailboxCapacity kMailboxCapacity 10240.
Definition BaselineMailboxBytes (max_brokers : Z) : Z :=
  AlignUp (MailboxSegment.SegmentBytesNeeded (BaselineMailboxParams max_brokers)) kPageSize.
Definition GOIEndOffset : Z := kGOIOffset + kMaxGOIEntries * sizeof_GOIEntry.
Definition BaselineMailboxOffset : Z := AlignUp GOIEndOffset MailboxRing.kCacheLine.
Definition BaseRegionsOffset (max_brokers : Z) : Z := BaselineMailboxOffset +u BaselineMailboxBytes max_brokers.

Record RegionLayout := mkLayout {
  region_bytes : Z;
  base_regions_offset : Z;
  tinode_bytes : Z;
  bitmap_bytes : Z;
  batch_headers_bytes : Z;
  session_table_bytes : Z;
  metadata_bytes : Z;
  payload_bytes : Z;
  segment_size : Z;
  segment_count : Z;
  bitmap_words : Z;
}.

(** [None] is an exception. *)
Definition CheckedLayoutAdd (a b : Z) : option Z := if b >? U64_MAX - a then None else Some (a + b).
Definition CheckedLayoutMultiply (a b : Z) : option Z :=
  if negb (a =? 0) && (b >? U64_MAX / a) then None else Some (a * b).

Section layout.
  (** The size that the compiler gives the structure. *)
  Context (sizeof_TInode : Z).

Definition geometry_ok (seg max_brokers max_topics pbr_bytes prefix_bytes : Z) : bool :=
  negb ((max_brokers =? 0) || (max_brokers >? NUM_MAX_BROKERS) || (max_topics =? 0) ||
        (seg <=? 64) || negb (seg mod 64 =? 0) || (pbr_bytes <? 2 * sizeof_BatchHeader) ||
        negb (pbr_bytes mod sizeof_BatchHeader =? 0) || negb (prefix_bytes mod 64 =? 0)).

Definition CalculateRegionLayout (region seg max_brokers max_topics pbr_bytes prefix_bytes : Z) : option RegionLayout :=
  let line := 64 in
  if negb (geometry_ok seg max_brokers max_topics pbr_bytes prefix_bytes) then None
  else
    inode ← CheckedLayoutMultiply sizeof_TInode max_topics;
    padded ← CheckedLayoutAdd inode (line - 1);
    tinode ← CheckedLayoutMultiply (padded / line) line;
    bitmap ← CheckedLayoutMultiply line max_topics;
    per_topic ← CheckedLayoutMultiply max_brokers pbr_bytes;
    headers ← CheckedLayoutMultiply per_topic max_topics;
    per_table ← CheckedLayoutMultiply kMaxSessions sizeof_SessionEntry;
    sessions ← CheckedLayoutMultiply per_table max_topics;
    meta ← CheckedLayoutAdd prefix_bytes tinode;
    meta ← CheckedLayoutAdd meta bitmap;
    meta ← CheckedLayoutAdd meta headers;
    meta ← CheckedLayoutAdd meta sessions;
    if (meta >? region) || (seg >? region - meta) then None
    else
      let payload := (region - meta) / line * line in
      let count := payload / seg in
      padded ← CheckedLayoutAdd count 63;
      let words := padded / 64 in
      bytes ← CheckedLayoutMultiply words 8;
      if bytes >? bitmap then None
      else Some (mkLayout region prefix_bytes tinode bitmap headers sessions meta payload seg count words).

Lemma checked_add a b c : CheckedLayoutAdd a b = Some c -> c = a + b /\ a + b <= U64_MAX.
Proof. unfold CheckedLayoutAdd. destruct (_ >? _) eqn:E; [done|]. intros [= <-]. lia. Qed.
Lemma checked_multiply a b c :
  0 <= a -> 0 <= b -> CheckedLayoutMultiply a b = Some c -> c = a * b /\ a * b <= U64_MAX.
Proof.
  intros Ha Hb. unfold CheckedLayoutMultiply. destruct (_ && _) eqn:E; [done|]. intros [= <-]. split; [done|].
  destruct (Z.eq_dec a 0) as [->|]; [unfold U64_MAX; lia|]. replace (a =? 0) with false in E by lia. simpl in E.
  pose proof (Z.mul_div_le U64_MAX a ltac:(lia)). nia.
Qed.

Lemma round_line x : 0 <= x -> (x + 63) / 64 * 64 mod 64 = 0 /\ x <= (x + 63) / 64 * 64.
Proof. intros Hx. split; [apply Z.mod_mul; lia|]. pose proof (Z.div_mod (x + 63) 64). pose proof (Z.mod_pos_bound (x + 63) 64). lia. Qed.

Lemma mod_0_mul a b : a mod 64 = 0 -> (a * b) mod 64 = 0.
Proof. intros H. by rewrite Z.mul_mod, H by lia. Qed.
Lemma mod_0_add a b : a mod 64 = 0 -> b mod 64 = 0 -> (a + b) mod 64 = 0.
Proof. intros H1 H2. by rewrite Z.add_mod, H1, H2 by lia. Qed.

(** A layout that was computed without an exception puts the topic inodes, the
    bitmap, the header rings, the session tables and the payload segments one
    after the other on cache lines inside the region, has a segment, and its
    bitmap has a bit for each. *)
Theorem layout_is_sound region seg brokers topics pbr prefix r :
  0 <= sizeof_TInode -> is_u64 region -> is_u64 seg -> is_u64 brokers -> is_u64 topics -> is_u64 pbr -> is_u64 prefix ->
  CalculateRegionLayout region seg brokers topics pbr prefix = Some r ->
  metadata_bytes r = base_regions_offset r + tinode_bytes r + bitmap_bytes r + batch_headers_bytes r + session_table_bytes r /\
  sizeof_TInode * topics <= tinode_bytes r /\
  metadata_bytes r mod 64 = 0 /\ tinode_bytes r mod 64 = 0 /\ batch_headers_bytes r mod 64 = 0 /\
  metadata_bytes r + segment_count r * segment_size r <= region_bytes r /\
  1 <= segment_count r <= bitmap_words r * 64 /\ bitmap_words r * 8 <= bitmap_bytes r.
Proof.
  intros Hi Hr Hs Hb Ht Hp Hx. unfold CalculateRegionLayout. destruct (negb (geometry_ok _ _ _ _ _)) eqn:EG; [done|].
  apply negb_false_iff in EG. unfold geometry_ok, NUM_MAX_BROKERS, sizeof_BatchHeader in EG. apply negb_true_iff in EG.
  bool_props. word_unfold. intros K.
  apply bind_Some in K as (inode & Hin & K). apply checked_multiply in Hin as [-> _]; [|lia..].
  apply bind_Some in K as (padded & Hpa & K). apply checked_add in Hpa as [-> _].
  assert (0 <= sizeof_TInode * topics) by nia. pose proof (round_line (sizeof_TInode * topics) ltac:(lia)) as [R1 R2].
  change (64 - 1) with 63 in K. assert (0 <= (sizeof_TInode * topics + 63) / 64) by (apply Z.div_pos; lia).
  apply bind_Some in K as (tin & Hti & K). apply checked_multiply in Hti as [-> _]; [|lia..].
  apply bind_Some in K as (bm & Hbm & K). apply checked_multiply in Hbm as [-> _]; [|lia..].
  apply bind_Some in K as (pt & Hpt & K). apply checked_multiply in Hpt as [-> _]; [|lia..].
  apply bind_Some in K as (hd & Hhd & K). apply checked_multiply in Hhd as [-> _]; [|nia..].
  apply bind_Some in K as (ptb & Hptb & K). apply checked_multiply in Hptb as [-> _]; [|done..].
  apply bind_Some in K as (ss & Hss & K). apply checked_multiply in Hss as [-> _]; [|done || lia..].
  do 4 (apply bind_Some in K as (? & [-> _]%checked_add & K)).
  match type of K with (if ?c then _ else _) = _ => destruct c eqn:EC; [done|] end.
  apply bind_Some in K as (pd & [-> _]%checked_add & K). apply bind_Some in K as (bytes & Hby & K).
  match type of K with (if ?c then _ else _) = _ => destruct c eqn:EB; [done|] end. injection K as <-.
  cbn [metadata_bytes base_regions_offset tinode_bytes bitmap_bytes batch_headers_bytes session_table_bytes
    segment_count segment_size region_bytes bitmap_words].
  assert ((brokers * pbr * topics) mod 64 = 0) as Hh.
  { rewrite Z.mul_comm, Z.mul_assoc, Z.mul_comm. apply mod_0_mul. apply Z.mod_divide; [lia|].
    apply (Z.divide_trans _ 128); [by exists 2|]. by apply Z.mod_divide. }
  set (meta := prefix + _ + _ + _ + _) in *.
  assert (meta mod 64 = 0) as Hm.
  { subst meta. repeat apply mod_0_add; [done|done| |done|].
    - by apply mod_0_mul.
    - rewrite <- Z.mul_assoc, Z.mul_comm, <- Z.mul_assoc. by apply mod_0_mul. }
  clearbody meta. bool_props. set (payload := (region - meta) / 64 * 64) in *.
  assert (payload <= region - meta) by (pose proof (Z.mul_div_le (region - meta) 64 ltac:(lia)); lia).
  assert (seg <= payload) as Hseg.
  { subst payload. pose proof (Z.div_mod seg 64 ltac:(lia)) as Hd. assert (seg / 64 <= (region - meta) / 64); [|lia].
    apply Z.div_le_mono; lia. }
  clearbody payload. pose proof (Z.mul_div_le payload seg ltac:(lia)).
  assert (1 <= payload / seg) by (apply Z.div_le_lower_bound; lia).
  pose proof (round_line (payload / seg) ltac:(lia)) as [_ Hw].
  apply checked_multiply in Hby as [-> _]; [|apply Z.div_pos; lia|lia].
  split_and!; try done; try lia.
Qed.
End layout.
End RegionLayout.

Module SegmentAllocator.

(** [__builtin_ctzll]: the lowest set bit, from bit [i] on. *)
Fixpoint ctz_from (fuel : nat) (i x : Z) : Z :=
  match fuel with O => i | S fuel => if Z.testbit x i then i else ctz_from fuel (i + 1) x end.
Definition ctzll (x : Z) : Z := ctz_from 64 0 x.

(** [~occupied & valid]. *)
Definition free_bits (occupied valid : Z) : Z := Z.land (u64 (Z.lnot occupied)) valid.

Section allocator.
  Context (count : Z).

Definition words : Z := count / 64 + (if count mod 64 =? 0 then 0 else 1).
Definition valid_bits (word : Z) : Z :=
  if (word + 1 =? words) && negb (count mod 64 =? 0) then Z.shiftl 1 (count mod 64) - 1 else U64_MAX.
Definition word_at (bitmap : gmap Z Z) (word : Z) : Z := default 0 (bitmap !! word).
Definition scan_word (hint offset : Z) : Z := (hint mod words + offset) mod words.

(** * [ClaimSegment] without interference *)
Fixpoint claim_loop (fuel : nat) (bitmap : gmap Z Z) (hint offset : Z) : option Z * gmap Z Z * Z :=
  match fuel with
  | O => (None, bitmap, hint)
  | S fuel =>
      let word := scan_word hint offset in
      let occupied := word_at bitmap word in
      let free := free_bits occupied (valid_bits word) in
      if free =? 0 then claim_loop fuel bitmap hint (offset + 1)
      else
        let bit := ctzll free in
        (Some (word * 64 + bit), <[word := Z.lor occupied (Z.shiftl 1 bit)]> bitmap, word)
  end.
Definition ClaimSegment (bitmap : gmap Z Z) (hint : Z) : option Z * gmap Z Z * Z :=
  if count =? 0 then (None, bitmap, hint) else claim_loop (Z.to_nat words) bitmap hint 0.

(** * Processes that claim and free concurrently

    A process is at the load of a word, or before its compare-exchange with the
    value it saw last; the exchange may fail for no reason. *)
Inductive claimer :=
  | CLoad (hint offset : Z)
  | CTry (hint offset occupied : Z)
  | CDone (result : option Z).

(** [owned] are the segments claimed and not freed. *)
Record system := mkSystem { bitmap : gmap Z Z; claimers : gmap nat claimer; owned : gset Z }.

(** The segment that a process at [CTry] wants; [None] when the word is full. *)
Definition wanted (hint offset occupied : Z) : option Z :=
  let word := scan_word hint offset in
  let free := free_bits occupied (valid_bits word) in
  if free =? 0 then None else Some (ctzll free).
Definition next_word (hint offset : Z) : claimer :=
  if offset + 1 <? words then CLoad hint (offset + 1) else CDone None.

(** [FreeSegment]'s [fetch_and] on the segment's word. *)
Definition clear_bit (bm : gmap Z Z) (idx : Z) : gmap Z Z :=
  <[idx / 64 := Z.land (word_at bm (idx / 64)) (u64 (Z.lnot (Z.shiftl 1 (idx mod 64))))]> bm.

Inductive alloc_step : system -> system -> Prop :=
  | step_claim s t hint : claimers s !! t = None -> 0 < count -> 0 <= hint ->
      alloc_step s (mkSystem (bitmap s) (<[t := CLoad hint 0]> (claimers s)) (owned s))
  | step_load s t hint off : claimers s !! t = Some (CLoad hint off) ->
      alloc_step s (mkSystem (bitmap s)
        (<[t := CTry hint off (word_at (bitmap s) (scan_word hint off))]> (claimers s)) (owned s))
  | step_full s t hint off occ : claimers s !! t = Some (CTry hint off occ) -> wanted hint off occ = None ->
      alloc_step s (mkSystem (bitmap s) (<[t := next_word hint off]> (claimers s)) (owned s))
  | step_cas s t hint off occ bit : claimers s !! t = Some (CTry hint off occ) -> wanted hint off occ = Some bit ->
      word_at (bitmap s) (scan_word hint off) = occ ->
      alloc_step s (mkSystem (<[scan_word hint off := Z.lor occ (Z.shiftl 1 bit)]> (bitmap s))
        (<[t := CDone (Some (scan_word hint off * 64 + bit))]> (claimers s))
        ({[scan_word hint off * 64 + bit]} ∪ owned s))
  | step_cas_fails s t hint off occ bit : claimers s !! t = Some (CTry hint off occ) -> wanted hint off occ = Some bit ->
      alloc_step s (mkSystem (bitmap s)
        (<[t := CTry hint off (word_at (bitmap s) (scan_word hint off))]> (claimers s)) (owned s))
  | step_free s idx : idx ∈ owned s ->
      alloc_step s (mkSystem (clear_bit (bitmap s) idx) (claimers s) (owned s ∖ {[idx]})).

Definition alloc_init : system := mkSystem ∅ ∅ ∅.

(** * Bits *)
Definition occupied_bit (bm : gmap Z Z) (idx : Z) : bool := Z.testbit (word_at bm (idx / 64)) (idx mod 64).

Lemma ctz_from_spec fuel : forall i x j,
  0 <= i -> i <= j < i + Z.of_nat fuel -> Z.testbit x j = true ->
  i <= ctz_from fuel i x <= j /\ Z.testbit x (ctz_from fuel i x) = true.
Proof.
  induction fuel as [|fuel IH]; intros i x j Hi Hj Hb; [lia|]. cbn [ctz_from].
  destruct (Z.testbit x i) eqn:E; [by split; [lia|]|].
  assert (i <> j) by congruence. destruct (IH (i + 1) x j) as [? ?]; [lia|lia|done|]. split; [lia|done].
Qed.
Lemma ctzll_spec x : 0 < x < 2 ^ 64 -> 0 <= ctzll x < 64 /\ Z.testbit x (ctzll x) = true.
Proof.
  intros Hx. assert (0 <= Z.log2 x < 64) by (split; [apply Z.log2_nonneg|apply Z.log2_lt_pow2; lia]).
  destruct (ctz_from_spec 64 0 x (Z.log2 x)) as [? ?]; [lia|lia|apply Z.bit_log2; lia|]. unfold ctzll. split; [lia|done].
Qed.

Lemma testbit_u64 x i : 0 <= i < 64 -> Z.testbit (u64 x) i = Z.testbit x i.
Proof. intros Hi. unfold u64. change 18446744073709551616 with (2 ^ 64). apply Z.mod_pow2_bits_low. lia. Qed.

Lemma free_bits_spec occ valid i :
  0 <= i < 64 -> Z.testbit (free_bits occ valid) i = negb (Z.testbit occ i) && Z.testbit valid i.
Proof. intros Hi. unfold free_bits. by rewrite Z.land_spec, testbit_u64, Z.lnot_spec by lia. Qed.

Lemma valid_bits_range word : 0 <= valid_bits word < 2 ^ 64.
Proof.
  unfold valid_bits, U64_MAX. destruct (_ && _); [|lia]. pose proof (Z.mod_pos_bound count 64 ltac:(lia)).
  rewrite Z.shiftl_1_l. assert (0 < 2 ^ (count mod 64)) by (apply Z.pow_pos_nonneg; lia).
  assert (2 ^ (count mod 64) <= 2 ^ 63) by (apply Z.pow_le_mono_r; lia). lia.
Qed.
Lemma free_bits_range occ word : 0 <= free_bits occ (valid_bits word) < 2 ^ 64.
Proof.
  pose proof (valid_bits_range word) as Hv. unfold free_bits. split; [apply Z.land_nonneg; lia|].
  destruct (Z.eq_dec (Z.land (u64 (Z.lnot occ)) (valid_bits word)) 0) as [->|Hne]; [lia|].
  apply Z.log2_lt_cancel. eapply Z.le_lt_trans; [apply Z.log2_land; [unfold u64; apply Z.mod_pos_bound; lia|lia]|].
  rewrite Z.log2_pow2 by lia. apply Z.min_lt_iff. right. destruct (Z.eq_dec (valid_bits word) 0) as [->|]; [simpl; lia|].
  apply Z.log2_lt_pow2; lia.
Qed.

(** A bit that is valid in a word names a segment. *)
Lemma valid_bit word i :
  0 <= word < words -> 0 <= i < 64 -> 0 < count -> (Z.testbit (valid_bits word) i = true <-> word * 64 + i < count).
Proof.
  intros Hw Hi Hc. pose proof (Z.div_mod count 64 ltac:(lia)) as Hd. pose proof (Z.mod_pos_bound count 64 ltac:(lia)).
  unfold words in Hw. unfold valid_bits, words.
  destruct (count mod 64 =? 0) eqn:E1; simpl.
  - rewrite andb_false_r. unfold U64_MAX. replace 18446744073709551615 with (Z.ones 64) by reflexivity. rewrite Z.ones_spec_low by lia. split; [lia|done].
  - rewrite andb_true_r. destruct (word + 1 =? _) eqn:E2.
    + rewrite Z.shiftl_1_l. replace (2 ^ (count mod 64) - 1) with (Z.ones (count mod 64)) by (rewrite Z.ones_equiv; lia).
      destruct (Z.lt_ge_cases i (count mod 64)); [rewrite Z.ones_spec_low by lia|rewrite Z.ones_spec_high by lia];
        (split; [intros|intros]; (done || lia)).
    + unfold U64_MAX. replace 18446744073709551615 with (Z.ones 64) by reflexivity. rewrite Z.ones_spec_low by lia. split; [lia|done].
Qed.

Lemma words_pos : 0 < count -> 0 < words.
Proof.
  intros Hc. unfold words. pose proof (Z.div_mod count 64 ltac:(lia)). pose proof (Z.mod_pos_bound count 64 ltac:(lia)).
  destruct (_ =? 0) eqn:E; lia.
Qed.
Lemma scan_word_range hint off : 0 < count -> 0 <= scan_word hint off < words.
Proof. intros Hc. apply Z.mod_pos_bound. by apply words_pos. Qed.

(** What a process wants is a free segment of the pool, as far as it saw. *)
Lemma wanted_spec hint off occ bit :
  0 < count -> wanted hint off occ = Some bit ->
  0 <= bit < 64 /\ Z.testbit occ bit = false /\ 0 <= scan_word hint off * 64 + bit < count.
Proof.
  intros Hc H. unfold wanted in H. pose proof (scan_word_range hint off Hc) as Hw.
  pose proof (free_bits_range occ (scan_word hint off)) as Hr.
  destruct (_ =? 0) eqn:E; [done|]. injection H as <-. 
  destruct (ctzll_spec (free_bits occ (valid_bits (scan_word hint off))) ltac:(lia)) as [Hb Ht].
  rewrite free_bits_spec in Ht by done. apply andb_true_iff in Ht as [H1 H2]. apply negb_true_iff in H1.
  split_and!; [lia|lia|done|lia|by apply valid_bit].
Qed.

Lemma occupied_insert bm w v idx :
  occupied_bit (<[w := v]> bm) idx = if decide (idx / 64 = w) then Z.testbit v (idx mod 64) else occupied_bit bm idx.
Proof.
  unfold occupied_bit, word_at. case_decide; [subst; by rewrite lookup_insert_eq|by rewrite lookup_insert_ne].
Qed.
Lemma index_split w b idx : 0 <= b < 64 -> (idx = w * 64 + b <-> idx / 64 = w /\ idx mod 64 = b).
Proof.
  intros Hb. split.
  - intros ->. split; [rewrite Z.div_add_l, Z.div_small by lia; lia|]. rewrite Z.add_comm, Z.mod_add, Z.mod_small by lia. done.
  - intros [<- <-]. pose proof (Z.div_mod idx 64). lia.
Qed.

Lemma set_bit bm w b idx :
  0 <= b < 64 ->
  occupied_bit (<[w := Z.lor (word_at bm w) (Z.shiftl 1 b)]> bm) idx = bool_decide (idx = w * 64 + b) || occupied_bit bm idx.
Proof.
  intros Hb. rewrite occupied_insert. pose proof (index_split w b idx Hb) as Hs.
  pose proof (Z.mod_pos_bound idx 64 ltac:(lia)). case_decide as Hw.
  - rewrite Z.lor_spec, Z.shiftl_1_l, Z.pow2_bits_eqb by lia. unfold occupied_bit. rewrite Hw, orb_comm. f_equal.
    apply eq_bool_prop_intro. rewrite bool_decide_spec, Is_true_true, Z.eqb_eq. rewrite Hs. naive_solver.
  - rewrite bool_decide_false; [done|]. naive_solver.
Qed.
Lemma cleared_bit bm i idx : occupied_bit (clear_bit bm i) idx = negb (bool_decide (idx = i)) && occupied_bit bm idx.
Proof.
  unfold clear_bit. rewrite occupied_insert. pose proof (Z.mod_pos_bound i 64 ltac:(lia)).
  pose proof (Z.mod_pos_bound idx 64 ltac:(lia)). pose proof (index_split (i / 64) (i mod 64) idx ltac:(lia)) as Hs.
  assert (i / 64 * 64 + i mod 64 = i) as Ei by (pose proof (Z.div_mod i 64); lia). rewrite Ei in Hs.
  case_decide as Hw.
  - rewrite Z.land_spec, testbit_u64, Z.lnot_spec, Z.shiftl_1_l, Z.pow2_bits_eqb by lia. unfold occupied_bit.
    rewrite Hw, andb_comm. do 2 f_equal. apply eq_bool_prop_intro. rewrite bool_decide_spec, Is_true_true, Z.eqb_eq, Hs. naive_solver.
  - rewrite bool_decide_false; [done|]. naive_solver.
Qed.

(** * No segment is handed out twice *)
Record inv (s : system) : Prop := {
  ai_bits : forall idx, occupied_bit (bitmap s) idx = bool_decide (idx ∈ owned s);
  ai_pool : forall idx, idx ∈ owned s -> 0 <= idx < count;
  ai_count : claimers s = ∅ \/ 0 < count;
}.

Lemma claimer_count s t c : inv s -> claimers s !! t = Some c -> 0 < count.
Proof. intros [_ _ [E|]] Hc; [|done]. by rewrite E, lookup_empty in Hc. Qed.

Lemma alloc_step_inv s s' : alloc_step s s' -> inv s -> inv s'.
Proof.
  intros Hstep Hi. pose proof Hi as [H1 H2 H3]. destruct Hstep as [s t hint Ht Hc _|s t hint off Ht|s t hint off occ Ht Hw
    |s t hint off occ bit Ht Hw Hcas|s t hint off occ bit Ht Hw|s idx Hin]; try (pose proof (claimer_count _ _ _ Hi Ht) as Hc).
  all: split; simpl; try done; try (by right).
  - destruct (wanted_spec _ _ _ _ Hc Hw) as (Hb & Hz & _). intros idx. subst occ. rewrite set_bit, H1 by done.
    apply eq_bool_prop_intro. rewrite orb_True, !bool_decide_spec. set_solver.
  - destruct (wanted_spec _ _ _ _ Hc Hw) as (_ & _ & Hr). intros idx [->%elem_of_singleton|Hin]%elem_of_union; [done|by apply H2].
  - intros i. rewrite cleared_bit, H1. apply eq_bool_prop_intro. rewrite andb_True, negb_True, !bool_decide_spec. set_solver.
  - intros i [Hi' _]%elem_of_difference. by apply H2.
Qed.

Lemma alloc_run_inv s : rtc alloc_step alloc_init s -> inv s.
Proof.
  apply rtc_invariant; [intros a b Ha Hb; by apply (alloc_step_inv a)|]. split; simpl; [|set_solver|by left].
  intros idx. unfold occupied_bit, word_at. rewrite lookup_empty. simpl. by rewrite Z.bits_0.
Qed.

(** However processes that claim and free segments interleave, and however often
    their compare-exchanges fail, a claim hands out a segment of the pool that
    nobody owns, and the bitmap's bits are exactly the owned segments. *)
Theorem segment_claims_exclusive s s' t idx :
  rtc alloc_step alloc_init s -> alloc_step s s' ->
  claimers s !! t <> Some (CDone (Some idx)) -> claimers s' !! t = Some (CDone (Some idx)) ->
  0 <= idx < count /\ (idx ∉ owned s) /\ owned s' = ({[idx]} ∪ owned s) /\
  (forall i, occupied_bit (bitmap s') i = bool_decide (i ∈ owned s')).
Proof.
  intros Hr Hstep Hold Hnew. pose proof (alloc_run_inv _ Hr) as Hi. pose proof (alloc_step_inv _ _ Hstep Hi) as Hi'.
  destruct Hstep as [s u hint Hu Hc _|s u hint off Hu|s u hint off occ Hu Hw
    |s u hint off occ bit Hu Hw Hcas|s u hint off occ bit Hu Hw|s i Hin]; simpl in *; try done;
    destruct (decide (t = u)) as [->|Hne]; try (rewrite lookup_insert_ne in Hnew by done; done);
    rewrite lookup_insert_eq in Hnew; simplify_eq.
  - unfold next_word in Hnew. by destruct (_ <? _).
  - pose proof (claimer_count _ _ _ Hi Hu) as Hc. destruct (wanted_spec _ _ _ _ Hc Hw) as (Hb & Hz & Hrg).
    split_and!; [lia|lia| |done|apply (ai_bits _ Hi')].
    assert (occupied_bit (bitmap s) (scan_word hint off * 64 + bit) = false) as Hf.
    { unfold occupied_bit. destruct (proj1 (index_split (scan_word hint off) bit _ Hb) eq_refl) as [-> ->]. done. }
    rewrite (ai_bits _ Hi) in Hf. by apply bool_decide_eq_false in Hf.
Qed.

(** * A claim fails only when the pool is full *)
Lemma claim_loop_none n : forall bm hint off bm' hint',
  claim_loop n bm hint off = (None, bm', hint') ->
  bm' = bm /\ forall o, off <= o < off + Z.of_nat n ->
    free_bits (word_at bm (scan_word hint o)) (valid_bits (scan_word hint o)) = 0.
Proof.
  induction n as [|n IH]; intros bm hint off bm' hint' H; cbn [claim_loop] in H; [simplify_eq; split; [done|lia]|].
  destruct (_ =? 0) eqn:E; [|done]. destruct (IH _ _ _ _ _ H) as [-> Hall]. split; [done|]. intros o Ho.
  destruct (Z.eq_dec o off) as [->|]; [lia|]. apply Hall. lia.
Qed.
Lemma claim_loop_some n : forall bm hint off idx bm' hint',
  0 < count -> claim_loop n bm hint off = (Some idx, bm', hint') ->
  0 <= idx < count /\ occupied_bit bm idx = false /\
  forall i, occupied_bit bm' i = bool_decide (i = idx) || occupied_bit bm i.
Proof.
  induction n as [|n IH]; intros bm hint off idx bm' hint' Hc H; cbn [claim_loop] in H; [done|].
  destruct (_ =? 0) eqn:E; [by eapply IH|].
  destruct (wanted_spec hint off (word_at bm (scan_word hint off)) (ctzll (free_bits (word_at bm (scan_word hint off))
    (valid_bits (scan_word hint off)))) Hc) as (Hb & Hz & Hr); [unfold wanted; by rewrite E|].
  simplify_eq. split_and!; [lia|lia| |].
  - unfold occupied_bit. by destruct (proj1 (index_split (scan_word hint off) _ _ Hb) eq_refl) as [-> ->].
  - intros i. by apply set_bit.
Qed.

Theorem ClaimSegment_complete bm hint :
  0 < count -> 0 <= hint ->
  match ClaimSegment bm hint with
  | (Some idx, bm', _) =>
      0 <= idx < count /\ occupied_bit bm idx = false /\
      forall i, occupied_bit bm' i = bool_decide (i = idx) || occupied_bit bm i
  | (None, bm', _) => bm' = bm /\ forall idx, 0 <= idx < count -> occupied_bit bm idx = true
  end.
Proof.
  intros Hc Hh. unfold ClaimSegment. replace (count =? 0) with false by lia.
  destruct (claim_loop _ _ _ _) as [[[idx|] bm'] hint'] eqn:E; [by eapply claim_loop_some|].
  apply claim_loop_none in E as [-> Hall]. split; [done|]. intros idx Hidx. pose proof (words_pos Hc) as Hw.
  rewrite Z2Nat.id in Hall by lia. pose proof (Z.mod_pos_bound idx 64 ltac:(lia)) as Hm.
  assert (0 <= idx / 64 < words) as Hword.
  { split; [apply Z.div_pos; lia|]. unfold words. pose proof (Z.div_mod count 64 ltac:(lia)).
    pose proof (Z.mod_pos_bound count 64 ltac:(lia)). pose proof (Z.div_mod idx 64 ltac:(lia)). destruct (_ =? 0) eqn:E; lia. }
  specialize (Hall ((idx / 64 - hint mod words) mod words)).
  assert (scan_word hint ((idx / 64 - hint mod words) mod words) = idx / 64) as Es.
  { unfold scan_word. rewrite Zplus_mod_idemp_r. replace (hint mod words + (idx / 64 - hint mod words)) with (idx / 64) by lia.
    by apply Z.mod_small. }
  rewrite Es in Hall. pose proof (Z.mod_pos_bound (idx / 64 - hint mod words) words Hw) as Hb.
  assert (Z.testbit (free_bits (word_at bm (idx / 64)) (valid_bits (idx / 64))) (idx mod 64) = false) as Hf
    by (rewrite Hall by lia; apply Z.bits_0).
  rewrite free_bits_spec in Hf by lia. apply andb_false_iff in Hf as [Hf|Hf]; [by apply negb_false_iff in Hf|].
  exfalso. assert (Z.testbit (valid_bits (idx / 64)) (idx mod 64) = true); [|congruence].
  apply valid_bit; [lia..|]. pose proof (Z.div_mod idx 64). lia.
Qed.

(** * Segments as addresses *)
Section segments.
  (** Where the pool is mapped, and the size of a segment. *)
  Context (segments seg_size : Z).

Definition GetNewSegment (bm : gmap Z Z) (hint : Z) : option Z * gmap Z Z * Z :=
  match ClaimSegment bm hint with
  | (Some global_idx, bm, hint) => (Some (segments +u (global_idx *u seg_size)), bm, hint)
  | (None, bm, hint) => (None, bm, hint)
  end.

Definition FreeSegment (bm : gmap Z Z) (addr : Z) : bool * gmap Z Z :=
  if (addr =? 0) || (segments =? 0) then (false, bm)
  else if (addr <? segments) || negb ((addr - segments) mod seg_size =? 0) then (false, bm)
  else
    let global_idx := (addr - segments) / seg_size in
    if global_idx >=? count then (false, bm)
    else (Z.testbit (word_at bm (global_idx / 64)) (global_idx mod 64), clear_bit bm global_idx).

(** A segment that was handed out can be given back, which restores the bitmap. *)
Theorem get_free_roundtrip bm hint addr bm' hint' :
  0 < count -> 0 <= hint -> 0 < seg_size -> 0 < segments -> segments + count * seg_size < 2 ^ 64 ->
  GetNewSegment bm hint = (Some addr, bm', hint') ->
  exists bm'', FreeSegment bm' addr = (true, bm'') /\ forall i, occupied_bit bm'' i = occupied_bit bm i.
Proof.
  intros Hc Hh Hsz Hsg Hmax H. unfold GetNewSegment in H. pose proof (ClaimSegment_complete bm hint Hc Hh) as HC.
  destruct (ClaimSegment bm hint) as [[[idx|] bm1] h1]; [|done]. destruct HC as (Hr & Hf & Hb). simplify_eq.
  assert (idx * seg_size <= count * seg_size) by nia. assert (0 <= idx * seg_size) by nia. word_unfold.
  rewrite (Z.mod_small (idx * seg_size)) by lia. rewrite Z.mod_small by lia. unfold FreeSegment.
  replace (segments + idx * seg_size =? 0) with false by lia. replace (segments =? 0) with false by lia. simpl.
  replace (segments + idx * seg_size <? segments) with false by lia.
  replace (segments + idx * seg_size - segments) with (idx * seg_size) by lia.
  rewrite Z.mod_mul, Z.div_mul by lia. simpl. replace (idx >=? count) with false by lia.
  exists (clear_bit bm' idx). pose proof (Hb idx) as Hi. rewrite bool_decide_true in Hi by done. split.
  - f_equal. exact Hi.
  - intros i. rewrite cleared_bit, Hb. destruct (decide (i = idx)) as [->|Hne].
    + by rewrite bool_decide_true, Hf by done.
    + by rewrite bool_decide_false by done.
Qed.
End segments.
End allocator.
End SegmentAllocator.

Import SegmentAllocator.

(** A pool of 66 segments: process 0 owns segment 0 and process 1, which saw the
    word before, has failed its exchange and loaded it again. *)
Definition pool : system :=
  mkSystem {[0 := 1]} {[0%nat := CDone (Some 0); 1%nat := CTry 0 0 1]} {[0]}.

Lemma pool_reached : rtc (alloc_step 66) alloc_init pool.
Proof.
  eapply rtc_l; [apply (step_claim 66 _ 1 0); [reflexivity|lia|lia]|].
  eapply rtc_l; [apply (step_load 66 _ 1 0 0); reflexivity|].
  eapply rtc_l; [apply (step_claim 66 _ 0 0); [reflexivity|lia|lia]|].
  eapply rtc_l; [apply (step_load 66 _ 0 0 0); reflexivity|].
  eapply rtc_l; [apply (step_cas 66 _ 0 0 0 0 0); reflexivity|].
  eapply rtc_l; [apply (step_cas_fails 66 _ 1 0 0 0 0); reflexivity|].
  match goal with |- rtc _ ?a ?b => replace a with b by (vm_compute; reflexivity) end. apply rtc_refl.
Qed.

Lemma segment_claims_exclusive_witness :
  exists s', alloc_step 66 pool s' /\ (1 ∉ owned pool) /\ owned s' = {[1]} ∪ owned pool.
Proof.
  eexists. assert (alloc_step 66 pool _) as Hstep by (apply (step_cas 66 pool 1 0 0 1 1); reflexivity).
  split; [exact Hstep|].
  destruct (segment_claims_exclusive 66 pool _ 1%nat 1 pool_reached Hstep) as (_ & H1 & H2 & _);
    [discriminate|reflexivity|]. by split.
Defined.
