(* ===== verification/CorfuReplica.v ===== *)
(** The replica store of the Corfu baseline and its log of completed slots
    (src/disk_manager/corfu_replica_store.cc): what the sidecar file holds, what
    the writes do when system calls fail, and what a restart recovers. *)

From S2P Require Import Prelude Bytes.

Module CorfuReplicaStore.

(** * Constants and integers *)
Definition kMagic : Z := 0x43524653.
Definition kVersion : Z := 1.
Definition kMaxTopic : Z := 1024.

Definition crc_bit (crc : Z) : Z :=
  Z.lxor (Z.shiftr crc 1) (if Z.testbit crc 0 then 0x82f63b78 else 0).
Definition crc_byte (crc b : Z) : Z := Nat.iter 8 crc_bit (Z.lxor crc b).
Definition Crc32c (bs : list Z) : Z := u32 (Z.lnot (foldl crc_byte 0xffffffff bs)).

(** [Put] is [put_le]. *)
Definition Get (n : nat) (p : list Z) : option (Z * list Z) :=
  if (length p <? n)%nat then None else Some (get_le n p, drop n p).

Inductive CorfuSlotState := kUnwritten | kValue | kJunk.
Inductive CorfuWriteStatus := kWritten | kAlreadySame | kAlreadyJunk | kConflict | kIoError.
#[global] Instance state_eq_dec : EqDecision CorfuSlotState.
Proof. solve_decision. Defined.

(** topic, broker, sequence number on the broker *)
Abbreviation CorfuSlotKey := (list Z * Z * Z)%type.
Record CorfuValueId := mkValueId {
  client_id : Z;
  original_client_batch_seq : Z;
  total_order : Z;
  num_msg : Z;
  total_size : Z;
}.
#[global] Instance value_eq_dec : EqDecision CorfuValueId.
Proof. solve_decision. Defined.
Definition no_value : CorfuValueId := mkValueId 0 0 0 0 0.

Record Entry := mkEntry {
  state : CorfuSlotState;
  value : CorfuValueId;
  offset : Z;
  size_ : Z;
  payload : list Z;
}.
Record CorfuWriteRequest := mkWrite {
  w_slot : CorfuSlotKey;
  w_value : CorfuValueId;
  w_data_offset : Z;
  w_payload : option (list Z);
  w_size : Z;
}.

Definition Probe (slots : gmap CorfuSlotKey Entry) (key : CorfuSlotKey) : CorfuSlotState * CorfuValueId :=
  match slots !! key with Some e => (state e, value e) | None => (kUnwritten, no_value) end.

(** * Records of the sidecar *)
Definition state_byte (s : CorfuSlotState) : Z := match s with kUnwritten => 0 | kValue => 1 | kJunk => 2 end.

Definition record_body (key : CorfuSlotKey) (e : Entry) : list Z :=
  let '(topic, broker_id, broker_batch_seq) := key in
  put_le 2 (Z.of_nat (length topic)) ++ topic ++
  put_le 4 broker_id ++ put_le 8 broker_batch_seq ++ put_le 1 (state_byte (state e)) ++
  put_le 8 (client_id (value e)) ++ put_le 8 (original_client_batch_seq (value e)) ++ put_le 8 (total_order (value e)) ++
  put_le 4 (num_msg (value e)) ++ put_le 8 (total_size (value e)) ++ put_le 8 (offset e) ++ put_le 8 (size_ e).
Definition record_head (body : list Z) : list Z :=
  put_le 4 kMagic ++ put_le 2 kVersion ++ put_le 2 0 ++ put_le 4 (Z.of_nat (length body)).
Definition encode (key : CorfuSlotKey) (e : Entry) : list Z :=
  let body := record_body key e in
  let rec := record_head body ++ body in
  rec ++ put_le 4 (Crc32c rec).

(** * [Replay] *)
Inductive parsed := Break | Throw | Rec (key : CorfuSlotKey) (e : Entry) (rest : list Z).

Definition parse_body (p : list Z) : option (CorfuSlotKey * Z * Entry) :=
  '(topic_len, p) ← Get 2 p;
  _ ← guard (~ (topic_len > kMaxTopic) /\ ~ (Z.of_nat (length p) < topic_len));
  let topic := take (Z.to_nat topic_len) p in
  let p := drop (Z.to_nat topic_len) p in
  '(broker_id, p) ← Get 4 p;
  '(broker_batch_seq, p) ← Get 8 p;
  '(st, p) ← Get 1 p;
  '(client, p) ← Get 8 p;
  '(orig, p) ← Get 8 p;
  '(order, p) ← Get 8 p;
  '(num, p) ← Get 4 p;
  '(total, p) ← Get 8 p;
  '(off, p) ← Get 8 p;
  '(sz, p) ← Get 8 p;
  _ ← guard (p = []);
  Some ((topic, broker_id, broker_batch_seq), st, mkEntry kUnwritten (mkValueId client orig order num total) off sz []).

Definition parse_header (p : list Z) : option (Z * Z * Z * list Z) :=
  '(magic, p) ← Get 4 p; '(ver, p) ← Get 2 p; '(_, p) ← Get 2 p; '(len, p) ← Get 4 p; Some (magic, ver, len, p).

(** One record at the front of [bs], of a file of [total] bytes. *)
Definition parse_record (total : Z) (bs : list Z) : parsed :=
  if (length bs <? 12)%nat then Break
  else
    match parse_header bs with
    | None => Throw
    | Some (magic, ver, len, p) =>
        if negb (magic =? kMagic) || negb (ver =? kVersion) then Throw
        else if (len >? total) || (Z.of_nat (length p) <? u32 (len + 4)) then Break
        else
          match parse_body (take (Z.to_nat len) p) with
          | None => Throw
          | Some (key, st, e) =>
              let c := drop (Z.to_nat len) p in
              match Get 4 c with
              | Some (crc, rest) =>
                  if negb (crc =? Crc32c (take (12 + Z.to_nat len) bs)) then
                    if (length c =? 4)%nat then Break else Throw
                  else if st =? 1 then Rec key (mkEntry kValue (value e) (offset e) (size_ e) []) rest
                  else if st =? 2 then Rec key (mkEntry kJunk (value e) (offset e) (size_ e) []) rest
                  else Throw
              | None => Throw
              end
          end
    end.

(** The slots and the length of the file that is kept; [None] is an exception. *)
Fixpoint replay_loop (fuel : nat) (total : Z) (bs : list Z) (slots : gmap CorfuSlotKey Entry) (off : nat)
    : option (gmap CorfuSlotKey Entry * nat) :=
  match fuel with
  | O => Some (slots, off)
  | S fuel =>
      if (length bs =? 0)%nat then Some (slots, off)
      else
        match parse_record total bs with
        | Break => Some (slots, off)
        | Throw => None
        | Rec key e rest =>
            match slots !! key with
            | Some _ => None
            | None => replay_loop fuel total rest (<[key := e]> slots) (off + (length bs - length rest))
            end
        end
  end.
Definition Replay (file : list Z) : option (gmap CorfuSlotKey Entry * nat) :=
  replay_loop (length file) (Z.of_nat (length file)) file ∅ 0.

(** * Round trips *)
Definition key_wf (key : CorfuSlotKey) : Prop :=
  Z.of_nat (length key.1.1) <= kMaxTopic /\ byte_list key.1.1 /\ is_u32 key.1.2 /\ is_u64 key.2.
Definition value_wf (v : CorfuValueId) : Prop :=
  is_u64 (client_id v) /\ is_u64 (original_client_batch_seq v) /\ is_u64 (total_order v) /\ is_u32 (num_msg v) /\
  is_u64 (total_size v).
Definition entry_wf (e : Entry) : Prop :=
  state e <> kUnwritten /\ value_wf (value e) /\ is_u64 (offset e) /\ is_u64 (size_ e) /\ payload e = [].

Lemma Get_Put n v rest : 0 <= v < 256 ^ Z.of_nat n -> Get n (put_le n v ++ rest) = Some (v, rest).
Proof.
  intros Hv. unfold Get. rewrite length_app, put_le_length. replace (n + length rest <? n)%nat with false by (symmetry; apply Nat.ltb_ge; lia).
  rewrite get_put_le by done. f_equal. f_equal. rewrite drop_app_length'; [done|]. by rewrite put_le_length.
Qed.

Lemma Get_Put_nil n v : 0 <= v < 256 ^ Z.of_nat n -> Get n (put_le n v) = Some (v, []).
Proof. intros Hv. rewrite <- (app_nil_r (put_le n v)). by apply Get_Put. Qed.

Lemma parse_body_encode key e :
  key_wf key -> entry_wf e ->
  parse_body (record_body key e) =
    Some (key, state_byte (state e), mkEntry kUnwritten (value e) (offset e) (size_ e) []).
Proof.
  destruct key as [[topic b] s]. intros (K1 & K2 & K3 & K4) (E1 & (V1 & V2 & V3 & V4 & V5) & E3 & E4 & E5).
  cbn [fst snd] in K1, K2, K3, K4. unfold kMaxTopic in K1. unfold parse_body, record_body.
  rewrite Get_Put by (simpl; lia). cbn [mbind option_bind].
  rewrite option_guard_True by (rewrite length_app; unfold kMaxTopic; lia). cbn [mbind option_bind].
  rewrite Nat2Z.id, take_app_length, drop_app_length.
  rewrite Get_Put by (by apply u32_bytes). cbn [mbind option_bind].
  rewrite Get_Put by (by apply u64_bytes). cbn [mbind option_bind].
  rewrite Get_Put by (destruct (state e); simpl; lia). cbn [mbind option_bind].
  do 3 (rewrite Get_Put by (by apply u64_bytes); cbn [mbind option_bind]).
  rewrite Get_Put by (by apply u32_bytes). cbn [mbind option_bind].
  do 2 (rewrite Get_Put by (by apply u64_bytes); cbn [mbind option_bind]).
  rewrite Get_Put_nil by (by apply u64_bytes). cbn [mbind option_bind].
  rewrite option_guard_True by done. simpl. by destruct (value e).
Qed.

Lemma record_head_length body : length (record_head body) = 12%nat.
Proof. unfold record_head. by rewrite !length_app, !put_le_length. Qed.

Lemma record_body_length key e : length (record_body key e) = (67 + length key.1.1)%nat.
Proof. destruct key as [[topic b] s]. unfold record_body. rewrite !length_app, !put_le_length. simpl. lia. Qed.

Lemma encode_length key e : length (encode key e) = (83 + length key.1.1)%nat.
Proof. unfold encode. rewrite !length_app, record_head_length, record_body_length, put_le_length. lia. Qed.

Lemma Crc32c_range bs : is_u32 (Crc32c bs).
Proof. apply u32_range. Qed.

(** The header of a record, whatever follows the first twelve bytes. *)
Lemma parse_head body rest :
  is_u32 (Z.of_nat (length body)) ->
  parse_header (record_head body ++ rest) = Some (kMagic, kVersion, Z.of_nat (length body), rest).
Proof.
  intros Hb. unfold parse_header, record_head. rewrite <- !app_assoc.
  rewrite Get_Put by (unfold kMagic; simpl; lia). cbn [mbind option_bind].
  rewrite Get_Put by (unfold kVersion; simpl; lia). cbn [mbind option_bind].
  rewrite Get_Put by (simpl; lia). cbn [mbind option_bind].
  rewrite Get_Put by (by apply u32_bytes). done.
Qed.

Lemma body_u32 key e : key_wf key -> is_u32 (Z.of_nat (length (record_body key e)) + 4).
Proof. intros (K & _). rewrite record_body_length. unfold kMaxTopic in K. word_unfold. lia. Qed.

(** A whole record is read back, and the reader stands behind it. *)
Lemma parse_record_encode total key e rest :
  key_wf key -> entry_wf e -> Z.of_nat (length (encode key e)) <= total ->
  parse_record total (encode key e ++ rest) = Rec key e rest.
Proof.
  intros Hk He Ht. pose proof (body_u32 key e Hk) as Hu.
  assert (Hb : is_u32 (Z.of_nat (length (record_body key e)))) by (word_unfold; lia).
  assert (Hlen := encode_length key e). assert (Hbl := record_body_length key e).
  unfold parse_record, encode. set (body := record_body key e) in *.
  replace (_ <? 12)%nat with false by (symmetry; apply Nat.ltb_ge; rewrite !length_app, record_head_length; lia).
  rewrite <- !app_assoc, parse_head by done. rewrite !Z.eqb_refl. cbn [negb orb].
  rewrite (u32_id (_ + 4)) by done.
  replace (_ >? total) with false by (symmetry; rewrite Z.gtb_ltb; apply Z.ltb_ge; lia).
  replace (_ <? _ + 4) with false by (symmetry; apply Z.ltb_ge; rewrite !length_app, put_le_length; lia). cbn [orb].
  rewrite Nat2Z.id, take_app_length, drop_app_length. unfold body at 1. rewrite parse_body_encode by done.
  rewrite Get_Put by apply u32_bytes, Crc32c_range. fold body.
  replace (take (12 + length body) _) with (record_head body ++ body)
    by (rewrite app_assoc; symmetry; apply take_app_length'; by rewrite length_app, record_head_length).
  rewrite Z.eqb_refl. cbn [negb]. destruct e as [st v o sz pl], He as (E1 & _ & _ & _ & E5). simpl in *. subst pl.
  by destruct st.
Qed.

(** A record that the end of the file cuts is left out. *)
Lemma parse_record_torn total key e n :
  key_wf key -> (n < length (encode key e))%nat -> parse_record total (take n (encode key e)) = Break.
Proof.
  intros Hk Hn. pose proof (body_u32 key e Hk) as Hu.
  assert (Hb : is_u32 (Z.of_nat (length (record_body key e)))) by (word_unfold; lia).
  rewrite encode_length in Hn. assert (Hbl := record_body_length key e).
  unfold parse_record. rewrite length_take, encode_length. destruct (_ <? 12)%nat eqn:E; [done|]. apply Nat.ltb_ge in E.
  unfold encode. set (body := record_body key e) in *. rewrite <- app_assoc, take_app_ge, record_head_length
    by (rewrite record_head_length; lia).
  rewrite parse_head by done. rewrite !Z.eqb_refl. cbn [negb orb]. rewrite (u32_id (_ + 4)) by done.
  replace (_ <? _ + 4) with true; [by rewrite orb_true_r|].
  symmetry. apply Z.ltb_lt. rewrite length_take, !length_app, put_le_length. lia.
Qed.

(** * The sidecar as the history of the completed slots *)
Abbreviation history := (list (CorfuSlotKey * Entry)).
Definition encodes (h : history) : list Z := concat ((fun ke => encode ke.1 ke.2) <$> h).
Definition history_wf (h : history) : Prop :=
  NoDup h.*1 /\ Forall (fun ke => key_wf ke.1 /\ entry_wf ke.2) h.
Definition slots_of (h : history) : gmap CorfuSlotKey Entry := list_to_map h.

Lemma encodes_cons ke h : encodes (ke :: h) = encode ke.1 ke.2 ++ encodes h.
Proof. done. Qed.
Lemma encodes_app h1 h2 : encodes (h1 ++ h2) = encodes h1 ++ encodes h2.
Proof. unfold encodes. by rewrite fmap_app, concat_app. Qed.

Lemma history_wf_cons ke h :
  history_wf (ke :: h) <-> (ke.1 ∉ h.*1) /\ key_wf ke.1 /\ entry_wf ke.2 /\ history_wf h.
Proof. unfold history_wf. cbn. rewrite NoDup_cons, Forall_cons. tauto. Qed.

(** The bytes that follow the last whole record. *)
Inductive torn_tail : list Z -> Prop :=
| torn_nil : torn_tail []
| torn_cut key e n : key_wf key -> (n < length (encode key e))%nat -> torn_tail (take n (encode key e)).

Lemma parse_torn total t : torn_tail t -> parse_record total t = Break.
Proof. intros []; [done|]. by apply parse_record_torn. Qed.

Lemma replay_loop_encodes total t h : forall fuel slots off,
  history_wf h -> torn_tail t -> (forall k, k ∈ h.*1 -> slots !! k = None) ->
  Z.of_nat (length (encodes h)) <= total -> (length (encodes h ++ t) <= fuel)%nat ->
  replay_loop fuel total (encodes h ++ t) slots off = Some (slots_of h ∪ slots, (off + length (encodes h))%nat).
Proof.
  induction h as [|[k e] h IH]; intros fuel slots off Hh Ht Hs Htot Hf.
  - unfold slots_of. simpl. rewrite (left_id_L ∅ (∪)), Nat.add_0_r. destruct fuel; [done|]. cbn [replay_loop].
    case_match; [done|]. simpl. by rewrite parse_torn.
  - apply history_wf_cons in Hh as (Hk & Hkw & Hew & Hh). rewrite encodes_cons in Htot, Hf |- *. cbn [fst snd] in *.
    assert (Hel := encode_length k e). rewrite !length_app in Hf. rewrite !length_app in Htot.
    destruct fuel as [|fuel]; [lia|]. cbn [replay_loop].
    replace (_ =? 0)%nat with false by (symmetry; apply Nat.eqb_neq; rewrite !length_app; lia).
    rewrite <- app_assoc, parse_record_encode by (done || lia). rewrite Hs by set_solver.
    rewrite IH; [|done|done| |lia|rewrite length_app in *; lia].
    + f_equal. f_equal; [|rewrite !length_app; lia]. unfold slots_of. rewrite list_to_map_cons.
      rewrite <- insert_union_l, insert_union_r; [done|]. by apply not_elem_of_list_to_map.
    + intros k' Hk'. rewrite lookup_insert_ne by set_solver. apply Hs. set_solver.
Qed.

Lemma Replay_encodes h t :
  history_wf h -> torn_tail t -> Replay (encodes h ++ t) = Some (slots_of h, length (encodes h)).
Proof.
  intros Hh Ht. unfold Replay. rewrite (replay_loop_encodes _ _ h) by (done || (rewrite ?length_app; lia)).
  by rewrite (right_id_L ∅ (∪)).
Qed.

(** A prefix of the file is whole records and a torn tail. *)
Lemma take_encodes h : forall n, Forall (fun ke => key_wf ke.1 /\ entry_wf ke.2) h ->
  exists j t, take n (encodes h) = encodes (take j h) ++ t /\ torn_tail t /\ (j <= length h)%nat /\
    ((j < length h)%nat -> (n < length (encodes (take (S j) h)))%nat).
Proof.
  induction h as [|[k e] h IH]; intros n Hh.
  - exists 0%nat, []. split_and!; [by destruct n|constructor|simpl; lia..].
  - apply Forall_cons in Hh as [[Hk He] Hh]. rewrite encodes_cons. cbn [fst snd] in *.
    destruct (decide (n < length (encode k e))%nat) as [Hn|Hn].
    + exists 0%nat, (take n (encode k e)). split_and!; [|by constructor|simpl; lia|].
      * by rewrite take_app_le by lia.
      * intros _. cbn [take]. rewrite encodes_cons, length_app. cbn [fst snd]. lia.
    + destruct (IH (n - length (encode k e))%nat Hh) as (j & t & E & Ht & Hj & Hn').
      exists (S j), t. split_and!; [|done|simpl; lia|].
      * rewrite take_app_ge, E by lia. cbn [take]. by rewrite encodes_cons, <- app_assoc.
      * intros Hlt. cbn [length] in Hlt. cbn [take]. rewrite encodes_cons, length_app. cbn [take] in Hn'.
        cbn [fst snd]. lia.
Qed.

Lemma history_wf_take j h : history_wf h -> history_wf (take j h).
Proof.
  intros [H1 H2]. split; [|by apply Forall_take]. rewrite fmap_take.
  eapply sublist_NoDup; [done|apply sublist_take].
Qed.

(** Whatever byte the file ends at, [Replay] restores exactly the records that
    are whole and cuts the file behind the last of them. *)
Theorem replay_restores_whole_records h n :
  history_wf h -> (n <= length (encodes h))%nat ->
  exists j, Replay (take n (encodes h)) = Some (slots_of (take j h), length (encodes (take j h))) /\
    (length (encodes (take j h)) <= n)%nat /\ ((j < length h)%nat -> (n < length (encodes (take (S j) h)))%nat).
Proof.
  intros Hh Hn. destruct (take_encodes h n (proj2 Hh)) as (j & t & E & Ht & Hj & Hlt).
  exists j. rewrite E. split_and!; [|..|done].
  - apply Replay_encodes; [|done]. by apply history_wf_take.
  - apply (f_equal length) in E. rewrite length_take, length_app in E. lia.
Qed.

(** * Operations

    [Store] is the object: [data] and [sidecar] are the contents of the two
    files.  The outcome of a system call is an argument: how much a write
    wrote, and whether a seek, a sync or a truncation succeeded. *)
Record Store := mkStore {
  media_durable : bool;
  slots : gmap CorfuSlotKey Entry;
  data : gmap Z Z;
  sidecar : list Z;
}.

Record append_io := mkAppendIo { seek_ok : bool; wrote : nat; sync_ok : bool; rollback_ok : bool }.
Definition AppendRecord (file : list Z) (key : CorfuSlotKey) (e : Entry) (sync : bool) (io : append_io) : bool * list Z :=
  if Z.of_nat (length key.1.1) >? kMaxTopic then (false, file)
  else
    let rec := encode key e in
    if negb (seek_ok io) then (false, file)
    else if (length rec <=? wrote io)%nat && (negb sync || sync_ok io) then (true, file ++ rec)
    else (false, if rollback_ok io then file else file ++ take (wrote io) rec).

(** [WriteGroup]: what the first pass decides for a request. *)
Inductive verdict := VError | VSame | VConflict | VDup | VNew.
Definition judge (m : gmap CorfuSlotKey Entry) (pending : list CorfuWriteRequest) (w : CorfuWriteRequest) : verdict :=
  match w_payload w with
  | None => VError
  | Some _ =>
      if negb (w_size w =? total_size (w_value w)) then VError
      else
        match m !! w_slot w with
        | Some e => if decide (state e = kValue /\ value e = w_value w) then VSame else VConflict
        | None =>
            match list_find (fun first => w_slot first = w_slot w) pending with
            | Some (_, first) => if decide (w_value first = w_value w) then VDup else VConflict
            | None => VNew
            end
        end
  end.
Fixpoint classify (m : gmap CorfuSlotKey Entry) (pending ws : list CorfuWriteRequest)
    : list verdict * list CorfuWriteRequest :=
  match ws with
  | [] => ([], pending)
  | w :: ws =>
      let v := judge m pending w in
      let pending := match v with VNew => pending ++ [w] | _ => pending end in
      let '(vs, pending) := classify m pending ws in (v :: vs, pending)
  end.
Definition status_of (complete : bool) (v : verdict) : CorfuWriteStatus :=
  match v with
  | VError => kIoError
  | VSame => kAlreadySame
  | VConflict => kConflict
  | VDup | VNew => if complete then kWritten else kIoError
  end.

Definition payload_bytes (w : CorfuWriteRequest) : list Z := take (Z.to_nat (w_size w)) (default [] (w_payload w)).
Definition entry_of (durable : bool) (w : CorfuWriteRequest) : CorfuSlotKey * Entry :=
  (w_slot w, mkEntry kValue (w_value w) (w_data_offset w) (w_size w) (if durable then [] else payload_bytes w)).
Definition emplace_all (m : gmap CorfuSlotKey Entry) (h : history) : gmap CorfuSlotKey Entry :=
  foldl (fun m ke => match m !! ke.1 with Some _ => m | None => <[ke.1 := ke.2]> m end) m h.

(** [n i] is the result of the i-th call. *)
Fixpoint pwrites (d : gmap Z Z) (pending : list CorfuWriteRequest) (n : nat -> Z) : bool * gmap Z Z :=
  match pending with
  | [] => (true, d)
  | w :: pending =>
      let d := memcpy d (w_data_offset w) (take (Z.to_nat (n 0%nat)) (payload_bytes w)) in
      if negb (n 0%nat =? w_size w) then (false, d) else pwrites d pending (fun i => n (S i))
  end.
Fixpoint append_all (file : list Z) (h : history) (io : nat -> append_io) : bool * list Z :=
  match h with
  | [] => (true, file)
  | (key, e) :: h =>
      let '(ok, file) := AppendRecord file key e false (io 0%nat) in
      if negb ok then (false, file) else append_all file h (fun i => io (S i))
  end.

Record group_io := mkGroupIo {
  alloc_ok : bool;
  pwrote : nat -> Z;
  data_sync_ok : bool;
  start_ok : bool;
  appends : nat -> append_io;
  sidecar_sync_ok : bool;
  group_rollback_ok : bool;
}.

(** The files and whether the group is complete, in durable mode. *)
Definition write_media (st : Store) (pending : list CorfuWriteRequest) (io : group_io) : bool * gmap Z Z * list Z :=
  let '(ok, d) := pwrites (data st) pending (pwrote io) in
  if negb ok then (false, d, sidecar st)
  else if negb (data_sync_ok io) then (false, d, sidecar st)
  else if negb (start_ok io) then (false, d, sidecar st)
  else
    let '(ok, file) := append_all (sidecar st) (entry_of true <$> pending) (appends io) in
    if ok && sidecar_sync_ok io then (true, d, file)
    else (false, d, if group_rollback_ok io then take (length (sidecar st)) file else file).

Definition WriteGroup (st : Store) (writes : list CorfuWriteRequest) (io : group_io) : list CorfuWriteStatus * Store :=
  let '(vs, pending) := classify (slots st) [] writes in
  let entries := entry_of (media_durable st) <$> pending in
  match pending with
  | [] => (status_of false <$> vs, st)
  | _ =>
      if negb (media_durable st) then
        if alloc_ok io then
          (status_of true <$> vs, mkStore false (emplace_all (slots st) entries) (data st) (sidecar st))
        else (status_of false <$> vs, st)
      else
        let '(ok, d, file) := write_media st pending io in
        (status_of ok <$> vs, mkStore true (if ok then emplace_all (slots st) entries else slots st) d file)
  end.
Definition WriteOnce (st : Store) (w : CorfuWriteRequest) (io : group_io) : CorfuWriteStatus * Store :=
  let '(res, st) := WriteGroup st [w] io in (default kIoError (head res), st).

Definition junk_entry : Entry := mkEntry kJunk no_value 0 0 [].
Definition WriteJunkOnce (st : Store) (key : CorfuSlotKey) (io : append_io) : CorfuWriteStatus * Store :=
  match slots st !! key with
  | Some e => (if decide (state e = kJunk) then kAlreadyJunk else kConflict, st)
  | None =>
      let '(ok, file) := if media_durable st then AppendRecord (sidecar st) key junk_entry true io else (true, sidecar st) in
      if negb ok then (kIoError, mkStore (media_durable st) (slots st) (data st) file)
      else (kWritten, mkStore (media_durable st) (<[key := junk_entry]> (slots st)) (data st) file)
  end.

(** The constructor, on what the files hold. *)
Definition open_store (durable : bool) (d : gmap Z Z) (file : list Z) : option Store :=
  if negb durable then Some (mkStore false ∅ d file)
  else '(m, off) ← Replay file; Some (mkStore true m d (take off file)).

(** * Write once *)
Definition pend_ok (m : gmap CorfuSlotKey Entry) (p : list CorfuWriteRequest) : Prop :=
  NoDup (w_slot <$> p) /\ (forall w, w ∈ p -> m !! w_slot w = None).

Definition justified (m : gmap CorfuSlotKey Entry) (p : list CorfuWriteRequest) (w : CorfuWriteRequest) (v : verdict) : Prop :=
  match v with
  | VError => True
  | VSame => exists e, m !! w_slot w = Some e /\ state e = kValue /\ value e = w_value w
  | VConflict =>
      (exists e, m !! w_slot w = Some e /\ ~ (state e = kValue /\ value e = w_value w)) \/
      (exists f, f ∈ p /\ w_slot f = w_slot w /\ w_value f <> w_value w)
  | VDup => exists f, f ∈ p /\ w_slot f = w_slot w /\ w_value f = w_value w
  | VNew => m !! w_slot w = None /\ w_slot w ∉ w_slot <$> p
  end.

Lemma judge_justified m p w : justified m p w (judge m p w).
Proof.
  unfold judge. destruct (w_payload w); [|done]. destruct (negb _); [done|]. destruct (m !! w_slot w) as [e|] eqn:Em.
  - case_decide; simpl; [naive_solver|]. left. eauto.
  - destruct (list_find _ p) as [[i f]|] eqn:Ef.
    + apply list_find_Some in Ef as (Hf & Hs & _). apply list_elem_of_lookup_2 in Hf. case_decide; simpl; eauto.
    + apply list_find_None in Ef. simpl. split; [done|]. intros (f & E & Hf)%list_elem_of_fmap.
      rewrite Forall_forall in Ef. by apply (Ef f Hf).
Qed.

Lemma justified_mono m p q w v : v <> VNew -> (forall f, f ∈ p -> f ∈ q) -> justified m p w v -> justified m q w v.
Proof. destruct v; simpl; naive_solver. Qed.

(** A verdict on the whole group: a new request is pending itself. *)
Definition settled (m : gmap CorfuSlotKey Entry) (p : list CorfuWriteRequest) (w : CorfuWriteRequest) (v : verdict) : Prop :=
  match v with VNew => w ∈ p | _ => justified m p w v end.

Lemma classify_spec m ws : forall pending vs p,
  classify m pending ws = (vs, p) -> pend_ok m pending ->
  pend_ok m p /\ pending ⊆ p /\ p ⊆ pending ++ ws /\ Forall2 (settled m p) ws vs.
Proof.
  induction ws as [|w ws IH]; intros pending vs p Hc Hp; simpl in Hc; [simplify_eq; split_and!; [done|set_solver|set_solver|constructor]|].
  pose proof (judge_justified m pending w) as Hj.
  destruct (classify m _ ws) as [vs' p'] eqn:E. simplify_eq.
  apply IH in E as (H1 & H2 & H3 & H4).
  - assert (Hsub : pending ⊆ p) by (destruct (judge m pending w); set_solver).
    split_and!; [done|done|destruct (judge m pending w); set_solver|]. constructor; [|done].
    destruct (judge m pending w) eqn:Ev; cbn [settled];
      first [eapply justified_mono; [done|exact Hsub|done] | set_solver].
  - destruct (judge m pending w); [done..|]. destruct Hp as [Hn Hf], Hj as [Hj1 Hj2]. split.
    + rewrite fmap_app. apply NoDup_app. split_and!; [done|set_solver|]. apply NoDup_singleton.
    + intros f [Hf'| ->%list_elem_of_singleton]%elem_of_app; auto.
Qed.

Lemma emplace_all_fresh h : forall m,
  NoDup h.*1 -> (forall k, k ∈ h.*1 -> m !! k = None) -> emplace_all m h = slots_of h ∪ m.
Proof.
  induction h as [|[k e] h IH]; intros m Hn Hf; [unfold slots_of; simpl; by rewrite (left_id_L ∅ (∪))|].
  cbn [fmap list_fmap fst] in Hn. apply NoDup_cons in Hn as [Hk Hn]. unfold emplace_all. cbn [foldl fst snd].
  rewrite Hf by set_solver. change (foldl _ _ h) with (emplace_all (<[k := e]> m) h). rewrite IH; [|done|].
  - unfold slots_of. rewrite list_to_map_cons, <- insert_union_l, insert_union_r; [done|]. by apply not_elem_of_list_to_map.
  - intros k' Hk'. rewrite lookup_insert_ne by set_solver. apply Hf. set_solver.
Qed.

Lemma entries_keys d p : (entry_of d <$> p).*1 = w_slot <$> p.
Proof. rewrite <- list_fmap_compose. by apply list_fmap_ext. Qed.

Lemma emplace_pending m d p :
  pend_ok m p -> emplace_all m (entry_of d <$> p) = slots_of (entry_of d <$> p) ∪ m.
Proof.
  intros [Hn Hf]. apply emplace_all_fresh; rewrite entries_keys; [done|].
  intros k (w & -> & Hw)%list_elem_of_fmap. auto.
Qed.

Lemma emplace_lookup m d p w :
  pend_ok m p -> w ∈ p -> emplace_all m (entry_of d <$> p) !! w_slot w = Some (entry_of d w).2.
Proof.
  intros Hp Hw. rewrite emplace_pending by done. apply lookup_union_Some_l. unfold slots_of.
  apply elem_of_list_to_map; [rewrite entries_keys; apply Hp|]. apply list_elem_of_fmap. by exists w.
Qed.

Lemma emplace_keeps m d p k e : pend_ok m p -> m !! k = Some e -> emplace_all m (entry_of d <$> p) !! k = Some e.
Proof.
  intros Hp Hk. rewrite emplace_pending by done. apply lookup_union_Some_raw. right. split; [|done].
  unfold slots_of. apply not_elem_of_list_to_map. rewrite entries_keys.
  intros (w & -> & Hw)%list_elem_of_fmap. apply Hp in Hw. congruence.
Qed.

(** [WriteGroup] in one equation: the verdicts of the group, and the pending
    entries if it completed. *)
Lemma WriteGroup_eq st ws io :
  exists vs p ok, classify (slots st) [] ws = (vs, p) /\ (WriteGroup st ws io).1 = (status_of ok <$> vs) /\
    media_durable (WriteGroup st ws io).2 = media_durable st /\
    slots (WriteGroup st ws io).2 =
      (if ok then emplace_all (slots st) (entry_of (media_durable st) <$> p) else slots st).
Proof.
  unfold WriteGroup. destruct (classify _ _ ws) as [vs p] eqn:E. exists vs, p. destruct p as [|w p].
  - by exists false.
  - destruct (media_durable st) eqn:Ed; cbn [negb].
    + destruct (write_media _ _ _) as [[ok d] file]. by exists ok.
    + destruct (alloc_ok io); [by exists true|]. by exists false.
Qed.

Lemma pend_ok_nil m : pend_ok m [].
Proof. split; [constructor|set_solver]. Qed.

Lemma WriteGroup_keeps st ws io k e : slots st !! k = Some e -> slots (WriteGroup st ws io).2 !! k = Some e.
Proof.
  intros Hk. destruct (WriteGroup_eq st ws io) as (vs & p & ok & Hc & _ & _ & ->). destruct ok; [|done].
  apply emplace_keeps; [|done]. apply classify_spec in Hc; [apply Hc|apply pend_ok_nil].
Qed.

(** The answers of a group tell what the slots hold afterwards. *)
Theorem WriteGroup_reports st ws io i w r :
  ws !! i = Some w -> (WriteGroup st ws io).1 !! i = Some r ->
  let found := Probe (slots (WriteGroup st ws io).2) (w_slot w) in
  (r = kWritten \/ r = kAlreadySame -> found = (kValue, w_value w)) /\
  (r = kConflict -> found <> (kValue, w_value w)) /\ r <> kAlreadyJunk /\
  (r = kWritten -> slots st !! w_slot w = None).
Proof.
  intros Hw Hr. destruct (WriteGroup_eq st ws io) as (vs & p & ok & Hc & E1 & _ & E2). rewrite E1 in Hr.
  apply classify_spec in Hc as (Hp & _ & _ & Hset); [|apply pend_ok_nil].
  apply list_lookup_fmap_Some in Hr as (v & -> & Hv). pose proof (Forall2_lookup_lr _ _ _ _ _ _ Hset Hw Hv) as Hs.
  unfold Probe. rewrite E2. destruct v; cbn [settled justified status_of] in *.
  - split_and!; try done. by intros [].
  - destruct Hs as (e & He & Hst & Hval). split_and!; try done. intros _.
    destruct ok; [rewrite (emplace_keeps _ _ _ _ e) by done|rewrite He]; by rewrite Hst, Hval.
  - split_and!; try done; [by intros []|]. intros _ Hf. destruct Hs as [(e & He & Hne)|(f & Hf1 & Hf2 & Hf3)].
    + destruct ok; [rewrite (emplace_keeps _ _ _ _ e) in Hf by done|rewrite He in Hf];
        destruct Hne; by injection Hf.
    + rewrite <- Hf2 in Hf. destruct ok; [rewrite emplace_lookup in Hf by done|rewrite (proj2 Hp) in Hf by done];
        simpl in Hf; congruence.
  - destruct Hs as (f & Hf1 & Hf2 & <-). rewrite <- Hf2. destruct ok; [|split_and!; naive_solver].
    rewrite emplace_lookup by done. split_and!; try done. intros _. by apply Hp.
  - destruct ok; [|split_and!; naive_solver]. rewrite emplace_lookup by done. split_and!; try done. intros _. by apply Hp.
Qed.

Lemma WriteJunkOnce_keeps st key io k e : slots st !! k = Some e -> slots (WriteJunkOnce st key io).2 !! k = Some e.
Proof.
  intros Hk. unfold WriteJunkOnce. destruct (slots st !! key) eqn:E; [done|].
  destruct (if media_durable st then _ else _) as [[] file]; cbn; [|done]. rewrite lookup_insert_ne; congruence.
Qed.

(** * Durability

    [request_wf] and [slot_wf] are the ranges of the C++ types.  [op_ok] also
    says that the truncation that undoes a failed append succeeds: where it
    does not, the sidecar keeps a record that no slot of the store has, and a
    later call may append the slot again ([failed_rollback_blocks_open]). *)
Definition slot_wf (key : CorfuSlotKey) : Prop := byte_list key.1.1 /\ is_u32 key.1.2 /\ is_u64 key.2.
Definition request_wf (w : CorfuWriteRequest) : Prop :=
  slot_wf (w_slot w) /\ value_wf (w_value w) /\ is_u64 (w_data_offset w) /\ is_u64 (w_size w).

Inductive op := OGroup (ws : list CorfuWriteRequest) (io : group_io) | OJunk (key : CorfuSlotKey) (io : append_io).
Definition op_ok (o : op) : Prop :=
  match o with
  | OGroup ws io => Forall request_wf ws /\ group_rollback_ok io = true
  | OJunk key io => slot_wf key /\ rollback_ok io = true
  end.
Definition do_op (st : Store) (o : op) : Store :=
  match o with OGroup ws io => (WriteGroup st ws io).2 | OJunk key io => (WriteJunkOnce st key io).2 end.

Definition store_inv (st : Store) : Prop :=
  media_durable st = true /\ exists h, history_wf h /\ sidecar st = encodes h /\ slots st = slots_of h.

Definition topic_fits (key : CorfuSlotKey) : Prop := Z.of_nat (length key.1.1) <= kMaxTopic.

Lemma AppendRecord_spec file key e sync io ok file' :
  AppendRecord file key e sync io = (ok, file') ->
  exists t, file' = file ++ t /\ (ok = true -> t = encode key e /\ topic_fits key) /\
    (ok = false -> rollback_ok io = true -> t = []).
Proof.
  unfold AppendRecord, topic_fits. destruct (_ >? kMaxTopic) eqn:Et.
  { intros [= <- <-]. exists []. by rewrite app_nil_r. }
  destruct (negb _); [intros [= <- <-]; exists []; by rewrite app_nil_r|]. destruct (_ && _).
  - intros [= <- <-]. exists (encode key e). split_and!; [done| |done]. intros _. split; [done|].
    rewrite Z.gtb_ltb in Et. apply Z.ltb_ge in Et. lia.
  - intros [= <- <-]. destruct (rollback_ok io); [exists []; by rewrite app_nil_r|]. by eexists.
Qed.

Lemma append_all_spec h : forall file io ok file',
  append_all file h io = (ok, file') ->
  exists t, file' = file ++ t /\ (ok = true -> t = encodes h /\ Forall (fun ke => topic_fits ke.1) h).
Proof.
  induction h as [|[k e] h IH]; intros file io ok file' H; cbn [append_all] in H.
  { simplify_eq. exists []. by rewrite app_nil_r. }
  destruct (AppendRecord _ _ _ _ _) as [ok1 f1] eqn:E. apply AppendRecord_spec in E as (t1 & -> & H1 & _).
  destruct ok1; cbn [negb] in H; [|simplify_eq; by exists t1].
  apply IH in H as (t & -> & Ht). destruct H1 as [-> Hk]; [done|]. exists (encode k e ++ t).
  split; [by rewrite app_assoc|]. intros Hok. destruct (Ht Hok) as [-> Hf]. split; [done|by constructor].
Qed.

Lemma write_media_spec st p io ok d file :
  write_media st p io = (ok, d, file) -> group_rollback_ok io = true ->
  if ok then file = sidecar st ++ encodes (entry_of true <$> p) /\ Forall (fun w => topic_fits (w_slot w)) p
  else file = sidecar st.
Proof.
  unfold write_media. intros H Hr. destruct (pwrites _ _ _) as [okd d']. destruct okd; cbn [negb] in H; [|by simplify_eq].
  destruct (data_sync_ok io); cbn [negb] in H; [|by simplify_eq].
  destruct (start_ok io); cbn [negb] in H; [|by simplify_eq].
  destruct (append_all _ _ _) as [oka f] eqn:E. apply append_all_spec in E as (t & -> & Ht). rewrite Hr in H.
  destruct oka, (sidecar_sync_ok io); cbn [andb] in H; simplify_eq; try by rewrite take_app_length.
  destruct Ht as [-> Hf]; [done|]. split; [done|]. rewrite Forall_fmap in Hf. exact Hf.
Qed.

Lemma entry_of_wf w :
  request_wf w -> topic_fits (w_slot w) -> key_wf (entry_of true w).1 /\ entry_wf (entry_of true w).2.
Proof. intros ((? & ? & ?) & ? & ? & ?) Ht. by split; [split_and!|split_and!]. Qed.

(** The history grows by entries of fresh slots. *)
Lemma sidecar_app h h' :
  history_wf h -> NoDup h'.*1 -> Forall (fun ke => key_wf ke.1 /\ entry_wf ke.2) h' ->
  (forall k, k ∈ h'.*1 -> slots_of h !! k = None) ->
  history_wf (h ++ h') /\ slots_of (h ++ h') = slots_of h' ∪ slots_of h.
Proof.
  intros [Hn Hw] Hn' Hw' Hf.
  assert (Hd : forall k, k ∈ h.*1 -> k ∉ h'.*1).
  { intros k Hk Hk'. apply Hf, not_elem_of_list_to_map in Hk'. done. }
  split; [split; [|by apply Forall_app]|].
  - rewrite fmap_app. by apply NoDup_app.
  - unfold slots_of. rewrite list_to_map_app. apply map_union_comm. apply map_disjoint_spec. intros k x y Hx Hy.
    apply elem_of_list_to_map_2 in Hx. apply elem_of_list_to_map_2 in Hy. apply (Hd k); by eapply list_elem_of_fmap_2'.
Qed.

Lemma pending_history m p h :
  slots_of h = m -> history_wf h -> pend_ok m p -> Forall request_wf p -> Forall (fun w => topic_fits (w_slot w)) p ->
  history_wf (h ++ (entry_of true <$> p)) /\
  slots_of (h ++ (entry_of true <$> p)) = emplace_all m (entry_of true <$> p).
Proof.
  intros <- Hh Hp Hw Ht. rewrite emplace_pending by done. apply sidecar_app; [done|rewrite entries_keys; apply Hp| |].
  - apply Forall_fmap. rewrite Forall_forall in Hw, Ht |- *. intros w Hin. apply entry_of_wf; auto.
  - rewrite entries_keys. intros k (w & -> & Hin)%list_elem_of_fmap. by apply Hp.
Qed.

Lemma pending_wf m ws vs p : classify m [] ws = (vs, p) -> Forall request_wf ws -> pend_ok m p /\ Forall request_wf p.
Proof.
  intros Hc Hw. apply classify_spec in Hc as (Hp & _ & Hsub & _); [|apply pend_ok_nil]. split; [done|].
  rewrite Forall_forall in Hw |- *. intros w Hin. apply Hw. by apply Hsub.
Qed.

Lemma WriteGroup_inv st ws io :
  store_inv st -> Forall request_wf ws -> group_rollback_ok io = true -> store_inv (WriteGroup st ws io).2.
Proof.
  intros (Hd & h & Hh & Hs & Hm) Hw Hr. unfold WriteGroup. destruct (classify _ _ ws) as [vs p] eqn:E.
  apply pending_wf in E as [Hp Hpw]; [|done]. destruct p as [|w p]; [split; [done|by exists h]|].
  rewrite Hd. cbn [negb]. destruct (write_media _ _ _) as [[ok d] file] eqn:Em. apply write_media_spec in Em; [|done].
  split; [done|]. cbn [snd sidecar slots]. destruct ok; [|exists h; by rewrite Em]. destruct Em as [-> Ht].
  exists (h ++ (entry_of true <$> w :: p)). destruct (pending_history (slots st) (w :: p) h) as [H1 H2]; [done..|].
  split_and!; [done| |done]. by rewrite encodes_app, Hs.
Qed.

Lemma WriteJunkOnce_inv st key io :
  store_inv st -> slot_wf key -> rollback_ok io = true -> store_inv (WriteJunkOnce st key io).2.
Proof.
  intros (Hd & h & Hh & Hs & Hm) Hk Hr. unfold WriteJunkOnce. destruct (slots st !! key) eqn:E; [split; [done|by exists h]|].
  rewrite Hd. destruct (AppendRecord _ _ _ _ _) as [ok file] eqn:Ea. apply AppendRecord_spec in Ea as (t & -> & H1 & H2).
  destruct ok; cbn [negb]; (split; [done|]); cbn [snd sidecar slots]; [|exists h; by rewrite H2, app_nil_r].
  destruct H1 as [-> Ht]; [done|]. exists (h ++ [(key, junk_entry)]).
  destruct (sidecar_app h [(key, junk_entry)]) as [H3 H4]; [done|apply NoDup_singleton| | |].
  - apply Forall_singleton. destruct Hk as (? & ? & ?). split; split_and!; done || (vm_compute; split; congruence).
  - cbn. intros k ->%list_elem_of_singleton. by rewrite <- Hm.
  - split_and!; [done| |]. { rewrite encodes_app, Hs. f_equal. unfold encodes. cbn. by rewrite app_nil_r. }
    rewrite H4, Hm. unfold slots_of. by rewrite list_to_map_cons, <- insert_union_l, list_to_map_nil, (left_id_L ∅ (∪)).
Qed.

Lemma do_op_store_inv st o : store_inv st -> op_ok o -> store_inv (do_op st o).
Proof. destruct o; intros Hi []; [by apply WriteGroup_inv|by apply WriteJunkOnce_inv]. Qed.

Lemma store_run_inv ops : forall st, store_inv st -> Forall op_ok ops -> store_inv (foldl do_op st ops).
Proof.
  induction ops as [|o ops IH]; intros st Hi Ho; [done|]. apply Forall_cons in Ho as [H1 H2].
  apply IH; [by apply do_op_store_inv|done].
Qed.

Definition empty_store : Store := mkStore true ∅ ∅ [].
Lemma empty_store_inv : store_inv empty_store.
Proof. split; [done|]. exists []. by split_and!; [split; constructor| |]. Qed.

(** ** A call that is cut *)

(** The records that a call is to append. *)
Definition new_records (st : Store) (o : op) : history :=
  match o with
  | OGroup ws _ => entry_of true <$> (classify (slots st) [] ws).2
  | OJunk key _ => match slots st !! key with Some _ => [] | None => [(key, junk_entry)] end
  end.
(** The ranges of the types, and topics of at most [kMaxTopic] bytes. *)
Definition op_wf (o : op) : Prop :=
  match o with
  | OGroup ws _ => Forall (fun w => request_wf w /\ topic_fits (w_slot w)) ws
  | OJunk key _ => slot_wf key /\ topic_fits key
  end.

Lemma new_records_wf st o :
  op_wf o ->
  NoDup (new_records st o).*1 /\ Forall (fun ke => key_wf ke.1 /\ entry_wf ke.2) (new_records st o) /\
  forall k, k ∈ (new_records st o).*1 -> slots st !! k = None.
Proof.
  destruct o as [ws io|key io]; cbn [op_wf new_records].
  - intros Hw. destruct (classify _ _ ws) as [vs p] eqn:E. cbn [snd].
    apply classify_spec in E as (Hp & _ & Hsub & _); [|apply pend_ok_nil]. rewrite entries_keys. split; [apply Hp|split].
    + apply Forall_fmap, Forall_forall. intros w Hin. rewrite Forall_forall in Hw. destruct (Hw w (Hsub w Hin)). by apply entry_of_wf.
    + intros k (w & -> & Hin)%list_elem_of_fmap. by apply Hp.
  - intros [(K1 & K2 & K3) Ht]. destruct (slots st !! key) eqn:E; [split_and!; [constructor..|set_solver]|].
    split; [apply NoDup_singleton|]. split; [|cbn; by intros k ->%list_elem_of_singleton].
    apply Forall_singleton. split; split_and!; done || (vm_compute; split; congruence).
Qed.

Lemma AppendRecord_prefix file key e sync io :
  exists m, (AppendRecord file key e sync io).2 = file ++ take m (encode key e).
Proof.
  unfold AppendRecord. destruct (_ >? kMaxTopic); [exists 0%nat; by rewrite app_nil_r|].
  destruct (negb _); [exists 0%nat; by rewrite app_nil_r|].
  destruct (_ && _); [exists (length (encode key e)); by rewrite take_ge|].
  cbn [snd]. destruct (rollback_ok io); [exists 0%nat; by rewrite app_nil_r|by eexists].
Qed.

Lemma append_all_prefix h : forall file io, exists m, (append_all file h io).2 = file ++ take m (encodes h).
Proof.
  induction h as [|[k e] h IH]; intros file io; cbn [append_all]; [exists 0%nat; by rewrite app_nil_r|].
  destruct (AppendRecord_prefix file k e false (io 0%nat)) as [m Hm].
  destruct (AppendRecord _ _ _ _ _) as [ok f] eqn:E. cbn [snd] in Hm. rewrite encodes_cons. cbn [fst snd]. destruct ok; cbn [negb].
  - apply AppendRecord_spec in E as (t & -> & Ht & _). destruct (Ht eq_refl) as [-> _].
    destruct (IH (file ++ encode k e) (fun i => io (S i))) as [m' ->]. exists (length (encode k e) + m')%nat.
    by rewrite <- app_assoc, take_app_add.
  - exists (Nat.min m (length (encode k e))). cbn [snd]. rewrite Hm, take_app_le by lia. f_equal.
    destruct (decide (m <= length (encode k e))%nat); [f_equal; lia|rewrite !take_ge by lia; done].
Qed.

(** Whatever system calls of a call fail, it appends a prefix of its records. *)
Lemma do_op_prefix st o :
  media_durable st = true -> exists m, sidecar (do_op st o) = sidecar st ++ take m (encodes (new_records st o)).
Proof.
  intros Hd. assert (Hno : forall l, exists m, sidecar st = sidecar st ++ take m l) by (intros l; exists 0%nat; by rewrite app_nil_r).
  destruct o as [ws io|key io]; cbn [do_op new_records].
  - unfold WriteGroup. destruct (classify _ _ ws) as [vs p]. destruct p as [|w p]; [apply Hno|]. rewrite Hd. cbn [negb snd].
    remember (w :: p) as l eqn:El. clear El. unfold write_media. destruct (pwrites _ _ _) as [[] d]; [|apply Hno].
    destruct (data_sync_ok io); [|apply Hno]. destruct (start_ok io); [|apply Hno]. cbn [negb].
    destruct (append_all_prefix (entry_of true <$> l) (sidecar st) (appends io)) as [m Hm].
    destruct (append_all _ _ _) as [ok f]. cbn [snd] in Hm. destruct (ok && _); [by exists m|].
    cbn [snd sidecar]. destruct (group_rollback_ok io); [|by exists m]. rewrite Hm, take_app_length. apply Hno.
  - unfold WriteJunkOnce. destruct (slots st !! key); [apply Hno|]. rewrite Hd.
    destruct (AppendRecord_prefix (sidecar st) key junk_entry true io) as [m Hm].
    destruct (AppendRecord _ _ _ _ _) as [ok f]. cbn [snd] in Hm. exists m. unfold encodes. cbn. rewrite app_nil_r.
    by destruct ok.
Qed.

Lemma encodes_nil_inv h : encodes h = [] -> h = [].
Proof.
  destruct h as [|[k e] h]; [done|]. intros H. rewrite encodes_cons in H. apply app_nil in H as [H _].
  apply (f_equal length) in H. rewrite encode_length in H. done.
Qed.

(** The constructor on a file whose last records [h'] are cut. *)
Lemma open_after_cut h h' d n :
  history_wf h -> Forall (fun ke => key_wf ke.1 /\ entry_wf ke.2) h' -> history_wf (h ++ h') ->
  exists j, open_store true d (encodes h ++ take n (encodes h')) =
      Some (mkStore true (slots_of (h ++ take j h')) d (encodes (h ++ take j h'))) /\
    (n = 0%nat -> take j h' = []).
Proof.
  intros Hh Hw Hhh. destruct (take_encodes h' n Hw) as (j & t & Et & Htt & _). exists j.
  assert (Hj : history_wf (h ++ take j h')).
  { apply (history_wf_take (length h + j)) in Hhh. by rewrite take_app_add in Hhh. }
  rewrite Et, app_assoc, <- encodes_app. unfold open_store. cbn [negb]. rewrite Replay_encodes by done.
  cbn [mbind option_bind]. rewrite take_app_length. split; [done|]. intros ->. cbn [take] in Et. symmetry in Et.
  apply app_nil in Et as [Et _]. by apply encodes_nil_inv.
Qed.

Lemma slots_of_take h j : NoDup h.*1 -> slots_of (take j h) ⊆ slots_of h.
Proof.
  intros Hn. apply map_subseteq_spec. intros k e He. apply elem_of_list_to_map_2 in He.
  apply elem_of_list_to_map; [done|]. by eapply subseteq_take.
Qed.

(** C29. A durable replica survives a crash at any point.  The calls before it
    start from a fresh store; their system calls fail wherever they like, but
    for the truncation that undoes a failed append.  The last call, of topics
    of at most 1024 bytes, is cut anywhere: whatever system calls of it fail,
    the truncation included, it leaves the first bytes of its records, and for
    every number [n] of those bytes the constructor succeeds, the file it keeps
    holds whole records only, and its slots are the completed slots, unchanged,
    with at most slots of the last call. *)
Theorem replica_crash_safe ops o d n :
  Forall op_ok ops -> op_wf o ->
  let st := foldl do_op empty_store ops in
  let records := new_records st o in
  (exists m, sidecar (do_op st o) = sidecar st ++ take m (encodes records)) /\
  exists st', open_store true d (sidecar st ++ take n (encodes records)) = Some st' /\
    slots st ⊆ slots st' /\ slots st' ⊆ emplace_all (slots st) records /\
    (n = 0%nat -> slots st' = slots st /\ sidecar st' = sidecar st) /\ store_inv st'.
Proof.
  intros Ho Hw st records. assert (Hi : store_inv st) by (apply store_run_inv; [apply empty_store_inv|done]).
  split; [by apply do_op_prefix, Hi|]. destruct Hi as (Hd & h & Hh & Hs & Hm).
  destruct (new_records_wf st o Hw) as (N1 & N2 & N3). fold records in N1, N2, N3. rewrite Hm in N3.
  destruct (sidecar_app h records Hh N1 N2 N3) as [Hhr _].
  destruct (open_after_cut h records d n Hh N2 Hhr) as (j & Eo & H0).
  destruct (sidecar_app h (take j records)) as [Hj Hsl]; [done| |by apply Forall_take| |].
  { rewrite fmap_take. eapply sublist_NoDup; [exact N1|apply sublist_take]. }
  { intros k Hk. apply N3. rewrite fmap_take in Hk. by eapply subseteq_take. }
  rewrite Hs. eexists. split; [exact Eo|]. cbn [slots sidecar]. rewrite Hm. split_and!.
  - rewrite Hsl. apply map_union_subseteq_r, map_disjoint_spec. intros k x y Hx Hy.
    apply elem_of_list_to_map_2, subseteq_take, (list_elem_of_fmap_2' fst _ _ k) in Hx; [|done]. apply N3 in Hx. congruence.
  - rewrite Hsl, emplace_all_fresh by done. apply map_union_mono_r; [|by apply slots_of_take].
    apply map_disjoint_spec. intros k x y Hx Hy.
    apply elem_of_list_to_map_2, (list_elem_of_fmap_2' fst _ _ k) in Hx; [|done]. apply N3 in Hx. congruence.
  - intros Hn. by rewrite H0, app_nil_r.
  - split; [done|]. by exists (h ++ take j records).
Qed.

Definition ex_value (b : Z) : CorfuValueId := mkValueId 7 b 0 1 2.
Definition ex_write (b off : Z) : CorfuWriteRequest := mkWrite ([116], 3, b) (ex_value b) off (Some [10 + b; 11 + b]) 2.
Definition good_append : append_io := mkAppendIo true 200 true true.
Definition good_io : group_io := mkGroupIo true (fun _ => 2) true true (fun _ => good_append) true true.
Definition ex_ops : list op :=
  [OGroup [ex_write 0 0; ex_write 1 2] good_io; OJunk ([116], 3, 5) good_append;
   OGroup [ex_write 2 4] (mkGroupIo true (fun _ => 2) true true (fun _ => mkAppendIo true 30 true true) true true)].

Lemma ex_write_wf b off : is_u64 b -> is_u64 off -> request_wf (ex_write b off).
Proof.
  intros Hb Ho. unfold request_wf, slot_wf, value_wf, byte_list. cbn. split_and!; forall_list; word_unfold; lia.
Qed.

Lemma replica_crash_safe_witness :
  exists st', open_store true ∅
      (sidecar (foldl do_op empty_store ex_ops) ++
       take 100 (encodes (entry_of true <$> [ex_write 2 4; ex_write 3 6]))) = Some st' /\
    slots st' !! w_slot (ex_write 1 2) = Some (entry_of true (ex_write 1 2)).2.
Proof.
  destruct (replica_crash_safe ex_ops (OGroup [ex_write 2 4; ex_write 3 6; ex_write 0 0] good_io) ∅ 100) as (_ & st' & H1 & H2 & _).
  - unfold ex_ops, op_ok. forall_list; (split; [|reflexivity]); [forall_list; apply ex_write_wf..| |forall_list; apply ex_write_wf];
      word_unfold; try lia.
    unfold slot_wf, byte_list. cbn. split_and!; forall_list; word_unfold; lia.
  - cbn [op_wf]. forall_list; (split; [apply ex_write_wf; word_unfold; lia|vm_compute; congruence]).
  - exists st'. split; [rewrite <- H1; vm_compute; reflexivity|].
    revert H2. rewrite map_subseteq_spec. intros H2. apply H2. vm_compute. reflexivity.
Defined.

(** * The data file *)
(** A durable [WriteOnce] that answers kWritten left the payload in the data
    file at the offset its record names. *)
Theorem WriteOnce_data st w io (i : nat) b :
  media_durable st = true -> (WriteOnce st w io).1 = kWritten -> payload_bytes w !! i = Some b ->
  data (WriteOnce st w io).2 !! (w_data_offset w + Z.of_nat i) = Some b /\
  slots (WriteOnce st w io).2 !! w_slot w = Some (entry_of true w).2.
Proof.
  intros Hd Hr Hb. unfold WriteOnce in *. destruct (WriteGroup st [w] io) as [res st'] eqn:E.
  unfold WriteGroup in E. cbn [classify] in E. pose proof (judge_justified (slots st) [] w) as Hj.
  destruct (judge (slots st) [] w) eqn:Ev; cbn in E, Hr; simplify_eq; try done.
  rewrite Hd in E. cbn [negb] in E. destruct (write_media st [w] io) as [[ok d] file] eqn:Em. simplify_eq.
  destruct ok; [|done]. cbn [snd data slots]. split.
  - unfold write_media in Em. cbn [pwrites] in Em. destruct (pwrote io 0%nat =? w_size w) eqn:En; cbn [negb] in Em; [|done].
    apply Z.eqb_eq in En. rewrite En in Em.
    assert (d = memcpy (data st) (w_data_offset w) (payload_bytes w)) as ->; [|by apply memcpy_lookup].
    unfold payload_bytes in *. rewrite take_take, Nat.min_id in Em. by repeat case_match; simplify_eq.
  - destruct Hj as [Hj _]. apply (emplace_lookup (slots st) true [w] w); [|set_solver].
    split; [apply NoDup_singleton|]. by intros f ->%list_elem_of_singleton.
Qed.

(** * What the recovery does not cover *)

(** The body is parsed before the checksum is compared, so a last record whose
    length reached the disk and whose body did not is an exception and not a
    torn tail, although its checksum is wrong. *)
Example unwritten_body_blocks_open :
  open_store true ∅ (encodes [entry_of true (ex_write 0 0)] ++ record_head (record_body ([116], 3, 1) junk_entry) ++ replicate 72 0) = None.
Proof. vm_compute. reflexivity. Qed.

(** Where undoing a failed append fails too, the record stays in the file and
    the retry appends the slot again: the store does not open any more. *)
Example failed_rollback_blocks_open :
  let st := foldl do_op empty_store
    [OGroup [ex_write 0 0] (mkGroupIo true (fun _ => 2) true true (fun _ => good_append) false false);
     OGroup [ex_write 0 0] good_io] in
  Probe (slots st) (w_slot (ex_write 0 0)) = (kValue, ex_value 0) /\ open_store true (data st) (sidecar st) = None.
Proof. vm_compute. split; reflexivity. Qed.

(** A request of a failed group is answered kConflict for a slot that stays
    unwritten; alone it is written. *)
Example failed_group_conflict :
  let w := mkWrite ([116], 3, 0) (ex_value 9) 2 (Some [1; 2]) 2 in
  let io := mkGroupIo true (fun _ => 2) false true (fun _ => good_append) true true in
  let '(res, st) := WriteGroup empty_store [ex_write 0 0; w] io in
  res = [kIoError; kConflict] /\ Probe (slots st) (w_slot w) = (kUnwritten, no_value) /\
  (WriteOnce st w good_io).1 = kWritten.
Proof. vm_compute. split_and!; reflexivity. Qed.
End CorfuReplicaStore.
