(* ===== verification/CorfuChain.v ===== *)
(** The chain that writes the replicas of a Corfu slot in order
    (src/disk_manager/corfu_ordered_chain.cc), used by any number of callers at
    once.  [ChainEndpointOk] is what the chain relies on of a replica; the
    store of CorfuReplica.v provides it, and so does any endpoint behind the
    remote calls of src/disk_manager/corfu_replication_client.cc. *)

From S2P Require Import Prelude CorfuReplica.
Import CorfuReplicaStore.

(** What a replica has decided for a slot: nothing, a value ([Some]) or junk. *)
Definition decided (p : CorfuSlotState * CorfuValueId) : option (option CorfuValueId) :=
  match p.1 with kUnwritten => None | kValue => Some (Some p.2) | kJunk => Some None end.

Definition ValueComplete (s : CorfuWriteStatus) : bool :=
  match s with kWritten | kAlreadySame => true | _ => false end.
Definition JunkComplete (s : CorfuWriteStatus) : bool :=
  match s with kWritten | kAlreadyJunk => true | _ => false end.

(** The interface of an endpoint: what the replica holds, what a probe answers,
    and the two writes. *)
Class ChainEndpoint (St Io : Type) := {
  ep_state : St -> CorfuSlotKey -> CorfuSlotState * CorfuValueId;
  ep_probe : St -> CorfuSlotKey -> Io -> CorfuSlotState * CorfuValueId;
  ep_write_once : St -> CorfuWriteRequest -> Io -> CorfuWriteStatus * St;
  ep_write_junk : St -> CorfuSlotKey -> Io -> CorfuWriteStatus * St;
}.
(** Its contract.  A probe that fails answers that the slot is unwritten.  A write
    that reports a failure may have decided the slot all the same. *)
Class ChainEndpointOk (St Io : Type) `{!ChainEndpoint St Io} := {
  probe_answers s k io : ep_probe s k io = ep_state s k \/ (ep_probe s k io).1 = kUnwritten;
  write_decides s w io :
    ValueComplete (ep_write_once s w io).1 = true ->
    decided (ep_state (ep_write_once s w io).2 (w_slot w)) = Some (Some (w_value w));
  write_local s w io k :
    decided (ep_state (ep_write_once s w io).2 k) = decided (ep_state s k) \/
    k = w_slot w /\ decided (ep_state (ep_write_once s w io).2 k) = Some (Some (w_value w));
  write_stable s w io k d :
    decided (ep_state s k) = Some d -> decided (ep_state (ep_write_once s w io).2 k) = Some d;
  junk_decides s key io :
    JunkComplete (ep_write_junk s key io).1 = true ->
    decided (ep_state (ep_write_junk s key io).2 key) = Some None;
  junk_local s key io k :
    decided (ep_state (ep_write_junk s key io).2 k) = decided (ep_state s k) \/
    k = key /\ decided (ep_state (ep_write_junk s key io).2 k) = Some None;
  junk_stable s key io k d :
    decided (ep_state s k) = Some d -> decided (ep_state (ep_write_junk s key io).2 k) = Some d;
}.

Section chain.
Context {St Io : Type} `{!ChainEndpoint St Io}.

(** A call on the chain. *)
Inductive task := TAppend (d : CorfuWriteRequest) | THole (d : CorfuWriteRequest) | TJunk (key : CorfuSlotKey).
Definition task_slot (t : task) : CorfuSlotKey := match t with TAppend d | THole d => w_slot d | TJunk key => key end.
Definition task_value (t : task) : option CorfuValueId :=
  match t with TAppend d | THole d => Some (w_value d) | TJunk _ => None end.

(** What the loop does at an endpoint that answered [p]. *)
Inductive plan := Skip | Stop | Go.
Definition plan_at (t : task) (saw_unwritten : bool) (p : CorfuSlotState * CorfuValueId) : plan :=
  match t with
  | TAppend _ => Go
  | THole d =>
      if negb saw_unwritten && bool_decide (p.1 = kValue) && bool_decide (p.2 = w_value d) then Skip
      else if negb saw_unwritten && bool_decide (p.1 = kUnwritten) then Go
      else if negb saw_unwritten then Stop
      else if negb (bool_decide (p.1 = kUnwritten)) then Stop
      else Go
  | TJunk _ =>
      if negb saw_unwritten && bool_decide (p.1 = kJunk) then Skip
      else if negb saw_unwritten && bool_decide (p.1 = kUnwritten) then Go
      else if negb saw_unwritten || negb (bool_decide (p.1 = kUnwritten)) then Stop
      else Go
  end.

(** The write of a task, and whether the loop goes on. *)
Definition perform (t : task) (s : St) (io : Io) : bool * St :=
  match t with
  | TAppend d | THole d => let '(r, s) := ep_write_once s d io in (ValueComplete r, s)
  | TJunk key => let '(r, s) := ep_write_junk s key io in (JunkComplete r, s)
  end.

(** The loop; [None] is a null endpoint. *)
Fixpoint walk (t : task) (saw_unwritten : bool) (chain : list (option St)) (ios : nat -> Io) : bool * list (option St) :=
  match chain with
  | [] => (true, [])
  | None :: _ => (false, chain)
  | Some s :: rest =>
      match plan_at t saw_unwritten (ep_probe s (task_slot t) (ios 0%nat)) with
      | Skip => let '(b, rest) := walk t saw_unwritten rest (fun i => ios (S i)) in (b, Some s :: rest)
      | Stop => (false, chain)
      | Go =>
          let '(ok, s) := perform t s (ios 0%nat) in
          if negb ok then (false, Some s :: rest)
          else let '(b, rest) := walk t true rest (fun i => ios (S i)) in (b, Some s :: rest)
      end
  end.
Definition Append (d : CorfuWriteRequest) := walk (TAppend d) false.
Definition CompleteHole (d : CorfuWriteRequest) := walk (THole d) false.
Definition CompleteJunkHole (key : CorfuSlotKey) := walk (TJunk key) false.

(** * Concurrent callers

    Other callers run between the probe of an endpoint and the write that
    follows it, and between one endpoint and the next.  A call that returned
    false because of a write is [PFailed]: the request may still be under way. *)
Inductive phase := PProbe | PWrite | PDone (result : bool) | PFailed.
Definition call_result (ph : phase) : option bool :=
  match ph with PDone b => Some b | PFailed => Some false | _ => None end.
Record caller := mkCaller { c_task : task; c_pos : nat; c_saw : bool; c_phase : phase }.
Definition call (t : task) : caller := mkCaller t 0 false PProbe.

Definition caller_step (chain : list (option St)) (c : caller) (io : Io) : list (option St) * caller :=
  let '(mkCaller t i saw ph) := c in
  match ph with
  | PDone _ | PFailed => (chain, c)
  | PProbe =>
      match chain !! i with
      | None => (chain, mkCaller t i saw (PDone true))
      | Some None => (chain, mkCaller t i saw (PDone false))
      | Some (Some s) =>
          match plan_at t saw (ep_probe s (task_slot t) io) with
          | Skip => (chain, mkCaller t (S i) saw PProbe)
          | Stop => (chain, mkCaller t i saw (PDone false))
          | Go => (chain, mkCaller t i true PWrite)
          end
      end
  | PWrite =>
      match chain !! i with
      | Some (Some s) =>
          let '(ok, s) := perform t s io in
          (<[i := Some s]> chain, if ok then mkCaller t (S i) saw PProbe else mkCaller t i saw PFailed)
      | _ => (chain, mkCaller t i saw (PDone false))
      end
  end.

(** Any caller may take the next step, any probe and any write may fail, and a
    write that was reported as failed may reach the replica later. *)
Inductive chain_step : list (option St) * list caller -> list (option St) * list caller -> Prop :=
| step_caller chain cs j c io :
    cs !! j = Some c ->
    chain_step (chain, cs) ((caller_step chain c io).1, <[j := (caller_step chain c io).2]> cs)
| step_late chain cs c s io :
    c ∈ cs -> c_phase c = PFailed -> chain !! c_pos c = Some (Some s) ->
    chain_step (chain, cs) (<[c_pos c := Some (perform (c_task c) s io).2]> chain, cs).

(** * Agreement *)
Definition decided_at (chain : list (option St)) (i : nat) (k : CorfuSlotKey) : option (option CorfuValueId) :=
  match chain !! i with Some (Some s) => decided (ep_state s k) | _ => None end.

(** A replica has decided only what its predecessor decided. *)
Definition chain_ok (chain : list (option St)) : Prop :=
  forall i k d, decided_at chain (S i) k = Some d -> decided_at chain i k = Some d.
Definition caller_ok (chain : list (option St)) (c : caller) : Prop :=
  (forall i, (i < c_pos c)%nat -> decided_at chain i (task_slot (c_task c)) = Some (task_value (c_task c))) /\
  (c_phase c = PDone true -> (length chain <= c_pos c)%nat).
Definition chain_inv (sys : list (option St) * list caller) : Prop :=
  chain_ok sys.1 /\ forall c, c ∈ sys.2 -> caller_ok sys.1 c.

Context `{!ChainEndpointOk St Io}.

Lemma perform_decides t s io :
  (perform t s io).1 = true -> decided (ep_state (perform t s io).2 (task_slot t)) = Some (task_value t).
Proof.
  destruct t as [w|w|key]; cbn; [pose proof (write_decides s w io) as H|pose proof (write_decides s w io) as H|pose proof (junk_decides s key io) as H];
    case_match; cbn in *; auto.
Qed.

Lemma perform_local t s io k :
  decided (ep_state (perform t s io).2 k) = decided (ep_state s k) \/
  k = task_slot t /\ decided (ep_state (perform t s io).2 k) = Some (task_value t).
Proof.
  destruct t as [w|w|key]; cbn; [pose proof (write_local s w io k) as H|pose proof (write_local s w io k) as H|pose proof (junk_local s key io k) as H];
    case_match; cbn in *; auto.
Qed.

Lemma perform_stable t s io k d :
  decided (ep_state s k) = Some d -> decided (ep_state (perform t s io).2 k) = Some d.
Proof.
  destruct t as [w|w|key]; cbn; [pose proof (write_stable s w io k d) as H|pose proof (write_stable s w io k d) as H|pose proof (junk_stable s key io k d) as H];
    case_match; cbn in *; auto.
Qed.

Lemma plan_skip t saw s io :
  plan_at t saw (ep_probe s (task_slot t) io) = Skip -> decided (ep_state s (task_slot t)) = Some (task_value t).
Proof.
  destruct (probe_answers s (task_slot t) io) as [->|Hu].
  - destruct (ep_state s (task_slot t)) as [st v], t as [w|w|key]; cbn; repeat case_bool_decide; destruct saw; cbn; intros; subst; cbn; congruence.
  - destruct (ep_probe s (task_slot t) io) as [st v], t as [w|w|key]; cbn in *; subst st; by destruct saw.
Qed.

(** The effect of a write at one replica on what the chain has decided. *)
Lemma decided_at_insert chain i s s' j k :
  chain !! i = Some (Some s) ->
  decided_at (<[i := Some s']> chain) j k = if decide (j = i) then decided (ep_state s' k) else decided_at chain j k.
Proof.
  intros Hi. unfold decided_at. case_decide as E; [subst j|by rewrite list_lookup_insert_ne].
  rewrite list_lookup_insert_eq; [done|]. by eapply lookup_lt_Some.
Qed.

Lemma decided_at_at chain i s k : chain !! i = Some (Some s) -> decided_at chain i k = decided (ep_state s k).
Proof. unfold decided_at. by intros ->. Qed.

(** A write keeps what was decided, and keeps the chain ordered where its value
    was decided at the replicas before. *)
Lemma write_stable_at chain p s t io i k d :
  chain !! p = Some (Some s) -> decided_at chain i k = Some d ->
  decided_at (<[p := Some (perform t s io).2]> chain) i k = Some d.
Proof.
  intros Hp Hd. rewrite (decided_at_insert _ _ s) by done. case_decide as Ei; [subst i|done].
  rewrite (decided_at_at _ _ s) in Hd by done. by apply perform_stable.
Qed.

Lemma write_chain_ok chain p s t io :
  chain_ok chain -> chain !! p = Some (Some s) ->
  (forall i, (i < p)%nat -> decided_at chain i (task_slot t) = Some (task_value t)) ->
  chain_ok (<[p := Some (perform t s io).2]> chain).
Proof.
  intros Hc Hs Hp i k d. rewrite !(decided_at_insert _ _ s) by done. case_decide as E1; case_decide as E2; [lia| | |apply Hc].
  - subst p. intros Hd. destruct (perform_local t s io k) as [Hl|[-> Hl]]; rewrite Hl in Hd.
    + apply (Hc i k d). by rewrite (decided_at_at _ _ s).
    + simplify_eq. apply Hp. lia.
  - subst p. intros Hd%Hc. rewrite (decided_at_at _ _ s) in Hd by done. by apply perform_stable.
Qed.

(** No step takes a decision back. *)
Lemma step_stable chain c io i k d :
  decided_at chain i k = Some d -> decided_at (caller_step chain c io).1 i k = Some d.
Proof.
  intros Hd. destruct c as [t p saw ph]. cbn. destruct ph; [repeat case_match; done| |done..].
  destruct (chain !! p) as [[s|]|] eqn:Ep; [|done..]. pose proof (write_stable_at _ _ _ t io i k d Ep Hd) as H.
  by destruct (perform t s io).
Qed.

Lemma step_length chain c io : length (caller_step chain c io).1 = length chain.
Proof. destruct c as [t p saw ph]. cbn. repeat case_match; try done; apply length_insert. Qed.

(** The step of a caller at its position: the chain stays ordered. *)
Lemma step_chain_ok chain c io : chain_ok chain -> caller_ok chain c -> chain_ok (caller_step chain c io).1.
Proof.
  intros Hc [Hp _]. destruct c as [t p saw ph]. cbn in *. destruct ph; [repeat case_match; apply Hc| |apply Hc..].
  destruct (chain !! p) as [[s|]|] eqn:Ep; [|apply Hc..]. pose proof (write_chain_ok _ _ _ t io Hc Ep Hp) as H.
  by destruct (perform t s io).
Qed.

Lemma step_caller_ok chain c io : caller_ok chain c -> caller_ok (caller_step chain c io).1 (caller_step chain c io).2.
Proof.
  intros [Hp Hd]. split.
  - intros i Hi. destruct (decide (i < c_pos c)%nat) as [Hlt|Hge].
    { rewrite (step_stable _ _ _ i _ (task_value (c_task c))); [destruct c as [t p saw ph]; cbn; repeat case_match; done|].
      destruct c as [t p saw ph]. cbn in *. revert Hp. repeat case_match; intros; by apply Hp. }
    destruct c as [t p saw ph]. cbn in *. destruct ph; [| |cbn in Hi; lia..].
    + revert Hi. destruct (chain !! p) as [[s|]|] eqn:Ep; cbn; [|lia..].
      destruct (plan_at t saw _) eqn:Epl; cbn; [|lia..]. intros Hi. assert (i = p) as -> by lia.
      rewrite (decided_at_at _ _ s) by done. by eapply plan_skip.
    + revert Hi. destruct (chain !! p) as [[s|]|] eqn:Ep; cbn; [|lia..].
      destruct (perform t s io) as [ok s'] eqn:E. destruct ok; cbn; [|lia]. intros Hi. assert (i = p) as -> by lia.
      rewrite (decided_at_insert _ _ s) by done. rewrite decide_True by done.
      pose proof (perform_decides t s io) as H. rewrite E in H. by apply H.
  - rewrite step_length. destruct c as [t p saw ph]. cbn in *. destruct ph; [| |done..].
    + destruct (chain !! p) as [[s|]|] eqn:Ep; [destruct (plan_at _ _ _)|..]; cbn; try done.
      intros _. by apply lookup_ge_None.
    + repeat case_match; cbn; done.
Qed.

Lemma chain_step_inv sys sys' : chain_inv sys -> chain_step sys sys' -> chain_inv sys'.
Proof.
  intros [Hc Hcs] Hs. destruct Hs as [chain cs j c io Hj|chain cs c s io Hin Hf Hs]; cbn in *.
  2: { destruct (Hcs c Hin) as [Hp _]. split; cbn; [by apply write_chain_ok|]. intros c' Hin'.
       destruct (Hcs c' Hin') as [H1 H2]. split; [intros; by apply write_stable_at, H1|]. by rewrite length_insert. }
  pose proof (Hcs c (list_elem_of_lookup_2 _ _ _ Hj)) as Hok. split; cbn; [by apply step_chain_ok|].
  intros c' [i Hi]%list_elem_of_lookup_1. destruct (decide (i = j)) as [->|Hne].
  - rewrite list_lookup_insert_eq in Hi by (by eapply lookup_lt_Some). simplify_eq. by apply step_caller_ok.
  - rewrite list_lookup_insert_ne in Hi by done. destruct (Hcs c' (list_elem_of_lookup_2 _ _ _ Hi)) as [H1 H2].
    split; [intros; by apply step_stable, H1|]. by rewrite step_length.
Qed.

Lemma chain_run_inv chain ts sys :
  chain_ok chain -> rtc chain_step (chain, call <$> ts) sys -> chain_inv sys.
Proof.
  intros Hc Hr. eapply (rtc_invariant chain_step chain_inv); [by apply chain_step_inv| |done].
  split; [done|]. cbn. intros c (t & -> & _)%list_elem_of_fmap. split; cbn; [lia|done].
Qed.

Lemma chain_ok_le chain i j k d :
  chain_ok chain -> (i <= j)%nat -> decided_at chain j k = Some d -> decided_at chain i k = Some d.
Proof. intros Hc Hij. induction Hij; [done|]. intros Hd. by apply IHHij, Hc. Qed.

(** Runs from an explicit schedule. *)
Definition sched_step (sys : list (option St) * list caller) (a : nat * Io) : list (option St) * list caller :=
  match sys.2 !! a.1 with
  | Some c => let '(chain, c) := caller_step sys.1 c a.2 in (chain, <[a.1 := c]> sys.2)
  | None => sys
  end.
Lemma chain_sched_rtc l : forall sys, rtc chain_step sys (foldl sched_step sys l).
Proof.
  induction l as [|[j io] l IH]; intros [chain cs]; [done|]. cbn [foldl]. etrans; [|apply IH].
  unfold sched_step. cbn. destruct (cs !! j) as [c|] eqn:Ej; [|done]. apply rtc_once.
  pose proof (step_caller chain cs j c io Ej) as H. by destruct (caller_step chain c io).
Qed.

(** * A call alone

    A caller that nobody interrupts runs the loop of the code: its steps end,
    after at most two per endpoint and one, with the result and the chain of
    [walk]. *)
Fixpoint alone (n : nat) (chain : list (option St)) (c : caller) (ios : nat -> Io) : list (option St) * caller :=
  match n with O => (chain, c) | S n => let '(chain, c') := caller_step chain c (ios (c_pos c)) in alone n chain c' ios end.

Lemma alone_done n chain t i saw ph ios :
  call_result ph <> None -> alone n chain (mkCaller t i saw ph) ios = (chain, mkCaller t i saw ph).
Proof. intros Hr. induction n; [done|]. by destruct ph. Qed.

Lemma walk_ext t l : forall saw f g, (forall i, f i = g i) -> walk t saw l f = walk t saw l g.
Proof.
  induction l as [|[s|] l IH]; intros saw f g Hfg; cbn; [done| |done]. rewrite Hfg.
  destruct (plan_at _ _ _); [by rewrite (IH _ _ (fun i => g (S i)))|done|].
  destruct (perform _ _ _) as [[] s']; cbn; [|done]. by rewrite (IH _ _ (fun i => g (S i))).
Qed.

Lemma alone_walk t ios rest : forall n pre saw,
  let r := walk t saw rest (fun i => ios (length pre + i)%nat) in
  (S (2 * length rest) <= n)%nat ->
  exists i saw' ph, call_result ph = Some r.1 /\
    alone n (pre ++ rest) (mkCaller t (length pre) saw PProbe) ios = (pre ++ r.2, mkCaller t i saw' ph).
Proof.
  induction rest as [|o rest IH]; intros n pre saw r Hn; subst r; (destruct n as [|n]; [lia|]);
    cbn [alone caller_step c_pos].
  { rewrite lookup_ge_None_2 by (rewrite app_nil_r; lia). eexists _, _, (PDone true). by rewrite alone_done. }
  rewrite list_lookup_middle by done. destruct o as [s|]; cbn [walk]; [|eexists _, _, (PDone false); by rewrite alone_done].
  rewrite Nat.add_0_r.
  assert (Hnext : forall s' saw' m, (S (2 * length rest) <= m)%nat ->
    let r := walk t saw' rest (fun i => ios (length pre + S i)%nat) in
    exists i saw'' ph, call_result ph = Some r.1 /\
      alone m (pre ++ Some s' :: rest) (mkCaller t (S (length pre)) saw' PProbe) ios =
      (pre ++ Some s' :: r.2, mkCaller t i saw'' ph)).
  { intros s' saw' m Hm r. destruct (IH m (pre ++ [Some s']) saw' Hm) as (i & saw'' & ph & Eh & E).
    rewrite length_app, Nat.add_1_r, <- !app_assoc in E. rewrite length_app, Nat.add_1_r in Eh.
    rewrite (walk_ext t rest saw' _ (fun i => ios (length pre + S i)%nat)) in E, Eh by (intros; f_equal; lia).
    exists i, saw'', ph. split; [exact Eh|exact E]. }
  cbn [length] in Hn. destruct (plan_at t saw _).
  - destruct (Hnext s saw n) as (i & saw' & ph & Eh & E); [lia|]. rewrite E. eexists _, _, ph. by destruct (walk _ _ rest _).
  - eexists _, _, (PDone false). by rewrite alone_done.
  - destruct n as [|n]; [lia|]. cbn [alone caller_step c_pos]. rewrite list_lookup_middle by done.
    destruct (perform t s _) as [ok s'] eqn:Ep. rewrite insert_app_r_alt, Nat.sub_diag by lia. cbn [list_insert insert].
    destruct ok; cbn [negb]; [|eexists _, _, PFailed; by rewrite alone_done].
    destruct (Hnext s' true n) as (i & saw' & ph & Eh & E); [lia|]. exists i, saw', ph.
    destruct (walk _ _ rest _) as [b l]. split; [exact Eh|exact E].
Qed.

(** A call that nobody interrupts ends with the result of the code's loop. *)
Theorem call_runs_the_loop t chain ios :
  exists i saw ph, call_result ph = Some (walk t false chain ios).1 /\
    alone (S (2 * length chain)) chain (call t) ios = ((walk t false chain ios).2, mkCaller t i saw ph).
Proof. destruct (alone_walk t ios chain (S (2 * length chain)) [] false) as (i & saw & ph & Eh & E); [lia|]. by exists i, saw, ph. Qed.

(** C28. Agreement of the replicas of a slot.  Any number of callers append,
    complete holes and fill junk on one chain at once, in any interleaving.
    Writes fail, also after they took effect or with the effect to come, and
    probes that fail answer that the slot is unwritten.  Two replicas that
    decided a slot decided it alike, what a replica decided its predecessors
    decided, and a caller told true finds its own value (or junk) at every
    replica of the chain. *)
Theorem chain_agreement chain ts chain' cs :
  chain_ok chain -> rtc chain_step (chain, call <$> ts) (chain', cs) ->
  (forall i j k d d', decided_at chain' i k = Some d -> decided_at chain' j k = Some d' -> d = d') /\
  (forall i j k d, (i <= j)%nat -> decided_at chain' j k = Some d -> decided_at chain' i k = Some d) /\
  (forall c, c ∈ cs -> c_phase c = PDone true -> forall i, (i < length chain')%nat ->
     decided_at chain' i (task_slot (c_task c)) = Some (task_value (c_task c))).
Proof.
  intros Hc Hr. apply chain_run_inv in Hr as [Hc' Hcs]; [|done]. cbn in *. split_and!.
  - intros i j k d d' Hi Hj. destruct (Nat.le_ge_cases i j) as [Hle|Hle].
    + apply (chain_ok_le _ i j) in Hj; [congruence|done..].
    + apply (chain_ok_le _ j i) in Hi; [congruence|done..].
  - intros i j k d Hij. by apply chain_ok_le.
  - intros c Hin Hd i Hi. destruct (Hcs c Hin) as [H1 H2]. apply H1. specialize (H2 Hd). lia.
Qed.
End chain.

(** * The replica store is an endpoint *)
#[global] Instance store_endpoint : ChainEndpoint Store (group_io * append_io) := {
  ep_state st key := Probe (slots st) key;
  ep_probe st key _ := Probe (slots st) key;
  ep_write_once st w io := WriteOnce st w io.1;
  ep_write_junk st key io := WriteJunkOnce st key io.2;
}.

Lemma WriteOnce_eq st w io :
  let '(r, st') := WriteOnce st w io in
  (r = kWritten /\ slots st !! w_slot w = None /\ slots st' = <[w_slot w := (entry_of (media_durable st) w).2]> (slots st)) \/
  (r = kAlreadySame /\ slots st' = slots st /\
     exists e, slots st !! w_slot w = Some e /\ state e = kValue /\ value e = w_value w) \/
  (ValueComplete r = false /\ slots st' = slots st).
Proof.
  unfold WriteOnce. destruct (WriteGroup_eq st [w] io) as (vs & p & ok & Hc & E1 & _ & E2).
  destruct (WriteGroup st [w] io) as [res st']. cbn [fst snd] in *. rewrite E1, E2. cbn [classify] in Hc.
  pose proof (judge_justified (slots st) [] w) as Hj.
  destruct (judge (slots st) [] w); injection Hc as <- <-; cbn [fmap list_fmap head default status_of] in *.
  - right; right. by destruct ok.
  - right; left. split_and!; [done|by destruct ok|done].
  - right; right. by destruct ok.
  - destruct Hj as (f & Hf & _). by apply not_elem_of_nil in Hf.
  - destruct Hj as [Hj _]. destruct ok; [left|right; right; done]. split_and!; [done|done|]. cbn. by rewrite Hj.
Qed.

Lemma WriteJunkOnce_eq st key io :
  let '(r, st') := WriteJunkOnce st key io in
  (r = kWritten /\ slots st !! key = None /\ slots st' = <[key := junk_entry]> (slots st)) \/
  (r = kAlreadyJunk /\ slots st' = slots st /\ exists e, slots st !! key = Some e /\ state e = kJunk) \/
  (JunkComplete r = false /\ slots st' = slots st).
Proof.
  unfold WriteJunkOnce. destruct (slots st !! key) as [e|] eqn:E; [case_decide; naive_solver|].
  destruct (if media_durable st then _ else _) as [[] f]; cbn; naive_solver.
Qed.

#[global] Instance store_endpoint_ok : ChainEndpointOk Store (group_io * append_io).
Proof.
  split; intros s w io; cbn; unfold Probe, decided.
  - by left.
  - pose proof (WriteOnce_eq s w io.1) as H. destruct (WriteOnce s w io.1) as [r s']. cbn.
    destruct H as [(-> & Hn & ->)|[(-> & -> & e & He & H1 & H2)|[H1 ->]]]; [by rewrite lookup_insert_eq| |congruence].
    intros _. rewrite He. cbn. by rewrite H1, H2.
  - intros k. pose proof (WriteOnce_eq s w io.1) as H. destruct (WriteOnce s w io.1) as [r s']. cbn.
    destruct H as [(-> & Hn & ->)|[(-> & -> & e & He & H1 & H2)|[H1 ->]]]; [|by left..].
    destruct (decide (k = w_slot w)) as [->|?]; [right; by rewrite lookup_insert_eq|left; by rewrite lookup_insert_ne].
  - intros k d. pose proof (WriteOnce_eq s w io.1) as H. destruct (WriteOnce s w io.1) as [r s']. cbn.
    destruct H as [(-> & Hn & ->)|[(-> & -> & e & He & H1 & H2)|[H1 ->]]]; [|done..].
    destruct (decide (k = w_slot w)) as [->|?]; [by rewrite Hn|]. by rewrite lookup_insert_ne.
  - pose proof (WriteJunkOnce_eq s w io.2) as H. destruct (WriteJunkOnce s w io.2) as [r s']. cbn.
    destruct H as [(-> & Hn & ->)|[(-> & -> & e & He & H1)|[H1 ->]]]; [by rewrite lookup_insert_eq| |congruence].
    intros _. rewrite He. cbn. by rewrite H1.
  - intros k. pose proof (WriteJunkOnce_eq s w io.2) as H. destruct (WriteJunkOnce s w io.2) as [r s']. cbn.
    destruct H as [(-> & Hn & ->)|[(-> & -> & e & He & H1)|[H1 ->]]]; [|by left..].
    destruct (decide (k = w)) as [->|?]; [right; by rewrite lookup_insert_eq|left; by rewrite lookup_insert_ne].
  - intros k d. pose proof (WriteJunkOnce_eq s w io.2) as H. destruct (WriteJunkOnce s w io.2) as [r s']. cbn.
    destruct H as [(-> & Hn & ->)|[(-> & -> & e & He & H1)|[H1 ->]]]; [|done..].
    destruct (decide (k = w)) as [->|?]; [by rewrite Hn|]. by rewrite lookup_insert_ne.
Qed.

(** * An endpoint behind remote calls *)

(** [GrpcChainEndpoint]: [server] is the replica, and a call may fail before the
    server sees it, or after it. *)
Record Remote (St : Type) := mkRemote { server : St }.
Arguments mkRemote {St} _.
Arguments server {St} _.
Record rpc_io (Io : Type) := mkRpc { request_lost : bool; reply_lost : bool; server_io : Io }.
Arguments mkRpc {Io} _ _ _.
Arguments request_lost {Io} _.
Arguments reply_lost {Io} _.
Arguments server_io {Io} _.

Section remote.
Context {St Io : Type} `{!ChainEndpoint St Io}.

Definition kMaxWriteBytes : Z := 64 * 1024 * 1024.
Definition remote_probe (r : Remote St) (key : CorfuSlotKey) (io : rpc_io Io) : CorfuSlotState * CorfuValueId :=
  if request_lost io || reply_lost io then (kUnwritten, no_value)
  else
    let '(st, v) := ep_probe (server r) key (server_io io) in
    (st, if decide (st = kValue) then v else no_value).
Definition remote_write_once (r : Remote St) (w : CorfuWriteRequest) (io : rpc_io Io) : CorfuWriteStatus * Remote St :=
  if bool_decide (w_payload w = None) || negb (w_size w =? total_size (w_value w)) || (w_size w >? kMaxWriteBytes) then (kIoError, r)
  else if request_lost io then (kIoError, r)
  else
    let '(res, s) := ep_write_once (server r) w (server_io io) in
    (if reply_lost io then kIoError else res, mkRemote s).
Definition remote_write_junk (r : Remote St) (key : CorfuSlotKey) (io : rpc_io Io) : CorfuWriteStatus * Remote St :=
  if request_lost io then (kIoError, r)
  else
    let '(res, s) := ep_write_junk (server r) key (server_io io) in
    (if reply_lost io then kIoError else res, mkRemote s).

#[global] Instance remote_endpoint : ChainEndpoint (Remote St) (rpc_io Io) := {
  ep_state r key := let '(st, v) := ep_state (server r) key in (st, if decide (st = kValue) then v else no_value);
  ep_probe := remote_probe;
  ep_write_once := remote_write_once;
  ep_write_junk := remote_write_junk;
}.

Lemma remote_decided r k : decided (ep_state (St := Remote St) r k) = decided (ep_state (server r) k).
Proof. cbn. destruct (ep_state (server r) k) as [st v]. unfold decided. cbn. by destruct st. Qed.

Context `{!ChainEndpointOk St Io}.

#[global] Instance remote_endpoint_ok : ChainEndpointOk (Remote St) (rpc_io Io).
Proof.
  split.
  - intros r k io. cbn. unfold remote_probe. destruct (_ || _); [by right|].
    destruct (probe_answers (server r) k (server_io io)) as [->|Hu]; [by left|right].
    by destruct (ep_probe (server r) k (server_io io)).
  - intros r w io. rewrite remote_decided. cbn. unfold remote_write_once. repeat case_match; cbn; try done; simplify_eq.
    intros Hv. pose proof (write_decides (server r) w (server_io io)) as Hd. by rewrite H1 in Hd; apply Hd.
  - intros r w io k. rewrite !remote_decided. cbn. unfold remote_write_once. repeat case_match; cbn; try (by left);
      pose proof (write_local (server r) w (server_io io) k) as Hd; by rewrite H1 in Hd.
  - intros r w io k d. rewrite !remote_decided. cbn. unfold remote_write_once. repeat case_match; cbn; try done;
      pose proof (write_stable (server r) w (server_io io) k d) as Hd; by rewrite H1 in Hd.
  - intros r key io. rewrite remote_decided. cbn. unfold remote_write_junk. repeat case_match; cbn; try done; simplify_eq.
    intros Hv. pose proof (junk_decides (server r) key (server_io io)) as Hd. by rewrite H0 in Hd; apply Hd.
  - intros r key io k. rewrite !remote_decided. cbn. unfold remote_write_junk. repeat case_match; cbn; try (by left);
      pose proof (junk_local (server r) key (server_io io) k) as Hd; by rewrite H0 in Hd.
  - intros r key io k d. rewrite !remote_decided. cbn. unfold remote_write_junk. repeat case_match; cbn; try done;
      pose proof (junk_stable (server r) key (server_io io) k d) as Hd; by rewrite H0 in Hd.
Qed.
End remote.

(** An append and a junk fill race on a chain of a durable and a memory replica
    behind remote calls; the reply to the second write of the append is lost,
    and a later caller finds the slot complete. *)
Definition ex_chain : list (option (Remote Store)) := [Some (mkRemote empty_store); Some (mkRemote (mkStore false ∅ ∅ []))].
Definition ex_tasks : list task := [TAppend (ex_write 0 0); TJunk ([116], 3, 0); THole (ex_write 0 0)].
Definition ok_io : rpc_io (group_io * append_io) := mkRpc false false (good_io, good_append).
Definition lost_reply : rpc_io (group_io * append_io) := mkRpc false true (good_io, good_append).
Definition ex_schedule : list (nat * rpc_io (group_io * append_io)) :=
  [(1%nat, ok_io); (0%nat, ok_io); (0%nat, ok_io); (1%nat, ok_io); (0%nat, ok_io); (0%nat, lost_reply);
   (2%nat, ok_io); (2%nat, ok_io); (2%nat, ok_io)].

Lemma chain_agreement_witness :
  let sys := foldl sched_step (ex_chain, call <$> ex_tasks) ex_schedule in
  c_phase <$> sys.2 = [PFailed; PFailed; PDone true] /\
  forall i, (i < 2)%nat -> decided_at sys.1 i ([116], 3, 0) = Some (Some (ex_value 0)).
Proof.
  cbn zeta. split; [vm_compute; reflexivity|].
  destruct (foldl sched_step (ex_chain, call <$> ex_tasks) ex_schedule) as [chain' cs] eqn:E.
  destruct (chain_agreement ex_chain ex_tasks chain' cs) as (_ & _ & H).
  - intros i k d. by destruct i as [|[|i]].
  - rewrite <- E. apply chain_sched_rtc.
  - assert (Hl : length (chain', cs).1 = 2%nat) by (rewrite <- E; vm_compute; reflexivity).
    assert (Hc : (chain', cs).2 !! 2%nat = Some (mkCaller (THole (ex_write 0 0)) 2 false (PDone true)))
      by (rewrite <- E; vm_compute; reflexivity).
    cbn [fst snd] in *. rewrite Hl in H. exact (H _ (list_elem_of_lookup_2 _ _ _ Hc) eq_refl).
Defined.
