(* ===== verification/Wire.v ===== *)
(** The wire format of a batch (src/common/wire_formats.h, the two message
    headers of src/cxl_manager/cxl_datastructure.h) and the check a broker makes
    before it publishes one (src/network_manager/batch_validation.h). *)

From S2P Require Import Prelude Bytes.

Module wire.

Definition MAX_MESSAGE_PAYLOAD_SIZE : Z := 1024 * 1024.
Definition MAX_BATCH_MESSAGES : Z := 10000.
Definition MAX_BATCH_TOTAL_ORDER : Z := 100000000.
Definition BATCH_META_FLAG_EXPORT_GAP : Z := 1.
Definition HEADER_VERSION_V1 : Z := 1.
Definition HEADER_VERSION_V2 : Z := 2.
Definition V1_HEADER_SIZE : Z := 64.
Definition V2_HEADER_SIZE : Z := 64.

Definition Align64 (size : Z) : Z := Z.land (size +u 63) (u64 (Z.lnot 63)).
Definition ComputeMessageStride (header_size payload_size : Z) : Z := Align64 (header_size +u payload_size).
Definition IsValidHeaderVersion (version : Z) : bool := (version =? HEADER_VERSION_V1) || (version =? HEADER_VERSION_V2).
Definition MaxV1PaddedSize : Z := Align64 (V1_HEADER_SIZE +u MAX_MESSAGE_PAYLOAD_SIZE).
Definition ComputeStrideV2 (payload_size : Z) : Z := Align64 (V2_HEADER_SIZE +u payload_size).
Definition ValidateV1PaddedSize (padded_size remaining_bytes : Z) : bool :=
  (padded_size >=? V1_HEADER_SIZE) && (padded_size <=? MaxV1PaddedSize) && (padded_size mod 64 =? 0) &&
  (padded_size <=? remaining_bytes).
Definition ValidateV2Payload (payload_size remaining_bytes : Z) : bool :=
  let stride := ComputeStrideV2 payload_size in
  (payload_size >? 0) && (payload_size <=? MAX_MESSAGE_PAYLOAD_SIZE) && (stride <=? remaining_bytes).
Definition ComputeStrideByVersion (version payload_size padded_size : Z) : Z :=
  if version =? HEADER_VERSION_V2 then ComputeStrideV2 payload_size
  else if version =? HEADER_VERSION_V1 then padded_size
  else 0.

(** ** Message headers, field by field *)
Record MessageHeader := mkMessageHeader {
  paddedSize : Z;
  segment_header : Z;
  logical_offset : Z;
  next_msg_diff : Z;
  total_order : Z;
  client_order : Z;
  client_id : Z;
  size : Z;
}.
Definition MessageHeader_fields (h : MessageHeader) : list (nat * Z) :=
  [(8%nat, paddedSize h); (8%nat, segment_header h); (8%nat, logical_offset h); (8%nat, next_msg_diff h);
   (8%nat, total_order h); (8%nat, client_order h); (8%nat, client_id h); (8%nat, size h)].
Definition MessageHeader_bytes (h : MessageHeader) : list Z :=
  fields_bytes (MessageHeader_fields h).
Definition MessageHeader_load (d : memory) (off : Z) : MessageHeader :=
  mkMessageHeader (load 8 d (off + 0)) (load 8 d (off + 8)) (load 8 d (off + 16)) (load 8 d (off + 24)) (load 8 d (off + 32))
    (load 8 d (off + 40)) (load 8 d (off + 48)) (load 8 d (off + 56)).

Record BlogMessageHeader := mkBlogMessageHeader {
  b_size : Z;
  b_received : Z;
  b_ts : Z;
  b_counter : Z;
  b_flags : Z;
  b_processed_ts : Z;
  b_total_order : Z;
  b_ordered_ts : Z;
  b_client_id : Z;
  b_batch_seq : Z;
  b_pad : Z;
}.
Definition BlogMessageHeader_fields (h : BlogMessageHeader) : list (nat * Z) :=
  [(4%nat, b_size h); (4%nat, b_received h); (8%nat, b_ts h); (4%nat, b_counter h); (4%nat, b_flags h);
   (8%nat, b_processed_ts h); (8%nat, b_total_order h); (8%nat, b_ordered_ts h); (8%nat, b_client_id h);
   (4%nat, b_batch_seq h); (4%nat, b_pad h)].
Definition BlogMessageHeader_bytes (h : BlogMessageHeader) : list Z :=
  fields_bytes (BlogMessageHeader_fields h).
Definition BlogMessageHeader_load (d : memory) (off : Z) : BlogMessageHeader :=
  mkBlogMessageHeader (load 4 d (off + 0)) (load 4 d (off + 4)) (load 8 d (off + 8)) (load 4 d (off + 16)) (load 4 d (off + 20))
    (load 8 d (off + 24)) (load 8 d (off + 32)) (load 8 d (off + 40)) (load 8 d (off + 48)) (load 4 d (off + 56))
    (load 4 d (off + 60)).

(** What precedes the messages of a batch on a subscriber's connection. *)
Record BatchMetadata := mkBatchMetadata {
  batch_total_order : Z;
  num_messages : Z;
  header_version : Z;
  flags : Z;
}.
Definition BatchMetadata_fields (m : BatchMetadata) : list (nat * Z) :=
  [(8%nat, batch_total_order m); (4%nat, num_messages m); (2%nat, header_version m); (2%nat, flags m)].
Definition BatchMetadata_bytes (m : BatchMetadata) : list Z := fields_bytes (BatchMetadata_fields m).

(** ** Sizes *)
Lemma Align64_eq n : 0 <= n < 2 ^ 64 - 64 -> Align64 n = 64 * ((n + 63) / 64).
Proof. intros Hn. unfold Align64. rewrite u64_id by (word_unfold; lia). apply land_line_mask. lia. Qed.

(** A stride is a whole number of lines that holds the header and the payload,
    and less than a line more. *)
Lemma ComputeStrideV2_spec n :
  0 <= n <= MAX_MESSAGE_PAYLOAD_SIZE ->
  ComputeStrideV2 n mod 64 = 0 /\ 64 + n <= ComputeStrideV2 n < 64 + n + 64.
Proof.
  intros Hn. unfold ComputeStrideV2, V2_HEADER_SIZE, MAX_MESSAGE_PAYLOAD_SIZE in *.
  rewrite (u64_id (64 + n)) by (word_unfold; lia). rewrite Align64_eq by lia.
  rewrite Z.mul_comm, Z.mod_mul by lia. Z.to_euclidean_division_equations. lia.
Qed.

Lemma MaxV1PaddedSize_eq : MaxV1PaddedSize = 64 + MAX_MESSAGE_PAYLOAD_SIZE.
Proof. reflexivity. Qed.

Lemma ValidateV1PaddedSize_spec p r :
  ValidateV1PaddedSize p r = true <-> 64 <= p <= 64 + MAX_MESSAGE_PAYLOAD_SIZE /\ p mod 64 = 0 /\ p <= r.
Proof. unfold ValidateV1PaddedSize. rewrite MaxV1PaddedSize_eq. unfold V1_HEADER_SIZE. rewrite !andb_true_iff, Z.geb_leb, !Z.leb_le, Z.eqb_eq. lia. Qed.

Lemma ValidateV2Payload_spec n r :
  ValidateV2Payload n r = true <-> 0 < n <= MAX_MESSAGE_PAYLOAD_SIZE /\ ComputeStrideV2 n <= r.
Proof. unfold ValidateV2Payload. rewrite !andb_true_iff, Z.gtb_ltb, Z.ltb_lt, !Z.leb_le. lia. Qed.

(** ** Headers in memory *)
Lemma MessageHeader_length h : length (MessageHeader_bytes h) = 64%nat.
Proof. unfold MessageHeader_bytes. by rewrite fields_bytes_length. Qed.
Lemma BlogMessageHeader_length h : length (BlogMessageHeader_bytes h) = 64%nat.
Proof. unfold BlogMessageHeader_bytes. by rewrite fields_bytes_length. Qed.

Definition field_wf (f : nat * Z) : Prop := 0 <= f.2 < 256 ^ Z.of_nat f.1.

(** Field [i] of a header that was copied to [off]. *)
Ltac load_nth fs i := 
  match goal with Hf : Forall field_wf fs |- _ =>
    let H := fresh in
    pose proof (Forall_lookup_1 _ fs i _ Hf eq_refl) as H; exact (load_field _ _ fs i _ _ _ eq_refl H)
  end.

Lemma MessageHeader_roundtrip d off h rest :
  Forall field_wf (MessageHeader_fields h) -> MessageHeader_load (memcpy d off (MessageHeader_bytes h ++ rest)) off = h.
Proof.
  intros Hf. unfold MessageHeader_load, MessageHeader_bytes. set (fs := MessageHeader_fields h) in *.
  transitivity (mkMessageHeader (paddedSize h) (segment_header h) (logical_offset h) (next_msg_diff h) (total_order h)
    (client_order h) (client_id h) (size h)); [|by destruct h].
  f_equal; [load_nth fs 0%nat|load_nth fs 1%nat|load_nth fs 2%nat|load_nth fs 3%nat|load_nth fs 4%nat|load_nth fs 5%nat|
            load_nth fs 6%nat|load_nth fs 7%nat].
Qed.

Lemma BlogMessageHeader_roundtrip d off h rest :
  Forall field_wf (BlogMessageHeader_fields h) ->
  BlogMessageHeader_load (memcpy d off (BlogMessageHeader_bytes h ++ rest)) off = h.
Proof.
  intros Hf. unfold BlogMessageHeader_load, BlogMessageHeader_bytes. set (fs := BlogMessageHeader_fields h) in *.
  transitivity (mkBlogMessageHeader (b_size h) (b_received h) (b_ts h) (b_counter h) (b_flags h) (b_processed_ts h)
    (b_total_order h) (b_ordered_ts h) (b_client_id h) (b_batch_seq h) (b_pad h)); [|by destruct h].
  f_equal; [load_nth fs 0%nat|load_nth fs 1%nat|load_nth fs 2%nat|load_nth fs 3%nat|load_nth fs 4%nat|load_nth fs 5%nat|
            load_nth fs 6%nat|load_nth fs 7%nat|load_nth fs 8%nat|load_nth fs 9%nat|load_nth fs 10%nat].
Qed.

(** A header depends on its 64 bytes only. *)
Lemma load_ext n d d' o :
  (forall k, o <= k < o + Z.of_nat n -> d' !! k = d !! k) -> load n d' o = load n d o.
Proof. intros H. unfold load. by rewrite (bytes_at_ext d d'). Qed.
Lemma MessageHeader_load_ext d d' off :
  (forall k, off <= k < off + 64 -> d' !! k = d !! k) -> MessageHeader_load d' off = MessageHeader_load d off.
Proof. intros H. unfold MessageHeader_load. f_equal; apply load_ext; intros k Hk; apply H; lia. Qed.
Lemma BlogMessageHeader_load_ext d d' off :
  (forall k, off <= k < off + 64 -> d' !! k = d !! k) -> BlogMessageHeader_load d' off = BlogMessageHeader_load d off.
Proof. intros H. unfold BlogMessageHeader_load. f_equal; apply load_ext; intros k Hk; apply H; lia. Qed.

(** A header of a received buffer. *)
Lemma MessageHeader_load_copy d a (n : nat) o :
  0 <= o -> o + 64 <= Z.of_nat n -> MessageHeader_load (memcpy ∅ 0 (bytes_at d a n)) o = MessageHeader_load d (a + o).
Proof.
  intros Ho Hn. unfold MessageHeader_load. rewrite <- !Z.add_assoc.
  f_equal; (rewrite <- (Z2Nat.id (o + _)) by lia; apply load_copy; lia).
Qed.
Lemma BlogMessageHeader_load_copy d a (n : nat) o :
  0 <= o -> o + 64 <= Z.of_nat n -> BlogMessageHeader_load (memcpy ∅ 0 (bytes_at d a n)) o = BlogMessageHeader_load d (a + o).
Proof.
  intros Ho Hn. unfold BlogMessageHeader_load. rewrite <- !Z.add_assoc.
  f_equal; (rewrite <- (Z2Nat.id (o + _)) by lia; apply load_copy; lia).
Qed.
End wire.

Module network.
Import wire.

(** The fields of [BatchHeader] that a publisher's batch carries on the wire. *)
Record BatchHeader := mkBatchHeader {
  batch_seq : Z;
  bh_client_id : Z;
  num_msg : Z;
  session_epoch : Z;
  session_epoch32 : Z;
  batch_complete : Z;
  bh_total_size : Z;
  start_logical_offset : Z;
}.

Definition ValidBatchEnvelope (batch : BatchHeader) (max_bytes client_id : Z) : bool :=
  (bh_client_id batch =? client_id) && (bh_total_size batch >? 0) && (bh_total_size batch <=? max_bytes) &&
  (num_msg batch >? 0) && (num_msg batch <=? bh_total_size batch / 64).

(** The stride of the message at [cursor], or [None] where it is rejected. *)
Definition message_stride (d : memory) (v2 : bool) (cursor remaining : Z) : option Z :=
  if v2 then
    let h := BlogMessageHeader_load d cursor in
    if negb (ValidateV2Payload (b_size h) remaining) then None else Some (ComputeStrideV2 (b_size h))
  else
    let h := MessageHeader_load d cursor in
    if negb (ValidateV1PaddedSize (paddedSize h) remaining) then None
    else if (size h =? 0) || (size h >? MAX_MESSAGE_PAYLOAD_SIZE) || (size h >? paddedSize h -u 64) ||
            (negb (next_msg_diff h =? 0) && negb (next_msg_diff h =? paddedSize h)) then None
    else Some (paddedSize h).

Fixpoint validate_walk (count : nat) (d : memory) (v2 : bool) (cursor remaining : Z) : bool :=
  match count with
  | O => remaining =? 0
  | S count =>
      if remaining <? 64 then false
      else
        match message_stride d v2 cursor remaining with
        | None => false
        | Some stride => validate_walk count d v2 (cursor + stride) (remaining -u stride)
        end
  end.
(** [None] is a null buffer. *)
Definition ValidateBatchBody (buffer : option memory) (bytes count : Z) (v2 : bool) : bool :=
  match buffer with
  | None => false
  | Some d =>
      if (bytes =? 0) || (count =? 0) || (count >? bytes / 64) then false
      else validate_walk (Z.to_nat count) d v2 0 bytes
  end.

(** * What a valid body is

    A message of [n] payload bytes at [off] takes [stride] bytes. *)
Definition message_at (d : memory) (v2 : bool) (off n stride : Z) : Prop :=
  0 < n <= MAX_MESSAGE_PAYLOAD_SIZE /\
  if v2 then b_size (BlogMessageHeader_load d off) = n /\ stride = ComputeStrideV2 n
  else
    let h := MessageHeader_load d off in
    size h = n /\ paddedSize h = stride /\ stride mod 64 = 0 /\ 64 + n <= stride <= 64 + MAX_MESSAGE_PAYLOAD_SIZE /\
    (next_msg_diff h = 0 \/ next_msg_diff h = stride).

(** The messages, each behind the other from [off] to [endp]. *)
Inductive tiles (d : memory) (v2 : bool) : Z -> Z -> list (Z * Z * Z) -> Prop :=
| tiles_nil off : tiles d v2 off off []
| tiles_cons off endp n stride ms :
    message_at d v2 off n stride -> tiles d v2 (off + stride) endp ms -> tiles d v2 off endp ((off, n, stride) :: ms).

Lemma message_at_stride d v2 off n stride :
  message_at d v2 off n stride -> 64 + n <= stride <= 64 + MAX_MESSAGE_PAYLOAD_SIZE /\ stride mod 64 = 0 /\ 0 < n.
Proof.
  unfold message_at, MAX_MESSAGE_PAYLOAD_SIZE. intros [Hn H]. destruct v2; [|lia]. destruct H as [_ ->].
  destruct (ComputeStrideV2_spec n) as [H1 H2]; [unfold MAX_MESSAGE_PAYLOAD_SIZE; lia|]. split_and!; try lia.
  Z.to_euclidean_division_equations. lia.
Qed.

Lemma tiles_le d v2 off endp ms : tiles d v2 off endp ms -> off + 64 * Z.of_nat (length ms) <= endp.
Proof. induction 1 as [|off endp n stride ms Hm Ht IH]; cbn [length]; [lia|]. apply message_at_stride in Hm. lia. Qed.

(** Every message of a tiling is inside it, and no two overlap. *)
Lemma body_tiles_bounds d v2 off endp ms :
  tiles d v2 off endp ms ->
  Forall (fun m => let '(o, n, stride) := m in off <= o /\ 64 + n <= stride /\ o + stride <= endp /\ (o - off) mod 64 = 0) ms /\
  pairwise (fun a b => a.1.1 + a.2 <= b.1.1) ms.
Proof.
  induction 1 as [|off endp n stride ms Hm Ht [IH1 IH2]]; [split; [constructor|apply pairwise_nil]|].
  pose proof (message_at_stride _ _ _ _ _ Hm) as (Hs & Hd & Hn). pose proof (tiles_le _ _ _ _ _ Ht) as Hle.
  assert (Hall : Forall (fun m => off + stride <= m.1.1) ms).
  { eapply Forall_impl; [exact IH1|]. intros [[o k] s]. cbn. lia. }
  split.
  - constructor; [split_and!; try lia; by rewrite Z.sub_diag|]. eapply Forall_impl; [exact IH1|].
    intros [[o k] s] (H1 & H2 & H3 & H4). split_and!; try lia.
    replace (o - off) with (o - (off + stride) + stride) by lia. rewrite Z.add_mod, H4, Hd by lia. done.
  - intros i j x y Hij Hx Hy. destruct i as [|i], j as [|j]; try lia; cbn in Hx, Hy.
    + simplify_eq. cbn. rewrite Forall_lookup in Hall. by apply Hall in Hy.
    + eapply (IH2 i j); [lia|done..].
Qed.

Lemma message_stride_spec d v2 off rem n stride :
  0 <= rem < 2 ^ 64 ->
  message_at d v2 off n stride -> stride <= rem -> message_stride d v2 off rem = Some stride.
Proof.
  intros Hr [Hn H] Hs. unfold message_stride. destruct v2.
  - destruct H as [-> ->]. replace (ValidateV2Payload n rem) with true; [done|]. symmetry. by apply ValidateV2Payload_spec.
  - destruct H as (-> & -> & Hm & Hb & Hd). unfold MAX_MESSAGE_PAYLOAD_SIZE in *.
    replace (ValidateV1PaddedSize stride rem) with true
      by (symmetry; apply ValidateV1PaddedSize_spec; unfold MAX_MESSAGE_PAYLOAD_SIZE; lia).
    cbn [negb]. rewrite (u64_id (stride - 64)) by (word_unfold; lia). case_match eqn:E; [|done]. exfalso.
    rewrite !orb_true_iff, andb_true_iff, !negb_true_iff, !Z.gtb_ltb, !Z.ltb_lt, !Z.eqb_eq, !Z.eqb_neq in E. lia.
Qed.

Lemma message_stride_sound d v2 off rem stride :
  byte_memory d -> message_stride d v2 off rem = Some stride -> exists n, message_at d v2 off n stride /\ stride <= rem.
Proof.
  intros Hd. unfold message_stride. destruct v2.
  - destruct (ValidateV2Payload _ _) eqn:E; [|done]. intros [= <-]. apply ValidateV2Payload_spec in E as [E1 E2]. by eexists.
  - destruct (ValidateV1PaddedSize _ _) eqn:E; [|done]. apply ValidateV1PaddedSize_spec in E as (E1 & E2 & E3).
    cbn [negb]. case_match eqn:Eb; [done|]. intros Heq.
    assert (stride = paddedSize (MessageHeader_load d off)) as -> by congruence. exists (size (MessageHeader_load d off)). unfold message_at.
    unfold MAX_MESSAGE_PAYLOAD_SIZE in *. set (h := MessageHeader_load d off) in *.
    rewrite u64_id in Eb by (word_unfold; lia).
    assert (0 <= size h < 256 ^ Z.of_nat 8) by (apply load_range, Hd).
    rewrite !orb_false_iff, andb_false_iff, !negb_false_iff, !Z.gtb_ltb, !Z.ltb_ge, !Z.eqb_eq, Z.eqb_neq in Eb.
    destruct Eb as [((Eb1 & Eb2) & Eb3) Eb4]. cbn zeta. fold h. split_and!; lia.
Qed.

Lemma validate_walk_spec count d v2 : forall cursor rem,
  byte_memory d -> 0 <= rem < 2 ^ 64 ->
  validate_walk count d v2 cursor rem = true <-> exists ms, length ms = count /\ tiles d v2 cursor (cursor + rem) ms.
Proof.
  induction count as [|count IH]; intros cursor rem Hd Hr; cbn [validate_walk].
  - rewrite Z.eqb_eq. split.
    + intros ->. exists []. rewrite Z.add_0_r. split; [done|constructor].
    + intros (ms & Hl & Ht). apply nil_length_inv in Hl as ->. inversion Ht. lia.
  - split.
    + destruct (rem <? 64) eqn:E; [done|]. destruct (message_stride _ _ _ _) as [stride|] eqn:Es; [|done].
      apply message_stride_sound in Es as (n & Hm & Hle); [|done]. pose proof (message_at_stride _ _ _ _ _ Hm) as (Hs & _ & Hn).
      rewrite u64_id by (word_unfold; lia). intros H. apply IH in H as (ms & Hl & Ht); [|done|lia].
      exists ((cursor, n, stride) :: ms). split; [cbn; congruence|]. constructor; [done|].
      by replace (cursor + rem) with (cursor + stride + (rem - stride)) by lia.
    + intros (ms & Hl & Ht). destruct ms as [|[[o n] stride] ms]; [done|]. inversion Ht as [|? ? ? ? ? Hm Ht']; subst.
      pose proof (message_at_stride _ _ _ _ _ Hm) as (Hs & _ & Hn). pose proof (tiles_le _ _ _ _ _ Ht') as Hle.
      replace (rem <? 64) with false by (symmetry; apply Z.ltb_ge; lia).
      rewrite (message_stride_spec _ _ _ _ n stride) by (done || lia). rewrite u64_id by (word_unfold; lia).
      apply IH; [done|lia|]. exists ms. split; [by injection Hl|].
      by replace (o + stride + (rem - stride)) with (o + rem) by lia.
Qed.

Lemma tiles_validate d bytes v2 ms :
  byte_memory d -> 0 <= bytes < 2 ^ 64 -> ms <> [] -> tiles d v2 0 bytes ms ->
  ValidateBatchBody (Some d) bytes (Z.of_nat (length ms)) v2 = true.
Proof.
  intros Hd Hb Hne Ht. pose proof (tiles_le _ _ _ _ _ Ht) as Hle. unfold ValidateBatchBody.
  assert (0 < Z.of_nat (length ms)) by (destruct ms; [done|cbn; lia]). case_match eqn:E.
  - rewrite !orb_true_iff, !Z.eqb_eq, Z.gtb_ltb, Z.ltb_lt in E. Z.to_euclidean_division_equations. lia.
  - apply validate_walk_spec; [done..|]. exists ms. split; [lia|done].
Qed.

(** C17. The check of a batch body accepts exactly the buffers that its headers
    cut without rest: [count] messages, each behind the other from the first
    byte to the last, aligned to 64 bytes, each with a payload of 1 byte to
    1 MiB that fits between its header and the next message. *)
Theorem validated_body_tiles d bytes count v2 :
  byte_memory d -> 0 <= bytes < 2 ^ 64 -> 0 <= count ->
  ValidateBatchBody (Some d) bytes count v2 = true <->
  0 < count /\ exists ms, Z.of_nat (length ms) = count /\ tiles d v2 0 bytes ms.
Proof.
  intros Hd Hb Hc. unfold ValidateBatchBody. split.
  - case_match eqn:E; [done|]. rewrite !orb_false_iff, !Z.eqb_neq in E. intros H.
    apply validate_walk_spec in H as (ms & Hl & Ht); [|done..]. split; [lia|]. exists ms. split; [lia|done].
  - intros (Hc' & ms & <- & Ht). apply (tiles_validate d bytes v2 ms); [done..| |done]. intros ->. cbn in Hc'. lia.
Qed.

(** Two messages of the blog format, of 3 and of 70 payload bytes. *)
Definition ex_header (n : Z) : list Z := BlogMessageHeader_bytes (mkBlogMessageHeader n 0 0 0 0 0 0 0 7 0 0).
Definition ex_body : memory := memcpy (memcpy ∅ 0 (ex_header 3)) 128 (ex_header 70).
Lemma ex_body_bytes : byte_memory ex_body.
Proof.
  apply memcpy_byte_memory; [apply memcpy_byte_memory|]; [|apply fields_bytes_byte..].
  intros a b Hb. by rewrite lookup_empty in Hb.
Qed.

Lemma validated_body_tiles_witness :
  (exists ms, Z.of_nat (length ms) = 2 /\ tiles ex_body true 0 320 ms) /\
  ~ (exists ms, Z.of_nat (length ms) = 2 /\ tiles ex_body true 0 384 ms).
Proof.
  split.
  - apply (validated_body_tiles ex_body 320 2 true); [exact ex_body_bytes|lia|lia|vm_compute; reflexivity].
  - intros Hms. assert (H : ValidateBatchBody (Some ex_body) 384 2 true = true).
    { apply (validated_body_tiles ex_body 384 2 true); [exact ex_body_bytes|lia|lia|]. split; [lia|exact Hms]. }
    vm_compute in H. discriminate H.
Defined.

(** The check looks at the bytes of the body only. *)
Lemma message_stride_local d d' v2 cursor rem :
  (forall k, cursor <= k < cursor + 64 -> d' !! k = d !! k) ->
  message_stride d' v2 cursor rem = message_stride d v2 cursor rem.
Proof.
  intros H. unfold message_stride. by rewrite (MessageHeader_load_ext d d'), (BlogMessageHeader_load_ext d d').
Qed.

Lemma validate_walk_local d d' v2 count : forall cursor rem,
  (forall k, cursor <= k < cursor + rem -> d' !! k = d !! k) -> byte_memory d -> 0 <= rem < 2 ^ 64 ->
  validate_walk count d' v2 cursor rem = validate_walk count d v2 cursor rem.
Proof.
  induction count as [|count IH]; intros cursor rem Hk Hd Hr; cbn [validate_walk]; [done|].
  destruct (rem <? 64) eqn:E; [done|]. apply Z.ltb_ge in E.
  rewrite (message_stride_local d d') by (intros; apply Hk; lia).
  destruct (message_stride d v2 cursor rem) as [stride|] eqn:Es; [|done].
  apply message_stride_sound in Es as (n & Hm & Hle); [|done]. apply message_at_stride in Hm as (Hs & _ & Hn).
  rewrite u64_id by (word_unfold; lia). apply IH; [|done|lia]. intros k ?. apply Hk. lia.
Qed.

Theorem validation_is_local d d' bytes count v2 :
  (forall k, 0 <= k < bytes -> d' !! k = d !! k) -> byte_memory d -> 0 <= bytes < 2 ^ 64 ->
  ValidateBatchBody (Some d') bytes count v2 = ValidateBatchBody (Some d) bytes count v2.
Proof. intros Hk Hd Hb. unfold ValidateBatchBody. case_match; [done|]. by apply validate_walk_local. Qed.
End network.
