(* ===== verification/QueueBuffer.v ===== *)
(** The publisher's batch queue (src/client/queue_buffer.cc): a producer packs
    messages into slots of a pool and pushes sealed batches to the queues of the
    sender threads, which return the slots.  The bounded queues of the folly
    library are a parameter. *)

From S2P Require Import Prelude Bytes Wire.
Import wire network.

(** [folly::ProducerConsumerQueue] and [folly::MPMCQueue]: bounded FIFO queues.
    A write to a full queue fails; a read takes the oldest element or fails. *)
Class FollyQueue (Q : Type) := {
  q_write : Q -> Z -> option Q;
  q_read : Q -> option (Z * Q);
  q_items : Q -> list Z;
  q_capacity : Q -> nat;
}.
Class FollyQueueOk (Q : Type) `{!FollyQueue Q} := {
  q_write_some q x q' : q_write q x = Some q' -> q_items q' = q_items q ++ [x] /\ q_capacity q' = q_capacity q;
  q_write_none q x : q_write q x = None -> (q_capacity q <= length (q_items q))%nat;
  q_read_some q x q' : q_read q = Some (x, q') -> q_items q = x :: q_items q' /\ q_capacity q' = q_capacity q;
}.

Module QueueBuffer.

Definition sizeof_BatchHeader : Z := 128.
Definition AlignUp (size align : Z) : Z := Z.land (u64 (size + align - 1)) (u64 (Z.lnot (align - 1))).
(** [slot_size_] of [AddBuffers]. *)
Definition slot_size_of (batch_size : Z) : Z := AlignUp (sizeof_BatchHeader +u batch_size) 64.

(** The number of slots of the region that [AddBuffers] maps, within the memory
    budget; [None] where the budget does not hold two. *)
Definition kDefaultPoolSizeBytes : Z := 256 * 1024 * 1024.
Definition kPipelineSlotsPerQueue : Z := 32.
Definition AddBuffers (num_queues batch_size max_pool_bytes buf_size : Z) : option Z :=
  let slot_size := slot_size_of batch_size in
  let queues := Z.max 1 num_queues in
  let min_slots := Z.max 256 (u64 (queues * kPipelineSlotsPerQueue + 1)) in
  let hint_bytes := Z.min (Z.max kDefaultPoolSizeBytes buf_size) max_pool_bytes in
  let slots_for_hint := Z.max 1 (hint_bytes / slot_size) in
  let max_slots := max_pool_bytes / slot_size in
  if max_slots <? 2 then None else Some (Z.min max_slots (Z.max min_slots slots_for_hint)).

(** Whether a pointer is the start of a slot of one of the regions. *)
Fixpoint IsValidPoolPointer (regions : list (Z * Z)) (slot_size ptr : Z) : bool :=
  match regions with
  | [] => false
  | (base, size) :: regions =>
      if (ptr >=? base) && (ptr <? base + size) then (ptr - base) mod slot_size =? 0
      else IsValidPoolPointer regions slot_size ptr
  end.

(** The arguments of [Write]. *)
Record msg := mkMsg { client_order : Z; bytes : list Z; padded : Z }.
Definition len (m : msg) : Z := Z.of_nat (length (bytes m)).

(** The padded size that [Publisher::Publish] passes. *)
Definition padded_total (n : Z) : Z := Z.land (n +u 63) (u64 (Z.lnot 63)) +u 64.

(** What [SealCurrentAndAdvance] returns to. *)
Inductive cont := KFit (m : msg) | KFull (sealed : Z) | KSeal (acquire_next : bool).
(** Where the producer is: between calls, waiting for the slot of a [Write],
    trying to push a sealed batch to one of [n] queues (all or the preferred
    ones), or waiting for the slot after it. *)
Inductive pc :=
| Idle | Acquire (m : msg) | Push (k : cont) (h num : Z) (n : nat) (use_preferred : bool) | Next (k : cont) (num : Z).

(** A call that returned: [Write]'s answer and its sealed_out. *)
Abbreviation result := (option (bool * Z)).
(** The clock said that the linger time is over; the spin counter reached the
    shutdown test. *)
Record choice := mkChoice { linger : bool; check_shutdown : bool }.

Section queue_buffer.
Context {Q : Type} `{!FollyQueue Q}.

(** [memory_] is the mapped region, [headers_] the batch headers at the slots.
    [epoch_hint_] is the result of [RuntimeSessionEpochHint].
    The last four fields are history: the messages of the open batch, those of
    each sealed slot, the batches that took a sequence number since the last
    session start (true: pushed to a queue), and the messages written since. *)
Record QB := mkQB {
  slot_size_ : Z;
  batch_size_ : Z;
  use_blog_header_ : bool;
  client_id_ : Z;
  epoch_hint_ : Z;
  active_queues_ : nat;
  queues_ : list Q;
  queue_active_ : list bool;
  queue_preferred_ : list bool;
  preferred_queue_count_ : Z;
  pool_ : Q;
  write_buf_id_ : nat;
  batch_seq_ : Z;
  published_messages_ : Z;
  shutdown_ : bool;
  current_batch_ : option Z;
  current_batch_tail_ : Z;
  current_batch_num_msg_ : Z;
  blog_batch_seq_ : Z;
  headers_ : gmap Z BatchHeader;
  memory_ : memory;
  cur_msgs : list msg;
  content : gmap Z (list msg);
  sealed_log : list (Z * list msg * bool);
  accepted : list msg;
}.
#[global] Instance QB_eta : Eta QB :=
  fun b => mkQB (slot_size_ b) (batch_size_ b) (use_blog_header_ b) (client_id_ b) (epoch_hint_ b) (active_queues_ b) (queues_ b)
    (queue_active_ b) (queue_preferred_ b) (preferred_queue_count_ b) (pool_ b) (write_buf_id_ b) (batch_seq_ b)
    (published_messages_ b) (shutdown_ b) (current_batch_ b) (current_batch_tail_ b) (current_batch_num_msg_ b)
    (blog_batch_seq_ b) (headers_ b) (memory_ b) (cur_msgs b) (content b) (sealed_log b) (accepted b).

(** * The producer *)
Definition zero_header : BatchHeader := mkBatchHeader 0 0 0 0 0 0 0 0.

(** [AcquireNextBatchFromPool] on the slot it read. *)
Definition install (b : QB) (next : Z) (pool : Q) : QB :=
  b <| pool_ := pool |> <| current_batch_ := Some next |> <| headers_ ::= <[next := zero_header]> |>
    <| current_batch_tail_ := sizeof_BatchHeader |> <| current_batch_num_msg_ := 0 |> <| cur_msgs := [] |>.
Definition no_batch (b : QB) : QB :=
  b <| current_batch_ := None |> <| current_batch_tail_ := 0 |> <| current_batch_num_msg_ := 0 |> <| cur_msgs := [] |>.

(** [ReleaseBatch]; the result of the pool's write is not looked at. *)
Definition ReleaseBatch (b : QB) (batch : Z) : QB :=
  b <| pool_ ::= fun pool => default pool (q_write pool batch) |>.

Definition stride_of (v2 : bool) (m : msg) : Z := if v2 then ComputeStrideV2 (len m) else padded m.
Definition header_bytes (b : QB) (m : msg) : list Z :=
  if use_blog_header_ b then
    BlogMessageHeader_bytes (mkBlogMessageHeader (u32 (len m)) 0 0 0 0 0 0 0 (client_id_ b) (u32 (blog_batch_seq_ b)) 0)
  else MessageHeader_bytes (mkMessageHeader (padded m) 0 U64_MAX 0 0 (client_order m) (client_id_ b) (len m)).

(** The copy of a message behind the tail of the open batch. *)
Definition copy (b : QB) (m : msg) : QB :=
  match current_batch_ b with
  | None => b
  | Some base =>
      let at_ := base + current_batch_tail_ b in
      b <| memory_ ::= fun d => memcpy (memcpy d at_ (header_bytes b m)) (at_ + 64) (bytes m) |>
        <| current_batch_tail_ ::= fun t => t +u stride_of (use_blog_header_ b) m |>
        <| current_batch_num_msg_ ::= fun n => n +u 1 |>
        <| cur_msgs ::= fun ms => ms ++ [m] |> <| accepted ::= fun ms => ms ++ [m] |>
  end.

(** [SealCurrentAndAdvance] up to its first try to push: the batch to push, its
    message count and the queues, or [None] where it returns 0. *)
Definition begin_seal (b : QB) : QB * option (Z * Z * nat * bool) :=
  match current_batch_ b with
  | None => (b, None)
  | Some h =>
      let data_size := current_batch_tail_ b -u sizeof_BatchHeader in
      if data_size =? 0 then (b, None)
      else
        let hd := default zero_header (headers_ b !! h) in
        let hd := mkBatchHeader (batch_seq_ b) (bh_client_id hd) (u32 (current_batch_num_msg_ b)) (epoch_hint_ b) 0 0 data_size sizeof_BatchHeader in
        let num := current_batch_num_msg_ b in
        let b := b <| headers_ ::= <[h := hd]> |> <| batch_seq_ ::= fun s => s +u 1 |> in
        if (active_queues_ b =? 0)%nat then (b, None) else (b, Some (h, num, active_queues_ b, preferred_queue_count_ b >? 0))
  end.

(** The queues a batch may go to, in the order of the round robin. *)
Definition eligible (b : QB) (use_preferred : bool) (idx : nat) : bool :=
  default false (queue_active_ b !! idx) && (negb use_preferred || default false (queue_preferred_ b !! idx)).
Fixpoint push_from (b : QB) (n : nat) (use_preferred : bool) (h : Z) (ids : list nat) : option (nat * list Q) :=
  match ids with
  | [] => None
  | i :: ids =>
      let idx := ((write_buf_id_ b + i) mod n)%nat in
      if eligible b use_preferred idx then
        match q ← queues_ b !! idx; q_write q h with
        | Some q => Some (idx, <[idx := q]> (queues_ b))
        | None => push_from b n use_preferred h ids
        end
      else push_from b n use_preferred h ids
  end.
Definition try_push (b : QB) (n : nat) (use_preferred : bool) (h : Z) : option (nat * list Q) :=
  push_from b n use_preferred h (seq 0 n).
Definition found_active (b : QB) (n : nat) (use_preferred : bool) : bool := existsb (eligible b use_preferred) (seq 0 n).

(** The rest of [Write] behind the test for room. *)
Definition finish_copy (b : QB) (m : msg) (sealed : Z) (c : choice) : QB * pc * result :=
  let b := copy b m in
  let batch_payload := current_batch_tail_ b -u sizeof_BatchHeader in
  if (batch_payload >=? batch_size_ b) || linger c then
    match begin_seal b with
    | (b, Some (h, num, n, up)) => (b, Push (KFull sealed) h num n up, None)
    | (b, None) => (b, Idle, Some (true, sealed))
    end
  else (b, Idle, Some (true, sealed)).
Definition after_seal (b : QB) (k : cont) (num : Z) (c : choice) : QB * pc * result :=
  match k with
  | KFit m => match current_batch_ b with None => (b, Idle, Some (false, num)) | Some _ => finish_copy b m num c end
  | KFull sealed => (b, Idle, Some (true, sealed +u num))
  | KSeal _ => (b, Idle, Some (true, num))
  end.
Definition fit (b : QB) (m : msg) (c : choice) : QB * pc * result :=
  if current_batch_tail_ b +u stride_of (use_blog_header_ b) m >? slot_size_ b then
    match begin_seal b with
    | (b, Some (h, num, n, up)) => (b, Push (KFit m) h num n up, None)
    | (b, None) => after_seal b (KFit m) 0 c
    end
  else finish_copy b m 0 c.

(** Calls start; the third component is the result of one that returned. *)
Definition Write (b : QB) (m : msg) (c : choice) : QB * pc * result :=
  if shutdown_ b then (b, Idle, Some (false, 0))
  else
    let b := b <| blog_batch_seq_ := batch_seq_ b |> in
    match current_batch_ b with None => (b, Acquire m, None) | Some _ => fit b m c end.
Definition SealCurrentAndAdvance (b : QB) (acquire_next : bool) : QB * pc * result :=
  match begin_seal b with
  | (b, Some (h, num, n, up)) => (b, Push (KSeal acquire_next) h num n up, None)
  | (b, None) => (b, Idle, Some (true, 0))
  end.
Definition SealAll (b : QB) : QB * pc * result :=
  if shutdown_ b then (b, Idle, Some (true, 0)) else SealCurrentAndAdvance b true.

Definition log_seal (b : QB) (h : Z) (pushed : bool) : QB :=
  b <| content ::= <[h := cur_msgs b]> |>
    <| sealed_log ::= fun l => l ++ [(batch_seq (default zero_header (headers_ b !! h)), cur_msgs b, pushed)] |>.

(** A batch that no queue takes goes back to the pool. *)
Definition drop_batch (b : QB) (h : Z) : QB :=
  (ReleaseBatch (log_seal b h false) h) <| current_batch_ := None |> <| current_batch_tail_ := 0 |> <| cur_msgs := [] |>.
Definition acquires (k : cont) : bool := match k with KSeal a => a | _ => true end.

Definition push_step (b : QB) (k : cont) (h num : Z) (n : nat) (up : bool) (c : choice) : QB * pc * result :=
  match try_push b n up h with
  | Some (idx, qs) =>
      let b := no_batch ((log_seal b h true) <| queues_ := qs |> <| write_buf_id_ := ((idx + 1) mod n)%nat |>
                 <| published_messages_ ::= fun p => p +u num |>) in
      if acquires k then (b, Next k num, None) else after_seal b k num c
  | None =>
      if negb (found_active b n up) then after_seal (drop_batch b h) k num c
      else if check_shutdown c && shutdown_ b then after_seal (drop_batch b h) k num c
      else (b, Push k h num n up, None)
  end.
(** One turn of the loop of [AcquireNextBatchFromPool]. *)
Definition acquire_step (b : QB) : option QB :=
  match q_read (pool_ b) with
  | Some (next, pool) => Some (install b next pool)
  | None => if shutdown_ b then Some (no_batch b) else None
  end.

(** One step of a call that has not returned. *)
Definition producer_step (b : QB) (p : pc) (c : choice) : QB * pc * result :=
  match p with
  | Idle => (b, Idle, None)
  | Acquire m =>
      match acquire_step b with
      | None => (b, Acquire m, None)
      | Some b => match current_batch_ b with None => (b, Idle, Some (false, 0)) | Some _ => fit b m c end
      end
  | Push k h num n up => push_step b k h num n up c
  | Next k num =>
      match acquire_step b with
      | None => (b, Next k num, None)
      | Some b => after_seal b k num c
      end
  end.

(** * Other threads *)
Definition Read (b : QB) (idx : nat) : option (Z * QB) :=
  q ← queues_ b !! idx; '(h, q) ← q_read q; Some (h, b <| queues_ ::= <[idx := q]> |>).
Definition ReturnReads (b : QB) : QB := b <| shutdown_ := true |>.
Definition SetActiveQueues (b : QB) (active_count : nat) : QB :=
  b <| active_queues_ := if (active_count <=? length (queues_ b))%nat then active_count else length (queues_ b) |>.
Definition MarkQueue (b : QB) (idx : nat) (active : bool) : QB := b <| queue_active_ ::= <[idx := active]> |>.
Definition SetPreferredQueues (b : QB) (preferred : list nat) : QB :=
  let inside := filter (fun idx => (idx < length (queues_ b))%nat) preferred in
  b <| queue_preferred_ := foldl (fun l idx => <[idx := true]> l) (replicate (length (queues_ b)) false) inside |>
    <| preferred_queue_count_ := Z.of_nat (length inside) |>.
Definition ClearPreferredQueues (b : QB) : QB :=
  b <| queue_preferred_ := replicate (length (queues_ b)) false |> <| preferred_queue_count_ := 0 |>.
(** The write of [EnqueueBatchForSessionRollover], on an active queue. *)
Definition EnqueueBatchForSessionRollover (b : QB) (idx : nat) (batch : Z) : option QB :=
  if negb (default false (queue_active_ b !! idx)) then None
  else q ← queues_ b !! idx; q ← q_write q batch; Some (b <| queues_ ::= <[idx := q]> |>).
Definition SetNextBatchSeqForNewSession (b : QB) (next_batch_seq : Z) : QB :=
  b <| batch_seq_ := next_batch_seq |> <| sealed_log := [] |> <| accepted := cur_msgs b |>.

(** * The queue and its threads *)
Record sys := mkSys { qb : QB; at_ : pc; held : list Z }.

(** The producer is between calls or waits for a slot: it has ended its producer
    operation. *)
Definition quiet (p : pc) : bool := match p with Push _ _ _ _ _ => false | _ => true end.

(** A message that the broker's limits and the slot allow. *)
Definition msg_ok (b : QB) (m : msg) : Prop :=
  0 < len m <= MAX_MESSAGE_PAYLOAD_SIZE /\ byte_list (bytes m) /\ is_u64 (client_order m) /\ padded m = padded_total (len m) /\
  sizeof_BatchHeader + stride_of (use_blog_header_ b) m <= slot_size_ b.

(** A rollover waits for the producer to end its operation, but only for five
    seconds: then requeueing is refused, and the new number is stored all the
    same.  In an [orderly] run the wait does not time out. *)
Inductive qb_step (orderly : bool) : sys -> sys -> Prop :=
| step_write b held m c b' p r :
    msg_ok b m -> Write b m c = (b', p, r) -> qb_step orderly (mkSys b Idle held) (mkSys b' p held)
| step_seal_all b held b' p r : SealAll b = (b', p, r) -> qb_step orderly (mkSys b Idle held) (mkSys b' p held)
| step_rollover_seal b held b' p r :
    SealCurrentAndAdvance b false = (b', p, r) -> qb_step orderly (mkSys b Idle held) (mkSys b' p held)
| step_producer b p held c b' p' r : producer_step b p c = (b', p', r) -> qb_step orderly (mkSys b p held) (mkSys b' p' held)
| step_read b p held idx h b' : Read b idx = Some (h, b') -> qb_step orderly (mkSys b p held) (mkSys b' p (h :: held))
| step_release b p h l1 l2 : qb_step orderly (mkSys b p (l1 ++ h :: l2)) (mkSys (ReleaseBatch b h) p (l1 ++ l2))
| step_shutdown b p held : qb_step orderly (mkSys b p held) (mkSys (ReturnReads b) p held)
| step_active b p held n : (0 < n)%nat -> qb_step orderly (mkSys b p held) (mkSys (SetActiveQueues b n) p held)
| step_mark b p held idx a : qb_step orderly (mkSys b p held) (mkSys (MarkQueue b idx a) p held)
| step_prefer b p held l : qb_step orderly (mkSys b p held) (mkSys (SetPreferredQueues b l) p held)
| step_clear b p held : qb_step orderly (mkSys b p held) (mkSys (ClearPreferredQueues b) p held)
| step_requeue b p h l1 l2 idx b' :
    quiet p = true -> EnqueueBatchForSessionRollover b idx h = Some b' ->
    qb_step orderly (mkSys b p (l1 ++ h :: l2)) (mkSys b' p (l1 ++ l2))
| step_session b p held next :
    (orderly = true -> quiet p = true) -> is_u64 next -> qb_step orderly (mkSys b p held) (mkSys (SetNextBatchSeqForNewSession b next) p held).

(** * Messages in a slot *)
Fixpoint total (v2 : bool) (ms : list msg) : Z :=
  match ms with [] => 0 | m :: ms => stride_of v2 m + total v2 ms end.

Definition msg_at (d : memory) (v2 : bool) (off : Z) (m : msg) : Prop :=
  message_at d v2 off (len m) (stride_of v2 m) /\ bytes_at d (off + 64) (length (bytes m)) = bytes m.
Fixpoint laid (d : memory) (v2 : bool) (off : Z) (ms : list msg) : Prop :=
  match ms with [] => True | m :: ms => msg_at d v2 off m /\ laid d v2 (off + stride_of v2 m) ms end.

Lemma total_app v2 l1 l2 : total v2 (l1 ++ l2) = total v2 l1 + total v2 l2.
Proof. induction l1 as [|m l1 IH]; cbn; [done|]. rewrite IH. lia. Qed.

Lemma laid_app d v2 l1 l2 : forall off, laid d v2 off (l1 ++ l2) <-> laid d v2 off l1 /\ laid d v2 (off + total v2 l1) l2.
Proof.
  induction l1 as [|m l1 IH]; intros off; cbn; [rewrite Z.add_0_r; tauto|].
  rewrite IH, (Z.add_assoc off). tauto.
Qed.

Lemma msg_at_stride d v2 off m :
  msg_at d v2 off m -> 64 + len m <= stride_of v2 m <= 64 + MAX_MESSAGE_PAYLOAD_SIZE /\ stride_of v2 m mod 64 = 0.
Proof. intros [H _]. apply message_at_stride in H as (? & ? & ?). done. Qed.

Lemma laid_total d v2 ms : forall off, laid d v2 off ms -> 64 * Z.of_nat (length ms) <= total v2 ms.
Proof.
  induction ms as [|m ms IH]; intros off; cbn [laid total length]; [lia|]. intros [Hm Hl]. apply IH in Hl.
  apply msg_at_stride in Hm. unfold len in Hm. lia.
Qed.

Lemma message_at_ext d d' v2 off n stride :
  (forall k, off <= k < off + 64 -> d' !! k = d !! k) -> message_at d v2 off n stride -> message_at d' v2 off n stride.
Proof.
  intros Hk. unfold message_at. destruct v2; [rewrite (BlogMessageHeader_load_ext d d') by done; done|].
  rewrite (MessageHeader_load_ext d d') by done. done.
Qed.

Lemma msg_at_ext d d' v2 off m :
  (forall k, off <= k < off + stride_of v2 m -> d' !! k = d !! k) -> msg_at d v2 off m -> msg_at d' v2 off m.
Proof.
  intros Hk H. pose proof (msg_at_stride _ _ _ _ H) as [Hs _]. unfold len in Hs. destruct H as [H1 H2]. split.
  - eapply message_at_ext; [|done]. intros k ?. apply Hk. lia.
  - rewrite <- H2 at 2. apply bytes_at_ext. intros k ?. apply Hk. lia.
Qed.

(** What is laid out stays where its bytes stay. *)
Lemma laid_ext d d' v2 ms : forall off,
  (forall k, off <= k < off + total v2 ms -> d' !! k = d !! k) -> laid d v2 off ms -> laid d' v2 off ms.
Proof.
  induction ms as [|m ms IH]; intros off Hk; cbn [laid]; [done|]. intros [Hm Hl].
  pose proof (laid_total _ _ _ _ Hl) as Ht. pose proof (msg_at_stride _ _ _ _ Hm) as [Hs _]. unfold len in Hs.
  cbn [total] in Hk. split.
  - eapply msg_at_ext; [|done]. intros k ?. apply Hk. lia.
  - apply IH; [|done]. intros k ?. apply Hk. lia.
Qed.

Lemma laid_tiles d v2 ms : forall off, laid d v2 off ms ->
  exists ts, length ts = length ms /\ tiles d v2 off (off + total v2 ms) ts.
Proof.
  induction ms as [|m ms IH]; intros off; cbn [laid].
  - intros _. exists []. split; [done|]. cbn. rewrite Z.add_0_r. constructor.
  - intros [[Hm _] Hl]. destruct (IH _ Hl) as (ts & Hlen & Ht). exists ((off, len m, stride_of v2 m) :: ts).
    split; [cbn; congruence|]. constructor; [done|]. cbn [total]. by rewrite Z.add_assoc.
Qed.

Lemma padded_total_eq n : 0 <= n <= MAX_MESSAGE_PAYLOAD_SIZE -> padded_total n = 64 * ((n + 63) / 64) + 64.
Proof.
  unfold MAX_MESSAGE_PAYLOAD_SIZE. intros Hn. unfold padded_total. rewrite (u64_id (n + 63)) by (word_unfold; lia).
  rewrite land_line_mask by lia. apply u64_id. word_unfold. Z.to_euclidean_division_equations. lia.
Qed.

(** The ranges of the header fields. *)
Lemma header_bytes_length b m : length (header_bytes b m) = 64%nat.
Proof. unfold header_bytes. destruct (use_blog_header_ b); [apply BlogMessageHeader_length|apply MessageHeader_length]. Qed.

Lemma header_bytes_byte b m : byte_list (header_bytes b m).
Proof. unfold header_bytes. destruct (use_blog_header_ b); apply fields_bytes_byte. Qed.

(** A copied message is where [Write] put it. *)
Lemma copied_at b m d off :
  msg_ok b m -> is_u64 (client_id_ b) ->
  msg_at (memcpy (memcpy d off (header_bytes b m)) (off + 64) (bytes m)) (use_blog_header_ b) off m.
Proof.
  intros ((Hl1 & Hl2) & Hb & Ho & Hp & _) Hc. unfold MAX_MESSAGE_PAYLOAD_SIZE in *. split.
  - apply (message_at_ext (memcpy d off (header_bytes b m ++ []))).
    { intros k Hk. rewrite app_nil_r. apply memcpy_other. lia. }
    unfold message_at, header_bytes, stride_of, MAX_MESSAGE_PAYLOAD_SIZE. split; [done|]. destruct (use_blog_header_ b).
    + rewrite BlogMessageHeader_roundtrip; [split; [apply u32_id; word_unfold; lia|done]|].
      unfold BlogMessageHeader_fields; forall_list; unfold field_wf; cbn [fst snd]; try (apply u32_bytes, u32_range); try (apply u64_bytes, Hc); cbn; lia.
    + assert (Hpe : padded m = 64 * ((len m + 63) / 64) + 64)
        by (rewrite Hp; apply padded_total_eq; unfold MAX_MESSAGE_PAYLOAD_SIZE; lia).
      assert (is_u64 (padded m)) by (word_unfold; Z.to_euclidean_division_equations; lia).
      rewrite MessageHeader_roundtrip.
      * cbn. rewrite Hpe. split_and!; try done; [|Z.to_euclidean_division_equations; lia..|by left].
        Z.to_euclidean_division_equations. lia.
      * unfold MessageHeader_fields. cbn [paddedSize segment_header logical_offset next_msg_diff total_order wire.client_order
          client_id size].
        forall_list; unfold field_wf; cbn [fst snd]; apply u64_bytes; first [assumption | word_unfold; lia].
  - replace (off + 64) with (off + 64 + Z.of_nat 0) at 2 by lia. rewrite bytes_at_memcpy by lia. by rewrite drop_0, firstn_all.
Qed.

Lemma copy_elsewhere b m d off k :
  k < off \/ off + 64 + len m <= k ->
  memcpy (memcpy d off (header_bytes b m)) (off + 64) (bytes m) !! k = d !! k.
Proof. unfold len. intros Hk. rewrite !memcpy_other; [done|rewrite header_bytes_length; lia|lia]. Qed.

(** * Invariant *)
Section invariant.
(** The addresses of the pool's slots, and their size. *)
Variables (slots : list Z) (ss : Z) (orderly : bool).
Context `{!FollyQueueOk Q}.
Hypothesis slots_nodup : NoDup slots.
Hypothesis slots_apart : forall p q, p ∈ slots -> q ∈ slots -> p <> q -> p + ss <= q \/ q + ss <= p.

(** A sealed slot holds the messages of its batch, and its header counts them. *)
Definition header_for (b : QB) (p : Z) (ms : list msg) : Prop :=
  exists hd, headers_ b !! p = Some hd /\ bh_total_size hd = total (use_blog_header_ b) ms /\
    num_msg hd = Z.of_nat (length ms).
Definition laid_in (b : QB) (p : Z) (ms : list msg) : Prop :=
  sizeof_BatchHeader + total (use_blog_header_ b) ms <= slot_size_ b /\
  laid (memory_ b) (use_blog_header_ b) (p + sizeof_BatchHeader) ms.
Definition batch_ok (b : QB) (p : Z) : Prop :=
  exists ms, content b !! p = Some ms /\ ms <> [] /\ header_for b p ms /\ laid_in b p ms.

Definition sealed_slots (b : QB) (held : list Z) : list Z := concat (q_items <$> queues_ b) ++ held.
Definition owned (b : QB) (held : list Z) : list Z :=
  option_list (current_batch_ b) ++ q_items (pool_ b) ++ sealed_slots b held.

Definition open_ok (b : QB) : Prop :=
  match current_batch_ b with
  | Some p =>
      current_batch_tail_ b = sizeof_BatchHeader + total (use_blog_header_ b) (cur_msgs b) /\
      current_batch_num_msg_ b = Z.of_nat (length (cur_msgs b)) /\ laid_in b p (cur_msgs b)
  | None => cur_msgs b = []
  end.

Definition config_ok (b : QB) : Prop :=
  slot_size_ b = ss /\ sizeof_BatchHeader <= ss <= 2 ^ 32 /\ is_u64 (client_id_ b) /\
  (0 < active_queues_ b <= length (queues_ b))%nat /\ (length slots <= q_capacity (pool_ b))%nat /\ byte_memory (memory_ b).

Definition inv (b : QB) (held : list Z) : Prop :=
  config_ok b /\ owned b held ≡ₚ slots /\ open_ok b /\ (forall p, p ∈ sealed_slots b held -> batch_ok b p) /\
  concat (sealed_log b).*1.*2 ++ cur_msgs b = accepted b.

Definition cont_ok (b : QB) (k : cont) : Prop := match k with KFit m => msg_ok b m | _ => True end.
Definition pushing (b : QB) (h : Z) : Prop :=
  current_batch_ b = Some h /\ cur_msgs b <> [] /\ header_for b h (cur_msgs b) /\
  (orderly = true -> batch_seq (default zero_header (headers_ b !! h)) = batch_seq_ b -u 1).
Definition pc_ok (b : QB) (p : pc) : Prop :=
  match p with
  | Idle => True
  | Acquire m => current_batch_ b = None /\ msg_ok b m
  | Push k h _ _ _ => cont_ok b k /\ pushing b h
  | Next k num => current_batch_ b = None /\ cont_ok b k
  end.

(** In an orderly run the batches of a session are numbered without a gap; one
    that is being pushed has its number already. *)
Definition seq_ok (b : QB) (pending : Z) : Prop :=
  orderly = true -> exists base, (forall i e, sealed_log b !! i = Some e -> e.1.1 = base +u Z.of_nat i) /\
    batch_seq_ b = base +u (Z.of_nat (length (sealed_log b)) + pending).
Definition good (b : QB) (p : pc) (held : list Z) : Prop :=
  inv b held /\ pc_ok b p /\ seq_ok b (if quiet p then 0 else 1).

Lemma owned_in_slots b held p : inv b held -> p ∈ owned b held -> p ∈ slots.
Proof. intros (_ & Hp & _) Hin. by rewrite <- Hp. Qed.

Lemma owned_nodup b held : inv b held -> NoDup (owned b held).
Proof. intros (_ & Hp & _). by rewrite Hp. Qed.

Lemma sealed_not_current b held p q :
  inv b held -> current_batch_ b = Some p -> q ∈ sealed_slots b held -> q <> p.
Proof.
  intros Hi Hc Hq ->. apply owned_nodup in Hi. unfold owned in Hi. rewrite Hc in Hi. cbn in Hi.
  apply NoDup_cons in Hi as [Hi _]. set_solver.
Qed.

(** The bytes of one slot do not reach another. *)
Lemma other_slot b held p q k :
  inv b held -> current_batch_ b = Some p -> q ∈ sealed_slots b held -> q <= k < q + ss -> k < p \/ p + ss <= k.
Proof.
  intros Hi Hc Hq Hk. pose proof (sealed_not_current _ _ _ _ Hi Hc Hq) as Hne.
  assert (Hp : p ∈ slots) by (apply (owned_in_slots b held); [done|]; unfold owned; rewrite Hc; set_solver).
  assert (Hq' : q ∈ slots) by (apply (owned_in_slots b held); [done|]; unfold owned; set_solver).
  destruct (slots_apart q p Hq' Hp Hne); lia.
Qed.

(** [batch_ok] depends on the content, the header and the bytes of the slot. *)
Lemma batch_ok_ext b b' p :
  use_blog_header_ b' = use_blog_header_ b -> slot_size_ b' = slot_size_ b -> content b' !! p = content b !! p ->
  headers_ b' !! p = headers_ b !! p -> (forall k, p <= k < p + slot_size_ b -> memory_ b' !! k = memory_ b !! k) ->
  batch_ok b p -> batch_ok b' p.
Proof.
  intros Eu Es Ec Eh Em (ms & H1 & H2 & (hd & H3 & H4) & H5 & H6). exists ms. split_and!; [congruence|done| |].
  - exists hd. by rewrite Eh, Eu.
  - unfold laid_in. rewrite Eu, Es. split; [done|]. eapply laid_ext; [|done]. intros k Hk. apply Em.
    unfold sizeof_BatchHeader in *. lia.
Qed.

(** ** The copy *)
Definition has_room (b : QB) (m : msg) : Prop :=
  current_batch_ b <> None /\ current_batch_tail_ b + stride_of (use_blog_header_ b) m <= slot_size_ b.

Lemma msg_ok_stride b m : msg_ok b m -> 64 + len m <= stride_of (use_blog_header_ b) m <= 64 + MAX_MESSAGE_PAYLOAD_SIZE.
Proof.
  intros (Hl & _ & _ & Hp & _). unfold stride_of. destruct (use_blog_header_ b).
  - unfold MAX_MESSAGE_PAYLOAD_SIZE in *. destruct (ComputeStrideV2_spec (len m)) as [H1 H2];
      [unfold MAX_MESSAGE_PAYLOAD_SIZE; lia|]. Z.to_euclidean_division_equations. lia.
  - rewrite Hp, padded_total_eq by lia. unfold MAX_MESSAGE_PAYLOAD_SIZE in *. Z.to_euclidean_division_equations. lia.
Qed.

Lemma copy_fields b m :
  let b' := copy b m in
  slot_size_ b' = slot_size_ b /\ use_blog_header_ b' = use_blog_header_ b /\ client_id_ b' = client_id_ b /\
  active_queues_ b' = active_queues_ b /\ queues_ b' = queues_ b /\ pool_ b' = pool_ b /\
  current_batch_ b' = current_batch_ b /\ headers_ b' = headers_ b /\ content b' = content b /\
  sealed_log b' = sealed_log b /\ batch_seq_ b' = batch_seq_ b.
Proof. unfold copy. by destruct (current_batch_ b) eqn:E. Qed.

Lemma copy_inv b held m : inv b held -> msg_ok b m -> has_room b m -> inv (copy b m) held.
Proof.
  intros Hi Hm [Hc Hr]. destruct (current_batch_ b) as [p|] eqn:Ec; [clear Hc|done].
  pose proof (other_slot b held p) as Hother. pose proof Hi as ((Hss & Hsz & Hcl & Hact & Hcap & Hbm) & Hown & Hopen & Hseal & Hlog).
  pose proof (copy_fields b m) as (F1 & F2 & F3 & F4 & F5 & F6 & F7 & F8 & F9 & F10 & F11).
  pose proof (msg_ok_stride b m Hm) as Hst. unfold open_ok in Hopen. rewrite Ec in Hopen. destruct Hopen as (Ht & Hn & Hsz' & Hlaid).
  assert (Hmem : forall k, k < p + current_batch_tail_ b \/ p + current_batch_tail_ b + 64 + len m <= k ->
      memory_ (copy b m) !! k = memory_ b !! k)
    by (intros k Hk; unfold copy; rewrite Ec; by apply copy_elsewhere).
  pose proof (laid_total _ _ _ _ Hlaid) as Htot. assert (0 <= len m) by (unfold len; lia). unfold sizeof_BatchHeader in *.
  split_and!.
  - unfold config_ok, sizeof_BatchHeader. rewrite F1, F3, F4, F5, F6. split_and!; try (done || lia). unfold copy. rewrite Ec. cbn.
    apply memcpy_byte_memory; [apply memcpy_byte_memory; [done|apply header_bytes_byte]|apply Hm].
  - unfold owned, sealed_slots. rewrite F5, F6, F7. done.
  - unfold open_ok. rewrite F7, Ec. unfold copy. rewrite Ec. cbn. rewrite total_app, length_app. cbn [total length].
    unfold laid_in. cbn. rewrite total_app. cbn [total]. unfold sizeof_BatchHeader.
    rewrite !u64_id by (word_unfold; lia). split_and!; [lia|lia|lia|]. apply laid_app. split.
    + eapply laid_ext; [|exact Hlaid]. intros k Hk. apply copy_elsewhere. lia.
    + replace (p + 128 + total (use_blog_header_ b) (cur_msgs b)) with (p + current_batch_tail_ b) by lia.
      split; [|done]. by apply copied_at.
  - intros q Hq. unfold sealed_slots in Hq. rewrite F5 in Hq. apply (batch_ok_ext b); [done|done|by rewrite F9|by rewrite F8| |by apply Hseal].
    intros k Hk. apply Hmem. rewrite Hss in Hk. destruct (Hother q k Hi Ec Hq Hk); lia.
  - rewrite F10. unfold copy. rewrite Ec. cbn. rewrite app_assoc. by rewrite Hlog.
Qed.

(** ** Sealing *)
Lemma begin_seal_spec b held :
  inv b held -> seq_ok b 0 ->
  match begin_seal b with
  | (b', None) => b' = b /\ cur_msgs b = []
  | (b', Some (h, num, _, _)) =>
      inv b' held /\ pushing b' h /\ seq_ok b' 1 /\ num = Z.of_nat (length (cur_msgs b')) /\ cur_msgs b' = cur_msgs b /\
      use_blog_header_ b' = use_blog_header_ b /\ slot_size_ b' = slot_size_ b
  end.
Proof.
  intros Hi Hs. pose proof Hi as ((Hss & Hsz & Hcl & Hact & Hcap & Hbm) & Hown & Hopen & Hseal & Hlog).
  unfold begin_seal. unfold open_ok in Hopen. destruct (current_batch_ b) as [h|] eqn:Ec; [|by rewrite Hopen].
  destruct Hopen as (Ht & Hn & Hlz & Hlaid). pose proof (laid_total _ _ _ _ Hlaid) as Htot. unfold sizeof_BatchHeader in *.
  rewrite Ht. replace (128 + total (use_blog_header_ b) (cur_msgs b) -u 128) with (total (use_blog_header_ b) (cur_msgs b))
    by (rewrite u64_id by (word_unfold; lia); lia).
  destruct (_ =? 0) eqn:E0.
  { apply Z.eqb_eq in E0. split; [done|]. destruct (cur_msgs b); [done|]. cbn [length] in Htot. lia. }
  apply Z.eqb_neq in E0. cbn [active_queues_ upd].
  replace (active_queues_ b =? 0)%nat with false by (symmetry; apply Nat.eqb_neq; lia).
  assert (Hnum : u32 (current_batch_num_msg_ b) = Z.of_nat (length (cur_msgs b))) by (rewrite Hn; apply u32_id; word_unfold; lia).
  split_and!; [|..|done|done].
  - split_and!; [done|done| | |done].
    + unfold open_ok. cbn. rewrite Ec. unfold laid_in, sizeof_BatchHeader. cbn. rewrite Ht. done.
    + intros q Hq. apply (batch_ok_ext b); [done|done|done| |done|by apply Hseal]. cbn.
      apply lookup_insert_ne. symmetry. by eapply sealed_not_current.
  - unfold pushing, header_for. cbn. rewrite lookup_insert_eq, Ec. cbn. rewrite Hnum. split_and!; [done| |by eexists|].
    + intros Hnil. rewrite Hnil in E0. done.
    + intros Ho. destruct (Hs Ho) as (base & _ & ->). word_lia.
  - intros Ho. destruct (Hs Ho) as (base & Hs1 & Hs2). exists base. cbn. split; [done|]. rewrite Hs2. word_lia.
  - done.
  - done.
Qed.

(** ** Queues *)
Lemma push_from_spec b n up h ids idx qs :
  push_from b n up h ids = Some (idx, qs) ->
  exists q q', queues_ b !! idx = Some q /\ q_write q h = Some q' /\ qs = <[idx := q']> (queues_ b) /\ eligible b up idx = true.
Proof.
  induction ids as [|i ids IH]; cbn [push_from]; [done|].
  set (j := ((write_buf_id_ b + i) mod n)%nat). destruct (eligible b up j) eqn:Ee; [|exact IH].
  destruct (queues_ b !! j) as [q|] eqn:Eq; cbn [mbind option_bind]; [|exact IH].
  destruct (q_write q h) as [q'|] eqn:Ew; [|exact IH].
  intros Heq. injection Heq as Hj Hq. subst. eauto 10.
Qed.

Lemma concat_insert_perm (qs : list Q) idx q q' x :
  qs !! idx = Some q -> q_items q' ≡ₚ x :: q_items q ->
  concat (q_items <$> <[idx := q']> qs) ≡ₚ x :: concat (q_items <$> qs).
Proof.
  intros Hq Hp. rewrite <- (take_drop_middle qs idx q Hq) at 2. rewrite insert_take_drop by (by eapply lookup_lt_Some).
  rewrite !fmap_app, !fmap_cons, !concat_app. cbn [concat]. rewrite Hp. cbn. symmetry. apply Permutation_middle.
Qed.

(** The pool has room for every slot. *)
Lemma pool_takes b held p :
  inv b held -> p ∉ q_items (pool_ b) -> p ∈ slots ->
  exists pool', q_write (pool_ b) p = Some pool' /\ q_items pool' = q_items (pool_ b) ++ [p] /\ q_capacity pool' = q_capacity (pool_ b).
Proof.
  intros Hi Hp Hin. destruct (q_write (pool_ b) p) as [pool'|] eqn:E; [apply q_write_some in E as [H1 H2]; eauto|].
  exfalso. apply q_write_none in E. pose proof (owned_nodup _ _ Hi) as Hnd. destruct Hi as ((_ & _ & _ & _ & Hcap & _) & Hown & _).
  assert (Hlt : (length (p :: q_items (pool_ b)) <= length slots)%nat).
  { apply submseteq_length, NoDup_submseteq.
    - apply NoDup_cons. split; [done|]. unfold owned in Hnd. by apply NoDup_app in Hnd as (_ & _ & (? & _)%NoDup_app).
    - intros x [->|Hx]%elem_of_cons; [done|]. rewrite <- Hown. unfold owned. set_solver. }
  cbn in Hlt. lia.
Qed.

(** The slot that is pushed or dropped carries a whole batch. *)
Lemma log_seal_batch_ok b held h pushed :
  inv b held -> pushing b h -> batch_ok (log_seal b h pushed) h.
Proof.
  intros (_ & _ & Hopen & _) (Hc & Hne & Hh & _). unfold open_ok in Hopen. rewrite Hc in Hopen. destruct Hopen as (_ & _ & Hl).
  exists (cur_msgs b). split_and!; [apply lookup_insert_eq|done|done|done].
Qed.

Lemma log_seal_others b held h pushed q :
  inv b held -> pushing b h -> q ∈ sealed_slots b held -> batch_ok (log_seal b h pushed) q.
Proof.
  intros Hi (Hc & _) Hq. apply (batch_ok_ext b); [done|done| |done|done|by apply Hi]. cbn.
  apply lookup_insert_ne. symmetry. by eapply sealed_not_current.
Qed.

Lemma log_seal_seq b h pushed :
  pushing b h -> seq_ok b 1 -> seq_ok (log_seal b h pushed) 0.
Proof.
  intros (_ & _ & _ & Hb) Hs Ho. destruct (Hs Ho) as (base & H1 & H2). exists base. cbn. split; [|rewrite H2, length_app; cbn; f_equal; lia].
  intros i e [He|[Hge He]]%lookup_app_Some; [by apply H1|]. apply list_lookup_singleton_Some in He as [Hi <-]. cbn.
  rewrite (Hb Ho), H2. replace (Z.of_nat i) with (Z.of_nat (length (sealed_log b))) by lia. word_lia.
Qed.

(** What messages and conditions depend on of the configuration. *)
Definition same_config (b b' : QB) : Prop := use_blog_header_ b' = use_blog_header_ b /\ slot_size_ b' = slot_size_ b.
Lemma msg_ok_config b b' m : same_config b b' -> msg_ok b m -> msg_ok b' m.
Proof. intros [E1 E2]. unfold msg_ok. by rewrite E1, E2. Qed.
Lemma cont_ok_config b b' k : same_config b b' -> cont_ok b k -> cont_ok b' k.
Proof. intros Hc. destruct k; cbn; [by apply msg_ok_config|done..]. Qed.

Lemma sealed_slots_insert b held idx q q' h :
  queues_ b !! idx = Some q -> q_items q' = q_items q ++ [h] ->
  concat (q_items <$> <[idx := q']> (queues_ b)) ++ held ≡ₚ h :: sealed_slots b held.
Proof.
  intros Hq Hi. unfold sealed_slots. rewrite (concat_insert_perm _ _ q _ h); [done|done|].
  rewrite Hi. symmetry. apply Permutation_cons_append.
Qed.

Lemma push_good b held n up h num idx qs wid :
  inv b held -> pushing b h -> seq_ok b 1 -> try_push b n up h = Some (idx, qs) ->
  let b' := no_batch ((log_seal b h true) <| queues_ := qs |> <| write_buf_id_ := wid |>
              <| published_messages_ ::= fun p => p +u num |>) in
  inv b' held /\ seq_ok b' 0 /\ current_batch_ b' = None /\ same_config b b'.
Proof.
  intros Hi Hp Hs Ht b'. pose proof (log_seal_seq b h true Hp Hs) as Hs'.
  pose proof (log_seal_batch_ok b held h true Hi Hp) as Hh. pose proof (fun q => log_seal_others b held h true q Hi Hp) as Ho.
  apply push_from_spec in Ht as (q & q' & Hq & Hw & -> & _). apply q_write_some in Hw as [Hw _].
  pose proof (sealed_slots_insert b held idx q q' h Hq Hw) as Hperm.
  destruct Hi as ((Hss & Hsz & Hcl & Hact & Hcap & Hbm) & Hown & _ & _ & Hlog), Hp as (Hc & _). split_and!; [|done..].
  split_and!.
  - unfold config_ok. cbn. rewrite length_insert. done.
  - unfold owned, sealed_slots. cbn. rewrite Hperm, <- Hown. unfold owned. rewrite Hc. cbn. symmetry. apply Permutation_middle.
  - done.
  - unfold sealed_slots. cbn. intros p Hin. rewrite Hperm in Hin. apply elem_of_cons in Hin as [->|Hin]; [exact Hh|].
    exact (Ho p Hin).
  - cbn. rewrite !fmap_app, concat_app. cbn. rewrite !app_nil_r. done.
Qed.

Lemma drop_good b held h :
  inv b held -> pushing b h -> seq_ok b 1 ->
  inv (drop_batch b h) held /\ seq_ok (drop_batch b h) 0 /\ current_batch_ (drop_batch b h) = None /\
  same_config b (drop_batch b h).
Proof.
  intros Hi Hp Hs. pose proof (log_seal_seq b h false Hp Hs) as Hs'.
  pose proof (fun q => log_seal_others b held h false q Hi Hp) as Ho.
  pose proof Hi as ((Hss & Hsz & Hcl & Hact & Hcap & Hbm) & Hown & _ & _ & Hlog). pose proof Hp as (Hc & _).
  pose proof (owned_nodup _ _ Hi) as Hnd. unfold owned in Hnd. rewrite Hc in Hnd. cbn in Hnd. apply NoDup_cons in Hnd as [Hnh _].
  destruct (pool_takes b held h Hi) as (pool & Ew & Hit & Hca); [set_solver| |].
  { rewrite <- Hown. unfold owned. rewrite Hc. set_solver. }
  assert (Ed : drop_batch b h = (log_seal b h false) <| pool_ := pool |> <| current_batch_ := None |>
                 <| current_batch_tail_ := 0 |> <| cur_msgs := [] |>) by (unfold drop_batch, ReleaseBatch; cbn; by rewrite Ew).
  rewrite Ed. split_and!; [|done..]. split_and!.
  - unfold config_ok. cbn. by rewrite Hca.
  - unfold owned, sealed_slots. cbn. rewrite Hit, <- Hown. unfold owned, sealed_slots. rewrite Hc. cbn.
    rewrite <- app_assoc. cbn. symmetry. apply Permutation_middle.
  - done.
  - exact Ho.
  - cbn. rewrite !fmap_app, concat_app. cbn. rewrite !app_nil_r. done.
Qed.

(** An open batch without messages. *)
Definition fresh (b : QB) : Prop := current_batch_ b <> None /\ current_batch_tail_ b = sizeof_BatchHeader.

Lemma install_good b held next pool :
  inv b held -> current_batch_ b = None -> q_read (pool_ b) = Some (next, pool) -> inv (install b next pool) held.
Proof.
  intros Hi Hc Hr. apply q_read_some in Hr as [Hit Hca]. pose proof (owned_nodup _ _ Hi) as Hnd.
  destruct Hi as ((Hss & Hsz & Hcl & Hact & Hcap & Hbm) & Hown & Hopen & Hseal & Hlog). unfold open_ok in Hopen. rewrite Hc in Hopen.
  unfold owned in Hnd. rewrite Hc, Hit in Hnd. cbn in Hnd. apply NoDup_cons in Hnd as [Hnh _]. split_and!.
  - unfold config_ok. cbn. by rewrite Hca.
  - rewrite <- Hown. unfold owned. cbn. rewrite Hc, Hit. done.
  - unfold open_ok, laid_in. cbn. rewrite Hss. unfold sizeof_BatchHeader in *. split_and!; [lia..|done].
  - intros p Hp. apply (batch_ok_ext b); [done|done|done| |done|by apply Hseal]. cbn. apply lookup_insert_ne.
    intros ->. apply Hnh. apply elem_of_app. by right.
  - cbn. by rewrite <- Hlog, Hopen.
Qed.

Lemma no_batch_good b held : inv b held -> current_batch_ b = None -> inv (no_batch b) held.
Proof.
  intros (Hcfg & Hown & Hopen & Hseal & Hlog) Hc. unfold open_ok in Hopen. rewrite Hc in Hopen. split_and!; [done| |done|done|].
  - rewrite <- Hown. unfold owned. by rewrite Hc.
  - cbn. by rewrite <- Hlog, Hopen.
Qed.

Lemma acquire_good b held b' :
  inv b held -> seq_ok b 0 -> current_batch_ b = None -> acquire_step b = Some b' ->
  inv b' held /\ seq_ok b' 0 /\ (current_batch_ b' = None \/ fresh b') /\ same_config b b'.
Proof.
  intros Hi Hs Hc. unfold acquire_step. destruct (q_read (pool_ b)) as [[next pool]|] eqn:E.
  - intros [= <-]. split_and!; [by apply install_good|done| |done]. by right.
  - destruct (shutdown_ b); [|done]. intros [= <-]. split_and!; [by apply no_batch_good|done|by left|done].
Qed.

(** ** The calls *)
Lemma copy_nonempty b m : current_batch_ b <> None -> cur_msgs (copy b m) <> [].
Proof. unfold copy. destruct (current_batch_ b); [|done]. intros _. cbn. by destruct (cur_msgs b). Qed.

Lemma finish_copy_good b held m sealed c b' p r :
  inv b held -> seq_ok b 0 -> msg_ok b m -> has_room b m -> finish_copy b m sealed c = (b', p, r) -> good b' p held.
Proof.
  intros Hi Hs Hm Hr. pose proof (copy_inv b held m Hi Hm Hr) as Hi'.
  assert (Hs' : seq_ok (copy b m) 0)
    by (intros Ho; destruct (Hs Ho) as (base & H1 & H2); exists base;
        destruct (copy_fields b m) as (_ & _ & _ & _ & _ & _ & _ & _ & _ & -> & ->); done).
  pose proof (copy_nonempty b m (proj1 Hr)) as Hne. unfold finish_copy. pose proof (begin_seal_spec _ _ Hi' Hs') as Hsb.
  destruct (_ || _); [|intros [= <- <- <-]; done].
  destruct (begin_seal (copy b m)) as [b2 [[[[h num] n] up]|]]; [|destruct Hsb; done].
  destruct Hsb as (H1 & H2 & H3 & _). intros [= <- <- <-]. done.
Qed.

Lemma after_seal_good b held k num c b' p r :
  inv b held -> seq_ok b 0 -> cont_ok b k -> current_batch_ b = None \/ fresh b ->
  after_seal b k num c = (b', p, r) -> good b' p held.
Proof.
  intros Hi Hs Hk Hf. destruct k as [m|sealed|acq]; cbn [after_seal]; try by intros [= <- <- <-].
  destruct (current_batch_ b) eqn:Ec; [|by intros [= <- <- <-]]. destruct Hf as [|[_ Ht]]; [done|].
  apply finish_copy_good; [done..|]. split; [congruence|]. rewrite Ht. apply Hk.
Qed.

Lemma fit_good b held m c b' p r :
  inv b held -> seq_ok b 0 -> msg_ok b m -> current_batch_ b <> None -> fit b m c = (b', p, r) -> good b' p held.
Proof.
  intros Hi Hs Hm Hc. unfold fit. destruct (_ >? _) eqn:E.
  - pose proof (begin_seal_spec _ _ Hi Hs) as Hsb. destruct (begin_seal b) as [b2 [[[[h num] n] up]|]].
    + destruct Hsb as (H1 & H2 & H3 & _ & _ & H4 & H5). intros [= <- <- <-]. split; [done|]. split; [|done].
      split; [|done]. by apply (msg_ok_config b).
    + destruct Hsb as [-> Hnil]. apply after_seal_good; [done..|]. right. split; [done|].
      destruct Hi as (_ & _ & Hopen & _). unfold open_ok in Hopen. destruct (current_batch_ b); [|done].
      destruct Hopen as (Ht & _). by rewrite Ht, Hnil.
  - apply finish_copy_good; [done..|]. split; [done|]. rewrite Z.gtb_ltb, Z.ltb_ge in E.
    pose proof (msg_ok_stride b m Hm) as Hst. destruct Hi as ((Hss & Hsz & _) & _ & Hopen & _). unfold open_ok in Hopen.
    destruct (current_batch_ b); [|done]. destruct Hopen as (Ht & _ & Hl & Hlaid). pose proof (laid_total _ _ _ _ Hlaid).
    unfold MAX_MESSAGE_PAYLOAD_SIZE, sizeof_BatchHeader, len in *. rewrite u64_id in E by (word_unfold; lia). lia.
Qed.

Lemma Write_good b held m c b' p r :
  good b Idle held -> msg_ok b m -> Write b m c = (b', p, r) -> good b' p held.
Proof.
  intros (Hi & Hp & Hs) Hm. unfold Write. destruct (shutdown_ b); [by intros [= <- <- <-]|].
  set (b1 := b <| blog_batch_seq_ := batch_seq_ b |>). assert (Hi1 : inv b1 held) by exact Hi.
  assert (Hs1 : seq_ok b1 0) by exact Hs. assert (Hm1 : msg_ok b1 m) by exact Hm. clearbody b1. cbv zeta.
  destruct (current_batch_ b1) eqn:Ec; [apply fit_good; done || congruence|]. by intros [= <- <- <-].
Qed.

Lemma SealCurrent_good b held acq b' p r :
  good b Idle held -> SealCurrentAndAdvance b acq = (b', p, r) -> good b' p held.
Proof.
  intros (Hi & _ & Hs). unfold SealCurrentAndAdvance. pose proof (begin_seal_spec _ _ Hi Hs) as Hsb.
  destruct (begin_seal b) as [b2 [[[[h num] n] up]|]]; intros [= <- <- <-]; [|by destruct Hsb as [-> _]].
  destruct Hsb as (H1 & H2 & H3 & _). done.
Qed.

Lemma push_step_good b held k h num n up c b' p r :
  good b (Push k h num n up) held -> push_step b k h num n up c = (b', p, r) -> good b' p held.
Proof.
  intros (Hi & (Hk & Hp) & Hs). unfold push_step. destruct (try_push b n up h) as [[idx qs]|] eqn:Et.
  - destruct (push_good b held n up h num idx qs ((idx + 1) mod n)%nat Hi Hp Hs Et) as (H1 & H2 & H3 & H4).
    pose proof (cont_ok_config _ _ k H4 Hk) as Hk'.
    destruct (acquires k); [intros [= <- <- <-]; done|]. apply after_seal_good; [exact H1|exact H2|exact Hk'|by left].
  - destruct (drop_good b held h Hi Hp Hs) as (H1 & H2 & H3 & H4). pose proof (cont_ok_config _ _ k H4 Hk) as Hk'.
    destruct (negb _); [apply after_seal_good; auto|]. destruct (_ && _); [apply after_seal_good; auto|].
    intros [= <- <- <-]. done.
Qed.

Lemma producer_step_good b p held c b' p' r :
  good b p held -> producer_step b p c = (b', p', r) -> good b' p' held.
Proof.
  intros Hg. destruct p as [|m|k h num n up|k num]; cbn [producer_step]; [by intros [= <- <- <-]|..].
  - destruct Hg as (Hi & [Hc Hm] & Hs). destruct (acquire_step b) as [b2|] eqn:E; [|by intros [= <- <- <-]].
    destruct (acquire_good b held b2 Hi Hs Hc E) as (H1 & H2 & _ & H4).
    destruct (current_batch_ b2) eqn:Ec; [|by intros [= <- <- <-]].
    apply fit_good; [done|done|by apply (msg_ok_config b)|congruence].
  - by apply push_step_good.
  - destruct Hg as (Hi & [Hc Hk] & Hs). destruct (acquire_step b) as [b2|] eqn:E; [|by intros [= <- <- <-]].
    destruct (acquire_good b held b2 Hi Hs Hc E) as (H1 & H2 & H3 & H4).
    apply after_seal_good; [done|done|by apply (cont_ok_config b)|done].
Qed.

(** ** The other threads *)
Lemma concat_take_perm (qs : list Q) idx q q' x :
  qs !! idx = Some q -> q_items q = x :: q_items q' ->
  concat (q_items <$> qs) ≡ₚ x :: concat (q_items <$> <[idx := q']> qs).
Proof.
  intros Hq Hi. rewrite <- (concat_insert_perm (<[idx := q']> qs) idx q' q x).
  - by rewrite list_insert_insert_eq, list_insert_id.
  - apply list_lookup_insert_eq. by eapply lookup_lt_Some.
  - by rewrite Hi.
Qed.

Lemma Read_good b p held idx h b' : good b p held -> Read b idx = Some (h, b') -> good b' p (h :: held).
Proof.
  intros (Hi & Hp & Hs). unfold Read. destruct (queues_ b !! idx) as [q|] eqn:Eq; cbn [mbind option_bind]; [|done].
  destruct (q_read q) as [[h' q']|] eqn:Er; cbn [mbind option_bind]; [|done]. intros [= <- <-].
  apply q_read_some in Er as [Er _]. pose proof (concat_take_perm _ _ _ _ _ Eq Er) as Hperm.
  destruct Hi as ((Hss & Hsz & Hcl & Hact & Hcap & Hbm) & Hown & Hopen & Hseal & Hlog).
  assert (Hsl : sealed_slots b held ≡ₚ sealed_slots (b <| queues_ ::= <[idx := q']> |>) (h' :: held))
    by (unfold sealed_slots; cbn; rewrite Hperm; cbn; apply Permutation_middle).
  split; [|done]. split_and!; [unfold config_ok; cbn; by rewrite length_insert| |done| |done].
  - rewrite <- Hown. unfold owned. rewrite Hsl. done.
  - intros x Hx. rewrite <- Hsl in Hx. exact (Hseal x Hx).
Qed.

Lemma held_middle b p l1 h l2 :
  good b p (l1 ++ h :: l2) -> (h ∉ q_items (pool_ b)) /\ h ∈ slots /\ batch_ok b h.
Proof.
  intros (Hi & _). pose proof (owned_nodup _ _ Hi) as Hnd.
  assert (Hin : h ∈ sealed_slots b (l1 ++ h :: l2)) by (unfold sealed_slots; set_solver).
  split_and!; [|eapply owned_in_slots; [done|]; unfold owned; set_solver|by apply Hi].
  unfold owned in Hnd. apply NoDup_app in Hnd as (_ & _ & (_ & Hnd & _)%NoDup_app). intros Hx. by apply (Hnd h Hx).
Qed.

Lemma Release_good b p l1 h l2 : good b p (l1 ++ h :: l2) -> good (ReleaseBatch b h) p (l1 ++ l2).
Proof.
  intros Hg. destruct (held_middle _ _ _ _ _ Hg) as (H1 & H2 & _). destruct Hg as (Hi & Hp & Hs).
  destruct (pool_takes b _ h Hi H1 H2) as (pool & Ew & Hit & Hca).
  assert (Ed : ReleaseBatch b h = b <| pool_ := pool |>) by (unfold ReleaseBatch; cbn; by rewrite Ew). rewrite Ed.
  destruct Hi as ((Hss & Hsz & Hcl & Hact & Hcap & Hbm) & Hown & Hopen & Hseal & Hlog). split; [|done].
  split_and!; [unfold config_ok; cbn; by rewrite Hca| |done| |done].
  - rewrite <- Hown. unfold owned, sealed_slots. cbn. rewrite Hit. solve_Permutation.
  - intros x Hx. apply Hseal. unfold sealed_slots in *. cbn in Hx. set_solver.
Qed.

Lemma Requeue_good b p l1 h l2 idx b' :
  good b p (l1 ++ h :: l2) -> EnqueueBatchForSessionRollover b idx h = Some b' -> good b' p (l1 ++ l2).
Proof.
  intros Hg. destruct (held_middle _ _ _ _ _ Hg) as (_ & _ & Hb). destruct Hg as (Hi & Hp & Hs).
  unfold EnqueueBatchForSessionRollover. destruct (negb _); [done|].
  destruct (queues_ b !! idx) as [q|] eqn:Eq; cbn [mbind option_bind]; [|done].
  destruct (q_write q h) as [q'|] eqn:Ew; cbn [mbind option_bind]; [|done]. intros [= <-].
  apply q_write_some in Ew as [Ew _]. pose proof (sealed_slots_insert b (l1 ++ l2) idx q q' h Eq Ew) as Hperm.
  destruct Hi as ((Hss & Hsz & Hcl & Hact & Hcap & Hbm) & Hown & Hopen & Hseal & Hlog).
  assert (Hsl : sealed_slots b (l1 ++ h :: l2) ≡ₚ sealed_slots (b <| queues_ ::= <[idx := q']> |>) (l1 ++ l2))
    by (unfold sealed_slots at 2; cbn; rewrite Hperm; unfold sealed_slots; solve_Permutation).
  split; [|done]. split_and!; [unfold config_ok; cbn; by rewrite length_insert| |done| |done].
  - rewrite <- Hown. unfold owned. by rewrite Hsl.
  - intros x Hx. rewrite <- Hsl in Hx. exact (Hseal x Hx).
Qed.

Lemma Session_good b p held next :
  good b p held -> (orderly = true -> quiet p = true) -> is_u64 next -> good (SetNextBatchSeqForNewSession b next) p held.
Proof.
  intros (Hi & Hp & _) Hq Hn. destruct Hi as (Hcfg & Hown & Hopen & Hseal & Hlog). split_and!; try done.
  - destruct p; try done. destruct Hp as (Hk & H1 & H2 & H3 & _).
    split; [exact Hk|split; [exact H1|split; [exact H2|split; [exact H3|]]]]. intros Ho. by specialize (Hq Ho).
  - intros Ho. exists next. rewrite (Hq Ho). cbn. split; [done|]. word_unfold. rewrite Z.mod_small; lia.
Qed.

Lemma SetActive_good b p held n : good b p held -> (0 < n)%nat -> good (SetActiveQueues b n) p held.
Proof.
  intros (Hi & Hp & Hs) Hn. destruct Hi as ((Hss & Hsz & Hcl & Hact & Hcap & Hbm) & Hrest). split; [|done]. split; [|done].
  unfold config_ok. cbn. destruct (n <=? length (queues_ b))%nat eqn:E; [apply Nat.leb_le in E|apply Nat.leb_gt in E];
    split_and!; done || lia.
Qed.

Lemma qb_step_good s s' : good (qb s) (at_ s) (held s) -> qb_step orderly s s' -> good (qb s') (at_ s') (held s').
Proof.
  intros Hg Hs. destruct Hs; cbn [qb at_ held] in *.
  - by eapply Write_good.
  - unfold SealAll in *. destruct (shutdown_ b); [by simplify_eq|]. by eapply SealCurrent_good.
  - by eapply SealCurrent_good.
  - by eapply producer_step_good.
  - by eapply Read_good.
  - by apply Release_good.
  - exact Hg.
  - by apply SetActive_good.
  - exact Hg.
  - exact Hg.
  - exact Hg.
  - by eapply Requeue_good.
  - by apply Session_good.
Qed.
End invariant.

(** * The batches that leave the client *)

(** The slots of the region at [base] ([AddBuffers]). *)
Definition region_slots (base ss : Z) (n : nat) : list Z := (fun i => base + Z.of_nat i * ss) <$> seq 0 n.

(** The queue after [AddBuffers]. *)
Definition start_ok (slots : list Z) (ss : Z) (b : QB) : Prop :=
  config_ok slots ss b /\ q_items (pool_ b) = slots /\ Forall (fun q => q_items q = []) (queues_ b) /\
  current_batch_ b = None /\ cur_msgs b = [] /\ sealed_log b = [] /\ accepted b = [] /\ batch_seq_ b = 0.

(** A batch as the broker receives it, with the sender's client id. *)
Definition received (b : QB) (p : Z) (hd : BatchHeader) : memory :=
  memcpy ∅ 0 (bytes_at (memory_ b) (p + sizeof_BatchHeader) (Z.to_nat (bh_total_size hd))).
Definition stamped (cid : Z) (hd : BatchHeader) : BatchHeader :=
  mkBatchHeader (batch_seq hd) cid (num_msg hd) (session_epoch hd) (session_epoch32 hd) (batch_complete hd)
    (bh_total_size hd) (start_logical_offset hd).

Lemma region_slots_nodup base ss n : 0 < ss -> NoDup (region_slots base ss n).
Proof. intros Hs. apply NoDup_fmap_2_strong; [|apply NoDup_seq]. intros x y _ _ H. nia. Qed.

Lemma region_slots_apart base ss n p q :
  0 < ss -> p ∈ region_slots base ss n -> q ∈ region_slots base ss n -> p <> q -> p + ss <= q \/ q + ss <= p.
Proof.
  intros Hs (i & -> & _)%list_elem_of_fmap (j & -> & _)%list_elem_of_fmap Hne.
  assert (i <> j) by congruence. nia.
Qed.

Lemma slot_size_of_spec batch_size :
  0 < batch_size <= 2 ^ 31 ->
  slot_size_of batch_size mod 64 = 0 /\
  sizeof_BatchHeader + batch_size <= slot_size_of batch_size < sizeof_BatchHeader + batch_size + 64.
Proof.
  intros Hb. unfold slot_size_of, AlignUp, sizeof_BatchHeader. change (64 - 1) with 63.
  rewrite (u64_id (128 + batch_size)) by (word_unfold; lia). rewrite u64_id by (word_unfold; lia).
  rewrite land_line_mask by lia. rewrite Z.mul_comm, Z.mod_mul by lia. Z.to_euclidean_division_equations. lia.
Qed.

(** The pool stays within its budget and has at least two slots. *)
Theorem AddBuffers_within_budget num_queues batch_size max_pool_bytes buf_size n :
  0 < batch_size <= 2 ^ 31 -> AddBuffers num_queues batch_size max_pool_bytes buf_size = Some n ->
  2 <= n /\ n * slot_size_of batch_size <= max_pool_bytes.
Proof.
  intros Hb. unfold AddBuffers. destruct (slot_size_of_spec _ Hb) as [_ Hs]. unfold sizeof_BatchHeader in Hs.
  destruct (_ <? 2) eqn:E; [done|]. apply Z.ltb_ge in E. intros [= <-].
  pose proof (Z.mul_div_le max_pool_bytes (slot_size_of batch_size)). split; [lia|]. nia.
Qed.

Lemma IsValidPoolPointer_spec base ss n ptr :
  0 < ss -> IsValidPoolPointer [(base, Z.of_nat n * ss)] ss ptr = true <-> ptr ∈ region_slots base ss n.
Proof.
  intros Hs. unfold region_slots. rewrite list_elem_of_fmap. cbn [IsValidPoolPointer]. split.
  - destruct (_ && _) eqn:E; [|done]. rewrite andb_true_iff, Z.geb_leb, Z.leb_le, Z.ltb_lt in E. rewrite Z.eqb_eq. intros Hm.
    exists (Z.to_nat ((ptr - base) / ss)). rewrite elem_of_seq. pose proof (Z.div_mod (ptr - base) ss). split.
    + rewrite Z2Nat.id by (apply Z.div_pos; lia). lia.
    + assert ((ptr - base) / ss < Z.of_nat n) by (apply Z.div_lt_upper_bound; lia). lia.
  - intros (i & -> & Hi). rewrite elem_of_seq in Hi. replace (base + Z.of_nat i * ss - base) with (Z.of_nat i * ss) by lia.
    rewrite Z.mod_mul by lia. case_match eqn:E; [done|]. rewrite andb_false_iff, Z.geb_leb, Z.leb_gt, Z.ltb_ge in E. nia.
Qed.

Lemma concat_nil_items (qs : list Q) : Forall (fun q => q_items q = []) qs -> concat (q_items <$> qs) = [].
Proof. induction 1 as [|q qs Hq _ IH]; [done|]. cbn. by rewrite Hq, IH. Qed.

Context `{!FollyQueueOk Q}.

Lemma reachable_good orderly base ss n b s :
  start_ok (region_slots base ss n) ss b -> rtc (qb_step orderly) (mkSys b Idle []) s ->
  good (region_slots base ss n) ss orderly (qb s) (at_ s) (held s).
Proof.
  intros (Hcfg & Hpool & Hq & Hc & Hm & Hl & Ha & Hs) Hr. assert (Hss : 0 < ss) by (destruct Hcfg as (_ & Hsz & _); unfold sizeof_BatchHeader in Hsz; lia).
  eapply (rtc_invariant (qb_step orderly) (fun s => good (region_slots base ss n) ss orderly (qb s) (at_ s) (held s))); [| |exact Hr].
  { intros s1 s2. apply qb_step_good; [apply _|by apply region_slots_nodup|]. intros p q. by apply region_slots_apart. }
  cbn. apply concat_nil_items in Hq. split; [|split; [done|]].
  - split_and!; [done| | | |].
    + unfold owned, sealed_slots. rewrite Hc, Hq, Hpool. cbn. by rewrite app_nil_r.
    + unfold open_ok. by rewrite Hc.
    + unfold sealed_slots. rewrite Hq. intros p Hp. by apply not_elem_of_nil in Hp.
    + by rewrite Hl, Hm, Ha.
  - intros _. exists 0. rewrite Hl, Hs. split; [done|]. done.
Qed.

(** The layout of a slot is the layout of what the broker received. *)
Lemma laid_copy d a (n : nat) v2 ms : forall off,
  0 <= off -> off + total v2 ms <= Z.of_nat n -> laid d v2 (a + off) ms -> laid (memcpy ∅ 0 (bytes_at d a n)) v2 off ms.
Proof.
  induction ms as [|m ms IH]; intros off Ho Hn; cbn [laid total] in *; [done|]. intros [Hm Hl].
  pose proof (laid_total _ _ _ _ Hl) as Ht. pose proof (msg_at_stride _ _ _ _ Hm) as [Hs _]. unfold len in Hs.
  destruct Hm as [Hm1 Hm2]. split; [|apply IH; [lia|lia|by rewrite Z.add_assoc]]. split.
  - unfold message_at in *. rewrite MessageHeader_load_copy, BlogMessageHeader_load_copy by lia. exact Hm1.
  - rewrite <- Hm2 at 2. replace (off + 64) with (Z.of_nat (Z.to_nat (off + 64))) by lia. rewrite bytes_at_copy by lia.
    f_equal. lia.
Qed.

(** C14. What the client sends the broker accepts.  The producer writes messages
    of 1 to 1048576 bytes that fit a slot ([Write] does not check it).  Under any
    interleaving of it with the sender threads that read and release batches,
    with queues marked, preferred and requeued, and with session rollovers,
    also those whose wait for the producer timed out, a batch in a queue or in
    the hands of a sender passes the broker's checks, and its body is the
    messages the producer put into it, byte for byte. *)
Theorem sent_batches_are_valid orderly base ss n b s p cid max :
  start_ok (region_slots base ss n) ss b -> rtc (qb_step orderly) (mkSys b Idle []) s ->
  p ∈ sealed_slots (qb s) (held s) -> ss - sizeof_BatchHeader <= max ->
  exists hd ms, headers_ (qb s) !! p = Some hd /\ content (qb s) !! p = Some ms /\ Z.of_nat (length ms) = num_msg hd /\
    ValidBatchEnvelope (stamped cid hd) max cid = true /\
    ValidateBatchBody (Some (received (qb s) p hd)) (bh_total_size hd) (num_msg hd) (use_blog_header_ (qb s)) = true /\
    laid (received (qb s) p hd) (use_blog_header_ (qb s)) 0 ms.
Proof.
  intros Hst Hr Hp Hmax. destruct (reachable_good _ _ _ _ _ _ Hst Hr) as (Hi & _).
  destruct Hi as ((Hss & Hsz & _ & _ & _ & Hbm) & _ & _ & Hseal & _).
  destruct (Hseal p Hp) as (ms & Hc & Hne & (hd & Hh & Htot & Hnum) & Hfit & Hlaid). exists hd, ms.
  pose proof (laid_total _ _ _ _ Hlaid) as Hle. assert (0 < Z.of_nat (length ms)) by (destruct ms; [done|cbn; lia]).
  unfold sizeof_BatchHeader in *.
  assert (Hl : laid (received (qb s) p hd) (use_blog_header_ (qb s)) 0 ms).
  { unfold received. rewrite Htot. apply laid_copy; [lia|lia|]. by rewrite Z.add_0_r. }
  split_and!; [done|done|done| | |done].
  - unfold ValidBatchEnvelope, stamped. cbn. rewrite Htot, Hnum, Z.eqb_refl. cbn.
    rewrite !andb_true_iff, !Z.gtb_ltb, !Z.ltb_lt, !Z.leb_le. split_and!; try lia. apply Z.div_le_lower_bound; lia.
  - destruct (laid_tiles _ _ _ _ Hl) as (ts & Hlen & Ht). rewrite Hnum, <- Hlen, Htot.
    apply tiles_validate; [by apply copy_byte_memory|lia| |done]. intros ->. cbn in Hlen. lia.
Qed.

(** C15. The stream is cut into batches in order.  Under any interleaving, for
    messages that fit a slot, the messages written since the session started
    are, in the order of the calls, those of the sealed batches and then those
    of the open one; every slot of the pool is free, open, queued or held by a
    sender, and in one place only.  When no rollover's wait for the producer
    timed out, the batches are numbered one after the other. *)
Theorem stream_is_batched_in_order orderly base ss n b s :
  start_ok (region_slots base ss n) ss b -> rtc (qb_step orderly) (mkSys b Idle []) s ->
  concat (sealed_log (qb s)).*1.*2 ++ cur_msgs (qb s) = accepted (qb s) /\
  (orderly = true -> exists first, forall i e, sealed_log (qb s) !! i = Some e -> e.1.1 = first +u Z.of_nat i) /\
  owned (qb s) (held s) ≡ₚ region_slots base ss n /\ NoDup (owned (qb s) (held s)).
Proof.
  intros Hst Hr. pose proof Hst as ((_ & Hsz & _) & _). destruct (reachable_good _ _ _ _ _ _ Hst Hr) as (Hi & _ & Hseq).
  pose proof Hi as (_ & Hown & _ & _ & Hlog). split_and!; [done| |done|].
  - intros Ho. destruct (Hseq Ho) as (first & Hs & _). by exists first.
  - eapply owned_nodup; [|exact Hi]. apply region_slots_nodup. unfold sizeof_BatchHeader in Hsz. lia.
Qed.

(** * Runs from an explicit schedule *)
Inductive event :=
| EWrite (m : msg) (c : choice) | ESealAll | EStep (c : choice) | ERead (idx : nat) | ERelease | EMark (idx : nat) (a : bool).

Definition msg_okb (b : QB) (m : msg) : bool :=
  (0 <? len m) && (len m <=? MAX_MESSAGE_PAYLOAD_SIZE) && forallb (fun x => (0 <=? x) && (x <? 256)) (bytes m) &&
  (0 <=? client_order m) && (client_order m <? 2 ^ 64) && (padded m =? padded_total (len m)) &&
  (sizeof_BatchHeader + stride_of (use_blog_header_ b) m <=? slot_size_ b).
Lemma msg_okb_ok b m : msg_okb b m = true -> msg_ok b m.
Proof.
  unfold msg_okb. rewrite !andb_true_iff, !Z.leb_le, !Z.ltb_lt, Z.eqb_eq, forallb_forall. intros H. destruct_and!.
  split_and!; try done; try (word_unfold; lia). apply Forall_forall. intros x Hx%list_elem_of_In.
  assert (Hb : (0 <=? x) && (x <? 256) = true) by auto. rewrite andb_true_iff, Z.leb_le, Z.ltb_lt in Hb. lia.
Qed.

Definition exec (s : sys) (e : event) : sys :=
  let '(mkSys b p held) := s in
  match e, p with
  | EWrite m c, Idle => if msg_okb b m then let '(b, p, _) := Write b m c in mkSys b p held else s
  | ESealAll, Idle => let '(b, p, _) := SealAll b in mkSys b p held
  | EStep c, _ => let '(b, p, _) := producer_step b p c in mkSys b p held
  | ERead idx, _ => match Read b idx with Some (h, b) => mkSys b p (h :: held) | None => s end
  | ERelease, _ => match held with h :: held => mkSys (ReleaseBatch b h) p held | [] => s end
  | EMark idx a, _ => mkSys (MarkQueue b idx a) p held
  | _, _ => s
  end.

Lemma exec_step orderly s e : rtc (qb_step orderly) s (exec s e).
Proof.
  destruct s as [b p held]. unfold exec. destruct e, p; try done.
  all: repeat case_match; simplify_eq; try done; apply rtc_once.
  all: first [eapply step_write; [by apply msg_okb_ok|done] | eapply step_seal_all; done | eapply step_producer; done |
              eapply step_read; done | apply (step_release _ _ _ _ [] _) | apply step_mark].
Qed.

Lemma exec_rtc orderly l : forall s, rtc (qb_step orderly) s (foldl exec s l).
Proof. induction l as [|e l IH]; intros s; [done|]. cbn. etrans; [apply exec_step|apply IH]. Qed.
End queue_buffer.

(** A bounded FIFO queue: the contract of the folly queues can be met. *)
Record fifo := mkFifo { f_cap : nat; f_items : list Z }.
#[global] Instance fifo_queue : FollyQueue fifo := {
  q_write q x := if (length (f_items q) <? f_cap q)%nat then Some (mkFifo (f_cap q) (f_items q ++ [x])) else None;
  q_read q := match f_items q with [] => None | x :: l => Some (x, mkFifo (f_cap q) l) end;
  q_items := f_items;
  q_capacity := f_cap;
}.
#[global] Instance fifo_queue_ok : FollyQueueOk fifo.
Proof.
  split; cbn.
  - intros q x q'. case_match; [|done]. by intros [= <-].
  - intros q x. case_match eqn:E; [done|]. apply Nat.ltb_ge in E. done.
  - intros q x q'. destruct (f_items q) eqn:E; [done|]. by intros [= <- <-].
Qed.

(** Two queues, three slots of 384 bytes, sealing at 256 bytes. *)
Definition ex_queue (blog : bool) : QB :=
  mkQB 384 256 blog 7 0 2 [mkFifo 4 []; mkFifo 4 []] [true; true] [false; false] 0
    (mkFifo 12 (region_slots 4096 384 3)) 0 0 0 false None 0 0 0 ∅ ∅ [] ∅ [] [].
Definition ex_msg (i : Z) : msg := mkMsg i [65 + i; 66 + i; 67 + i] (padded_total 3).
Definition calm : choice := mkChoice false true.
(** Three messages: the second fills a batch; a sender takes it, and the third
    message opens a batch that is sealed at the end. *)
Definition ex_events : list event :=
  [EWrite (ex_msg 0) calm; EStep calm; EWrite (ex_msg 1) calm; EStep calm; EStep calm; ERead 0; EWrite (ex_msg 2) calm;
   ESealAll; EStep calm; EStep calm].
Definition ex_run (blog : bool) : sys := foldl exec (mkSys (ex_queue blog) Idle []) ex_events.

Lemma ex_queue_start blog : start_ok (region_slots 4096 384 3) 384 (ex_queue blog).
Proof.
  split_and!; [split_and!|..]; try done; try (cbn; forall_list; done); try (intros a x Hx; by rewrite lookup_empty in Hx);
    vm_compute; congruence || lia.
Qed.

Lemma sent_batches_are_valid_witness :
  held (ex_run true) = [4096] /\ exists hd, headers_ (qb (ex_run true)) !! 4096 = Some hd /\
    ValidateBatchBody (Some (received (qb (ex_run true)) 4096 hd)) (bh_total_size hd) (num_msg hd) true = true.
Proof.
  assert (Hh : held (ex_run true) = [4096]) by (vm_compute; reflexivity). split; [exact Hh|].
  assert (Hu : use_blog_header_ (qb (ex_run true)) = true) by (vm_compute; reflexivity).
  destruct (sent_batches_are_valid true 4096 384 3 (ex_queue true) (ex_run true) 4096 7 2048) as (hd & ms & H1 & _ & _ & _ & H2 & _).
  - apply ex_queue_start.
  - apply exec_rtc.
  - unfold sealed_slots. rewrite Hh. apply elem_of_app. right. by apply list_elem_of_singleton.
  - unfold sizeof_BatchHeader. lia.
  - exists hd. rewrite Hu in H2. exact (conj H1 H2).
Defined.

Lemma stream_is_batched_in_order_witness :
  (sealed_log (qb (ex_run false))).*1.*2 = [[ex_msg 0; ex_msg 1]; [ex_msg 2]] /\
  concat (sealed_log (qb (ex_run false))).*1.*2 ++ cur_msgs (qb (ex_run false)) = accepted (qb (ex_run false)).
Proof.
  split; [vm_compute; reflexivity|].
  exact (proj1 (stream_is_batched_in_order true 4096 384 3 (ex_queue false) (ex_run false) (ex_queue_start false) (exec_rtc true _ _))).
Defined.

(** * What the queue does not guard against *)

(** [Write] does not compare a message with the slot: one that is longer is
    copied over the header and the bytes of the next slot. *)
Example long_message_overruns_slot :
  let m := mkMsg 0 (replicate 400 88) (padded_total 400) in
  let '(b, p, r) := Write (install (ex_queue true) 4096 (mkFifo 12 [4480; 4864])) m calm in
  r = None /\ memory_ b !! (4480 + sizeof_BatchHeader) = Some 88 /\ memory_ b !! 4480 = Some 88.
Proof. vm_compute. split_and!; reflexivity. Qed.

(** The sequence number in a message's header is read before the seal that the
    message may cause: the first message of the second batch carries the number
    of the first batch. *)
Example first_message_has_old_batch_seq :
  let b0 := (ex_queue true) <| slot_size_ := 320 |> in
  let s := foldl exec (mkSys b0 Idle [])
    [EWrite (ex_msg 0) calm; EStep calm; EWrite (ex_msg 1) calm; EStep calm; EStep calm] in
  (sealed_log (qb s)).*1.*1 = [0] /\ cur_msgs (qb s) = [ex_msg 1] /\ batch_seq_ (qb s) = 1 /\
  b_batch_seq (BlogMessageHeader_load (memory_ (qb s)) (4480 + sizeof_BatchHeader)) = 0.
Proof. vm_compute. split_and!; reflexivity. Qed.

(** With every queue inactive a sealed batch goes back to the pool.  Its
    sequence number is used and its messages count as sealed. *)
Example inactive_queues_lose_batch :
  let s := foldl exec (mkSys (ex_queue true) Idle []) [EWrite (ex_msg 0) calm; EStep calm; EMark 0 false; EMark 1 false] in
  let '(b, p, _) := Write (qb s) (ex_msg 1) calm in
  let '(b, p, r) := producer_step b p calm in
  r = Some (true, 2) /\ sealed_log b = [(0, [ex_msg 0; ex_msg 1], false)] /\ batch_seq_ b = 1 /\
  published_messages_ b = 0 /\ concat (q_items <$> queues_ b) = [].
Proof. vm_compute. split_and!; reflexivity. Qed.
End QueueBuffer.
