(* ===== verification/Rollover.v ===== *)
(** The gate between the producer calls of the publisher's batch queue and a
    session rollover (src/client/queue_buffer.cc): BeginProducerOp and
    EndProducerOp against PauseSessionRollover and ResumeSessionRollover. *)

From S2P Require Import Prelude.

Module RolloverGate.

(** Where a thread is in a producer call.  [inside] says that the operation was
    given back and is taken again within [Write], while the thread waits for a
    slot ([AcquireNextBatchFromPool]).
    - [TLoad]: at the first load of the pause flag
    - [TWait]: waits on the condition variable
    - [TShut]: at the test of shutdown_
    - [TAdd]: at the increment
    - [TRecheck]: incremented, at the second load of the pause flag
    - [TRetry]: at the decrement that gives the operation back
    - [TActive]: has the operation
    - [TGuard]: at the decrement that ends the call
    - [TRestore]: found the count at zero, at the increment that repairs it *)
Inductive thread :=
| TIdle | TLoad (inside : bool) | TWait (inside : bool) | TShut (inside : bool) | TAdd (inside : bool)
| TRecheck (inside : bool) | TRetry (inside : bool) | TActive | TGuard | TRestore.

(** Where the thread of the rollover is: the wait of [PauseSessionRollover]
    ends with no operation active, or at its deadline or at shutdown. *)
Inductive pauser := RIdle | RLocked | RWait | RQuiet | RGaveUp.

Record Gate := mkGate {
  session_rollover_paused_ : bool;
  session_rollover_paused_fast_ : bool;
  active_producer_ops_ : Z;
  shutdown_ : bool;
  threads : list thread;
  rollover : pauser;
}.
#[global] Instance Gate_eta : Eta Gate :=
  fun g => mkGate (session_rollover_paused_ g) (session_rollover_paused_fast_ g) (active_producer_ops_ g) (shutdown_ g)
    (threads g) (rollover g).

(** [BeginProducerOp] returned: with the operation, or without it. *)
Definition begin_false (inside : bool) : thread := if inside then TGuard else TIdle.

(** The next action of a thread; [again] is whether a thread with the operation
    gives it back to wait for a slot. *)
Definition op_step (g : Gate) (t : thread) (again : bool) : Gate * thread :=
  match t with
  | TIdle => (g, TLoad false)
  | TLoad i => (g, if session_rollover_paused_fast_ g then TWait i else TShut i)
  | TWait i =>
      if negb (session_rollover_paused_ g) || shutdown_ g then (g, if shutdown_ g then begin_false i else TLoad i) else (g, TWait i)
  | TShut i => (g, if shutdown_ g then begin_false i else TAdd i)
  | TAdd i => (g <| active_producer_ops_ ::= fun n => n +u 1 |>, TRecheck i)
  | TRecheck i => (g, if session_rollover_paused_fast_ g then TRetry i else TActive)
  | TRetry i =>
      (g <| active_producer_ops_ ::= fun n => n -u 1 |>, if active_producer_ops_ g =? 0 then TRestore else TLoad i)
  | TActive => if again then (g <| active_producer_ops_ ::= fun n => n -u 1 |>, TLoad true) else (g, TGuard)
  | TGuard => (g <| active_producer_ops_ ::= fun n => n -u 1 |>, if active_producer_ops_ g =? 0 then TRestore else TIdle)
  | TRestore => (g <| active_producer_ops_ ::= fun n => n +u 1 |>, TIdle)
  end.

(** The next action of the rollover; [deadline] is whether its wait timed out. *)
Definition rollover_step (g : Gate) (deadline : bool) : Gate :=
  match rollover g with
  | RIdle => g <| session_rollover_paused_ := true |> <| rollover := RLocked |>
  | RLocked => g <| session_rollover_paused_fast_ := true |> <| rollover := RWait |>
  | RWait =>
      if shutdown_ g then g <| rollover := RGaveUp |>
      else if active_producer_ops_ g =? 0 then g <| rollover := RQuiet |>
      else if deadline then g <| rollover := RGaveUp |>
      else g
  | RQuiet | RGaveUp =>
      g <| session_rollover_paused_ := false |> <| session_rollover_paused_fast_ := false |> <| rollover := RIdle |>
  end.

(** The test of [SealAllForSessionRollover] and [EnqueueBatchForSessionRollover]. *)
Definition rollover_allowed (g : Gate) : bool := session_rollover_paused_ g && (active_producer_ops_ g =? 0).

Inductive gate_step : Gate -> Gate -> Prop :=
| gate_thread g i t again :
    threads g !! i = Some t ->
    gate_step g ((op_step g t again).1 <| threads ::= <[i := (op_step g t again).2]> |>)
| gate_rollover g deadline : gate_step g (rollover_step g deadline)
| gate_shutdown g : gate_step g (g <| shutdown_ := true |>).

Definition start (n : nat) : Gate := mkGate false false 0 false (replicate n TIdle) RIdle.

(** * The operation excludes the rollover *)
Definition counted (t : thread) : bool :=
  match t with TRecheck _ | TRetry _ | TActive | TGuard => true | _ => false end.
Definition holders (l : list thread) : nat := length (filter (fun t => counted t = true) l).

Lemma holders_insert l i t t' :
  l !! i = Some t ->
  Z.of_nat (holders (<[i := t']> l)) = Z.of_nat (holders l) + Z.b2z (counted t') - Z.b2z (counted t).
Proof.
  intros Hi. rewrite <- (take_drop_middle l i t Hi) at 2. rewrite insert_take_drop by (by eapply lookup_lt_Some).
  unfold holders. rewrite !filter_app, !filter_cons, !length_app.
  destruct (counted t), (counted t'); repeat case_decide; try done; cbn [length Z.b2z]; lia.
Qed.

Lemma holders_le l : (holders l <= length l)%nat.
Proof. apply length_filter. Qed.

Lemma holders_zero l t : holders l = 0%nat -> t ∈ l -> counted t = false.
Proof.
  intros H0 Hin. destruct (counted t) eqn:E; [|done]. exfalso.
  assert (Hf : t ∈ filter (fun t => counted t = true) l) by (by apply list_elem_of_filter).
  unfold holders in H0. apply nil_length_inv in H0. rewrite H0 in Hf. by apply not_elem_of_nil in Hf.
Qed.

(** Unless the queue shuts down: the counter counts the operations, the flag is
    up while the rollover works, and then no thread has the operation. *)
Definition gate_inv (g : Gate) : Prop :=
  shutdown_ g = false ->
  Z.of_nat (length (threads g)) < 2 ^ 64 - 1 /\
  active_producer_ops_ g = Z.of_nat (holders (threads g)) /\ (TRestore ∉ threads g) /\
  (rollover g <> RIdle -> session_rollover_paused_ g = true) /\
  (rollover g <> RIdle -> rollover g <> RLocked -> session_rollover_paused_fast_ g = true) /\
  (rollover g = RQuiet -> (TActive ∉ threads g) /\ (TGuard ∉ threads g)).

Lemma start_gate_inv n : Z.of_nat n < 2 ^ 64 - 1 -> gate_inv (start n).
Proof.
  intros Hn _. cbn. rewrite length_replicate. split_and!; [done| | |done..].
  - unfold holders. rewrite filter_none; [done|]. intros x [-> _]%elem_of_replicate. done.
  - intros [Hx _]%elem_of_replicate. done.
Qed.

(** One thread's step, on the count and on the thread. *)
Lemma op_step_spec g t again :
  shutdown_ g = false -> (counted t = true -> 1 <= active_producer_ops_ g) -> t <> TRestore ->
  0 <= active_producer_ops_ g < 2 ^ 64 - 1 ->
  let '(g', t') := op_step g t again in
  shutdown_ g' = false /\ threads g' = threads g /\ rollover g' = rollover g /\ t' <> TRestore /\
  session_rollover_paused_ g' = session_rollover_paused_ g /\
  session_rollover_paused_fast_ g' = session_rollover_paused_fast_ g /\
  active_producer_ops_ g' = active_producer_ops_ g + Z.b2z (counted t') - Z.b2z (counted t) /\
  (t' = TActive -> session_rollover_paused_fast_ g = false) /\ (t' = TGuard -> t = TActive).
Proof.
  intros Hs Hc Ht Hr.
  destruct t as [|i|i|i|i|i|i| | |]; cbn [op_step counted] in *; rewrite ?Hs; try done.
  - split_and!; done || (cbn; lia).
  - destruct (session_rollover_paused_fast_ g) eqn:E; split_and!; done || (cbn; lia).
  - destruct (session_rollover_paused_ g) eqn:E; cbn [negb orb]; split_and!; done || (cbn; lia).
  - split_and!; done || (cbn; lia).
  - cbn. rewrite u64_id by (word_unfold; lia). split_and!; done || lia.
  - destruct (session_rollover_paused_fast_ g) eqn:E; split_and!; done || (cbn; lia).
  - assert (1 <= active_producer_ops_ g) by auto. replace (active_producer_ops_ g =? 0) with false by (symmetry; apply Z.eqb_neq; lia).
    cbn. rewrite u64_id by (word_unfold; lia). split_and!; done || lia.
  - assert (1 <= active_producer_ops_ g) by auto. destruct again; cbn; rewrite ?u64_id by (word_unfold; lia); split_and!; done || lia.
  - assert (1 <= active_producer_ops_ g) by auto. replace (active_producer_ops_ g =? 0) with false by (symmetry; apply Z.eqb_neq; lia).
    cbn. rewrite u64_id by (word_unfold; lia). split_and!; done || lia.
Qed.

Lemma op_step_shutdown g t again : shutdown_ (op_step g t again).1 = shutdown_ g.
Proof. destruct t; cbn; repeat case_match; done. Qed.

Lemma not_in_insert {A} (l : list A) i x y : y ∉ l -> x <> y -> y ∉ <[i := x]> l.
Proof. intros Hl Hx [j Hj]%list_elem_of_lookup_1. apply list_lookup_insert_Some in Hj as [(_ & -> & _)|[_ Hj]]; [done|]. by apply list_elem_of_lookup_2 in Hj. Qed.

Lemma gate_thread_inv g i t again :
  gate_inv g -> threads g !! i = Some t ->
  gate_inv ((op_step g t again).1 <| threads ::= <[i := (op_step g t again).2]> |>).
Proof.
  intros Hg Hi Hs. cbn in Hs. rewrite op_step_shutdown in Hs. destruct (Hg Hs) as (Hl & Ho & Hnr & Hp & Hf & Hq).
  pose proof (list_elem_of_lookup_2 _ _ _ Hi) as Hin. pose proof (holders_le (threads g)) as Hle.
  assert (Hc : counted t = true -> 1 <= active_producer_ops_ g).
  { intros Hct. rewrite Ho. destruct (holders (threads g)) eqn:E; [|lia]. by rewrite (holders_zero _ t E Hin) in Hct. }
  assert (Ht : t <> TRestore) by (intros ->; done).
  pose proof (op_step_spec g t again Hs Hc Ht ltac:(lia)) as Hspec.
  destruct (op_step g t again) as [g' t']. destruct Hspec as (_ & H2 & H3 & H4 & H5 & H6 & H7 & H8 & H9).
  cbn. rewrite H2, H3, H5, H6, H7, Ho, length_insert. split_and!; [done| |by apply not_in_insert|done|done|].
  - symmetry. exact (holders_insert _ _ _ t' Hi).
  - intros Hr. destruct (Hq Hr) as [Hq1 Hq2]. split; apply not_in_insert; try done.
    + intros Ha. rewrite H8 in Hf by done. rewrite Hr in Hf. by discriminate Hf.
    + intros Ha. apply H9 in Ha. by subst t.
Qed.

Lemma gate_rollover_inv g deadline : gate_inv g -> gate_inv (rollover_step g deadline).
Proof.
  intros Hg. unfold rollover_step. destruct (rollover g) eqn:Er.
  - intros Hs. destruct (Hg Hs) as (Hl & Ho & Hnr & Hp & Hf & Hq). split_and!; done.
  - intros Hs. destruct (Hg Hs) as (Hl & Ho & Hnr & Hp & Hf & Hq). cbn. split_and!; try done. intros _. apply Hp. congruence.
  - destruct (shutdown_ g) eqn:Es; [intros Hs; cbn in Hs; congruence|].
    destruct (Hg Es) as (Hl & Ho & Hnr & Hp & Hf & Hq). rewrite Er in *.
    destruct (active_producer_ops_ g =? 0) eqn:E0.
    + intros _. apply Z.eqb_eq in E0. assert (H0 : holders (threads g) = 0%nat) by lia. cbn.
      split_and!; try done; [intros; by apply Hp|intros; by apply Hf|].
      intros _. split; intros Hin; by apply (holders_zero _ _ H0) in Hin.
    + destruct deadline; [|by rewrite <- Er in *]. intros _. cbn. split_and!; try done; intros; [by apply Hp|by apply Hf].
  - intros Hs. destruct (Hg Hs) as (Hl & Ho & Hnr & Hp & Hf & Hq). cbn. split_and!; done.
  - intros Hs. destruct (Hg Hs) as (Hl & Ho & Hnr & Hp & Hf & Hq). cbn. split_and!; done.
Qed.

(** C16. A session rollover does not meet a producer.  Any number of threads
    take and give back the producer operation, also in the middle of a [Write],
    while the rollover pauses, works and resumes, in any interleaving.  From the
    moment the pause found no active operation until it is resumed, no thread
    has the operation, unless the queue is shut down; and the counter is the
    number of threads that incremented it. *)
Theorem rollover_excludes_producers n g :
  Z.of_nat n < 2 ^ 64 - 1 -> rtc gate_step (start n) g -> shutdown_ g = false ->
  active_producer_ops_ g = Z.of_nat (holders (threads g)) /\
  (rollover g = RQuiet -> session_rollover_paused_ g = true /\ session_rollover_paused_fast_ g = true /\
     forall t, t ∈ threads g -> t <> TActive /\ t <> TGuard).
Proof.
  intros Hn Hr Hs.
  assert (Hg : gate_inv g).
  { eapply (rtc_invariant gate_step gate_inv); [|by apply start_gate_inv|exact Hr]. intros a b Ha Hab.
    destruct Hab as [a i t again Hi|a deadline|a]; [by apply gate_thread_inv|by apply gate_rollover_inv|done]. }
  destruct (Hg Hs) as (_ & Ho & _ & Hp & Hf & Hq). split; [done|]. intros Hrq. destruct (Hq Hrq) as [H1 H2].
  split_and!; [apply Hp; congruence|apply Hf; congruence|]. intros t Ht. split; intros ->; done.
Qed.

(** Runs from an explicit schedule: a thread ([Some]) or the rollover. *)
Definition sched (g : Gate) (a : option nat) : Gate :=
  match a with
  | Some i =>
      match threads g !! i with
      | Some t => (op_step g t false).1 <| threads ::= <[i := (op_step g t false).2]> |>
      | None => g
      end
  | None => rollover_step g false
  end.
Lemma gate_sched_rtc l : forall g, rtc gate_step g (foldl sched g l).
Proof.
  induction l as [|a l IH]; intros g; [done|]. cbn [foldl]. etrans; [|apply IH]. unfold sched.
  destruct a as [i|]; [|apply rtc_once, gate_rollover]. destruct (threads g !! i) as [t|] eqn:E; [|done].
  apply rtc_once. by apply gate_thread.
Qed.

(** A thread has the operation when the pause starts; the rollover waits. *)
Definition ex_sched : list (option nat) :=
  [Some 0%nat; Some 0%nat; Some 0%nat; Some 0%nat; Some 0%nat; None; None; None; Some 0%nat; Some 0%nat; None].

Lemma rollover_excludes_producers_witness :
  let g := foldl sched (start 2) ex_sched in
  rollover g = RQuiet /\ forall t, t ∈ threads g -> t <> TActive /\ t <> TGuard.
Proof.
  intros g. assert (Hq : rollover g = RQuiet) by (vm_compute; reflexivity). split; [exact Hq|].
  assert (Hs : shutdown_ g = false) by (vm_compute; reflexivity).
  destruct (rollover_excludes_producers 2 g) as [_ H]; [lia|apply gate_sched_rtc|exact Hs|]. apply (H Hq).
Defined.

(** The pause found no operation, and still the rollover is refused: a thread
    that read the flag before the pause has incremented the counter, and has not
    read the flag again. *)
Example quiet_rollover_is_refused :
  let g := foldl sched (start 1) [Some 0%nat; Some 0%nat; Some 0%nat; None; None; None; Some 0%nat] in
  rollover g = RQuiet /\ threads g = [TRecheck false] /\ rollover_allowed g = false.
Proof. vm_compute. split_and!; reflexivity. Qed.

(** At shutdown a [Write] that waits for a slot ends its operation twice; the
    counter wraps until it is repaired. *)
Example shutdown_ends_operation_twice :
  let g0 := mkGate false false 1 false [TActive] RIdle in
  let '(g1, t1) := op_step g0 TActive true in
  let '(g2, t2) := op_step (g1 <| shutdown_ := true |>) t1 false in
  let '(g3, t3) := op_step g2 t2 false in
  let '(g4, t4) := op_step g3 t3 false in
  t3 = TGuard /\ t4 = TRestore /\ active_producer_ops_ g4 = U64_MAX.
Proof. vm_compute. split_and!; reflexivity. Qed.
End RolloverGate.
