(* ===== verification/StreamParser.v ===== *)
(** The ordered stream of a subscriber's connection
    ([Subscriber::ParseAndStageOrderedBytes] of src/client/subscriber.cc): bytes
    arrive in chunks of any size, batches and messages are cut out of them, and
    what is incomplete is carried over to the next chunk. *)

From S2P Require Import Prelude Bytes Wire.
Import wire.

(** ** Wire fields *)
Definition ReadWireField (n : nat) (bytes : list Z) (offset : nat) : Z := get_le n (drop offset bytes).
Definition WriteWireField (n : nat) (bytes : list Z) (offset : nat) (value : Z) : list Z :=
  take offset bytes ++ put_le n value ++ drop (offset + n) bytes.
Definition BatchMetadata_read (bytes : list Z) : BatchMetadata :=
  mkBatchMetadata (ReadWireField 8 bytes 0) (ReadWireField 4 bytes 8) (ReadWireField 2 bytes 12) (ReadWireField 2 bytes 14).

Definition size_of (bytes : list Z) : Z := Z.of_nat (length bytes).

(** ** State

    A message is the frame it points to in its retained chunk: a chunk is
    written only inside the frame being parsed. *)
Record OwnedMessage := mkOwnedMessage {
  om_header_version : Z;
  om_bytes : list Z;
}.

Record BatchMetadataState := mkBatchMetadataState {
  has_pending_metadata : bool;
  pending_metadata : BatchMetadata;
  current_batch_messages_processed : Z;
  next_message_order_in_batch : Z;
}.
#[export] Instance eta_BatchMetadataState : Eta BatchMetadataState := fun s =>
  mkBatchMetadataState (has_pending_metadata s) (pending_metadata s) (current_batch_messages_processed s)
    (next_message_order_in_batch s).

(** [carry] is the capacity of the carry chunk, [carry_bytes] its first
    [carry_size] bytes. *)
Record StreamParseState := mkStreamParseState {
  carry : option Z;
  carry_bytes : list Z;
  batch_state : BatchMetadataState;
}.
#[export] Instance eta_StreamParseState : Eta StreamParseState := fun s =>
  mkStreamParseState (carry s) (carry_bytes s) (batch_state s).

Definition no_metadata : BatchMetadata := mkBatchMetadata 0 0 0 0.
Definition StreamParseState_init : StreamParseState :=
  mkStreamParseState None [] (mkBatchMetadataState false no_metadata 0 0).

(** What a call collects. *)
Record Parsed := mkParsed {
  parsed_messages : list (Z * OwnedMessage);
  gap_batch_starts : list Z;
  parse_errors : Z;
}.
Definition parsed_app (a b : Parsed) : Parsed :=
  mkParsed (parsed_messages a ++ parsed_messages b) (gap_batch_starts a ++ gap_batch_starts b) (parse_errors a + parse_errors b).
Definition parsed_nil : Parsed := mkParsed [] [] 0.

(** ** Retained memory

    The budget and the descriptors are shared with the other connections and
    the consumer.  [answers] says what the successive uses of them give: false
    where an allocation fails or [retention_exhausted_] is found set.  The flag
    is never cleared. *)
Record Retention := mkRetention {
  retention_exhausted : bool;
  answers : list bool;
}.
Definition retention_query (r : Retention) : bool * Retention :=
  if retention_exhausted r then (false, r)
  else match answers r with
       | [] => (true, r)
       | a :: l => (a, mkRetention (negb a) l)
       end.
Definition FailOrderedRetention (r : Retention) : Retention := mkRetention true (answers r).
(** The load of the flag, then the reservation and the allocation. *)
Definition AllocateRetainedChunk (r : Retention) : bool * Retention :=
  let '(ok, r) := retention_query r in if ok then retention_query r else (false, r).
Definition AcquireOwnedMessage (r : Retention) : bool * Retention := retention_query r.

(** ** The head of a stream *)
Definition valid_metadata (meta : BatchMetadata) : bool :=
  IsValidHeaderVersion (header_version meta) && (num_messages meta >? 0) &&
  (num_messages meta <=? MAX_BATCH_MESSAGES) && (batch_total_order meta <? MAX_BATCH_TOTAL_ORDER).

(** The length of the message whose header starts [bytes]; [None] where the
    header is invalid. *)
Definition frame_stride (version : Z) (bytes : list Z) : option Z :=
  if version =? HEADER_VERSION_V2 then
    let payload_size := ReadWireField 4 bytes 0 in
    if (payload_size =? 0) || (payload_size >? MAX_MESSAGE_PAYLOAD_SIZE) then None
    else Some (ComputeStrideV2 payload_size)
  else
    let padded_size := ReadWireField 8 bytes 0 in
    if (padded_size <? V1_HEADER_SIZE) || (padded_size >? MaxV1PaddedSize) || negb (padded_size mod 64 =? 0) then None
    else Some padded_size.

Inductive item :=
  | Incomplete
  | Metadata (meta : BatchMetadata)
  | Garbage
  | Message (stride total_order : Z) (msg : OwnedMessage).

(** The frame, with the order written into it where the broker left it 0. *)
Definition owned_message (s : BatchMetadataState) (stride : Z) (bytes : list Z) : item :=
  let frame := take (Z.to_nat stride) bytes in
  let total_order := ReadWireField 8 frame 32 in
  let version := header_version (pending_metadata s) in
  if total_order =? 0 then
    let total_order := next_message_order_in_batch s in
    Message stride total_order (mkOwnedMessage version (WriteWireField 8 frame 32 total_order))
  else Message stride total_order (mkOwnedMessage version frame).

Definition next_item (s : BatchMetadataState) (bytes : list Z) : item :=
  if negb (has_pending_metadata s) then
    if size_of bytes <? 16 then Incomplete
    else
      let meta := BatchMetadata_read bytes in
      if valid_metadata meta then Metadata meta else Garbage
  else if size_of bytes <? 64 then Incomplete
  else
    match frame_stride (header_version (pending_metadata s)) bytes with
    | None => Garbage
    | Some stride => if size_of bytes <? stride then Incomplete else owned_message s stride bytes
    end.

Definition item_width (i : item) : nat :=
  match i with Incomplete => 0 | Metadata _ => 16 | Garbage => 8 | Message stride _ _ => Z.to_nat stride end.
Definition item_state (s : BatchMetadataState) (i : item) : BatchMetadataState :=
  match i with
  | Metadata meta => mkBatchMetadataState true meta 0 (batch_total_order meta)
  | Message _ total_order _ =>
      let processed := current_batch_messages_processed s +u 1 in
      mkBatchMetadataState (processed <? num_messages (pending_metadata s)) (pending_metadata s) processed (total_order +u 1)
  | _ => s
  end.
Definition item_parsed (i : item) : Parsed :=
  match i with
  | Incomplete => parsed_nil
  | Metadata meta =>
      mkParsed [] (if Z.land (flags meta) BATCH_META_FLAG_EXPORT_GAP =? 0 then [] else [batch_total_order meta]) 0
  | Garbage => mkParsed [] [] 1
  | Message _ total_order msg => mkParsed [(total_order, msg)] [] 0
  end.

(** ** The parser *)
Record Call := mkCall {
  c_batch : BatchMetadataState;
  c_parsed : Parsed;
  c_retention : Retention;
}.

(** A message takes a descriptor, and a chunk of its own where its frame does
    not lie in the chunk received. *)
Definition retain_item (retained_chunk : bool) (i : item) (r : Retention) : bool * Retention :=
  match i with
  | Message _ _ _ =>
      let '(ok, r) := AcquireOwnedMessage r in
      if negb ok then (false, r) else if retained_chunk then (true, r) else AllocateRetainedChunk r
  | _ => (true, r)
  end.

Fixpoint parse_loop (fuel : nat) (c : Call) (bytes : list Z) (retained_chunk : bool) (pos : nat) : nat * Call :=
  match fuel with
  | O => (pos, c)
  | S fuel =>
      match bytes with
      | [] => (pos, c)
      | _ =>
          let '(live, r) := retention_query (c_retention c) in
          if negb live then (pos, mkCall (c_batch c) (c_parsed c) r)
          else
            match next_item (c_batch c) bytes with
            | Incomplete => (pos, mkCall (c_batch c) (c_parsed c) r)
            | i =>
                let '(ok, r) := retain_item retained_chunk i r in
                if negb ok then (pos, mkCall (c_batch c) (c_parsed c) r)
                else parse_loop fuel (mkCall (item_state (c_batch c) i) (parsed_app (c_parsed c) (item_parsed i)) r)
                       (drop (item_width i) bytes) retained_chunk (pos + item_width i)
            end
      end
  end.
Definition parse_contiguous (c : Call) (bytes : list Z) (retained_chunk : bool) : nat * Call :=
  parse_loop (length bytes) c bytes retained_chunk 0.

(** ** The carry *)
Definition kMaxStreamBufferBytes : Z := Z.shiftl 2 20.

(** The result of a call in progress: [go] is false once the call has
    returned. *)
Record Feed := mkFeed {
  go : bool;
  f_carry : option Z;
  f_bytes : list Z;
  f_call : Call;
}.
#[export] Instance eta_Feed : Eta Feed := fun f => mkFeed (go f) (f_carry f) (f_bytes f) (f_call f).
#[export] Instance eta_Call : Eta Call := fun c => mkCall (c_batch c) (c_parsed c) (c_retention c).

Definition append_carry (f : Feed) (bytes : list Z) : Feed :=
  let c := f_call f in
  let '(live, r) := retention_query (c_retention c) in
  if negb live then f <| go := false |> <| f_call := c <| c_retention := r |> |>
  else if size_of bytes >? kMaxStreamBufferBytes -u size_of (f_bytes f) then
    f <| go := false |> <| f_call := c <| c_retention := FailOrderedRetention r |> |>
  else
    let required := size_of (f_bytes f) +u size_of bytes in
    let fits := match f_carry f with Some capacity => required <=? capacity | None => false end in
    if fits then f <| f_bytes := f_bytes f ++ bytes |> <| f_call := c <| c_retention := r |> |>
    else
      let previous := default 0 (f_carry f) in
      let capacity := Z.min kMaxStreamBufferBytes (Z.max required (Z.max 4096 (previous *u 2))) in
      let '(ok, r) := AllocateRetainedChunk r in
      if negb ok then f <| go := false |> <| f_call := c <| c_retention := r |> |>
      else mkFeed (go f) (Some capacity) (f_bytes f ++ bytes) (c <| c_retention := r |>).

Definition carry_bytes_needed (s : BatchMetadataState) (carried : list Z) : Z :=
  let carry_size := size_of carried in
  if negb (has_pending_metadata s) then if carry_size <? 16 then 16 - carry_size else 0
  else if carry_size <? 64 then 64 - carry_size
  else
    match frame_stride (header_version (pending_metadata s)) carried with
    | None => 0
    | Some stride => if carry_size <? stride then stride - carry_size else 0
    end.

Definition reset_stream_state (f : Feed) : Feed :=
  let c := f_call f in
  let s := c_batch c in
  mkFeed false None []
    (c <| c_parsed := parsed_app (c_parsed c) (mkParsed [] [] 1) |>
       <| c_batch := mkBatchMetadataState false (pending_metadata s) 0 0 |>).

(** One parse of the carry; what was parsed leaves it. *)
Definition parse_carry (f : Feed) : nat * Feed :=
  let '(consumed, c) := parse_contiguous (f_call f) (f_bytes f) false in
  if (length (f_bytes f) <=? consumed)%nat then (consumed, mkFeed (go f) None [] c)
  else (consumed, mkFeed (go f) (f_carry f) (drop consumed (f_bytes f)) c).

(** The loop that completes the carry from the input; it gives what is left of
    the input. *)
Fixpoint carry_loop (fuel : nat) (f : Feed) (input : list Z) : Feed * list Z :=
  match fuel with
  | O => (f, input)
  | S fuel =>
      match f_bytes f, input with
      | [], _ | _, [] => (f, input)
      | _, _ =>
          let '(consumed, f') := parse_carry f in
          if (length (f_bytes f) <=? consumed)%nat then (f', input)
          else if (0 <? consumed)%nat then carry_loop fuel f' input
          else
            let needed := carry_bytes_needed (c_batch (f_call f')) (f_bytes f') in
            let needed := if needed =? 0 then Z.min 8 (size_of input) else needed in
            let take_n := Z.to_nat (Z.min needed (size_of input)) in
            let f' := append_carry f' (take take_n input) in
            if negb (go f') then (f', input)
            else if size_of (f_bytes f') >? kMaxStreamBufferBytes then (reset_stream_state f', drop take_n input)
            else carry_loop fuel f' (drop take_n input)
      end
  end.

(** The part of the input behind the carry is parsed where it was received. *)
Definition parse_input (f : Feed) (input : list Z) : nat * Feed :=
  let '(consumed, c) := parse_contiguous (f_call f) input true in (consumed, f <| f_call := c |>).

Definition feed_behind_carry (f : Feed) (data : list Z) : Feed :=
  let '(f, input) := carry_loop (2 * length data + length (f_bytes f) + 1) f data in
  if negb (go f) then f
  else
    let f := match f_bytes f, input with _ :: _, [] => (parse_carry f).2 | _, _ => f end in
    match f_bytes f, input with
    | [], _ :: _ =>
        let '(consumed, f) := parse_input f input in
        if (consumed <? length input)%nat then append_carry f (drop consumed input) else f
    | _, _ => f
    end.

Definition feed_fresh (f : Feed) (data : list Z) : Feed :=
  let '(consumed, f) := parse_input f data in
  if (consumed <? length data)%nat then
    if size_of data -u Z.of_nat consumed >? kMaxStreamBufferBytes then reset_stream_state f
    else append_carry f (drop consumed data)
  else f.

(** The new state, the messages and gaps that are staged ([None] where the call
    returns before), the parse errors counted and the shared memory. *)
Definition ParseAndStageOrderedBytes (state : StreamParseState) (data : list Z) (r : Retention) :
    StreamParseState * option (list (Z * OwnedMessage) * list Z) * Z * Retention :=
  if (length data =? 0)%nat then (state, None, 0, r)
  else
    let '(live, r) := retention_query r in
    if negb live then (state, None, 0, r)
    else
      let '(ok, r) := AllocateRetainedChunk r in
      if negb ok then (state, None, 0, r)
      else
      let f := mkFeed true (carry state) (carry_bytes state) (mkCall (batch_state state) parsed_nil r) in
      let f := match carry_bytes state with [] => feed_fresh f data | _ => feed_behind_carry f data end in
      let c := f_call f in
      let state := mkStreamParseState (f_carry f) (f_bytes f) (c_batch c) in
      if negb (go f) then (state, None, parse_errors (c_parsed c), c_retention c)
      else
        let '(live, r) := retention_query (c_retention c) in
        if negb live then (state, None, parse_errors (c_parsed c), r)
        else (state, Some (parsed_messages (c_parsed c), gap_batch_starts (c_parsed c)), parse_errors (c_parsed c), r).

(** * The stream as one sequence of items *)
Abbreviation cursor := (BatchMetadataState * Parsed * list Z)%type.
Inductive parses : cursor -> cursor -> Prop :=
  | parses_item s o bytes :
      next_item s bytes <> Incomplete ->
      parses (s, o, bytes)
        (item_state s (next_item s bytes), parsed_app o (item_parsed (next_item s bytes)),
         drop (item_width (next_item s bytes)) bytes).

(** The reference: the whole stream parsed in one piece. *)
Fixpoint scan (fuel : nat) (s : BatchMetadataState) (o : Parsed) (bytes : list Z) : cursor :=
  match fuel with
  | O => (s, o, bytes)
  | S fuel =>
      match next_item s bytes with
      | Incomplete => (s, o, bytes)
      | i => scan fuel (item_state s i) (parsed_app o (item_parsed i)) (drop (item_width i) bytes)
      end
  end.
Definition parse_stream (s : BatchMetadataState) (bytes : list Z) : cursor := scan (length bytes) s parsed_nil bytes.

Definition frame_max : Z := MaxV1PaddedSize.
Lemma frame_max_eq : frame_max = 1048640.
Proof. reflexivity. Qed.
Lemma kMax_eq : kMaxStreamBufferBytes = 2097152.
Proof. reflexivity. Qed.

Lemma parsed_app_nil o : parsed_app parsed_nil o = o.
Proof. by destruct o. Qed.
Lemma parsed_app_nil_r o : parsed_app o parsed_nil = o.
Proof. destruct o. unfold parsed_app. cbn. by rewrite !app_nil_r, Z.add_0_r. Qed.
Lemma parsed_app_assoc a b c : parsed_app a (parsed_app b c) = parsed_app (parsed_app a b) c.
Proof. unfold parsed_app. cbn. by rewrite !app_assoc, Z.add_assoc. Qed.

Lemma byte_list_drop n bs : byte_list bs -> byte_list (drop n bs).
Proof. apply Forall_drop. Qed.
Lemma byte_list_app a b : byte_list a -> byte_list b -> byte_list (a ++ b).
Proof. intros. by apply Forall_app. Qed.
Lemma byte_list_take n bs : byte_list bs -> byte_list (take n bs).
Proof. apply Forall_take. Qed.
#[export] Hint Resolve byte_list_drop byte_list_app byte_list_take : emb.

(** ** Items *)
Lemma ReadWireField_app n a b off : (off + n <= length a)%nat -> ReadWireField n (a ++ b) off = ReadWireField n a off.
Proof.
  intros H. unfold ReadWireField. rewrite drop_app_le by lia. apply get_le_app. rewrite length_drop. lia.
Qed.

Lemma frame_stride_spec v bytes stride :
  byte_list bytes -> frame_stride v bytes = Some stride -> 64 <= stride <= frame_max.
Proof.
  intros Hb. rewrite frame_max_eq. unfold frame_stride. case_match.
  - assert (0 <= ReadWireField 4 bytes 0) by (apply get_le_range; auto with emb).
    intros H1. case_match; [done|]. bool_props. injection H1 as <-.
    pose proof (ComputeStrideV2_spec (ReadWireField 4 bytes 0) ltac:(lia)). unfold MAX_MESSAGE_PAYLOAD_SIZE in *.
    Z.to_euclidean_division_equations. lia.
  - intros H1. case_match; [done|]. bool_props. rewrite MaxV1PaddedSize_eq in *.
    unfold V1_HEADER_SIZE, MAX_MESSAGE_PAYLOAD_SIZE in *. injection H1 as <-. lia.
Qed.

Lemma frame_stride_app v a b : 64 <= size_of a -> frame_stride v (a ++ b) = frame_stride v a.
Proof. unfold size_of. intros H. unfold frame_stride. by rewrite !ReadWireField_app by lia. Qed.

Lemma owned_message_form s stride bytes :
  exists total_order msg, owned_message s stride bytes = Message stride total_order msg.
Proof. unfold owned_message. case_match; eauto. Qed.

Lemma owned_message_app s stride a b :
  stride <= size_of a -> owned_message s stride (a ++ b) = owned_message s stride a.
Proof. unfold size_of. intros H. unfold owned_message. by rewrite take_app_le by lia. Qed.

(** The head of a stream does not depend on what follows it. *)
Lemma next_item_app s a b : next_item s a <> Incomplete -> next_item s (a ++ b) = next_item s a.
Proof.
  unfold next_item. assert (Hlen : size_of (a ++ b) = size_of a + size_of b) by (unfold size_of; rewrite length_app; lia).
  assert (0 <= size_of b) by (unfold size_of; lia). rewrite Hlen. destruct (negb _).
  - destruct (size_of a <? 16) eqn:E; [done|]. intros _. bool_props. replace (size_of a + size_of b <? 16) with false by lia.
    unfold size_of in *. unfold BatchMetadata_read. by rewrite !ReadWireField_app by lia.
  - destruct (size_of a <? 64) eqn:E; [done|]. bool_props. replace (size_of a + size_of b <? 64) with false by lia.
    rewrite frame_stride_app by done. destruct (frame_stride _ a) as [stride|]; [|done].
    destruct (size_of a <? stride) eqn:E2; [done|]. bool_props. replace (size_of a + size_of b <? stride) with false by lia.
    intros _. apply owned_message_app. lia.
Qed.

Lemma item_width_le s bytes :
  byte_list bytes -> next_item s bytes <> Incomplete ->
  (0 < item_width (next_item s bytes) <= length bytes)%nat.
Proof.
  intros Hb. unfold next_item. destruct (negb _).
  - destruct (size_of bytes <? 16) eqn:E; [done|]. bool_props. unfold size_of in *. case_match; cbn; lia.
  - destruct (size_of bytes <? 64) eqn:E; [done|]. bool_props. unfold size_of in *.
    destruct (frame_stride _ bytes) as [stride|] eqn:E1; [|cbn; lia].
    apply frame_stride_spec in E1; [|done]. destruct (_ <? stride) eqn:E2; [done|]. bool_props. intros _.
    destruct (owned_message_form s stride bytes) as (t & m & ->). cbn. lia.
Qed.

(** What is incomplete is shorter than the longest frame, and the carry asks
    for no more than the frame. *)
Lemma incomplete_needs s bytes :
  byte_list bytes -> next_item s bytes = Incomplete ->
  0 < carry_bytes_needed s bytes /\ size_of bytes + carry_bytes_needed s bytes <= frame_max.
Proof.
  rewrite frame_max_eq. intros Hb. unfold next_item, carry_bytes_needed. destruct (negb _).
  - destruct (size_of bytes <? 16) eqn:E; bool_props; [lia|]. by case_match.
  - destruct (size_of bytes <? 64) eqn:E; bool_props; [lia|].
    destruct (frame_stride _ bytes) as [stride|] eqn:E1; [|done].
    apply frame_stride_spec in E1; [|done]. rewrite frame_max_eq in E1. destruct (_ <? stride) eqn:E2; bool_props; [lia|].
    destruct (owned_message_form s stride bytes) as (t & m & ->). done.
Qed.

Lemma incomplete_short s bytes : byte_list bytes -> next_item s bytes = Incomplete -> size_of bytes < frame_max.
Proof. intros Hb Hi. pose proof (incomplete_needs s bytes Hb Hi). lia. Qed.

Lemma next_item_nil s : next_item s [] = Incomplete.
Proof. unfold next_item. by destruct (negb _). Qed.

(** ** Sequences of items *)
Lemma parses_app s o a s' o' a' b :
  byte_list a -> parses (s, o, a) (s', o', a') -> parses (s, o, a ++ b) (s', o', a' ++ b).
Proof.
  intros Hb H. inversion H as [? ? ? Hn]; subst. pose proof (item_width_le _ _ Hb Hn).
  rewrite <- (next_item_app s a b Hn), <- drop_app_le by (rewrite next_item_app by done; lia).
  constructor. by rewrite next_item_app.
Qed.

Lemma parses_bytes x y : parses x y -> byte_list x.2 -> byte_list y.2.
Proof. intros [s o bytes H] Hb. cbn in *. auto with emb. Qed.
Lemma rtc_parses_bytes x y : rtc parses x y -> byte_list x.2 -> byte_list y.2.
Proof. induction 1; eauto using parses_bytes. Qed.

Lemma rtc_parses_app x y b :
  rtc parses x y -> byte_list x.2 -> rtc parses (x.1, x.2 ++ b) (y.1, y.2 ++ b).
Proof.
  induction 1 as [[[s o] a]|[[s o] a] [[s' o'] a'] z H _ IH]; intros Hb; [done|]. cbn in *.
  eapply rtc_l; [by apply parses_app|]. apply IH. by apply (parses_bytes _ _ H).
Qed.

Lemma rtc_parses_prefix p s o a s' o' a' :
  rtc parses (s, o, a) (s', o', a') -> rtc parses (s, parsed_app p o, a) (s', parsed_app p o', a').
Proof.
  remember (s, o, a) as x eqn:Ex. remember (s', o', a') as y eqn:Ey. intros H. revert s o a Ex.
  induction H as [x|x z y H _ IH]; intros s o a ->; [by simplify_eq|]. inversion H; subst.
  eapply rtc_l; [by constructor|]. rewrite <- parsed_app_assoc. by apply IH.
Qed.

Definition stuck (x : cursor) : Prop := next_item x.1.1 x.2 = Incomplete.

Lemma parses_det x y z : parses x y -> parses x z -> y = z.
Proof. intros [s o b H] H2. by inversion H2. Qed.

Lemma rtc_parses_stuck x y z : rtc parses x y -> rtc parses x z -> stuck z -> rtc parses y z.
Proof.
  intros Hy Hz Sz. revert z Hz Sz. induction Hy as [x|x x' y H _ IH]; intros z Hz Sz; [done|].
  inversion Hz as [|? x1 ? H1]; subst; [destruct H as [s o b Hn]; by destruct Hn|].
  rewrite (parses_det _ _ _ H H1) in *. by apply IH.
Qed.
Lemma stuck_unique x y z : rtc parses x y -> rtc parses x z -> stuck y -> stuck z -> y = z.
Proof.
  intros Hy Hz Sy Sz. pose proof (rtc_parses_stuck x y z Hy Hz Sz) as H.
  inversion H as [|? x1 ? H1]; [done|]. subst. destruct H1 as [s o b Hn]. by destruct Hn.
Qed.

#[export] Instance incomplete_dec i : Decision (i = Incomplete).
Proof. destruct i; [by left|by right..]. Defined.

Lemma scan_spec fuel : forall s o bytes,
  byte_list bytes -> (length bytes <= fuel)%nat ->
  rtc parses (s, o, bytes) (scan fuel s o bytes) /\ stuck (scan fuel s o bytes).
Proof.
  induction fuel as [|fuel IH]; intros s o bytes Hb Hf.
  { destruct bytes; cbn in Hf; [|lia]. split; [done|]. apply next_item_nil. }
  cbn [scan]. destruct (decide (next_item s bytes = Incomplete)) as [E|E].
  { rewrite E. split; [done|]. done. }
  pose proof (item_width_le s bytes Hb E). assert (Hs := parses_item s o bytes E).
  destruct (IH (item_state s (next_item s bytes)) (parsed_app o (item_parsed (next_item s bytes)))
    (drop (item_width (next_item s bytes)) bytes)) as [H1 H2]; [auto with emb|rewrite length_drop; lia|].
  destruct (next_item s bytes) eqn:E1; [done|..]; (split; [by eapply rtc_l|done]).
Qed.

(** ** Retention *)
Definition exhausted (c : Call) : bool := retention_exhausted (c_retention c).

Lemma retention_query_spec r :
  (retention_query r).1 = negb (retention_exhausted (retention_query r).2) /\
  (retention_exhausted r = true -> retention_exhausted (retention_query r).2 = true).
Proof. unfold retention_query. destruct (retention_exhausted r) eqn:E; [by cbn; rewrite E|]. destruct (answers r) as [|a l]; cbn; [by rewrite E|]. by rewrite negb_involutive. Qed.

Lemma AllocateRetainedChunk_spec r :
  (AllocateRetainedChunk r).1 = negb (retention_exhausted (AllocateRetainedChunk r).2) /\
  (retention_exhausted r = true -> retention_exhausted (AllocateRetainedChunk r).2 = true).
Proof.
  unfold AllocateRetainedChunk. pose proof (retention_query_spec r) as [H1 H2]. destruct (retention_query r) as [ok r']; cbn in *.
  destruct ok; [|cbn; destruct (retention_exhausted r'); naive_solver].
  pose proof (retention_query_spec r') as [H3 H4]. split; [done|]. auto.
Qed.

Lemma retain_item_spec b i r :
  ((retain_item b i r).1 = true -> retention_exhausted (retain_item b i r).2 = retention_exhausted r) /\
  ((retain_item b i r).1 = false -> retention_exhausted (retain_item b i r).2 = true) /\
  (retention_exhausted r = true -> retention_exhausted (retain_item b i r).2 = true).
Proof.
  destruct i; cbn; [by split_and!..|]. unfold AcquireOwnedMessage. pose proof (retention_query_spec r) as [H1 H2].
  destruct (retention_query r) as [ok r']; cbn in *. destruct ok; cbn; [|destruct (retention_exhausted r'); naive_solver].
  destruct (retention_exhausted r); [destruct (retention_exhausted r'); naive_solver|].
  destruct b; cbn; [destruct (retention_exhausted r'); naive_solver|].
  pose proof (AllocateRetainedChunk_spec r') as [H3 H4]. destruct (AllocateRetainedChunk r') as [ok r'']; cbn in *.
  destruct ok, (retention_exhausted r''); naive_solver.
Qed.

(** A parse gets as far as the items reach, unless memory runs out. *)
Lemma parse_loop_spec fuel : forall c bytes b pos n c',
  byte_list bytes -> (length bytes <= fuel)%nat -> parse_loop fuel c bytes b pos = (n, c') ->
  exists k, n = (pos + k)%nat /\ (k <= length bytes)%nat /\
    rtc parses (c_batch c, c_parsed c, bytes) (c_batch c', c_parsed c', drop k bytes) /\
    (exhausted c' = false -> next_item (c_batch c') (drop k bytes) = Incomplete) /\
    (exhausted c = true -> exhausted c' = true).
Proof.
  unfold exhausted. induction fuel as [|fuel IH]; intros c bytes b pos n c' Hb Hf H.
  { destruct bytes; cbn in Hf; [|lia]. injection H as <- <-. exists 0%nat. split_and!; [lia|done..| |done]. intros _. apply next_item_nil. }
  destruct bytes as [|x bytes]; [injection H as <- <-; exists 0%nat; split_and!; [lia|done..| |done]; intros _; apply next_item_nil|].
  set (bs := x :: bytes) in *. cbn [parse_loop] in H. fold bs in H. change (match bs with [] => _ | _ => ?t end) with t in H.
  pose proof (retention_query_spec (c_retention c)) as [Hq1 Hq2]. destruct (retention_query _) as [live r]; cbn [fst snd] in *.
  destruct live; cbn [negb] in H; [|injection H as <- <-; exists 0%nat; cbn [c_batch c_parsed c_retention]; rewrite drop_0; split_and!; [lia..|done|destruct (retention_exhausted r); naive_solver|done]].
  destruct (decide (next_item (c_batch c) bs = Incomplete)) as [E|E].
  { rewrite E in H. injection H as <- <-. exists 0%nat. cbn [c_batch c_parsed c_retention]. rewrite drop_0. split_and!; [lia..|done|done|done]. }
  pose proof (item_width_le _ _ Hb E) as Hw. pose proof (parses_item (c_batch c) (c_parsed c) bs E) as Hs.
  set (i := next_item _ bs) in *. clearbody i.
  assert (H' : (let '(ok, r) := retain_item b i r in
    if negb ok then (pos, mkCall (c_batch c) (c_parsed c) r)
    else parse_loop fuel (mkCall (item_state (c_batch c) i) (parsed_app (c_parsed c) (item_parsed i)) r)
           (drop (item_width i) bs) b (pos + item_width i)) = (n, c')) by (by destruct i). clear H.
  pose proof (retain_item_spec b i r) as (Hr1 & Hr2 & Hr3). destruct (retain_item b i r) as [ok r']; cbn [fst snd] in *.
  destruct ok; cbn [negb] in H'; [|injection H' as <- <-; exists 0%nat; cbn [c_batch c_parsed c_retention]; rewrite drop_0, Hr2 by done; by split_and!; [lia..| | |]].
  apply IH in H' as (k & -> & Hk & Hp & Hi & Hx); [|auto with emb|rewrite length_drop; lia].
  rewrite length_drop in Hk. rewrite drop_drop in Hp, Hi. exists (item_width i + k)%nat. cbn [c_batch c_parsed c_retention] in *.
  split_and!; [lia|lia|by eapply rtc_l|done|]. intros Hc. apply Hx, Hr3, Hq2, Hc.
Qed.

Lemma parse_contiguous_spec c bytes b n c' :
  byte_list bytes -> parse_contiguous c bytes b = (n, c') ->
  (n <= length bytes)%nat /\ rtc parses (c_batch c, c_parsed c, bytes) (c_batch c', c_parsed c', drop n bytes) /\
  (exhausted c' = false -> next_item (c_batch c') (drop n bytes) = Incomplete) /\
  (exhausted c = true -> exhausted c' = true).
Proof. intros Hb H. destruct (parse_loop_spec _ c bytes b 0 n c' Hb ltac:(done) H) as (k & -> & ?). done. Qed.

(** ** The carry *)
Definition dead (f : Feed) : Prop := exhausted (f_call f) = true.
Definition view (f : Feed) (input : list Z) : cursor := (c_batch (f_call f), c_parsed (f_call f), f_bytes f ++ input).
Definition carry_fits (capacity : option Z) (bytes : list Z) : Prop :=
  match capacity with Some n => size_of bytes <= n <= kMaxStreamBufferBytes | None => bytes = [] end.

Lemma append_carry_spec f bytes :
  go f = true -> byte_list (f_bytes f) -> size_of (f_bytes f) + size_of bytes <= frame_max -> carry_fits (f_carry f) (f_bytes f) ->
  let f' := append_carry f bytes in
  (dead f -> dead f') /\ (dead f' /\ go f' = false \/ go f' = true /\ view f' [] = view f bytes /\ carry_fits (f_carry f') (f_bytes f')).
Proof.
  rewrite frame_max_eq. intros Hg Hb Hsz Hfit. unfold append_carry, dead, exhausted, view.
  assert (0 <= size_of bytes /\ 0 <= size_of (f_bytes f)) by (unfold size_of; lia).
  pose proof (retention_query_spec (c_retention (f_call f))) as [Hq1 Hq2]. destruct (retention_query _) as [live r]; cbn [fst snd] in *.
  destruct live; cbn [negb]; [|cbn; destruct (retention_exhausted r); naive_solver].
  rewrite kMax_eq in *. rewrite (u64_id (2097152 - _)), (u64_id (_ + size_of bytes)) by (word_unfold; lia).
  destruct (_ >? _) eqn:E; bool_props; [lia|].
  assert (Hlen : size_of (f_bytes f ++ bytes) = size_of (f_bytes f) + size_of bytes) by (unfold size_of; rewrite length_app; lia).
  destruct (match f_carry f with Some _ => _ | None => _ end) eqn:E1.
  - cbn. split; [done|]. right. rewrite app_nil_r. split_and!; [done..|].
    destruct (f_carry f); [|done]. cbn in *. bool_props. rewrite Hlen, kMax_eq in *. lia.
  - pose proof (AllocateRetainedChunk_spec r) as [Ha1 Ha2]. destruct (AllocateRetainedChunk r) as [ok r']; cbn [fst snd] in *.
    destruct ok; cbn; [|destruct (retention_exhausted r'); naive_solver].
    split; [auto|]. right. rewrite app_nil_r, Hlen, kMax_eq. split_and!; [done..|lia|lia].
Qed.

Lemma parse_carry_spec f n f' :
  byte_list (f_bytes f) -> carry_fits (f_carry f) (f_bytes f) -> parse_carry f = (n, f') ->
  (n <= length (f_bytes f))%nat /\ f_bytes f' = drop n (f_bytes f) /\ go f' = go f /\
  rtc parses (view f []) (view f' []) /\ carry_fits (f_carry f') (f_bytes f') /\ (dead f -> dead f') /\
  (dead f' \/ stuck (view f' [])).
Proof.
  intros Hb Hfit. unfold parse_carry. destruct (parse_contiguous _ _ _) as [k c] eqn:E.
  apply parse_contiguous_spec in E as (Hk & Hp & Hi & Hx); [|done]. intros H.
  assert (n = k /\ go f' = go f /\ f_call f' = c /\ f_bytes f' = drop k (f_bytes f) /\ (f_carry f' = f_carry f \/ f_bytes f' = [] /\ f_carry f' = None)) as (-> & Hg & Hc & Hd & Hcar).
  { destruct (_ <=? _)%nat eqn:E1; injection H as <- <-; cbn; [|by split_and!; auto]. apply Nat.leb_le in E1. rewrite drop_ge by lia. split_and!; auto. }
  unfold view, dead, stuck. cbn [fst snd]. rewrite Hc, !app_nil_r, Hd. split_and!; [done..| | |].
  - destruct Hcar as [->|[Hnil ->]]; [|by rewrite <- Hd]. unfold carry_fits in *. destruct (f_carry f); [|by rewrite Hfit, drop_nil].
    unfold size_of in *. rewrite length_drop. lia.
  - done.
  - destruct (exhausted c); auto.
Qed.

Record feed_ok (f : Feed) : Prop := {
  fo_go : go f = true;
  fo_bytes : byte_list (f_bytes f);
  fo_fits : carry_fits (f_carry f) (f_bytes f);
  fo_short : size_of (f_bytes f) <= frame_max;
}.

Lemma view_app f a b : (view f a).1 = (view f (a ++ b)).1 /\ (view f (a ++ b)).2 = (view f a).2 ++ b.
Proof. unfold view. cbn. by rewrite app_assoc. Qed.

(** Steps on the carry are steps on the carry and the input behind it. *)
Lemma rtc_view f f' a b :
  byte_list (f_bytes f) -> rtc parses (view f []) (view f' a) -> rtc parses (view f b) (view f' (a ++ b)).
Proof.
  intros Hb H. apply (rtc_parses_app _ _ b) in H; [|unfold view; cbn; by rewrite app_nil_r].
  unfold view in *. cbn in *. by rewrite app_nil_r, <- app_assoc in H.
Qed.

(** The carry loop does nothing to the stream but parse it, and stops with the
    carry or the input used up. *)
Lemma carry_loop_spec fuel : forall f input f' input',
  feed_ok f -> byte_list input -> (2 * length input + length (f_bytes f) < fuel)%nat ->
  carry_loop fuel f input = (f', input') ->
  (dead f -> dead f') /\
  (dead f' \/ feed_ok f' /\ byte_list input' /\ rtc parses (view f input) (view f' input') /\ (f_bytes f' = [] \/ input' = [])).
Proof.
  induction fuel as [|fuel IH]; intros f input f' input' Hf Hin Hfuel H; [lia|]. cbn [carry_loop] in H.
  destruct (decide (f_bytes f = [] \/ input = [])) as [E|E].
  { assert ((f', input') = (f, input)) as [= -> ->] by (destruct (f_bytes f), input; naive_solver).
    split; [done|]. right. by split_and!. }
  destruct (parse_carry f) as [n g] eqn:Eg.
  assert (H' : (if (length (f_bytes f) <=? n)%nat then (g, input) else if (0 <? n)%nat then carry_loop fuel g input
    else let needed := carry_bytes_needed (c_batch (f_call g)) (f_bytes g) in
      let needed := if needed =? 0 then Z.min 8 (size_of input) else needed in
      let take_n := Z.to_nat (Z.min needed (size_of input)) in
      let g := append_carry g (take take_n input) in
      if negb (go g) then (g, input)
      else if size_of (f_bytes g) >? kMaxStreamBufferBytes then (reset_stream_state g, drop take_n input)
      else carry_loop fuel g (drop take_n input)) = (f', input')) by (destruct (f_bytes f), input; naive_solver). clear H.
  destruct Hf as [Hg Hb Hfit Hsh].
  destruct (parse_carry_spec f n g Hb Hfit Eg) as (Hn & Hd & Hgo & Hp & Hfit' & Hx & Hst).
  assert (Hok : feed_ok g).
  { constructor; [congruence|rewrite Hd; auto with emb|done|]. rewrite Hd. unfold size_of in *. rewrite length_drop. lia. }
  assert (Hp' : rtc parses (view f input) (view g input)) by (by apply (rtc_view f g [] input)).
  destruct (_ <=? n)%nat eqn:E1.
  { injection H' as <- <-. split; [done|]. right. apply Nat.leb_le in E1. split_and!; [done..|]. left. rewrite Hd. by apply drop_ge. }
  apply Nat.leb_gt in E1. destruct (0 <? n)%nat eqn:E2.
  { apply Nat.ltb_lt in E2. apply IH in H' as [H1 H2]; [|done..|rewrite Hd, length_drop; lia].
    split; [auto|]. destruct H2 as [?|(?&?&Hr&?)]; [by left|]. right. split_and!; [done..|by etrans|done]. }
  apply Nat.ltb_ge in E2. assert (n = 0)%nat as -> by lia. rewrite drop_0 in Hd. cbn zeta in H'.
  set (needed := carry_bytes_needed _ _) in *.
  set (t := Z.to_nat (Z.min (if needed =? 0 then _ else _) _)) in *.
  destruct Hst as [Hdead|Hst].
  { assert (Hap : append_carry g (take t input) = g <| go := false |>).
    { unfold append_carry. unfold dead, exhausted in Hdead. unfold retention_query. rewrite Hdead. cbn. by destruct g as [? ? ? []]. }
    rewrite Hap in H'. cbn in H'. injection H' as <- <-. split; [done|]. by left. }
  assert (Hneed : 0 < needed /\ size_of (f_bytes g) + needed <= frame_max).
  { apply incomplete_needs; [apply Hok|]. unfold stuck, view in Hst. cbn in Hst. by rewrite app_nil_r in Hst. }
  assert (Hlen : 0 < size_of input) by (unfold size_of; destruct input; [naive_solver|cbn; lia]).
  assert (Ht : (0 < t <= length input)%nat /\ Z.of_nat t <= needed) by (unfold t, size_of in *; replace (needed =? 0) with false by lia; lia).
  destruct (append_carry_spec g (take t input)) as [Hap1 Hap2]; [apply Hok..| |apply Hok|].
  { unfold size_of in *. rewrite length_take. lia. }
  set (h := append_carry g _) in *. clearbody h.
  destruct Hap2 as [[Hdead Hgh]|(Hgh & Hv & Hfh)]; rewrite Hgh in H'; cbn [negb] in H'.
  { injection H' as <- <-. split; [done|]. by left. }
  assert (Hbh : f_bytes h = f_bytes g ++ take t input) by (unfold view in Hv; injection Hv as _ _ Hv; by rewrite app_nil_r in Hv).
  assert (Hsh' : size_of (f_bytes h) <= frame_max) by (rewrite Hbh; unfold size_of in *; rewrite length_app, length_take; lia).
  rewrite kMax_eq in H'. rewrite frame_max_eq in Hsh'. replace (_ >? _) with false in H' by lia.
  apply IH in H' as [H1 H2]; [|constructor; [done| |done|by rewrite frame_max_eq]|auto with emb|].
  - split; [auto|]. destruct H2 as [?|(?&?&Hr&?)]; [by left|]. right. split_and!; [done..| |done].
    etrans; [exact Hp'|]. replace (view g input) with (view h (drop t input)); [done|].
    unfold view in *. injection Hv as -> -> _. by rewrite Hbh, <- app_assoc, take_drop.
  - rewrite Hbh. apply byte_list_app; [apply Hok|auto with emb].
  - rewrite Hbh, length_app, length_drop, length_take, Hd. lia.
Qed.

Lemma parse_input_spec f input n f' :
  f_bytes f = [] -> byte_list input -> parse_input f input = (n, f') ->
  (n <= length input)%nat /\ f_bytes f' = [] /\ f_carry f' = f_carry f /\ go f' = go f /\
  rtc parses (view f input) (view f' (drop n input)) /\ (dead f -> dead f') /\ (dead f' \/ stuck (view f' (drop n input))).
Proof.
  intros Hnil Hin. unfold parse_input. destruct (parse_contiguous _ _ _) as [k c] eqn:E. intros [= <- <-].
  apply parse_contiguous_spec in E as (Hk & Hp & Hi & Hx); [|done]. unfold view, dead, stuck. cbn. rewrite Hnil. cbn.
  split_and!; [done..|]. destruct (exhausted c); auto.
Qed.

(** The end of a call: the state is live and everything that could be parsed
    was parsed, or memory ran out. *)
Definition fed (f : Feed) (data : list Z) (f' : Feed) : Prop :=
  dead f' \/ feed_ok f' /\ rtc parses (view f data) (view f' []) /\ stuck (view f' []).

(** What the input leaves becomes the carry. *)
Lemma keep_rest f input n g :
  feed_ok f -> f_bytes f = [] -> byte_list input -> parse_input f input = (n, g) ->
  fed f input (if (n <? length input)%nat then append_carry g (drop n input) else g).
Proof.
  intros Hok Hnil Hin E. destruct (parse_input_spec f input n g Hnil Hin E) as (Hn & Hnil' & Hcap & Hgo & Hp & Hx & Hst).
  assert (Hok' : feed_ok g).
  { destruct Hok as [H1 H2 H3 H4]. rewrite Hnil in *. constructor; rewrite ?Hnil', ?Hcap, ?Hgo; done. }
  unfold fed. destruct (n <? length input)%nat eqn:E1.
  - apply Nat.ltb_lt in E1. destruct Hst as [Hdead|Hst].
    { left. unfold append_carry, dead, exhausted, retention_query in *. by rewrite Hdead. }
    assert (Hlt : size_of (drop n input) < frame_max).
    { apply (incomplete_short (c_batch (f_call g))); [auto with emb|]. unfold stuck, view in Hst. by rewrite Hnil' in Hst. }
    destruct (append_carry_spec g (drop n input)) as [H1 H2]; [apply Hok'..| |apply Hok'|].
    { rewrite Hnil'. unfold size_of in *. cbn. lia. }
    destruct H2 as [[? _]|(Hgh & Hv & Hfit)]; [by left|]. right. rewrite Hv.
    assert (Hb : f_bytes (append_carry g (drop n input)) = drop n input).
    { unfold view in Hv. injection Hv as _ _ Hv. by rewrite Hnil', app_nil_r in Hv. }
    split_and!; [|done..]. constructor; [done|rewrite Hb; auto with emb|done|]. rewrite Hb. lia.
  - apply Nat.ltb_ge in E1. rewrite drop_ge in * by lia. destruct Hst as [?|?]; [by left|]. right. by split_and!.
Qed.

Lemma feed_fresh_spec f data :
  feed_ok f -> f_bytes f = [] -> byte_list data -> is_u64 (size_of data) -> fed f data (feed_fresh f data).
Proof.
  intros Hok Hnil Hin Hsz. unfold feed_fresh. destruct (parse_input f data) as [n g] eqn:E.
  pose proof (keep_rest f data n g Hok Hnil Hin E) as Hk.
  destruct (n <? length data)%nat eqn:E1; [|done]. destruct (_ >? _) eqn:E2; [|done]. left.
  destruct (parse_input_spec f data n g Hnil Hin E) as (Hn & Hnil' & Hcap & Hgo & Hp & Hx & Hst).
  destruct Hst as [Hdead|Hst]; [done|]. exfalso. unfold stuck, view in Hst. cbn in Hst. rewrite Hnil' in Hst. cbn in Hst.
  apply incomplete_short in Hst; [|auto with emb]. rewrite kMax_eq, frame_max_eq, Z.gtb_ltb in *. bool_props.
  unfold size_of in *. rewrite length_drop in Hst. apply Nat.ltb_lt in E1. rewrite u64_id in E2 by (word_unfold; lia). lia.
Qed.

(** Nothing is parsed or kept once memory has run out. *)
Lemma parse_contiguous_dead c bytes b : exhausted c = true -> parse_contiguous c bytes b = (0%nat, c).
Proof.
  unfold exhausted, parse_contiguous. intros H. destruct bytes as [|x bytes]; [done|]. cbn. unfold retention_query. rewrite H. cbn. by destruct c.
Qed.
Lemma parse_carry_dead f : dead f -> dead (parse_carry f).2.
Proof. intros H. unfold parse_carry. rewrite parse_contiguous_dead by done. case_match; done. Qed.
Lemma parse_input_dead f input : dead f -> dead (parse_input f input).2.
Proof. intros H. unfold parse_input. by rewrite parse_contiguous_dead. Qed.
Lemma append_carry_dead f bytes : dead f -> dead (append_carry f bytes).
Proof. unfold append_carry, dead, exhausted, retention_query. intros H. by rewrite H. Qed.

Lemma feed_behind_carry_spec f data :
  feed_ok f -> data <> [] -> byte_list data -> fed f data (feed_behind_carry f data).
Proof.
  intros Hok Hne Hin. unfold feed_behind_carry. destruct (carry_loop _ f data) as [g input] eqn:E.
  apply carry_loop_spec in E as [Hx Hc]; [|done..|lia].
  destruct Hc as [Hdead|(Hg & Hin' & Hp & Hend)].
  { left. destruct (go g); cbn [negb]; [|done].
    set (h := match f_bytes g with [] => g | _ => _ end). assert (Hh : dead h) by (unfold h; repeat case_match; auto using parse_carry_dead).
    destruct (f_bytes h), input as [|x input]; auto. pose proof (parse_input_dead h (x :: input) Hh) as Hd.
    destruct (parse_input h _) as [n k]. case_match; auto using append_carry_dead. }
  rewrite (fo_go _ Hg). cbn [negb].
  assert (Hh : exists h, match f_bytes g, input with _ :: _, [] => (parse_carry g).2 | _, _ => g end = h /\
    (dead h \/ feed_ok h /\ rtc parses (view f data) (view h input) /\ (f_bytes h = [] \/ input = [] /\ stuck (view h [])))).
  { eexists. split; [done|]. destruct (f_bytes g) as [|x bs] eqn:Eb; [right; by rewrite Eb; auto|].
    destruct Hend as [|Hend]; [done|]. subst input. destruct (parse_carry g) as [n h] eqn:Eh.
    destruct (parse_carry_spec g n h) as (Hn & Hd & Hgo & Hp' & Hfit & _ & Hst); [apply Hg..|done|]. cbn [snd].
    destruct Hst as [?|Hst]; [by left|]. right. split_and!; [|by etrans|by right].
    destruct Hg as [G1 G2 G3 G4]. constructor; [congruence|rewrite Hd; auto with emb|done|]. rewrite Hd. unfold size_of in *. rewrite length_drop. lia. }
  destruct Hh as (h & -> & Hh). destruct Hh as [Hdead|(Hh & Hp' & Hend')].
  { left. destruct (f_bytes h), input as [|x input]; auto. pose proof (parse_input_dead h (x :: input) Hdead).
    destruct (parse_input h _) as [n k]. case_match; auto using append_carry_dead. }
  destruct Hend' as [Hnil|[-> Hst]].
  - rewrite Hnil. destruct input as [|x input].
    { right. split_and!; [done..|]. unfold stuck, view. rewrite Hnil. apply next_item_nil. }
    destruct (parse_input h _) as [n k] eqn:E. destruct (keep_rest h (x :: input) n k) as [Hd|(H1 & H2 & H3)]; [done..|by left|].
    right. split_and!; [done|by etrans|done].
  - destruct (f_bytes h); right; by split_and!.
Qed.

(** ** A call, and a connection's calls *)
Definition stream_ok (state : StreamParseState) : Prop :=
  byte_list (carry_bytes state) /\ carry_fits (carry state) (carry_bytes state) /\
  next_item (batch_state state) (carry_bytes state) = Incomplete.

Abbreviation staged := (option (list (Z * OwnedMessage) * list Z)).
Definition staged_parsed (st : staged) (errors : Z) : Parsed :=
  match st with Some (msgs, gaps) => mkParsed msgs gaps errors | None => mkParsed [] [] errors end.

Lemma ParseAndStageOrderedBytes_spec state data r state' st errors r' :
  stream_ok state -> byte_list data -> is_u64 (size_of data) ->
  ParseAndStageOrderedBytes state data r = (state', st, errors, r') ->
  (retention_exhausted r = true -> retention_exhausted r' = true) /\
  (retention_exhausted r' = true /\ st = None \/
   retention_exhausted r' = false /\ stream_ok state' /\
   rtc parses (batch_state state, parsed_nil, carry_bytes state ++ data)
     (batch_state state', staged_parsed st errors, carry_bytes state')).
Proof.
  intros (Hb & Hfit & Hst) Hd Hsz. unfold ParseAndStageOrderedBytes. destruct (length data =? 0)%nat eqn:E0.
  { intros [= <- <- <- <-]. apply Nat.eqb_eq, length_zero_iff_nil in E0. subst data. rewrite app_nil_r. split; [done|].
    destruct (retention_exhausted r); [by left|right]. by split_and!. }
  assert (Hne : data <> []) by (intros ->; done).
  pose proof (retention_query_spec r) as [Hq1 Hq2]. destruct (retention_query r) as [live r1]; cbn [fst snd] in *.
  destruct live; cbn [negb]; [|intros [= <- <- <- <-]; destruct (retention_exhausted r1); naive_solver].
  pose proof (AllocateRetainedChunk_spec r1) as [Ha1 Ha2]. destruct (AllocateRetainedChunk r1) as [ok r2]; cbn [fst snd] in *.
  destruct ok; cbn [negb]; [|intros [= <- <- <- <-]; destruct (retention_exhausted r2); naive_solver].
  set (f := mkFeed true (carry state) (carry_bytes state) (mkCall (batch_state state) parsed_nil r2)).
  assert (Hf : feed_ok f) by (constructor; [done..|]; pose proof (incomplete_short _ _ Hb Hst); cbn; lia).
  assert (Hfed : fed f data (match carry_bytes state with [] => feed_fresh f data | _ => feed_behind_carry f data end)).
  { case_match; [apply feed_fresh_spec; done|by apply feed_behind_carry_spec]. }
  set (g := match carry_bytes state with [] => _ | _ => _ end) in *. clearbody g.
  assert (Hlive : retention_exhausted r = false) by (destruct (retention_exhausted r), (retention_exhausted r1); naive_solver).
  destruct Hfed as [Hdead|(Hg & Hp & Hs)].
  { intros H. split; [congruence|]. left. destruct (go g); cbn [negb] in H; [|by simplify_eq].
    unfold retention_query in H. unfold dead, exhausted in Hdead. rewrite Hdead in H. cbn in H. by simplify_eq. }
  rewrite (fo_go _ Hg). cbn [negb].
  pose proof (retention_query_spec (c_retention (f_call g))) as [Hl1 Hl2]. destruct (retention_query _) as [live r3]; cbn [fst snd] in *.
  destruct live; cbn [negb]; intros [= <- <- <- <-]; [|destruct (retention_exhausted r3); naive_solver].
  split; [congruence|]. right. split; [by destruct (retention_exhausted r3)|]. unfold stuck, view in *. cbn in *. rewrite app_nil_r in *.
  split; [by split_and!; [apply Hg..|]|]. by destruct (c_parsed (f_call g)).
Qed.

Lemma ParseAndStage_dead state data r :
  retention_exhausted r = true -> ParseAndStageOrderedBytes state data r = (state, None, 0, r).
Proof. intros H. unfold ParseAndStageOrderedBytes, retention_query. rewrite H. by case_match. Qed.

(** The calls of one connection: what they staged, and the errors counted. *)
Definition feed_step (x : StreamParseState * Parsed * Retention) (data : list Z) : StreamParseState * Parsed * Retention :=
  let '(state, out, r) := x in
  let '(state, st, errors, r) := ParseAndStageOrderedBytes state data r in
  (state, parsed_app out (staged_parsed st errors), r).
Definition feed_chunks (chunks : list (list Z)) (r : Retention) : StreamParseState * Parsed * Retention :=
  fold_left feed_step chunks (StreamParseState_init, parsed_nil, r).

Definition parsed_prefix (a b : Parsed) : Prop :=
  parsed_messages a `prefix_of` parsed_messages b /\ gap_batch_starts a `prefix_of` gap_batch_starts b.

Lemma parses_prefix x y : parses x y -> parsed_prefix x.1.2 y.1.2.
Proof. intros [s o bs H]. split; cbn; apply prefix_app_r; done. Qed.
Lemma rtc_parses_out x y : rtc parses x y -> parsed_prefix x.1.2 y.1.2.
Proof.
  induction 1 as [x|x y z H _ [IH1 IH2]]; [done|]. apply parses_prefix in H as [H1 H2]. split; by etrans.
Qed.

Definition chunk_ok (data : list Z) : Prop := byte_list data /\ is_u64 (size_of data).

Lemma chunks_bytes chunks : Forall chunk_ok chunks -> byte_list (concat chunks).
Proof. induction 1 as [|c cs [Hc _] _ IH]; [constructor|]. cbn. auto with emb. Qed.

Lemma feed_chunks_spec chunks r state out r' :
  Forall chunk_ok chunks -> feed_chunks chunks r = (state, out, r') ->
  exists b o rest, rtc parses (batch_state StreamParseState_init, parsed_nil, concat chunks) (b, o, rest) /\
    parsed_prefix out o /\
    (retention_exhausted r' = false -> stream_ok state /\ b = batch_state state /\ o = out /\ rest = carry_bytes state).
Proof.
  revert state out r'. induction chunks as [|data chunks IH] using rev_ind; intros state out r' Hc H.
  { injection H as <- <- <-. eexists _, _, _. split; [done|]. split; [done|]. intros _. split_and!; [|done..]. by split; [constructor|]. }
  apply Forall_app in Hc as [Hc Hd]. apply Forall_cons_1 in Hd as [[Hb Hsz] _].
  unfold feed_chunks in H. rewrite fold_left_app in H. fold (feed_chunks chunks r) in H. cbn [fold_left feed_step] in H.
  destruct (feed_chunks chunks r) as [[s1 o1] r1] eqn:E1. destruct (IH _ _ _ Hc eq_refl) as (b & o & rest & Hp & Hpre & Hlive).
  cbn [feed_step] in H. destruct (ParseAndStageOrderedBytes s1 data r1) as [[[s2 st] errs] r2] eqn:E2. injection H as <- <- <-.
  assert (Hp' : rtc parses (batch_state StreamParseState_init, parsed_nil, concat (chunks ++ [data])) (b, o, rest ++ data)).
  { rewrite concat_app. cbn [concat]. rewrite app_nil_r. exact (rtc_parses_app _ _ data Hp (chunks_bytes _ Hc)). }
  destruct (retention_exhausted r1) eqn:Er1.
  { rewrite ParseAndStage_dead in E2 by done. injection E2 as <- <- <- <-. exists b, o, (rest ++ data).
    split; [done|]. split; [|congruence]. cbn. by rewrite parsed_app_nil_r. }
  destruct (Hlive eq_refl) as (Hok & -> & -> & ->). apply ParseAndStageOrderedBytes_spec in E2 as [_ Hr]; [|done..].
  destruct Hr as [[Hr ->]|(Hr & Hok2 & Hp2)].
  { exists (batch_state s1), o1, (carry_bytes s1 ++ data). split; [done|]. split; [|congruence].
    split; cbn; by rewrite app_nil_r. }
  eexists _, _, _. split; [etrans; [exact Hp'|]|split; [|done]].
  - apply (rtc_parses_prefix o1) in Hp2. by rewrite parsed_app_nil_r in Hp2.
  - done.
Qed.

(** C18. However the bytes are cut into chunks, the calls stage what one parse of the
    whole stream gives; a call that runs out of memory stages nothing, and what
    was staged before it is a prefix. *)
Theorem chunks_parse_as_one_stream chunks r state out r' b o rest :
  Forall chunk_ok chunks -> feed_chunks chunks r = (state, out, r') ->
  parse_stream (batch_state StreamParseState_init) (concat chunks) = (b, o, rest) ->
  parsed_prefix out o /\
  (retention_exhausted r' = false -> batch_state state = b /\ out = o /\ carry_bytes state = rest).
Proof.
  intros Hc Hf Hs. destruct (feed_chunks_spec _ _ _ _ _ Hc Hf) as (b1 & o1 & rest1 & Hp & Hpre & Hlive).
  destruct (scan_spec (length (concat chunks)) (batch_state StreamParseState_init) parsed_nil (concat chunks)) as [Hp2 Hst].
  { by apply chunks_bytes. } { done. }
  fold (parse_stream (batch_state StreamParseState_init) (concat chunks)) in Hp2, Hst. rewrite Hs in Hp2, Hst.
  pose proof (rtc_parses_out _ _ (rtc_parses_stuck _ _ _ Hp Hp2 Hst)) as [H1 H2]. destruct Hpre as [H3 H4].
  split; [split; by etrans|]. intros Hl. destruct (Hlive Hl) as ((Hok1 & Hok2 & Hok3) & -> & -> & ->).
  pose proof (stuck_unique _ _ _ Hp Hp2 Hok3 Hst). by simplify_eq.
Qed.

(** * What a broker sends parses back

    A batch on the wire is its metadata and then its messages. *)
Definition wf_frame (v : Z) (frame : list Z) : Prop :=
  byte_list frame /\ 64 <= size_of frame /\ frame_stride v frame = Some (size_of frame).
Definition encode_batch (meta : BatchMetadata) (frames : list (list Z)) : list Z :=
  BatchMetadata_bytes meta ++ concat frames.
Definition wf_batch (meta : BatchMetadata) (frames : list (list Z)) : Prop :=
  Forall field_wf (BatchMetadata_fields meta) /\ valid_metadata meta = true /\
  num_messages meta = Z.of_nat (length frames) /\ Forall (wf_frame (header_version meta)) frames.

(** The messages with the orders a subscriber gives them. *)
Fixpoint frame_messages (v next : Z) (frames : list (list Z)) : list (Z * OwnedMessage) :=
  match frames with
  | [] => []
  | frame :: frames =>
      let total_order := ReadWireField 8 frame 32 in
      if total_order =? 0 then (next, mkOwnedMessage v (WriteWireField 8 frame 32 next)) :: frame_messages v (next +u 1) frames
      else (total_order, mkOwnedMessage v frame) :: frame_messages v (total_order +u 1) frames
  end.
Definition batch_parsed (meta : BatchMetadata) (frames : list (list Z)) : Parsed :=
  mkParsed (frame_messages (header_version meta) (batch_total_order meta) frames)
    (if Z.land (flags meta) BATCH_META_FLAG_EXPORT_GAP =? 0 then [] else [batch_total_order meta]) 0.

Lemma BatchMetadata_read_bytes meta rest :
  Forall field_wf (BatchMetadata_fields meta) -> BatchMetadata_read (BatchMetadata_bytes meta ++ rest) = meta.
Proof.
  intros Hf. unfold BatchMetadata_read, BatchMetadata_bytes, ReadWireField.
  assert (H : forall i n v, BatchMetadata_fields meta !! i = Some (n, v) ->
    get_le n (drop (fields_width (take i (BatchMetadata_fields meta))) (fields_bytes (BatchMetadata_fields meta) ++ rest)) = v).
  { intros i n v Hi. apply get_le_field; [done|]. exact (Forall_lookup_1 _ _ _ _ Hf Hi). }
  transitivity (mkBatchMetadata (batch_total_order meta) (num_messages meta) (header_version meta) (flags meta)); [|by destruct meta].
  f_equal; [exact (H 0%nat _ _ eq_refl)|exact (H 1%nat _ _ eq_refl)|exact (H 2%nat _ _ eq_refl)|exact (H 3%nat _ _ eq_refl)].
Qed.

Lemma BatchMetadata_length meta : length (BatchMetadata_bytes meta) = 16%nat.
Proof. unfold BatchMetadata_bytes. by rewrite fields_bytes_length. Qed.

Lemma size_of_app a b : size_of (a ++ b) = size_of a + size_of b.
Proof. unfold size_of. rewrite length_app. lia. Qed.

Lemma parses_metadata s o meta rest :
  has_pending_metadata s = false -> Forall field_wf (BatchMetadata_fields meta) -> valid_metadata meta = true ->
  parses (s, o, BatchMetadata_bytes meta ++ rest)
    (mkBatchMetadataState true meta 0 (batch_total_order meta), parsed_app o (item_parsed (Metadata meta)), rest).
Proof.
  intros Hs Hf Hv. assert (E : next_item s (BatchMetadata_bytes meta ++ rest) = Metadata meta).
  { unfold next_item. rewrite Hs, BatchMetadata_read_bytes, Hv by done. cbn [negb].
    replace (_ <? 16) with false; [done|]. rewrite size_of_app. unfold size_of. rewrite BatchMetadata_length. symmetry. apply Z.ltb_ge. lia. }
  pose proof (parses_item s o (BatchMetadata_bytes meta ++ rest)) as H. rewrite E in H.
  cbn [item_state item_width] in H. rewrite drop_app_length' in H by by rewrite BatchMetadata_length. by apply H.
Qed.

(** One message of a batch. *)
Lemma parses_message s o frame rest :
  has_pending_metadata s = true -> wf_frame (header_version (pending_metadata s)) frame ->
  let ms := frame_messages (header_version (pending_metadata s)) (next_message_order_in_batch s) [frame] in
  exists t m, ms = [(t, m)] /\
  parses (s, o, frame ++ rest) (item_state s (Message (size_of frame) t m), parsed_app o (mkParsed ms [] 0), rest).
Proof.
  intros Hs (Hb & Hlen & Hf). set (v := header_version _) in *.
  assert (E : next_item s (frame ++ rest) = owned_message s (size_of frame) frame).
  { unfold next_item. rewrite Hs. cbn [negb]. fold v. rewrite frame_stride_app, Hf, owned_message_app, size_of_app by lia.
    assert (0 <= size_of rest) by (unfold size_of; lia).
    replace (_ <? 64) with false by lia. by replace (_ <? size_of frame) with false by lia. }
  assert (Ht : take (Z.to_nat (size_of frame)) frame = frame) by (apply take_ge; unfold size_of; lia).
  pose proof (parses_item s o (frame ++ rest)) as H. rewrite E in H. unfold owned_message in H. rewrite Ht in H.
  cbn [frame_messages]. fold v in H. cbn zeta. destruct (_ =? 0); cbn [item_width item_parsed] in H;
    rewrite drop_app_length' in H by (unfold size_of; lia); do 2 eexists; (split; [done|]); by apply H.
Qed.

Lemma frame_messages_cons v next frame frames t m :
  frame_messages v next [frame] = [(t, m)] ->
  frame_messages v next (frame :: frames) = (t, m) :: frame_messages v (t +u 1) frames.
Proof. cbn. destruct (_ =? 0); by intros [= <- <-]. Qed.

Lemma parses_messages frames : forall s o rest,
  has_pending_metadata s = true -> frames <> [] -> 0 <= current_batch_messages_processed s ->
  num_messages (pending_metadata s) = current_batch_messages_processed s + Z.of_nat (length frames) ->
  num_messages (pending_metadata s) <= MAX_BATCH_MESSAGES ->
  Forall (wf_frame (header_version (pending_metadata s))) frames ->
  exists s', has_pending_metadata s' = false /\
    rtc parses (s, o, concat frames ++ rest)
      (s', parsed_app o (mkParsed (frame_messages (header_version (pending_metadata s)) (next_message_order_in_batch s) frames) [] 0), rest).
Proof.
  unfold MAX_BATCH_MESSAGES.
  induction frames as [|frame frames IH]; intros s o rest Hs Hne H0 Hn Hmax Hwf; [done|].
  apply Forall_cons in Hwf as [Hw Hwf]. cbn [length] in Hn.
  destruct (parses_message s o frame (concat frames ++ rest) Hs Hw) as (t & m & Hm & Hp). cbn zeta in Hp.
  rewrite (frame_messages_cons _ _ _ _ _ _ Hm), Hm in *. cbn [concat]. rewrite <- app_assoc.
  destruct frames as [|frame' frames].
  - eexists. split; [|eapply rtc_l; [exact Hp|done]]. cbn. rewrite u64_id by (word_unfold; lia). cbn in Hn. lia.
  - destruct (IH (item_state s (Message (size_of frame) t m)) (parsed_app o (mkParsed [(t, m)] [] 0)) rest) as (s' & Hs' & Hp');
      [..|exists s'; split; [done|]].
    1-6: cbn [item_state has_pending_metadata current_batch_messages_processed pending_metadata]; rewrite ?u64_id by (word_unfold; lia);
      try done; try (cbn [length] in *; lia).
    eapply rtc_l; [exact Hp|]. rewrite <- parsed_app_assoc in Hp'. exact Hp'.
Qed.

Lemma parses_batch s o meta frames rest :
  has_pending_metadata s = false -> wf_batch meta frames ->
  exists s', has_pending_metadata s' = false /\
    rtc parses (s, o, encode_batch meta frames ++ rest) (s', parsed_app o (batch_parsed meta frames), rest).
Proof.
  intros Hs (Hf & Hv & Hn & Hw). assert (0 < num_messages meta <= MAX_BATCH_MESSAGES) by (unfold valid_metadata in Hv; bool_props; lia).
  destruct (parses_messages frames (mkBatchMetadataState true meta 0 (batch_total_order meta))
    (parsed_app o (item_parsed (Metadata meta))) rest) as (s' & Hs' & Hp); try done; cbn [pending_metadata]; try lia.
  { intros ->. cbn in Hn. lia. }
  exists s'. split; [done|]. unfold encode_batch. rewrite <- app_assoc. eapply rtc_l; [by apply parses_metadata|].
  rewrite <- parsed_app_assoc in Hp. unfold parsed_app at 3 in Hp. cbn in Hp. rewrite app_nil_r in Hp. exact Hp.
Qed.

Abbreviation wire_batch := (BatchMetadata * list (list Z))%type.
Definition encode_stream (bs : list wire_batch) : list Z := concat ((fun b => encode_batch b.1 b.2) <$> bs).
Definition stream_parsed (bs : list wire_batch) : Parsed := foldr (fun b o => parsed_app (batch_parsed b.1 b.2) o) parsed_nil bs.

Lemma parses_stream bs : forall s o rest,
  has_pending_metadata s = false -> Forall (fun b => wf_batch b.1 b.2) bs ->
  exists s', has_pending_metadata s' = false /\
    rtc parses (s, o, encode_stream bs ++ rest) (s', parsed_app o (stream_parsed bs), rest).
Proof.
  induction bs as [|[meta frames] bs IH]; intros s o rest Hs Hw.
  { exists s. split; [done|]. cbn. by rewrite parsed_app_nil_r. }
  apply Forall_cons in Hw as [Hb Hw]. destruct (parses_batch s o meta frames (encode_stream bs ++ rest) Hs Hb) as (s1 & Hs1 & H1).
  destruct (IH s1 (parsed_app o (batch_parsed meta frames)) rest Hs1 Hw) as (s2 & Hs2 & H2).
  exists s2. split; [done|]. unfold encode_stream. cbn [fmap list_fmap concat fst snd]. rewrite <- app_assoc.
  etrans; [exact H1|]. cbn [stream_parsed foldr fst snd]. by rewrite parsed_app_assoc.
Qed.

Lemma stream_parsed_errors bs : parse_errors (stream_parsed bs) = 0.
Proof. induction bs as [|b bs IH]; [done|]. cbn [stream_parsed foldr parsed_app parse_errors batch_parsed]. fold (stream_parsed bs). by rewrite IH. Qed.

(** C19. A stream of batches that the parser's limits admit - 1 to 10000 messages,
    a first order below 10^8, a known header version, frames of at least 64
    bytes as long as their headers say - is received in any chunks.  What is
    staged is a prefix of its messages; if the memory was not exhausted it is
    exactly its messages, without a parse error and with an empty carry. *)
Theorem encoded_stream_roundtrip bs chunks r state out r' :
  Forall (fun b => wf_batch b.1 b.2) bs -> Forall chunk_ok chunks -> concat chunks = encode_stream bs ->
  feed_chunks chunks r = (state, out, r') ->
  parsed_prefix out (stream_parsed bs) /\
  (retention_exhausted r' = false -> out = stream_parsed bs /\ parse_errors out = 0 /\ carry_bytes state = []).
Proof.
  intros Hw Hc He Hf. destruct (feed_chunks_spec _ _ _ _ _ Hc Hf) as (b & o & rest & Hp & Hpre & Hlive).
  destruct (parses_stream bs (batch_state StreamParseState_init) parsed_nil [] eq_refl Hw) as (s' & Hs' & Hp').
  rewrite parsed_app_nil, app_nil_r, <- He in Hp'.
  assert (Hst : stuck (s', stream_parsed bs, [])) by apply next_item_nil.
  pose proof (rtc_parses_out _ _ (rtc_parses_stuck _ _ _ Hp Hp' Hst)) as [H1 H2]. destruct Hpre as [H3 H4].
  split; [split; by etrans|]. intros Hl. destruct (Hlive Hl) as ((Hok1 & Hok2 & Hok3) & -> & -> & ->).
  pose proof (stuck_unique _ _ _ Hp Hp' Hok3 Hst) as Heq. assert (out = stream_parsed bs) as -> by congruence.
  split_and!; [done|apply stream_parsed_errors|congruence].
Qed.

(** ** Examples *)

(** A message of 10 bytes in a frame of 128. *)
Definition demo_frame (b : Z) : list Z := BlogMessageHeader_bytes (mkBlogMessageHeader 10 1 0 0 0 0 0 0 7 0 0) ++ replicate 64 b.
Lemma demo_frame_wf b : 0 <= b < 256 -> wf_frame HEADER_VERSION_V2 (demo_frame b).
Proof.
  intros Hb. split; [|split; vm_compute; done].
  apply byte_list_app; [apply byte_list_check; vm_compute; done|]. apply Forall_replicate. lia.
Qed.

Definition demo_meta : BatchMetadata := mkBatchMetadata 40 2 2 0.
Definition demo_stream : list Z := encode_stream [(demo_meta, [demo_frame 1; demo_frame 2])].
Definition demo_chunks : list (list Z) := [take 7 demo_stream; take 200 (drop 7 demo_stream); drop 207 demo_stream].
Definition demo_retention : Retention := mkRetention false [].

Lemma demo_chunks_concat : concat demo_chunks = demo_stream.
Proof. by vm_compute. Qed.
Lemma demo_chunks_ok : Forall chunk_ok demo_chunks.
Proof. repeat (apply Forall_cons_2; [split; [apply byte_list_check; vm_compute; reflexivity|vm_compute; split; congruence]|]). constructor. Qed.
Lemma demo_wire_batch_ok : wf_batch demo_meta [demo_frame 1; demo_frame 2].
Proof. split_and!; [|done..|]; [repeat (apply Forall_cons_2; [split; vm_compute; congruence|]); constructor|]. forall_list; apply demo_frame_wf; lia. Qed.

Lemma chunks_parse_as_one_stream_witness :
  exists state out r' b o rest, feed_chunks demo_chunks demo_retention = (state, out, r') /\
    parse_stream (batch_state StreamParseState_init) (concat demo_chunks) = (b, o, rest) /\
    length (parsed_messages out) = 2%nat /\ batch_state state = b /\ out = o /\ carry_bytes state = rest.
Proof.
  destruct (feed_chunks demo_chunks demo_retention) as [[state out] r'] eqn:E.
  destruct (parse_stream (batch_state StreamParseState_init) (concat demo_chunks)) as [[b o] rest] eqn:Es.
  assert (H : let '(_, out, r) := feed_chunks demo_chunks demo_retention in
    (length (parsed_messages out), retention_exhausted r) = (2%nat, false)) by (vm_compute; reflexivity). rewrite E in H.
  exists state, out, r', b, o, rest. split; [done|]. split; [done|]. split; [congruence|].
  apply (chunks_parse_as_one_stream _ _ _ _ _ _ _ _ demo_chunks_ok E Es). congruence.
Defined.

Lemma encoded_stream_roundtrip_witness :
  exists state out r', feed_chunks demo_chunks demo_retention = (state, out, r') /\
    out = stream_parsed [(demo_meta, [demo_frame 1; demo_frame 2])] /\ parse_errors out = 0 /\ carry_bytes state = [].
Proof.
  destruct (feed_chunks demo_chunks demo_retention) as [[state out] r'] eqn:E.
  assert (H : let '(_, _, r) := feed_chunks demo_chunks demo_retention in retention_exhausted r = false) by (vm_compute; reflexivity). rewrite E in H.
  exists state, out, r'. split; [done|].
  apply (encoded_stream_roundtrip [(demo_meta, [demo_frame 1; demo_frame 2])] demo_chunks demo_retention state out r');
    [by apply Forall_singleton, demo_wire_batch_ok|exact demo_chunks_ok|exact demo_chunks_concat|exact E|exact H].
Defined.

(** The limits of a batch's metadata: the metadata of a batch of more than
    10000 messages, or whose first order is 100000000 or more, is skipped as
    garbage. *)
Lemma oversized_metadata_is_garbage s meta rest :
  has_pending_metadata s = false -> Forall field_wf (BatchMetadata_fields meta) ->
  MAX_BATCH_MESSAGES < num_messages meta \/ MAX_BATCH_TOTAL_ORDER <= batch_total_order meta ->
  next_item s (BatchMetadata_bytes meta ++ rest) = Garbage.
Proof.
  intros Hs Hf Hl. unfold next_item. rewrite Hs, BatchMetadata_read_bytes by done. cbn [negb].
  replace (_ <? 16) with false by (rewrite size_of_app; unfold size_of; rewrite BatchMetadata_length; symmetry; apply Z.ltb_ge; lia).
  replace (valid_metadata meta) with false; [done|]. symmetry. unfold valid_metadata.
  apply andb_false_iff. destruct Hl; [left; apply andb_false_iff; right; apply Z.leb_gt; lia|right; apply Z.ltb_ge; lia].
Qed.

(** A publisher's batch of more than 10000 messages passes the broker's checks
    of its envelope where the batch buffer is large enough, and every subscriber
    skips its metadata. *)
Theorem accepted_batch_is_refused_by_subscriber max_bytes client s t rest :
  128 * (MAX_BATCH_MESSAGES + 1) <= max_bytes -> has_pending_metadata s = false -> is_u64 t ->
  exists batch, network.ValidBatchEnvelope batch max_bytes client = true /\
    next_item s (BatchMetadata_bytes (mkBatchMetadata t (network.num_msg batch) HEADER_VERSION_V2 0) ++ rest) = Garbage.
Proof.
  intros Hm Hs Ht. exists (network.mkBatchHeader 0 client (MAX_BATCH_MESSAGES + 1) 0 0 0 (128 * (MAX_BATCH_MESSAGES + 1)) 0).
  unfold MAX_BATCH_MESSAGES in *. split.
  - unfold network.ValidBatchEnvelope. cbn. rewrite Z.eqb_refl. cbn. by replace (_ <=? max_bytes) with true by lia.
  - apply oversized_metadata_is_garbage; [done| |by left].
    unfold BatchMetadata_fields. forall_list; [by apply u64_bytes|split; vm_compute; congruence..].
Qed.
Lemma accepted_batch_is_refused_by_subscriber_witness :
  exists batch, network.ValidBatchEnvelope batch (2 * 1024 * 1024) 7 = true /\
    next_item (batch_state StreamParseState_init)
      (BatchMetadata_bytes (mkBatchMetadata 0 (network.num_msg batch) HEADER_VERSION_V2 0) ++ demo_frame 1) = Garbage.
Proof. apply accepted_batch_is_refused_by_subscriber; [vm_compute; congruence|reflexivity|word_unfold; lia]. Defined.
