(* ===== verification/Delivery.v ===== *)
(** Ordered delivery in a subscriber (src/client/subscriber.cc): the messages
    that the receivers stage are put in their slots of a reorder buffer, and
    the consumer takes the contiguous prefix. *)

From S2P Require Import Prelude Bytes Wire StreamParser.

(** The ordered part of [Subscriber]; [pending_messages] is the deque whose
    front has order [pending_messages_base_order]. *)
Record Subscriber := mkSubscriber {
  next_expected_order : Z;
  ordered_received_messages : Z;
  ordered_duplicate_messages : Z;
  ordered_parse_errors : Z;
  ordered_export_gaps_reported : Z;
  pending_messages : list (option OwnedMessage);
  pending_messages_base_order : Z;
  retention_is_exhausted : bool;
  shutdown : bool;
  max_retained_messages : Z;
  last_returned : option OwnedMessage;
  last_returned_batch : list OwnedMessage;
  last_consumed_wire_version : Z;
}.
#[export] Instance eta_Subscriber : Eta Subscriber := fun s =>
  mkSubscriber (next_expected_order s) (ordered_received_messages s) (ordered_duplicate_messages s) (ordered_parse_errors s)
    (ordered_export_gaps_reported s) (pending_messages s) (pending_messages_base_order s) (retention_is_exhausted s) (shutdown s)
    (max_retained_messages s) (last_returned s) (last_returned_batch s) (last_consumed_wire_version s).

Definition Subscriber_init (max : Z) : Subscriber :=
  mkSubscriber 0 0 0 0 0 [] 0 false false max None [] wire.HEADER_VERSION_V1.

Definition slots (s : Subscriber) : Z := Z.of_nat (length (pending_messages s)).

(** ** Staging *)

(** Slots below the next order leave the buffer. *)
Definition drop_stale (s : Subscriber) : Subscriber :=
  if pending_messages_base_order s <? next_expected_order s then
    let stale_count := Z.min (next_expected_order s -u pending_messages_base_order s) (slots s) in
    let s := s <| pending_messages ::= drop (Z.to_nat stale_count) |> <| pending_messages_base_order ::= fun b => b +u stale_count |> in
    match pending_messages s with
    | [] => s <| pending_messages_base_order := next_expected_order s |>
    | _ => s
    end
  else s.

(** A reported export gap moves the next order to the first batch behind it. *)
Definition reanchor (s : Subscriber) (gap_start : Z) : Subscriber :=
  if gap_start <=? next_expected_order s then s
  else
    let s := s <| ordered_export_gaps_reported ::= fun n => n +u 1 |> <| next_expected_order := gap_start |> in
    match pending_messages s with
    | [] => s <| pending_messages_base_order := next_expected_order s |>
    | _ => drop_stale s
    end.

Definition put_slot (pending : list (option OwnedMessage)) (index : nat) (msg : OwnedMessage) : list (option OwnedMessage) :=
  let pending := pending ++ replicate (S index - length pending) None in
  <[index := Some msg]> pending.

(** One staged message ([None] is a null pointer); the boolean is false where
    the call returns. *)
Definition stage_message (s : Subscriber) (total_order : Z) (msg : option OwnedMessage) : Subscriber * bool :=
  match msg with
  | None => (s, true)
  | Some msg =>
      if total_order <? next_expected_order s then (s <| ordered_duplicate_messages ::= fun n => n +u 1 |>, true)
      else
        let s := match pending_messages s with
                 | [] => s <| pending_messages_base_order := next_expected_order s |>
                 | _ => s
                 end in
        let s := drop_stale s in
        if total_order <? pending_messages_base_order s then (s, true)
        else
          let index := total_order -u pending_messages_base_order s in
          if index >=? max_retained_messages s then (s <| retention_is_exhausted := true |>, false)
          else
            match pending_messages s !! Z.to_nat index with
            | Some (Some _) => (s <| ordered_duplicate_messages ::= fun n => n +u 1 |>, true)
            | _ => (s <| pending_messages ::= fun p => put_slot p (Z.to_nat index) msg |>, true)
            end
  end.

Fixpoint stage_messages (s : Subscriber) (messages : list (Z * option OwnedMessage)) : Subscriber :=
  match messages with
  | [] => s
  | (total_order, msg) :: messages =>
      let '(s, go) := stage_message s total_order msg in if go then stage_messages s messages else s
  end.

Definition StageOrderedMessages (s : Subscriber) (messages : list (Z * option OwnedMessage)) (gap_batch_starts : list Z) : Subscriber :=
  match messages, gap_batch_starts with
  | [], [] => s
  | _, _ =>
      if retention_is_exhausted s then s
      else
        let s := s <| ordered_received_messages ::= fun n => n +u Z.of_nat (length messages) |> in
        stage_messages (fold_left reanchor gap_batch_starts s) messages
  end.

(** ** Consuming *)
Definition TryPopOrderedMessageLocked (s : Subscriber) : option OwnedMessage * Subscriber :=
  match pending_messages s with
  | [] => (None, s <| pending_messages_base_order := next_expected_order s |>)
  | _ =>
      let s := drop_stale s in
      match pending_messages s with
      | Some msg :: pending =>
          if negb (pending_messages_base_order s =? next_expected_order s) then (None, s)
          else
            (Some msg,
             s <| last_returned := Some msg |> <| pending_messages := pending |>
               <| pending_messages_base_order ::= fun b => b +u 1 |>
               <| last_consumed_wire_version := om_header_version msg |>
               <| next_expected_order ::= fun n => n +u 1 |>)
      | _ => (None, s)
      end
  end.

(** The loop that moves up to [n] messages to [out]. *)
Fixpoint pop_loop (n : nat) (s : Subscriber) (out : list OwnedMessage) : Subscriber * list OwnedMessage :=
  match n with
  | O => (s, out)
  | S n =>
      match pending_messages s with
      | Some msg :: pending =>
          if pending_messages_base_order s =? next_expected_order s then
            pop_loop n
              (s <| pending_messages := pending |> <| pending_messages_base_order ::= fun b => b +u 1 |>
                 <| next_expected_order ::= fun n => n +u 1 |>) (out ++ [msg])
          else (s, out)
      | _ => (s, out)
      end
  end.

Definition TryPopOrderedMessagesLocked (max_messages : Z) (s : Subscriber) : Subscriber * list OwnedMessage :=
  if max_messages =? 0 then (s, [])
  else
    match pending_messages s with
    | [] => (s <| pending_messages_base_order := next_expected_order s |>, [])
    | _ =>
        let s := drop_stale s in
        match pending_messages s with
        | [] => (s, [])
        | _ =>
            let '(s, out) := pop_loop (Z.to_nat max_messages) s [] in
            match pending_messages s with
            | [] => (s <| pending_messages_base_order := next_expected_order s |>, out)
            | _ => (s, out)
            end
        end
    end.

(** What the receivers do to the shared state while the consumer is not
    holding the lock. *)
Inductive receiver_op :=
  | Stage (messages : list (Z * option OwnedMessage)) (gap_batch_starts : list Z)
  | ParseErrors (n : Z)
  | Exhaust
  | Shutdown.
Definition receive (s : Subscriber) (o : receiver_op) : Subscriber :=
  match o with
  | Stage messages gaps => StageOrderedMessages s messages gaps
  | ParseErrors n => s <| ordered_parse_errors ::= fun e => e +u n |>
  | Exhaust => s <| retention_is_exhausted := true |>
  | Shutdown => s <| shutdown := true |>
  end.

(** One turn of the consumer's loop before the deadline: what happens before it
    takes the lock, and while it waits; [None] where the deadline has passed
    before the wait. *)
Record turn := mkTurn {
  before_lock : list receiver_op;
  waiting : option (list receiver_op);
}.

Definition stopped (s : Subscriber) : bool := shutdown s || retention_is_exhausted s.

Fixpoint ConsumeOrdered_loop (turns : list turn) (s : Subscriber) : option OwnedMessage * Subscriber :=
  match turns with
  | [] => (None, s)
  | t :: turns =>
      if stopped s then (None, s)
      else
        let s := fold_left receive (before_lock t) s in
        let '(ret, s) := TryPopOrderedMessageLocked s in
        match ret with
        | Some msg => (Some msg, s)
        | None =>
            if stopped s then (None, s)
            else
              match waiting t with
              | None => (None, s)
              | Some ops =>
                  let s := fold_left receive ops s in
                  let '(ret, s) := TryPopOrderedMessageLocked s in
                  match ret with
                  | Some msg => (Some msg, s)
                  | None => ConsumeOrdered_loop turns s
                  end
              end
        end
  end.
Definition ConsumeOrdered (turns : list turn) (s : Subscriber) : option OwnedMessage * Subscriber :=
  ConsumeOrdered_loop turns (s <| last_returned := None |>).

Fixpoint ConsumeOrderedBatch_loop (max_messages : Z) (turns : list turn) (s : Subscriber) : list OwnedMessage * Subscriber :=
  match turns with
  | [] => ([], s)
  | t :: turns =>
      if stopped s then ([], s)
      else
        let s := fold_left receive (before_lock t) s in
        let '(s, out) := TryPopOrderedMessagesLocked max_messages s in
        match out with
        | _ :: _ => (out, s)
        | [] =>
            match waiting t with
            | None => ([], s)
            | Some ops =>
                let s := fold_left receive ops s in
                let '(s, out) := TryPopOrderedMessagesLocked max_messages s in
                match out with
                | _ :: _ => (out, s)
                | [] => ConsumeOrderedBatch_loop max_messages turns s
                end
            end
        end
  end.
Definition ConsumeOrderedBatch (max_messages : Z) (turns : list turn) (s : Subscriber) : list OwnedMessage * Subscriber :=
  if max_messages =? 0 then ([], s)
  else
    let s := s <| last_returned := None |> <| last_returned_batch := [] |> in
    let '(out, s) := ConsumeOrderedBatch_loop (Z.min max_messages (max_retained_messages s)) turns s in
    (out, s <| last_returned_batch := out |>
            <| last_consumed_wire_version ::= fun v => default v (om_header_version <$> last out) |>).

(** ** Completion *)
Record OrderedDeliveryStatus := mkOrderedDeliveryStatus {
  st_parsed_messages : Z;
  delivered_messages : Z;
  duplicates : Z;
  st_parse_errors : Z;
  export_gaps : Z;
  st_retention_exhausted : bool;
  st_stopped : bool;
}.
Definition GetOrderedDeliveryStatus (s : Subscriber) : OrderedDeliveryStatus :=
  mkOrderedDeliveryStatus (ordered_received_messages s) (next_expected_order s) (ordered_duplicate_messages s)
    (ordered_parse_errors s) (ordered_export_gaps_reported s) (retention_is_exhausted s) (shutdown s).
Definition OrderedDeliveryStatus_Complete (st : OrderedDeliveryStatus) (expected : Z) : bool :=
  (expected >? 0) && (st_parsed_messages st =? expected) && (delivered_messages st =? expected) && (duplicates st =? 0) &&
  (st_parse_errors st =? 0) && (export_gaps st =? 0) && negb (st_retention_exhausted st) && negb (st_stopped st).
Definition ValidateOrderedDeliveryCompletion (s : Subscriber) (expected_messages : Z) : bool :=
  OrderedDeliveryStatus_Complete (GetOrderedDeliveryStatus s) expected_messages.

(** * What the buffer holds

    A run is the receivers' and the consumer's operations in the order of the
    lock; its log is what was staged and what was delivered, with the order each
    message had. *)
Inductive op :=
  | Receive (o : receiver_op)
  | Pop
  | PopBatch (max_messages : Z).

Abbreviation ordered := (Z * OwnedMessage)%type.
Record world := mkWorld {
  w_sub : Subscriber;
  w_staged : list ordered;
  w_delivered : list ordered;
}.

Definition present (messages : list (Z * option OwnedMessage)) : list ordered := omap (fun p => pair p.1 <$> p.2) messages.

(** Messages are numbered from the next order when they are taken. *)
Fixpoint number (n : Z) (l : list OwnedMessage) : list ordered :=
  match l with [] => [] | m :: l => (n, m) :: number (n + 1) l end.

Definition do_op (w : world) (o : op) : world :=
  let s := w_sub w in
  match o with
  | Receive (Stage messages gaps) =>
      mkWorld (StageOrderedMessages s messages gaps)
        (w_staged w ++ if retention_is_exhausted s then [] else present messages) (w_delivered w)
  | Receive o => mkWorld (receive s o) (w_staged w) (w_delivered w)
  | Pop =>
      let '(ret, s') := TryPopOrderedMessageLocked s in
      mkWorld s' (w_staged w) (w_delivered w ++ number (next_expected_order s) (option_list ret))
  | PopBatch n =>
      let '(s', out) := TryPopOrderedMessagesLocked n s in
      mkWorld s' (w_staged w) (w_delivered w ++ number (next_expected_order s) out)
  end.
Definition run (w : world) (ops : list op) : world := fold_left do_op ops w.
Definition start (max : Z) : world := mkWorld (Subscriber_init max) [] [].

(** The first staged message of an order. *)
Fixpoint first_at (t : Z) (l : list ordered) : option OwnedMessage :=
  match l with [] => None | (u, m) :: l => if u =? t then Some m else first_at t l end.

Lemma first_at_app t a b : first_at t (a ++ b) = match first_at t a with Some m => Some m | None => first_at t b end.
Proof. induction a as [|[u m] a IH]; [done|]. cbn. destruct (u =? t); [done|]. apply IH. Qed.
Lemma first_at_app_Some t a b m : first_at t a = Some m -> first_at t (a ++ b) = Some m.
Proof. intros H. by rewrite first_at_app, H. Qed.
Lemma first_at_elem t l m : first_at t l = Some m -> (t, m) ∈ l.
Proof. induction l as [|[u n] l IH]; [done|]. cbn. case_match; bool_props; [intros [= ->]; subst; set_solver|intros H1%IH; set_solver]. Qed.
Lemma first_at_None t l : first_at t l = None <-> forall m, (t, m) ∉ l.
Proof.
  induction l as [|[u n] l IH]; cbn; [set_solver|]. case_match; bool_props; subst; [set_solver|]. rewrite IH. set_solver.
Qed.

Definition filled (p : list (option OwnedMessage)) : nat := length (omap id p).
#[global] Arguments filled : simpl never.

Record inv (s : Subscriber) (staged delivered : list ordered) : Prop := {
  inv_next : 0 <= next_expected_order s <= U64_MAX;
  inv_base : pending_messages s <> [] -> pending_messages_base_order s = next_expected_order s;
  inv_end : next_expected_order s + slots s <= U64_MAX;
  inv_slot : forall i m, pending_messages s !! i = Some (Some m) -> first_at (next_expected_order s + Z.of_nat i) staged = Some m;
  inv_all : retention_is_exhausted s = false -> forall t m, next_expected_order s <= t -> first_at t staged = Some m ->
    pending_messages s !! Z.to_nat (t - next_expected_order s) = Some (Some m);
  inv_delivered : Forall (fun p => 0 <= p.1 < next_expected_order s /\ first_at p.1 staged = Some p.2) delivered;
  inv_sorted : pairwise (fun a b => a.1 < b.1) delivered;
  inv_gaps : 0 <= ordered_export_gaps_reported s <= next_expected_order s;
  inv_gapless : ordered_export_gaps_reported s = 0 -> Z.of_nat (length delivered) = next_expected_order s;
}.

(** On an aligned buffer nothing is stale. *)
Definition aligned (s : Subscriber) : Prop :=
  0 <= next_expected_order s <= U64_MAX /\ (pending_messages s <> [] -> pending_messages_base_order s = next_expected_order s) /\
  next_expected_order s + slots s <= U64_MAX.

Lemma inv_aligned s staged delivered : inv s staged delivered -> aligned s.
Proof. intros [H1 H2 H3 _ _ _ _ _ _]. exact (conj H1 (conj H2 H3)). Qed.

Lemma drop_stale_aligned s : pending_messages_base_order s = next_expected_order s -> drop_stale s = s.
Proof. intros H. unfold drop_stale. by rewrite H, Z.ltb_irrefl. Qed.

Lemma Subscriber_base_id s b : pending_messages_base_order s = b -> s <| pending_messages_base_order := b |> = s.
Proof. intros <-. by destruct s. Qed.

Lemma stage_message_aligned s t m :
  aligned s -> t <= U64_MAX ->
  stage_message s t (Some m) =
    let next := next_expected_order s in
    if t <? next then (s <| ordered_duplicate_messages ::= fun n => n +u 1 |>, true)
    else
      let s := s <| pending_messages_base_order := next |> in
      if t - next >=? max_retained_messages s then (s <| retention_is_exhausted := true |>, false)
      else
        match pending_messages s !! Z.to_nat (t - next) with
        | Some (Some _) => (s <| ordered_duplicate_messages ::= fun n => n +u 1 |>, true)
        | _ => (s <| pending_messages ::= fun p => put_slot p (Z.to_nat (t - next)) m |>, true)
        end.
Proof.
  intros (Hn & Hb & _) Ht. unfold stage_message. destruct (t <? next_expected_order s) eqn:E; [done|]. bool_props.
  assert (Hs : (match pending_messages s with [] => s <| pending_messages_base_order := next_expected_order s |> | _ => s end) =
    s <| pending_messages_base_order := next_expected_order s |>).
  { destruct (pending_messages s) eqn:Ep; [done|]. symmetry. apply Subscriber_base_id, Hb. done. }
  rewrite Hs, drop_stale_aligned by done. cbn [pending_messages_base_order upd eta_Subscriber].
  replace (t <? _) with false by (cbn; lia). cbn zeta. rewrite u64_id; [done|]. cbn. word_unfold. lia.
Qed.

Lemma reanchor_aligned s g :
  aligned s -> next_expected_order s < g <= U64_MAX ->
  reanchor s g = s <| ordered_export_gaps_reported ::= fun n => n +u 1 |> <| next_expected_order := g |>
    <| pending_messages := drop (Z.to_nat (g - next_expected_order s)) (pending_messages s) |> <| pending_messages_base_order := g |>.
Proof.
  intros (Hn & Hb & He) Hg. unfold reanchor. replace (g <=? _) with false by lia. cbn [pending_messages upd eta_Subscriber].
  destruct (pending_messages s) as [|x p] eqn:Ep; cbn; [by rewrite drop_nil|].
  unfold drop_stale. cbn. specialize (Hb ltac:(done)). rewrite Hb. replace (_ <? g) with true by lia. cbn. unfold slots in *. cbn. rewrite Ep in *.
  rewrite u64_id by (word_unfold; lia).
  cbn [length] in He. destruct (Z.le_gt_cases (Z.of_nat (S (length p))) (g - next_expected_order s)) as [Hle|Hgt].
  - rewrite Z.min_r by lia. rewrite !drop_ge by (cbn [length]; lia). done.
  - rewrite Z.min_l by lia. destruct (drop _ (x :: p)) eqn:Ed; [apply (f_equal length) in Ed; rewrite length_drop in Ed; cbn in Ed, Hgt; lia|].
    replace (next_expected_order s + (g - next_expected_order s)) with g by lia. by rewrite (u64_id g) by (word_unfold; lia).
Qed.

(** ** Each operation keeps the buffer *)
Lemma put_slot_lookup p i m j :
  put_slot p i m !! j = if decide (j = i) then Some (Some m) else if decide (j < length p)%nat then p !! j
    else if decide (j < S i)%nat then Some None else None.
Proof.
  unfold put_slot. destruct (decide (j = i)) as [->|Hne].
  { apply list_lookup_insert_eq. rewrite length_app, length_replicate. lia. }
  rewrite list_lookup_insert_ne by done. destruct (decide (j < length p)%nat); [by rewrite lookup_app_l|].
  rewrite lookup_app_r by lia. destruct (decide (j < S i)%nat).
  - apply lookup_replicate_2. lia.
  - apply lookup_ge_None. rewrite length_replicate. lia.
Qed.
Lemma put_slot_length p i m : length (put_slot p i m) = Nat.max (length p) (S i).
Proof. unfold put_slot. rewrite length_insert, length_app, length_replicate. lia. Qed.

Lemma inv_stage_message s staged delivered t m s' go :
  inv s staged delivered -> retention_is_exhausted s = false -> t < U64_MAX -> stage_message s t (Some m) = (s', go) ->
  inv s' (staged ++ [(t, m)]) delivered /\ retention_is_exhausted s' = negb go.
Proof.
  intros Hinv Hlive Ht. rewrite stage_message_aligned by (eauto using inv_aligned; lia). cbn zeta.
  destruct Hinv as [I1 I2 I3 I4 I5 I6 I7 I8 I9].
  assert (J6 : Forall (fun p => 0 <= p.1 < next_expected_order s /\ first_at p.1 (staged ++ [(t, m)]) = Some p.2) delivered).
  { eapply Forall_impl; [exact I6|]. intros p [? ?]. split; [done|]. by apply first_at_app_Some. }
  assert (J4 : forall i m', pending_messages s !! i = Some (Some m') -> first_at (next_expected_order s + Z.of_nat i) (staged ++ [(t, m)]) = Some m').
  { intros i m' Hi. by apply first_at_app_Some, I4. }
  destruct (t <? next_expected_order s) eqn:E; bool_props.
  { intros [= <- <-]. split; [|by rewrite Hlive]. constructor; cbn; try done. intros _ u m' Hu. rewrite first_at_app.
    destruct (first_at u staged) eqn:Eu; [intros [= <-]; by apply I5|]. cbn. case_match; bool_props; [lia|done]. }
  destruct (_ >=? _) eqn:Emax.
  { intros [= <- <-]. split; [|done]. constructor; cbn; try done. }
  cbn [pending_messages upd eta_Subscriber]. set (i := Z.to_nat (t - next_expected_order s)) in *.
  assert (Hi : next_expected_order s + Z.of_nat i = t) by (unfold i; lia). clearbody i.
  assert (Hslot : forall m', pending_messages s !! i = Some (Some m') <-> first_at t staged = Some m').
  { intros m'. split; [intros H; rewrite <- Hi; by apply I4|]. intros H. replace i with (Z.to_nat (t - next_expected_order s)) by lia. by apply I5. }
  assert (Hdup : forall m', first_at t staged = Some m' -> forall u m'', next_expected_order s <= u -> first_at u (staged ++ [(t, m)]) = Some m'' ->
    pending_messages s !! Z.to_nat (u - next_expected_order s) = Some (Some m'')).
  { intros m' Hm' u m'' Hu. rewrite first_at_app. destruct (first_at u staged) eqn:Eu; [intros [= <-]; by apply I5|].
    cbn. case_match; bool_props; [subst; congruence|done]. }
  destruct (pending_messages s !! i) as [[m'|]|] eqn:Ei.
  { intros [= <- <-]. split; [|by rewrite Hlive]. assert (Ei' : first_at t staged = Some m') by (by apply Hslot). constructor; cbn; try done. intros _. by apply Hdup with m'. }
  all: intros [= <- <-]; (split; [|by rewrite Hlive]);
    (assert (Hnone : first_at t staged = None) by (destruct (first_at t staged) as [m'|] eqn:Em; [destruct (Hslot m') as [_ Hx]; by specialize (Hx eq_refl)|done]));
    (constructor; cbn; try done;
      [unfold slots in *; cbn; rewrite put_slot_length; lia
      |intros j m'; rewrite put_slot_lookup; repeat case_decide; try done; [|by apply J4]; subst j; intros [= <-]; rewrite first_at_app, Hi, Hnone; cbn; by rewrite Z.eqb_refl
      |intros _ u m' Hu; rewrite first_at_app; destruct (first_at u staged) eqn:Eu;
         [intros [= <-]; apply I5 in Eu; [|done..]; apply lookup_lt_Some in Eu as Hlt; rewrite put_slot_lookup, decide_False, decide_True by congruence; done
         |cbn; case_match; bool_props; [|done]; intros [= <-]; subst u; rewrite put_slot_lookup, decide_True by lia; done]]).
Qed.

Definition order_ok (t : Z) : Prop := 0 <= t < U64_MAX.
(** What a receiver stages: no null pointers, and orders below the largest
    word. *)
Definition messages_ok (messages : list (Z * option OwnedMessage)) : Prop :=
  Forall (fun p => order_ok p.1 /\ is_Some p.2) messages.

Lemma inv_more s staged staged' delivered :
  inv s staged delivered -> retention_is_exhausted s = true -> inv s (staged ++ staged') delivered.
Proof.
  intros [I1 I2 I3 I4 I5 I6 I7 I8 I9] Hx. constructor; try done.
  - intros i m Hi. by apply first_at_app_Some, I4.
  - congruence.
  - eapply Forall_impl; [exact I6|]. intros p [? ?]. split; [done|]. by apply first_at_app_Some.
Qed.

Lemma inv_stage_messages messages : forall s staged delivered,
  inv s staged delivered -> retention_is_exhausted s = false -> messages_ok messages ->
  inv (stage_messages s messages) (staged ++ present messages) delivered.
Proof.
  induction messages as [|[t msg] messages IH]; intros s staged delivered Hinv Hlive Hok; [cbn; by rewrite app_nil_r|].
  apply Forall_cons in Hok as [[Ht [m Hm]] Hok]. cbn in Ht, Hm. subst msg. cbn [stage_messages present omap list_omap fst snd fmap option_fmap option_map].
  fold (present messages). destruct (stage_message s t (Some m)) as [s' go] eqn:E. unfold order_ok in Ht.
  destruct (inv_stage_message _ _ _ _ _ _ _ Hinv Hlive (proj2 Ht) E) as [Hinv' Hlive'].
  change ((t, m) :: present messages) with ([(t, m)] ++ present messages). rewrite app_assoc.
  destruct go; [by apply IH|]. by apply inv_more.
Qed.

Lemma inv_reanchor s staged delivered g :
  inv s staged delivered -> order_ok g ->
  inv (reanchor s g) staged delivered /\ retention_is_exhausted (reanchor s g) = retention_is_exhausted s.
Proof.
  intros Hinv Hg. destruct (Z.le_gt_cases g (next_expected_order s)) as [Hle|Hgt].
  { unfold reanchor. by replace (g <=? _) with true by lia. }
  unfold order_ok in Hg. rewrite reanchor_aligned by (eauto using inv_aligned; lia).
  destruct Hinv as [I1 I2 I3 I4 I5 I6 I7 I8 I9]. split; [|done].
  constructor; cbn; try done.
  - lia.
  - unfold slots in *. cbn. rewrite length_drop. lia.
  - intros i m. rewrite lookup_drop. intros Hi. apply I4 in Hi. rewrite <- Hi. f_equal. lia.
  - intros Hl t m Ht Hf. apply I5 in Hf; [|done|lia]. rewrite lookup_drop. rewrite <- Hf. f_equal. lia.
  - eapply Forall_impl; [exact I6|]. cbn. intros p [? ?]. split; [lia|done].
  - rewrite u64_id by (word_unfold; lia). lia.
  - rewrite u64_id by (word_unfold; lia). lia.
Qed.

Lemma inv_reanchors gaps : forall s staged delivered,
  inv s staged delivered -> Forall order_ok gaps ->
  inv (fold_left reanchor gaps s) staged delivered /\
  retention_is_exhausted (fold_left reanchor gaps s) = retention_is_exhausted s.
Proof.
  induction gaps as [|g gaps IH]; intros s staged delivered Hinv Hg; [done|]. apply Forall_cons in Hg as [H1 H2]. cbn.
  destruct (inv_reanchor s staged delivered g Hinv H1) as [Hi <-]. by apply IH.
Qed.

Lemma inv_field s s' staged delivered :
  inv s staged delivered ->
  next_expected_order s' = next_expected_order s -> pending_messages s' = pending_messages s ->
  (pending_messages s <> [] -> pending_messages_base_order s' = pending_messages_base_order s) ->
  ordered_export_gaps_reported s' = ordered_export_gaps_reported s ->
  (retention_is_exhausted s' = false -> retention_is_exhausted s = false) ->
  inv s' staged delivered.
Proof.
  intros [I1 I2 I3 I4 I5 I6 I7 I8 I9] H1 H2 H3 H4 H5. constructor; unfold slots in *; rewrite ?H1, ?H2, ?H4; auto.
  intros Hne. by rewrite H3, I2.
Qed.

Lemma inv_Stage s staged delivered messages gaps :
  inv s staged delivered -> messages_ok messages -> Forall order_ok gaps ->
  inv (StageOrderedMessages s messages gaps) (staged ++ if retention_is_exhausted s then [] else present messages) delivered.
Proof.
  intros Hinv Hm Hg. unfold StageOrderedMessages.
  assert (H : inv (if retention_is_exhausted s then s
    else stage_messages (fold_left reanchor gaps (s <| ordered_received_messages ::= fun n => n +u Z.of_nat (length messages) |>)) messages)
    (staged ++ if retention_is_exhausted s then [] else present messages) delivered).
  { destruct (retention_is_exhausted s) eqn:E; [by rewrite app_nil_r|].
    destruct (inv_reanchors gaps (s <| ordered_received_messages ::= fun n => n +u Z.of_nat (length messages) |>) staged delivered) as [H1 H2];
      [by eapply inv_field|done|]. apply inv_stage_messages; [done|by rewrite H2|done]. }
  destruct messages, gaps; try exact H. destruct (retention_is_exhausted s); cbn; by rewrite app_nil_r.
Qed.

(** Taking the front. *)
Lemma inv_take s s' staged delivered m p :
  inv s staged delivered -> pending_messages s = Some m :: p ->
  next_expected_order s' = next_expected_order s +u 1 -> pending_messages s' = p ->
  pending_messages_base_order s' = pending_messages_base_order s +u 1 ->
  ordered_export_gaps_reported s' = ordered_export_gaps_reported s ->
  retention_is_exhausted s' = retention_is_exhausted s ->
  inv s' staged (delivered ++ [(next_expected_order s, m)]) /\ next_expected_order s' = next_expected_order s + 1.
Proof.
  intros [I1 I2 I3 I4 I5 I6 I7 I8 I9] Hp H1 H2 H3 H4 H5. rewrite I2 in H3 by (by rewrite Hp).
  unfold slots in I3. rewrite Hp in I3. cbn [length] in I3.
  rewrite u64_id in H1, H3 by (word_unfold; lia). split; [|done].
  constructor; unfold slots; rewrite ?H1, ?H2, ?H3, ?H4, ?H5; try done; try lia.
  - intros i m' Hi. replace (next_expected_order s + 1 + Z.of_nat i) with (next_expected_order s + Z.of_nat (S i)) by lia.
    apply I4. by rewrite Hp.
  - intros Hl t m' Ht Hf. apply I5 in Hf; [|done|lia]. rewrite Hp in Hf.
    replace (Z.to_nat (t - next_expected_order s)) with (S (Z.to_nat (t - (next_expected_order s + 1)))) in Hf by lia. done.
  - apply Forall_app. split; [eapply Forall_impl; [exact I6|]; cbn; intros q [? ?]; split; [lia|done]|].
    apply Forall_singleton. cbn. split; [lia|]. rewrite <- (Z.add_0_r (next_expected_order s)). apply (I4 0%nat). by rewrite Hp.
  - apply pairwise_snoc; [done|]. eapply Forall_impl; [exact I6|]. cbn. lia.
  - intros Hz. rewrite length_app, <- I9 by done. cbn. lia.
Qed.

Definition front (s : Subscriber) : option OwnedMessage := mjoin (head (pending_messages s)).

Lemma front_first s staged delivered :
  inv s staged delivered -> retention_is_exhausted s = false -> front s = first_at (next_expected_order s) staged.
Proof.
  intros Hinv Hl. unfold front. destruct (first_at _ staged) as [m|] eqn:E.
  - apply (inv_all _ _ _ Hinv Hl _ _ ltac:(reflexivity)) in E. rewrite Z.sub_diag in E. by destruct (pending_messages s); simplify_eq/=.
  - destruct (pending_messages s) as [|[m|] p] eqn:Ep; [done| |done]. pose proof (inv_slot _ _ _ Hinv 0%nat m) as H.
    rewrite Ep, Z.add_0_r in H. specialize (H eq_refl). congruence.
Qed.

(** Taking messages changes no count and loses no slot. *)
Definition kept (s s' : Subscriber) : Prop :=
  ordered_received_messages s' = ordered_received_messages s /\ ordered_duplicate_messages s' = ordered_duplicate_messages s /\
  ordered_export_gaps_reported s' = ordered_export_gaps_reported s /\ retention_is_exhausted s' = retention_is_exhausted s /\
  next_expected_order s' + Z.of_nat (filled (pending_messages s')) = next_expected_order s + Z.of_nat (filled (pending_messages s)).

Lemma kept_exhausted s s' : kept s s' -> retention_is_exhausted s' = retention_is_exhausted s.
Proof. by intros (_ & _ & _ & ? & _). Qed.

Lemma kept_trans s1 s2 s3 : kept s1 s2 -> kept s2 s3 -> kept s1 s3.
Proof. intros (?&?&?&?&?) (?&?&?&?&?). unfold kept. split_and!; first [congruence|lia]. Qed.

Lemma filled_take m p : filled (Some m :: p) = S (filled p).
Proof. done. Qed.

Lemma TryPop_spec s staged delivered ret s' :
  inv s staged delivered -> TryPopOrderedMessageLocked s = (ret, s') ->
  ret = front s /\ inv s' staged (delivered ++ number (next_expected_order s) (option_list ret)) /\
  next_expected_order s' = next_expected_order s + Z.of_nat (length (option_list ret)) /\ kept s s'.
Proof.
  intros Hinv. pose proof (inv_base _ _ _ Hinv) as Hb. unfold TryPopOrderedMessageLocked, front.
  destruct (pending_messages s) as [|x p] eqn:Ep.
  { intros [= <- <-]. cbn. rewrite app_nil_r, Z.add_0_r. split_and!; try done. by eapply inv_field. }
  specialize (Hb ltac:(done)). rewrite drop_stale_aligned, Ep by done. destruct x as [m|].
  - rewrite Hb, Z.eqb_refl. cbn [negb]. intros [= <- <-]. split; [done|].
    edestruct (inv_take s) as [H1 H2]; [exact Hinv|exact Ep|..|split_and!; [exact H1|exact H2|]]; try done.
    unfold kept. rewrite H2, Ep, filled_take. cbn. split_and!; try done. lia.
  - intros [= <- <-]. cbn. by rewrite app_nil_r, Z.add_0_r.
Qed.

Lemma length_number l : forall n, length (number n l) = length l.
Proof. induction l as [|m l IH]; intros n; [done|]. cbn. by rewrite IH. Qed.
Lemma number_app l : forall n l', number n (l ++ l') = number n l ++ number (n + Z.of_nat (length l)) l'.
Proof.
  induction l as [|m l IH]; intros n l'; cbn; [by rewrite Z.add_0_r|]. rewrite IH. do 3 f_equal. lia.
Qed.

Lemma pop_loop_out n : forall s out, pop_loop n s out = ((pop_loop n s []).1, out ++ (pop_loop n s []).2).
Proof.
  induction n as [|n IH]; intros s out; cbn; [by rewrite app_nil_r|].
  destruct (pending_messages s) as [|[m|] p]; try (cbn; by rewrite app_nil_r). case_match; [|cbn; by rewrite app_nil_r].
  rewrite IH, (IH _ [m]). cbn. by rewrite <- app_assoc.
Qed.

Lemma pop_loop_spec n : forall s staged delivered s' out,
  inv s staged delivered -> pop_loop n s [] = (s', out) ->
  inv s' staged (delivered ++ number (next_expected_order s) out) /\
  next_expected_order s' = next_expected_order s + Z.of_nat (length out) /\
  kept s s' /\ (length out <= n)%nat /\ (length out = n \/ front s' = None).
Proof.
  induction n as [|n IH]; intros s staged delivered s' out Hinv; cbn [pop_loop].
  { intros [= <- <-]. cbn. rewrite app_nil_r, Z.add_0_r. by split_and!; auto. }
  assert (Hstop : (s, []) = (s', out) -> front s = None -> inv s' staged (delivered ++ number (next_expected_order s) out) /\
    next_expected_order s' = next_expected_order s + Z.of_nat (length out) /\
    kept s s' /\ (length out <= S n)%nat /\ (length out = S n \/ front s' = None)).
  { intros [= <- <-] Hf. cbn. rewrite app_nil_r, Z.add_0_r. split_and!; auto; [done|lia]. }
  destruct (pending_messages s) as [|[m|] p] eqn:Ep; try (intros; apply Hstop; [done|]; unfold front; by rewrite Ep).
  rewrite (inv_base _ _ _ Hinv) by (by rewrite Ep). rewrite Z.eqb_refl. cbn [app].
  set (s1 := s <| pending_messages := p |> <| pending_messages_base_order ::= _ |> <| next_expected_order ::= _ |>).
  destruct (inv_take s s1 staged delivered m p Hinv Ep) as [H1 H2]; [done..|].
  assert (Hx : kept s s1) by (unfold kept; rewrite H2, Ep, filled_take; cbn; split_and!; try done; lia). clearbody s1.
  rewrite pop_loop_out. destruct (pop_loop n s1 []) as [s2 out2] eqn:E2. intros [= <- <-].
  destruct (IH _ _ _ _ _ H1 E2) as (H3 & H4 & H5 & H6 & H7). cbn [fst snd length app number] in *.
  replace (next_expected_order s2) with (next_expected_order s + Z.of_nat (S (length out2))) by lia.
  rewrite <- app_assoc in H3. cbn [app] in H3. rewrite H2 in H3.
  split_and!; [done|done|by eapply kept_trans|lia|destruct H7; [left; lia|by right]].
Qed.

Lemma front_nil s : pending_messages s = [] -> front s = None.
Proof. unfold front. by intros ->. Qed.

Lemma TryPops_spec n s staged delivered s' out :
  inv s staged delivered -> TryPopOrderedMessagesLocked n s = (s', out) ->
  inv s' staged (delivered ++ number (next_expected_order s) out) /\
  next_expected_order s' = next_expected_order s + Z.of_nat (length out) /\ kept s s' /\
  (length out <= Z.to_nat n)%nat /\ (length out = Z.to_nat n \/ front s' = None).
Proof.
  intros Hinv. pose proof (inv_base _ _ _ Hinv) as Hb. unfold TryPopOrderedMessagesLocked. destruct (n =? 0) eqn:E0.
  { intros [= <- <-]. bool_props. subst n. cbn. rewrite app_nil_r, Z.add_0_r. by split_and!; auto. }
  destruct (pending_messages s) as [|x p] eqn:Ep.
  { intros [= <- <-]. cbn. rewrite app_nil_r, Z.add_0_r. split_and!; try done; [by eapply inv_field|lia|right; by apply front_nil]. }
  rewrite drop_stale_aligned, Ep by (by apply Hb). destruct (pop_loop _ s []) as [s1 out1] eqn:E1.
  destruct (pop_loop_spec _ _ _ _ _ _ Hinv E1) as (H1 & H2 & H3 & H4 & H5).
  destruct (pending_messages s1) as [|y q] eqn:Eq; intros [= <- <-]; [|done].
  split_and!; [by eapply inv_field|done|done|done|]. destruct H5; [by left|right; by apply front_nil].
Qed.

Definition op_ok (o : op) : Prop :=
  match o with Receive (Stage messages gaps) => messages_ok messages /\ Forall order_ok gaps | _ => True end.

Definition world_inv (w : world) : Prop := inv (w_sub w) (w_staged w) (w_delivered w).

Lemma do_op_inv w o : world_inv w -> op_ok o -> world_inv (do_op w o).
Proof.
  unfold world_inv. intros Hinv Ho. destruct o as [[messages gaps|n| |]| |n]; cbn [do_op].
  - destruct Ho. by apply inv_Stage.
  - by eapply inv_field.
  - by eapply inv_field.
  - by eapply inv_field.
  - destruct (TryPopOrderedMessageLocked _) as [ret s'] eqn:E. by destruct (TryPop_spec _ _ _ _ _ Hinv E) as (_ & H & _).
  - destruct (TryPopOrderedMessagesLocked _ _) as [s' out] eqn:E. by destruct (TryPops_spec _ _ _ _ _ _ Hinv E) as (H & _).
Qed.

Lemma world_start_inv max : world_inv (start max).
Proof.
  constructor; cbn; try done; try (word_unfold; lia).
  all: constructor || apply pairwise_nil.
Qed.

Lemma run_inv ops : forall w, world_inv w -> Forall op_ok ops -> world_inv (run w ops).
Proof.
  induction ops as [|o ops IH]; intros w Hw Ho; [done|]. apply Forall_cons in Ho as [H1 H2]. cbn. apply IH; [by apply do_op_inv|done].
Qed.

(** Strictly increasing orders that fill [0, n) are all of them. *)
Lemma pairwise_fill (l : list ordered) n :
  pairwise (fun a b => a.1 < b.1) l -> Forall (fun p => 0 <= p.1 < n) l -> Z.of_nat (length l) = n ->
  forall i p, l !! i = Some p -> p.1 = Z.of_nat i.
Proof.
  intros Hp Hb Hn. rewrite Forall_lookup in Hb.
  assert (Hlo : forall i p, l !! i = Some p -> Z.of_nat i <= p.1).
  { induction i as [|i IH]; intros p Hi; [apply Hb in Hi; lia|].
    destruct (l !! i) as [q|] eqn:Eq; [|apply lookup_lt_Some in Hi; apply lookup_ge_None in Eq; lia].
    specialize (IH q eq_refl). pose proof (Hp i (S i) q p ltac:(lia) Eq Hi). cbn in *. lia. }
  assert (Hhi : forall k i p, l !! i = Some p -> (k + i < length l)%nat -> p.1 + Z.of_nat k < n).
  { induction k as [|k IH]; intros i p Hi Hk; [apply Hb in Hi; lia|].
    destruct (l !! S i) as [q|] eqn:Eq; [|apply lookup_ge_None in Eq; lia].
    pose proof (Hp i (S i) p q ltac:(lia) Hi Eq). specialize (IH (S i) q Eq ltac:(lia)). cbn in *. lia. }
  intros i p Hi. pose proof (lookup_lt_Some _ _ _ Hi). pose proof (Hlo i p Hi).
  pose proof (Hhi (length l - 1 - i)%nat i p Hi ltac:(lia)). lia.
Qed.

(** C20. Under any interleaving of the receivers and the consumer the delivered
    orders increase, every delivered message is the first that was staged with
    its order, and without a reported gap the delivered messages are exactly
    the orders below the next one. *)
Theorem ordered_delivery_in_total_order max ops w :
  Forall op_ok ops -> run (start max) ops = w ->
  pairwise (fun a b => a.1 < b.1) (w_delivered w) /\
  Forall (fun p => first_at p.1 (w_staged w) = Some p.2) (w_delivered w) /\
  (ordered_export_gaps_reported (w_sub w) = 0 ->
   Z.of_nat (length (w_delivered w)) = next_expected_order (w_sub w) /\
   forall i p, w_delivered w !! i = Some p -> p.1 = Z.of_nat i).
Proof.
  intros Ho <-. destruct (run_inv ops (start max) (world_start_inv max) Ho) as [I1 I2 I3 I4 I5 I6 I7 I8 I9].
  split; [done|]. split; [eapply Forall_impl; [exact I6|]; by intros p [? ?]|].
  intros Hg. split; [by apply I9|]. apply (pairwise_fill _ (next_expected_order (w_sub (run (start max) ops)))); [done| |by apply I9].
  eapply Forall_impl; [exact I6|]. by intros p [? ?].
Qed.

(** A consumer that gets nothing, or less than it asked for, has been given
    every staged message up to an order that was not staged. *)
Theorem pop_stops_only_at_missing_order max ops n w s' out :
  Forall op_ok ops -> run (start max) ops = w -> retention_is_exhausted (w_sub w) = false ->
  TryPopOrderedMessagesLocked n (w_sub w) = (s', out) ->
  (length out < Z.to_nat n)%nat -> forall m, (next_expected_order s', m) ∉ w_staged w.
Proof.
  intros Ho <- Hl E Hlt. pose proof (run_inv ops (start max) (world_start_inv max) Ho) as Hinv.
  destruct (TryPops_spec _ _ _ _ _ _ Hinv E) as (H1 & H2 & H3 & H4 & [H5|H5]); [lia|].
  apply first_at_None. rewrite <- H5. symmetry. eapply front_first; [done|]. by rewrite (kept_exhausted _ _ H3).
Qed.

(** ** Every staged message is accounted for *)
Definition balance (s : Subscriber) (n : Z) : Prop :=
  retention_is_exhausted s = false -> ordered_export_gaps_reported s = 0 ->
  exists d, 0 <= d /\ ordered_duplicate_messages s = u64 d /\
    n = next_expected_order s + d + Z.of_nat (filled (pending_messages s)).

Lemma filled_app p q : filled (p ++ q) = (filled p + filled q)%nat.
Proof. unfold filled. by rewrite omap_app, length_app. Qed.
Lemma filled_replicate n : filled (replicate n None) = 0%nat.
Proof. unfold filled. by induction n. Qed.

Lemma filled_insert q m : forall i, q !! i = Some None -> filled (<[i := Some m]> q) = S (filled q).
Proof.
  unfold filled. induction q as [|x q IH]; intros i Hi; [done|]. destruct i as [|i]; cbn in Hi; [by simplify_eq|].
  specialize (IH i Hi). destruct x; [exact (f_equal S IH)|exact IH].
Qed.

Lemma filled_put p i m : (forall m', p !! i <> Some (Some m')) -> filled (put_slot p i m) = S (filled p).
Proof.
  intros Hi. unfold put_slot. set (q := p ++ replicate (S i - length p) None).
  assert (Hq : q !! i = Some None).
  { unfold q. destruct (p !! i) as [x|] eqn:E; [|apply lookup_ge_None in E; rewrite lookup_app_r by lia; apply lookup_replicate_2; lia].
    rewrite (lookup_app_l_Some _ _ _ _ E). destruct x; [naive_solver|done]. }
  rewrite filled_insert by done. unfold q. rewrite filled_app, filled_replicate. lia.
Qed.

Lemma balance_stage_message s staged delivered t m s' go n :
  inv s staged delivered -> t < U64_MAX -> stage_message s t (Some m) = (s', go) -> balance s n -> balance s' (n + 1).
Proof.
  intros Hinv Ht. rewrite stage_message_aligned by (eauto using inv_aligned; lia). cbn zeta. unfold balance.
  assert (Hdup : forall d, u64 (u64 d + 1) = u64 (d + 1)) by (intros; unfold u64; by rewrite Zplus_mod_idemp_l).
  repeat case_match; intros [= <- <-] Hbal Hx Hg; cbn in *; try done; destruct (Hbal Hx Hg) as (d & Hd1 & Hd2 & Hd3).
  all: first [exists d; rewrite filled_put by congruence; split_and!; [lia|done|lia]
             |exists (d + 1); rewrite Hd2, Hdup; split_and!; [lia|done|lia]].
Qed.

Lemma balance_stage_messages messages : forall s staged delivered n,
  inv s staged delivered -> retention_is_exhausted s = false -> messages_ok messages -> balance s n ->
  balance (stage_messages s messages) (n + Z.of_nat (length messages)).
Proof.
  induction messages as [|[t msg] messages IH]; intros s staged delivered n Hinv Hlive Hok Hbal; [by rewrite Z.add_0_r|].
  apply Forall_cons in Hok as [[Ht [m Hm]] Hok]. cbn in Ht, Hm. subst msg. cbn [stage_messages].
  destruct (stage_message s t (Some m)) as [s' go] eqn:E. unfold order_ok in Ht.
  destruct (inv_stage_message _ _ _ _ _ _ _ Hinv Hlive (proj2 Ht) E) as [Hinv' Hlive'].
  pose proof (balance_stage_message _ _ _ _ _ _ _ _ Hinv (proj2 Ht) E Hbal) as Hbal'.
  destruct go; [|intros Hx; cbn in Hlive'; congruence].
  replace (n + Z.of_nat (length ((t, Some m) :: messages))) with (n + 1 + Z.of_nat (length messages)) by (cbn [length]; lia).
  by eapply IH.
Qed.

Lemma reanchor_gaps s g :
  aligned s -> 0 <= ordered_export_gaps_reported s <= next_expected_order s -> order_ok g ->
  reanchor s g = s \/ 0 < ordered_export_gaps_reported (reanchor s g).
Proof.
  intros Ha Hgaps Hg. unfold order_ok in *. destruct (Z.le_gt_cases g (next_expected_order s)).
  { left. unfold reanchor. by replace (g <=? _) with true by lia. }
  right. rewrite reanchor_aligned by (done || lia). cbn. destruct Ha as [Ha _]. rewrite u64_id by (word_unfold; lia). lia.
Qed.

Lemma balance_reanchors gaps n : forall s staged delivered,
  inv s staged delivered -> Forall order_ok gaps -> balance s n -> balance (fold_left reanchor gaps s) n.
Proof.
  induction gaps as [|g gaps IH]; intros s staged delivered Hinv Hg Hbal; [done|]. apply Forall_cons in Hg as [H1 H2]. cbn.
  destruct (inv_reanchor s staged delivered g Hinv H1) as [Hi _]. eapply IH; [done..|].
  destruct (reanchor_gaps s g (inv_aligned _ _ _ Hinv) (inv_gaps _ _ _ Hinv) H1) as [->|Hpos]; [done|]. intros _ Hz. lia.
Qed.

Lemma present_length messages : messages_ok messages -> length (present messages) = length messages.
Proof. induction 1 as [|[t m] l [_ [m' Hm]] _ IH]; [done|]. cbn in Hm. subst m. exact (f_equal S IH). Qed.

Definition received_all (s : Subscriber) (n : Z) : Prop := ordered_received_messages s = u64 n.

Lemma drop_stale_counts s :
  ordered_received_messages (drop_stale s) = ordered_received_messages s /\
  ordered_export_gaps_reported (drop_stale s) = ordered_export_gaps_reported s.
Proof. unfold drop_stale. repeat case_match; done. Qed.

Lemma stage_messages_counts messages : forall s,
  ordered_received_messages (stage_messages s messages) = ordered_received_messages s /\
  ordered_export_gaps_reported (stage_messages s messages) = ordered_export_gaps_reported s.
Proof.
  induction messages as [|[t msg] messages IH]; intros s; [done|]. cbn [stage_messages].
  assert (H : ordered_received_messages (stage_message s t msg).1 = ordered_received_messages s /\
    ordered_export_gaps_reported (stage_message s t msg).1 = ordered_export_gaps_reported s).
  { unfold stage_message. destruct msg as [m|]; [|done]. case_match; [done|].
    set (s1 := match pending_messages s with [] => _ | _ => _ end).
    assert (H1 : ordered_received_messages s1 = ordered_received_messages s /\
      ordered_export_gaps_reported s1 = ordered_export_gaps_reported s) by (unfold s1; by case_match).
    destruct (drop_stale_counts s1) as [H2 H3], H1 as [H4 H5]. rewrite <- H4, <- H5, <- H2, <- H3. repeat (case_match; try done). }
  destruct (stage_message s t msg) as [s' []]; cbn in H; [|done]. destruct (IH s') as [-> ->]. done.
Qed.
Lemma reanchors_received gaps : forall s,
  ordered_received_messages (fold_left reanchor gaps s) = ordered_received_messages s.
Proof.
  induction gaps as [|g gaps IH]; intros s; [done|]. cbn. rewrite IH. unfold reanchor, drop_stale.
  repeat (case_match; cbn; try done).
Qed.

Lemma balance_Stage s staged delivered messages gaps n :
  inv s staged delivered -> messages_ok messages -> Forall order_ok gaps -> balance s n -> received_all s n ->
  let n' := n + Z.of_nat (length (if retention_is_exhausted s then [] else present messages)) in
  balance (StageOrderedMessages s messages gaps) n' /\ received_all (StageOrderedMessages s messages gaps) n'.
Proof.
  intros Hinv Hm Hg Hbal Hr. cbn zeta. unfold StageOrderedMessages. destruct (retention_is_exhausted s) eqn:E.
  { cbn. rewrite Z.add_0_r. by destruct messages, gaps. }
  rewrite present_length by done. set (s1 := s <| ordered_received_messages ::= _ |>).
  assert (Hi1 : inv s1 staged delivered) by (by eapply inv_field). assert (Hb1 : balance s1 n) by (intros H1 H2; by apply Hbal).
  destruct (inv_reanchors gaps s1 staged delivered Hi1 Hg) as [Hi2 Hl2].
  pose proof (balance_reanchors gaps n s1 staged delivered Hi1 Hg Hb1) as Hb2.
  pose proof (balance_stage_messages messages _ _ _ _ Hi2 ltac:(by rewrite Hl2) Hm Hb2) as Hb3.
  assert (Hr3 : received_all (stage_messages (fold_left reanchor gaps s1) messages) (n + Z.of_nat (length messages))).
  { unfold received_all. rewrite (proj1 (stage_messages_counts _ _)), reanchors_received. cbn. rewrite Hr. unfold u64. by rewrite Zplus_mod_idemp_l. }
  destruct messages, gaps; try done. cbn. by rewrite Z.add_0_r.
Qed.

Lemma Stage_gaps s messages :
  ordered_export_gaps_reported (StageOrderedMessages s messages []) = ordered_export_gaps_reported s.
Proof.
  unfold StageOrderedMessages. destruct messages; [done|]. case_match; [done|]. cbn [fold_left]. by rewrite (proj2 (stage_messages_counts _ _)).
Qed.

Lemma balance_kept s s' n : kept s s' -> balance s n -> received_all s n -> balance s' n /\ received_all s' n.
Proof.
  intros (H1 & H2 & H3 & H4 & H5) Hb Hr. split; [|unfold received_all; by rewrite H1]. unfold balance. rewrite H2, H3, H4.
  intros Hx Hg. destruct (Hb Hx Hg) as (d & Hd1 & Hd2 & Hd3). exists d. split_and!; [done..|lia].
Qed.

Definition world_balance (w : world) : Prop :=
  balance (w_sub w) (Z.of_nat (length (w_staged w))) /\ received_all (w_sub w) (Z.of_nat (length (w_staged w))).

Lemma do_op_balance w o : world_inv w -> world_balance w -> op_ok o -> world_balance (do_op w o).
Proof.
  unfold world_inv, world_balance. intros Hinv [Hb Hr] Ho. destruct o as [[messages gaps|n| |]| |n]; cbn [do_op].
  - destruct Ho. cbn. rewrite length_app, Nat2Z.inj_add. by eapply balance_Stage.
  - done.
  - split; [|done]. intros Hx. done.
  - done.
  - destruct (TryPopOrderedMessageLocked _) as [ret s'] eqn:E. destruct (TryPop_spec _ _ _ _ _ Hinv E) as (_ & _ & _ & H). by eapply balance_kept.
  - destruct (TryPopOrderedMessagesLocked _ _) as [s' out] eqn:E. destruct (TryPops_spec _ _ _ _ _ _ Hinv E) as (_ & _ & H & _). by eapply balance_kept.
Qed.

Lemma run_balance ops : forall w, world_inv w -> world_balance w -> Forall op_ok ops -> world_balance (run w ops).
Proof.
  induction ops as [|o ops IH]; intros w Hw Hb Ho; [done|]. apply Forall_cons in Ho as [H1 H2]. cbn.
  apply IH; [by apply do_op_inv|by apply do_op_balance|done].
Qed.

Lemma start_balance max : world_balance (start max).
Proof. split; [|done]. intros _ _. exists 0. by cbn. Qed.

(** Two lists of the same length, one of distinct elements of the other. *)
Lemma ordered_permutation (a b : list ordered) :
  pairwise (fun x y => x.1 < y.1) a -> (forall x, x ∈ a -> x ∈ b) -> length a = length b -> a ≡ₚ b.
Proof.
  intros Hp Hsub Hlen. apply submseteq_length_Permutation; [|lia]. apply NoDup_submseteq; [|done].
  apply NoDup_alt. intros i j x Hi Hj. destruct (Nat.lt_trichotomy i j) as [H|[H|H]]; [|done|];
    [pose proof (Hp i j x x H Hi Hj)|pose proof (Hp j i x x H Hj Hi)]; cbn in *; lia.
Qed.

(** C21. When the completion check passes for [n] messages, exactly the orders 0 to
    [n - 1] were delivered, and they are all that was ever staged, each once. *)
Theorem completion_means_exactly_once max ops n w :
  Forall op_ok ops -> run (start max) ops = w -> Z.of_nat (length (w_staged w)) < 2 ^ 64 ->
  ValidateOrderedDeliveryCompletion (w_sub w) n = true ->
  Z.of_nat (length (w_delivered w)) = n /\
  (forall i p, w_delivered w !! i = Some p -> p.1 = Z.of_nat i) /\ w_delivered w ≡ₚ w_staged w.
Proof.
  intros Ho <- Hlen Hc. set (w := run _ ops) in *. pose proof (run_inv ops (start max) (world_start_inv max) Ho) as Hinv. fold w in Hinv.
  destruct (run_balance ops (start max) (world_start_inv max) (start_balance max) Ho) as [Hb Hr]. fold w in Hb, Hr.
  unfold ValidateOrderedDeliveryCompletion, OrderedDeliveryStatus_Complete, GetOrderedDeliveryStatus in Hc. cbn in Hc. bool_props.
  destruct Hb as (d & Hd1 & Hd2 & Hd3); [done..|]. destruct Hinv as [I1 I2 I3 I4 I5 I6 I7 I8 I9].
  unfold received_all in Hr. rewrite u64_id in Hr by (word_unfold; lia).
  assert (Hl : Z.of_nat (length (w_delivered w)) = n) by (rewrite I9 by done; done).
  split; [done|]. split.
  - apply (pairwise_fill _ n); [done| |done]. eapply Forall_impl; [exact I6|]. cbn. intros p [? ?]. lia.
  - apply ordered_permutation; [done| |lia]. intros [t m] Hx. rewrite Forall_forall in I6. apply I6 in Hx as [_ Hx]. by apply first_at_elem.
Qed.

(** ** The consumer's calls are operations on the lock *)
Lemma fold_receive_run ops : forall w, run w (Receive <$> ops) = mkWorld (fold_left receive ops (w_sub w)) (w_staged (run w (Receive <$> ops))) (w_delivered w).
Proof.
  induction ops as [|o ops IH]; intros w; [by destruct w|]. cbn [fmap list_fmap run fold_left]. fold (run (do_op w (Receive o)) (Receive <$> ops)).
  rewrite IH. by destruct o.
Qed.

Lemma run_app w a b : run w (a ++ b) = run (run w a) b.
Proof. apply fold_left_app. Qed.

Lemma number_snd l : forall n, (number n l).*2 = l.
Proof. induction l as [|m l IH]; intros n; [done|]. cbn. by rewrite IH. Qed.

(** What the receivers do during a call. *)
Definition turn_ops (t : turn) : list receiver_op := before_lock t ++ default [] (waiting t).

(** A call that starts in [w] and returns [out]. *)
Definition call_runs (turns : list turn) (w : world) (out : list OwnedMessage) (s' : Subscriber) : Prop :=
  exists ops, Forall (fun o => match o with Receive r => r ∈ concat (turn_ops <$> turns) | _ => True end) ops /\
    w_sub (run w ops) = s' /\ exists l, w_delivered (run w ops) = w_delivered w ++ l /\ l.*2 = out.

Lemma call_runs_nil turns w : call_runs turns w [] (w_sub w).
Proof. exists []. split; [constructor|]. split; [done|]. exists []. by rewrite app_nil_r. Qed.

Lemma call_runs_trans turns w ops out s' :
  Forall (fun o => match o with Receive r => r ∈ concat (turn_ops <$> turns) | _ => True end) ops ->
  w_delivered (run w ops) = w_delivered w -> call_runs turns (run w ops) out s' -> call_runs turns w out s'.
Proof.
  intros Hops Hd (ops' & H1 & H2 & l & H3 & H4). exists (ops ++ ops'). rewrite run_app. split; [by apply Forall_app|].
  split; [done|]. exists l. by rewrite H3, Hd.
Qed.

Lemma call_runs_weaken t turns w out s' : call_runs turns w out s' -> call_runs (t :: turns) w out s'.
Proof.
  intros (ops & H1 & H2). exists ops. split; [|done]. eapply Forall_impl; [exact H1|]. intros [r| |n]; [|done..]. cbn. set_solver.
Qed.

(** One attempt of the consumer: the receivers' operations, then a pop. *)
Lemma attempt_pop turns w rs ret s' :
  (forall r, r ∈ rs -> r ∈ concat (turn_ops <$> turns)) ->
  TryPopOrderedMessageLocked (fold_left receive rs (w_sub w)) = (ret, s') ->
  let w' := run w ((Receive <$> rs) ++ [Pop]) in
  Forall (fun o => match o with Receive r => r ∈ concat (turn_ops <$> turns) | _ => True end) ((Receive <$> rs) ++ [Pop]) /\
  w_sub w' = s' /\ exists l, w_delivered w' = w_delivered w ++ l /\ l.*2 = option_list ret.
Proof.
  intros Hrs E. cbn zeta. split.
  { apply Forall_app. split; [|by apply Forall_singleton]. apply Forall_fmap, Forall_forall. intros r Hr. by apply Hrs. }
  rewrite run_app, fold_receive_run. cbn [run fold_left do_op w_sub]. rewrite E. split; [done|]. eexists. split; [done|]. apply number_snd.
Qed.

Lemma attempt_batch turns w rs n out s' :
  (forall r, r ∈ rs -> r ∈ concat (turn_ops <$> turns)) ->
  TryPopOrderedMessagesLocked n (fold_left receive rs (w_sub w)) = (s', out) ->
  let w' := run w ((Receive <$> rs) ++ [PopBatch n]) in
  Forall (fun o => match o with Receive r => r ∈ concat (turn_ops <$> turns) | _ => True end) ((Receive <$> rs) ++ [PopBatch n]) /\
  w_sub w' = s' /\ exists l, w_delivered w' = w_delivered w ++ l /\ l.*2 = out.
Proof.
  intros Hrs E. cbn zeta. split.
  { apply Forall_app. split; [|by apply Forall_singleton]. apply Forall_fmap, Forall_forall. intros r Hr. by apply Hrs. }
  rewrite run_app, fold_receive_run. cbn [run fold_left do_op w_sub]. rewrite E. split; [done|]. eexists. split; [done|]. apply number_snd.
Qed.

Lemma call_runs_attempt turns w ops out s' :
  (Forall (fun o => match o with Receive r => r ∈ concat (turn_ops <$> turns) | _ => True end) ops /\
   w_sub (run w ops) = s' /\ exists l, w_delivered (run w ops) = w_delivered w ++ l /\ l.*2 = out) -> call_runs turns w out s'.
Proof. intros (H1 & H2 & H3). by exists ops. Qed.

Lemma attempt_empty w ops s' :
  (exists l, w_delivered (run w ops) = w_delivered w ++ l /\ l.*2 = @nil OwnedMessage) -> w_sub (run w ops) = s' ->
  w_delivered (run w ops) = w_delivered w.
Proof. intros (l & -> & Hl) _. destruct l; [|done]. by rewrite app_nil_r. Qed.

Lemma ConsumeOrdered_loop_run turns : forall w ret s',
  ConsumeOrdered_loop turns (w_sub w) = (ret, s') -> call_runs turns w (option_list ret) s'.
Proof.
  induction turns as [|t turns IH]; intros w ret s'; cbn [ConsumeOrdered_loop]; [intros [= <- <-]; apply call_runs_nil|].
  destruct (stopped (w_sub w)); [intros [= <- <-]; apply call_runs_nil|].
  destruct (TryPopOrderedMessageLocked _) as [r1 s1] eqn:E1.
  destruct (attempt_pop (t :: turns) w (before_lock t) r1 s1) as (A1 & A2 & A3); [unfold turn_ops; cbn; set_solver|done|].
  destruct r1 as [m|]; [intros [= <- <-]; eapply call_runs_attempt; by split_and!|].
  destruct (stopped s1); [intros [= <- <-]; eapply call_runs_attempt; by split_and!|].
  destruct (waiting t) as [rs|] eqn:Ew; [|intros [= <- <-]; eapply call_runs_attempt; by split_and!].
  pose proof (attempt_empty _ _ _ A3 A2) as A4. rewrite <- A2. set (w1 := run w _) in *.
  destruct (TryPopOrderedMessageLocked (fold_left _ rs _)) as [r2 s2] eqn:E2.
  destruct (attempt_pop (t :: turns) w1 rs r2 s2) as (B1 & B2 & B3); [cbn; unfold turn_ops at 1; rewrite Ew; cbn; set_solver|done|].
  intros H. apply (call_runs_trans _ _ _ _ _ A1 A4). fold w1.
  destruct r2 as [m|]; [injection H as <- <-; eapply call_runs_attempt; by split_and!|].
  pose proof (attempt_empty _ _ _ B3 B2) as B4. apply (call_runs_trans _ _ _ _ _ B1 B4).
  apply call_runs_weaken, IH. by rewrite B2.
Qed.

Lemma ConsumeOrderedBatch_loop_run n turns : forall w out s',
  ConsumeOrderedBatch_loop n turns (w_sub w) = (out, s') -> call_runs turns w out s'.
Proof.
  induction turns as [|t turns IH]; intros w out s'; cbn [ConsumeOrderedBatch_loop]; [intros [= <- <-]; apply call_runs_nil|].
  destruct (stopped (w_sub w)); [intros [= <- <-]; apply call_runs_nil|].
  destruct (TryPopOrderedMessagesLocked _ _) as [s1 o1] eqn:E1.
  destruct (attempt_batch (t :: turns) w (before_lock t) n o1 s1) as (A1 & A2 & A3); [unfold turn_ops; cbn; set_solver|done|].
  destruct o1 as [|m o1]; [|intros [= <- <-]; eapply call_runs_attempt; by split_and!].
  destruct (waiting t) as [rs|] eqn:Ew; [|intros [= <- <-]; eapply call_runs_attempt; by split_and!].
  pose proof (attempt_empty _ _ _ A3 A2) as A4. rewrite <- A2. set (w1 := run w _) in *.
  destruct (TryPopOrderedMessagesLocked n (fold_left _ rs _)) as [s2 o2] eqn:E2.
  destruct (attempt_batch (t :: turns) w1 rs n o2 s2) as (B1 & B2 & B3); [cbn; unfold turn_ops at 1; rewrite Ew; cbn; set_solver|done|].
  intros H. apply (call_runs_trans _ _ _ _ _ A1 A4). fold w1.
  destruct o2 as [|m o2]; [|injection H as <- <-; eapply call_runs_attempt; by split_and!].
  pose proof (attempt_empty _ _ _ B3 B2) as B4. apply (call_runs_trans _ _ _ _ _ B1 B4).
  apply call_runs_weaken, IH. by rewrite B2.
Qed.

(** ** Retention *)
Lemma drop_stale_max s : max_retained_messages (drop_stale s) = max_retained_messages s.
Proof. unfold drop_stale. repeat case_match; done. Qed.

Lemma stage_message_max s t msg : max_retained_messages (stage_message s t msg).1 = max_retained_messages s.
Proof.
  unfold stage_message. destruct msg as [m|]; [|done]. destruct (_ <? _); [done|]. cbn zeta.
  set (s1 := match pending_messages s with [] => _ | _ => s end). replace (max_retained_messages s) with (max_retained_messages s1) by (unfold s1; by case_match).
  clearbody s1. rewrite <- (drop_stale_max s1). repeat case_match; done.
Qed.
Lemma stage_messages_max messages : forall s, max_retained_messages (stage_messages s messages) = max_retained_messages s.
Proof.
  induction messages as [|[t msg] messages IH]; intros s; [done|]. cbn [stage_messages]. pose proof (stage_message_max s t msg) as H.
  destruct (stage_message s t msg) as [s' []]; [by rewrite IH|done].
Qed.
Lemma reanchor_max s g : max_retained_messages (reanchor s g) = max_retained_messages s.
Proof. unfold reanchor. case_match; [done|]. case_match; [done|]. by rewrite drop_stale_max. Qed.
Lemma reanchors_max gaps : forall s, max_retained_messages (fold_left reanchor gaps s) = max_retained_messages s.
Proof. induction gaps as [|g gaps IH]; intros s; [done|]. cbn. by rewrite IH, reanchor_max. Qed.
Lemma pop_loop_max n : forall s out, max_retained_messages (pop_loop n s out).1 = max_retained_messages s.
Proof. induction n as [|n IH]; intros s out; [done|]. cbn. repeat (case_match; try done). by rewrite IH. Qed.

Lemma do_op_max w o : max_retained_messages (w_sub (do_op w o)) = max_retained_messages (w_sub w).
Proof.
  destruct o as [[messages gaps|n| |]| |n]; cbn [do_op w_sub]; try done.
  - unfold StageOrderedMessages.
    assert (H : forall s, max_retained_messages (stage_messages (fold_left reanchor gaps s) messages) = max_retained_messages s)
      by (intros; by rewrite stage_messages_max, reanchors_max).
    destruct messages, gaps; try done; (case_match; [done|by rewrite H]).
  - unfold TryPopOrderedMessageLocked. destruct (pending_messages (w_sub w)); [done|]. rewrite <- (drop_stale_max (w_sub w)).
    destruct (drop_stale (w_sub w)) eqn:E. cbn. repeat case_match; simplify_eq/=; done.
  - unfold TryPopOrderedMessagesLocked. destruct (n =? 0); [done|]. destruct (pending_messages (w_sub w)); [done|].
    rewrite <- (drop_stale_max (w_sub w)). destruct (pending_messages (drop_stale (w_sub w))); [done|].
    pose proof (pop_loop_max (Z.to_nat n) (drop_stale (w_sub w)) []) as H'. destruct (pop_loop _ _ _) as [s1 out]. cbn in H'. rewrite <- H'. by destruct (pending_messages s1).
Qed.
Lemma run_max ops : forall w, max_retained_messages (w_sub (run w ops)) = max_retained_messages (w_sub w).
Proof. induction ops as [|o ops IH]; intros w; [done|]. change (run w (o :: ops)) with (run (do_op w o) ops). rewrite IH. apply do_op_max. Qed.

(** Once retention is exhausted nothing more reaches the buffer. *)
Lemma exhausted_op w o staged :
  retention_is_exhausted (w_sub w) = true -> inv (w_sub w) staged (w_delivered w) ->
  retention_is_exhausted (w_sub (do_op w o)) = true /\ inv (w_sub (do_op w o)) staged (w_delivered (do_op w o)).
Proof.
  intros Hx Hinv. destruct o as [[messages gaps|n| |]| |n]; cbn [do_op w_sub w_delivered].
  - unfold StageOrderedMessages. rewrite Hx. by destruct messages, gaps.
  - split; [done|]. by eapply inv_field.
  - split; [done|]. by eapply inv_field.
  - split; [done|]. by eapply inv_field.
  - destruct (TryPopOrderedMessageLocked _) as [ret s'] eqn:E. destruct (TryPop_spec _ _ _ _ _ Hinv E) as (_ & H & _ & Hk).
    split; [cbn; by rewrite (kept_exhausted _ _ Hk)|done].
  - destruct (TryPopOrderedMessagesLocked _ _) as [s' out] eqn:E. destruct (TryPops_spec _ _ _ _ _ _ Hinv E) as (H & _ & Hk & _).
    split; [cbn; by rewrite (kept_exhausted _ _ Hk)|done].
Qed.
Lemma exhausted_run ops staged : forall w,
  retention_is_exhausted (w_sub w) = true -> inv (w_sub w) staged (w_delivered w) ->
  retention_is_exhausted (w_sub (run w ops)) = true /\ inv (w_sub (run w ops)) staged (w_delivered (run w ops)).
Proof.
  induction ops as [|o ops IH]; intros w Hx Hinv; [done|]. change (run w (o :: ops)) with (run (do_op w o) ops). destruct (exhausted_op w o staged Hx Hinv). by apply IH.
Qed.

Lemma ConsumeOrdered_exhausted turns s : retention_is_exhausted s = true -> (ConsumeOrdered turns s).1 = None.
Proof. intros H. unfold ConsumeOrdered. destruct turns; [done|]. cbn. unfold stopped. cbn. by rewrite H, orb_true_r. Qed.
Lemma ConsumeOrderedBatch_exhausted n turns s : retention_is_exhausted s = true -> (ConsumeOrderedBatch n turns s).1 = [].
Proof.
  intros H. unfold ConsumeOrderedBatch. case_match; [done|]. destruct turns; [done|]. cbn. unfold stopped. cbn. by rewrite H, orb_true_r.
Qed.

(** C22. A message that is too far ahead of the next order for the reorder buffer
    ends delivery: the call that stages it puts no more messages, and whatever
    the receivers do afterwards, no call returns a message, completion is
    refused, and only messages staged before it are ever taken. *)
Theorem order_beyond_window_ends_delivery max ops w t m rest ops' w' turns k n :
  Forall op_ok ops -> run (start max) ops = w -> order_ok t -> next_expected_order (w_sub w) + max <= t -> 0 < max ->
  run w (Receive (Stage ((t, Some m) :: rest) []) :: ops') = w' ->
  (ConsumeOrdered turns (w_sub w')).1 = None /\ (ConsumeOrderedBatch k turns (w_sub w')).1 = [] /\
  ValidateOrderedDeliveryCompletion (w_sub w') n = false /\
  Forall (fun p => first_at p.1 (w_staged w) = Some p.2) (w_delivered w').
Proof.
  intros Ho <- Ht Hfar Hmax <-. pose proof (run_inv ops (start max) (world_start_inv max) Ho) as Hinv.
  pose proof (run_max ops (start max)) as Hm. set (w := run (start max) ops) in *. cbn in Hm.
  set (w1 := do_op w (Receive (Stage ((t, Some m) :: rest) []))).
  assert (H1 : retention_is_exhausted (w_sub w1) = true /\ inv (w_sub w1) (w_staged w) (w_delivered w1)).
  { unfold w1. cbn [do_op w_sub w_delivered]. unfold StageOrderedMessages. destruct (retention_is_exhausted (w_sub w)) eqn:Ex; [by split|].
    cbn [fold_left stage_messages]. set (s := (w_sub w) <| ordered_received_messages ::= _ |>).
    assert (Hs : inv s (w_staged w) (w_delivered w)) by (by eapply inv_field).
    rewrite stage_message_aligned by (eauto using inv_aligned; unfold order_ok in Ht; lia). cbn zeta.
    replace (t <? next_expected_order s) with false by (cbn; lia).
    replace (t - _ >=? _) with true by (cbn; rewrite Hm; lia). split; [done|].
    eapply (inv_field s); try done. intros Hp. symmetry. apply (inv_base _ _ _ Hs Hp). }
  destruct H1 as [Hx Hi]. change (run w (_ :: ops')) with (run w1 ops'). destruct (exhausted_run ops' _ w1 Hx Hi) as [Hx' Hi'].
  split_and!; [by apply ConsumeOrdered_exhausted|by apply ConsumeOrderedBatch_exhausted| |].
  - unfold ValidateOrderedDeliveryCompletion, OrderedDeliveryStatus_Complete, GetOrderedDeliveryStatus. cbn [st_retention_exhausted].
    rewrite Hx'. cbn [negb]. by rewrite andb_false_r.
  - eapply Forall_impl; [apply (inv_delivered _ _ _ Hi')|]. by intros p [_ ?].
Qed.

(** ** Examples *)
Definition demo_msg (b : Z) : OwnedMessage := mkOwnedMessage wire.HEADER_VERSION_V2 [b].
Ltac ops_ok :=
  forall_list; first [exact I|split; [unfold messages_ok; forall_list; (split; [unfold order_ok; word_unfold; cbn; lia|done])|constructor]].
Definition demo_ops : list op :=
  [Receive (Stage [(1, Some (demo_msg 11)); (3, Some (demo_msg 13))] []); Pop; Receive (Stage [(0, Some (demo_msg 10))] []); Pop].
Lemma demo_ops_ok : Forall op_ok demo_ops.
Proof. unfold demo_ops. ops_ok. Qed.

Lemma ordered_delivery_in_total_order_witness :
  let w := run (start 8) (demo_ops ++ [PopBatch 5]) in
  length (w_delivered w) = 2%nat /\ pairwise (fun a b => a.1 < b.1) (w_delivered w) /\
  Forall (fun p => first_at p.1 (w_staged w) = Some p.2) (w_delivered w).
Proof.
  intros w. split; [reflexivity|].
  destruct (ordered_delivery_in_total_order 8 (demo_ops ++ [PopBatch 5]) w) as (H1 & H2 & _); [|reflexivity|done].
  apply Forall_app. split; [exact demo_ops_ok|by apply Forall_singleton].
Defined.

Lemma pop_stops_only_at_missing_order_witness :
  let w := run (start 8) demo_ops in
  exists s' out, TryPopOrderedMessagesLocked 5 (w_sub w) = (s', out) /\ out = [demo_msg 11] /\ forall m, (2, m) ∉ w_staged w.
Proof.
  intros w. destruct (TryPopOrderedMessagesLocked 5 (w_sub w)) as [s' out] eqn:E. exists s', out.
  assert (H : let '(s', out) := TryPopOrderedMessagesLocked 5 (w_sub w) in out = [demo_msg 11] /\ next_expected_order s' = 2)
    by (vm_compute; split; reflexivity).
  rewrite E in H. destruct H as [-> Hn]. split; [reflexivity|]. split; [reflexivity|]. rewrite <- Hn.
  apply (pop_stops_only_at_missing_order 8 demo_ops 5 w s' [demo_msg 11] demo_ops_ok); [reflexivity|vm_compute; reflexivity|exact E|cbn; lia].
Defined.

Lemma completion_means_exactly_once_witness :
  let w := run (start 8) [Receive (Stage [(1, Some (demo_msg 11)); (0, Some (demo_msg 10))] []); Pop; PopBatch 2] in
  Z.of_nat (length (w_delivered w)) = 2 /\ w_delivered w ≡ₚ w_staged w.
Proof.
  intros w. destruct (completion_means_exactly_once 8 [Receive (Stage [(1, Some (demo_msg 11)); (0, Some (demo_msg 10))] []); Pop; PopBatch 2] 2 w)
    as (H1 & _ & H2); [|reflexivity..|done].
  ops_ok.
Defined.

Lemma order_beyond_window_ends_delivery_witness :
  let w' := run (run (start 8) demo_ops) [Receive (Stage [(9, Some (demo_msg 19)); (2, Some (demo_msg 12))] []); Pop] in
  length (w_delivered w') = 2%nat /\ (ConsumeOrdered [mkTurn [] (Some [])] (w_sub w')).1 = None.
Proof.
  intros w'. split; [reflexivity|].
  apply (order_beyond_window_ends_delivery 8 demo_ops (run (start 8) demo_ops) 9 (demo_msg 19) [(2, Some (demo_msg 12))] [Pop] w' [mkTurn [] (Some [])] 5 3);
    [exact demo_ops_ok|reflexivity|unfold order_ok; word_unfold; lia|vm_compute; congruence|lia|reflexivity].
Defined.
