(* ===== verification/Receivers.v ===== *)
(** A subscriber with its connections (src/client/subscriber.cc): each receiver
    thread parses the chunks of its own connection and stages what it finds; one
    consumer takes messages from the shared reorder buffer. *)

From S2P Require Import Prelude Bytes Wire StreamParser Delivery.
Import wire.

(** [c_received] records the bytes each connection has received. *)
Record client := mkClient {
  c_world : world;
  c_streams : gmap Z StreamParseState;
  c_received : gmap Z (list Z);
}.

Definition stream_of (cl : client) (c : Z) : StreamParseState := default StreamParseState_init (c_streams cl !! c).
Definition received_on (cl : client) (c : Z) : list Z := default [] (c_received cl !! c).

Inductive client_op :=
  | RecvChunk (c : Z) (data : list Z) (answers : list bool)
  | ConsumerPop
  | ConsumerPopBatch (max_messages : Z)
  | ClientShutdown.

(** The part of [ReceiveWorkerThread] that feeds the ordered stream: a chunk of
    connection [c] is parsed, and what it held is staged. *)
Definition recv_chunk (cl : client) (c : Z) (data : list Z) (ans : list bool) : client :=
  let w := c_world cl in
  let '(st, staged, errors, r) :=
    ParseAndStageOrderedBytes (stream_of cl c) data (mkRetention (retention_is_exhausted (w_sub w)) ans) in
  let w := do_op w (Receive (ParseErrors errors)) in
  let w := if retention_exhausted r then do_op w (Receive Exhaust) else w in
  let w := match staged with
           | Some (msgs, gaps) => do_op w (Receive (Stage ((fun p => (p.1, Some p.2)) <$> msgs) gaps))
           | None => w
           end in
  mkClient w (<[c := st]> (c_streams cl)) (<[c := received_on cl c ++ data]> (c_received cl)).

Definition client_step (cl : client) (o : client_op) : client :=
  match o with
  | RecvChunk c data ans => recv_chunk cl c data ans
  | ConsumerPop => mkClient (do_op (c_world cl) Pop) (c_streams cl) (c_received cl)
  | ConsumerPopBatch n => mkClient (do_op (c_world cl) (PopBatch n)) (c_streams cl) (c_received cl)
  | ClientShutdown => mkClient (do_op (c_world cl) (Receive Shutdown)) (c_streams cl) (c_received cl)
  end.
Definition client_run (cl : client) (ops : list client_op) : client := fold_left client_step ops cl.
Definition client_start (max : Z) : client := mkClient (start max) ∅ ∅.

(** * What the brokers send

    [sent c] is the stream of connection [c], and [log] the messages in total
    order, which the streams take theirs from. *)
Section subscriber.
Variable sent : Z -> list wire_batch.
Variable log : list ordered.
Hypothesis sent_wf : forall c, Forall (fun b => wf_batch b.1 b.2) (sent c).
Hypothesis sent_gapless : forall c, gap_batch_starts (stream_parsed (sent c)) = [].
Hypothesis sent_log : forall c p, p ∈ parsed_messages (stream_parsed (sent c)) -> p ∈ log.
Hypothesis log_numbered : forall i p, log !! i = Some p -> p.1 = Z.of_nat i.
Hypothesis log_size : Z.of_nat (length log) <= U64_MAX.

Definition whole (c : Z) : list Z := encode_stream (sent c).
Definition s_init : BatchMetadataState := batch_state StreamParseState_init.

(** A connection delivers a prefix of its stream. *)
Definition client_op_ok (cl : client) (o : client_op) : Prop :=
  match o with
  | RecvChunk c data _ => chunk_ok data /\ (received_on cl c ++ data) `prefix_of` whole c
  | _ => True
  end.
Fixpoint client_ops_ok (cl : client) (ops : list client_op) : Prop :=
  match ops with [] => True | o :: ops => client_op_ok cl o /\ client_ops_ok (client_step cl o) ops end.

Record client_inv (cl : client) : Prop := {
  ci_world : world_inv (c_world cl);
  ci_prefix : forall c, received_on cl c `prefix_of` whole c;
  ci_live : retention_is_exhausted (w_sub (c_world cl)) = false ->
    forall c, stream_ok (stream_of cl c) /\ byte_list (received_on cl c) /\
      exists o, rtc parses (s_init, parsed_nil, received_on cl c) (batch_state (stream_of cl c), o, carry_bytes (stream_of cl c)) /\
        forall p, p ∈ parsed_messages o -> p ∈ w_staged (c_world cl);
  ci_staged : forall p, p ∈ w_staged (c_world cl) -> exists c, p ∈ parsed_messages (stream_parsed (sent c));
  ci_gapless : ordered_export_gaps_reported (w_sub (c_world cl)) = 0;
}.

(** What a prefix of a stream gives is a prefix of what the stream gives. *)
Lemma prefix_parsed c bytes b o rest :
  bytes `prefix_of` whole c -> byte_list bytes ->
  rtc parses (s_init, parsed_nil, bytes) (b, o, rest) -> parsed_prefix o (stream_parsed (sent c)).
Proof.
  intros [x Hx] Hb Hp. apply (rtc_parses_app _ _ x) in Hp; [|done]. cbn [fst snd] in Hp. rewrite <- Hx in Hp.
  destruct (parses_stream (sent c) s_init parsed_nil [] eq_refl (sent_wf c)) as (s' & Hs' & Hp').
  rewrite app_nil_r, parsed_app_nil in Hp'. fold (whole c) in Hp'.
  assert (Hst : stuck (s', stream_parsed (sent c), [])) by apply next_item_nil.
  exact (rtc_parses_out _ _ (rtc_parses_stuck _ _ _ Hp Hp' Hst)).
Qed.

Lemma prefix_gapless c o : parsed_prefix o (stream_parsed (sent c)) -> gap_batch_starts o = [].
Proof. intros [_ H]. rewrite sent_gapless in H. by apply prefix_nil_inv in H. Qed.

Lemma prefix_messages c o p : parsed_prefix o (stream_parsed (sent c)) -> p ∈ parsed_messages o -> p ∈ parsed_messages (stream_parsed (sent c)).
Proof. intros [[x ->] _] Hp. set_solver. Qed.

Lemma log_at p : p ∈ log -> 0 <= p.1 < Z.of_nat (length log) /\ log !! Z.to_nat p.1 = Some p.
Proof.
  intros [i Hi]%list_elem_of_lookup. pose proof (log_numbered i p Hi) as Hp. pose proof (lookup_lt_Some _ _ _ Hi).
  split; [lia|]. by rewrite Hp, Nat2Z.id.
Qed.
Lemma log_order c p : p ∈ parsed_messages (stream_parsed (sent c)) -> order_ok p.1.
Proof. intros H%sent_log%log_at. unfold order_ok. lia. Qed.

Lemma stage_ok c o msgs gaps errors :
  parsed_prefix o (stream_parsed (sent c)) -> o = mkParsed msgs gaps errors ->
  messages_ok ((fun p => (p.1, Some p.2)) <$> msgs) /\ gaps = [].
Proof.
  intros Hpre ->. split; [|by apply (prefix_gapless c) in Hpre]. apply Forall_fmap, Forall_forall. intros p Hp. cbn.
  split; [|done]. eapply log_order, prefix_messages; [exact Hpre|done].
Qed.

Lemma present_some (msgs : list ordered) : present ((fun p => (p.1, Some p.2)) <$> msgs) = msgs.
Proof. induction msgs as [|[t m] msgs IH]; [done|]. cbn. f_equal. exact IH. Qed.

Lemma client_start_inv max : client_inv (client_start max).
Proof.
  constructor; [apply world_start_inv|intros c; apply prefix_nil| | |done].
  - intros _ c. split; [by split; [constructor|]|]. split; [constructor|]. exists parsed_nil. split; [done|]. cbn. set_solver.
  - cbn. set_solver.
Qed.
Lemma received_insert cl w sts c data c' :
  received_on (mkClient w sts (<[c := data]> (c_received cl))) c' = if decide (c' = c) then data else received_on cl c'.
Proof.
  unfold received_on. cbn. case_decide as H; [subst; by rewrite lookup_insert_eq|by rewrite lookup_insert_ne].
Qed.
Lemma stream_insert cl w rcv c st c' :
  stream_of (mkClient w (<[c := st]> (c_streams cl)) rcv) c' = if decide (c' = c) then st else stream_of cl c'.
Proof.
  unfold stream_of. cbn. case_decide as H; [subst; by rewrite lookup_insert_eq|by rewrite lookup_insert_ne].
Qed.

(** A chunk that finds memory exhausted, or exhausts it. *)
Lemma recv_dead_inv cl c data st w :
  client_inv cl -> (received_on cl c ++ data) `prefix_of` whole c ->
  world_inv w -> w_staged w = w_staged (c_world cl) -> ordered_export_gaps_reported (w_sub w) = 0 ->
  retention_is_exhausted (w_sub w) = true ->
  client_inv (mkClient w (<[c := st]> (c_streams cl)) (<[c := received_on cl c ++ data]> (c_received cl))).
Proof.
  intros [C1 C2 C3 C4 C5] Hpre Hw Hst Hg Hx. constructor; cbn [c_world]; [done| |congruence|by rewrite Hst|done].
  intros c'. rewrite received_insert. by case_decide; subst.
Qed.

Lemma recv_live_inv cl c data st staged errors w :
  client_inv cl -> retention_is_exhausted (w_sub (c_world cl)) = false ->
  chunk_ok data -> (received_on cl c ++ data) `prefix_of` whole c -> stream_ok st ->
  rtc parses (batch_state (stream_of cl c), parsed_nil, carry_bytes (stream_of cl c) ++ data)
    (batch_state st, staged_parsed staged errors, carry_bytes st) ->
  w = match staged with
      | Some (msgs, gaps) => do_op (do_op (c_world cl) (Receive (ParseErrors errors))) (Receive (Stage ((fun p => (p.1, Some p.2)) <$> msgs) gaps))
      | None => do_op (c_world cl) (Receive (ParseErrors errors))
      end ->
  client_inv (mkClient w (<[c := st]> (c_streams cl)) (<[c := received_on cl c ++ data]> (c_received cl))).
Proof.
  intros [C1 C2 C3 C4 C5] Hl [Hb _] Hpre Hok Hp Hw. destruct (C3 Hl c) as (_ & Hrb & o & Ho & Hin).
  apply (rtc_parses_app _ _ data) in Ho; [|done]. cbn [fst snd] in Ho.
  apply (rtc_parses_prefix o) in Hp. rewrite parsed_app_nil_r in Hp.
  assert (Hall : rtc parses (s_init, parsed_nil, received_on cl c ++ data)
    (batch_state st, parsed_app o (staged_parsed staged errors), carry_bytes st)) by (by etrans).
  assert (Hbytes : byte_list (received_on cl c ++ data)) by (by apply byte_list_app).
  pose proof (prefix_parsed c _ _ _ _ Hpre Hbytes Hall) as Hpp.
  destruct (stage_ok c (parsed_app o (staged_parsed staged errors)) _ _ _ Hpp eq_refl) as [Hm Hg].
  assert (Hw' : world_inv w /\ w_staged w = w_staged (c_world cl) ++ parsed_messages (staged_parsed staged errors) /\
    ordered_export_gaps_reported (w_sub w) = 0).
  { destruct staged as [[msgs gaps]|]; subst w; [|by split_and!; [apply do_op_inv| |]; rewrite ?app_nil_r].
    cbn in Hm, Hg. apply app_eq_nil in Hg as [_ ->]. rewrite fmap_app in Hm. apply Forall_app in Hm as [_ Hm].
    split; [apply do_op_inv; [by apply do_op_inv|by split]|]. cbn. rewrite Hl, present_some, Stage_gaps. done. }
  destruct Hw' as (Hw1 & Hw2 & Hw3). constructor; cbn [c_world].
  - done.
  - intros c'. rewrite received_insert. by case_decide; subst.
  - intros _ c'. rewrite received_insert, stream_insert. case_decide as Hc; [subst c'|].
    + split; [done|]. split; [done|]. eexists. split; [exact Hall|]. rewrite Hw2. cbn. set_solver.
    + destruct (C3 Hl c') as (? & ? & o' & ? & ?). split; [done|]. split; [done|]. exists o'. split; [done|]. rewrite Hw2. set_solver.
  - intros p. rewrite Hw2, elem_of_app. intros [Hin'|Hin']; [by apply C4|]. exists c. eapply prefix_messages; [exact Hpp|]. cbn. set_solver.
  - done.
Qed.

Lemma consumer_inv cl w :
  client_inv cl -> world_inv w -> w_staged w = w_staged (c_world cl) ->
  ordered_export_gaps_reported (w_sub w) = ordered_export_gaps_reported (w_sub (c_world cl)) ->
  retention_is_exhausted (w_sub w) = retention_is_exhausted (w_sub (c_world cl)) ->
  client_inv (mkClient w (c_streams cl) (c_received cl)).
Proof.
  intros [C1 C2 C3 C4 C5] Hw Hs Hg Hx. constructor; cbn [c_world]; [done|done| |by rewrite Hs|congruence].
  rewrite Hx, Hs. exact C3.
Qed.

Lemma pop_kept w o s' :
  world_inv w -> w_sub (do_op w o) = s' -> (o = Pop \/ exists n, o = PopBatch n) ->
  w_staged (do_op w o) = w_staged w /\ kept (w_sub w) s'.
Proof.
  intros Hw <- [->|[n ->]]; cbn [do_op].
  - destruct (TryPopOrderedMessageLocked _) as [ret s'] eqn:E. by destruct (TryPop_spec _ _ _ _ _ Hw E) as (_ & _ & _ & H).
  - destruct (TryPopOrderedMessagesLocked _ _) as [s' out] eqn:E. by destruct (TryPops_spec _ _ _ _ _ _ Hw E) as (_ & _ & H & _).
Qed.

Lemma client_step_inv cl o : client_inv cl -> client_op_ok cl o -> client_inv (client_step cl o).
Proof.
  intros Hinv Ho. destruct o as [c data ans| |n|]; cbn [client_step].
  - destruct Ho as [Hd Hpre]. unfold recv_chunk.
    destruct (ParseAndStageOrderedBytes _ _ _) as [[[st staged] errors] r] eqn:E.
    destruct (retention_is_exhausted (w_sub (c_world cl))) eqn:El.
    { rewrite ParseAndStage_dead in E by done. injection E as <- <- <- <-. cbn [retention_exhausted].
      apply recv_dead_inv; try done; [|apply Hinv]. do 2 (apply do_op_inv; [|done]). apply Hinv. }
    apply ParseAndStageOrderedBytes_spec in E as [_ E]; [|by apply (ci_live _ Hinv El c)|apply Hd..].
    destruct E as [[-> ->]|(-> & Hok & Hp)].
    { apply recv_dead_inv; try done; [|apply Hinv]. do 2 (apply do_op_inv; [|done]). apply Hinv. }
    by eapply recv_live_inv.
  - destruct (pop_kept (c_world cl) Pop _ (ci_world _ Hinv) eq_refl ltac:(by left)) as (H1 & _ & _ & H2 & H3 & _).
    apply consumer_inv; [done|apply do_op_inv; [apply Hinv|done]|done..].
  - destruct (pop_kept (c_world cl) (PopBatch n) _ (ci_world _ Hinv) eq_refl ltac:(by right; exists n)) as (H1 & _ & _ & H2 & H3 & _).
    apply consumer_inv; [done|apply do_op_inv; [apply Hinv|done]|done..].
  - apply consumer_inv; [done|apply do_op_inv; [apply Hinv|done]|done..].
Qed.

Lemma client_run_inv ops : forall cl, client_inv cl -> client_ops_ok cl ops -> client_inv (client_run cl ops).
Proof.
  induction ops as [|o ops IH]; intros cl Hinv Hok; [done|]. destruct Hok as [H1 H2]. cbn. apply IH; [by apply client_step_inv|done].
Qed.

(** The delivered messages of a gapless world that all come from the log. *)
Lemma delivered_prefix (w : world) :
  world_inv w -> ordered_export_gaps_reported (w_sub w) = 0 ->
  (forall p, p ∈ w_staged w -> exists c, p ∈ parsed_messages (stream_parsed (sent c))) ->
  w_delivered w `prefix_of` log.
Proof.
  intros [I1 I2 I3 I4 I5 I6 I7 I8 I9] Hg Hs. specialize (I9 Hg).
  assert (Hfill : forall i p, w_delivered w !! i = Some p -> p.1 = Z.of_nat i).
  { apply (pairwise_fill _ (next_expected_order (w_sub w))); [done| |done]. eapply Forall_impl; [exact I6|]. by intros p [? ?]. }
  apply prefix_of_lookup. intros i p Hi. pose proof (Hfill i p Hi) as Ht. rewrite Forall_lookup in I6. destruct (I6 i p Hi) as [_ Hf].
  apply first_at_elem in Hf. rewrite <- surjective_pairing in Hf. destruct (Hs p Hf) as [c Hc]. destruct (log_at p (sent_log c p Hc)) as [_ Hl].
  by rewrite Ht, Nat2Z.id in Hl.
Qed.

(** A connection that has received its whole stream has staged its messages. *)
Lemma received_whole cl c :
  client_inv cl -> retention_is_exhausted (w_sub (c_world cl)) = false -> received_on cl c = whole c ->
  forall p, p ∈ parsed_messages (stream_parsed (sent c)) -> p ∈ w_staged (c_world cl).
Proof.
  intros Hinv Hl Hc p Hp. destruct (ci_live _ Hinv Hl c) as ((_ & _ & Hst) & Hb & o & Ho & Hin). rewrite Hc in Ho.
  destruct (parses_stream (sent c) s_init parsed_nil [] eq_refl (sent_wf c)) as (s' & Hs' & Hp').
  rewrite app_nil_r, parsed_app_nil in Hp'. fold (whole c) in Hp'.
  assert (H : (batch_state (stream_of cl c), o, carry_bytes (stream_of cl c)) = (s', stream_parsed (sent c), [])).
  { apply (stuck_unique _ _ _ Ho Hp'); [done|apply next_item_nil]. }
  apply Hin. by injection H as _ -> _.
Qed.

(** However the chunks of the connections and the consumer interleave, and also
    when memory runs out, what has been delivered is a prefix of the log. *)
Lemma subscriber_log_prefix max ops :
  client_ops_ok (client_start max) ops -> w_delivered (c_world (client_run (client_start max) ops)) `prefix_of` log.
Proof.
  intros Hok. destruct (client_run_inv ops _ (client_start_inv max) Hok) as [C1 C2 C3 C4 C5]. by apply delivered_prefix.
Qed.

(** When every connection has received its stream and the streams together hold
    the log, a consumer that asks for at least what remains gets the rest of the
    log. *)
Lemma subscriber_whole_log max ops n out s' :
  let cl := client_run (client_start max) ops in
  client_ops_ok (client_start max) ops ->
  (forall p, p ∈ log -> exists c, received_on cl c = whole c /\ p ∈ parsed_messages (stream_parsed (sent c))) ->
  retention_is_exhausted (w_sub (c_world cl)) = false ->
  TryPopOrderedMessagesLocked n (w_sub (c_world cl)) = (s', out) ->
  (length log <= length (w_delivered (c_world cl)) + Z.to_nat n)%nat ->
  w_delivered (c_world cl) ++ number (next_expected_order (w_sub (c_world cl))) out = log.
Proof.
  intros cl Hok Hall Hl E Hn. pose proof (client_run_inv ops _ (client_start_inv max) Hok) as Hinv. fold cl in Hinv.
  destruct (TryPops_spec _ _ _ _ _ _ (ci_world _ Hinv) E) as (H1 & H2 & H3 & H4 & H5).
  assert (Hpre : (w_delivered (c_world cl) ++ number (next_expected_order (w_sub (c_world cl))) out) `prefix_of` log).
  { apply (delivered_prefix (mkWorld s' (w_staged (c_world cl)) (w_delivered (c_world cl) ++ number (next_expected_order (w_sub (c_world cl))) out)));
      [done| |apply Hinv]. destruct H3 as (_ & _ & H3 & _). cbn. rewrite H3. apply Hinv. }
  destruct Hpre as [rest Hrest]. destruct rest as [|p rest]; [by rewrite app_nil_r in Hrest|exfalso].
  destruct H5 as [H5|H5].
  { apply (f_equal length) in Hrest. rewrite !length_app, length_number in Hrest. cbn [length] in Hrest. lia. }
  assert (Hp : log !! length (w_delivered (c_world cl) ++ number (next_expected_order (w_sub (c_world cl))) out) = Some p)
    by (rewrite Hrest, lookup_app_r, Nat.sub_diag by lia; done).
  pose proof (log_numbered _ _ Hp) as Hord. apply list_elem_of_lookup_2 in Hp.
  assert (Hnext : next_expected_order s' = p.1).
  { rewrite Hord. symmetry. apply (inv_gapless _ _ _ H1). destruct H3 as (_ & _ & H3 & _). rewrite H3. apply Hinv. }
  destruct (Hall p Hp) as (c & Hc & Hin). pose proof (received_whole cl c Hinv Hl Hc p Hin) as Hst.
  assert (Hnone : first_at (next_expected_order s') (w_staged (c_world cl)) = None).
  { rewrite <- H5. symmetry. eapply front_first; [done|]. by rewrite (kept_exhausted _ _ H3). }
  rewrite first_at_None, Hnext in Hnone. apply (Hnone p.2). by rewrite <- surjective_pairing.
Qed.
End subscriber.
