(* ===== verification/Export.v ===== *)
(** The broker's side of a subscription: choosing the next batch
    (src/embarlet/topic_export.cc, the order-0 ring of src/embarlet/topic.cc) and
    sending it ([SubscribeNetworkThread] and [SendMessageData] of
    src/network_manager/network_manager.cc). *)

From S2P Require Import Prelude Bytes Wire StreamParser.
From S2P Require Import Commit CommitProofs Recovery.
Import wire.

Inductive SequencerType := EMBARCADERO | KAFKA | SCALOG | CORFU | LAZYLOG.
#[export] Instance SequencerType_eq_dec : EqDecision SequencerType.
Proof. solve_decision. Defined.
Definition kOrderPerBroker : Z := 1.
Definition kOrderTotal : Z := 2.
Definition sizeof_BatchHeader : Z := 128.

(** What an export call reads: the topic's constants, the broker's ring of
    headers by address, the index, the committed prefix and the payload bytes by
    address. *)
Record TopicView := mkTopicView {
  seq_type : SequencerType;
  order : Z;
  num_slots : Z;
  broker_id : Z;
  BATCHHEADERS_SIZE : Z;
  CXL_SIZE : Z;
  cxl_addr : Z;
  batch_headers_offset : Z;
  tinode_ordered : Z;
  ring : gmap Z BatchHeader;
  index : gmap Z GOIEntry;
  committed_seq : Z;
  payload : memory;
}.
Definition ring_start (v : TopicView) : Z := cxl_addr v + batch_headers_offset v.
Definition ring_end (v : TopicView) : Z := ring_start v + BATCHHEADERS_SIZE v.
Definition header_of (v : TopicView) (a : Z) : BatchHeader := default header_zero (ring v !! a).
Definition slot_address (v : TopicView) (i : Z) : Z := ring_start v + sizeof_BatchHeader * i.

(** A batch to send: its address and size, and for the calls that give metadata
    its first order and its number of messages. *)
Record ExportBatch := mkExportBatch {
  batch_addr : Z;
  batch_size : Z;
  x_batch_total_order : Z;
  x_num_messages : Z;
}.

(** A call gives the new cursor and the batch, if any. *)
Abbreviation export_result := (Z * option ExportBatch)%type.

(** The header that the one at [a] says to export, with the check that it lies
    in the ring. *)
Definition exported_header (v : TopicView) (a : Z) : option BatchHeader :=
  let off := bh_batch_off_to_export (header_of v a) in
  if (off >=? BATCHHEADERS_SIZE v) || negb (off mod sizeof_BatchHeader =? 0) then None
  else if (a + off <? ring_start v) || (a + off >=? ring_end v) then None
  else Some (header_of v (a + off)).

Definition GetBatchToExport (v : TopicView) (expected : Z) : export_result :=
  if num_slots v =? 0 then (expected, None)
  else
    let a := slot_address v (expected mod num_slots v) in
    if bh_ordered (header_of v a) =? 0 then (expected, None)
    else
      match exported_header v a with
      | None => (expected +u 1, None)
      | Some h =>
          if bool_decide (seq_type v = SCALOG) && (order v =? kOrderPerBroker) &&
             (bh_start_logical_offset h +u bh_num_msg h >? tinode_ordered v) then (expected, None)
          else (expected +u 1, Some (mkExportBatch (bh_log_idx h + cxl_addr v) (bh_total_size h) 0 0))
      end.

(** Corfu, order 2: the slot must hold the expected batch. *)
Definition corfu_export (v : TopicView) (expected : Z) : export_result :=
  let h := header_of v (slot_address v (expected mod num_slots v)) in
  if negb (bh_pbr_absolute_index h =? expected) then (expected, None)
  else if (bh_ordered h =? 0) || (bh_num_msg h =? 0) || (bh_total_size h =? 0) then (expected, None)
  else (expected +u 1, Some (mkExportBatch (cxl_addr v + bh_log_idx h) (bh_total_size h) (bh_total_order h) (bh_num_msg h))).

(** LazyLog, order 2: the messages are counted along [next_msg_diff]. *)
Fixpoint count_messages (fuel : nat) (d : memory) (cursor remaining counted : Z) : Z :=
  match fuel with
  | O => counted
  | S fuel =>
      if remaining <? 64 then counted
      else
        let stride := next_msg_diff (MessageHeader_load d cursor) in
        if (stride =? 0) || (stride >? remaining) then counted
        else count_messages fuel d (cursor + stride) (remaining -u stride) (u32 (counted + 1))
  end.
Definition lazylog_export (v : TopicView) (expected : Z) : export_result :=
  match GetBatchToExport v expected with
  | (e, None) => (e, None)
  | (e, Some b) =>
      if (batch_addr b =? 0) || (batch_size b <? 64) then (e, None)
      else
        let counted := count_messages (Z.to_nat (batch_size b)) (payload v) (batch_addr b) (batch_size b) 0 in
        (e, Some (mkExportBatch (batch_addr b) (batch_size b) (total_order (MessageHeader_load (payload v) (batch_addr b)))
                    (if counted >? 0 then counted else 1)))
  end.

(** Scalog, orders 1 and 2: the count is the header's. *)
Definition scalog_export (v : TopicView) (expected : Z) : export_result :=
  if num_slots v =? 0 then (expected, None)
  else
    let a := slot_address v (expected mod num_slots v) in
    if bh_ordered (header_of v a) =? 0 then (expected, None)
    else
      match exported_header v a with
      | None => (expected +u 1, None)
      | Some h =>
          let addr := bh_log_idx h + cxl_addr v in
          if (addr =? 0) || (bh_total_size h <? 64) || (bh_num_msg h =? 0) then (expected +u 1, None)
          else (expected +u 1, Some (mkExportBatch addr (bh_total_size h) (total_order (MessageHeader_load (payload v) addr)) (bh_num_msg h)))
      end.

(** Order 5: the entries of the index that this broker owns. *)
Definition exportable (v : TopicView) (g : GOIEntry) : bool :=
  (goi_broker_id g =? broker_id v) && negb ((goi_message_count g =? 0) || (goi_payload_size g =? 0)) &&
  negb ((goi_blog_offset g >=? CXL_SIZE v) || (goi_payload_size g >? CXL_SIZE v -u goi_blog_offset g)).
Definition entry_batch (v : TopicView) (g : GOIEntry) : ExportBatch :=
  mkExportBatch (cxl_addr v + goi_blog_offset g) (goi_payload_size g) (goi_total_order g) (goi_message_count g).

Fixpoint export_scan (fuel : nat) (v : TopicView) (cursor : Z) : export_result :=
  match fuel with
  | O => (cursor, None)
  | S fuel =>
      if negb (cursor <=? committed_seq v) then (cursor, None)
      else
        let g := goi_at (index v) cursor in
        if negb (goi_global_seq g =? cursor) then (cursor, None)
        else if exportable v g then (cursor +u 1, Some (entry_batch v g))
        else export_scan fuel v (cursor +u 1)
  end.
Definition goi_export (v : TopicView) (expected : Z) : export_result :=
  if cxl_addr v =? 0 then (expected, None)
  else if committed_seq v =? U64_MAX then (expected, None)
  else export_scan (Z.to_nat (committed_seq v + 1 - expected)) v expected.

(** No path sets the gap count that the caller passes. *)
Definition GetBatchToExportWithMetadata (v : TopicView) (expected : Z) : export_result :=
  if bool_decide (seq_type v = CORFU) && (order v =? 2) && (num_slots v >? 0) && negb (cxl_addr v =? 0) then corfu_export v expected
  else if bool_decide (seq_type v = LAZYLOG) && (order v =? kOrderTotal) then lazylog_export v expected
  else if bool_decide (seq_type v = SCALOG) && ((order v =? kOrderTotal) || (order v =? kOrderPerBroker)) then scalog_export v expected
  else goi_export v expected.

(** ** The ring of order-0 batches *)
Record Order0BatchSlot := mkOrder0BatchSlot {
  s0_sequence : Z;
  s0_log_idx : Z;
  s0_start_logical_offset : Z;
  s0_total_size : Z;
  s0_num_msg : Z;
  s0_client_id : Z;
  s0_header_version : Z;
}.
#[export] Instance eta_Order0BatchSlot : Eta Order0BatchSlot := fun s =>
  mkOrder0BatchSlot (s0_sequence s) (s0_log_idx s) (s0_start_logical_offset s) (s0_total_size s) (s0_num_msg s) (s0_client_id s)
    (s0_header_version s).
Definition empty_slot : Order0BatchSlot := mkOrder0BatchSlot 0 0 0 0 0 0 HEADER_VERSION_V1.
Definition kOrder0BatchRingSize : Z := 8192.
Record Order0Ring := mkOrder0Ring {
  order0_batch_write_cursor : Z;
  order0_batch_ring : gmap Z Order0BatchSlot;
}.
Definition order0_slot (r : Order0Ring) (i : Z) : Order0BatchSlot :=
  default empty_slot (order0_batch_ring r !! Z.land i (kOrder0BatchRingSize - 1)).
(** The stores of a push, in order. *)
Definition push_stores (cursor log_idx total_size num_msg start_logical_offset client_id header_version : Z) :
    list (Order0BatchSlot -> Order0BatchSlot) :=
  [fun s => s <| s0_log_idx := log_idx |>; fun s => s <| s0_start_logical_offset := start_logical_offset |>;
   fun s => s <| s0_total_size := total_size |>; fun s => s <| s0_num_msg := num_msg |>; fun s => s <| s0_client_id := client_id |>;
   fun s => s <| s0_header_version := header_version |>; fun s => s <| s0_sequence := cursor +u 1 |>].
Definition do_stores (fs : list (Order0BatchSlot -> Order0BatchSlot)) (s : Order0BatchSlot) : Order0BatchSlot :=
  fold_left (fun s f => f s) fs s.
Definition PushOrder0Batch (r : Order0Ring) (log_idx total_size num_msg start_logical_offset client_id header_version : Z) : Order0Ring :=
  let cursor := order0_batch_write_cursor r in
  mkOrder0Ring (cursor +u 1)
    (<[Z.land cursor (kOrder0BatchRingSize - 1) :=
       do_stores (push_stores cursor log_idx total_size num_msg start_logical_offset client_id header_version) (order0_slot r cursor)]>
      (order0_batch_ring r)).

(** What a reader copies out of a slot. *)
Record order0_read := mkOrder0Read {
  o0_log_idx : Z;
  o0_total_size : Z;
  o0_num_msg : Z;
  o0_header_version : Z;
}.
(** The slot as the load of the sequence number and the four loads after it
    find it. *)
Definition read_slot (at_sequence at_log_idx at_total_size at_num_msg at_header_version : Order0BatchSlot) (read_cursor : Z) :
    Z * option order0_read :=
  let seq := s0_sequence at_sequence in
  if negb (seq =? read_cursor +u 1) then ((if seq >? read_cursor +u 1 then seq -u 1 else read_cursor), None)
  else
    (read_cursor +u 1,
     Some (mkOrder0Read (s0_log_idx at_log_idx) (s0_total_size at_total_size) (s0_num_msg at_num_msg) (s0_header_version at_header_version))).
Definition ReadOrder0Batch (r : Order0Ring) (read_cursor : Z) : Z * option order0_read :=
  let slot := order0_slot r read_cursor in read_slot slot slot slot slot slot read_cursor.

(** ** Sending *)

(** The result of one [send], or of the wait after it. *)
Inductive io :=
  | Sent (n : Z)
  | WouldBlock (wait_ok : bool)
  | Failed
  | Stopped.

(** [SendMessageData]: whether the whole buffer went out, and the bytes that
    did. *)
Fixpoint SendMessageData (ios : list io) (buffer out : list Z) : bool * list Z :=
  match buffer with
  | [] => (true, out)
  | _ =>
      match ios with
      | [] => (false, out)
      | Sent n :: ios => SendMessageData ios (drop (Z.to_nat n) buffer) (out ++ take (Z.to_nat n) buffer)
      | WouldBlock wait_ok :: ios => if wait_ok then SendMessageData ios buffer out else (false, out)
      | Failed :: _ => (false, out)
      | Stopped :: _ => (false, out)
      end
  end.

(** The state of a connection's sending thread; [sub_out] is what it sent. *)
Record SubThread := mkSubThread {
  last_offset : Z;
  pending_export_gap : Z;
  sub_running : bool;
  sub_out : list Z;
}.

(** What a turn of the thread meets: the topic, the header flag, whether the
    metadata goes out (and how much of it when it does not), and the results of
    the sends. *)
Record sub_env := mkSubEnv {
  se_view : TopicView;
  se_order0 : Order0Ring;
  se_blog_header : bool;
  se_meta_sent : Z;
  se_ios : list io;
}.

(** The batch that a turn sends, with its metadata; the first component is the
    new cursor. *)
Definition select_batch (e : sub_env) (s : SubThread) : Z * option (option BatchMetadata * Z * Z) :=
  let v := se_view e in
  let ord := order v in
  if (ord =? 5) || (ord =? 2) || (ord =? 1) then
    match GetBatchToExportWithMetadata v (last_offset s) with
    | (c, None) => (c, None)
    | (c, Some b) =>
        let version := if (ord =? 5) && se_blog_header e then HEADER_VERSION_V2 else HEADER_VERSION_V1 in
        let fl := if pending_export_gap s >? 0 then BATCH_META_FLAG_EXPORT_GAP else 0 in
        (c, Some (Some (mkBatchMetadata (x_batch_total_order b) (x_num_messages b) version fl), batch_addr b, batch_size b))
    end
  else if ord >? 0 then
    match GetBatchToExport v (last_offset s) with
    | (_, None) => (last_offset s, None)
    | (c, Some b) => (c, Some (None, batch_addr b, batch_size b))
    end
  else
    match ReadOrder0Batch (se_order0 e) (last_offset s) with
    | (_, None) => (last_offset s, None)
    | (c, Some slot) =>
        (c, Some (Some (mkBatchMetadata 0 (o0_num_msg slot) (o0_header_version slot) 0), cxl_addr v + o0_log_idx slot, o0_total_size slot))
    end.

Definition SubscribeNetworkThread_turn (e : sub_env) (s : SubThread) : SubThread :=
  if negb (sub_running s) then s
  else
    match select_batch e s with
    | (c, None) => mkSubThread c (pending_export_gap s) true (sub_out s)
    | (c, Some (meta, addr, size)) =>
        let gap := match meta with
                   | Some _ => if order (se_view e) =? 0 then pending_export_gap s else 0
                   | None => pending_export_gap s
                   end in
        if (size <? 64) && negb (size =? 0) then mkSubThread c gap true (sub_out s)
        else
          let meta_bytes := match meta with Some m => BatchMetadata_bytes m | None => [] end in
          if negb (Z.of_nat (length meta_bytes) =? 0) && negb (se_meta_sent e =? 16) then
            mkSubThread c gap false (sub_out s ++ take (Z.to_nat (se_meta_sent e)) meta_bytes)
          else
            let '(ok, out) := SendMessageData (se_ios e) (bytes_at (payload (se_view e)) addr (Z.to_nat size)) (sub_out s ++ meta_bytes) in
            mkSubThread c gap ok out
    end.

(** * Exporting from the index *)

(** The view of a broker whose index starts with the log [l], committed to its
    end or before it; what stands behind [l] does not matter. *)
Definition view_of (v : TopicView) (l : list GOIEntry) : Prop :=
  prefix_of_log (index v) l /\ (forall i g, l !! i = Some g -> goi_global_seq g = Z.of_nat i) /\
  (committed_seq v = U64_MAX \/ 0 <= committed_seq v < Z.of_nat (length l)) /\ Z.of_nat (length l) < U64_MAX /\ cxl_addr v <> 0.

Definition owned (v : TopicView) (l : list GOIEntry) : list GOIEntry := filter (fun g => exportable v g = true) l.

Lemma export_scan_spec v l : view_of v l -> committed_seq v <> U64_MAX -> forall fuel k c r,
  fuel = Z.to_nat (committed_seq v + 1 - Z.of_nat k) -> export_scan fuel v (Z.of_nat k) = (c, r) ->
  exists j, c = Z.of_nat j /\ (k <= j)%nat /\ (j <= length l \/ j = k)%nat /\
    entry_batch v <$> owned v (drop k (take j l)) = option_list r /\
    (r = None -> committed_seq v < Z.of_nat j).
Proof.
  intros (Hl & Hg & Hc & Hlen & _) Hne. destruct Hc as [?|Hc]; [done|].
  induction fuel as [|fuel IH]; intros k c r Hf; cbn [export_scan].
  { intros [= <- <-]. exists k. rewrite drop_ge by (rewrite length_take; lia). split_and!; [done|lia|by right|done|lia]. }
  replace (Z.of_nat k <=? committed_seq v) with true by lia. cbn [negb].
  destruct (l !! k) as [g|] eqn:Ek; [|apply lookup_ge_None in Ek; lia].
  assert (Hat : goi_at (index v) (Z.of_nat k) = g) 
    by (unfold goi_at; rewrite Hl by (by apply lookup_lt_Some in Ek); by rewrite Ek).
  cbn zeta. rewrite Hat, (Hg _ _ Ek), Z.eqb_refl. cbn [negb].
  assert (Hdrop : forall j, (k < j)%nat -> drop k (take j l) = g :: drop (S k) (take j l)).
  { intros j Hj. apply drop_S. by rewrite lookup_take_lt. }
  replace (Z.of_nat k +u 1) with (Z.of_nat (S k)) by (rewrite u64_id; [lia|word_unfold; lia]).
  destruct (exportable v g) eqn:Ex.
  - intros [= <- <-]. exists (S k). rewrite Hdrop by lia. unfold owned. rewrite filter_cons, decide_True by done.
    rewrite drop_ge by (rewrite length_take; lia). split_and!; [done|lia|left; lia|done|done].
  - intros H. apply IH in H as (j & -> & Hj & Hjl & Hf' & Hn); [|lia]. exists j. rewrite Hdrop by lia.
    unfold owned in *. rewrite filter_cons, decide_False by congruence. split_and!; [done|lia|left; lia|done|done].
Qed.

(** One call exports the next entry that the broker owns, or has passed the
    committed prefix without finding one. *)
Lemma goi_export_spec v l k c r :
  view_of v l -> goi_export v (Z.of_nat k) = (c, r) ->
  exists j, c = Z.of_nat j /\ (k <= j)%nat /\ (j <= length l \/ j = k)%nat /\
    entry_batch v <$> owned v (drop k (take j l)) = option_list r /\
    (r = None -> committed_seq v <> U64_MAX -> committed_seq v < Z.of_nat j).
Proof.
  intros Hv. pose proof Hv as (Hl & Hg & Hc & Hlen & Ha). unfold goi_export. replace (cxl_addr v =? 0) with false by lia.
  destruct (committed_seq v =? U64_MAX) eqn:E; bool_props.
  - intros [= <- <-]. exists k. rewrite drop_ge by (rewrite length_take; lia). split_and!; [done|lia|by right|done|done].
  - intros H. eapply export_scan_spec in H as (j & ?); [|done..]. by exists j; naive_solver.
Qed.

Lemma SendMessageData_spec ios : forall buffer out ok out',
  SendMessageData ios buffer out = (ok, out') ->
  out `prefix_of` out' /\ out' `prefix_of` (out ++ buffer) /\ (ok = true -> out' = out ++ buffer).
Proof.
  induction ios as [|i ios IH]; intros buffer out ok out'; destruct buffer as [|b buffer]; cbn [SendMessageData].
  1,3: intros [= <- <-]; by rewrite app_nil_r.
  { intros [= <- <-]. split_and!; [done|by apply prefix_app_r|done]. }
  assert (Hstop : (false, out) = (ok, out') -> out `prefix_of` out' /\ out' `prefix_of` (out ++ b :: buffer) /\ (ok = true -> out' = out ++ b :: buffer)).
  { intros [= <- <-]. split_and!; [done|by apply prefix_app_r|done]. }
  destruct i as [n|w| |]; auto.
  - intros H. apply IH in H as (H1 & H2 & H3). rewrite <- app_assoc, take_drop in *. split_and!; [|done|done].
    etrans; [|exact H1]. by apply prefix_app_r.
  - destruct w; [apply IH|done].
Qed.

(** * A connection of order 5

    [L] is the log, [v0] has the broker's constants, and [frames g] are the
    messages that the payload of an entry holds. *)
Section connection.
Variable v0 : TopicView.
Variable L : list GOIEntry.
Variable frames : GOIEntry -> list (list Z).

Definition entry_metadata (g : GOIEntry) : BatchMetadata :=
  mkBatchMetadata (goi_total_order g) (goi_message_count g) HEADER_VERSION_V2 0.
Definition entry_wire (g : GOIEntry) : wire_batch := (entry_metadata g, frames g).

(** The payload of an entry is its messages. *)
Definition entry_payload (g : GOIEntry) : Prop :=
  goi_payload_size g = size_of (concat (frames g)) /\ 64 <= goi_payload_size g.
Hypothesis owned_payload : forall g, g ∈ owned v0 L -> entry_payload g.

(** A turn sees a prefix of the log, and the payloads in its memory. *)
Definition turn_view (e : sub_env) (l : list GOIEntry) : Prop :=
  let v := se_view e in
  order v = 5 /\ seq_type v = EMBARCADERO /\ se_blog_header e = true /\
  broker_id v = broker_id v0 /\ CXL_SIZE v = CXL_SIZE v0 /\ l `prefix_of` L /\ view_of v l /\
  forall g, g ∈ owned v0 l ->
    bytes_at (payload v) (cxl_addr v + goi_blog_offset g) (Z.to_nat (goi_payload_size g)) = concat (frames g).
Definition turn_ok (e : sub_env) : Prop := exists l, turn_view e l.

Definition sent_entries (k : nat) : list Z := encode_stream (entry_wire <$> owned v0 (take k L)).

Record thread_inv (s : SubThread) : Prop := {
  th_gap : pending_export_gap s = 0;
  th_out : exists k, last_offset s = Z.of_nat k /\ (k <= length L)%nat /\
    if sub_running s then sub_out s = sent_entries k else sub_out s `prefix_of` sent_entries k;
}.

Lemma owned_ext v l : broker_id v = broker_id v0 -> CXL_SIZE v = CXL_SIZE v0 -> owned v l = owned v0 l.
Proof. intros H1 H2. apply filter_ext_in. intros g _. unfold exportable. by rewrite H1, H2. Qed.

Lemma owned_app v a b : owned v (a ++ b) = owned v a ++ owned v b.
Proof. apply filter_app. Qed.

Lemma take_grow (k j : nat) : (k <= j)%nat -> take j L = take k L ++ drop k (take j L).
Proof. intros H. rewrite <- (take_drop k (take j L)) at 1. by rewrite take_take, Nat.min_l. Qed.

Lemma sent_entries_grow k j :
  (k <= j)%nat -> sent_entries j = sent_entries k ++ encode_stream (entry_wire <$> owned v0 (drop k (take j L))).
Proof.
  intros H. unfold sent_entries, encode_stream. rewrite (take_grow k j H) at 1. by rewrite owned_app, !fmap_app, concat_app.
Qed.

(** What a turn of the connection selects. *)
Lemma select_entry e l s k :
  turn_view e l -> last_offset s = Z.of_nat k -> pending_export_gap s = 0 -> (k <= length L)%nat ->
  exists j, (k <= j <= length L)%nat /\
    ((select_batch e s = (Z.of_nat j, None) /\ owned v0 (drop k (take j L)) = [] /\
      (committed_seq (se_view e) <> U64_MAX -> committed_seq (se_view e) < Z.of_nat j)) \/
     exists g, owned v0 (drop k (take j L)) = [g] /\ g ∈ owned v0 l /\
       select_batch e s = (Z.of_nat j, Some (Some (entry_metadata g), cxl_addr (se_view e) + goi_blog_offset g, goi_payload_size g))).
Proof.
  intros (Ho & Hs & Hb & H1 & H2 & [x HL] & Hv & _) Hk Hg Hle. unfold select_batch. rewrite Ho, Hb, Hk, Hg. cbn [Z.eqb Pos.eqb orb andb].
  unfold GetBatchToExportWithMetadata. rewrite Ho, Hs. rewrite !bool_decide_eq_false_2 by done. cbn [andb].
  destruct (goi_export _ _) as [c r] eqn:E. destruct (goi_export_spec _ _ _ _ _ Hv E) as (j & -> & Hj1 & Hj2 & Hf & Hn).
  assert (Hjl : (j <= length L)%nat) by (destruct Hj2; [rewrite HL, length_app; lia|lia]). exists j. split; [lia|].
  assert (Ht : drop k (take j L) = drop k (take j l)).
  { destruct Hj2 as [Hj2| ->]; [by rewrite HL, take_app_le|]. rewrite !drop_ge by (rewrite length_take; lia). done. }
  rewrite (owned_ext (se_view e)) in Hf by done. rewrite Ht. destruct r as [b|]; cbn [option_list] in Hf.
  - right. destruct (owned v0 (drop k (take j l))) as [|g [|]] eqn:Eo; [discriminate Hf| |discriminate Hf].
    assert (b = entry_batch (se_view e) g) as -> by (by injection Hf). exists g. split; [done|]. split; [|done].
    assert (Hin : g ∈ owned v0 (drop k (take j l))) by (rewrite Eo; set_solver). unfold owned in *.
    apply list_elem_of_filter in Hin as [Hx Hin]. apply list_elem_of_filter. split; [done|].
    rewrite <- (take_drop j l), <- (take_drop k (take j l)). set_solver.
  - left. split; [done|]. split; [by destruct (owned v0 (drop k (take j l)))|]. by apply Hn.
Qed.

Lemma encode_one g : encode_stream (entry_wire <$> [g]) = BatchMetadata_bytes (entry_metadata g) ++ concat (frames g).
Proof. unfold encode_stream. cbn. by rewrite app_nil_r. Qed.

Lemma turn_inv e s : thread_inv s -> turn_ok e -> thread_inv (SubscribeNetworkThread_turn e s).
Proof.
  intros [Hg (k & Hk & Hle & Hout)] (l & Hv). unfold SubscribeNetworkThread_turn.
  destruct (sub_running s) eqn:Er; cbn [negb]; [|constructor; [done|]; exists k; by rewrite Er].
  destruct (select_entry e l s k Hv Hk Hg Hle) as (j & Hj & [(-> & Ho & _)|(g & Ho & Hgl & ->)]).
  { constructor; [done|]. exists j. cbn. split_and!; [done|lia|]. rewrite (sent_entries_grow k j), Ho by lia. cbn. by rewrite app_nil_r. }
  pose proof (sent_entries_grow k j ltac:(lia)) as Hgrow. rewrite Ho, encode_one in Hgrow.
  pose proof Hv as (Hord & _ & _ & _ & _ & [x HL] & _ & Hpay).
  assert (HgL : g ∈ owned v0 L) by (rewrite HL, owned_app; set_solver).
  destruct (owned_payload g HgL) as [Hsz H64]. rewrite Hord. cbn [Z.eqb Pos.eqb].
  replace ((goi_payload_size g <? 64) && _) with false by lia. rewrite BatchMetadata_length. cbn [Z.of_nat Z.eqb negb andb].
  destruct (se_meta_sent e =? 16) eqn:Em; cbn [negb].
  - rewrite Hpay by done. destruct (SendMessageData _ _ _) as [ok out] eqn:Es.
    apply SendMessageData_spec in Es as (Hp1 & Hp2 & Hok). constructor; [done|]. exists j. cbn. split_and!; [done|lia|].
    rewrite Hgrow, <- Hout, app_assoc. destruct ok; [by apply Hok|done].
  - constructor; [done|]. exists j. cbn. split_and!; [done|lia|]. rewrite Hgrow, <- Hout. apply prefix_app.
    etrans; [apply prefix_take|]. by apply prefix_app_r.
Qed.

Definition sub_start : SubThread := mkSubThread 0 0 true [].
Definition sub_run (es : list sub_env) : SubThread := fold_left (fun s e => SubscribeNetworkThread_turn e s) es sub_start.

Lemma sub_run_inv es : Forall turn_ok es -> thread_inv (sub_run es).
Proof.
  unfold sub_run. assert (H : thread_inv sub_start) by (constructor; [done|]; exists 0%nat; split_and!; [done|lia|done]).
  revert H. generalize sub_start. induction es as [|e es IH]; intros s Hs Hes; [done|]. apply Forall_cons in Hes as [H1 H2].
  cbn. apply IH; [by apply turn_inv|done].
Qed.

(** Whatever the sends do, the bytes that leave a connection are a prefix of the
    broker's entries of the log, each once and in the order of the log. *)
Lemma connection_sends_prefix es :
  Forall turn_ok es -> sub_out (sub_run es) `prefix_of` encode_stream (entry_wire <$> owned v0 L).
Proof.
  intros Hes. destruct (sub_run_inv es Hes) as [_ (k & _ & Hk & Hout)].
  assert (Hp : sent_entries k `prefix_of` encode_stream (entry_wire <$> owned v0 L)).
  { unfold sent_entries. rewrite <- (take_drop k L) at 2. unfold encode_stream. rewrite owned_app, !fmap_app, concat_app. by apply prefix_app_r. }
  destruct (sub_running _); [by rewrite Hout|by etrans].
Qed.

(** A connection that still runs and finds nothing more, when the whole log is
    committed, has sent all the entries. *)
Lemma connection_sends_all es e :
  Forall turn_ok es -> turn_view e L -> committed_seq (se_view e) = Z.of_nat (length L) - 1 ->
  sub_running (sub_run es) = true -> (select_batch e (sub_run es)).2 = None ->
  sub_out (sub_run es) = encode_stream (entry_wire <$> owned v0 L).
Proof.
  intros Hes Hv Hc Hr Hn. destruct (sub_run_inv es Hes) as [Hg (k & Hk & Hle & Hout)]. rewrite Hr in Hout.
  destruct (select_entry e L _ k Hv Hk Hg Hle) as (j & Hj & [(Hs & Ho & Hcj)|(g & _ & _ & Hs)]); [|by rewrite Hs in Hn].
  destruct Hv as (_ & _ & _ & _ & _ & _ & (_ & _ & Hcomm & Hlen & _) & _). rewrite Hout. specialize (Hcj ltac:(lia)).
  pose proof (sent_entries_grow k j ltac:(lia)) as Hgrow. rewrite Ho in Hgrow. cbn in Hgrow. rewrite app_nil_r in Hgrow. rewrite <- Hgrow.
  unfold sent_entries. by rewrite take_ge by lia.
Qed.
End connection.

(** * The order-0 ring *)
Record order0_batch := mkOrder0Batch { p_read : order0_read; p_start_logical_offset : Z; p_client_id : Z }.
Definition push (r : Order0Ring) (b : order0_batch) : Order0Ring :=
  let x := p_read b in
  PushOrder0Batch r (o0_log_idx x) (o0_total_size x) (o0_num_msg x) (p_start_logical_offset b) (p_client_id b) (o0_header_version x).
Definition order0_ring (ps : list order0_batch) : Order0Ring := fold_left push ps (mkOrder0Ring 0 ∅).
Definition slot_of (i : nat) (b : order0_batch) : Order0BatchSlot :=
  let x := p_read b in
  mkOrder0BatchSlot (Z.of_nat i + 1) (o0_log_idx x) (p_start_logical_offset b) (o0_total_size x) (o0_num_msg x) (p_client_id b)
    (o0_header_version x).

Lemma ring_mask i : Z.land i (kOrder0BatchRingSize - 1) = i mod kOrder0BatchRingSize.
Proof. change (kOrder0BatchRingSize - 1) with (Z.ones 13). by rewrite Z.land_ones. Qed.

(** The ring holds the last 8192 pushes. *)
Lemma order0_ring_inv ps :
  Z.of_nat (length ps) < 2 ^ 64 ->
  order0_batch_write_cursor (order0_ring ps) = Z.of_nat (length ps) /\
  forall i b, ps !! i = Some b -> Z.of_nat (length ps) - kOrder0BatchRingSize <= Z.of_nat i ->
    order0_slot (order0_ring ps) (Z.of_nat i) = slot_of i b.
Proof.
  induction ps as [|p ps IH] using rev_ind; intros Hl; [done|]. rewrite length_app in *. cbn in Hl.
  destruct IH as [IH1 IH2]; [lia|]. unfold order0_ring in *. rewrite fold_left_app. cbn [fold_left].
  set (r := fold_left push ps _) in *. clearbody r. unfold push, PushOrder0Batch. rewrite IH1. unfold do_stores, push_stores. cbn [fold_left].
  destruct (decide (Z.of_nat (length ps) + 1 = 2 ^ 64)) as [He|Hne]; [lia|].
  rewrite u64_id by (word_unfold; lia). split; [cbn; lia|].
  intros i b Hi Hge. unfold order0_slot. cbn [order0_batch_ring]. rewrite !ring_mask.
  apply lookup_snoc_Some in Hi as [[Hi Hb]|[-> <-]]; [|by rewrite lookup_insert_eq].
  rewrite lookup_insert_ne, <- ring_mask; [apply (IH2 _ _ Hb); lia|].
  unfold kOrder0BatchRingSize in *. cbn in Hge. intros Hm. pose proof (Z.div_mod (Z.of_nat i) 8192 ltac:(lia)).
  pose proof (Z.div_mod (Z.of_nat (length ps)) 8192 ltac:(lia)). lia.
Qed.

(** A reader that is at most 8192 batches behind reads the pushes in order. *)
Lemma ReadOrder0Batch_next ps (c : nat) b :
  Z.of_nat (length ps) < 2 ^ 64 -> ps !! c = Some b -> Z.of_nat (length ps) - kOrder0BatchRingSize <= Z.of_nat c ->
  ReadOrder0Batch (order0_ring ps) (Z.of_nat c) = (Z.of_nat (S c), Some (p_read b)).
Proof.
  intros Hl Hc Hge. destruct (order0_ring_inv ps Hl) as [_ H]. unfold ReadOrder0Batch, read_slot. rewrite (H _ _ Hc Hge).
  assert (c < length ps)%nat by (by eapply lookup_lt_Some). rewrite u64_id by (word_unfold; lia).
  cbn [slot_of s0_sequence]. rewrite Z.eqb_refl. cbn [negb]. f_equal; [lia|]. by destruct b as [[] ? ?].
Qed.

(** A reader that is further behind finds a later batch in its slot. *)
Lemma ReadOrder0Batch_overrun ps (c : nat) :
  Z.of_nat (length ps) < 2 ^ 64 -> Z.of_nat c < Z.of_nat (length ps) - kOrder0BatchRingSize ->
  exists j, (c < j < length ps)%nat /\ ReadOrder0Batch (order0_ring ps) (Z.of_nat c) = (Z.of_nat j, None).
Proof.
  intros Hl Hc. unfold kOrder0BatchRingSize in *. set (n := Z.of_nat (length ps)) in *.
  set (q := (n - 1 - Z.of_nat c) / 8192). set (j := (c + Z.to_nat (8192 * q))%nat).
  pose proof (Z.div_mod (n - 1 - Z.of_nat c) 8192 ltac:(lia)) as Hd. pose proof (Z.mod_pos_bound (n - 1 - Z.of_nat c) 8192 ltac:(lia)) as Hm.
  fold q in Hd. assert (Hj : Z.of_nat j = Z.of_nat c + 8192 * q) by lia. exists j. split; [lia|].
  destruct (lookup_lt_is_Some_2 ps j) as [b Hb]; [lia|].
  destruct (order0_ring_inv ps Hl) as [_ H]. specialize (H _ _ Hb ltac:(unfold kOrder0BatchRingSize; lia)).
  assert (Hs : order0_slot (order0_ring ps) (Z.of_nat c) = slot_of j b).
  { rewrite <- H. unfold order0_slot. rewrite !ring_mask. unfold kOrder0BatchRingSize.
    by rewrite Hj, (Z.mul_comm 8192), Z.mod_add by lia. }
  unfold ReadOrder0Batch, read_slot. rewrite Hs. cbn [slot_of s0_sequence].
  rewrite u64_id by (word_unfold; lia). replace (_ =? _) with false by lia. cbn [negb]. replace (_ >? _) with true by lia.
  rewrite u64_id by (word_unfold; lia). f_equal. lia.
Qed.

(** A connection of order 0 that has fallen more than 8192 batches behind never
    sends anything again: the cursor that [ReadOrder0Batch] moves forward is not
    the thread's. *)
Theorem order0_overrun_stalls_connection ps more (c : nat) e s :
  Z.of_nat (length (ps ++ more)) < 2 ^ 64 -> Z.of_nat c < Z.of_nat (length ps) - kOrder0BatchRingSize ->
  order (se_view e) = 0 -> se_order0 e = order0_ring (ps ++ more) -> sub_running s = true -> last_offset s = Z.of_nat c ->
  SubscribeNetworkThread_turn e s = s.
Proof.
  intros Hl Hc Ho He Hr Hs. rewrite length_app in Hl.
  destruct (ReadOrder0Batch_overrun (ps ++ more) c) as (j & _ & Hj); [rewrite length_app; lia|rewrite length_app; lia|].
  unfold SubscribeNetworkThread_turn, select_batch. rewrite Hr, Ho, He, Hs, Hj. destruct s; cbn in *. by subst.
Qed.

Definition demo_order0 : order0_batch := mkOrder0Batch (mkOrder0Read 0 64 1 1) 0 7.
Lemma order0_overrun_stalls_connection_witness :
  let v := mkTopicView EMBARCADERO 0 0 0 0 (2 ^ 30) 65536 0 0 ∅ ∅ U64_MAX ∅ in
  let e := mkSubEnv v (order0_ring (replicate (Z.to_nat 8200) demo_order0 ++ [demo_order0])) false 16 [Sent 64] in
  SubscribeNetworkThread_turn e (mkSubThread 3 0 true []) = mkSubThread 3 0 true [].
Proof.
  intros v e. apply (order0_overrun_stalls_connection (replicate (Z.to_nat 8200) demo_order0) [demo_order0] 3);
    rewrite ?length_app, ?length_replicate; (reflexivity || (unfold kOrder0BatchRingSize; cbn; lia)).
Defined.

(** A slot that is overwritten between the load of its sequence number and the
    other loads is read torn: the payload of the new batch with the size of the
    old one. *)
Example order0_read_is_torn :
  let old := do_stores (push_stores 0 4096 64 1 0 7 1) empty_slot in
  let overwritten := do_stores (take 1 (push_stores 8192 65536 1280 20 160 9 1)) old in
  read_slot old overwritten overwritten overwritten overwritten 0 = (1, Some (mkOrder0Read 65536 64 1 1)).
Proof. reflexivity. Qed.
