(* ===== verification/EndToEnd.v ===== *)
(** From the sequencer's index to the consumer: brokers send the entries that
    they own (Export.v), a subscriber receives the streams in chunks and
    delivers the messages (Receivers.v).  What it delivers is the log. *)

From S2P Require Import Prelude Bytes Wire StreamParser Delivery Receivers.
From S2P Require Import Sorting ClientState Dedup Order5State Classifier ClassifierInv ClassifierSpec Commit CommitProofs CommitSpec Export Pipeline.
Import wire.

(** ** The messages of a log *)
Section log.
Variable frames : GOIEntry -> list (list Z).

(** An entry as a publisher wrote it: as many frames as it counts, version 2,
    their order field still 0. *)
Record entry_ok (g : GOIEntry) : Prop := {
  eo_count : goi_message_count g = Z.of_nat (length (frames g));
  eo_max : goi_message_count g <= MAX_BATCH_MESSAGES;
  eo_wf : Forall (wf_frame HEADER_VERSION_V2) (frames g);
  eo_zero : Forall (fun f => ReadWireField 8 f 32 = 0) (frames g);
  eo_size : goi_payload_size g = size_of (concat (frames g));
}.

Definition entry_messages (g : GOIEntry) : list ordered := frame_messages HEADER_VERSION_V2 (goi_total_order g) (frames g).
Definition log_messages (l : list GOIEntry) : list ordered := concat (entry_messages <$> l).

Lemma frame_messages_numbered v fs : forall next,
  0 <= next -> next + Z.of_nat (length fs) < 2 ^ 64 -> Forall (fun f => ReadWireField 8 f 32 = 0) fs ->
  length (frame_messages v next fs) = length fs /\
  forall i p, frame_messages v next fs !! i = Some p -> p.1 = next + Z.of_nat i.
Proof.
  induction fs as [|f fs IH]; intros next H0 Hlt Hz; [done|]. apply Forall_cons in Hz as [Hf Hz]. cbn [length] in Hlt.
  cbn [frame_messages]. rewrite Hf, Z.eqb_refl. rewrite u64_id by (word_unfold; lia).
  destruct (IH (next + 1)) as [IH1 IH2]; [lia..|done|]. split; [cbn; by rewrite IH1|].
  intros [|i] p Hp; cbn in Hp; [simplify_eq; cbn; lia|]. apply IH2 in Hp. lia.
Qed.

Lemma log_messages_numbered l : forall idx start stop,
  0 <= start -> stop < 2 ^ 64 -> Forall entry_ok l -> tiles idx start l stop ->
  start + Z.of_nat (length (log_messages l)) = stop /\
  forall i p, log_messages l !! i = Some p -> p.1 = start + Z.of_nat i.
Proof.
  induction l as [|g l IH]; intros idx start stop H0 Hlt Hok Ht; [cbn in *; split; [lia|done]|].
  apply Forall_cons in Hok as [Hg Hok]. destruct Ht as (_ & Hs & Ht). destruct Hg as [G1 G2 G3 G4 G5].
  destruct (IH (idx + 1) (start + goi_message_count g) stop ltac:(lia) Hlt Hok Ht) as [IH1 IH2]. unfold log_messages in *. cbn [fmap list_fmap concat]. unfold entry_messages at 1 3.
  destruct (frame_messages_numbered HEADER_VERSION_V2 (frames g) (goi_total_order g)) as [F1 F2]; [lia..|done|].
  rewrite length_app, F1. split; [lia|]. intros i p Hp. apply lookup_app_Some in Hp as [Hp|[Hge Hp]].
  - apply F2 in Hp. lia.
  - apply IH2 in Hp. lia.
Qed.
End log.

(** ** One log, its brokers and a subscriber *)
Section delivery.
Variable frames : GOIEntry -> list (list Z).
Variable v0 : Z -> TopicView.
Variable L : list GOIEntry.
Variable N : Z.
Hypothesis L_tiles : tiles 0 0 L N.
Hypothesis L_small : N <= MAX_BATCH_TOTAL_ORDER.
Hypothesis L_entries : Forall (entry_ok frames) L.

Definition sent (c : Z) : list wire_batch := entry_wire frames <$> owned (v0 c) L.

Lemma log_tiles_bounds l : forall idx start stop,
  tiles idx start l stop -> Forall (entry_ok frames) l -> 0 <= start ->
  start <= stop /\ Forall (fun g => start <= goi_total_order g /\ goi_total_order g + goi_message_count g <= stop) l.
Proof.
  induction l as [|g l IH]; intros idx start stop Ht Hok H0; [cbn in Ht; split; [lia|constructor]|].
  destruct Ht as (_ & Hs & Ht). apply Forall_cons in Hok as [Hg Hok]. pose proof (eo_count _ _ Hg).
  destruct (IH _ _ _ Ht Hok ltac:(lia)) as [H1 H2]. split; [lia|]. constructor; [lia|].
  eapply Forall_impl; [exact H2|]. cbn. lia.
Qed.

Lemma owned_entry c g : g ∈ owned (v0 c) L ->
  g ∈ L /\ entry_ok frames g /\ 0 < goi_message_count g /\ 0 <= goi_total_order g /\ goi_total_order g + goi_message_count g <= N.
Proof.
  intros [Hx Hg]%list_elem_of_filter. destruct (log_tiles_bounds L 0 0 N L_tiles L_entries ltac:(lia)) as [_ Hb].
  rewrite Forall_forall in Hb. pose proof (Hb g Hg). pose proof L_entries as He. rewrite Forall_forall in He. specialize (He g Hg).
  split; [done|]. split; [done|]. split; [|lia]. unfold exportable in Hx. bool_props. pose proof (eo_count _ _ He). lia.
Qed.

Lemma sent_batches_wf c : Forall (fun b => wf_batch b.1 b.2) (sent c).
Proof.
  apply Forall_fmap, Forall_forall. intros g Hg. destruct (owned_entry c g Hg) as (_ & [G1 G2 G3 G4 G5] & Hpos & H0 & HN).
  unfold MAX_BATCH_TOTAL_ORDER, MAX_BATCH_MESSAGES in *. cbn. split_and!; [|..].
  - unfold BatchMetadata_fields, entry_metadata. cbn. forall_list; unfold field_wf; cbn; unfold HEADER_VERSION_V2; lia.
  - unfold valid_metadata, entry_metadata, MAX_BATCH_TOTAL_ORDER, MAX_BATCH_MESSAGES. cbn. lia.
  - done.
  - done.
Qed.

Lemma sent_no_gaps c : gap_batch_starts (stream_parsed (sent c)) = [].
Proof. unfold sent. induction (owned (v0 c) L) as [|g l IH]; [done|]. cbn. exact IH. Qed.

Lemma sent_messages c : parsed_messages (stream_parsed (sent c)) = log_messages frames (owned (v0 c) L).
Proof. unfold sent. induction (owned (v0 c) L) as [|g l IH]; [done|]. exact (f_equal (app (entry_messages frames g)) IH). Qed.

Lemma elem_log_messages p l : p ∈ log_messages frames l <-> exists g, g ∈ l /\ p ∈ entry_messages frames g.
Proof.
  induction l as [|g l IH]; [cbn; set_solver|]. change (log_messages frames (g :: l)) with (entry_messages frames g ++ log_messages frames l).
  rewrite elem_of_app, IH. set_solver.
Qed.

Lemma sent_in_log c p : p ∈ parsed_messages (stream_parsed (sent c)) -> p ∈ log_messages frames L.
Proof.
  rewrite sent_messages, !elem_log_messages. intros (g & [_ Hg]%list_elem_of_filter & Hp). by exists g.
Qed.

Lemma log_is_numbered i p : log_messages frames L !! i = Some p -> p.1 = Z.of_nat i.
Proof. apply (log_messages_numbered frames L 0 0 N); unfold MAX_BATCH_TOTAL_ORDER in *; (done || lia). Qed.
Lemma log_length : Z.of_nat (length (log_messages frames L)) = N.
Proof. destruct (log_messages_numbered frames L 0 0 N) as [H _]; unfold MAX_BATCH_TOTAL_ORDER in *; (done || lia). Qed.

(** ** A subscriber of the log *)

Lemma received_recv cl c data ans c' :
  received_on (recv_chunk cl c data ans) c' = if decide (c' = c) then received_on cl c ++ data else received_on cl c'.
Proof. unfold recv_chunk. destruct (ParseAndStageOrderedBytes _ _ _) as [[[st staged] errors] r]. apply received_insert. Qed.

(** The bytes a connection has received grow. *)
Lemma received_grows ops : forall cl c, received_on cl c `prefix_of` received_on (client_run cl ops) c.
Proof.
  induction ops as [|o ops IH]; intros cl c; [done|]. cbn. etrans; [|apply IH]. destruct o as [c' data ans| |n|]; cbn; try done.
  rewrite received_recv. case_decide; [subst; by apply prefix_app_r|done].
Qed.

Lemma ops_ok_of_final bytes ops : forall cl,
  Forall (fun o => match o with RecvChunk _ data _ => chunk_ok data | _ => True end) ops ->
  (forall c, received_on (client_run cl ops) c `prefix_of` bytes c) -> (forall c, bytes c `prefix_of` whole sent c) ->
  client_ops_ok sent cl ops.
Proof.
  induction ops as [|o ops IH]; intros cl Hok Hrec Hb; [done|]. apply Forall_cons in Hok as [H1 H2]. split; [|by apply IH].
  destruct o as [c data ans| |n|]; try done. split; [done|]. etrans; [|apply Hb]. etrans; [|apply Hrec].
  etrans; [|apply (received_grows ops (client_step cl (RecvChunk c data ans)))].
  cbn [client_step]. by rewrite received_recv, decide_True.
Qed.

(** The turns of each broker's sending thread, and what the subscriber has
    received of its bytes. *)
Definition subscribed (es : Z -> list sub_env) (max : Z) (ops : list client_op) : Prop :=
  (forall c, Forall (turn_ok (v0 c) L frames) (es c)) /\
  Forall (fun o => match o with RecvChunk _ data _ => chunk_ok data | _ => True end) ops /\
  forall c, received_on (client_run (client_start max) ops) c `prefix_of` sub_out (sub_run (es c)).

Lemma owned_payloads c g : g ∈ owned (v0 c) L -> entry_payload frames g.
Proof.
  intros Hg. destruct (owned_entry c g Hg) as (_ & [G1 G2 G3 G4 G5] & Hpos & _). split; [done|]. rewrite G5.
  destruct (frames g) as [|f fs]; [cbn in *; lia|]. apply Forall_cons in G3 as [(_ & Hf & _) _]. cbn [concat]. rewrite size_of_app.
  assert (0 <= size_of (concat fs)) by (unfold size_of; lia). lia.
Qed.

Lemma subscribed_ok es max ops : subscribed es max ops -> client_ops_ok sent (client_start max) ops.
Proof.
  intros (He & Hc & Hr). apply (ops_ok_of_final (fun c => sub_out (sub_run (es c)))); [done..|].
  intros c. apply connection_sends_prefix; [apply owned_payloads|done].
Qed.

Lemma subscriber_reads_log es max ops :
  subscribed es max ops -> w_delivered (c_world (client_run (client_start max) ops)) `prefix_of` log_messages frames L.
Proof.
  intros Hs. eapply (subscriber_log_prefix sent); [apply sent_batches_wf|apply sent_no_gaps|apply sent_in_log|apply log_is_numbered| |by eapply subscribed_ok].
  rewrite log_length. unfold MAX_BATCH_TOTAL_ORDER, U64_MAX in *. lia.
Qed.

(** Every entry with messages belongs to a broker, whose thread has found the
    whole log committed and nothing more to send, and whose bytes have all
    arrived. *)
Definition all_received (es : Z -> list sub_env) (cl : client) : Prop :=
  forall g, g ∈ L -> goi_message_count g <> 0 -> exists b e,
    exportable (v0 b) g = true /\ turn_view (v0 b) L frames e L /\ committed_seq (se_view e) = Z.of_nat (length L) - 1 /\
    sub_running (sub_run (es b)) = true /\ (select_batch e (sub_run (es b))).2 = None /\
    received_on cl b = sub_out (sub_run (es b)).

Lemma subscriber_reads_whole_log es max ops n out s' :
  let cl := client_run (client_start max) ops in
  subscribed es max ops -> all_received es cl ->
  retention_is_exhausted (w_sub (c_world cl)) = false ->
  TryPopOrderedMessagesLocked n (w_sub (c_world cl)) = (s', out) ->
  N <= Z.of_nat (length (w_delivered (c_world cl))) + n ->
  w_delivered (c_world cl) ++ number (next_expected_order (w_sub (c_world cl))) out = log_messages frames L.
Proof.
  intros cl Hs Hall Hl E Hn. eapply (subscriber_whole_log sent);
    [apply sent_batches_wf|apply sent_no_gaps|apply sent_in_log|apply log_is_numbered| |by eapply subscribed_ok| |done|exact E|].
  - rewrite log_length. unfold MAX_BATCH_TOTAL_ORDER, U64_MAX in *. lia.
  - intros p (g & Hg & Hp)%elem_log_messages.
    assert (Hne : goi_message_count g <> 0).
    { pose proof L_entries as He. rewrite Forall_forall in He. rewrite (eo_count _ _ (He g Hg)). intros H0.
      unfold entry_messages in Hp. destruct (frames g); [set_solver|cbn in H0; lia]. }
    destruct (Hall g Hg Hne) as (b & e & Hx & Hv & Hc & Hr & Hno & Hrec). exists b. split.
    + fold cl. rewrite Hrec. destruct Hs as (He & _). apply (connection_sends_all (v0 b) L frames (owned_payloads b) (es b) e); done.
    + rewrite sent_messages, elem_log_messages. exists g. split; [|done]. by apply list_elem_of_filter.
  - pose proof log_length. fold cl. lia.
Qed.
End delivery.

(** ** The whole system *)
Lemma log_prefix_unique m l l' :
  prefix_of_log m l -> prefix_of_log m l' -> length l = length l' -> l = l'.
Proof.
  intros H1 H2 Hl. apply list_eq. intros i. destruct (decide (i < length l)%nat) as [Hi|Hi].
  - by rewrite <- H1, <- H2 by lia.
  - by rewrite !lookup_ge_None_2 by lia.
Qed.

(** [L] is the log of the sequencer in the state [c], after a run with any
    restarts and headers. *)
Definition sequencer_log `{StdSort} (c : CSt) (L : list GOIEntry) : Prop :=
  prefix_of_log (goi c) L /\ Z.of_nat (length L) = global_batch_seq c /\
  exists intact keep s, rtc (seq_step intact keep) (St_init, seq_init) (s, c).

Lemma sequencer_log_tiles `{StdSort} c L : sequencer_log c L -> tiles 0 0 L (global_seq c).
Proof.
  intros (HL & Hlen & intact & keep & s & Hrun).
  destruct (seq_run_inv _ _ _ _ [] Hrun (seq_init_inv _ _)) as (l & [_ Hi _ _] & _). simpl in Hi.
  rewrite (log_prefix_unique _ _ _ HL (ii_log _ _ Hi)); [apply Hi|].
  pose proof (ii_len _ _ Hi). lia.
Qed.

(** C3. A subscriber delivers a prefix of the messages of the sequencer's log:
    message [i] is the log's message of order [i], and none is skipped, repeated
    or out of order.  The log is that of a sequencer after any epochs and
    restarts, with at most 10^8 messages, in batches of at most 10000 frames of
    version 2.  The brokers' threads take any turns, each of which sees a
    prefix of the log as committed and the payloads of its own entries; any
    system call of theirs may stop or fail, the subscriber may have received any
    part of their bytes in any chunks, and the consumer may pop at any time. *)
Theorem subscriber_delivers_sequencer_log `{StdSort} c frames v0 L es max ops :
  sequencer_log c L -> global_seq c <= MAX_BATCH_TOTAL_ORDER ->
  Forall (entry_ok frames) L -> subscribed frames v0 L es max ops ->
  w_delivered (c_world (client_run (client_start max) ops)) `prefix_of` log_messages frames L.
Proof.
  intros HL Hsmall Hent Hs. eapply subscriber_reads_log; [by eapply sequencer_log_tiles|done..].
Qed.

(** C4. For the log of a sequencer after any epochs and restarts, with at most
    10^8 messages in batches of at most 10000 frames of version 2: when every
    entry with messages belongs to a broker
    that has found the whole log committed and nothing more to send, when its
    bytes have all arrived, and when the subscriber's memory was not exhausted,
    then a consumer that asks for at least the messages that remain has been
    given the whole log. *)
Theorem subscriber_receives_whole_sequencer_log `{StdSort} c frames v0 L es max ops n out s' :
  let cl := client_run (client_start max) ops in
  sequencer_log c L -> global_seq c <= MAX_BATCH_TOTAL_ORDER ->
  Forall (entry_ok frames) L -> subscribed frames v0 L es max ops -> all_received frames v0 L es cl ->
  retention_is_exhausted (w_sub (c_world cl)) = false ->
  TryPopOrderedMessagesLocked n (w_sub (c_world cl)) = (s', out) ->
  global_seq c <= Z.of_nat (length (w_delivered (c_world cl))) + n ->
  w_delivered (c_world cl) ++ number (next_expected_order (w_sub (c_world cl))) out = log_messages frames L.
Proof.
  intros cl HL Hsmall Hent Hs Hall Hl E Hn.
  eapply subscriber_reads_whole_log; [by eapply sequencer_log_tiles|done..].
Qed.

(** ** An example: two batches of one client on two brokers *)
Definition e2e_batches : list PendingBatch5 :=
  [(run_batch 0 0) <| num_msg := 2 |> <| cached_total_size := 256 |> <| cached_log_idx := 8192 |>;
   (run_batch 1 1) <| Order5State.broker_id := 1 |> <| num_msg := 1 |> <| cached_total_size := 128 |> <| cached_log_idx := 16384 |>].
Definition e2e_state : St * CSt := epoch_body demo_env run_ce (St_init, run_start) e2e_batches.

Lemma e2e_ready_ok : Forall ready_ok e2e_batches.
Proof.
  repeat (apply Forall_cons_2; [intros _; unfold meta_ok, is_u32, seq_ok; simpl; repeat split; done || lia|]).
  constructor.
Qed.

Lemma e2e_reach : rtc (seq_step true 0) (St_init, seq_init) (e2e_state.1, e2e_state.2).
Proof.
  rewrite <- surjective_pairing. eapply rtc_l; [apply (step_scan _ _ _ _ run_headers)|]. apply rtc_once.
  apply step_epoch; [reflexivity|reflexivity|apply demo_env_ok|done| |].
  - repeat (apply Forall_cons_2;
      [split; [split; [reflexivity|unfold seq_ok, is_u32, meta_ok; simpl; repeat split; done || lia]|done]|]).
    constructor.
  - apply header_check_state; [vm_compute; reflexivity|].
    match goal with |- Forall _ ?r => assert (r = e2e_batches) as -> by (vm_compute; reflexivity) end.
    apply e2e_ready_ok.
Qed.

Definition e2e_log : list GOIEntry :=
  [mkGOI 0 300 0 0 1 8192 256 2 0 7 0 0 2 1; mkGOI 1 301 2 1 1 16384 128 1 0 7 1 1 1 1].
Definition e2e_index : gmap Z GOIEntry :=
  <[1 := mkGOI 1 301 2 1 1 16384 128 1 0 7 1 1 1 1]> (<[0 := mkGOI 0 300 0 0 1 8192 256 2 0 7 0 0 2 1]> ∅).
Lemma e2e_index_log : log_of e2e_index e2e_log.
Proof. apply (log_snoc _ [_]), (log_snoc _ []). intros i. by rewrite lookup_empty, lookup_nil. Qed.
Lemma e2e_prefix : prefix_of_log e2e_index e2e_log.
Proof. apply (log_prefix _ _ []). rewrite app_nil_r. apply e2e_index_log. Qed.
Lemma e2e_sequencer_log : sequencer_log e2e_state.2 e2e_log.
Proof.
  split; [|split; [vm_compute; reflexivity|exists true, 0, e2e_state.1; apply e2e_reach]].
  assert (goi e2e_state.2 = e2e_index) as -> by (vm_compute; reflexivity). apply e2e_prefix.
Qed.

Definition e2e_frames (g : GOIEntry) : list (list Z) :=
  if goi_broker_id g =? 0 then [demo_frame 1; demo_frame 2] else [demo_frame 3].
Definition e2e_memory : memory :=
  memcpy (memcpy ∅ (65536 + 8192) (demo_frame 1 ++ demo_frame 2)) (65536 + 16384) (demo_frame 3).
Definition e2e_view (b : Z) : TopicView :=
  mkTopicView EMBARCADERO 5 0 b 0 (2 ^ 30) 65536 0 0 ∅ e2e_index 1 e2e_memory.
Definition e2e_env (b : Z) : sub_env :=
  mkSubEnv (e2e_view b) (mkOrder0Ring 0 ∅) true 16 [Sent 100; WouldBlock true; Sent 1000].
Definition e2e_turns (c : Z) : list sub_env := if c =? 0 then [e2e_env 0] else if c =? 1 then [e2e_env 1] else [].
Definition e2e_ops : list client_op :=
  [RecvChunk 1 (sub_out (sub_run (e2e_turns 1))) []; ConsumerPop;
   RecvChunk 0 (take 100 (sub_out (sub_run (e2e_turns 0)))) []; RecvChunk 0 (drop 100 (sub_out (sub_run (e2e_turns 0)))) [];
   ConsumerPop].

Lemma e2e_entry g fs : e2e_frames g = demo_frame <$> fs -> Forall (fun b => 0 <= b < 256) fs ->
  goi_message_count g = Z.of_nat (length fs) -> goi_message_count g <= MAX_BATCH_MESSAGES ->
  goi_payload_size g = 128 * Z.of_nat (length fs) -> entry_ok e2e_frames g.
Proof.
  intros Hf Hb Hc Hm Hs. constructor; rewrite ?Hf, ?length_fmap; try done.
  - apply Forall_fmap. eapply Forall_impl; [exact Hb|]. intros b. apply demo_frame_wf.
  - apply Forall_fmap, Forall_forall. intros b _. vm_compute. done.
  - rewrite Hs. clear. induction fs as [|b fs IH]; [done|]. cbn [fmap list_fmap concat length]. rewrite size_of_app, <- IH.
    replace (size_of (demo_frame b)) with 128 by done. lia.
Qed.

Lemma e2e_entries : Forall (entry_ok e2e_frames) e2e_log.
Proof.
  unfold e2e_log. apply Forall_cons. split; [apply (e2e_entry _ [1; 2])|apply Forall_singleton, (e2e_entry _ [3])]; try done;
    forall_list; lia.
Qed.

Lemma e2e_turn b : (b = 0 \/ b = 1) -> turn_view (e2e_view b) e2e_log e2e_frames (e2e_env b) e2e_log.
Proof.
  intros Hb. unfold turn_view. split_and!; [done..| |].
  - split; [apply e2e_prefix|]. split_and!; [|right; vm_compute; done|vm_compute; done|done].
    intros [|[|i]] g Hg; cbn in Hg; [by injection Hg as <-..|done].
  - assert (Hc : forallb (fun g => bool_decide (bytes_at e2e_memory (65536 + goi_blog_offset g) (Z.to_nat (goi_payload_size g)) =
      concat (e2e_frames g))) (owned (e2e_view b) e2e_log) = true) by (destruct Hb as [-> | ->]; vm_compute; done).
    rewrite forallb_forall in Hc. intros g Hg%list_elem_of_In%Hc. by apply bool_decide_eq_true in Hg.
Qed.

Lemma received_pop cl c : received_on (client_step cl ConsumerPop) c = received_on cl c.
Proof. done. Qed.
Lemma received_step cl c data ans c' :
  received_on (client_step cl (RecvChunk c data ans)) c' = if decide (c' = c) then received_on cl c ++ data else received_on cl c'.
Proof. apply received_recv. Qed.
Lemma received_start max c : received_on (client_start max) c = [].
Proof. unfold received_on. cbn. by rewrite lookup_empty. Qed.

Lemma e2e_received c :
  received_on (client_run (client_start 1024) e2e_ops) c =
    if decide (c = 0) then sub_out (sub_run (e2e_turns 0)) else if decide (c = 1) then sub_out (sub_run (e2e_turns 1)) else [].
Proof.
  unfold e2e_ops. set (b0 := sub_out (sub_run (e2e_turns 0))). set (b1 := sub_out (sub_run (e2e_turns 1))). clearbody b0 b1.
  unfold client_run. cbn [fold_left]. repeat (rewrite received_pop || rewrite received_step || rewrite received_start). repeat case_decide; subst; try done. cbn. by rewrite take_drop.
Qed.

Lemma e2e_subscribed : subscribed e2e_frames e2e_view e2e_log e2e_turns 1024 e2e_ops.
Proof.
  split; [|split].
  - intros c. unfold e2e_turns. repeat case_match; bool_props; subst; constructor; try constructor; exists e2e_log; apply e2e_turn; auto.
  - unfold e2e_ops. forall_list; try done; (split; [apply byte_list_check|]; vm_compute; done).
  - intros c. rewrite e2e_received. repeat case_decide; subst; try done. apply prefix_nil.
Qed.

Lemma subscriber_delivers_sequencer_log_witness :
  length (w_delivered (c_world (client_run (client_start 1024) e2e_ops))) = 1%nat /\
  w_delivered (c_world (client_run (client_start 1024) e2e_ops)) `prefix_of` log_messages e2e_frames e2e_log.
Proof.
  split; [vm_compute; reflexivity|].
  apply (subscriber_delivers_sequencer_log e2e_state.2 e2e_frames e2e_view e2e_log e2e_turns 1024 e2e_ops e2e_sequencer_log).
  - vm_compute. done.
  - exact e2e_entries.
  - exact e2e_subscribed.
Defined.

Lemma e2e_all_received : all_received e2e_frames e2e_view e2e_log e2e_turns (client_run (client_start 1024) e2e_ops).
Proof.
  intros g Hg _. assert (Hb : goi_broker_id g = 0 /\ exportable (e2e_view 0) g = true \/ goi_broker_id g = 1 /\ exportable (e2e_view 1) g = true).
  { apply elem_of_cons in Hg as [->|Hg]; [left; vm_compute; done|]. apply list_elem_of_singleton in Hg as ->. right. vm_compute. done. }
  destruct Hb as [[_ Hx]|[_ Hx]]; [exists 0, (e2e_env 0)|exists 1, (e2e_env 1)]; rewrite e2e_received;
    (split; [done|split; [apply e2e_turn; auto|]]); split_and!; vm_compute; done.
Qed.

Lemma subscriber_receives_whole_sequencer_log_witness :
  let cl := client_run (client_start 1024) e2e_ops in
  exists s' out, TryPopOrderedMessagesLocked 10 (w_sub (c_world cl)) = (s', out) /\ length out = 2%nat /\
    w_delivered (c_world cl) ++ number (next_expected_order (w_sub (c_world cl))) out = log_messages e2e_frames e2e_log.
Proof.
  intros cl. destruct (TryPopOrderedMessagesLocked 10 (w_sub (c_world cl))) as [s' out] eqn:E. exists s', out.
  assert (Hlen : length out = 2%nat).
  { assert (length (TryPopOrderedMessagesLocked 10 (w_sub (c_world cl))).2 = 2%nat) as H by (vm_compute; reflexivity). by rewrite E in H. }
  split; [done|]. split; [done|].
  apply (subscriber_receives_whole_sequencer_log e2e_state.2 e2e_frames e2e_view e2e_log e2e_turns 1024 e2e_ops 10 out s' e2e_sequencer_log).
  - vm_compute. done.
  - exact e2e_entries.
  - exact e2e_subscribed.
  - exact e2e_all_received.
  - vm_compute. reflexivity.
  - exact E.
  - vm_compute. done.
Defined.
