(* ===== verification/DualBuffer.v ===== *)
(** The two buffers of a subscriber's connection ([ConnectionBuffers] of
    src/client/subscriber.h and src/client/subscriber.cc): the receiver fills one
    while the consumer reads the other.  The order-0 consumer
    ([Subscriber::Consume]) parses what it acquires. *)

From S2P Require Import Prelude Bytes Wire.
Import wire.

(** [write_offset] bytes of [raw] have been received. *)
Record BufferState := mkBufferState {
  raw : memory;
  write_offset : Z;
}.
#[export] Instance eta_BufferState : Eta BufferState := fun b => mkBufferState (raw b) (write_offset b).

(** Buffer index 1 is [true]; [1 - i] is the other one. *)
Record ConnectionBuffers := mkConnectionBuffers {
  capacity : Z;
  buffer0 : BufferState;
  buffer1 : BufferState;
  current_write_idx : bool;
  write_buffer_ready : bool;              (** [write_buffer_ready_for_consumer] *)
  read_buffer_in_use : bool;              (** [read_buffer_in_use_by_consumer] *)
  receiver_write_inflight : option bool;  (** [receiver_write_inflight_idx], [None] for -1 *)
  first_write_ns0 : Z;
  first_write_ns1 : Z;
  generation0 : Z;
  generation1 : Z;
}.
#[export] Instance eta_ConnectionBuffers : Eta ConnectionBuffers := fun c =>
  mkConnectionBuffers (capacity c) (buffer0 c) (buffer1 c) (current_write_idx c) (write_buffer_ready c) (read_buffer_in_use c)
    (receiver_write_inflight c) (first_write_ns0 c) (first_write_ns1 c) (generation0 c) (generation1 c).

Definition buffer (c : ConnectionBuffers) (i : bool) : BufferState := if i then buffer1 c else buffer0 c.
Definition set_buffer (c : ConnectionBuffers) (i : bool) (b : BufferState) : ConnectionBuffers :=
  if i then c <| buffer1 := b |> else c <| buffer0 := b |>.
Definition first_write_ns (c : ConnectionBuffers) (i : bool) : Z := if i then first_write_ns1 c else first_write_ns0 c.
Definition set_first_write_ns (c : ConnectionBuffers) (i : bool) (t : Z) : ConnectionBuffers :=
  if i then c <| first_write_ns1 := t |> else c <| first_write_ns0 := t |>.
Definition next_generation (c : ConnectionBuffers) (i : bool) : ConnectionBuffers :=
  if i then c <| generation1 ::= fun g => g +u 1 |> else c <| generation0 ::= fun g => g +u 1 |>.
Definition ConnectionBuffers_init (cap : Z) : ConnectionBuffers :=
  mkConnectionBuffers cap (mkBufferState ∅ 0) (mkBufferState ∅ 0) false false false None 0 0 0 0.

(** Writing turns to buffer [i], which is reset. *)
Definition start_writing (c : ConnectionBuffers) (i : bool) : ConnectionBuffers :=
  let c := next_generation (c <| current_write_idx := i |>) i in
  set_first_write_ns (set_buffer c i ((buffer c i) <| write_offset := 0 |>)) i 0.

(** ** The receiver *)

(** The index and the offset to write at; [None] where the buffer is full. *)
Definition get_write_location (c : ConnectionBuffers) : option (bool * Z) * ConnectionBuffers :=
  let write_idx := current_write_idx c in
  let current_offset := write_offset (buffer c write_idx) in
  if current_offset >=? capacity c then (None, c <| receiver_write_inflight := None |>)
  else (Some (write_idx, current_offset), c <| receiver_write_inflight := Some write_idx |>).

Definition clear_write_inflight (c : ConnectionBuffers) (write_idx : bool) : ConnectionBuffers :=
  if bool_decide (receiver_write_inflight c = Some write_idx) then c <| receiver_write_inflight := None |> else c.

Definition advance_write_offset (c : ConnectionBuffers) (write_idx : bool) (bytes_written : Z) : ConnectionBuffers :=
  let c := clear_write_inflight c write_idx in
  set_buffer c write_idx ((buffer c write_idx) <| write_offset ::= fun o => o +u bytes_written |>).

Definition signal_and_attempt_swap (c : ConnectionBuffers) : bool * ConnectionBuffers :=
  let write_idx := current_write_idx c in
  let c := if write_offset (buffer c write_idx) >? 0 then c <| write_buffer_ready := true |> else c in
  if negb (read_buffer_in_use c) then (true, start_writing c (negb write_idx)) else (false, c).

Definition flush_partial_if_due (c : ConnectionBuffers) (now_ns deadline_us : Z) (force_flush : bool) : bool * ConnectionBuffers :=
  let write_idx := current_write_idx c in
  if (write_offset (buffer c write_idx) =? 0) || bool_decide (receiver_write_inflight c = Some write_idx) ||
     write_buffer_ready c || read_buffer_in_use c then (false, c)
  else
    let c := if first_write_ns c write_idx =? 0 then set_first_write_ns c write_idx now_ns else c in
    let age_us := Z.quot (now_ns - first_write_ns c write_idx) 1000 in
    if negb force_flush && (age_us <? deadline_us) then (false, c)
    else (true, start_writing (c <| write_buffer_ready := true |>) (negb write_idx)).

(** ** The consumer *)
Definition acquire_read_buffer (c : ConnectionBuffers) : option bool * ConnectionBuffers :=
  let potential_read_idx := negb (current_write_idx c) in
  if write_buffer_ready c && negb (read_buffer_in_use c) then
    if write_offset (buffer c potential_read_idx) >? 0 then
      (Some potential_read_idx, c <| read_buffer_in_use := true |> <| write_buffer_ready := false |>)
    else (None, c)
  else (None, c).

Definition release_read_buffer (c : ConnectionBuffers) (released_idx : bool) : ConnectionBuffers :=
  let c := c <| read_buffer_in_use := false |> in
  let write_idx := current_write_idx c in
  if negb (Bool.eqb write_idx released_idx) && negb (write_buffer_ready c) &&
     negb (bool_decide (receiver_write_inflight c = Some write_idx)) && (write_offset (buffer c write_idx) >? 0) then
    start_writing (c <| write_buffer_ready := true |>) released_idx
  else c.

(** * The receiver's loop and one consumer

    The turns of [ReceiveWorkerThread] between two accesses that the consumer
    can see, and the consumer's acquire and release. *)
Inductive recv_pc :=
  | Head
  | Receiving (write_idx : bool) (offset : Z)
  | Received (write_idx : bool) (n : Z)
  | Stamp (write_idx : bool) (offset_before : Z)
  | Flush
  | FullBuffer
  | WaitFree
  | Closed.

Record conn := mkConn {
  cbufs : ConnectionBuffers;
  rpc : recv_pc;
  held : option bool;           (** the buffer the consumer has *)
  stream_in : list Z;           (** the bytes received so far *)
  read_out : list (list Z);     (** what the consumer acquired, in order *)
}.
#[export] Instance eta_conn : Eta conn := fun x => mkConn (cbufs x) (rpc x) (held x) (stream_in x) (read_out x).
Definition conn_init (cap : Z) : conn := mkConn (ConnectionBuffers_init cap) Head None [] [].

Definition contents (b : BufferState) : list Z := bytes_at (raw b) 0 (Z.to_nat (write_offset b)).

Inductive conn_step (partial_flush_enabled : bool) : conn -> conn -> Prop :=
  | step_location x :
      rpc x = Head ->
      conn_step partial_flush_enabled x
        (match get_write_location (cbufs x) with
         | (None, c) => x <| cbufs := c |> <| rpc := FullBuffer |>
         | (Some (i, off), c) => x <| cbufs := c |> <| rpc := Receiving i off |>
         end)
  (** [recv] writes behind the offset it was given. *)
  | step_recv x i off data :
      rpc x = Receiving i off -> data <> [] -> byte_list data -> off + Z.of_nat (length data) <= capacity (cbufs x) ->
      conn_step partial_flush_enabled x
        (x <| cbufs := set_buffer (cbufs x) i ((buffer (cbufs x) i) <| raw ::= fun m => memcpy m off data |>) |>
           <| rpc := Received i (Z.of_nat (length data)) |> <| stream_in ::= fun s => s ++ data |>)
  | step_advance x i n :
      rpc x = Received i n ->
      conn_step partial_flush_enabled x (x <| cbufs := advance_write_offset (cbufs x) i n |> <| rpc := Stamp i (write_offset (buffer (cbufs x) i)) |>)
  | step_stamp x i offset_before now_ns :
      rpc x = Stamp i offset_before ->
      conn_step partial_flush_enabled x
        (x <| cbufs := if (offset_before =? 0) || (first_write_ns (cbufs x) i =? 0) then set_first_write_ns (cbufs x) i now_ns else cbufs x |>
           <| rpc := Flush |>)
  | step_flush x now_ns deadline_us :
      rpc x = Flush ->
      conn_step partial_flush_enabled x
        (x <| cbufs := if partial_flush_enabled then (flush_partial_if_due (cbufs x) now_ns deadline_us false).2 else cbufs x |>
           <| rpc := Head |>)
  (** [recv] times out, or is interrupted ([timed_out] is false). *)
  | step_again x i off now_ns deadline_us timed_out :
      rpc x = Receiving i off ->
      conn_step partial_flush_enabled x
        (let c := clear_write_inflight (cbufs x) i in
         x <| cbufs := if partial_flush_enabled && timed_out then (flush_partial_if_due c now_ns deadline_us true).2 else c |>
           <| rpc := Head |>)
  (** The peer closes the connection. *)
  | step_closed x i off :
      rpc x = Receiving i off ->
      conn_step partial_flush_enabled x
        (let c := clear_write_inflight (cbufs x) i in
         x <| cbufs := if write_offset (buffer c (current_write_idx c)) >? 0 then c <| write_buffer_ready := true |> else c |>
           <| rpc := Closed |>)
  | step_error x i off :
      rpc x = Receiving i off ->
      conn_step partial_flush_enabled x (x <| cbufs := clear_write_inflight (cbufs x) i |> <| rpc := Closed |>)
  | step_swap x :
      rpc x = FullBuffer ->
      conn_step partial_flush_enabled x
        (let '(ok, c) := signal_and_attempt_swap (cbufs x) in x <| cbufs := c |> <| rpc := if ok then Head else WaitFree |>)
  | step_free x :
      rpc x = WaitFree -> read_buffer_in_use (cbufs x) = false ->
      conn_step partial_flush_enabled x (x <| rpc := Head |>)
  | step_acquire x :
      held x = None ->
      conn_step partial_flush_enabled x
        (match acquire_read_buffer (cbufs x) with
         | (None, c) => x <| cbufs := c |>
         | (Some i, c) => x <| cbufs := c |> <| held := Some i |> <| read_out ::= fun o => o ++ [contents (buffer (cbufs x) i)] |>
         end)
  | step_release x i :
      held x = Some i ->
      conn_step partial_flush_enabled x (x <| cbufs := release_read_buffer (cbufs x) i |> <| held := None |>).

(** ** The receiver never writes the buffer that the consumer has *)
Definition writing (p : recv_pc) : option bool :=
  match p with Receiving i _ | Received i _ => Some i | _ => None end.

Record conn_inv (x : conn) : Prop := {
  di_cap : 0 < capacity (cbufs x) < 2 ^ 63;
  di_off : forall i, 0 <= write_offset (buffer (cbufs x) i) <= capacity (cbufs x);
  di_inflight : receiver_write_inflight (cbufs x) = writing (rpc x);
  di_writing : forall i, writing (rpc x) = Some i -> current_write_idx (cbufs x) = i;
  di_pc : match rpc x with
          | Receiving i off => off = write_offset (buffer (cbufs x) i) /\ off < capacity (cbufs x)
          | Received i n => 0 < n /\ write_offset (buffer (cbufs x) i) + n <= capacity (cbufs x)
          | _ => True
          end;
  di_held : match held x with
            | Some i => read_buffer_in_use (cbufs x) = true /\ current_write_idx (cbufs x) = negb i
            | None => read_buffer_in_use (cbufs x) = false
            end;
}.

Lemma buffer_set c i b j : buffer (set_buffer c i b) j = if Bool.eqb j i then b else buffer c j.
Proof. by destruct i, j. Qed.
Lemma buffer_stamp c i t j : buffer (set_first_write_ns c i t) j = buffer c j.
Proof. by destruct i, j. Qed.

(** The fields that the invariant reads, after writing turns to a buffer. *)
Lemma start_writing_fields c i :
  capacity (start_writing c i) = capacity c /\ current_write_idx (start_writing c i) = i /\
  read_buffer_in_use (start_writing c i) = read_buffer_in_use c /\ write_buffer_ready (start_writing c i) = write_buffer_ready c /\
  receiver_write_inflight (start_writing c i) = receiver_write_inflight c /\
  forall j, buffer (start_writing c i) j = if Bool.eqb j i then (buffer c i) <| write_offset := 0 |> else buffer c j.
Proof. destruct i; split_and!; try done; intros []; done. Qed.

(** The part of the state that a step leaves alone. *)
Definition same_buffers (c c' : ConnectionBuffers) : Prop :=
  capacity c' = capacity c /\ current_write_idx c' = current_write_idx c /\ read_buffer_in_use c' = read_buffer_in_use c /\
  forall j, buffer c' j = buffer c j.

Lemma clear_inflight_fields c i :
  same_buffers c (clear_write_inflight c i) /\
  receiver_write_inflight (clear_write_inflight c i) =
    if bool_decide (receiver_write_inflight c = Some i) then None else receiver_write_inflight c.
Proof. unfold clear_write_inflight. case_bool_decide; (split; [split_and!; try done; intros []; done|done]). Qed.

(** A swap is a turn to the other buffer while the consumer has none. *)
Definition swapped (c c' : ConnectionBuffers) : Prop :=
  same_buffers c c' /\ receiver_write_inflight c' = receiver_write_inflight c \/
  read_buffer_in_use c = false /\ capacity c' = capacity c /\ current_write_idx c' = negb (current_write_idx c) /\
  read_buffer_in_use c' = false /\ receiver_write_inflight c' = receiver_write_inflight c /\
  (receiver_write_inflight c <> Some (current_write_idx c)) /\
  forall j, buffer c' j = if Bool.eqb j (negb (current_write_idx c)) then (buffer c j) <| write_offset := 0 |> else buffer c j.

Lemma flush_swapped c now d force : swapped c (flush_partial_if_due c now d force).2.
Proof.
  unfold flush_partial_if_due. destruct (_ || _) eqn:E; [by left|]. bool_props.
  set (c1 := if first_write_ns c _ =? 0 then _ else c).
  assert (Hc1 : same_buffers c c1 /\ receiver_write_inflight c1 = receiver_write_inflight c).
  { unfold c1. case_match; [|by split_and!]. unfold set_first_write_ns. destruct (current_write_idx c) eqn:Ei; (split; [split_and!; try done; intros []; done|done]). }
  destruct Hc1 as ((S1 & S2 & S3 & S4) & S5). case_match; [by left|]. right. cbn [snd].
  set (c2 := c1 <| write_buffer_ready := true |>).
  assert (Hb : forall j, buffer c2 j = buffer c j) by (intros []; [exact (S4 true)|exact (S4 false)]).
  assert (Hc2 : capacity c2 = capacity c1 /\ read_buffer_in_use c2 = read_buffer_in_use c1 /\
    receiver_write_inflight c2 = receiver_write_inflight c1) by done. clearbody c2. destruct Hc2 as (T1 & T2 & T3).
  destruct (start_writing_fields c2 (negb (current_write_idx c))) as (F1 & F2 & F3 & F4 & F5 & F6).
  rewrite F1, F2, F3, F5, T1, T2, T3, S1, S3, S5. split_and!; try done.
  - by eapply bool_decide_eq_false.
  - intros j. rewrite F6, !Hb. destruct (Bool.eqb j _) eqn:Ej; [|done]. by apply eqb_prop in Ej as ->.
Qed.

Lemma signal_swapped c :
  receiver_write_inflight c = None -> swapped c (signal_and_attempt_swap c).2.
Proof.
  intros Hi. unfold signal_and_attempt_swap. set (c1 := if write_offset _ >? 0 then _ else c).
  assert (Hc1 : same_buffers c c1 /\ receiver_write_inflight c1 = receiver_write_inflight c).
  { unfold c1. case_match; (split; [split_and!; try done; intros []; done|done]). }
  destruct Hc1 as ((S1 & S2 & S3 & S4) & S5). rewrite S3. destruct (read_buffer_in_use c) eqn:Eu; cbn [negb snd]; [left; split; [split_and!; [done..|congruence|done]|done]|].
  right. destruct (start_writing_fields c1 (negb (current_write_idx c))) as (F1 & F2 & F3 & F4 & F5 & F6).
  rewrite F1, F2, F3, F5, S1, S3, S5, Hi. split_and!; try done. intros j. rewrite F6, !S4.
  destruct (Bool.eqb j _) eqn:Ej; [|done]. by apply eqb_prop in Ej as ->.
Qed.

(** A swap keeps the invariant at any place where nothing is being written. *)
Lemma swapped_inv x c' p :
  conn_inv x -> swapped (cbufs x) c' -> writing p = None -> writing (rpc x) = None ->
  match p with Receiving _ _ | Received _ _ => False | _ => True end ->
  conn_inv (x <| cbufs := c' |> <| rpc := p |>).
Proof.
  intros [D1 D2 D3 D4 D5 D6] Hs Hp Hx Hpc. rewrite Hx in D3.
  destruct Hs as [((S1 & S2 & S3 & S4) & S5)|(U1 & U2 & U3 & U4 & U5 & U6 & U7)]; constructor; cbn.
  - by rewrite S1.
  - intros i. by rewrite S4, S1.
  - by rewrite S5, D3, Hp.
  - intros i. by rewrite Hp.
  - by destruct p.
  - by destruct (held x); rewrite ?S2, ?S3.
  - by rewrite U2.
  - intros i. rewrite U7, U2. destruct (Bool.eqb _ _); cbn; [lia|done].
  - by rewrite U5, D3, Hp.
  - intros i. by rewrite Hp.
  - by destruct p.
  - destruct (held x); [destruct D6; congruence|done].
Qed.

Lemma same_swapped c c' : same_buffers c c' -> receiver_write_inflight c' = receiver_write_inflight c -> swapped c c'.
Proof. by left. Qed.

(** The receiver leaves [recv] without data. *)
Lemma conn_clear_inv x i :
  conn_inv x -> writing (rpc x) = Some i ->
  let x' := x <| cbufs := clear_write_inflight (cbufs x) i |> <| rpc := Head |> in
  conn_inv x' /\ writing (rpc x') = None.
Proof.
  intros [D1 D2 D3 D4 D5 D6] Hw. destruct (clear_inflight_fields (cbufs x) i) as ((S1 & S2 & S3 & S4) & S5).
  rewrite D3, Hw, bool_decide_eq_true_2 in S5 by done. split; [|done]. constructor; cbn.
  - by rewrite S1.
  - intros j. by rewrite S4, S1.
  - done.
  - done.
  - done.
  - by destruct (held x); rewrite ?S2, ?S3.
Qed.

Lemma release_eq c i :
  release_read_buffer c i =
    if negb (Bool.eqb (current_write_idx c) i) && negb (write_buffer_ready c) &&
       negb (bool_decide (receiver_write_inflight c = Some (current_write_idx c))) &&
       (write_offset (buffer c (current_write_idx c)) >? 0)
    then start_writing (c <| read_buffer_in_use := false |> <| write_buffer_ready := true |>) i
    else c <| read_buffer_in_use := false |>.
Proof. reflexivity. Qed.

Lemma conn_release_inv x i :
  conn_inv x -> held x = Some i -> conn_inv (x <| cbufs := release_read_buffer (cbufs x) i |> <| held := None |>).
Proof.
  intros [D1 D2 D3 D4 D5 D6] Hh. rewrite Hh in D6. destruct D6 as [Hu Hw]. rewrite release_eq. destruct (_ && _) eqn:E.
  - bool_props. set (c1 := (cbufs x) <| read_buffer_in_use := false |> <| write_buffer_ready := true |>).
    assert (Hb1 : forall j, buffer c1 j = buffer (cbufs x) j) by (intros []; done).
    assert (Hc1 : capacity c1 = capacity (cbufs x) /\ read_buffer_in_use c1 = false /\
      receiver_write_inflight c1 = receiver_write_inflight (cbufs x)) by done. clearbody c1. destruct Hc1 as (T1 & T2 & T3).
    destruct (start_writing_fields c1 i) as (F1 & F2 & F3 & F4 & F5 & F6).
    assert (Hnw : writing (rpc x) = None).
    { destruct (writing (rpc x)) as [j|] eqn:Ej; [|done]. specialize (D4 j eq_refl). subst j.
      match goal with H : bool_decide _ = false |- _ => apply bool_decide_eq_false in H; by destruct H; rewrite D3 end. }
    constructor; cbn [cbufs rpc held upd eta_conn].
    + by rewrite F1, T1.
    + intros j. rewrite F6, F1, T1, !Hb1. destruct (Bool.eqb j i); cbn; [lia|apply D2].
    + by rewrite F5, T3, D3.
    + intros j. by rewrite Hnw.
    + by destruct (rpc x).
    + by rewrite F3.
  - assert (Hb : forall j, buffer ((cbufs x) <| read_buffer_in_use := false |>) j = buffer (cbufs x) j) by (intros []; done).
    constructor; cbn [cbufs rpc held upd eta_conn]; try done.
Qed.

Lemma advance_eq c i n :
  capacity (advance_write_offset c i n) = capacity c /\ current_write_idx (advance_write_offset c i n) = current_write_idx c /\
  read_buffer_in_use (advance_write_offset c i n) = read_buffer_in_use c /\
  receiver_write_inflight (advance_write_offset c i n) = receiver_write_inflight (clear_write_inflight c i) /\
  forall j, buffer (advance_write_offset c i n) j =
    if Bool.eqb j i then (buffer c i) <| write_offset ::= fun o => o +u n |> else buffer c j.
Proof.
  unfold advance_write_offset. destruct (clear_inflight_fields c i) as ((S1 & S2 & S3 & S4) & _).
  set (c1 := clear_write_inflight c i) in *. clearbody c1. rewrite <- S1, <- S2, <- S3.
  split_and!; [by destruct i..|]. intros j. by rewrite buffer_set, !S4.
Qed.

Lemma location_inv x :
  conn_inv x -> rpc x = Head ->
  conn_inv (match get_write_location (cbufs x) with
            | (None, c) => x <| cbufs := c |> <| rpc := FullBuffer |>
            | (Some (i, off), c) => x <| cbufs := c |> <| rpc := Receiving i off |>
            end).
Proof.
  intros [D1 D2 D3 D4 D5 D6] Hp. unfold get_write_location. destruct (_ >=? _) eqn:E; bool_props; constructor; cbn; try done.
  - by intros [] [= <-].
Qed.

Lemma received_inv x i off data :
  conn_inv x -> rpc x = Receiving i off -> data <> [] -> off + Z.of_nat (length data) <= capacity (cbufs x) ->
  conn_inv (x <| cbufs := set_buffer (cbufs x) i ((buffer (cbufs x) i) <| raw ::= fun m => memcpy m off data |>) |>
              <| rpc := Received i (Z.of_nat (length data)) |> <| stream_in ::= fun s => s ++ data |>).
Proof.
  intros [D1 D2 D3 D4 D5 D6] Hp Hd Hl. rewrite Hp in *. destruct D5 as [-> Hlt].
  constructor; cbn.
  - by destruct i.
  - intros j. pose proof (D2 true). pose proof (D2 false). destruct i, j; cbn in *; lia.
  - by destruct i.
  - intros j Hj. specialize (D4 j Hj). by destruct i.
  - split; [destruct data; [done|cbn; lia]|]. destruct i; cbn in *; lia.
  - by destruct (held x), i.
Qed.

Lemma advanced_inv x i n p :
  conn_inv x -> rpc x = Received i n -> writing p = None -> conn_inv (x <| cbufs := advance_write_offset (cbufs x) i n |> <| rpc := p |>).
Proof.
  intros [D1 D2 D3 D4 D5 D6] Hp Hw. rewrite Hp in *. destruct D5 as [Hn Hle]. destruct (advance_eq (cbufs x) i n) as (A1 & A2 & A3 & A4 & A5).
  constructor; cbn.
  - by rewrite A1.
  - intros j. rewrite A5, A1. pose proof (D2 i). destruct (Bool.eqb j i); cbn; [|done]. rewrite u64_id; [lia|word_unfold; lia].
  - rewrite A4, Hw. destruct (clear_inflight_fields (cbufs x) i) as [_ ->]. by rewrite D3, bool_decide_eq_true_2.
  - by rewrite Hw.
  - by destruct p.
  - by destruct (held x); rewrite ?A2, ?A3.
Qed.

Lemma conn_acquire_inv x :
  conn_inv x -> held x = None ->
  conn_inv (match acquire_read_buffer (cbufs x) with
            | (None, c) => x <| cbufs := c |>
            | (Some i, c) => x <| cbufs := c |> <| held := Some i |> <| read_out ::= fun o => o ++ [contents (buffer (cbufs x) i)] |>
            end).
Proof.
  intros Hinv Hh. assert (Hx : conn_inv (x <| cbufs := cbufs x |>)) by (by destruct x). pose proof Hinv as [D1 D2 D3 D4 D5 D6]. rewrite Hh in D6.
  unfold acquire_read_buffer. destruct (_ && _); [|done]. destruct (_ >? _); [|done].
  constructor; cbn; try done. by rewrite negb_involutive.
Qed.

Lemma conn_step_inv pf x y : conn_inv x -> conn_step pf x y -> conn_inv y.
Proof.
  intros Hinv Hs. pose proof Hinv as [D1 D2 D3 D4 D5 D6].
  destruct Hs as [x Hp|x i off data Hp Hd Hb Hl|x i n Hp|x i off now Hp|x now d Hp|x i off now d t Hp|x i off Hp|x i off Hp|x Hp|x Hp Hu|x Hh|x i Hh].
  - by apply location_inv.
  - by apply received_inv.
  - by apply advanced_inv.
  - apply swapped_inv; try done; [|by rewrite Hp]. destruct (_ || _); [|by apply same_swapped].
    apply same_swapped; [|by destruct i]. split_and!; [by destruct i..|]. intros j. by rewrite buffer_stamp.
  - apply swapped_inv; try done; [|by rewrite Hp]. destruct pf; [apply flush_swapped|by apply same_swapped].
  - destruct (conn_clear_inv x i Hinv) as [H1 _]; [by rewrite Hp|]. set (c := clear_write_inflight _ _) in *. clearbody c.
    refine (swapped_inv _ (if pf && t then (flush_partial_if_due c now d true).2 else c) Head H1 _ _ _ _); try done.
    destruct (pf && t); [apply flush_swapped|by apply same_swapped].
  - destruct (conn_clear_inv x i Hinv) as [H1 _]; [by rewrite Hp|]. set (c := clear_write_inflight _ _) in *. clearbody c.
    refine (swapped_inv _ (if write_offset (buffer c (current_write_idx c)) >? 0 then c <| write_buffer_ready := true |> else c) Closed H1 _ _ _ _);
      try done. destruct (_ >? 0); [|by apply same_swapped]. apply same_swapped; [|done]. split_and!; (done || by intros []).
  - destruct (conn_clear_inv x i Hinv) as [H1 _]; [by rewrite Hp|]. set (c := clear_write_inflight _ _) in *. clearbody c.
    refine (swapped_inv _ c Closed H1 _ _ _ _); try done. by apply same_swapped.
  - assert (Hsw : swapped (cbufs x) (signal_and_attempt_swap (cbufs x)).2) by (apply signal_swapped; by rewrite D3, Hp).
    destruct (signal_and_attempt_swap _) as [ok c]. apply swapped_inv; try done; [by destruct ok|by rewrite Hp|by destruct ok].
  - pose proof (swapped_inv x (cbufs x) Head Hinv) as H. rewrite Hp in H. apply H; try done. by apply same_swapped.
  - by apply conn_acquire_inv.
  - by apply conn_release_inv.
Qed.

Lemma conn_init_inv cap : 0 < cap < 2 ^ 63 -> conn_inv (conn_init cap).
Proof. intros H. constructor; cbn; try done. intros []; cbn; lia. Qed.

Lemma swapped_held c c' i :
  swapped c c' -> read_buffer_in_use c = true -> buffer c' i = buffer c i.
Proof. intros [((_ & _ & _ & H) & _)|(H & _)] Hu; [apply H|congruence]. Qed.

(** C23. From its acquire to its release the consumer's buffer does not change,
    whatever the receiver does. *)
Theorem consumer_buffer_is_stable cap pf x y i :
  0 < cap < 2 ^ 63 -> rtc (conn_step pf) (conn_init cap) x -> conn_step pf x y ->
  held x = Some i -> held y = Some i -> buffer (cbufs y) i = buffer (cbufs x) i.
Proof.
  intros Hcap Hr Hs Hx Hy. assert (Hinv : conn_inv x).
  { eapply (rtc_invariant (conn_step pf)); [|by apply conn_init_inv|exact Hr]. intros a b Ha Hab. by eapply conn_step_inv. }
  destruct Hinv as [D1 D2 D3 D4 D5 D6]. rewrite Hx in D6. destruct D6 as [Hu Hw].
  assert (Hne : forall j, writing (rpc x) = Some j -> Bool.eqb i j = false) by (intros j Hj; rewrite (D4 j Hj) in Hw; subst j; by destruct i).
  destruct Hs as [x Hp|x j off data Hp Hd Hb Hl|x j n Hp|x j off now Hp|x now d Hp|x j off now d t Hp|x j off Hp|x j off Hp|x Hp|x Hp Hu'|x Hh|x j Hh];
    cbn [cbufs upd eta_conn] in *; try (rewrite Hp in Hne; cbn in Hne).
  - unfold get_write_location. destruct (_ >=? _); by destruct i.
  - rewrite buffer_set. by rewrite Hne.
  - destruct (advance_eq (cbufs x) j n) as (_ & _ & _ & _ & ->). by rewrite Hne.
  - destruct (_ || _); [by rewrite buffer_stamp|done].
  - destruct pf; [|done]. by eapply swapped_held; [apply flush_swapped|].
  - destruct (clear_inflight_fields (cbufs x) j) as ((S1 & S2 & S3 & S4) & _). rewrite <- S4.
    destruct (pf && t); [|done]. eapply swapped_held; [apply flush_swapped|congruence].
  - destruct (clear_inflight_fields (cbufs x) j) as ((S1 & S2 & S3 & S4) & _). rewrite <- S4. destruct (_ >? 0); by destruct i.
  - by destruct (clear_inflight_fields (cbufs x) j) as ((S1 & S2 & S3 & S4) & _).
  - assert (Hsw : swapped (cbufs x) (signal_and_attempt_swap (cbufs x)).2) by (apply signal_swapped; by rewrite D3, Hp).
    destruct (signal_and_attempt_swap _) as [ok c]. by eapply swapped_held.
  - done.
  - congruence.
  - done.
Qed.

(** ** Runs *)
Inductive label := LLocation | LRecv (data : list Z) | LAdvance | LStamp | LFlush | LSwap | LFree | LAcquire | LRelease.
Definition conn_do (l : label) (x : conn) : option conn :=
  match l, rpc x with
  | LLocation, Head =>
      Some (match get_write_location (cbufs x) with
            | (None, c) => x <| cbufs := c |> <| rpc := FullBuffer |>
            | (Some (i, off), c) => x <| cbufs := c |> <| rpc := Receiving i off |>
            end)
  | LRecv (b :: data), Receiving i off =>
      if forallb (fun b => (0 <=? b) && (b <? 256)) (b :: data) && (off + Z.of_nat (length (b :: data)) <=? capacity (cbufs x)) then
        Some (x <| cbufs := set_buffer (cbufs x) i ((buffer (cbufs x) i) <| raw ::= fun m => memcpy m off (b :: data) |>) |>
                <| rpc := Received i (Z.of_nat (length (b :: data))) |> <| stream_in ::= fun s => s ++ b :: data |>)
      else None
  | LAdvance, Received i n => Some (x <| cbufs := advance_write_offset (cbufs x) i n |> <| rpc := Stamp i (write_offset (buffer (cbufs x) i)) |>)
  | LStamp, Stamp i off =>
      Some (x <| cbufs := if (off =? 0) || (first_write_ns (cbufs x) i =? 0) then set_first_write_ns (cbufs x) i 1 else cbufs x |>
              <| rpc := Flush |>)
  | LFlush, Flush => Some (x <| cbufs := cbufs x |> <| rpc := Head |>)
  | LSwap, FullBuffer =>
      Some (let '(ok, c) := signal_and_attempt_swap (cbufs x) in x <| cbufs := c |> <| rpc := if ok then Head else WaitFree |>)
  | LFree, WaitFree => if read_buffer_in_use (cbufs x) then None else Some (x <| rpc := Head |>)
  | LAcquire, _ =>
      match held x with
      | Some _ => None
      | None =>
          Some (match acquire_read_buffer (cbufs x) with
                | (None, c) => x <| cbufs := c |>
                | (Some i, c) => x <| cbufs := c |> <| held := Some i |> <| read_out ::= fun o => o ++ [contents (buffer (cbufs x) i)] |>
                end)
      end
  | LRelease, _ =>
      match held x with
      | Some i => Some (x <| cbufs := release_read_buffer (cbufs x) i |> <| held := None |>)
      | None => None
      end
  | _, _ => None
  end.

Lemma conn_do_step l x y : conn_do l x = Some y -> conn_step false x y.
Proof.
  unfold conn_do. intros H. destruct l as [|data| | | | | | |], (rpc x) eqn:Ep; try done.
  all: try (destruct (held x) eqn:Eh; try done; injection H as <-; by constructor).
  all: try (injection H as <-; by constructor).
  all: try (destruct data; discriminate).
  - destruct data as [|b data]; [done|]. destruct (_ && _) eqn:E; [|done]. apply andb_true_iff in E as [E1 E2]. apply Z.leb_le in E2.
    injection H as <-. apply (step_recv false x _ _ (b :: data) Ep); try done. apply Forall_forall. intros c Hc%list_elem_of_In. rewrite forallb_forall in E1.
    specialize (E1 c Hc). bool_props. lia.
  - injection H as <-. exact (step_flush false x 0 0 Ep).
  - destruct (read_buffer_in_use (cbufs x)) eqn:Eu; [done|]. injection H as <-. by constructor.
Qed.

Definition conn_sched (ls : list label) (x : conn) : option conn := foldl (fun o l => o ≫= conn_do l) (Some x) ls.
Lemma conn_sched_rtc ls : forall x y, conn_sched ls x = Some y -> rtc (conn_step false) x y.
Proof.
  unfold conn_sched. induction ls as [|l ls IH]; intros x y H; [by injection H as <-|]. cbn in H. destruct (conn_do l x) as [z|] eqn:E.
  - eapply rtc_l; [by eapply conn_do_step|]. by apply IH.
  - exfalso. clear -H. induction ls; [done|]. auto.
Qed.

(** One chunk received, with what follows it in the loop. *)
Definition chunk (data : list Z) : list label := [LLocation; LRecv data; LAdvance; LStamp; LFlush].

Definition label_run (ls : list label) : option conn := conn_sched ls (conn_init 4).

Lemma label_run_view {A} (f : conn -> A) ls v :
  f <$> label_run ls = Some v -> exists x, rtc (conn_step false) (conn_init 4) x /\ label_run ls = Some x /\ f x = v.
Proof. intros H. apply fmap_Some in H as (x & H & ->). exists x. split_and!; [by eapply conn_sched_rtc|done..]. Qed.

(** A full buffer that nobody has read yet is overwritten: the swap asks only
    whether the consumer has the other buffer. *)
Example unread_buffer_is_lost :
  exists x, rtc (conn_step false) (conn_init 4) x /\
  (stream_in x, read_out x, contents (buffer (cbufs x) false)) = ([1; 2; 3; 4; 5; 6; 7; 8], [[5; 6; 7; 8]], []).
Proof.
  edestruct (label_run_view (fun x => (stream_in x, read_out x, contents (buffer (cbufs x) false)))
    (chunk [1; 2; 3; 4] ++ [LLocation; LSwap] ++ chunk [5; 6; 7; 8] ++ [LLocation; LSwap; LAcquire])) as (x & Hr & _ & Hx);
    [vm_compute; reflexivity|]. by exists x.
Qed.

(** A buffer is read twice: the receiver marks its own buffer ready while the
    consumer has the other one, the release then leaves the indices alone, and
    the next acquire takes the buffer that was just released. *)
Example released_buffer_is_read_again :
  exists x, rtc (conn_step false) (conn_init 4) x /\
  (stream_in x, read_out x) = ([1; 2; 3; 4; 5; 6; 7; 8], [[1; 2; 3; 4]; [1; 2; 3; 4]]).
Proof.
  edestruct (label_run_view (fun x => (stream_in x, read_out x))
    (chunk [1; 2; 3; 4] ++ [LLocation; LSwap; LAcquire] ++ chunk [5; 6; 7; 8] ++ [LLocation; LSwap; LRelease; LAcquire])) as (x & Hr & _ & Hx);
    [vm_compute; reflexivity|]. by exists x.
Qed.

Lemma consumer_buffer_is_stable_witness :
  exists x y, conn_step false x y /\ held x = Some false /\ buffer (cbufs y) false = buffer (cbufs x) false.
Proof.
  destruct (label_run_view (fun x => (held x, held <$> conn_do (LRecv [5; 6]) x))
    (chunk [1; 2; 3; 4] ++ [LLocation; LSwap; LAcquire; LLocation]) (Some false, Some (Some false)))
    as (x & Hr & _ & Hv); [vm_compute; reflexivity|].
  pose proof (f_equal fst Hv) as Hh. pose proof (f_equal snd Hv) as Hy. cbn [fst snd] in Hh, Hy.
  apply fmap_Some in Hy as (y & Hy%conn_do_step & Hhy). symmetry in Hhy.
  exists x, y. split; [exact Hy|]. split; [exact Hh|].
  exact (consumer_buffer_is_stable 4 false x y false ltac:(lia) Hr Hy Hh Hhy).
Defined.

(** * The order-0 consumer *)

(** The messages of an acquired buffer of [size] bytes: the next order, and the
    offset of the message to return. *)
Fixpoint consume_scan (fuel : nat) (d : memory) (size pos next_expected : Z) (message_to_return : option Z) : Z * option Z :=
  match fuel with
  | O => (next_expected, message_to_return)
  | S fuel =>
      if pos + V1_HEADER_SIZE <=? size then
        let header := MessageHeader_load d pos in
        if negb (ValidateV1PaddedSize (paddedSize header) (size - pos)) then
          consume_scan fuel d size (pos + 8) next_expected message_to_return
        else
          let should_consume := total_order header =? next_expected in
          consume_scan fuel d size (pos + paddedSize header)
            (if should_consume then next_expected +u 1 else next_expected)
            (match message_to_return with
             | Some m => Some m
             | None => if should_consume then Some pos else None
             end)
      else (next_expected, message_to_return)
  end.
Definition consume_buffer (b : BufferState) (next_expected : Z) : Z * option Z :=
  consume_scan (S (Z.to_nat (write_offset b))) (raw b) (write_offset b) 0 next_expected None.

Record Order0Consumer := mkOrder0Consumer {
  connections : gmap Z ConnectionBuffers;
  next_expected_order_weak : Z;
  consume_acquired : option (Z * bool);  (** the connection and the buffer that is kept *)
}.
#[export] Instance eta_Order0Consumer : Eta Order0Consumer := fun s =>
  mkOrder0Consumer (connections s) (next_expected_order_weak s) (consume_acquired s).

(** One connection: acquire, parse, and release unless a message is returned. *)
Definition consume_connection (s : Order0Consumer) (fd : Z) : option (Z * bool * Z) * Order0Consumer :=
  match connections s !! fd with
  | None => (None, s)
  | Some conn =>
      match acquire_read_buffer conn with
      | (None, conn) => (None, s <| connections ::= <[fd := conn]> |>)
      | (Some i, conn) =>
          if write_offset (buffer conn i) <? V1_HEADER_SIZE then
            (None, s <| connections ::= <[fd := release_read_buffer conn i]> |>)
          else
            let '(next, message) := consume_buffer (buffer conn i) (next_expected_order_weak s) in
            let s := s <| next_expected_order_weak := next |> in
            match message with
            | Some pos => (Some (fd, i, pos), s <| connections ::= <[fd := conn]> |> <| consume_acquired := Some (fd, i) |>)
            | None => (None, s <| connections ::= <[fd := release_read_buffer conn i]> |>)
            end
      end
  end.

(** [fds]: the connections in the order in which the turns of the loop visit
    them until the timeout. *)
Fixpoint consume_loop (fds : list Z) (s : Order0Consumer) : option (Z * bool * Z) * Order0Consumer :=
  match fds with
  | [] => (None, s)
  | fd :: fds =>
      match consume_connection s fd with
      | (Some m, s) => (Some m, s)
      | (None, s) => consume_loop fds s
      end
  end.
Definition release_acquired (s : Order0Consumer) : Order0Consumer :=
  match consume_acquired s with
  | Some (fd, i) => s <| connections ::= alter (fun c => release_read_buffer c i) fd |> <| consume_acquired := None |>
  | None => s
  end.
Definition Consume (fds : list Z) (s : Order0Consumer) : option (Z * bool * Z) * Order0Consumer :=
  consume_loop fds (release_acquired s).

(** ** What a scan finds *)

(** From [pos] to [size] the buffer holds messages with these orders. *)
Inductive messages_in (d : memory) (size : Z) : Z -> list Z -> Prop :=
  | messages_end : messages_in d size size []
  | messages_cons pos t ts :
      total_order (MessageHeader_load d pos) = t ->
      ValidateV1PaddedSize (paddedSize (MessageHeader_load d pos)) (size - pos) = true ->
      messages_in d size (pos + paddedSize (MessageHeader_load d pos)) ts ->
      messages_in d size pos (t :: ts).

(** The orders that a scan counts, starting from the expected one. *)
Fixpoint expected_after (next_expected : Z) (ts : list Z) : Z :=
  match ts with
  | [] => next_expected
  | t :: ts => expected_after (if t =? next_expected then next_expected +u 1 else next_expected) ts
  end.

Lemma consume_scan_counts d size ts : forall fuel pos next ret,
  messages_in d size pos ts -> size - pos < Z.of_nat fuel ->
  (consume_scan fuel d size pos next ret).1 = expected_after next ts.
Proof.
  induction ts as [|t ts IH]; intros fuel pos next ret H Hf; inversion H as [|? ? ? Ht Hv Hm]; subst; destruct fuel as [|fuel]; cbn [consume_scan].
  - done.
  - unfold V1_HEADER_SIZE. by rewrite (proj2 (Z.leb_gt _ _)) by lia.
  - apply ValidateV1PaddedSize_spec in Hv as (H1 & H2 & H3). lia.
  - pose proof Hv as Hv'. apply ValidateV1PaddedSize_spec in Hv' as (H1 & H2 & H3). unfold V1_HEADER_SIZE.
    rewrite (proj2 (Z.leb_le _ _)) by lia. rewrite Hv. cbn [negb expected_after]. by apply IH; [|lia].
Qed.

Lemma consume_scan_kept fuel : forall d size pos next m, (consume_scan fuel d size pos next (Some m)).2 = Some m.
Proof.
  induction fuel as [|fuel IH]; intros; cbn [consume_scan]; [done|]. destruct (_ <=? _); [|done]. destruct (negb _); apply IH.
Qed.

Lemma expected_after_run (k : nat) : forall n, is_u64 n -> n + Z.of_nat k < 2 ^ 64 -> expected_after n (seqZ n (Z.of_nat k)) = n + Z.of_nat k.
Proof.
  induction k as [|k IH]; intros n Hn Hk; [rewrite seqZ_nil by lia; cbn; lia|].
  rewrite seqZ_cons by lia. cbn [expected_after]. rewrite Z.eqb_refl. replace (n +u 1) with (n + 1) by (word_lia).
  replace (Z.pred (Z.of_nat (S k))) with (Z.of_nat k) by lia. rewrite <- Z.add_1_r, IH by (word_unfold; lia). lia.
Qed.

(** The order-0 consumer returns one message of an acquired buffer and counts
    them all: of a run of consecutive orders only the first is ever returned. *)
Theorem order0_consume_returns_first_of_run b n (k : nat) :
  is_u64 n -> n + Z.of_nat (S k) < 2 ^ 64 -> 0 <= write_offset b ->
  messages_in (raw b) (write_offset b) 0 (seqZ n (Z.of_nat (S k))) ->
  consume_buffer b n = (n + Z.of_nat (S k), Some 0).
Proof.
  intros Hn Hk Hw Hm. unfold consume_buffer.
  pose proof (consume_scan_counts _ _ _ (S (Z.to_nat (write_offset b))) 0 n None Hm ltac:(lia)) as Hc.
  rewrite expected_after_run in Hc by done.
  assert (Hr : (consume_scan (S (Z.to_nat (write_offset b))) (raw b) (write_offset b) 0 n None).2 = Some 0).
  { rewrite seqZ_cons in Hm by lia. inversion Hm as [|? ? ? Ht Hv _]. cbn [consume_scan].
    pose proof Hv as Hv'. apply ValidateV1PaddedSize_spec in Hv' as (Hp1 & Hp2 & Hp3). unfold V1_HEADER_SIZE.
    rewrite (proj2 (Z.leb_le _ _)) by lia. rewrite Hv. cbn [negb]. rewrite Ht, Z.eqb_refl. apply consume_scan_kept. }
  destruct (consume_scan _ _ _ _ _ _) as [a b']. cbn in Hc, Hr. by subst.
Qed.

(** Two messages of 64 bytes with orders 0 and 1. *)
Definition two_messages : BufferState :=
  mkBufferState (memcpy (memcpy ∅ 0 (MessageHeader_bytes (mkMessageHeader 64 0 0 0 0 7 0 0)))
    64 (MessageHeader_bytes (mkMessageHeader 64 0 0 0 1 7 0 0))) 128.
Lemma order0_consume_returns_first_of_run_witness : consume_buffer two_messages 0 = (2, Some 0).
Proof.
  apply (order0_consume_returns_first_of_run two_messages 0 1); [word_unfold; lia|lia|cbn; lia|].
  change (seqZ 0 (Z.of_nat 2)) with [0; 1]. change (write_offset two_messages) with 128.
  apply messages_cons; [by vm_compute..|]. replace (0 + paddedSize (MessageHeader_load (raw two_messages) 0)) with 64 by (by vm_compute).
  apply messages_cons; [by vm_compute..|]. replace (64 + paddedSize (MessageHeader_load (raw two_messages) 64)) with 128 by (by vm_compute).
  apply messages_end.
Defined.
