(* ===== verification/PublisherLedger.v ===== *)
(** The batches that a publisher retains until they are acknowledged
    (src/client/publisher_retention.cc), the acknowledgements
    (src/client/publisher_ack.cc) and the rollover to a new session
    (src/client/publisher_session.cc), for order 5. *)

From S2P Require Import Prelude Sorting.

(** * State *)

(** A batch as it lies in its slot of the pool, or in an owned copy. *)
Record Batch := mkBatch {
  h_batch_seq : Z;
  h_session_epoch : Z;
  h_session_epoch32 : Z;
  h_client_id : Z;
  h_broker_id : Z;
  h_num_msg : Z;
  h_body : list Z;
}.
#[export] Instance eta_Batch : Eta Batch := fun b =>
  mkBatch (h_batch_seq b) (h_session_epoch b) (h_session_epoch32 b) (h_client_id b) (h_broker_id b) (h_num_msg b) (h_body b).
Definition sizeof_BatchHeader : Z := 128.

(** [wire] is the owned copy, [pool_batch] the slot that is pinned. *)
Record UnackedBatch := mkUnacked {
  original_batch_seq : Z;
  current_batch_seq : Z;
  u_num_msg : Z;
  u_session_epoch : Z;
  u_broker_id : Z;
  broker_ack_end : Z;
  attempt : Z;
  last_send_ns : Z;
  wire : option Batch;
  pool_batch : option Z;
  wire_bytes : Z;
}.
#[export] Instance eta_UnackedBatch : Eta UnackedBatch := fun u =>
  mkUnacked (original_batch_seq u) (current_batch_seq u) (u_num_msg u) (u_session_epoch u) (u_broker_id u) (broker_ack_end u)
    (attempt u) (last_send_ns u) (wire u) (pool_batch u) (wire_bytes u).

(** [released] lists the slots given back to the pool, [requeued] what a
    rollover put on the recovery queue and [resent] what it sent directly. *)
Record Publisher := mkPublisher {
  session_epoch : Z;
  requested_session_epoch : Z;
  ack_message_base : Z;
  order5_last_ack_hwm : Z;
  ack_received : Z;
  reopen_pending : bool;
  publish_finished : bool;
  ack_drain_active : bool;
  last_ack_drain_fence_hwm : Z;
  workers_stop : bool;
  shutdown : bool;
  unacked_batches : list UnackedBatch;
  unacked_bytes : Z;
  session_sent_hwm : Z;
  session_retire_prefix_hwm : Z;
  session_next_retire_batch_seq : Z;
  session_trim_committed_hwm : Z;
  session_trim_committed_valid : bool;
  pool : gmap Z Batch;
  released : list Z;
  requeued : list Z;
  resent : list Batch;
  next_batch_seq : Z;
}.
#[export] Instance eta_Publisher : Eta Publisher := fun p =>
  mkPublisher (session_epoch p) (requested_session_epoch p) (ack_message_base p) (order5_last_ack_hwm p) (ack_received p)
    (reopen_pending p) (publish_finished p) (ack_drain_active p) (last_ack_drain_fence_hwm p) (workers_stop p) (shutdown p) (unacked_batches p)
    (unacked_bytes p) (session_sent_hwm p) (session_retire_prefix_hwm p) (session_next_retire_batch_seq p)
    (session_trim_committed_hwm p) (session_trim_committed_valid p) (pool p) (released p) (requeued p) (resent p) (next_batch_seq p).

(** What does not change: the client, the acknowledgement level, the limit of
    retained bytes and whether retained batches are copied. *)
Record PubEnv := mkPubEnv {
  pe_client_id : Z;
  ack_level : Z;
  unacked_byte_cap : Z;
  owned_rto_copy : bool;
}.

Definition release (p : Publisher) (slots : list Z) : Publisher := p <| released ::= fun l => l ++ slots |>.
Definition slot_list (u : UnackedBatch) : list Z := option_list (pool_batch u).

(** * Retention *)

(** The two loops: records behind the retire cursor are dropped, then the cursor
    passes the holes of the committed prefix.  The slots are returned. *)
Fixpoint drop_behind (next : Z) (bytes : Z) (l : list UnackedBatch) : list UnackedBatch * Z * list Z :=
  match l with
  | [] => ([], bytes, [])
  | u :: l' =>
      if current_batch_seq u <? next then
        let '(l', bytes, slots) := drop_behind next (bytes -u wire_bytes u) l' in (l', bytes, slot_list u ++ slots)
      else (l, bytes, [])
  end.
Fixpoint skip_holes (fuel : nat) (front : option Z) (next hwm : Z) : Z :=
  match fuel with
  | O => next
  | S fuel =>
      if next <=? hwm then
        if bool_decide (front = Some next) then next else skip_holes fuel front (next +u 1) hwm
      else next
  end.
Definition AdvanceRetireThroughTrimmedHolesLocked (p : Publisher) : Publisher * list Z :=
  if negb (session_trim_committed_valid p) then (p, [])
  else
    let '(l, bytes, slots) := drop_behind (session_next_retire_batch_seq p) (unacked_bytes p) (unacked_batches p) in
    let next := session_next_retire_batch_seq p in
    let hwm := session_trim_committed_hwm p in
    (p <| unacked_batches := l |> <| unacked_bytes := bytes |>
       <| session_next_retire_batch_seq := skip_holes (Z.to_nat (hwm + 1 - next)) (current_batch_seq <$> head l) next hwm |>,
     slots).

(** One pass over the records; the sum of the credited messages, the bytes left
    and the slots. *)
Fixpoint trim_pass (hwm next : Z) (bytes credited : Z) (l : list UnackedBatch) : list UnackedBatch * Z * Z * list Z :=
  match l with
  | [] => ([], bytes, credited, [])
  | u :: l =>
      if original_batch_seq u <=? hwm then
        let credited := if current_batch_seq u >=? next then credited +u u_num_msg u else credited in
        let '(l, bytes, credited, slots) := trim_pass hwm next (bytes -u wire_bytes u) credited l in
        (l, bytes, credited, slot_list u ++ slots)
      else
        let '(l, bytes, credited, slots) := trim_pass hwm next bytes credited l in (u :: l, bytes, credited, slots)
  end.
Definition TrimUnackedThroughBatchSeqLocked (p : Publisher) (committed_batch_hwm : Z) : Z * Publisher * list Z :=
  let '(l, bytes, newly_credited_msgs, slots) :=
    trim_pass committed_batch_hwm (session_next_retire_batch_seq p) (unacked_bytes p) 0 (unacked_batches p) in
  let p := p <| unacked_batches := l |> <| unacked_bytes := bytes |> in
  let p := if negb (session_trim_committed_valid p) || (committed_batch_hwm >? session_trim_committed_hwm p) then
             p <| session_trim_committed_hwm := committed_batch_hwm |> <| session_trim_committed_valid := true |>
           else p in
  let p := p <| session_retire_prefix_hwm ::= fun h => h +u newly_credited_msgs |> in
  let '(p, more) := AdvanceRetireThroughTrimmedHolesLocked p in
  (newly_credited_msgs, p, slots ++ more).

(** Whether a send of [bytes] has to wait. *)
Definition has_unacked_capacity (e : PubEnv) (p : Publisher) (bytes : Z) : bool :=
  (ack_level e <? 1) || (unacked_byte_cap e =? 0) || shutdown p || (unacked_bytes p +u bytes <=? unacked_byte_cap e).

(** [std::upper_bound] and insertion. *)
Fixpoint insert_record (u : UnackedBatch) (l : list UnackedBatch) : list UnackedBatch :=
  match l with
  | [] => [u]
  | v :: l' => if current_batch_seq u <? current_batch_seq v then u :: l else v :: insert_record u l'
  end.
Definition record_insert (u : UnackedBatch) (l : list UnackedBatch) : list UnackedBatch :=
  match last l with
  | None => [u]
  | Some v => if current_batch_seq u >=? current_batch_seq v then l ++ [u] else insert_record u l
  end.

(** The record of a sent batch that lies in [slot]. *)
Definition unacked_record (e : PubEnv) (header : Batch) (slot wire_bytes broker_id now : Z) : UnackedBatch :=
  mkUnacked (h_batch_seq header) (h_batch_seq header) (h_num_msg header) (h_session_epoch32 header) broker_id U64_MAX 0 now
    (if owned_rto_copy e then Some header else None) (if owned_rto_copy e then None else Some slot) wire_bytes.
Definition behind_trim (p : Publisher) (seq : Z) : bool :=
  session_trim_committed_valid p && (seq <=? session_trim_committed_hwm p).
(** The check before and the one after the record is built are separate
    critical sections.  The result says that the record owns the slot. *)
Definition record_check (p : Publisher) (header : Batch) : bool * Publisher :=
  if behind_trim p (h_batch_seq header) then (false, (AdvanceRetireThroughTrimmedHolesLocked p).1) else (true, p).
Definition record_commit (e : PubEnv) (p : Publisher) (header : Batch) (slot wire_bytes broker_id now : Z) : bool * Publisher :=
  if behind_trim p (h_batch_seq header) then (false, (AdvanceRetireThroughTrimmedHolesLocked p).1)
  else
    let u := unacked_record e header slot wire_bytes broker_id now in
    (negb (owned_rto_copy e),
     p <| session_sent_hwm ::= fun n => n +u u_num_msg u |> <| unacked_bytes ::= fun n => n +u wire_bytes |>
       <| unacked_batches ::= record_insert u |>).
Definition records_batch (e : PubEnv) (header : Batch) (wire_bytes : Z) : bool :=
  negb ((ack_level e <? 1) || (h_session_epoch32 header =? 0)) && negb (wire_bytes <? sizeof_BatchHeader).
(** The whole call, and the release of the slot that the caller does when the
    record does not own it. *)
Definition RecordUnackedBatch (e : PubEnv) (p : Publisher) (header : Batch) (slot wire_bytes broker_id now : Z) : bool * Publisher :=
  if negb (records_batch e header wire_bytes) then (false, p)
  else
    let '(go, p) := record_check p header in
    if go then record_commit e p header slot wire_bytes broker_id now else (false, p).
Definition sent_batch (e : PubEnv) (p : Publisher) (header : Batch) (slot wire_bytes broker_id now : Z) : Publisher :=
  let '(owns, p) := RecordUnackedBatch e p header slot wire_bytes broker_id now in
  if owns then p else release p [slot].

(** ** Acknowledgements *)
Definition SessionPrefixAckEnd (batch_seq expected_batch_seq current_prefix_hwm batch_num_msg : Z) : option Z :=
  if negb (batch_seq =? expected_batch_seq) then None else Some (current_prefix_hwm +u batch_num_msg).
Definition SessionGlobalUnackedRetired (batch_global_ack_end acked_messages : Z) : bool := batch_global_ack_end <=? acked_messages.
Definition SessionGlobalAckFromWire (locally_committed_base cumulative_wire_ack : Z) : Z :=
  Z.max locally_committed_base cumulative_wire_ack.
Definition RebasedAckBaseAfterFenceCredit (prior_ack_received locally_committed_messages : Z) : Z :=
  prior_ack_received +u locally_committed_messages.
Definition NextSessionEpochAfterFence (old_epoch : Z) : Z := if old_epoch =? 0 then 1 else u32 (old_epoch + 1).
Definition NextBatchSeqAfterSuffixResubmit (suffix_batches : Z) : Z := suffix_batches.

(** The record at the front does not stand at the retire cursor although a trim
    has moved it. *)
Definition needs_heal (p : Publisher) (seq : Z) : bool :=
  session_trim_committed_valid p &&
  ((seq <? session_next_retire_batch_seq p) ||
   ((seq >? session_next_retire_batch_seq p) && (session_next_retire_batch_seq p <=? session_trim_committed_hwm p))).
Definition heal_front (p : Publisher) (seq : Z) : Publisher * list Z :=
  if needs_heal p seq then AdvanceRetireThroughTrimmedHolesLocked p else (p, []).

Fixpoint complete_loop (fuel : nat) (p : Publisher) (broker_ack_hwm : Z) : Publisher * list Z :=
  match fuel, unacked_batches p with
  | O, _ | _, [] => (p, [])
  | S fuel, u :: _ =>
      let '(p, slots) := heal_front p (current_batch_seq u) in
      match unacked_batches p with
      | [] => (p, slots)
      | u :: l =>
          match SessionPrefixAckEnd (current_batch_seq u) (session_next_retire_batch_seq p) (session_retire_prefix_hwm p) (u_num_msg u) with
          | None => (p, slots)
          | Some candidate_hwm =>
              if negb (SessionGlobalUnackedRetired candidate_hwm broker_ack_hwm) then
                (p <| unacked_batches := u <| broker_ack_end := candidate_hwm |> :: l |>, slots)
              else
                let p := p <| session_retire_prefix_hwm := candidate_hwm |>
                           <| session_next_retire_batch_seq ::= fun n => n +u 1 |>
                           <| unacked_bytes ::= fun n => n -u wire_bytes u |>
                           <| unacked_batches := l |> in
                let '(p, more) := complete_loop fuel p broker_ack_hwm in
                (p, slots ++ slot_list u ++ more)
          end
      end
  end.
Definition CompleteUnackedThrough (e : PubEnv) (p : Publisher) (broker_ack_hwm : Z) : Publisher :=
  if ack_level e <? 1 then p
  else let '(p, slots) := complete_loop (length (unacked_batches p)) p broker_ack_hwm in release p slots.

(** A full value from a socket whose last value was [prev_acked].  The new last
    value of the socket is returned. *)
Definition process_ack (e : PubEnv) (p : Publisher) (prev_acked acked_msg : Z) : Z * Publisher :=
  let session_global_acked := SessionGlobalAckFromWire (ack_message_base p) acked_msg in
  if (session_global_acked >=? prev_acked) || (prev_acked =? U64_MAX) then
    let global_prev := order5_last_ack_hwm p in
    let new_acked_msgs := if session_global_acked >? global_prev then session_global_acked -u global_prev else 0 in
    if new_acked_msgs >? 0 then
      let p := p <| order5_last_ack_hwm := session_global_acked |> in
      let p := CompleteUnackedThrough e p session_global_acked in
      (session_global_acked, p <| ack_received ::= fun n => n +u new_acked_msgs |>)
    else (prev_acked, p)
  else (prev_acked, p).

(** ** Opening a session *)
Inductive open_status := OPEN_OK | FENCED | EPOCH_STALE | RESOURCE_EXHAUSTED.
#[export] Instance open_status_eq_dec : EqDecision open_status.
Proof. solve_decision. Defined.
Record SessionOpenAck := mkSessionOpenAck {
  assigned_session_epoch : Z;
  committed_hwm : option Z;   (** [None] where the broker has no committed prefix *)
  open_result : open_status;
}.
(** What the handshake's answer changes when the session was opened. *)
Definition session_opened (e : PubEnv) (p : Publisher) (ack : SessionOpenAck) : Publisher :=
  let p := p <| session_epoch := assigned_session_epoch ack |> <| requested_session_epoch := assigned_session_epoch ack |> in
  match committed_hwm ack with
  | Some hwm =>
      if ack_level e >=? 1 then let '(_, p, slots) := TrimUnackedThroughBatchSeqLocked p hwm in release p slots else p
  | None => p
  end.

(** ** A fenced session *)
Record SessionFenced := mkSessionFenced {
  committed_batch_seq : Z;
  has_committed_prefix : bool;
}.

(** While the durable acknowledgements drain, a fence that changes nothing is
    answered by a trim alone: [false] is the early return. *)
Definition fence_during_drain (e : PubEnv) (p : Publisher) (f : SessionFenced) : bool * Publisher :=
  if publish_finished p && (ack_level e >=? 2) && ack_drain_active p && has_committed_prefix f then
    let '(locally_committed_msgs, p, slots) := TrimUnackedThroughBatchSeqLocked p (committed_batch_seq f) in
    let p := release p slots in
    let p := if locally_committed_msgs >? 0 then p <| ack_received ::= fun n => n +u locally_committed_msgs |> else p in
    let prev_hwm := last_ack_drain_fence_hwm p in
    if bool_decide (unacked_batches p = []) || (committed_batch_seq f =? prev_hwm) then (false, p)
    else (true, p <| last_ack_drain_fence_hwm := committed_batch_seq f |>)
  else (true, p).

Definition committed_by (f : SessionFenced) (u : UnackedBatch) : bool :=
  has_committed_prefix f && (original_batch_seq u <=? committed_batch_seq f).
(** The retained batches of the old epoch that were not committed. *)
Definition fence_suffix `{StdSort} (old_epoch : Z) (f : SessionFenced) (l : list UnackedBatch) : list UnackedBatch :=
  std_sort (by_key original_batch_seq)
    (filter (fun u => u_session_epoch u = old_epoch /\ committed_by f u = false) l).
Definition fence_committed (old_epoch : Z) (f : SessionFenced) (l : list UnackedBatch) : list UnackedBatch :=
  filter (fun u => u_session_epoch u = old_epoch /\ committed_by f u = true) l.
Definition sum_msgs (l : list UnackedBatch) : Z := foldr (fun u n => u_num_msg u +u n) 0 l.

(** The snapshot of the retained batches, the reset of the session's counters
    and the new base of the acknowledgements. *)
Definition fence_collect `{StdSort} (p : Publisher) (old_epoch new_epoch : Z) (f : SessionFenced) : list UnackedBatch * Publisher :=
  let p := p <| requested_session_epoch := new_epoch |> <| session_epoch := new_epoch |> in
  let ack_base_before_local_credit := ack_received p in
  let suffix := fence_suffix old_epoch f (unacked_batches p) in
  let committed := fence_committed old_epoch f (unacked_batches p) in
  let locally_committed_msgs := sum_msgs committed in
  let p := p <| unacked_batches := [] |> <| unacked_bytes := 0 |> <| session_sent_hwm := 0 |> <| session_retire_prefix_hwm := 0 |>
             <| session_next_retire_batch_seq := 0 |> <| session_trim_committed_hwm := 0 |> <| session_trim_committed_valid := false |> in
  let p := release p (concat (slot_list <$> committed)) in
  let p := p <| ack_received ::= fun n => n +u locally_committed_msgs |> in
  let rebased_ack_base := RebasedAckBaseAfterFenceCredit ack_base_before_local_credit locally_committed_msgs in
  (suffix, p <| ack_message_base := rebased_ack_base |> <| order5_last_ack_hwm := rebased_ack_base |>
             <| session_retire_prefix_hwm := rebased_ack_base |>).

Definition restamp (e : PubEnv) (b : Batch) (new_seq new_epoch recovery_broker : Z) : Batch :=
  mkBatch new_seq (Z.land new_epoch 65535) new_epoch (pe_client_id e) recovery_broker (h_num_msg b) (h_body b).
(** [Header()]: the owned copy, or the slot. *)
Definition header_of_record (p : Publisher) (u : UnackedBatch) : option Batch :=
  match wire u with
  | Some b => Some b
  | None => pool_batch u ≫= fun slot => pool p !! slot
  end.
(** The loop that restamps the suffix.  Pinned slots go to the recovery queue,
    owned copies are sent at once; [ok] gives the results of the enqueues and
    sends.  The loop stops when one fails. *)
Fixpoint resubmit_loop (e : PubEnv) (new_epoch recovery_broker now : Z) (ok : list bool) (suffix : list UnackedBatch) (new_seq : Z)
    (p : Publisher) : Z * Publisher :=
  match suffix with
  | [] => (new_seq, p)
  | u :: suffix =>
      if shutdown p then (new_seq, p)
      else
        match header_of_record p u with
        | None => resubmit_loop e new_epoch recovery_broker now ok suffix new_seq p
        | Some b =>
            let b := restamp e b new_seq new_epoch recovery_broker in
            let '(done, ok) := match ok with [] => (true, []) | o :: ok => (o, ok) end in
            match pool_batch u with
            | Some slot =>
                let p := match wire u with None => p <| pool ::= <[slot := b]> |> | Some _ => p end in
                if done then resubmit_loop e new_epoch recovery_broker now ok suffix (new_seq +u 1) (p <| requeued ::= fun q => q ++ [slot] |>)
                else (new_seq +u 1, p <| shutdown := true |>)
            | None =>
                if done then
                  let u := u <| wire := Some b |> <| current_batch_seq := new_seq |> <| u_session_epoch := new_epoch |>
                             <| u_broker_id := recovery_broker |> <| attempt := 1 |> <| last_send_ns := now |>
                             <| broker_ack_end := U64_MAX |> in
                  let p := p <| resent ::= fun q => q ++ [b] |> <| session_sent_hwm ::= fun n => n +u u_num_msg u |>
                             <| unacked_bytes ::= fun n => n +u wire_bytes u |> <| unacked_batches ::= fun l => l ++ [u] |> in
                  resubmit_loop e new_epoch recovery_broker now ok suffix (new_seq +u 1) p
                else (new_seq +u 1, p <| shutdown := true |>)
            end
        end
  end.

(** The handler.  [during] is what the other threads do to the publisher while
    the sends drain, [drained] whether they did in time, and [recovery] the
    broker that takes the suffix, if there is one. *)
Definition HandleSessionFenced `{StdSort} (e : PubEnv) (p : Publisher) (f : SessionFenced) (during : Publisher -> Publisher) (drained : bool)
    (recovery : option Z) (now : Z) (ok : list bool) : Publisher :=
  if workers_stop p || shutdown p then p
  else
    let '(go, p) := fence_during_drain e p f in
    if negb go then p
    else
      let old_epoch := session_epoch p in
      let new_epoch := NextSessionEpochAfterFence old_epoch in
      let p := during (p <| reopen_pending := true |>) in
      if negb drained then p <| shutdown := true |> <| reopen_pending := false |>
      else
        let '(suffix, p) := fence_collect p old_epoch new_epoch f in
        let p := match recovery with None => p <| shutdown := true |> | Some _ => p end in
        let '(new_seq, p) := resubmit_loop e new_epoch (default (-1) recovery) now ok suffix 0 p in
        p <| next_batch_seq := NextBatchSeqAfterSuffixResubmit new_seq |> <| reopen_pending := false |>.

(** * One session

    The batches of the session have [sizes] messages, and [base] messages of the
    client were committed before it.  The broker's acknowledgement after it
    committed the first [k] batches is [acked_at k]. *)
Section session.
  Context (e : PubEnv) (base : Z) (sizes : list Z).
  Hypothesis level : 1 <= ack_level e.
  Hypothesis base_ok : 0 <= base.
  Hypothesis sizes_ok : Forall (fun n => 0 < n) sizes.

Definition total (l : list Z) : Z := foldr Z.add 0 l.
Definition acked_at (k : Z) : Z := base + total (take (Z.to_nat k) sizes).
Definition batches : Z := Z.of_nat (length sizes).
Hypothesis fits : acked_at batches < 2 ^ 64 /\ batches < U64_MAX.

Lemma sizes_total_app a b : total (a ++ b) = total a + total b.
Proof. induction a as [|n a IH]; [done|]. cbn [total foldr app]. fold (total (a ++ b)) (total a). rewrite IH. lia. Qed.
Lemma sizes_total_nonneg l : Forall (fun n => 0 < n) l -> 0 <= total l.
Proof. induction 1 as [|n l Hn _ IH]; [done|]. cbn. fold (total l). lia. Qed.

Lemma acked_at_S i n : 0 <= i -> sizes !! Z.to_nat i = Some n -> acked_at (i + 1) = acked_at i + n.
Proof.
  intros Hi Hn. unfold acked_at. replace (Z.to_nat (i + 1)) with (S (Z.to_nat i)) by lia.
  rewrite (take_S_r _ _ _ Hn), sizes_total_app. cbn. lia.
Qed.
Lemma acked_at_mono i j : 0 <= i <= j -> acked_at i <= acked_at j.
Proof.
  intros H. unfold acked_at. rewrite <- (take_drop (Z.to_nat i) (take (Z.to_nat j) sizes)), sizes_total_app, take_take.
  replace (Z.to_nat i `min` Z.to_nat j)%nat with (Z.to_nat i) by lia.
  pose proof (sizes_total_nonneg (drop (Z.to_nat i) (take (Z.to_nat j) sizes))) as Hp.
  assert (0 <= total (drop (Z.to_nat i) (take (Z.to_nat j) sizes))); [|lia]. by apply Hp, Forall_drop, Forall_take.
Qed.
Lemma acked_at_lt i j : 0 <= i < j -> j <= batches -> acked_at i < acked_at j.
Proof.
  intros H Hj. unfold batches in Hj. destruct (lookup_lt_is_Some_2 sizes (Z.to_nat i)) as [n Hn]; [lia|].
  pose proof (acked_at_S i n ltac:(lia) Hn). pose proof (acked_at_mono (i + 1) j ltac:(lia)).
  rewrite Forall_lookup in sizes_ok. pose proof (sizes_ok _ _ Hn). cbn in *. lia.
Qed.
Lemma acked_at_range i : 0 <= i <= batches -> 0 <= acked_at i < 2 ^ 64.
Proof.
  intros H. pose proof (acked_at_mono i batches H). pose proof (acked_at_mono 0 i ltac:(lia)).
  assert (acked_at 0 = base) by (unfold acked_at, total; rewrite take_0; cbn; lia). lia.
Qed.

(** What happens in a session: the broker commits batches, a sent batch is
    recorded, an acknowledgement arrives, a reconnect trims. *)
Record lworld := mkLworld {
  lw_pub : Publisher;
  lw_recorded : gset Z;
  lw_committed : Z;
}.
Inductive lop :=
  | LCommit (k : Z)
  | LSent (header : Batch) (slot wire_bytes broker_id now : Z)
  | LAck (prev k : Z)
  | LTrim (ack : SessionOpenAck).

Definition do_lop (w : lworld) (o : lop) : lworld :=
  match o with
  | LCommit k => mkLworld (lw_pub w) (lw_recorded w) k
  | LSent header slot bytes broker now =>
      mkLworld (sent_batch e (lw_pub w) header slot bytes broker now) ({[h_batch_seq header]} ∪ lw_recorded w) (lw_committed w)
  | LAck prev k => mkLworld (process_ack e (lw_pub w) prev (acked_at k)).2 (lw_recorded w) (lw_committed w)
  | LTrim ack => mkLworld (session_opened e (lw_pub w) ack) (lw_recorded w) (lw_committed w)
  end.

(** The broker acknowledges and reports only what it committed; a trim finds
    every batch it covers recorded. *)
Definition lop_ok (w : lworld) (o : lop) : Prop :=
  match o with
  | LCommit k => lw_committed w <= k <= batches
  | LSent header slot bytes _ _ =>
      0 <= h_batch_seq header < batches /\ (h_batch_seq header ∉ lw_recorded w) /\
      sizes !! Z.to_nat (h_batch_seq header) = Some (h_num_msg header) /\
      h_session_epoch32 header = session_epoch (lw_pub w) /\ sizeof_BatchHeader <= bytes < 2 ^ 63
  | LAck _ k => 0 <= k <= lw_committed w
  | LTrim ack =>
      open_result ack = OPEN_OK /\ assigned_session_epoch ack = session_epoch (lw_pub w) /\
      forall h, committed_hwm ack = Some h -> 0 <= h < lw_committed w /\ forall i, 0 <= i <= h -> i ∈ lw_recorded w
  end.
Inductive lrun : lworld -> list lop -> lworld -> Prop :=
  | lrun_nil w : lrun w [] w
  | lrun_snoc w ops w' o : lrun w ops w' -> lop_ok w' o -> lrun w (ops ++ [o]) (do_lop w' o).

Definition rec_ok (epoch : Z) (u : UnackedBatch) : Prop :=
  original_batch_seq u = current_batch_seq u /\ sizes !! Z.to_nat (current_batch_seq u) = Some (u_num_msg u) /\
  u_session_epoch u = epoch.
Definition sum_bytes (l : list UnackedBatch) : Z := foldr (fun u n => wire_bytes u + n) 0 l.

(** The retained records are those of the recorded batches from the retire
    cursor on, and the cursor stands behind committed batches only. *)
Record linv (w : lworld) : Prop := {
  li_cursor : 0 <= session_next_retire_batch_seq (lw_pub w) <= lw_committed w;
  li_committed : lw_committed w <= batches;
  li_recorded : forall i, i ∈ lw_recorded w -> 0 <= i < batches;
  li_before : forall i, 0 <= i < session_next_retire_batch_seq (lw_pub w) -> i ∈ lw_recorded w;
  li_unacked : current_batch_seq <$> unacked_batches (lw_pub w) =
    filter (fun i => i ∈ lw_recorded w)
      (seqZ (session_next_retire_batch_seq (lw_pub w)) (batches - session_next_retire_batch_seq (lw_pub w)));
  li_rec : Forall (rec_ok (session_epoch (lw_pub w))) (unacked_batches (lw_pub w));
  li_prefix : session_retire_prefix_hwm (lw_pub w) = acked_at (session_next_retire_batch_seq (lw_pub w));
  li_trim : session_trim_committed_valid (lw_pub w) = true ->
    session_trim_committed_hwm (lw_pub w) < session_next_retire_batch_seq (lw_pub w);
  li_bytes : unacked_bytes (lw_pub w) = u64 (sum_bytes (unacked_batches (lw_pub w)));
  li_base : ack_message_base (lw_pub w) = base;
  li_epoch : session_epoch (lw_pub w) <> 0;
}.
(** The publisher's count is the messages of a committed prefix. *)
Definition lacked (w : lworld) : Prop :=
  exists a, 0 <= a <= lw_committed w /\ order5_last_ack_hwm (lw_pub w) = acked_at a /\ ack_received (lw_pub w) = acked_at a.

Lemma advance_id p :
  (session_trim_committed_valid p = true -> session_trim_committed_hwm p < session_next_retire_batch_seq p) ->
  Forall (fun u => session_next_retire_batch_seq p <= current_batch_seq u) (unacked_batches p) ->
  AdvanceRetireThroughTrimmedHolesLocked p = (p, []).
Proof.
  intros Ht Hu. unfold AdvanceRetireThroughTrimmedHolesLocked. destruct (session_trim_committed_valid p) eqn:Ev; [|done]. cbn [negb].
  specialize (Ht eq_refl). replace (Z.to_nat _) with 0%nat by lia.
  assert (Hd : drop_behind (session_next_retire_batch_seq p) (unacked_bytes p) (unacked_batches p) = (unacked_batches p, unacked_bytes p, [])).
  { destruct Hu as [|u l Hh _]; [done|]. cbn. by replace (_ <? _) with false by lia. }
  rewrite Hd. by destruct p.
Qed.

Lemma linv_behind w : linv w -> Forall (fun u => session_next_retire_batch_seq (lw_pub w) <= current_batch_seq u) (unacked_batches (lw_pub w)).
Proof.
  intros Hi. apply Forall_fmap with (P := fun i => session_next_retire_batch_seq (lw_pub w) <= i). rewrite (li_unacked _ Hi).
  apply Forall_forall. intros i Hin. apply list_elem_of_filter in Hin as [_ Hin%elem_of_seqZ]. lia.
Qed.

Lemma linv_advance w : linv w -> AdvanceRetireThroughTrimmedHolesLocked (lw_pub w) = (lw_pub w, []).
Proof. intros Hi. apply advance_id; [apply Hi|by apply linv_behind]. Qed.

(** The first record, when the batch at the cursor is recorded. *)
Lemma linv_front w :
  linv w ->
  match unacked_batches (lw_pub w) with
  | [] => forall i, session_next_retire_batch_seq (lw_pub w) <= i -> i ∉ lw_recorded w
  | u :: _ => session_next_retire_batch_seq (lw_pub w) ∈ lw_recorded w -> current_batch_seq u = session_next_retire_batch_seq (lw_pub w)
  end.
Proof.
  intros Hi. pose proof (li_unacked _ Hi) as Hu. set (r := session_next_retire_batch_seq (lw_pub w)) in *.
  destruct (unacked_batches (lw_pub w)) as [|u l] eqn:El; cbn in Hu.
  - intros i Hr Hin. pose proof (li_recorded _ Hi i Hin).
    assert (Hf : i ∈ filter (fun i => i ∈ lw_recorded w) (seqZ r (batches - r))) by (apply list_elem_of_filter; split; [done|apply elem_of_seqZ; lia]).
    rewrite <- Hu in Hf. by apply elem_of_nil in Hf.
  - intros Hr. pose proof (li_recorded _ Hi _ Hr). rewrite seqZ_cons, filter_cons_True in Hu by (done || lia). congruence.
Qed.

(** Retiring the record at the cursor. *)
Lemma linv_retire w u l p' :
  linv w -> unacked_batches (lw_pub w) = u :: l -> current_batch_seq u = session_next_retire_batch_seq (lw_pub w) ->
  session_next_retire_batch_seq (lw_pub w) + 1 <= lw_committed w ->
  p' = (lw_pub w) <| session_retire_prefix_hwm := acked_at (session_next_retire_batch_seq (lw_pub w) + 1) |>
         <| session_next_retire_batch_seq ::= fun n => n +u 1 |> <| unacked_bytes ::= fun n => n -u wire_bytes u |>
         <| unacked_batches := l |> ->
  linv (mkLworld p' (lw_recorded w) (lw_committed w)) /\
  session_next_retire_batch_seq p' = session_next_retire_batch_seq (lw_pub w) + 1.
Proof.
  intros [I1 I2 I3 I4 I5 I6 I7 I8 I9 I10 I11] El Eu Hc ->. set (r := session_next_retire_batch_seq (lw_pub w)) in *.
  assert (Hr : u64 (r + 1) = r + 1) by (apply u64_id; word_unfold; lia). rewrite El in I5, I6, I9. cbn in I5.
  rewrite seqZ_cons in I5 by lia. assert (Hin : r ∈ lw_recorded w).
  { destruct (decide (r ∈ lw_recorded w)) as [|Hn]; [done|]. rewrite filter_cons_False in I5 by done.
    assert (current_batch_seq u ∈ filter (fun i => i ∈ lw_recorded w) (seqZ (Z.succ r) (Z.pred (batches - r)))) as [_ Hx%elem_of_seqZ]%list_elem_of_filter
      by (rewrite <- I5; left). lia. }
  rewrite filter_cons_True in I5 by done. injection I5 as _ I5. apply Forall_cons in I6 as [_ I6].
  split; [|cbn; fold r; by rewrite Hr]. constructor; cbn; fold r; rewrite ?Hr; try done; try lia.
  - intros i Hi. destruct (decide (i = r)) as [->|]; [done|]. apply I4. lia.
  - rewrite I5. f_equal. f_equal; lia.
  - intros Ht. specialize (I8 Ht). lia.
  - rewrite I9. cbn. fold (sum_bytes l). unfold u64. rewrite Zminus_mod_idemp_l. f_equal. lia.
Qed.

(** The loop retires the committed run of recorded batches at the cursor. *)
Lemma complete_loop_spec k : forall fuel w p' slots,
  (length (unacked_batches (lw_pub w)) <= fuel)%nat -> linv w -> 0 <= k <= lw_committed w ->
  complete_loop fuel (lw_pub w) (acked_at k) = (p', slots) ->
  linv (mkLworld p' (lw_recorded w) (lw_committed w)) /\
  session_next_retire_batch_seq (lw_pub w) <= session_next_retire_batch_seq p' /\
  (session_next_retire_batch_seq p' ∉ lw_recorded w \/ k <= session_next_retire_batch_seq p').
Proof.
  induction fuel as [|fuel IH]; intros w p' slots Hf Hi Hk; cbn [complete_loop].
  { pose proof (linv_front w Hi) as Hfr. destruct (unacked_batches (lw_pub w)) eqn:El; [|cbn in Hf; lia].
    intros [= <- <-]. destruct w as [p R C]. cbn in *. split; [done|]. split; [lia|]. left. apply Hfr. lia. }
  pose proof (linv_front w Hi) as Hfr. destruct (unacked_batches (lw_pub w)) as [|u l] eqn:El.
  { intros [= <- <-]. destruct w as [p R C]. cbn in *. split; [done|]. split; [lia|]. left. apply Hfr. lia. }
  assert (Hheal : heal_front (lw_pub w) (current_batch_seq u) = (lw_pub w, [])) by (unfold heal_front; case_match; [by apply linv_advance|done]).
  rewrite Hheal, El. unfold SessionPrefixAckEnd. set (r := session_next_retire_batch_seq (lw_pub w)) in *.
  destruct (current_batch_seq u =? r) eqn:Er; cbn [negb]; bool_props.
  2:{ intros [= <- <-]. destruct w as [p R C]. cbn in *. split; [done|]. split; [lia|]. left. intros Hin. by apply Er, Hfr. }
  pose proof Hi as [I1 I2 I3 I4 I5 I6 I7 I8 I9 I10 I11]. rewrite El in I6. apply Forall_cons in I6 as [(_ & Hn & _) _].
  assert (Hrb : r < batches) by (apply lookup_lt_Some in Hn; unfold batches; lia).
  rewrite Er in Hn. assert (HS : session_retire_prefix_hwm (lw_pub w) +u u_num_msg u = acked_at (r + 1)).
  { rewrite I7. fold r. rewrite (acked_at_S r (u_num_msg u)) by (lia || done). apply u64_id. rewrite <- (acked_at_S r) by (lia || done).
    pose proof (acked_at_range (r + 1) ltac:(lia)). word_unfold. lia. }
  rewrite HS. unfold SessionGlobalUnackedRetired. destruct (acked_at (r + 1) <=? acked_at k) eqn:Ek; cbn [negb]; bool_props.
  - assert (Hrk : r + 1 <= k) by (destruct (Z.le_gt_cases (r + 1) k); [done|]; pose proof (acked_at_lt k (r + 1) ltac:(lia) ltac:(lia)); lia).
    set (p1 := (lw_pub w) <| session_retire_prefix_hwm := _ |> <| session_next_retire_batch_seq ::= _ |> <| unacked_bytes ::= _ |> <| unacked_batches := l |>).
    destruct (linv_retire w u l p1 Hi El Er ltac:(lia) eq_refl) as [Hi1 Hr1].
    assert (Hl1 : length (unacked_batches p1) = length l) by done. clearbody p1.
    destruct (complete_loop fuel p1 (acked_at k)) as [p2 more] eqn:E2. intros [= <- <-].
    destruct (IH (mkLworld p1 (lw_recorded w) (lw_committed w)) p2 more) as (H1 & H2 & H3); [cbn in *; lia|done|done|done|].
    cbn in *. split; [done|]. split; [lia|done].
  - intros [= <- <-]. split; [|cbn; split; [lia|right; destruct (Z.le_gt_cases k r); [done|]; pose proof (acked_at_mono (r + 1) k ltac:(lia)); lia]].
    rewrite El in I5, I9. constructor; cbn; try done. destruct Hi as [_ _ _ _ _ J6 _ _ _ _ _]. rewrite El in J6. apply Forall_cons in J6 as [J J6].
    by constructor.
Qed.

(** The fields that the invariant reads. *)
Definition same_session (p p' : Publisher) : Prop :=
  session_next_retire_batch_seq p' = session_next_retire_batch_seq p /\ unacked_batches p' = unacked_batches p /\
  session_epoch p' = session_epoch p /\ session_retire_prefix_hwm p' = session_retire_prefix_hwm p /\
  session_trim_committed_valid p' = session_trim_committed_valid p /\ session_trim_committed_hwm p' = session_trim_committed_hwm p /\
  unacked_bytes p' = unacked_bytes p /\ ack_message_base p' = ack_message_base p.
Lemma linv_same p p' R C : same_session p p' -> linv (mkLworld p R C) -> linv (mkLworld p' R C).
Proof.
  intros (E1 & E2 & E3 & E4 & E5 & E6 & E7 & E8) [I1 I2 I3 I4 I5 I6 I7 I8 I9 I10 I11]. cbn in *.
  constructor; cbn; rewrite ?E1, ?E2, ?E3, ?E4, ?E5, ?E6, ?E7, ?E8; done.
Qed.

(** What the loop leaves alone. *)
Lemma advance_acked p : order5_last_ack_hwm (AdvanceRetireThroughTrimmedHolesLocked p).1 = order5_last_ack_hwm p /\
  ack_received (AdvanceRetireThroughTrimmedHolesLocked p).1 = ack_received p.
Proof. unfold AdvanceRetireThroughTrimmedHolesLocked. case_match; [done|]. destruct (drop_behind _ _ _) as [[l b] sl]. done. Qed.
Lemma complete_loop_acked k : forall fuel p,
  order5_last_ack_hwm (complete_loop fuel p k).1 = order5_last_ack_hwm p /\ ack_received (complete_loop fuel p k).1 = ack_received p.
Proof.
  induction fuel as [|fuel IH]; intros p; [done|]. cbn [complete_loop]. destruct (unacked_batches p) as [|u l]; [done|].
  assert (H : order5_last_ack_hwm (heal_front p (current_batch_seq u)).1 = order5_last_ack_hwm p /\
    ack_received (heal_front p (current_batch_seq u)).1 = ack_received p) by (unfold heal_front; case_match; [apply advance_acked|done]).
  destruct (heal_front p (current_batch_seq u)) as [p1 sl]. cbn in H. destruct H as [<- <-]. destruct (unacked_batches p1) as [|u1 l1]; [done|].
  destruct (SessionPrefixAckEnd _ _ _ _) as [c|]; [|done]. destruct (negb _); [done|].
  match goal with |- context [complete_loop fuel ?q k] => pose proof (IH q) as Hq; destruct (complete_loop fuel q k) end. done.
Qed.

Lemma process_ack_spec w prev k :
  linv w -> lacked w -> 0 <= k <= lw_committed w ->
  let w' := mkLworld (process_ack e (lw_pub w) prev (acked_at k)).2 (lw_recorded w) (lw_committed w) in
  let r' := session_next_retire_batch_seq (lw_pub w') in
  linv w' /\ lacked w' /\ session_next_retire_batch_seq (lw_pub w) <= r' /\
  (prev <= acked_at k -> order5_last_ack_hwm (lw_pub w) < acked_at k -> (r' ∉ lw_recorded w) \/ k <= r').
Proof.
  intros Hi (a & Ha & Hlast & Hrecv) Hk. unfold process_ack, SessionGlobalAckFromWire. rewrite (li_base _ Hi).
  pose proof (li_committed _ Hi) as Hcb. pose proof (acked_at_range k ltac:(lia)) as Hr. pose proof (acked_at_range a ltac:(lia)) as Hra.
  assert (Hm : Z.max base (acked_at k) = acked_at k).
  { pose proof (acked_at_mono 0 k ltac:(lia)). assert (acked_at 0 = base) by (unfold acked_at, total; rewrite take_0; cbn; lia). lia. }
  rewrite Hm, Hlast. assert (Hkeep : linv (mkLworld (lw_pub w) (lw_recorded w) (lw_committed w))) by (by destruct w).
  destruct ((acked_at k >=? prev) || (prev =? U64_MAX)) eqn:Ep; cbn zeta;
    [|cbn; split; [done|]; split; [by exists a|]; split; [lia|]; bool_props; lia].
  destruct (acked_at k >? acked_at a) eqn:Ea; [|cbn; split; [done|]; split; [by exists a|]; split; [lia|]; intros _ Hlt; lia].
  rewrite (u64_id (acked_at k - acked_at a)) by (word_unfold; lia). replace (_ >? 0) with true by lia.
  cbn [snd]. unfold CompleteUnackedThrough. replace (ack_level e <? 1) with false by lia.
  set (p1 := (lw_pub w) <| order5_last_ack_hwm := acked_at k |>).
  assert (Hi1 : linv (mkLworld p1 (lw_recorded w) (lw_committed w))) by (by apply (linv_same (lw_pub w))).
  assert (Hn1 : session_next_retire_batch_seq p1 = session_next_retire_batch_seq (lw_pub w) /\
    order5_last_ack_hwm p1 = acked_at k /\ ack_received p1 = acked_at a) by done. clearbody p1. destruct Hn1 as (Hn1 & Hn2 & Hn3).
  pose proof (complete_loop_acked (acked_at k) (length (unacked_batches p1)) p1) as Hacked.
  destruct (complete_loop _ p1 _) as [p2 slots] eqn:E2. cbn in Hacked. destruct Hacked as [Hk1 Hk2].
  destruct (complete_loop_spec k (length (unacked_batches p1)) (mkLworld p1 (lw_recorded w) (lw_committed w)) p2 slots) as (H1 & H2 & H3); [done..|]. cbn in H1, H2, H3 |- *.
  split; [by apply (linv_same p2)|]. split; [|split; [lia|done]]. exists k. cbn. rewrite Hk1, Hk2, Hn2, Hn3. split_and!; [lia..|done|].
  replace (acked_at a + (acked_at k - acked_at a)) with (acked_at k) by lia. apply u64_id. word_unfold. lia.
Qed.

(** ** Recording a batch *)
Lemma insert_record_perm u l : insert_record u l ≡ₚ u :: l.
Proof. induction l as [|v l IH]; [done|]. cbn. case_match; [done|]. by rewrite IH, Permutation_swap. Qed.
Lemma record_insert_perm u l : record_insert u l ≡ₚ u :: l.
Proof. unfold record_insert. destruct (last l) as [v|] eqn:El; [|by apply last_None in El as ->]. case_match; [by rewrite Permutation_app_comm|apply insert_record_perm]. Qed.

Definition seq_sorted (l : list UnackedBatch) : Prop := StronglySorted Z.lt (current_batch_seq <$> l).
Lemma insert_record_sorted u l :
  seq_sorted l -> current_batch_seq u ∉ current_batch_seq <$> l -> seq_sorted (insert_record u l).
Proof.
  unfold seq_sorted. induction l as [|v l IH]; intros Hs Hn; cbn; [repeat constructor|]. cbn in Hs, Hn.
  apply StronglySorted_inv in Hs as [Hs Hv]. apply not_elem_of_cons in Hn as [Hne Hn]. case_match; bool_props.
  - cbn. constructor; [by constructor|]. constructor; [done|]. eapply Forall_impl; [exact Hv|]. cbn. lia.
  - cbn. constructor; [by apply IH|]. rewrite insert_record_perm. cbn. constructor; [lia|done].
Qed.
Lemma record_insert_sorted u l :
  seq_sorted l -> current_batch_seq u ∉ current_batch_seq <$> l -> seq_sorted (record_insert u l).
Proof.
  intros Hs Hn. unfold record_insert. destruct (last l) as [v|] eqn:El; [|repeat constructor].
  destruct (current_batch_seq u >=? current_batch_seq v) eqn:Ec; [|by apply insert_record_sorted]. bool_props.
  apply last_Some in El as (l' & ->). unfold seq_sorted in *. rewrite fmap_app. apply StronglySorted_app_2; [|done|repeat constructor].
  intros x y Hx Hy. cbn in Hy. apply list_elem_of_singleton in Hy as ->. assert (Hne : x <> current_batch_seq u) by (intros ->; done).
  assert (Hxv : x <= current_batch_seq v); [|].
  { rewrite fmap_app in Hx, Hs. cbn in Hx, Hs. apply elem_of_app in Hx as [Hx|Hx%list_elem_of_singleton]; [|subst; lia].
    pose proof (StronglySorted_app_1_elem_of Z.lt _ _ x (current_batch_seq v) Hs Hx ltac:(by left)). lia. }
  lia.
Qed.

Lemma filter_seq_sorted (R : gset Z) m n : StronglySorted Z.lt (filter (fun i => i ∈ R) (seqZ m n)).
Proof.
  apply StronglySorted_filter. destruct (Z.le_gt_cases n 0); [rewrite seqZ_nil by lia; constructor|].
  replace n with (Z.of_nat (Z.to_nat n)) by lia. generalize (Z.to_nat n). intros k. revert m. induction k as [|k IH]; intros m; [constructor|].
  rewrite seqZ_cons by lia. replace (Z.pred (Z.of_nat (S k))) with (Z.of_nat k) by lia. constructor; [apply IH|].
  apply Forall_forall. intros x Hx%elem_of_seqZ. lia.
Qed.

Lemma filter_seq_add (R : gset Z) m n i :
  i ∉ R -> m <= i < m + n -> filter (fun j => j ∈ {[i]} ∪ R) (seqZ m n) ≡ₚ i :: filter (fun j => j ∈ R) (seqZ m n).
Proof.
  intros Hn Hi. apply NoDup_Permutation; [apply NoDup_filter, NoDup_seqZ|constructor; [|apply NoDup_filter, NoDup_seqZ]|].
  - intros [? _]%list_elem_of_filter. done.
  - intros j. rewrite elem_of_cons, !list_elem_of_filter, elem_of_seqZ. set_solver by lia.
Qed.

Lemma linv_sorted w : linv w -> seq_sorted (unacked_batches (lw_pub w)).
Proof. intros Hi. unfold seq_sorted. rewrite (li_unacked _ Hi). apply filter_seq_sorted. Qed.

Lemma sum_bytes_perm l l' : l ≡ₚ l' -> sum_bytes l = sum_bytes l'.
Proof. unfold sum_bytes. induction 1; cbn in *; lia. Qed.

Lemma record_spec w header slot bytes broker now :
  linv w -> lop_ok w (LSent header slot bytes broker now) -> linv (do_lop w (LSent header slot bytes broker now)).
Proof.
  intros Hi (Hs & Hn & Hsz & Hep & Hb). cbn [do_lop]. unfold sent_batch, RecordUnackedBatch.
  assert (Hrec : records_batch e header bytes = true).
  { unfold records_batch. pose proof (li_epoch _ Hi). rewrite Hep. replace (ack_level e <? 1) with false by lia.
    replace (_ =? 0) with false by lia. cbn. by replace (bytes <? _) with false by lia. }
  rewrite Hrec. cbn [negb]. assert (Hbt : behind_trim (lw_pub w) (h_batch_seq header) = false).
  { unfold behind_trim. destruct (session_trim_committed_valid (lw_pub w)) eqn:Ev; [|done]. cbn. apply Z.leb_gt.
    destruct (Z.lt_ge_cases (session_trim_committed_hwm (lw_pub w)) (h_batch_seq header)); [done|]. exfalso. apply Hn, (li_before _ Hi).
    pose proof (li_trim _ Hi Ev). lia. }
  unfold record_check, record_commit. rewrite Hbt. cbv beta iota zeta. rewrite Hbt. set (u := unacked_record e header slot bytes broker now).
  set (p1 := (lw_pub w) <| session_sent_hwm ::= _ |> <| unacked_bytes ::= _ |> <| unacked_batches ::= _ |>).
  assert (Hp1 : linv (mkLworld p1 ({[h_batch_seq header]} ∪ lw_recorded w) (lw_committed w)));
    [|destruct (negb (owned_rto_copy e)); [exact Hp1|by apply (linv_same p1)]].
  pose proof (linv_sorted w Hi) as Hso. destruct Hi as [I1 I2 I3 I4 I5 I6 I7 I8 I9 I10 I11].
  set (r := session_next_retire_batch_seq (lw_pub w)) in *.
  assert (Hge : r <= h_batch_seq header) by (destruct (Z.le_gt_cases r (h_batch_seq header)); [done|]; exfalso; apply Hn, I4; lia).
  assert (Hnu : current_batch_seq u ∉ current_batch_seq <$> unacked_batches (lw_pub w)).
  { rewrite I5. intros [? _]%list_elem_of_filter. done. }
  constructor; cbn; fold r; try done.
  - intros i. rewrite elem_of_union, elem_of_singleton. intros [->|?]; [done|by apply I3].
  - intros i Hi. apply elem_of_union_r, I4, Hi.
  - apply (StronglySorted_unique_strong Z.lt); [lia|by apply record_insert_sorted|apply filter_seq_sorted|].
    rewrite record_insert_perm. cbn. rewrite I5. symmetry. apply filter_seq_add; [done|lia].
  - rewrite record_insert_perm. constructor; [done|done].
  - rewrite I9, (sum_bytes_perm _ _ (record_insert_perm u _)). cbn. fold (sum_bytes (unacked_batches (lw_pub w))). unfold u64.
    rewrite Zplus_mod_idemp_l. f_equal. lia.
Qed.

(** ** Trimming *)
Definition sum_nums (l : list UnackedBatch) : Z := foldr (fun u n => u_num_msg u + n) 0 l.
Lemma trim_pass_spec hwm next l : forall bytes credited,
  bytes = u64 bytes -> credited = u64 credited -> Forall (fun u => next <= current_batch_seq u) l ->
  exists slots,
    trim_pass hwm next bytes credited l =
      (filter (fun u => hwm < original_batch_seq u) l,
       u64 (bytes - sum_bytes (filter (fun u => original_batch_seq u <= hwm) l)),
       u64 (credited + sum_nums (filter (fun u => original_batch_seq u <= hwm) l)), slots).
Proof.
  unfold sum_bytes, sum_nums. induction l as [|u l IH]; intros bytes credited Hb Hc Hn.
  { exists []. cbn. by rewrite Z.sub_0_r, Z.add_0_r, <- Hb, <- Hc. }
  apply Forall_cons in Hn as [Hu Hn]. cbn [trim_pass]. destruct (original_batch_seq u <=? hwm) eqn:Eo; bool_props.
  - replace (_ >=? next) with true by lia.
    destruct (IH (bytes -u wire_bytes u) (credited +u u_num_msg u)) as [slots ->]; [by rewrite u64_idemp..|done|].
    exists (slot_list u ++ slots). rewrite filter_cons_False, !filter_cons_True by lia. cbn [foldr].
    assert (E1 : forall x y, u64 (bytes -u x - y) = u64 (bytes - (x + y))) by (intros x y; unfold u64; rewrite Zminus_mod_idemp_l; f_equal; lia).
    assert (E2 : forall x y, u64 (credited +u x + y) = u64 (credited + (x + y))) by (intros x y; unfold u64; rewrite Zplus_mod_idemp_l; f_equal; lia).
    by rewrite E1, E2.
  - destruct (IH bytes credited Hb Hc Hn) as [slots ->]. exists slots. by rewrite filter_cons_True, !filter_cons_False by lia.
Qed.

Lemma sum_nums_run epoch l : forall r n,
  0 <= r -> current_batch_seq <$> l = seqZ r (Z.of_nat n) -> Forall (rec_ok epoch) l ->
  sum_nums l = acked_at (r + Z.of_nat n) - acked_at r.
Proof.
  unfold sum_nums. induction l as [|u l IH]; intros r n Hr Hl Hok; cbn in Hl.
  { destruct n; [cbn; rewrite Z.add_0_r; lia|]. by rewrite seqZ_cons in Hl by lia. }
  destruct n as [|n]; [done|]. rewrite seqZ_cons in Hl by lia. injection Hl as Hu Hl. apply Forall_cons in Hok as [(_ & Hn & _) Hok].
  cbn [foldr]. replace (Z.pred (Z.of_nat (S n))) with (Z.of_nat n) in Hl by lia. rewrite (IH (Z.succ r) n) by (done || lia).
  rewrite Hu in Hn. pose proof (acked_at_S r _ Hr Hn). replace (r + Z.of_nat (S n)) with (Z.succ r + Z.of_nat n) by lia.
  replace (Z.succ r) with (r + 1) by lia. lia.
Qed.

Lemma skip_holes_spec hwm front : forall fuel next,
  0 <= next -> hwm < U64_MAX -> (forall f, front = Some f -> hwm < f) -> fuel = Z.to_nat (hwm + 1 - next) ->
  skip_holes fuel front next hwm = Z.max next (hwm + 1).
Proof.
  induction fuel as [|fuel IH]; intros next Hn Hh Hf Hfu; cbn [skip_holes]; [lia|].
  replace (next <=? hwm) with true by lia. rewrite bool_decide_false by (intros Hx; specialize (Hf _ Hx); lia).
  rewrite (u64_id (next + 1)) by (word_unfold; lia). rewrite IH by (done || lia). lia.
Qed.

(** The records up to [h], when all of them are recorded. *)
Lemma trimmed_run w h :
  linv w -> 0 <= h < lw_committed w -> (forall i, 0 <= i <= h -> i ∈ lw_recorded w) ->
  let r := session_next_retire_batch_seq (lw_pub w) in
  current_batch_seq <$> filter (fun u => original_batch_seq u <= h) (unacked_batches (lw_pub w)) = seqZ r (h + 1 - r) /\
  current_batch_seq <$> filter (fun u => h < original_batch_seq u) (unacked_batches (lw_pub w)) =
    filter (fun i => i ∈ lw_recorded w) (seqZ (Z.max r (h + 1)) (batches - Z.max r (h + 1))).
Proof.
  intros [I1 I2 I3 I4 I5 I6 I7 I8 I9 I10 I11] Hh Hall r. fold r in I1, I4, I5.
  assert (Hsplit : seqZ r (batches - r) = seqZ r (h + 1 - r) ++ seqZ (Z.max r (h + 1)) (batches - Z.max r (h + 1))).
  { destruct (Z.le_gt_cases (h + 1) r).
    - rewrite (seqZ_nil r (h + 1 - r)) by lia. by rewrite Z.max_l by lia.
    - rewrite Z.max_r by lia. replace (batches - r) with ((h + 1 - r) + (batches - (h + 1))) by lia.
      rewrite seqZ_app by lia. f_equal. f_equal; lia. }
  assert (Hmap : forall P : Z -> Prop, forall (dP : forall i, Decision (P i)),
    current_batch_seq <$> filter (fun u => P (original_batch_seq u)) (unacked_batches (lw_pub w)) =
    filter P (current_batch_seq <$> unacked_batches (lw_pub w))).
  { intros P dP. clear -I6. induction I6 as [|u l (Hu & _) _ IH]; [done|]. rewrite fmap_cons, !filter_cons, <- Hu.
    destruct (decide (P _)); [|done]. by rewrite fmap_cons, IH, Hu. }
  rewrite (Hmap (fun i => i <= h) (fun i => decide_rel Z.le i h)), (Hmap (fun i => h < i) (fun i => decide_rel Z.lt h i)), I5, Hsplit, !filter_app.
  assert (Hlow : filter (fun i => i ∈ lw_recorded w) (seqZ r (h + 1 - r)) = seqZ r (h + 1 - r)).
  { apply filter_all. intros i Hx%elem_of_seqZ. apply Hall. lia. }
  rewrite Hlow. assert (H1 : filter (fun i => i <= h) (seqZ r (h + 1 - r)) = seqZ r (h + 1 - r)) by (apply filter_all; intros i Hx%elem_of_seqZ; lia).
  set (tail := filter (fun i => i ∈ lw_recorded w) (seqZ (Z.max r (h + 1)) _)).
  assert (Ht : forall i, i ∈ tail -> h < i) by (intros i [_ Hx%elem_of_seqZ]%list_elem_of_filter; lia).
  assert (H3 : filter (fun i => i <= h) tail = []) by (apply filter_none; intros i Hx%Ht; lia).
  rewrite H1, H3, app_nil_r. split; [done|]. rewrite filter_none; [|intros i Hx%elem_of_seqZ; lia]. apply filter_all. exact Ht.
Qed.

Lemma trim_spec w h n p' slots :
  linv w -> 0 <= h < lw_committed w -> (forall i, 0 <= i <= h -> i ∈ lw_recorded w) ->
  TrimUnackedThroughBatchSeqLocked (lw_pub w) h = (n, p', slots) ->
  linv (mkLworld p' (lw_recorded w) (lw_committed w)) /\
  order5_last_ack_hwm p' = order5_last_ack_hwm (lw_pub w) /\ ack_received p' = ack_received (lw_pub w) /\
  session_next_retire_batch_seq p' = Z.max (session_next_retire_batch_seq (lw_pub w)) (h + 1).
Proof.
  intros Hi Hh Hall. destruct (trimmed_run w h Hi Hh Hall) as [Hlow Hhigh]. pose proof (linv_behind w Hi) as Hbe.
  destruct Hi as [I1 I2 I3 I4 I5 I6 I7 I8 I9 I10 I11]. set (r := session_next_retire_batch_seq (lw_pub w)) in *.
  unfold TrimUnackedThroughBatchSeqLocked. fold r.
  destruct (trim_pass_spec h r (unacked_batches (lw_pub w)) (unacked_bytes (lw_pub w)) 0) as [sl Htp];
    [by rewrite I9, u64_idemp|done|done|]. rewrite Htp. set (low := filter (fun u => original_batch_seq u <= h) _) in *.
  set (high := filter (fun u => h < original_batch_seq u) _) in *.
  assert (Hokl : Forall (rec_ok (session_epoch (lw_pub w))) low /\ Forall (rec_ok (session_epoch (lw_pub w))) high) by (split; apply Forall_forall; intros u [_ Hu]%list_elem_of_filter; rewrite Forall_forall in I6; auto).
  assert (Hbytes : sum_bytes (unacked_batches (lw_pub w)) = sum_bytes low + sum_bytes high).
  { unfold low, high, sum_bytes. clear. induction (unacked_batches (lw_pub w)) as [|u l IH]; [done|]. rewrite !filter_cons. cbn [foldr].
    repeat case_decide; try lia; cbn [foldr]; lia. }
  assert (Hnums : sum_nums low = acked_at (Z.max r (h + 1)) - acked_at r).
  { destruct (Z.le_gt_cases (h + 1) r).
    - rewrite seqZ_nil in Hlow by lia. destruct low; [|done]. rewrite Z.max_l by lia. cbn. lia.
    - rewrite Z.max_r by lia. replace (h + 1 - r) with (Z.of_nat (Z.to_nat (h + 1 - r))) in Hlow by lia.
      rewrite (sum_nums_run _ _ r _ ltac:(lia) Hlow (proj1 Hokl)). do 2 f_equal. lia. }
  assert (Hhb : Forall (fun u => Z.max r (h + 1) <= current_batch_seq u) high).
  { apply Forall_fmap with (P := fun i => Z.max r (h + 1) <= i). rewrite Hhigh. apply Forall_forall.
    intros i [_ Hx%elem_of_seqZ]%list_elem_of_filter. lia. }
  clearbody low high. rewrite Z.add_0_l. cbv beta iota zeta.
  set (p1 := (lw_pub w) <| unacked_batches := high |> <| unacked_bytes := _ |>).
  set (p2 := if _ || _ then p1 <| session_trim_committed_hwm := h |> <| session_trim_committed_valid := true |> else p1).
  assert (Hp2 : session_trim_committed_valid p2 = true /\ Z.max r (session_trim_committed_hwm p2 + 1) = Z.max r (h + 1) /\
    unacked_batches p2 = high /\ session_next_retire_batch_seq p2 = r /\ session_retire_prefix_hwm p2 = acked_at r /\
    unacked_bytes p2 = u64 (sum_bytes high) /\ session_epoch p2 = session_epoch (lw_pub w) /\ ack_message_base p2 = base /\
    order5_last_ack_hwm p2 = order5_last_ack_hwm (lw_pub w) /\ ack_received p2 = ack_received (lw_pub w)).
  { assert (Hb : u64 (unacked_bytes (lw_pub w) - sum_bytes low) = u64 (sum_bytes high))
      by (rewrite I9, Hbytes; unfold u64; rewrite Zminus_mod_idemp_l; f_equal; lia).
    unfold p2. destruct (negb (session_trim_committed_valid p1) || (h >? session_trim_committed_hwm p1)) eqn:Et; cbn; [split_and!; done|].
    cbn in Et. bool_props. split_and!; try done. specialize (I8 ltac:(by destruct (session_trim_committed_valid (lw_pub w)))). fold r in I8. lia. }
  clearbody p2. clear p1. destruct Hp2 as (P1 & P2 & P3 & P4 & P5 & P6 & P7 & P8 & P9 & P10).
  unfold AdvanceRetireThroughTrimmedHolesLocked. set (p3 := p2 <| session_retire_prefix_hwm ::= _ |>).
  assert (Hp3 : session_retire_prefix_hwm p3 = acked_at (Z.max r (h + 1))).
  { cbn. rewrite P5, Hnums. pose proof (acked_at_range r ltac:(lia)). pose proof (acked_at_range (Z.max r (h + 1)) ltac:(lia)).
    pose proof (acked_at_mono r (Z.max r (h + 1)) ltac:(lia)). rewrite (u64_id (_ - _)) by (word_unfold; lia). rewrite u64_id by (word_unfold; lia). lia. }
  change (session_trim_committed_valid p3) with (session_trim_committed_valid p2). rewrite P1. cbn [negb].
  change (session_next_retire_batch_seq p3) with (session_next_retire_batch_seq p2). change (unacked_batches p3) with (unacked_batches p2).
  change (unacked_bytes p3) with (unacked_bytes p2). change (session_trim_committed_hwm p3) with (session_trim_committed_hwm p2).
  rewrite P3, P4, P6. assert (Hd : drop_behind r (u64 (sum_bytes high)) high = (high, u64 (sum_bytes high), [])).
  { destruct Hhb as [|u l Hu _]; [done|]. cbn. by replace (_ <? _) with false by lia. }
  rewrite Hd, skip_holes_spec; [|lia| | |done].
  2:{ destruct fits. lia. }
  2:{ intros f Hf. destruct Hhb as [|u l Hu _]; [done|]. cbn in Hf. injection Hf as <-. lia. }
  rewrite P2. intros [= <- <- <-]. destruct Hokl as [_ Hokh]. split; [|by cbn].
  constructor; cbn; try done; try lia; rewrite ?P7, ?P8; try done.
  intros i Hx. destruct (decide (i < r)); [apply I4; lia|apply Hall; lia].
Qed.

Lemma do_lop_inv w o : linv w -> lacked w -> lop_ok w o -> linv (do_lop w o) /\ lacked (do_lop w o).
Proof.
  intros Hi Ha Ho. destruct o as [k|header slot bytes broker now|prev k|ack].
  - destruct Ho. split; [|destruct Ha as (a & ? & ?); exists a; cbn; split; [lia|done]].
    destruct Hi as [I1 I2 I3 I4 I5 I6 I7 I8 I9 I10 I11]. constructor; cbn; try done; lia.
  - split; [by apply record_spec|]. destruct Ha as (a & Ha). exists a. cbn [do_lop lw_pub lw_committed].
    assert (H : order5_last_ack_hwm (sent_batch e (lw_pub w) header slot bytes broker now) = order5_last_ack_hwm (lw_pub w) /\
      ack_received (sent_batch e (lw_pub w) header slot bytes broker now) = ack_received (lw_pub w)); [|by destruct H as [-> ->]].
    unfold sent_batch, RecordUnackedBatch, record_check, record_commit. destruct (negb (records_batch _ _ _)); [done|].
    destruct (advance_acked (lw_pub w)) as [A1 A2]. destruct (behind_trim _ _) eqn:Eb; [done|]. rewrite Eb. by destruct (negb (owned_rto_copy e)).
  - cbn in Ho. destruct (process_ack_spec w prev k Hi Ha Ho) as (H1 & H2 & _). done.
  - destruct Ho as (_ & Hep & Ht). cbn [do_lop]. unfold session_opened.
    set (p1 := (lw_pub w) <| session_epoch := _ |> <| requested_session_epoch := _ |>).
    assert (Hi1 : linv (mkLworld p1 (lw_recorded w) (lw_committed w))) by (destruct w; by apply (linv_same lw_pub0)).
    assert (Ha1 : lacked (mkLworld p1 (lw_recorded w) (lw_committed w))) by (by destruct Ha as (a & Ha); exists a). clearbody p1.
    destruct (committed_hwm ack) as [h|]; [|done]. destruct (Ht h eq_refl) as [Hh Hall]. replace (_ >=? 1) with true by lia.
    destruct (TrimUnackedThroughBatchSeqLocked p1 h) as [[n p2] slots] eqn:E.
    destruct (trim_spec (mkLworld p1 (lw_recorded w) (lw_committed w)) h n p2 slots Hi1 Hh Hall E) as (H1 & H2 & H3 & _).
    split; [by apply (linv_same p2)|]. destruct Ha1 as (a & Ha1 & Ha2 & Ha3). exists a. cbn in *. by rewrite H2, H3.
Qed.

Lemma lrun_inv w ops w' : lrun w ops w' -> linv w -> lacked w -> linv w' /\ lacked w'.
Proof. induction 1 as [w|w ops w' o _ IH Ho]; intros Hi Ha; [done|]. destruct (IH Hi Ha). by apply do_lop_inv. Qed.

(** A session begins with nothing retained. *)
Definition session_start (p : Publisher) : Prop :=
  session_next_retire_batch_seq p = 0 /\ unacked_batches p = [] /\ session_retire_prefix_hwm p = base /\
  session_trim_committed_valid p = false /\ unacked_bytes p = 0 /\ ack_message_base p = base /\ session_epoch p <> 0 /\
  order5_last_ack_hwm p = base /\ ack_received p = base.
Lemma session_start_inv p : session_start p -> linv (mkLworld p ∅ 0) /\ lacked (mkLworld p ∅ 0).
Proof.
  intros (E1 & E2 & E3 & E4 & E5 & E6 & E7 & E8 & E9).
  assert (H0 : acked_at 0 = base) by (unfold acked_at, total; rewrite take_0; cbn; lia).
  split; [|exists 0; cbn; split_and!; [lia|lia|congruence..]].
  constructor; cbn; rewrite ?E1, ?E2, ?E3, ?E4, ?E5, ?H0; try done; try lia; [unfold batches; lia|].
  rewrite filter_none; [done|]. intros x _. set_solver.
Qed.

Lemma linv_retains w i :
  linv w -> i ∈ lw_recorded w -> i < lw_committed w \/ exists u, u ∈ unacked_batches (lw_pub w) /\ current_batch_seq u = i.
Proof.
  intros Hi Hr. destruct (Z.lt_ge_cases i (session_next_retire_batch_seq (lw_pub w))) as [Hlt|Hge].
  - left. pose proof (li_cursor _ Hi). lia.
  - right. pose proof (li_recorded _ Hi i Hr). assert (Hin : i ∈ current_batch_seq <$> unacked_batches (lw_pub w)).
    { rewrite (li_unacked _ Hi). apply list_elem_of_filter. split; [done|]. apply elem_of_seqZ. lia. }
    apply list_elem_of_fmap in Hin as (u & -> & Hu). by exists u.
Qed.

(** C11. A batch that was sent stays retained until the broker has committed it, and
    the number of messages that the publisher takes for acknowledged is that of
    a committed prefix of the session. *)
Theorem retained_until_committed p ops w :
  session_start p -> lrun (mkLworld p ∅ 0) ops w ->
  (forall i, i ∈ lw_recorded w -> i < lw_committed w \/ exists u, u ∈ unacked_batches (lw_pub w) /\ current_batch_seq u = i) /\
  exists a, 0 <= a <= lw_committed w /\ ack_received (lw_pub w) = acked_at a.
Proof.
  intros Hs Hr. destruct (session_start_inv p Hs) as [Hi Ha]. destruct (lrun_inv _ _ _ Hr Hi Ha) as [Hi' (a & Ha1 & _ & Ha2)].
  split; [intros i; by apply linv_retains|by exists a].
Qed.

(** C12. An acknowledgement that is news retires all the batches it covers, once they
    are recorded. *)
Theorem ack_retires_recorded_prefix p ops w prev k :
  session_start p -> lrun (mkLworld p ∅ 0) ops w -> 0 <= k <= lw_committed w -> prev <= acked_at k ->
  (forall i, 0 <= i < k -> i ∈ lw_recorded w) -> order5_last_ack_hwm (lw_pub w) < acked_at k ->
  Forall (fun u => k <= current_batch_seq u) (unacked_batches (process_ack e (lw_pub w) prev (acked_at k)).2).
Proof.
  intros Hs Hr Hk Hp Hall Hnew. destruct (session_start_inv p Hs) as [Hi Ha]. destruct (lrun_inv _ _ _ Hr Hi Ha) as [Hi' Ha'].
  destruct (process_ack_spec w prev k Hi' Ha' Hk) as (Hi2 & _ & _ & Hst). specialize (Hst Hp Hnew).
  pose proof (linv_behind _ Hi2) as Hb. pose proof (li_cursor _ Hi2) as Hc. cbn [lw_pub lw_recorded lw_committed] in Hst, Hb, Hc.
  set (r := session_next_retire_batch_seq (process_ack e (lw_pub w) prev (acked_at k)).2) in *.
  assert (Hkr : k <= r). { destruct Hst as [Hn|?]; [|done]. destruct (Z.le_gt_cases k r); [done|]. exfalso. apply Hn, Hall. lia. }
  eapply Forall_impl; [exact Hb|]. cbn. lia.
Qed.
End session.

(** ** Examples *)
Definition demo_pub (epoch base : Z) : Publisher :=
  mkPublisher epoch epoch base base base false false false 0 false false [] 0 0 base 0 0 false ∅ [] [] [] 0.
Definition demo_penv : PubEnv := mkPubEnv 7 1 (2 ^ 20) false.
Definition demo_sizes : list Z := [2; 3; 1].
Definition demo_header (seq n : Z) : Batch := mkBatch seq 1 1 7 0 n [seq].
Definition demo_lops : list lop :=
  [LSent (demo_header 0 2) 100 256 0 1; LSent (demo_header 2 1) 102 192 1 2; LCommit 1; LAck 5 1; LSent (demo_header 1 3) 101 320 1 3].
Definition lrun_do (e : PubEnv) (base : Z) (sizes : list Z) (p : Publisher) (ops : list lop) : lworld :=
  foldl (do_lop e base sizes) (mkLworld p ∅ 0) ops.
Definition demo_world : lworld := lrun_do demo_penv 5 demo_sizes (demo_pub 1 5) demo_lops.

Lemma demo_start : session_start 5 (demo_pub 1 5).
Proof. by split_and!. Qed.
Lemma demo_fits : acked_at 5 demo_sizes (batches demo_sizes) < 2 ^ 64 /\ batches demo_sizes < U64_MAX.
Proof. split; reflexivity. Qed.
Lemma demo_sizes_ok : Forall (fun n => 0 < n) demo_sizes.
Proof. unfold demo_sizes. forall_list; lia. Qed.

Lemma lrun_do_snoc e base sizes p ops o :
  lrun e base sizes (mkLworld p ∅ 0) ops (lrun_do e base sizes p ops) -> lop_ok sizes (lrun_do e base sizes p ops) o ->
  lrun e base sizes (mkLworld p ∅ 0) (ops ++ [o]) (lrun_do e base sizes p (ops ++ [o])).
Proof. intros H1 H2. unfold lrun_do at 1. rewrite foldl_app. by apply lrun_snoc. Qed.
Ltac lop_ok_solve := cbn [lop_ok]; split_and!; solve [reflexivity|vm_compute; congruence|apply (bool_decide_unpack _); vm_compute; exact I].
Lemma demo_run : lrun demo_penv 5 demo_sizes (mkLworld (demo_pub 1 5) ∅ 0) demo_lops demo_world.
Proof.
  unfold demo_world, demo_lops.
  refine (lrun_do_snoc _ _ _ _ [_; _; _; _] _ _ _); [|lop_ok_solve]. refine (lrun_do_snoc _ _ _ _ [_; _; _] _ _ _); [|lop_ok_solve].
  refine (lrun_do_snoc _ _ _ _ [_; _] _ _ _); [|lop_ok_solve]. refine (lrun_do_snoc _ _ _ _ [_] _ _ _); [|lop_ok_solve].
  refine (lrun_do_snoc _ _ _ _ [] _ _ _); [apply lrun_nil|lop_ok_solve].
Qed.

Lemma retained_until_committed_witness :
  lw_committed demo_world = 1 /\ exists u, u ∈ unacked_batches (lw_pub demo_world) /\ current_batch_seq u = 2.
Proof.
  split; [reflexivity|].
  destruct (retained_until_committed demo_penv 5 demo_sizes ltac:(cbn; lia) ltac:(lia) demo_sizes_ok demo_fits (demo_pub 1 5) demo_lops demo_world
    demo_start demo_run) as [H _].
  destruct (H 2) as [Hc|?]; [apply (bool_decide_unpack _); vm_compute; exact I|by vm_compute in Hc|done].
Defined.

Definition demo_committed : lworld := do_lop demo_penv 5 demo_sizes demo_world (LCommit 3).
Lemma demo_committed_run : lrun demo_penv 5 demo_sizes (mkLworld (demo_pub 1 5) ∅ 0) (demo_lops ++ [LCommit 3]) demo_committed.
Proof. apply lrun_snoc; [exact demo_run|lop_ok_solve]. Qed.
Lemma ack_retires_recorded_prefix_witness :
  Forall (fun u => 2 <= current_batch_seq u) (unacked_batches (process_ack demo_penv (lw_pub demo_committed) 7 10).2).
Proof.
  apply (ack_retires_recorded_prefix demo_penv 5 demo_sizes ltac:(cbn; lia) ltac:(lia) demo_sizes_ok demo_fits (demo_pub 1 5) (demo_lops ++ [LCommit 3])
    demo_committed 7 2 demo_start demo_committed_run); [vm_compute; split; congruence|vm_compute; congruence| |reflexivity].
  intros i Hi. assert (i = 0 \/ i = 1) as [-> | ->] by lia; apply (bool_decide_unpack _); vm_compute; exact I.
Defined.

(** A reconnect whose reported prefix covers a batch that was sent and not yet
    recorded: the cursor passes the batch without its messages, so the next
    acknowledgement retires a batch that the broker has not committed.  Here the
    broker committed batch 0 of 10 messages; batch 1 is released. *)
Example trim_race_retires_uncommitted :
  let p := sent_batch demo_penv (demo_pub 1 0) (demo_header 1 10) 101 320 0 1 in
  let p := session_opened demo_penv p (mkSessionOpenAck 1 (Some 0) OPEN_OK) in
  let p := sent_batch demo_penv p (demo_header 0 10) 100 320 0 1 in
  let p := (process_ack demo_penv p 0 10).2 in
  unacked_batches p = [] /\ released p = [100; 101] /\ ack_received p = 10.
Proof. by vm_compute. Qed.

(** A fence that finds a batch acknowledged before it was recorded counts its
    messages again. *)
Example fence_counts_acknowledged_batch_again :
  let p := (process_ack demo_penv (demo_pub 1 0) 0 10).2 in
  let p := sent_batch demo_penv p (demo_header 0 10) 100 320 0 1 in
  let p := HandleSessionFenced demo_penv p (mkSessionFenced 0 true) id true (Some 0) 2 [] in
  order5_last_ack_hwm p = 20 /\ unacked_batches p = [].
Proof. by vm_compute. Qed.

(** The credit of a fence during the drain of the durable acknowledgements does
    not move the mark that the next acknowledgement is compared with. *)
Example drain_credit_counted_twice :
  let e := mkPubEnv 7 2 (2 ^ 20) true in
  let p := sent_batch e (demo_pub 1 0) (demo_header 0 10) 100 320 0 1 in
  let p := p <| publish_finished := true |> <| ack_drain_active := true |> in
  let p := HandleSessionFenced e p (mkSessionFenced 0 true) id true (Some 0) 2 [] in
  ack_received (process_ack e p 0 10).2 = 20.
Proof. by vm_compute. Qed.

(** A batch that a rollover sends from its owned copy keeps the number it had in
    the old session.  When the next session is fenced after it committed the
    batch, its new number is not looked at and the batch is sent once more. *)
Example owned_copy_sent_again :
  let e := mkPubEnv 7 2 (2 ^ 20) true in
  let p := sent_batch e (demo_pub 1 0) (demo_header 0 10) 100 320 0 1 in
  let p := sent_batch e p (demo_header 1 10) 101 320 0 1 in
  let p := HandleSessionFenced e p (mkSessionFenced 0 true) id true (Some 0) 2 [] in
  let q := HandleSessionFenced e p (mkSessionFenced 0 true) id true (Some 0) 3 [] in
  ((fun u => (original_batch_seq u, current_batch_seq u, u_session_epoch u)) <$> unacked_batches p) = [(1, 0, 2)] /\
  ((fun b => (h_batch_seq b, h_session_epoch32 b, h_body b)) <$> resent q) = [(0, 2, [1]); (0, 3, [1])].
Proof. by vm_compute. Qed.
