(* ===== verification/PublisherRollover.v ===== *)
(** The rollover of a publisher to a new session (src/client/publisher_session.cc):
    what a fence leaves of the retained batches and how they are sent again. *)

From S2P Require Import Prelude Sorting PublisherLedger.

(** * The rollover *)
Section resubmit.
  Context (e : PubEnv).

(** Every retained batch is in a slot of its own. *)
Definition pinned (p : Publisher) : Prop :=
  Forall (fun u => wire u = None /\ exists slot b, pool_batch u = Some slot /\ pool p !! slot = Some b) (unacked_batches p) /\
  NoDup (concat (slot_list <$> unacked_batches p)).

(** What a pass over [suffix] leaves: the first [k] batches are on the recovery
    queue, restamped; it stops before the end only where the publisher is shut
    down, which a failed enqueue does. *)
Record resubmitted (new_epoch recovery new_seq : Z) (ok : list bool) (suffix : list UnackedBatch) (p : Publisher)
    (n : Z) (q : Publisher) (k : nat) : Prop := {
  rs_count : (k <= length suffix)%nat;
  rs_queue : requeued q = requeued p ++ concat (slot_list <$> take k suffix);
  rs_keep slot : slot ∉ concat (slot_list <$> suffix) -> pool q !! slot = pool p !! slot;
  rs_stamp j u slot b : (j < k)%nat -> suffix !! j = Some u -> pool_batch u = Some slot -> pool p !! slot = Some b ->
    pool q !! slot = Some (restamp e b (new_seq + Z.of_nat j) new_epoch recovery);
  rs_stop : (k < length suffix)%nat -> shutdown q = true;
  rs_all : k = length suffix -> n = new_seq + Z.of_nat (length suffix) /\ shutdown q = shutdown p;
  rs_ok : shutdown p = false -> Forall (fun o => o = true) ok -> k = length suffix;
  rs_rest : q <| pool := pool p |> <| requeued := requeued p |> <| shutdown := shutdown p |> = p;
}.

Lemma slot_of_suffix v slot suffix : v ∈ suffix -> pool_batch v = Some slot -> slot ∈ concat (slot_list <$> suffix).
Proof.
  intros Hv Hs. apply list_elem_of_In, in_concat. exists (slot_list v).
  split; [by apply list_elem_of_In, list_elem_of_fmap_2|]. unfold slot_list. rewrite Hs. by left.
Qed.

Lemma resubmitted_cons new_epoch recovery new_seq ok u suffix p slot b n q k :
  pool_batch u = Some slot -> pool p !! slot = Some b -> slot ∉ concat (slot_list <$> suffix) ->
  resubmitted new_epoch recovery (new_seq + 1) (tail ok) suffix
    (p <| pool ::= <[slot := restamp e b new_seq new_epoch recovery]> |> <| requeued ::= fun q => q ++ [slot] |>) n q k ->
  resubmitted new_epoch recovery new_seq ok (u :: suffix) p n q (S k).
Proof.
  intros Hs Hb Hns [R1 R2 R3 R4 R5 R6 R7 R8]. assert (Hsl : slot_list u = [slot]) by (unfold slot_list; by rewrite Hs).
  split; rewrite ?fmap_cons; cbn [length take concat]; rewrite ?fmap_cons, ?Hsl; cbn [app concat].
  - lia.
  - rewrite R2. cbn. by rewrite <- app_assoc.
  - intros sl [Hne Hsl']%not_elem_of_cons. rewrite R3 by done. cbn. by rewrite lookup_insert_ne.
  - intros [|j] v sl c Hj Hv Hvs Hc; cbn in Hv.
    + injection Hv as <-. rewrite Hs in Hvs. injection Hvs as <-. rewrite R3 by done. cbn.
      rewrite lookup_insert_eq, Z.add_0_r. by assert (c = b) as -> by congruence.
    + assert (Hne : slot <> sl).
      { intros <-. apply Hns. eapply slot_of_suffix; [by eapply list_elem_of_lookup_2|done]. }
      rewrite (R4 j v sl c) by (done || lia || (cbn; by rewrite lookup_insert_ne)). do 2 f_equal. lia.
  - intros Hk. apply R5. lia.
  - intros [= Hk]. destruct (R6 Hk) as [-> ->]. split; [lia|by destruct p].
  - intros Hp Hf. f_equal. apply R7; [by destruct p|]. destruct Hf; [constructor|done].
  - apply (f_equal (fun x => x <| pool := pool p |> <| requeued := requeued p |>)) in R8. destruct p. exact R8.
Qed.

Lemma resubmit_loop_pinned new_epoch recovery now suffix : forall ok new_seq p,
  0 <= new_seq -> new_seq + Z.of_nat (length suffix) < 2 ^ 64 ->
  Forall (fun u => wire u = None /\ exists slot b, pool_batch u = Some slot /\ pool p !! slot = Some b) suffix ->
  NoDup (concat (slot_list <$> suffix)) ->
  exists n q k, resubmit_loop e new_epoch recovery now ok suffix new_seq p = (n, q) /\
    resubmitted new_epoch recovery new_seq ok suffix p n q k.
Proof.
  induction suffix as [|u suffix IH]; intros ok new_seq p Hn Hlt Hok Hnd; cbn [resubmit_loop].
  { exists new_seq, p, 0%nat. split; [done|]. split; cbn; rewrite ?app_nil_r, ?Z.add_0_r; try done; try lia. by destruct p. }
  apply Forall_cons in Hok as [(Hw & slot & b & Hs & Hb) Hok].
  assert (Hsl : slot_list u = [slot]) by (unfold slot_list; by rewrite Hs).
  destruct (shutdown p) eqn:Hsh.
  { exists new_seq, p, 0%nat. split; [done|]. split; cbn; rewrite ?app_nil_r; try done; try lia; [congruence|by destruct p]. }
  unfold header_of_record. rewrite Hw, Hs. cbn [mbind option_bind]. rewrite Hb. cbv beta iota zeta.
  rewrite fmap_cons in Hnd. cbn [concat] in Hnd. rewrite Hsl in Hnd. apply NoDup_cons in Hnd as [Hns Hnd]. cbn [length] in Hlt.
  assert (Hmatch : exists d, match ok with [] => (true, []) | o :: ok => (o, ok) end = (d, tail ok) /\ (d = true \/ ok <> [] /\ ~ Forall (fun o => o = true) ok)).
  { destruct ok as [|[] ok]; eexists; (split; [reflexivity|]); [by left..|right]. split; [done|]. intros Hf%Forall_inv. done. }
  destruct Hmatch as (d & -> & Hd). rewrite (u64_id (new_seq + 1)) by (word_unfold; lia).
  set (b' := restamp e b new_seq new_epoch recovery). destruct d.
  - set (p1 := p <| pool ::= <[slot := b']> |> <| requeued ::= fun q => q ++ [slot] |>).
    destruct (IH (tail ok) (new_seq + 1) p1) as (n & q & k & Hq & Hr); [lia|lia| |done|].
    { apply Forall_forall. intros v Hv. rewrite Forall_forall in Hok. destruct (Hok v Hv) as (Hvw & sl & c & Hvs & Hc). split; [done|].
      exists sl, c. split; [done|]. cbn. rewrite lookup_insert_ne; [done|]. intros <-. apply Hns. by eapply slot_of_suffix. }
    exists n, q, (S k). split; [exact Hq|]. by eapply resubmitted_cons.
  - destruct Hd as [|[_ Hd]]; [done|]. eexists _, _, 0%nat. split; [reflexivity|].
    split; cbn; rewrite ?app_nil_r; try done; try lia; [|by destruct p; cbn in *; subst].
    intros sl Hsl'. rewrite lookup_insert_ne; [done|]. intros <-. apply Hsl'. rewrite Hsl. by left.
Qed.
End resubmit.

(** The report of a fence: the session's first [committed] batches. *)
Definition fence_reports (f : SessionFenced) (committed : Z) : Prop :=
  if has_committed_prefix f then committed_batch_seq f = committed - 1 /\ 0 < committed else committed = 0.

Section rollover.
  Context `{StdSort} (e : PubEnv) (base : Z) (sizes : list Z) (w : lworld) (f : SessionFenced).
  Hypothesis base_ok : 0 <= base.
  Hypothesis sizes_ok : Forall (fun n => 0 < n) sizes.
  Hypothesis fits : acked_at base sizes (batches sizes) < 2 ^ 64 /\ batches sizes < U64_MAX.
  Hypothesis winv : linv base sizes w.
  Hypothesis all_recorded : forall i, 0 <= i < batches sizes -> i ∈ lw_recorded w.
  Hypothesis reports : fence_reports f (lw_committed w).
#[local] Abbreviation p := (lw_pub w).
#[local] Abbreviation C := (lw_committed w).
#[local] Abbreviation r := (session_next_retire_batch_seq (lw_pub w)).

Lemma all_unacked : current_batch_seq <$> unacked_batches p = seqZ r (batches sizes - r).
Proof. rewrite (li_unacked _ _ _ winv). apply filter_all. intros i Hi%elem_of_seqZ. apply all_recorded. pose proof (li_cursor _ _ _ winv). lia. Qed.

Lemma committed_by_spec u : u ∈ unacked_batches p -> committed_by f u = bool_decide (current_batch_seq u < C).
Proof.
  intros Hu. pose proof (li_rec _ _ _ winv) as Hr. rewrite Forall_forall in Hr. destruct (Hr u Hu) as [Ho _].
  assert (Hin : current_batch_seq u ∈ current_batch_seq <$> unacked_batches p) by (by apply list_elem_of_fmap_2).
  rewrite all_unacked in Hin. apply elem_of_seqZ in Hin. pose proof (li_cursor _ _ _ winv).
  unfold committed_by, fence_reports in *. rewrite Ho. destruct (has_committed_prefix f); cbn.
  - destruct reports as [-> Hpos]. case_bool_decide; lia.
  - rewrite bool_decide_false by lia. done.
Qed.

Definition to_retire : list UnackedBatch := take (Z.to_nat (C - r)) (unacked_batches p).
Definition to_resubmit : list UnackedBatch := drop (Z.to_nat (C - r)) (unacked_batches p).

Lemma unacked_split :
  unacked_batches p = to_retire ++ to_resubmit /\ current_batch_seq <$> to_retire = seqZ r (C - r) /\
  current_batch_seq <$> to_resubmit = seqZ C (batches sizes - C).
Proof.
  pose proof (li_cursor _ _ _ winv). pose proof (li_committed _ _ _ winv). unfold to_retire, to_resubmit.
  split; [by rewrite take_drop|]. rewrite fmap_take, fmap_drop, all_unacked.
  replace (batches sizes - r) with ((C - r) + (batches sizes - C)) by lia. rewrite seqZ_app by lia.
  rewrite take_app_length', drop_app_length' by (rewrite length_seqZ; lia). split; [done|]. f_equal. lia.
Qed.

Lemma in_retire u : u ∈ to_retire -> u ∈ unacked_batches p /\ current_batch_seq u < C.
Proof.
  intros Hu. destruct unacked_split as (H1 & H2 & _). split; [rewrite H1; set_solver|].
  assert (Hs : current_batch_seq u ∈ current_batch_seq <$> to_retire) by (by apply list_elem_of_fmap_2). rewrite H2 in Hs. apply elem_of_seqZ in Hs. lia.
Qed.
Lemma in_resubmit u : u ∈ to_resubmit -> u ∈ unacked_batches p /\ C <= current_batch_seq u.
Proof.
  intros Hu. destruct unacked_split as (H1 & _ & H2). split; [rewrite H1; set_solver|].
  assert (Hs : current_batch_seq u ∈ current_batch_seq <$> to_resubmit) by (by apply list_elem_of_fmap_2). rewrite H2 in Hs. apply elem_of_seqZ in Hs. lia.
Qed.
Lemma epoch_of u : u ∈ unacked_batches p -> u_session_epoch u = session_epoch p /\ original_batch_seq u = current_batch_seq u.
Proof. intros Hu. pose proof (li_rec _ _ _ winv) as Hr. rewrite Forall_forall in Hr. by destruct (Hr u Hu) as (? & _ & ?). Qed.

Lemma fence_committed_eq : fence_committed (session_epoch p) f (unacked_batches p) = to_retire.
Proof.
  unfold fence_committed. rewrite (proj1 unacked_split) at 1. rewrite filter_app, filter_all, filter_none; [by rewrite app_nil_r| |].
  - intros u [Hu Hs]%in_resubmit [_ Hc]. rewrite committed_by_spec in Hc by done. apply bool_decide_eq_true in Hc. lia.
  - intros u [Hu Hs]%in_retire. split; [by apply epoch_of|]. rewrite committed_by_spec by done. by apply bool_decide_eq_true.
Qed.

Lemma resubmit_inj u v : u ∈ to_resubmit -> v ∈ to_resubmit -> current_batch_seq u = current_batch_seq v -> u = v.
Proof.
  intros [i Hi]%list_elem_of_lookup [j Hj]%list_elem_of_lookup He. pose proof (NoDup_seqZ C (batches sizes - C)) as Hnd.
  rewrite <- (proj2 (proj2 unacked_split)) in Hnd.
  assert (i = j) as -> by (apply (NoDup_lookup _ _ _ (current_batch_seq u) Hnd); rewrite list_lookup_fmap, ?Hi, ?Hj; cbn; congruence). congruence.
Qed.

Lemma resubmit_sorted : StronglySorted (fun a b => original_batch_seq a <= original_batch_seq b) to_resubmit.
Proof.
  assert (Hin : Forall (fun u => u ∈ unacked_batches p) to_resubmit) by (apply Forall_forall; intros u Hu; by apply in_resubmit).
  pose proof (proj2 (proj2 unacked_split)) as Hs. revert Hs. generalize C, (batches sizes - C).
  induction Hin as [|u l Hu Hl IH]; intros m n Hs; [constructor|]. cbn in Hs.
  assert (0 < n) by (destruct (Z.le_gt_cases n 0); [by rewrite seqZ_nil in Hs by lia|lia]). rewrite seqZ_cons in Hs by lia. injection Hs as Hs1 Hs2.
  constructor; [by eapply IH|]. apply Forall_forall. intros v Hv. rewrite Forall_forall in Hl. destruct (epoch_of u Hu) as [_ ->], (epoch_of v (Hl v Hv)) as [_ ->].
  assert (Hm : current_batch_seq v ∈ current_batch_seq <$> l) by (by apply list_elem_of_fmap_2). rewrite Hs2 in Hm. apply elem_of_seqZ in Hm. lia.
Qed.

Lemma fence_suffix_eq : fence_suffix (session_epoch p) f (unacked_batches p) = to_resubmit.
Proof.
  unfold fence_suffix. assert (Hf : filter (fun u => u_session_epoch u = session_epoch p /\ committed_by f u = false) (unacked_batches p) = to_resubmit).
  { rewrite (proj1 unacked_split) at 1. rewrite filter_app, filter_none, filter_all; [done| |].
    - intros u [Hu Hs]%in_resubmit. split; [by apply epoch_of|]. rewrite committed_by_spec by done. apply bool_decide_eq_false. lia.
    - intros u [Hu Hs]%in_retire [_ Hc]. rewrite committed_by_spec in Hc by done. apply bool_decide_eq_false in Hc. lia. }
  rewrite Hf. apply (StronglySorted_unique_strong (fun a b => original_batch_seq a <= original_batch_seq b)).
  - intros u v Hu Hv H1 H2. rewrite (std_sort_perm _ _ (by_key_swo _)) in Hu. apply resubmit_inj; [done..|].
    apply in_resubmit in Hu as [Hu _], Hv as [Hv _]. destruct (epoch_of u Hu) as [_ E1], (epoch_of v Hv) as [_ E2]. lia.
  - eapply StronglySorted_impl; [|apply std_sort_sorted, by_key_swo]. unfold by_key. intros a b _ _ Hab%Z.ltb_ge. lia.
  - apply resubmit_sorted.
  - apply std_sort_perm, by_key_swo.
Qed.

Lemma sum_msgs_nums l : sum_msgs l = u64 (sum_nums l).
Proof.
  unfold sum_msgs, sum_nums. induction l as [|u l IH]; [done|]. cbn [foldr]. rewrite IH. unfold u64. by rewrite Zplus_mod_idemp_r.
Qed.

Lemma fence_collect_eq (q : Publisher) old_epoch new_epoch :
  let u := unacked_batches q in
  let committed := fence_committed old_epoch f u in
  let credit := ack_received q +u sum_msgs committed in
  let base' := RebasedAckBaseAfterFenceCredit (ack_received q) (sum_msgs committed) in
  fence_collect q old_epoch new_epoch f =
  (fence_suffix old_epoch f u,
   mkPublisher new_epoch new_epoch base' base' credit (reopen_pending q) (publish_finished q) (ack_drain_active q)
     (last_ack_drain_fence_hwm q) (workers_stop q) (shutdown q) [] 0 0 base' 0 0 false (pool q)
     (released q ++ concat (slot_list <$> committed)) (requeued q) (resent q) (next_batch_seq q)).
Proof. destruct q. reflexivity. Qed.

(** The messages of the committed batches that were not yet retired. *)
Lemma sum_to_retire : sum_msgs to_retire = acked_at base sizes C - acked_at base sizes r.
Proof.
  pose proof (li_cursor _ _ _ winv) as Hc. pose proof (li_committed _ _ _ winv) as Hc2. destruct unacked_split as (U1 & U2 & _).
  pose proof (li_rec _ _ _ winv) as Hrec. rewrite U1 in Hrec. apply Forall_app in Hrec as [Hrec _].
  rewrite sum_msgs_nums. replace (C - r) with (Z.of_nat (Z.to_nat (C - r))) in U2 by lia.
  rewrite (sum_nums_run base sizes _ _ r _ ltac:(lia) U2 Hrec). replace (r + Z.of_nat (Z.to_nat (C - r))) with C by lia.
  pose proof (acked_at_range base sizes base_ok sizes_ok fits C ltac:(lia)). pose proof (acked_at_range base sizes base_ok sizes_ok fits r ltac:(lia)).
  pose proof (acked_at_mono base sizes sizes_ok r C ltac:(lia)). apply u64_id. word_unfold. lia.
Qed.

(** The acknowledgement base of the new session. *)
Definition new_base : Z := ack_received p +u (acked_at base sizes C - acked_at base sizes r).

Lemma new_base_exact : ack_received p = acked_at base sizes r -> new_base = acked_at base sizes C.
Proof.
  intros Hack. unfold new_base. rewrite Hack. pose proof (li_cursor _ _ _ winv). pose proof (li_committed _ _ _ winv).
  pose proof (acked_at_range base sizes base_ok sizes_ok fits C ltac:(lia)). rewrite u64_id by (word_unfold; lia). lia.
Qed.

Lemma fence_collect_spec new_epoch suffix p2 :
  new_epoch <> 0 -> fence_collect p (session_epoch p) new_epoch f = (suffix, p2) ->
  suffix = to_resubmit /\ session_start new_base p2 /\ shutdown p2 = shutdown p /\ pool p2 = pool p /\
  requeued p2 = requeued p /\ session_epoch p2 = new_epoch.
Proof.
  intros Hne. rewrite fence_collect_eq, fence_suffix_eq, fence_committed_eq, sum_to_retire. fold new_base.
  intros [= <- <-]. unfold RebasedAckBaseAfterFenceCredit. split; [done|]. split; [|done].
  unfold session_start. cbn. done.
Qed.

Lemma fence_done_fields start (q : Publisher) n :
  let q' := q <| next_batch_seq := n |> <| reopen_pending := false |> in
  requeued q' = requeued q /\ pool q' = pool q /\ next_batch_seq q' = n /\ session_epoch q' = session_epoch q /\
  shutdown q' = shutdown q /\ (session_start start q -> session_start start q').
Proof. by destruct q. Qed.
Lemma session_start_frame start (q : Publisher) po rq sh :
  session_start start (q <| pool := po |> <| requeued := rq |> <| shutdown := sh |>) -> session_start start q.
Proof. by destruct q. Qed.
Lemma no_drain (q : Publisher) : ack_level e < 2 -> fence_during_drain e q f = (true, q).
Proof. intros Hl. unfold fence_during_drain. replace (ack_level e >=? 2) with false by lia. by rewrite andb_false_r. Qed.
Lemma recovery_fields (q : Publisher) (recovery : option Z) :
  let q' := match recovery with None => q <| shutdown := true |> | Some _ => q end in
  requeued q' = requeued q /\ pool q' = pool q /\ session_epoch q' = session_epoch q /\
  shutdown q' = shutdown q || bool_decide (recovery = None) /\ (forall start, session_start start q -> session_start start q').
Proof. destruct recovery; cbn; rewrite ?orb_false_r, ?orb_true_r; by destruct q. Qed.

(** C10. A fence ends a session all of whose batches are recorded and pinned in
    slots of their own, and whose sends drained; the handler does not return
    early (shut down, or in the durable drain), and the epoch does not wrap.
    Then the handler restamps the batches that were not committed with the new
    epoch, renumbers them from 0 and puts them on the queue of the recovery
    broker in their order: all of them when there is such a broker and every
    enqueue succeeds, and otherwise the first ones, and the publisher is shut
    down.  The new session starts at the old count of acknowledged messages and
    those of the batches that the fence reports as committed beyond it, which is
    the committed prefix when the count was that of the retired batches. *)
Theorem rollover_resubmits_suffix p0 p1 during recovery now ok :
  workers_stop p0 = false -> shutdown p0 = false -> fence_during_drain e p0 f = (true, p1) ->
  during (p1 <| reopen_pending := true |>) = p -> session_epoch p1 = session_epoch p -> 0 <= session_epoch p < 2 ^ 32 - 1 ->
  shutdown p = false -> pinned p ->
  let new_epoch := session_epoch p + 1 in
  let p' := HandleSessionFenced e p0 f during true recovery now ok in
  current_batch_seq <$> to_resubmit = seqZ C (batches sizes - C) /\
  session_epoch p' = new_epoch /\ session_start new_base p' /\
  (ack_received p = acked_at base sizes r -> new_base = acked_at base sizes C) /\
  exists k, (k <= length to_resubmit)%nat /\
    requeued p' = requeued p ++ concat (slot_list <$> take k to_resubmit) /\
    (forall j u slot b, (j < k)%nat -> to_resubmit !! j = Some u -> pool_batch u = Some slot -> pool p !! slot = Some b ->
       exists b', pool p' !! slot = Some b' /\ h_batch_seq b' = Z.of_nat j /\ h_session_epoch32 b' = new_epoch /\
         h_broker_id b' = default (-1) recovery /\ h_num_msg b' = h_num_msg b /\ h_body b' = h_body b) /\
    ((k < length to_resubmit)%nat -> shutdown p' = true) /\
    (recovery <> None -> Forall (fun o => o = true) ok ->
       k = length to_resubmit /\ shutdown p' = false /\ next_batch_seq p' = batches sizes - C).
Proof.
  intros Hw0 Hs0 Hdr Hd He1 Hep Hs [Hpin Hnd] new_epoch p'. destruct unacked_split as (U1 & U2 & U3). split; [done|].
  unfold p', HandleSessionFenced. rewrite Hw0, Hs0, Hdr. cbn [orb negb]. rewrite Hd, He1.
  assert (Hne : NextSessionEpochAfterFence (session_epoch p) = new_epoch).
  { unfold NextSessionEpochAfterFence. pose proof (li_epoch _ _ _ winv). replace (_ =? 0) with false by lia. apply u32_id. unfold is_u32. lia. }
  rewrite Hne. destruct (fence_collect p (session_epoch p) new_epoch f) as [suffix p2] eqn:Ec.
  apply fence_collect_spec in Ec as (-> & Hst & Hsh & Hpool & Hrq & Hep2); [|lia]. cbv beta iota zeta.
  destruct (recovery_fields p2 recovery) as (F1 & F2 & F3 & F4 & F5). set (p3 := match recovery with None => _ | Some _ => p2 end) in *. clearbody p3.
  assert (Hlen : Z.of_nat (length to_resubmit) = batches sizes - C).
  { rewrite <- (length_fmap current_batch_seq), U3, length_seqZ. pose proof (li_committed _ _ _ winv). lia. }
  destruct (resubmit_loop_pinned e new_epoch (default (-1) recovery) now to_resubmit ok 0 p3) as (n & q & k & Hq & [R1 R2 R3 R4 R5 R6 R7 R8]); [lia| | | |].
  { rewrite Hlen. pose proof (li_committed _ _ _ winv). pose proof (li_cursor _ _ _ winv). destruct fits. word_unfold. lia. }
  { rewrite F2, Hpool. rewrite U1 in Hpin. by apply Forall_app in Hpin as [_ ?]. }
  { rewrite U1, fmap_app, concat_app in Hnd. by apply NoDup_app in Hnd as (_ & _ & ?). }
  rewrite Hq. destruct (fence_done_fields new_base q (NextBatchSeqAfterSuffixResubmit n)) as (-> & -> & -> & -> & -> & Hst').
  apply F5 in Hst. rewrite <- R8 in Hst. split; [|split; [by eapply Hst', session_start_frame|split; [apply new_base_exact|]]].
  { rewrite <- Hep2, <- F3, <- R8. done. }
  exists k. split; [done|]. rewrite R2, F1, Hrq. split; [done|]. split; [|split; [done|]].
  - intros j u slot b Hj Hu Hsl Hb. eexists. split; [apply (R4 j u slot b); [done..|by rewrite F2, Hpool]|done].
  - intros Hrec Hok. rewrite bool_decide_false, orb_false_r, Hsh, Hs in F4 by done. pose proof (R7 F4 Hok) as Hk.
    destruct (R6 Hk) as [Hn Hsq]. split; [done|]. split; [congruence|]. unfold NextBatchSeqAfterSuffixResubmit. lia.
Qed.
End rollover.

(** ** Example: batch 0 is committed, batches 1 and 2 are sent again *)
Definition roll_pub : Publisher :=
  (demo_pub 1 5) <| pool := <[100 := demo_header 0 2]> (<[101 := demo_header 1 3]> (<[102 := demo_header 2 1]> ∅)) |>.
Definition roll_world : lworld := lrun_do demo_penv 5 demo_sizes roll_pub demo_lops.
Lemma roll_run : lrun demo_penv 5 demo_sizes (mkLworld roll_pub ∅ 0) demo_lops roll_world.
Proof.
  unfold roll_world, demo_lops.
  refine (lrun_do_snoc _ _ _ _ [_; _; _; _] _ _ _); [|lop_ok_solve]. refine (lrun_do_snoc _ _ _ _ [_; _; _] _ _ _); [|lop_ok_solve].
  refine (lrun_do_snoc _ _ _ _ [_; _] _ _ _); [|lop_ok_solve]. refine (lrun_do_snoc _ _ _ _ [_] _ _ _); [|lop_ok_solve].
  refine (lrun_do_snoc _ _ _ _ [] _ _ _); [apply lrun_nil|lop_ok_solve].
Qed.
Lemma roll_inv : linv 5 demo_sizes roll_world.
Proof.
  destruct (session_start_inv demo_penv 5 demo_sizes ltac:(cbn; lia) ltac:(lia) demo_sizes_ok demo_fits roll_pub) as [Hi Ha]; [by split_and!|].
  apply (lrun_inv demo_penv 5 demo_sizes ltac:(cbn; lia) ltac:(lia) demo_sizes_ok demo_fits _ _ _ roll_run Hi Ha).
Qed.
Lemma roll_recorded i : 0 <= i < batches demo_sizes -> i ∈ lw_recorded roll_world.
Proof.
  intros Hi. assert (i = 0 \/ i = 1 \/ i = 2) as [->|[->| ->]] by (unfold batches in Hi; cbn in Hi; lia); apply (bool_decide_unpack _); vm_compute; exact I.
Qed.
Lemma roll_pinned : pinned (lw_pub roll_world).
Proof.
  split; [|apply (bool_decide_unpack _); vm_compute; exact I].
  assert (Hu : exists u v, unacked_batches (lw_pub roll_world) = [u; v] /\ (wire u, pool_batch u, wire v, pool_batch v) = (None, Some 101, None, Some 102)).
  { eexists _, _. split; vm_compute; reflexivity. }
  destruct Hu as (u & v & -> & [= H1 H2 H3 H4]). forall_list; (split; [done|]); eexists _, _; (split; [done|vm_compute; reflexivity]).
Qed.

Lemma rollover_resubmits_suffix_witness :
  let p' := HandleSessionFenced demo_penv (lw_pub roll_world) (mkSessionFenced 0 true) (fun _ => lw_pub roll_world) true (Some 4) 9 [] in
  requeued p' = [101; 102] /\ pool p' !! 102 = Some (mkBatch 1 2 2 7 4 1 [2]) /\ session_start 7 p'.
Proof.
  intros p'.
  destruct (rollover_resubmits_suffix demo_penv 5 demo_sizes roll_world (mkSessionFenced 0 true) ltac:(lia) demo_sizes_ok demo_fits roll_inv
    roll_recorded ltac:(split; vm_compute; reflexivity) (lw_pub roll_world) (lw_pub roll_world) (fun _ => lw_pub roll_world) (Some 4) 9 [])
    as (_ & _ & H2 & H3 & k & _ & H1 & _ & _ & H4);
    [vm_compute; reflexivity|vm_compute; reflexivity|by apply no_drain|reflexivity|reflexivity|vm_compute; split; congruence
    |vm_compute; reflexivity|exact roll_pinned|].
  destruct (H4 ltac:(done) ltac:(constructor)) as (-> & _ & _). split; [exact H1|]. split; [vm_compute; reflexivity|].
  rewrite H3 in H2 by reflexivity. exact H2.
Defined.
