(* ===== verification/Retransmit.v ===== *)
(** Retransmission by a publisher (src/client/publisher_session.cc and
    src/client/session_client_utils.h): which batch is sent again, and to which
    broker. *)

From S2P Require Import Prelude Sorting PublisherLedger PublisherRollover.

(** * The broker *)
Definition Splitmix64Finalize (x : Z) : Z :=
  let x := Z.lxor x (Z.shiftr x 30) *u 13787848793156543929 in
  let x := Z.lxor x (Z.shiftr x 27) *u 10723151780598845931 in
  Z.lxor x (Z.shiftr x 31).

Definition rendezvous_score (client_id batch_seq broker : Z) : Z :=
  let mixed := client_id in
  let mixed := Z.lxor mixed (batch_seq +u 11400714819323198485 +u (mixed <<u 6) +u Z.shiftr mixed 2) in
  let mixed := Z.lxor mixed (u32 broker +u 13787848793156543929 +u (mixed <<u 7) +u Z.shiftr mixed 3) in
  Splitmix64Finalize mixed.

(** [None] while there is no best broker yet. *)
Definition rendezvous_step (client_id batch_seq exclude_broker : Z) (best : option (Z * Z)) (broker : Z) : option (Z * Z) :=
  if broker =? exclude_broker then best
  else
    let score := rendezvous_score client_id batch_seq broker in
    match best with
    | None => Some (score, broker)
    | Some (best_score, best_broker) =>
        if (score >? best_score) || ((score =? best_score) && (broker <? best_broker)) then Some (score, broker) else best
    end.
Definition RendezvousBroker (client_id batch_seq : Z) (survivors : list Z) (exclude_broker : Z) : Z :=
  match foldl (rendezvous_step client_id batch_seq exclude_broker) None survivors with
  | Some (_, best_broker) => best_broker
  | None => -1
  end.

(** ** The choice is the largest score *)
Section choice.
  Context (client_id batch_seq exclude : Z).
#[local] Abbreviation score := (rendezvous_score client_id batch_seq).

(** [a] is chosen over [b], or is [b]. *)
Definition wins (a b : Z) : Prop := score b < score a \/ score b = score a /\ a <= b.
Lemma wins_trans a b c : wins a b -> wins b c -> wins a c.
Proof. unfold wins. lia. Qed.
Lemma wins_antisym a b : wins a b -> wins b a -> a = b.
Proof. unfold wins. lia. Qed.

Definition best_of (l : list Z) (best : option (Z * Z)) : Prop :=
  match best with
  | None => forall b, b ∈ l -> b = exclude
  | Some (s, b) => s = score b /\ b ∈ l /\ b <> exclude /\ forall c, c ∈ l -> c <> exclude -> wins b c
  end.

Lemma rendezvous_fold l : best_of l (foldl (rendezvous_step client_id batch_seq exclude) None l).
Proof.
  induction l as [|x l IH] using rev_ind; [cbn; set_solver|]. rewrite foldl_app. cbn [foldl].
  set (best := foldl _ None l) in *. clearbody best. unfold rendezvous_step. destruct (x =? exclude) eqn:Ex; bool_props.
  - destruct best as [[s b]|]; cbn in *; [|set_solver]. destruct IH as (H1 & H2 & H3 & H4). split_and!; [done|set_solver|done|].
    intros c Hc Hn. apply elem_of_app in Hc as [Hc|Hc%list_elem_of_singleton]; [auto|congruence].
  - destruct best as [[s b]|]; cbn [best_of] in *.
    + destruct IH as (H1 & H2 & H3 & H4). destruct (_ || _) eqn:Eb; bool_props; cbn.
      * split_and!; [done|set_solver|done|]. intros c Hc Hn. apply elem_of_app in Hc as [Hc|Hc%list_elem_of_singleton]; [|subst; unfold wins; lia].
        specialize (H4 c Hc Hn). unfold wins in *. lia.
      * split_and!; [done|set_solver|done|]. intros c Hc Hn. apply elem_of_app in Hc as [Hc|Hc%list_elem_of_singleton]; [auto|].
        subst. unfold wins. lia.
    + split_and!; [done|set_solver|done|]. intros c Hc Hn. apply elem_of_app in Hc as [Hc|Hc%list_elem_of_singleton]; [by apply IH in Hc|].
      subst. unfold wins. lia.
Qed.

Lemma best_of_unique l l' o o' :
  (forall b, b <> exclude -> b ∈ l <-> b ∈ l') -> best_of l o -> best_of l' o' -> o = o'.
Proof.
  intros Hl. destruct o as [[s b]|], o' as [[s' b']|]; cbn; [| | |done].
  - intros (-> & H2 & H3 & H4) (-> & H2' & H3' & H4').
    assert (b = b') as ->; [|done]. apply wins_antisym; [apply H4; [by apply Hl|done]|apply H4'; [by apply Hl|done]].
  - intros (_ & H2 & H3 & _) H. exfalso. apply H3, H. by apply Hl.
  - intros H (_ & H2 & H3 & _). exfalso. apply H3, H. by apply Hl.
Qed.
End choice.

(** The target of a retransmission is a surviving broker other than the one the
    batch was sent to, if there is one; it depends on the set of survivors only,
    and stays when survivors that were not chosen leave. *)
Theorem rendezvous_choice client_id batch_seq l exclude :
  Forall (fun b => 0 <= b) l ->
  let target := RendezvousBroker client_id batch_seq l exclude in
  (target = -1 <-> forall b, b ∈ l -> b = exclude) /\
  (target <> -1 -> target ∈ l /\ target <> exclude) /\
  forall l', (forall b, b ∈ l' -> b ∈ l) -> (target <> -1 -> target ∈ l') ->
    RendezvousBroker client_id batch_seq l' exclude = target.
Proof.
  intros Hl. cbn zeta. unfold RendezvousBroker. pose proof (rendezvous_fold client_id batch_seq exclude l) as H.
  set (o := foldl _ None l) in *. clearbody o. rewrite Forall_forall in Hl. destruct o as [[s b]|]; cbn in H.
  - destruct H as (H1 & H2 & H3 & H4). pose proof (Hl b H2). split_and!; [|done|].
    + split; [lia|]. intros Ha. by apply Ha in H2.
    + intros l' Hsub Hin. specialize (Hin ltac:(lia)). pose proof (rendezvous_fold client_id batch_seq exclude l') as H'.
      set (o' := foldl _ None l') in *. clearbody o'. destruct o' as [[s' b']|]; cbn in H'; [|by apply H' in Hin].
      destruct H' as (_ & J2 & J3 & J4). eapply wins_antisym; [apply J4; done|apply H4; auto].
  - split_and!; [done|done|]. intros l' Hsub _. pose proof (rendezvous_fold client_id batch_seq exclude l') as H'.
    destruct (foldl _ None l') as [[s' b']|]; [|done]. destruct H' as (_ & J2 & J3 & _). by apply Hsub, H in J2.
Qed.
Lemma rendezvous_choice_witness :
  let target := RendezvousBroker 7 3 [0; 1; 2; 3] 1 in
  target <> 1 /\ RendezvousBroker 7 3 [3; 2; target; 1; 0] 1 = target.
Proof.
  destruct (rendezvous_choice 7 3 [0; 1; 2; 3] 1) as (_ & H2 & H3); [forall_list; lia|]. cbn zeta.
  assert (Hin : RendezvousBroker 7 3 [0; 1; 2; 3] 1 ∈ [0; 1; 2; 3]) by (apply (bool_decide_unpack _); vm_compute; exact I).
  split; [apply H2; vm_compute; congruence|]. cbn zeta in H3.
  set (t := RendezvousBroker 7 3 [0; 1; 2; 3] 1) in *. clearbody t. apply H3; set_solver.
Defined.

(** * The batch *)

(** [is_due] is the test of the timers, which are floating-point. *)
Definition FindDueSessionRetirePredecessor (l : list UnackedBatch) (retire_cursor : Z) (is_due : UnackedBatch -> bool) :
    option (nat * UnackedBatch) :=
  match list_find (fun u => current_batch_seq u = retire_cursor) l with
  | Some (i, u) => if is_due u then Some (i, u) else None
  | None => None
  end.

(** The critical section of a pass: the record is counted and stamped, and a
    copy of the batch is taken; then it is restamped and sent, unless a rollover
    has begun ([pending]) or the publisher stops in between. *)
Definition retransmit_pick (p : Publisher) (now_ns : Z) (is_due : UnackedBatch -> bool) : option (Batch * Z * Z) * Publisher :=
  match FindDueSessionRetirePredecessor (unacked_batches p) (session_next_retire_batch_seq p) is_due with
  | None => (None, p)
  | Some (i, u) =>
      let copy := if wire_bytes u >? 0 then header_of_record p u else None in
      ((fun b => (b, u_broker_id u, current_batch_seq u)) <$> copy,
       p <| unacked_batches ::= <[i := u <| attempt ::= fun n => u32 (n + 1) |> <| last_send_ns := now_ns |>]> |>)
  end.
Definition retransmit_send (e : PubEnv) (p : Publisher) (due : Batch * Z * Z) (survivors : list Z) : option (Batch * Z) :=
  let '(b, broker, seq) := due in
  if reopen_pending p || shutdown p then None
  else
    let target := RendezvousBroker (u32 (pe_client_id e)) seq survivors broker in
    if target <? 0 then None
    else
      Some (b <| h_broker_id := u32 target |> <| h_session_epoch := Z.land (session_epoch p) 65535 |>
              <| h_session_epoch32 := session_epoch p |>, target).

(** The bytes a record would send again carry its sequence number. *)
Definition headers_match (p : Publisher) : Prop :=
  Forall (fun u => forall b, header_of_record p u = Some b -> h_batch_seq b = current_batch_seq u) (unacked_batches p).

(** A pass picks the batch at the retire cursor or none, and keeps the
    invariant of the ledger. *)
Lemma retransmit_pick_spec base sizes w now is_due due p' :
  linv base sizes w -> headers_match (lw_pub w) -> retransmit_pick (lw_pub w) now is_due = (due, p') ->
  linv base sizes (mkLworld p' (lw_recorded w) (lw_committed w)) /\ session_epoch p' = session_epoch (lw_pub w) /\
  forall b broker seq, due = Some (b, broker, seq) -> seq = session_next_retire_batch_seq (lw_pub w) /\ h_batch_seq b = seq.
Proof.
  intros Hi Hh Hp. unfold retransmit_pick, FindDueSessionRetirePredecessor in Hp.
  destruct (list_find _ _) as [[i u]|] eqn:El; [|injection Hp as <- <-; by destruct w].
  apply list_find_Some in El as (Hu & Hc & _). destruct (is_due u); [|injection Hp as <- <-; by destruct w].
  injection Hp as <- <-. split; [|split; [by destruct (lw_pub w)|]].
  - set (u' := u <| attempt ::= fun n => u32 (n + 1) |> <| last_send_ns := now |>).
    assert (Hf : forall A (g : UnackedBatch -> A), g u' = g u -> g <$> <[i := u']> (unacked_batches (lw_pub w)) = g <$> unacked_batches (lw_pub w)).
    { intros A g Hg. rewrite list_fmap_insert, Hg. apply list_insert_id. by rewrite list_lookup_fmap, Hu. }
    pose proof (Hf _ current_batch_seq eq_refl) as F1. pose proof (Hf _ wire_bytes eq_refl) as F2.
    assert (F3 : Forall (rec_ok sizes (session_epoch (lw_pub w))) (<[i := u']> (unacked_batches (lw_pub w)))).
    { apply Forall_insert; [apply (li_rec _ _ _ Hi)|]. pose proof (li_rec _ _ _ Hi) as Hr. rewrite Forall_lookup in Hr. apply (Hr _ _ Hu). }
    assert (F4 : sum_bytes (<[i := u']> (unacked_batches (lw_pub w))) = sum_bytes (unacked_batches (lw_pub w))).
    { assert (Hs : forall l, sum_bytes l = foldr Z.add 0 (wire_bytes <$> l)) by (induction l as [|v l IH]; [done|]; cbn; by rewrite <- IH).
      by rewrite !Hs, F2. }
    destruct Hi. destruct w as [p rec com]. destruct p. cbn in *. constructor; cbn; try done; [by etrans; [exact F1|]|etrans; [eassumption|f_equal; symmetry; exact F4]].
  - intros b broker seq Hd. destruct (wire_bytes u >? 0); [|done]. destruct (header_of_record _ u) as [c|] eqn:Ec; [|done].
    cbn in Hd. injection Hd as <- <- <-. split; [done|]. unfold headers_match in Hh. rewrite Forall_lookup in Hh. by apply (Hh _ _ Hu).
Qed.

(** C13. What a pass sends: the batch at the retire cursor, under the session's
    epoch, to a survivor other than the broker it was sent to, if the epoch is
    still that of the pass ([q] is the publisher when it is sent). *)
Theorem retransmits_retire_predecessor e base sizes w now is_due due p' q survivors b target :
  linv base sizes w -> headers_match (lw_pub w) -> Forall (fun b => 0 <= b) survivors ->
  retransmit_pick (lw_pub w) now is_due = (Some due, p') -> session_epoch q = session_epoch p' ->
  retransmit_send e q due survivors = Some (b, target) ->
  h_batch_seq b = session_next_retire_batch_seq (lw_pub w) /\ h_session_epoch32 b = session_epoch (lw_pub w) /\
  h_broker_id b = u32 target /\ target ∈ survivors /\ target <> due.1.2.
Proof.
  intros Hi Hh Hsv Hp Hq Hs. destruct due as [[c broker] seq].
  destruct (retransmit_pick_spec _ _ _ _ _ _ _ Hi Hh Hp) as (_ & He & Hd). destruct (Hd _ _ _ eq_refl) as [Hd1 Hd2].
  unfold retransmit_send in Hs. destruct (_ || _); [done|]. destruct (_ <? 0) eqn:Et; [done|]. injection Hs as <- Ht. bool_props.
  destruct (rendezvous_choice (u32 (pe_client_id e)) seq survivors broker Hsv) as (_ & H2 & _).
  rewrite Ht in *. destruct H2 as [H2 H3]; [lia|]. destruct c. cbn in *. split_and!; congruence.
Qed.

(** The epoch is read when the batch is sent and the sequence number when it is
    picked: after a rollover in between, a batch of the old session is sent under
    the number that another batch has in the new one.  Batch 1 is picked; the
    rollover renumbers batches 1 and 2 to 0 and 1; both batch 2 and the copy of
    batch 1 are then batch 1 of epoch 2. *)
Definition stale_pick := retransmit_pick (lw_pub roll_world) 8 (fun _ => true).
Definition stale_pub : Publisher :=
  HandleSessionFenced demo_penv stale_pick.2 (mkSessionFenced 0 true) (fun p => p) true (Some 4) 9 [].
Definition id_of (b : Batch) : Z * Z := (h_session_epoch32 b, h_batch_seq b).
Example stale_retransmit_reuses_batch_seq :
  (fun d => id_of <$> (fst <$> retransmit_send demo_penv stale_pub d [0; 1; 2])) <$> stale_pick.1 = Some (Some (2, 1)) /\
  id_of <$> pool stale_pub !! 102 = Some (2, 1) /\
  (fun d => h_body d.1.1) <$> stale_pick.1 <> h_body <$> pool stale_pub !! 102.
Proof. split_and!; vm_compute; [reflexivity|reflexivity|congruence]. Qed.

Lemma roll_headers_match : headers_match (lw_pub roll_world).
Proof.
  unfold headers_match.
  assert (Hu : exists u v, unacked_batches (lw_pub roll_world) = [u; v] /\ h_batch_seq <$> header_of_record (lw_pub roll_world) u = Some (current_batch_seq u) /\
    h_batch_seq <$> header_of_record (lw_pub roll_world) v = Some (current_batch_seq v)) by (eexists _, _; split_and!; vm_compute; reflexivity).
  destruct Hu as (u & v & -> & H1 & H2). forall_list; intros b Hb; [rewrite Hb in H1|rewrite Hb in H2]; cbn in *; congruence.
Qed.
Lemma picked_and_sent (x : option (Batch * Z * Z) * Publisher) (send : Publisher -> Batch * Z * Z -> option (Batch * Z)) :
  bool_decide (is_Some (x.1 ≫= send x.2)) = true -> exists due p' b target, x = (Some due, p') /\ send p' due = Some (b, target).
Proof. intros Hs. apply bool_decide_eq_true in Hs as [[b target] Hs]. destruct x as [[due|] p']; [|done]. by exists due, p', b, target. Qed.

Lemma retransmits_retire_predecessor_witness :
  exists due p' b target, retransmit_pick (lw_pub roll_world) 8 (fun _ => true) = (Some due, p') /\
    retransmit_send demo_penv p' due [0; 1; 2] = Some (b, target) /\
    h_batch_seq b = 1 /\ h_session_epoch32 b = 1 /\ target ∈ [0; 1; 2].
Proof.
  assert (Hr : session_next_retire_batch_seq (lw_pub roll_world) = 1 /\ session_epoch (lw_pub roll_world) = 1) by (split; vm_compute; reflexivity).
  destruct (picked_and_sent (retransmit_pick (lw_pub roll_world) 8 (fun _ => true)) (fun p d => retransmit_send demo_penv p d [0; 1; 2]))
    as (due & p' & b & target & Ep & Hs); [vm_compute; reflexivity|].
  assert (Hsv : Forall (fun b => 0 <= b) [0; 1; 2]) by (forall_list; lia).
  pose proof (retransmits_retire_predecessor demo_penv 5 demo_sizes roll_world 8 (fun _ => true) due p' p' [0; 1; 2] b target
    roll_inv roll_headers_match Hsv Ep eq_refl Hs) as (H1 & H2 & _ & H3 & _).
  exists due, p', b, target. split; [exact Ep|]. split; [exact Hs|].
  split; [exact (eq_trans H1 (proj1 Hr))|]. split; [exact (eq_trans H2 (proj2 Hr))|exact H3].
Defined.
