(* ===== verification/MetadataReplica.v ===== *)
(** The metadata ledger of the LazyLog baseline
    (src/cxl_manager/lazylog_metadata_replica.cc): the sidecar file of one
    replica, its appends and its replay, and the client that appends to all
    replicas. *)

From S2P Require Import Prelude Bytes CorfuReplica.

Module MetadataReplicaStore.

(** * Requests *)
Record MetadataAppendRequest := mkRequest {
  topic : list Z;
  source_broker_id : Z;
  source_batch_seq : Z;
  r_client_id : Z;
  client_batch_seq : Z;
  payload_offset : Z;
  payload_size : Z;
  num_messages : Z;
}.
Definition request_wf (r : MetadataAppendRequest) : Prop :=
  byte_list (topic r) /\ is_u32 (Z.of_nat (length (topic r))) /\ is_u32 (source_broker_id r) /\ is_u64 (source_batch_seq r) /\
  is_u32 (r_client_id r) /\ is_u64 (client_batch_seq r) /\ is_u64 (payload_offset r) /\ is_u64 (payload_size r) /\ is_u32 (num_messages r).

(** The serialization of a request is that of Protocol Buffers: what is
    serialized is parsed back, and a request with a topic is not empty. *)
Class Codec := {
  SerializeToString : MetadataAppendRequest -> list Z;
  ParseFromString : list Z -> option MetadataAppendRequest;
}.
Class CodecOk `{Codec} : Prop := {
  parse_serialize r : request_wf r -> ParseFromString (SerializeToString r) = Some r;
  serialize_nonempty r : topic r <> [] -> SerializeToString r <> [];
}.

(** [std::to_string] of an unsigned integer below 10^20. *)
Fixpoint to_digits (fuel : nat) (n : Z) : list Z :=
  match fuel with
  | O => []
  | S fuel => if n <? 10 then [48 + n] else to_digits fuel (n / 10) ++ [48 + n mod 10]
  end.
Definition to_string (n : Z) : list Z := to_digits 20 n.
Definition SlotKey (r : MetadataAppendRequest) : list Z :=
  topic r ++ [31] ++ to_string (source_broker_id r) ++ [31] ++ to_string (r_client_id r) ++ [31] ++ to_string (client_batch_seq r).

(** * The sidecar *)
Definition kRecordMagic : Z := 0x4c4c4d44.
Definition kRecordVersion : Z := 1.
Definition kRecordHeaderBytes : nat := 16.

Record Store := mkStore {
  fd_open : bool;
  records : gmap (list Z) (list Z);
  file : list Z;
}.
#[export] Instance eta_Store : Eta Store := fun s => mkStore (fd_open s) (records s) (file s).

(** What a call of write returns.  The calls after the listed ones write all
    they are given. *)
Inductive write_rc := WInterrupted | WError | WBytes (n : nat).
Fixpoint WriteFully (rcs : list write_rc) (f data : list Z) : bool * list Z * list write_rc :=
  if (length data =? 0)%nat then (true, f, rcs)
  else
    match rcs with
    | [] => (true, f ++ data, [])
    | WInterrupted :: rcs => WriteFully rcs f data
    | WError :: rcs | WBytes 0 :: rcs => (false, f, rcs)
    | WBytes n :: rcs => WriteFully rcs (f ++ take n data) (drop n data)
    end.

Definition record_header (encoded : list Z) : list Z :=
  put_le 4 kRecordMagic ++ put_le 4 kRecordVersion ++ put_le 4 (u32 (Z.of_nat (length encoded))) ++
  put_le 4 (CorfuReplicaStore.Crc32c encoded).
Record append_io := mkIo {
  rcs : list write_rc;
  sync_ok : bool;
}.
Definition AppendRecord (io : append_io) (f encoded : list Z) : bool * list Z :=
  if (length encoded =? 0)%nat || (Z.of_nat (length encoded) >? 4294967295) then (false, f)
  else
    let '(ok, f, rcs) := WriteFully (rcs io) f (record_header encoded) in
    if negb ok then (false, f)
    else
      let '(ok, f, _) := WriteFully rcs f encoded in
      if negb ok then (false, f) else (sync_ok io, f).

(** [None] is the result false; otherwise [already_present]. *)
Definition Append `{Codec} (io : append_io) (s : Store) (r : MetadataAppendRequest) : option bool * Store :=
  if (length (topic r) =? 0)%nat then (None, s)
  else
    let encoded := SerializeToString r in
    if negb (fd_open s) then (None, s)
    else
      match records s !! SlotKey r with
      | Some e => (if bool_decide (e = encoded) then Some true else None, s)
      | None =>
          let '(ok, f) := AppendRecord io (file s) encoded in
          let s := s <| file := f |> in
          if negb ok then (None, s) else (Some false, s <| records ::= <[SlotKey r := encoded]> |>)
      end.

(** Reads succeed.  One record at [offset] of the file: the end, a torn tail, an error, or the
    record and the next offset. *)
Inductive replayed := REnd | RTorn | RCorrupt | RRecord (key encoded : list Z) (next : nat).
Definition read_record `{Codec} (f : list Z) (offset : nat) : replayed :=
  let header := take kRecordHeaderBytes (drop offset f) in
  if (length header =? 0)%nat then REnd
  else if negb (length header =? kRecordHeaderBytes)%nat then RTorn
  else
    let magic := get_le 4 header in
    let version := get_le 4 (drop 4 header) in
    let len := get_le 4 (drop 8 header) in
    let crc := get_le 4 (drop 12 header) in
    if negb (magic =? kRecordMagic) || negb (version =? kRecordVersion) || (len =? 0) || (len >? Z.shiftl 1 20) then RCorrupt
    else
      let encoded := take (Z.to_nat len) (drop (offset + kRecordHeaderBytes) f) in
      if negb (Z.of_nat (length encoded) =? len) then RTorn
      else if negb (CorfuReplicaStore.Crc32c encoded =? crc) then RCorrupt
      else
        match ParseFromString encoded with
        | None => RCorrupt
        | Some r =>
            if (length (topic r) =? 0)%nat then RCorrupt
            else RRecord (SlotKey r) encoded (offset + kRecordHeaderBytes + Z.to_nat len)
        end.
(** The records and the length of the file that is kept. *)
Fixpoint replay_from `{Codec} (fuel : nat) (f : list Z) (offset : nat) (recs : gmap (list Z) (list Z)) :
    option (gmap (list Z) (list Z) * nat) :=
  match fuel with
  | O => None
  | S fuel =>
      match read_record f offset with
      | REnd | RTorn => Some (recs, offset)
      | RCorrupt => None
      | RRecord key encoded next => replay_from fuel f next (<[key := encoded]> recs)
      end
  end.
Definition ReplaySidecar `{Codec} (f : list Z) : option (gmap (list Z) (list Z) * nat) := replay_from (S (length f)) f 0 ∅.

(** [truncate_ok] is whether the torn tail could be removed. *)
Definition Open `{Codec} (truncate_ok : bool) (s : Store) : bool * Store :=
  if fd_open s then (true, s)
  else
    match ReplaySidecar (file s) with
    | None => (false, s)
    | Some (recs, kept) =>
        if (kept <? length (file s))%nat && negb truncate_ok then (false, s)
        else (true, mkStore true recs (take kept (file s)))
    end.

(** * The key of a slot *)
Definition value_of (l : list Z) : Z := foldl (fun a d => 10 * a + (d - 48)) 0 l.
Lemma to_digits_value fuel : forall n, 0 <= n < 10 ^ Z.of_nat fuel -> value_of (to_digits fuel n) = n.
Proof.
  induction fuel as [|fuel IH]; intros n Hn; [change (value_of (to_digits 0 n)) with 0; change (10 ^ Z.of_nat 0) with 1 in Hn; lia|]. cbn [to_digits].
  destruct (n <? 10) eqn:E; [unfold value_of; cbn [foldl]; lia|].
  bool_props. rewrite Nat2Z.inj_succ, Z.pow_succ_r in Hn by lia. unfold value_of. rewrite foldl_app. cbn [foldl]. fold (value_of (to_digits fuel (n / 10))).
  rewrite IH; [pose proof (Z.div_mod n 10); lia|]. split; [apply Z.div_pos; lia|apply Z.div_lt_upper_bound; lia].
Qed.
Lemma to_digits_chars fuel : forall n, 0 <= n -> 31 ∉ to_digits fuel n.
Proof.
  induction fuel as [|fuel IH]; intros n Hn; cbn [to_digits]; [set_solver|]. destruct (n <? 10) eqn:E; bool_props.
  - rewrite list_elem_of_singleton. lia.
  - rewrite elem_of_app, list_elem_of_singleton. pose proof (Z.mod_pos_bound n 10). intros [Hx|Hx]; [by apply IH in Hx; [|apply Z.div_pos; lia]|lia].
Qed.
Lemma to_string_inj a b : 0 <= a < 10 ^ 20 -> 0 <= b < 10 ^ 20 -> to_string a = to_string b -> a = b.
Proof. intros Ha Hb He. rewrite <- (to_digits_value 20 a), <- (to_digits_value 20 b) by done. by f_equal. Qed.

(** The text behind the last separator is determined. *)
Lemma split_last (x y a b : list Z) : (31 ∉ a) -> (31 ∉ b) -> x ++ [31] ++ a = y ++ [31] ++ b -> x = y /\ a = b.
Proof.
  revert b. induction a as [|c a IH] using rev_ind; intros b Ha Hb He; destruct b as [|d b _] using rev_ind.
  - rewrite !app_nil_r in He. by apply app_inj_tail in He as [-> _].
  - rewrite app_nil_r, !app_assoc in He. apply app_inj_tail in He as [_ <-]. set_solver.
  - rewrite app_nil_r, !app_assoc in He. apply app_inj_tail in He as [_ ->]. set_solver.
  - rewrite !app_assoc in He. apply app_inj_tail in He as [He ->]. rewrite <- !app_assoc in He.
    destruct (IH b) as [-> ->]; [set_solver..|done|done].
Qed.

Definition slot_of (r : MetadataAppendRequest) : list Z * Z * Z * Z :=
  (topic r, source_broker_id r, r_client_id r, client_batch_seq r).
(** Two requests have one key exactly when topic, broker, client and sequence
    number agree, also where a topic holds the separator. *)
Lemma SlotKey_inj r1 r2 : request_wf r1 -> request_wf r2 -> SlotKey r1 = SlotKey r2 <-> slot_of r1 = slot_of r2.
Proof.
  intros (_ & _ & B1 & _ & C1 & S1 & _) (_ & _ & B2 & _ & C2 & S2 & _). split; [|unfold SlotKey, slot_of; by intros [= -> -> -> ->]].
  assert (Hk : forall r, SlotKey r = ((topic r ++ [31] ++ to_string (source_broker_id r)) ++ [31] ++ to_string (r_client_id r)) ++ [31] ++
    to_string (client_batch_seq r)) by (intros ?; unfold SlotKey; by rewrite <- !app_assoc).
  rewrite !Hk. unfold is_u32, is_u64 in *. intros He.
  apply split_last in He as [He E3]; [|apply to_digits_chars; lia..].
  apply split_last in He as [He E2]; [|apply to_digits_chars; lia..].
  apply split_last in He as [E0 E1]; [|apply to_digits_chars; lia..].
  apply to_string_inj in E1, E2, E3; [|lia..]. unfold slot_of. congruence.
Qed.

(** * The sidecar as a history of requests *)
Section ledger.
  Context `{CodecOk}.
#[local] Abbreviation ser := SerializeToString.

Definition kReplayLimit : Z := Z.shiftl 1 20.
(** A request that [ReplaySidecar] reads back. *)
Definition storable (r : MetadataAppendRequest) : Prop :=
  request_wf r /\ topic r <> [] /\ Z.of_nat (length (ser r)) <= kReplayLimit.
Definition rec_bytes (r : MetadataAppendRequest) : list Z := record_header (ser r) ++ ser r.
Definition sidecar (h : list MetadataAppendRequest) : list Z := concat (rec_bytes <$> h).
Definition ledger (h : list MetadataAppendRequest) : gmap (list Z) (list Z) :=
  foldl (fun m r => <[SlotKey r := ser r]> m) ∅ h.

Lemma record_header_length e : length (record_header e) = kRecordHeaderBytes.
Proof. unfold record_header. by rewrite !length_app, !put_le_length. Qed.
Lemma rec_bytes_length r : length (rec_bytes r) = (16 + length (ser r))%nat.
Proof. unfold rec_bytes. by rewrite length_app, record_header_length. Qed.
Lemma sidecar_of_app h1 h2 : sidecar (h1 ++ h2) = sidecar h1 ++ sidecar h2.
Proof. unfold sidecar. by rewrite fmap_app, concat_app. Qed.
Lemma ledger_snoc h r : ledger (h ++ [r]) = <[SlotKey r := ser r]> (ledger h).
Proof. unfold ledger. by rewrite foldl_app. Qed.

(** The four fields of a header. *)
Lemma header_fields e : is_u32 (Z.of_nat (length e)) ->
  let h := record_header e in
  get_le 4 h = kRecordMagic /\ get_le 4 (drop 4 h) = kRecordVersion /\ get_le 4 (drop 8 h) = Z.of_nat (length e) /\
  get_le 4 (drop 12 h) = CorfuReplicaStore.Crc32c e.
Proof.
  intros He h. unfold h, record_header. rewrite (u32_id _ He).
  set (a := put_le 4 kRecordMagic). set (b := put_le 4 kRecordVersion). set (c := put_le 4 (Z.of_nat (length e))).
  set (d := put_le 4 (CorfuReplicaStore.Crc32c e)).
  assert (Ha : length a = 4%nat) by apply put_le_length. assert (Hb : length b = 4%nat) by apply put_le_length.
  assert (Hc : length c = 4%nat) by apply put_le_length.
  split_and!; [apply get_put_le; vm_compute; split; congruence| | |].
  - rewrite (drop_app_length' a) by done. apply get_put_le; vm_compute; split; congruence.
  - rewrite (app_assoc a b), drop_app_length' by (rewrite length_app; lia). apply get_put_le. by apply u32_bytes.
  - rewrite (app_assoc b c), (app_assoc a (b ++ c)), drop_app_length' by (rewrite !length_app; lia).
    rewrite <- (app_nil_r d). apply get_put_le, u32_bytes, CorfuReplicaStore.Crc32c_range.
Qed.

Lemma storable_length r : storable r -> (0 < length (ser r))%nat /\ is_u32 (Z.of_nat (length (ser r))).
Proof.
  intros (_ & Ht & Hl). pose proof (serialize_nonempty r Ht) as Hn. destruct (ser r); [done|].
  cbn [length] in *. unfold kReplayLimit, is_u32 in *. change (Z.shiftl 1 20) with 1048576 in Hl. lia.
Qed.

Lemma read_whole r f off post : storable r -> drop off f = rec_bytes r ++ post ->
  read_record f off = RRecord (SlotKey r) (ser r) (off + length (rec_bytes r)).
Proof.
  intros Hs Hd. destruct (storable_length r Hs) as [L1 L2]. destruct Hs as (Hwf & Ht & Hl).
  unfold read_record. rewrite <- (drop_drop f), Hd. unfold rec_bytes. rewrite <- app_assoc.
  rewrite (take_app_length' (record_header (ser r))), (drop_app_length' (record_header (ser r))) by (symmetry; apply record_header_length).
  rewrite record_header_length. cbn [Nat.eqb kRecordHeaderBytes negb].
  destruct (header_fields (ser r) L2) as (-> & -> & -> & ->). rewrite !Z.eqb_refl. cbn [negb orb].
  replace (_ =? 0) with false by lia. fold kReplayLimit. replace (_ >? kReplayLimit) with false by lia. cbn [orb].
  rewrite Nat2Z.id, take_app_length, !Z.eqb_refl. cbn [negb]. rewrite parse_serialize by done.
  destruct (topic r) eqn:Et; [done|]. cbn [length Nat.eqb]. f_equal. rewrite length_app, record_header_length. lia.
Qed.

Lemma read_torn r f off n : storable r -> (n < length (rec_bytes r))%nat -> drop off f = take n (rec_bytes r) ->
  read_record f off = REnd \/ read_record f off = RTorn.
Proof.
  intros Hs Hn Hd. destruct (storable_length r Hs) as [L1 L2]. destruct Hs as (Hwf & Ht & Hl).
  rewrite rec_bytes_length in Hn. unfold read_record. rewrite <- (drop_drop f), Hd, take_take.
  destruct (decide (n < 16)%nat) as [H16|H16].
  - rewrite length_take, rec_bytes_length. unfold kRecordHeaderBytes. replace (Nat.min _ _) with n by lia.
    destruct (n =? 0)%nat; [by left|]. right. by replace (n =? 16)%nat with false by (symmetry; apply Nat.eqb_neq; lia).
  - right. replace (Nat.min kRecordHeaderBytes n) with kRecordHeaderBytes by (unfold kRecordHeaderBytes; lia).
    unfold rec_bytes. rewrite (take_app_length' (record_header (ser r))) by (symmetry; apply record_header_length). rewrite record_header_length. cbn [Nat.eqb kRecordHeaderBytes negb].
    destruct (header_fields (ser r) L2) as (-> & -> & -> & _). rewrite !Z.eqb_refl. cbn [negb orb].
    replace (_ =? 0) with false by lia. fold kReplayLimit. replace (_ >? kReplayLimit) with false by lia. cbn [orb].
    rewrite Nat2Z.id. replace (Z.of_nat (length _) =? _) with false; [done|]. symmetry. apply Z.eqb_neq.
    rewrite length_take, length_drop, length_take, length_app, record_header_length. unfold kRecordHeaderBytes. lia.
Qed.

Lemma replay_from_sidecar h r n : forall fuel f off recs,
  Forall storable h -> storable r -> (n < length (rec_bytes r))%nat -> (length h < fuel)%nat ->
  drop off f = sidecar h ++ take n (rec_bytes r) ->
  replay_from fuel f off recs = Some (foldl (fun m r => <[SlotKey r := ser r]> m) recs h, (off + length (sidecar h))%nat).
Proof.
  induction h as [|x h IH]; intros fuel f off recs Hh Hr Hn Hf Hd; (destruct fuel as [|fuel]; [cbn in Hf; lia|]); cbn [replay_from].
  - destruct (read_torn r f off n Hr Hn Hd) as [-> | ->]; cbn; by rewrite Nat.add_0_r.
  - apply Forall_cons in Hh as [Hx Hh]. change (sidecar (x :: h)) with (rec_bytes x ++ sidecar h) in *. rewrite <- app_assoc in Hd.
    rewrite (read_whole x f off _ Hx Hd). rewrite IH; [|done..|cbn in Hf; lia|].
    + cbn [foldl]. f_equal. f_equal. rewrite length_app. lia.
    + rewrite <- drop_drop, Hd. by apply drop_app_length'.
Qed.
Lemma sidecar_length h : (length h <= length (sidecar h))%nat.
Proof. induction h as [|x h IH]; [done|]. change (sidecar (x :: h)) with (rec_bytes x ++ sidecar h). rewrite length_app, rec_bytes_length. cbn [length]. lia. Qed.

(** The file of a history, cut at any byte of the record after it. *)
Lemma Replay_sidecar h r n : Forall storable h -> storable r -> (n < length (rec_bytes r))%nat ->
  ReplaySidecar (sidecar h ++ take n (rec_bytes r)) = Some (ledger h, length (sidecar h)).
Proof.
  intros Hh Hr Hn. unfold ReplaySidecar. rewrite (replay_from_sidecar h r n); try done.
  rewrite length_app. pose proof (sidecar_length h). lia.
Qed.

(** ** Appends *)
(** The writes do not fail; with a clean append neither does the sync. *)
Definition io_writes (io : append_io) : Prop := (WError ∉ rcs io) /\ (WBytes 0 ∉ rcs io).
Definition io_clean (io : append_io) : Prop := io_writes io /\ sync_ok io = true.

Lemma WriteFully_spec l : forall f data ok f' l', WriteFully l f data = (ok, f', l') ->
  (exists n, f' = f ++ take n data) /\ (ok = true -> f' = f ++ data) /\
  ((WError ∉ l) -> (WBytes 0 ∉ l) -> ok = true /\ (WError ∉ l') /\ (WBytes 0 ∉ l')).
Proof.
  induction l as [|rc l IH]; intros f data ok f' l' Hw; destruct data as [|b data]; cbn [WriteFully length Nat.eqb] in Hw.
  1, 3: injection Hw as <- <- <-; split; [by exists 0%nat; rewrite take_0, app_nil_r|by rewrite app_nil_r].
  - injection Hw as <- <- <-. split; [exists (length (b :: data)); by rewrite firstn_all|done].
  - destruct rc as [| |[|n]].
    + destruct (IH _ _ _ _ _ Hw) as (H1 & H2 & H3). split_and!; [done..|]. intros. apply H3; set_solver.
    + injection Hw as <- <- <-. split; [by exists 0%nat; rewrite take_0, app_nil_r|]. split; [done|]. set_solver.
    + injection Hw as <- <- <-. split; [by exists 0%nat; rewrite take_0, app_nil_r|]. split; [done|]. set_solver.
    + destruct (IH _ _ _ _ _ Hw) as ([m ->] & H2 & H3). split_and!.
      * exists (S n + m)%nat. by rewrite <- app_assoc, <- take_take_drop.
      * intros Hok. by rewrite H2, <- app_assoc, take_drop.
      * intros. apply H3; set_solver.
Qed.

Lemma AppendRecord_bytes io f r ok f' : topic r <> [] -> is_u32 (Z.of_nat (length (ser r))) ->
  AppendRecord io f (ser r) = (ok, f') ->
  (exists n, f' = f ++ take n (rec_bytes r)) /\ (ok = true -> f' = f ++ rec_bytes r) /\
  (io_writes io -> ok = sync_ok io /\ f' = f ++ rec_bytes r).
Proof.
  intros Ht Hu Ha. pose proof (serialize_nonempty r Ht) as Hn. unfold AppendRecord in Ha.
  replace (length (ser r) =? 0)%nat with false in Ha by (symmetry; apply Nat.eqb_neq; by destruct (ser r)).
  replace (_ >? 4294967295) with false in Ha by (unfold is_u32 in Hu; lia). cbn [orb] in Ha.
  destruct (WriteFully (rcs io) f _) as [[ok1 f1] l1] eqn:E1. destruct (WriteFully_spec _ _ _ _ _ _ E1) as ([n1 Hn1] & W1 & C1).
  assert (Hhead : forall n, exists m, take n (record_header (ser r)) = take m (rec_bytes r)).
  { intros n. exists (Nat.min n 16). unfold rec_bytes. rewrite take_app_le by (rewrite record_header_length; unfold kRecordHeaderBytes; lia).
    rewrite <- (take_take _ n 16). done. }
  destruct ok1; cbn [negb] in Ha.
  - rewrite W1 in Ha by done. destruct (WriteFully l1 _ _) as [[ok2 f2] l2] eqn:E2. destruct (WriteFully_spec _ _ _ _ _ _ E2) as ([n2 Hn2] & W2 & C2).
    assert (H3 : exists n, f2 = f ++ take n (rec_bytes r)).
    { exists (16 + n2)%nat. rewrite Hn2. unfold rec_bytes. by rewrite <- app_assoc. }
    destruct ok2; cbn [negb] in Ha; injection Ha as <- <-.
    + assert (f2 = f ++ rec_bytes r) by (rewrite W2 by done; unfold rec_bytes; by rewrite <- app_assoc). done.
    + split; [done|]. split; [done|]. intros (I1 & I2). destruct (C1 I1 I2) as (_ & J1 & J2). by destruct (C2 J1 J2).
  - injection Ha as <- <-. destruct (Hhead n1) as [m Hm]. split; [exists m; by rewrite Hn1, Hm|]. split; [done|].
    intros (I1 & I2). by destruct (C1 I1 I2).
Qed.

(** The file holds the records [h]: those of the store, and those of appends that
    were written and not synced, of requests of [tried]. *)
Definition store_ok (tried : list MetadataAppendRequest) (synced : bool) (s : Store) : Prop :=
  exists h, Forall storable h /\ fd_open s = true /\ file s = sidecar h /\ records s ⊆ ledger h /\
    (forall k e, ledger h !! k = Some e -> records s !! k = Some e \/ exists r, r ∈ tried /\ k = SlotKey r /\ e = ser r) /\
    (synced = true -> records s = ledger h).

Definition small (r : MetadataAppendRequest) : Prop := request_wf r /\ Z.of_nat (length (ser r)) <= kReplayLimit.

Lemma store_ok_weaken tried tried' synced synced' s :
  tried ⊆ tried' -> (synced' = true -> synced = true) -> store_ok tried synced s -> store_ok tried' synced' s.
Proof. intros Ht Hs (h & H1 & H2 & H3 & H4 & H5 & H6). exists h. split_and!; try done; [|by auto]. naive_solver. Qed.

Lemma Append_writes tried synced io s r res s' :
  store_ok tried synced s -> io_writes io -> small r -> Append io s r = (res, s') ->
  store_ok (tried ++ [r]) (synced && sync_ok io) s'.
Proof.
  intros Hok Hc [Hwf Hl] Ha.
  assert (Hsame : store_ok (tried ++ [r]) (synced && sync_ok io) s).
  { eapply store_ok_weaken; [| |exact Hok]; [set_solver|]. by intros [? _]%andb_true_iff. }
  destruct Hok as (h & Hh & Ho & Hf & Hsub & Hinv & Hsyn).
  unfold Append in Ha. destruct (_ =? 0)%nat eqn:Et; [by injection Ha as <- <-|].
  assert (Hst : storable r) by (split_and!; [done|intros E; by rewrite E in Et|done]).
  rewrite Ho in Ha. cbn [negb] in Ha. destruct (records s !! SlotKey r) eqn:Er; [by injection Ha as <- <-|].
  destruct (AppendRecord io (file s) (ser r)) as [ok f] eqn:Ea.
  destruct (AppendRecord_bytes io (file s) r ok f (proj1 (proj2 Hst)) (proj2 (storable_length r Hst)) Ea) as (_ & _ & A3).
  destruct (A3 Hc) as [-> ->]. assert (Hh' : Forall storable (h ++ [r])) by (by apply Forall_app_2; [|constructor]).
  assert (Hfile : file s ++ rec_bytes r = sidecar (h ++ [r])) by (rewrite Hf, sidecar_of_app; cbn; by rewrite app_nil_r).
  destruct (sync_ok io); cbn [negb] in Ha; injection Ha as <- <-; exists (h ++ [r]); rewrite ledger_snoc; cbn;
    (split; [exact Hh'|split; [exact Ho|split; [exact Hfile|split; [|split]]]]).
  - by apply insert_mono.
  - intros k e [[<- <-]|[Hne He]]%lookup_insert_Some; [left; apply lookup_insert_eq|]. rewrite lookup_insert_ne by done.
    destruct (Hinv k e He) as [?|(x & ? & ?)]; [by left|right; exists x; set_solver].
  - rewrite andb_true_r. intros Hs. by rewrite Hsyn.
  - by apply insert_subseteq_r.
  - intros k e [[<- <-]|[Hne He]]%lookup_insert_Some; [right; exists r; set_solver|].
    destruct (Hinv k e He) as [?|(x & ? & ?)]; [by left|right; exists x; set_solver].
  - by rewrite andb_false_r.
Qed.

Definition appends (s : Store) (l : list (append_io * MetadataAppendRequest)) : Store :=
  foldl (fun s x => (Append x.1 s x.2).2) s l.

Lemma appends_ok l : forall tried synced s, store_ok tried synced s -> Forall (fun x => io_writes x.1 /\ small x.2) l ->
  store_ok (tried ++ l.*2) (synced && forallb (fun x => sync_ok x.1) l) (appends s l).
Proof.
  induction l as [|[io r] l IH]; intros tried synced s Hs Hl; [cbn; by rewrite app_nil_r, andb_true_r|].
  apply Forall_cons in Hl as [[Hc Hz] Hl]. cbn. destruct (Append io s r) as [res s'] eqn:Ea. cbn [snd].
  rewrite cons_middle, app_assoc, andb_assoc. apply IH; [|done]. by eapply Append_writes.
Qed.

Lemma fresh_appends_ok l : Forall (fun x => io_writes x.1 /\ small x.2) l ->
  store_ok l.*2 (forallb (fun x => sync_ok x.1) l) (appends (mkStore true ∅ []) l).
Proof. intros Hl. apply (appends_ok l [] true); [|done]. exists []. by split_and!. Qed.

(** C32. A replica that crashes at any byte of an append can be opened again.
    The appends before it have records of at most 2^20 bytes and writes that may
    be short or interrupted but do not fail; their syncs may fail.  The store
    then has the records of the completed appends, unchanged, otherwise only
    records of appends whose sync failed, and none where no sync did; the last
    record is there if all its bytes were written, and the file ends with a
    whole record. *)
Theorem metadata_survives_crash l r n :
  Forall (fun x => io_writes x.1 /\ small x.2) l -> storable r ->
  let s := appends (mkStore true ∅ []) l in
  let crashed := mkStore false ∅ (file s ++ take n (rec_bytes r)) in
  exists recs, records s ⊆ recs /\
    (forall k e, recs !! k = Some e -> records s !! k = Some e \/ exists x, x ∈ l.*2 /\ k = SlotKey x /\ e = ser x) /\
    (forallb (fun x => sync_ok x.1) l = true -> recs = records s) /\
    Open true crashed = (true, if (n <? length (rec_bytes r))%nat then mkStore true recs (file s)
                               else mkStore true (<[SlotKey r := ser r]> recs) (file s ++ rec_bytes r)).
Proof.
  intros Hl Hr s crashed. destruct (fresh_appends_ok l Hl) as (h & Hh & Ho & Hf & Hsub & Hinv & Hsyn).
  fold s in Ho, Hf, Hsub, Hinv, Hsyn. exists (ledger h). split; [done|split; [done|split; [by intros ?%Hsyn|]]].
  unfold crashed, Open. cbn [fd_open file]. rewrite Hf. destruct (n <? length (rec_bytes r))%nat eqn:Hn.
  - apply Nat.ltb_lt in Hn. rewrite Replay_sidecar by done. by rewrite andb_false_r, take_app_length.
  - apply Nat.ltb_ge in Hn. rewrite firstn_all2 by lia.
    pose proof (Replay_sidecar (h ++ [r]) r 0 ltac:(by apply Forall_app_2; [|constructor]) Hr) as Hrep.
    rewrite take_0, app_nil_r, sidecar_of_app in Hrep. cbn [sidecar fmap list_fmap concat] in Hrep. rewrite app_nil_r in Hrep.
    rewrite Hrep by (rewrite rec_bytes_length; lia). by rewrite andb_false_r, firstn_all, ledger_snoc.
Qed.

(** An append of more than 2^20 bytes is accepted and synced, and the sidecar
    can never be opened again. *)
Theorem oversized_append_blocks_open l r io :
  Forall (fun x => io_writes x.1 /\ small x.2) l -> topic r <> [] -> io_clean io ->
  kReplayLimit < Z.of_nat (length (ser r)) < 2 ^ 32 -> records (appends (mkStore true ∅ []) l) !! SlotKey r = None ->
  let '(res, s) := Append io (appends (mkStore true ∅ []) l) r in
  res = Some false /\ forall rest b, (Open b (mkStore false ∅ (file s ++ rest))).1 = false.
Proof.
  intros Hl Ht [Hc Hsync] Hbig Hnone. destruct (fresh_appends_ok l Hl) as (h & Hh & Ho & Hf & _).
  set (s0 := appends _ l) in *. clearbody s0. assert (Hu : is_u32 (Z.of_nat (length (ser r)))) by (unfold is_u32; lia).
  unfold Append. destruct (topic r) as [|t tl] eqn:Et; [done|]. cbn [length Nat.eqb]. rewrite Ho, Hnone. cbn [negb].
  destruct (AppendRecord io (file s0) (ser r)) as [ok f] eqn:Ea. rewrite <- Et in Ht.
  destruct (AppendRecord_bytes io (file s0) r ok f Ht Hu Ea) as (_ & _ & A3).
  destruct (A3 Hc) as [-> ->]. rewrite Hsync. cbn [negb].
  split; [done|]. intros rest b. unfold Open. cbn -[ReplaySidecar rec_bytes sidecar]. rewrite Hf, <- app_assoc.
  assert (Hr : forall h fuel g off recs, Forall storable h -> drop off g = sidecar h ++ rec_bytes r ++ rest -> replay_from fuel g off recs = None).
  { intros h'. induction h' as [|x h' IH]; intros fuel g off recs Hh' Hd; (destruct fuel as [|fuel]; [done|]); cbn [replay_from].
    - change (sidecar [] ++ rec_bytes r ++ rest) with (rec_bytes r ++ rest) in Hd. unfold read_record. rewrite Hd. unfold rec_bytes. rewrite <- app_assoc.
      rewrite (take_app_length' (record_header (ser r))) by (symmetry; apply record_header_length). rewrite record_header_length.
      cbn [Nat.eqb kRecordHeaderBytes negb]. destruct (header_fields (ser r) Hu) as (-> & -> & -> & _). rewrite !Z.eqb_refl. cbn [negb orb].
      fold kReplayLimit. replace (_ >? kReplayLimit) with true by lia. by rewrite orb_true_r.
    - apply Forall_cons in Hh' as [Hx Hh']. change (sidecar (x :: h')) with (rec_bytes x ++ sidecar h') in Hd. rewrite <- app_assoc in Hd.
      rewrite (read_whole x g off _ Hx Hd). apply IH; [done|]. rewrite <- drop_drop, Hd. by apply drop_app_length'. }
  unfold ReplaySidecar. by rewrite (Hr h).
Qed.
End ledger.

(** * The service and the client *)

(** A failed append, a conflict included, is the status FAILED_PRECONDITION. *)
Definition AppendMetadata `{Codec} (io : append_io) (s : Store) (r : MetadataAppendRequest) : bool * bool * Store :=
  match Append io s r with
  | (None, s) => (false, false, s)
  | (Some _, s) => (true, true, s)
  end.

(** One call over the network: the request or the reply may be lost. *)
Inductive rpc := Delivered (io : append_io) | LostRequest | LostReply (io : append_io).
Definition call_rpc `{Codec} (c : rpc) (s : Store) (r : MetadataAppendRequest) : bool * bool * Store :=
  match c with
  | Delivered io => AppendMetadata io s r
  | LostRequest => (false, false, s)
  | LostReply io => let '(_, s) := AppendMetadata io s r in (false, false, s)
  end.
(** The attempts of one replica; [calls] is what happens to them, and the
    requests after the listed ones are lost. *)
Fixpoint replica_call `{Codec} (attempts : nat) (calls : list rpc) (s : Store) (r : MetadataAppendRequest) : bool * Store :=
  match attempts with
  | O => (false, s)
  | S attempts =>
      let '(status_ok, success, s) := call_rpc (default LostRequest (head calls)) s r in
      if status_ok && success then (true, s)
      else if status_ok then (false, s)
      else replica_call attempts (tail calls) s r
  end.
(** Every call ends before the result is given. *)
Definition AppendToAll `{Codec} (max_attempts : nat) (calls : list (list rpc)) (replicas : list Store) (r : MetadataAppendRequest) :
    bool * list Store :=
  if (length replicas =? 0)%nat then (false, replicas)
  else
    let results := imap (fun i s => replica_call max_attempts (default [] (calls !! i)) s r) replicas in
    (forallb fst results, results.*2).

Section client.
  Context `{CodecOk}.

Definition grows (s s' : Store) : Prop := records s ⊆ records s'.
Lemma grows_refl s : grows s s.
Proof. unfold grows. done. Qed.
Lemma grows_all l : Forall2 grows l l.
Proof. apply Forall_Forall2_diag, Forall_true, grows_refl. Qed.
Lemma Append_grows io s r res s' : Append io s r = (res, s') ->
  grows s s' /\ (res <> None -> records s' !! SlotKey r = Some (SerializeToString r)).
Proof.
  unfold Append, grows. destruct (_ =? 0)%nat; [by intros [= <- <-]|]. destruct (fd_open s); cbn [negb]; [|by intros [= <- <-]].
  destruct (records s !! SlotKey r) as [e|] eqn:Ek.
  - intros [= <- <-]. split; [done|]. case_bool_decide; [by subst|done].
  - destruct (AppendRecord _ _ _) as [[] f]; intros [= <- <-]; [|done]. cbn. split; [by apply insert_subseteq|]. by rewrite lookup_insert_eq.
Qed.
Lemma call_rpc_grows c s r st su s' : call_rpc c s r = (st, su, s') ->
  grows s s' /\ (st && su = true -> records s' !! SlotKey r = Some (SerializeToString r)).
Proof.
  destruct c as [io| |io]; cbn [call_rpc]; [| |]; unfold AppendMetadata.
  - destruct (Append io s r) as [[a|] s1] eqn:Ea; apply Append_grows in Ea as [G1 G2]; intros [= <- <- <-]; (split; [exact G1|try discriminate]); intros _; by apply G2.
  - intros [= <- <- <-]. split; [apply grows_refl|discriminate].
  - destruct (Append io s r) as [[a|] s1] eqn:Ea; apply Append_grows in Ea as [G1 G2]; intros [= <- <- <-]; (split; [exact G1|discriminate]).
Qed.
Lemma replica_call_grows n : forall calls s r ok s', replica_call n calls s r = (ok, s') ->
  grows s s' /\ (ok = true -> records s' !! SlotKey r = Some (SerializeToString r)).
Proof.
  induction n as [|n IH]; intros calls s r ok s'; cbn [replica_call]; [intros [= <- <-]; split; [apply grows_refl|discriminate]|].
  destruct (call_rpc _ s r) as [[st su] s1] eqn:Ec. apply call_rpc_grows in Ec as [G1 G2].
  destruct st, su; cbn [andb]; [intros [= <- <-]; split; auto|intros [= <- <-]; split; [exact G1|discriminate]| |];
    intros Hr; apply IH in Hr as [G3 G4]; (split; [unfold grows in *; by etrans|exact G4]).
Qed.

Definition holds (replicas : list Store) (r : MetadataAppendRequest) : Prop :=
  Forall (fun s => records s !! SlotKey r = Some (SerializeToString r)) replicas.

Lemma AppendToAll_holds n calls l r ok l' : AppendToAll n calls l r = (ok, l') ->
  Forall2 grows l l' /\ (ok = true -> l' <> [] /\ holds l' r).
Proof.
  unfold AppendToAll. destruct (_ =? 0)%nat eqn:E0; [intros [= <- <-]; split; [apply grows_all|done]|].
  intros [= <- <-]. set (g := fun i s => _). assert (Hlen : length (imap g l).*2 = length l) by (by rewrite length_fmap, length_imap).
  assert (Hi : forall i s, l !! i = Some s -> (imap g l).*2 !! i = Some (g i s).2) by (intros i s Hs; by rewrite list_lookup_fmap, list_lookup_imap, Hs).
  split.
  - apply Forall2_same_length_lookup_2; [done|]. intros i s s' Hs Hs'. rewrite (Hi i s Hs) in Hs'. injection Hs' as <-.
    unfold g. destruct (replica_call _ _ s r) eqn:E. by apply replica_call_grows in E as [? _].
  - intros Hall. split; [intros E; rewrite E in Hlen; destruct l; [by cbn in E0|done]|]. apply Forall_lookup. intros i s' Hs'.
    destruct (lookup_lt_is_Some_2 l i) as [s Hs]; [rewrite <- Hlen; by eapply lookup_lt_Some|]. rewrite (Hi i s Hs) in Hs'. injection Hs' as <-.
    rewrite List.forallb_forall in Hall. specialize (Hall (g i s)). unfold g in *. destruct (replica_call _ _ s r) as [ok s1] eqn:E.
    destruct (replica_call_grows _ _ _ _ _ _ E) as [_ E2]. apply E2, Hall. apply list_elem_of_In, list_elem_of_lookup. exists i.
    rewrite list_lookup_imap, Hs. cbn. by rewrite E.
Qed.

Lemma grows_all_trans l1 : forall l2 l3, Forall2 grows l1 l2 -> Forall2 grows l2 l3 -> Forall2 grows l1 l3.
Proof.
  induction l1 as [|a l1 IH]; intros l2 l3 H1 H2; [apply Forall2_nil_inv_l in H1 as ->; done|].
  apply Forall2_cons_inv_l in H1 as (b & l2' & Hab & H1 & ->). apply Forall2_cons_inv_l in H2 as (c & l3' & Hbc & H2 & ->).
  constructor; [unfold grows in *; by etrans|by eapply IH].
Qed.

(** A run of appends to all replicas, of which [calls] says what happens. *)
Definition client_run (n : nat) (replicas : list Store) (l : list (list (list rpc) * MetadataAppendRequest)) : list Store :=
  foldl (fun s x => (AppendToAll n x.1 s x.2).2) replicas l.
Lemma client_run_grows n l : forall replicas, Forall2 grows replicas (client_run n replicas l).
Proof.
  induction l as [|[calls r] l IH]; intros replicas; cbn; [apply grows_all|].
  destruct (AppendToAll n calls replicas r) as [ok l'] eqn:E. apply AppendToAll_holds in E as [E _].
  eapply grows_all_trans; [exact E|apply IH].
Qed.

(** C33. Whatever requests and replies are lost and whatever system calls fail, an
    append that was completed is at every replica and stays there, and no other
    descriptor for its slot is completed. *)
Theorem completed_metadata_is_immutable n replicas calls r replicas1 l replicas2 calls' r' replicas3 :
  request_wf r -> request_wf r' ->
  AppendToAll n calls replicas r = (true, replicas1) -> client_run n replicas1 l = replicas2 ->
  holds replicas2 r /\
  (AppendToAll n calls' replicas2 r' = (true, replicas3) -> slot_of r' = slot_of r -> r' = r).
Proof.
  intros Hw Hw' H1 H2. apply AppendToAll_holds in H1 as [_ H1]. destruct (H1 eq_refl) as [Hne Hh]. pose proof (client_run_grows n l replicas1) as Hg. rewrite H2 in Hg.
  assert (Hh2 : holds replicas2 r).
  { apply Forall_lookup. intros i s Hs. destruct (Forall2_lookup_r _ _ _ _ _ Hg Hs) as (s1 & Hs1 & Hsub).
    eapply lookup_weaken; [|exact Hsub]. unfold holds in Hh. rewrite Forall_lookup in Hh. by eapply Hh. }
  split; [done|]. intros H3 Hslot. apply AppendToAll_holds in H3 as [Hg3 H3]. destruct (H3 eq_refl) as [_ Hh3].
  destruct replicas2 as [|s2 rest2]; [apply Forall2_length in Hg; destruct replicas1; [done|discriminate]|].
  apply Forall2_cons_inv_l in Hg3 as (s3 & rest3 & Hsub & _ & ->). apply Forall_cons in Hh2 as [Hs2 _], Hh3 as [Hs3 _].
  rewrite (proj2 (SlotKey_inj r' r Hw' Hw) Hslot) in Hs3. pose proof (lookup_weaken _ _ _ _ Hs2 Hsub) as Hs3'.
  pose proof (parse_serialize r Hw). pose proof (parse_serialize r' Hw'). congruence.
Qed.
End client.

(** * An instance of the codec *)
#[local] Instance fields_codec : Codec := {
  SerializeToString r :=
    put_le 4 (Z.of_nat (length (topic r))) ++ topic r ++ put_le 4 (source_broker_id r) ++ put_le 8 (source_batch_seq r) ++
    put_le 4 (r_client_id r) ++ put_le 8 (client_batch_seq r) ++ put_le 8 (payload_offset r) ++ put_le 8 (payload_size r) ++
    put_le 4 (num_messages r);
  ParseFromString p :=
    '(n, p) ← CorfuReplicaStore.Get 4 p;
    let t := take (Z.to_nat n) p in
    let p := drop (Z.to_nat n) p in
    '(b, p) ← CorfuReplicaStore.Get 4 p; '(sb, p) ← CorfuReplicaStore.Get 8 p; '(c, p) ← CorfuReplicaStore.Get 4 p;
    '(cs, p) ← CorfuReplicaStore.Get 8 p; '(o, p) ← CorfuReplicaStore.Get 8 p; '(z, p) ← CorfuReplicaStore.Get 8 p;
    '(m, p) ← CorfuReplicaStore.Get 4 p; Some (mkRequest t b sb c cs o z m);
}.
#[local] Instance fields_codec_ok : CodecOk.
Proof.
  constructor.
  - intros r (W1 & W2 & W3 & W4 & W5 & W6 & W7 & W8 & W9). cbn [ParseFromString SerializeToString fields_codec].
    rewrite CorfuReplicaStore.Get_Put by (by apply u32_bytes). cbn [mbind option_bind]. rewrite Nat2Z.id, take_app_length, drop_app_length.
    rewrite CorfuReplicaStore.Get_Put by (by apply u32_bytes). cbn [mbind option_bind].
    rewrite CorfuReplicaStore.Get_Put by (by apply u64_bytes). cbn [mbind option_bind].
    rewrite CorfuReplicaStore.Get_Put by (by apply u32_bytes). cbn [mbind option_bind].
    do 3 (rewrite CorfuReplicaStore.Get_Put by (by apply u64_bytes); cbn [mbind option_bind]).
    rewrite CorfuReplicaStore.Get_Put_nil by (by apply u32_bytes). by destruct r.
  - intros r _ E. apply (f_equal length) in E. cbn [SerializeToString fields_codec] in E. rewrite length_app, put_le_length in E. discriminate.
Qed.

Definition demo_request (seq size : Z) : MetadataAppendRequest := mkRequest [116; 49] 1 seq 7 seq 0 size 3.
Lemma demo_request_wf seq size : is_u64 seq -> is_u64 size -> request_wf (demo_request seq size).
Proof. intros. unfold request_wf, demo_request. cbn. split_and!; try done; [by repeat constructor|unfold is_u32, is_u64; lia..]. Qed.
Definition clean_io : append_io := mkIo [WInterrupted; WBytes 5] true.
Lemma clean_io_ok : io_clean clean_io.
Proof. split; [split; set_solver|done]. Qed.

Lemma metadata_survives_crash_witness :
  let l := [(clean_io, demo_request 0 64)] in
  let s := appends (mkStore true ∅ []) l in
  Open true (mkStore false ∅ (file s ++ take 20 (rec_bytes (demo_request 1 64)))) = (true, mkStore true (records s) (file s)).
Proof.
  intros l s.
  assert (W0 : request_wf (demo_request 0 64)) by (apply demo_request_wf; unfold is_u64; lia).
  assert (W1 : request_wf (demo_request 1 64)) by (apply demo_request_wf; unfold is_u64; lia).
  assert (L0 : Z.of_nat (length (SerializeToString (demo_request 0 64))) <= kReplayLimit) by (vm_compute; congruence).
  assert (L1 : Z.of_nat (length (SerializeToString (demo_request 1 64))) <= kReplayLimit) by (vm_compute; congruence).
  destruct (metadata_survives_crash l (demo_request 1 64) 20) as (recs & _ & _ & Hs & Ho).
  - constructor; [|constructor]. split; [apply clean_io_ok|split; [exact W0|exact L0]].
  - split; [exact W1|]. split; [discriminate|exact L1].
  - rewrite Hs in Ho by (vm_compute; reflexivity). exact Ho.
Defined.

Lemma completed_metadata_is_immutable_witness :
  let r := demo_request 0 64 in
  let replicas := [mkStore true ∅ []; mkStore true ∅ []] in
  let replicas1 := (AppendToAll 3 [[LostRequest; Delivered clean_io]; [LostReply clean_io; Delivered clean_io]] replicas r).2 in
  holds (client_run 3 replicas1 [([[Delivered clean_io]; [Delivered clean_io]], demo_request 0 65)]) r.
Proof.
  intros r replicas replicas1. assert (W0 : request_wf r) by (apply demo_request_wf; unfold is_u64; lia).
  refine (proj1 (completed_metadata_is_immutable 3 replicas [[LostRequest; Delivered clean_io]; [LostReply clean_io; Delivered clean_io]] r replicas1
    [([[Delivered clean_io]; [Delivered clean_io]], demo_request 0 65)] _ [] r [] W0 W0 _ eq_refl)).
  vm_compute. reflexivity.
Defined.

(** * What the code does not handle *)

(** The bytes of a failed append stay in the file.  A later append is
    acknowledged, and then the sidecar cannot be opened. *)
Definition failed_then_acknowledged : option bool * option bool * Store :=
  let '(res1, s) := Append (mkIo [WBytes 16; WBytes 9; WError] true) (mkStore true ∅ []) (demo_request 0 64) in
  let '(res2, s) := Append clean_io s (demo_request 1 64) in (res1, res2, s).
Example failed_append_blocks_open :
  failed_then_acknowledged.1 = (None, Some false) /\
  (Open true (mkStore false ∅ (file failed_then_acknowledged.2))).1 = false.
Proof. split; vm_compute; reflexivity. Qed.

(** A conflict is answered with an error status, which the client takes for a
    failure of the transport and tries again until its attempts are used. *)
Lemma conflict_is_retried `{Codec} n io calls s r e :
  records s !! SlotKey r = Some e -> e <> SerializeToString r ->
  replica_call (S n) (Delivered io :: calls) s r = replica_call n calls s r.
Proof.
  intros He Hne. cbn [replica_call head tail]. change (default LostRequest (Some (Delivered io))) with (Delivered io).
  unfold call_rpc, AppendMetadata, Append.
  destruct (_ =? 0)%nat; [done|]. destruct (fd_open s); [|done]. cbn [negb]. rewrite He. by rewrite bool_decide_false.
Qed.

End MetadataReplicaStore.
