(* ===== verification/AckReader.v ===== *)
(** The acknowledgement sockets of a publisher
    ([Publisher::EpollAckThread] of src/client/publisher_ack.cc): how the bytes
    of a connection, in whatever pieces they are received, become the broker's
    id, cumulative counts and fence reports. *)

From S2P Require Import Prelude Bytes.

Definition kSessionControlMagic : Z := 0x53455346.
Definition kMaxSessionControlPayload : Z := 64 * 1024.

(** What a complete value of a connection leads to. *)
Inductive ack_event := AckValue (broker value : Z) | FenceReport (broker : Z) (payload : list Z).

(** [partial] holds the bytes received of the id or of the value. *)
Inductive ConnState := WAITING_FOR_ID (partial : list Z) | READING_ACKS (broker : Z) (partial : list Z) | CLOSED.

(** What a call of recv returns: at most [S n] bytes, or no data now, an
    interruption, an error, the end of the stream. *)
Inductive recv_rc := RBytes (n : nat) | RAgain | RIntr | RError | REof.

(** [unread] is what the broker sends and was not received yet. *)
Record AckConn := mkAckConn {
  conn : ConnState;
  unread : list Z;
  events : list ack_event;
}.

Definition as_int (z : Z) : Z := if z >=? 2 ^ 31 then z - 2 ^ 32 else z.

Section reader.
  (** The number of brokers, and whether Protocol Buffers can parse a report. *)
  Context (num_brokers : Z) (parses : list Z -> bool).

Definition valid_broker (id : Z) : bool := negb ((id <? 0) || (id >=? num_brokers)).

(** The payload of a report is read in blocking mode until it is complete or a
    call returns no bytes. *)
Fixpoint read_control (rcs : list recv_rc) (need : nat) (bytes got : list Z) : option (list Z) * list Z * list recv_rc :=
  if (need =? 0)%nat then (Some got, bytes, rcs)
  else
    match rcs with
    | RBytes n :: rcs =>
        let chunk := take (Nat.min (S n) need) bytes in
        if (length chunk =? 0)%nat then (None, bytes, rcs)
        else read_control rcs (need - length chunk) (drop (length chunk) bytes) (got ++ chunk)
    | _ :: rcs => (None, bytes, rcs)
    | [] => (None, bytes, [])
    end.

(** A complete value of eight bytes. *)
Definition full_value (rcs : list recv_rc) (broker : Z) (value : list Z) (c : AckConn) : AckConn * list recv_rc :=
  let acked_msg := get_le 8 value in
  let maybe_magic := Z.land acked_msg 0xFFFFFFFF in
  let control_len := Z.land (Z.shiftr acked_msg 32) 0xFFFFFFFF in
  if maybe_magic =? kSessionControlMagic then
    if (control_len =? 0) || (control_len >? kMaxSessionControlPayload) then (mkAckConn CLOSED (unread c) (events c), rcs)
    else
      match read_control rcs (Z.to_nat control_len) (unread c) [] with
      | (None, bytes, rcs) => (mkAckConn CLOSED bytes (events c), rcs)
      | (Some payload, bytes, rcs) =>
          if negb (parses payload) then (mkAckConn CLOSED bytes (events c), rcs)
          else (mkAckConn (READING_ACKS broker []) bytes (events c ++ [FenceReport broker payload]), rcs)
      end
  else if negb (valid_broker broker) then (mkAckConn CLOSED (unread c) (events c), rcs)
  else (mkAckConn (READING_ACKS broker []) (unread c) (events c ++ [AckValue broker acked_msg]), rcs).

(** One turn of the loop over a socket.  Without data the thread returns to
    epoll and comes back in the same state. *)
Definition ack_turn (rc : recv_rc) (rcs : list recv_rc) (c : AckConn) : AckConn * list recv_rc :=
  match conn c, rc with
  | CLOSED, _ => (c, rcs)
  | _, (RAgain | RIntr) => (c, rcs)
  | _, (RError | REof) => (mkAckConn CLOSED (unread c) (events c), rcs)
  | WAITING_FOR_ID partial, RBytes n =>
      let chunk := take (Nat.min (S n) (4 - length partial)) (unread c) in
      let partial := partial ++ chunk in
      let c := mkAckConn (WAITING_FOR_ID partial) (drop (length chunk) (unread c)) (events c) in
      if (length partial =? 4)%nat then
        let id := as_int (get_le 4 partial) in
        if negb (valid_broker id) then (mkAckConn CLOSED (unread c) (events c), rcs)
        else (mkAckConn (READING_ACKS id []) (unread c) (events c), rcs)
      else (c, rcs)
  | READING_ACKS broker partial, RBytes n =>
      let chunk := take (Nat.min (S n) (8 - length partial)) (unread c) in
      let partial := partial ++ chunk in
      let c := mkAckConn (READING_ACKS broker partial) (drop (length chunk) (unread c)) (events c) in
      if negb (length partial =? 8)%nat then (c, rcs) else full_value rcs broker partial c
  end.
Fixpoint ack_run (fuel : nat) (rcs : list recv_rc) (c : AckConn) : AckConn :=
  match fuel, rcs with
  | S fuel, rc :: rcs => let '(c, rcs) := ack_turn rc rcs c in ack_run fuel rcs c
  | _, _ => c
  end.
Definition read_acks (rcs : list recv_rc) (stream : list Z) : AckConn :=
  ack_run (length rcs) rcs (mkAckConn (WAITING_FOR_ID []) stream []).

(** * The stream as a whole *)

(** The events of a stream from a value on. *)
Fixpoint ack_values (fuel : nat) (broker : Z) (bytes : list Z) : list ack_event :=
  match fuel with
  | O => []
  | S fuel =>
      if (length bytes <? 8)%nat then []
      else
        let v := get_le 8 (take 8 bytes) in
        let rest := drop 8 bytes in
        let len := Z.land (Z.shiftr v 32) 0xFFFFFFFF in
        if Z.land v 0xFFFFFFFF =? kSessionControlMagic then
          if (len =? 0) || (len >? kMaxSessionControlPayload) || (Z.of_nat (length rest) <? len) then []
          else
            let payload := take (Z.to_nat len) rest in
            if parses payload then FenceReport broker payload :: ack_values fuel broker (drop (Z.to_nat len) rest) else []
        else AckValue broker v :: ack_values fuel broker rest
  end.
Definition values_of (broker : Z) (bytes : list Z) : list ack_event := ack_values (length bytes) broker bytes.
Definition events_of (bytes : list Z) : list ack_event :=
  if (length bytes <? 4)%nat then []
  else
    let id := as_int (get_le 4 (take 4 bytes)) in
    if valid_broker id then values_of id (drop 4 bytes) else [].

Lemma ack_values_fuel broker : forall f1 f2 bytes, (length bytes <= f1)%nat -> (length bytes <= f2)%nat ->
  ack_values f1 broker bytes = ack_values f2 broker bytes.
Proof.
  induction f1 as [|f1 IH]; intros f2 bytes H1 H2; [destruct bytes; [|cbn in H1; lia]; by destruct f2|].
  destruct f2 as [|f2]; [destruct bytes; [done|cbn in H2; lia]|]. cbn [ack_values].
  destruct (_ <? 8)%nat eqn:E8; [done|]. apply Nat.ltb_ge in E8. destruct (_ =? kSessionControlMagic); [|f_equal; apply IH; rewrite length_drop; lia].
  destruct (_ || _); [done|]. destruct (parses _); [|done]. f_equal. apply IH; rewrite !length_drop; lia.
Qed.
Lemma values_of_short broker bytes : (length bytes < 8)%nat -> values_of broker bytes = [].
Proof. intros Hl. unfold values_of. destruct bytes; [done|]. cbn [length ack_values]. by replace (_ <? 8)%nat with true by (symmetry; apply Nat.ltb_lt; cbn in *; lia). Qed.

(** What is still to come from a connection that is open. *)
Definition to_come (c : AckConn) : list ack_event :=
  match conn c with
  | WAITING_FOR_ID partial => events_of (partial ++ unread c)
  | READING_ACKS broker partial => values_of broker (partial ++ unread c)
  | CLOSED => []
  end.
Definition conn_ok (c : AckConn) : Prop :=
  match conn c with
  | WAITING_FOR_ID partial => (length partial < 4)%nat
  | READING_ACKS broker partial => (length partial < 8)%nat /\ valid_broker broker = true
  | CLOSED => True
  end.
(** The events so far begin those of the stream; all of the rest is to come
    while the connection is open. *)
Definition reads (all : list ack_event) (c : AckConn) : Prop :=
  conn_ok c /\ match conn c with CLOSED => events c `prefix_of` all | _ => all = events c ++ to_come c end.

Lemma values_of_step broker v rest : length v = 8%nat ->
  values_of broker (v ++ rest) =
    let len := Z.land (Z.shiftr (get_le 8 v) 32) 0xFFFFFFFF in
    if Z.land (get_le 8 v) 0xFFFFFFFF =? kSessionControlMagic then
      if (len =? 0) || (len >? kMaxSessionControlPayload) || (Z.of_nat (length rest) <? len) then []
      else if parses (take (Z.to_nat len) rest) then
        FenceReport broker (take (Z.to_nat len) rest) :: values_of broker (drop (Z.to_nat len) rest)
      else []
    else AckValue broker (get_le 8 v) :: values_of broker rest.
Proof.
  intros Hv. unfold values_of at 1. rewrite length_app, Hv. change (8 + length rest)%nat with (S (7 + length rest)). cbn [ack_values].
  replace (length (v ++ rest) <? 8)%nat with false by (symmetry; apply Nat.ltb_ge; rewrite length_app; lia).
  rewrite take_app_length', drop_app_length' by done. cbn zeta. unfold values_of.
  destruct (_ =? kSessionControlMagic).
  - destruct (_ || _); [done|]. destruct (parses _); [|done]. f_equal. apply ack_values_fuel; rewrite ?length_drop; lia.
  - f_equal. apply ack_values_fuel; lia.
Qed.

Lemma read_control_spec : forall rcs need bytes got payload bytes' rcs',
  read_control rcs need bytes got = (Some payload, bytes', rcs') ->
  (need <= length bytes)%nat /\ payload = got ++ take need bytes /\ bytes' = drop need bytes.
Proof.
  induction rcs as [|rc rcs IH]; intros need bytes got payload bytes' rcs' Hr; destruct need as [|need]; cbn [read_control Nat.eqb] in Hr.
  1, 3: injection Hr as <- <- <-; cbn; rewrite app_nil_r; split_and!; [lia|done..].
  - done.
  - destruct rc as [n| | | |]; try done. set (chunk := take (Nat.min (S n) (S need)) bytes) in *.
    assert (Hc : chunk = take (length chunk) bytes /\ (length chunk <= S need)%nat /\ (length chunk <= length bytes)%nat).
    { unfold chunk. rewrite length_take. split_and!; [|lia..]. destruct (decide (length bytes <= Nat.min (S n) (S need))%nat).
      - rewrite !firstn_all2 by lia. done.
      - f_equal. lia. }
    destruct Hc as (Hc1 & Hc2 & Hc3). destruct (_ =? 0)%nat; [done|]. apply IH in Hr as (H1 & -> & ->). rewrite length_drop in H1.
    split; [lia|]. split; [|rewrite drop_drop; f_equal; lia]. rewrite <- app_assoc. f_equal. rewrite Hc1 at 1.
    rewrite take_take_drop. f_equal. lia.
Qed.

Lemma full_value_reads all rcs broker v c c' rcs' :
  length v = 8%nat -> valid_broker broker = true -> all = events c ++ values_of broker (v ++ unread c) ->
  full_value rcs broker v c = (c', rcs') -> reads all c'.
Proof.
  intros Hv Hb Hall Hf. rewrite values_of_step in Hall by done. unfold full_value in Hf. cbn zeta in Hall, Hf.
  assert (Hclosed : forall u, reads all (mkAckConn CLOSED u (events c))) by (intros u; split; [done|]; cbn; rewrite Hall; by eexists).
  set (len := Z.land (Z.shiftr (get_le 8 v) 32) 0xFFFFFFFF) in *. clearbody len. destruct (_ =? kSessionControlMagic).
  - destruct ((len =? 0) || (len >? kMaxSessionControlPayload)) eqn:El; [by injection Hf as <- <-|]. cbn [orb] in Hall.
    destruct (read_control _ _ _ _) as [[[payload|] bytes] rcs2] eqn:Er; [|by injection Hf as <- <-].
    apply read_control_spec in Er as (H1 & H2 & H3). cbn [app] in H2. subst payload bytes.
    destruct (parses _) eqn:Ep; cbn [negb] in Hf; injection Hf as <- <-; [|apply Hclosed].
    bool_props. replace (_ <? len) with false in Hall by lia. split; [cbn; split; [lia|done]|]. cbn. by rewrite <- app_assoc.
  - rewrite Hb in Hf. cbn [negb] in Hf. injection Hf as <- <-. split; [cbn; split; [lia|done]|]. cbn. by rewrite <- app_assoc.
Qed.

Lemma chunk_step (partial bytes : list Z) k : let chunk := take k bytes in
  (partial ++ chunk) ++ drop (length chunk) bytes = partial ++ bytes /\ (length chunk <= k)%nat.
Proof.
  cbn zeta. rewrite length_take. split; [|lia]. rewrite <- app_assoc. f_equal.
  destruct (decide (length bytes <= k)%nat).
  - rewrite firstn_all2, drop_ge, app_nil_r by lia. done.
  - replace (Nat.min k (length bytes)) with k by lia. apply take_drop.
Qed.

Lemma ack_turn_reads all rc rcs c c' rcs' : reads all c -> ack_turn rc rcs c = (c', rcs') -> reads all c'.
Proof.
  intros Hr Ht. unfold ack_turn in Ht.
  assert (Hclosed : forall u, reads all (mkAckConn CLOSED u (events c))).
  { intros u. destruct Hr as [_ Hr]. split; [done|]. cbn. destruct (conn c); [rewrite Hr; by eexists..|done]. }
  destruct (conn c) as [partial|broker partial|] eqn:Ec.
  - destruct rc as [n| | | |]; try (injection Ht as <- <-; done). unfold reads, conn_ok, to_come in Hr. rewrite Ec in Hr. destruct Hr as [Hok Hall].
    set (k := Nat.min (S n) (4 - length partial)) in *. destruct (chunk_step partial (unread c) k) as [Hs Hk].
    set (chunk := take k (unread c)) in *. cbn [unread events] in Ht. destruct (_ =? 4)%nat eqn:E4.
    + apply Nat.eqb_eq in E4. rewrite <- Hs in Hall. unfold events_of in Hall.
      rewrite (proj2 (Nat.ltb_ge (length ((partial ++ chunk) ++ _)) 4)) in Hall by (rewrite (length_app (partial ++ chunk)), E4; lia).
      rewrite take_app_length', drop_app_length' in Hall by done. cbn zeta in Hall.
      destruct (valid_broker _) eqn:Ev; cbn [negb] in Ht; injection Ht as <- <-; [|apply Hclosed]. split; [cbn; split; [lia|exact Ev]|exact Hall].
    + injection Ht as <- <-. apply Nat.eqb_neq in E4. split; [unfold conn_ok; cbn [conn]; pose proof (length_app partial chunk); unfold k in Hk; lia|].
      unfold to_come. cbn [conn unread events]. rewrite Hs. exact Hall.
  - destruct rc as [n| | | |]; try (injection Ht as <- <-; done). unfold reads, conn_ok, to_come in Hr. rewrite Ec in Hr. destruct Hr as [[Hok Hb] Hall].
    set (k := Nat.min (S n) (8 - length partial)) in *. destruct (chunk_step partial (unread c) k) as [Hs Hk].
    set (chunk := take k (unread c)) in *. destruct (_ =? 8)%nat eqn:E8; cbn [negb] in Ht.
    + apply Nat.eqb_eq in E8. eapply full_value_reads; [exact E8|exact Hb| |exact Ht]. cbn [unread events]. rewrite Hs. exact Hall.
    + injection Ht as <- <-. apply Nat.eqb_neq in E8. split; [unfold conn_ok; cbn [conn]; pose proof (length_app partial chunk); unfold k in Hk; split; [lia|exact Hb]|].
      unfold to_come. cbn [conn unread events]. rewrite Hs. exact Hall.
  - by injection Ht as <- <-.
Qed.
Lemma ack_run_reads all : forall fuel rcs c, reads all c -> reads all (ack_run fuel rcs c).
Proof.
  induction fuel as [|fuel IH]; intros rcs c Hc; cbn [ack_run]; [done|]. destruct rcs as [|rc rcs]; [done|].
  destruct (ack_turn rc rcs c) as [c' rcs'] eqn:Et. eapply IH, ack_turn_reads; done.
Qed.

(** However the bytes of a connection are received, with interruptions and
    waits, its events are the first of those the stream holds, and all of them
    when the connection is open and every byte was received. *)
Theorem ack_stream_read_in_order rcs stream :
  let c := read_acks rcs stream in
  events c `prefix_of` events_of stream /\ (conn c <> CLOSED -> unread c = [] -> events c = events_of stream).
Proof.
  intros c. destruct (ack_run_reads (events_of stream) (length rcs) rcs (mkAckConn (WAITING_FOR_ID []) stream [])) as [Hok Hr].
  { split; [cbn; lia|done]. }
  fold (read_acks rcs stream) in Hok, Hr. fold c in Hok, Hr. unfold conn_ok, to_come in *. destruct (conn c) as [partial|broker partial|].
  - split; [rewrite Hr; by eexists|]. intros _ Hu. rewrite Hr, Hu, app_nil_r. unfold events_of.
    replace (_ <? 4)%nat with true by (symmetry; apply Nat.ltb_lt; lia). by rewrite app_nil_r.
  - split; [rewrite Hr; by eexists|]. intros _ Hu. rewrite Hr, Hu, app_nil_r. rewrite values_of_short by tauto. by rewrite app_nil_r.
  - done.
Qed.

(** * What a broker sends *)

(** A count is eight bytes; a report has a header of the magic number and the
    length ([SendSessionFencedControl]). *)
Definition send_event (e : ack_event) : list Z :=
  match e with
  | AckValue _ value => put_le 8 value
  | FenceReport _ payload => put_le 4 kSessionControlMagic ++ put_le 4 (Z.of_nat (length payload)) ++ payload
  end.
Definition ack_stream (id : Z) (evs : list ack_event) : list Z := put_le 4 id ++ concat (send_event <$> evs).
(** What the reader can tell: a count whose low word is not the magic number,
    a report of a length it accepts. *)
Definition sent_ok (id : Z) (e : ack_event) : Prop :=
  match e with
  | AckValue b value => b = id /\ is_u64 value /\ value mod 2 ^ 32 <> kSessionControlMagic
  | FenceReport b payload => b = id /\ 0 < Z.of_nat (length payload) <= kMaxSessionControlPayload /\ parses payload = true
  end.

Lemma low_word v : Z.land v 0xFFFFFFFF = v mod 2 ^ 32.
Proof. change 0xFFFFFFFF with (Z.ones 32). apply Z.land_ones. lia. Qed.
Lemma high_word v : is_u64 v -> Z.land (Z.shiftr v 32) 0xFFFFFFFF = v / 2 ^ 32.
Proof.
  intros Hv. rewrite low_word, Z.shiftr_div_pow2 by lia. apply Z.mod_small. unfold is_u64 in Hv. split; [apply Z.div_pos; lia|apply Z.div_lt_upper_bound; lia].
Qed.
Lemma get_le_put_app n : forall m a p, 0 <= a < 256 ^ Z.of_nat n -> get_le (n + m) (put_le n a ++ p) = a + 256 ^ Z.of_nat n * get_le m p.
Proof.
  induction n as [|n IH]; intros m a p Ha; [cbn [put_le app Nat.add Z.of_nat] in *; change (256 ^ 0) with 1 in *; lia|].
  cbn [put_le app Nat.add get_le]. rewrite Nat2Z.inj_succ, Z.pow_succ_r in * by lia.
  rewrite IH by (rewrite Z.shiftr_div_pow2 by lia; change (2 ^ 8) with 256; split; [apply Z.div_pos; lia|apply Z.div_lt_upper_bound; lia]).
  rewrite Z.shiftl_mul_pow2, Z.shiftr_div_pow2 by lia. change (2 ^ 8) with 256. pose proof (Z.div_mod a 256). lia.
Qed.

Lemma values_of_count broker v rest : is_u64 v -> v mod 2 ^ 32 <> kSessionControlMagic ->
  values_of broker (put_le 8 v ++ rest) = AckValue broker v :: values_of broker rest.
Proof.
  intros Hv Hm. rewrite values_of_step by apply put_le_length. rewrite <- (app_nil_r (put_le 8 v)), get_put_le by (by apply u64_bytes).
  cbn zeta. rewrite low_word. by replace (_ =? kSessionControlMagic) with false by lia.
Qed.
Lemma values_of_report broker payload rest :
  0 < Z.of_nat (length payload) <= kMaxSessionControlPayload -> parses payload = true ->
  values_of broker (send_event (FenceReport broker payload) ++ rest) = FenceReport broker payload :: values_of broker rest.
Proof.
  intros Hl Hp. unfold kMaxSessionControlPayload in Hl. set (n := Z.of_nat (length payload)) in *. cbn [send_event]. fold n.
  rewrite app_assoc, <- (app_assoc (_ ++ _)). set (h := put_le 4 kSessionControlMagic ++ put_le 4 n).
  assert (Hh : length h = 8%nat) by (unfold h; by rewrite length_app, !put_le_length).
  assert (Hv : get_le 8 h = kSessionControlMagic + 2 ^ 32 * n).
  { unfold h. rewrite <- (app_nil_r (put_le 4 n)). rewrite (get_le_put_app 4 4), get_put_le; [done|simpl; lia|unfold kSessionControlMagic; simpl; lia]. }
  rewrite values_of_step by done. cbn zeta. rewrite Hv. rewrite high_word by (unfold is_u64, kSessionControlMagic; lia). rewrite low_word.
  replace ((_ + _) mod 2 ^ 32) with kSessionControlMagic
    by (rewrite Z.mul_comm, Z.mod_add by lia; symmetry; apply Z.mod_small; unfold kSessionControlMagic; lia).
  replace ((_ + _) / 2 ^ 32) with n by (rewrite Z.mul_comm, Z.div_add by lia; unfold kSessionControlMagic; change (1397052230 / 2 ^ 32) with 0; lia).
  rewrite Z.eqb_refl. replace (n =? 0) with false by lia. replace (n >? _) with false by (unfold kMaxSessionControlPayload; lia).
  replace (_ <? n) with false by (symmetry; apply Z.ltb_ge; rewrite length_app; unfold n; lia). cbn [orb]. unfold n. rewrite Nat2Z.id, take_app_length, drop_app_length, Hp. done.
Qed.

Lemma values_of_sent id evs rest : Forall (sent_ok id) evs ->
  values_of id (concat (send_event <$> evs) ++ rest) = evs ++ values_of id rest.
Proof.
  induction 1 as [|e evs He _ IH]; [done|]. rewrite fmap_cons. cbn [concat app]. rewrite <- app_assoc.
  destruct e as [b v|b p]; destruct He as (-> & H1 & H2); [|]; (rewrite ?values_of_report by done); [|by rewrite IH].
  cbn [send_event]. rewrite values_of_count by done. by rewrite IH.
Qed.
Lemma events_of_sent id evs rest : 0 <= id < num_brokers -> num_brokers <= 2 ^ 31 -> Forall (sent_ok id) evs ->
  events_of (ack_stream id evs ++ rest) = evs ++ values_of id rest.
Proof.
  intros Hid Hn Hevs. unfold events_of, ack_stream. rewrite <- app_assoc.
  rewrite (proj2 (Nat.ltb_ge _ 4)) by (rewrite length_app, put_le_length; lia).
  rewrite take_app_length', drop_app_length' by (by rewrite put_le_length). rewrite <- (app_nil_r (put_le 4 id)), get_put_le by (simpl; lia).
  unfold as_int. replace (id >=? 2 ^ 31) with false by lia. unfold valid_broker.
  replace (id <? 0) with false by lia. replace (id >=? num_brokers) with false by lia. cbn [negb orb]. by apply values_of_sent.
Qed.

(** C30. A publisher reads what a broker sent, in whatever pieces it arrives: of
    counts whose low 32 bits are not the magic number of a control header and
    of fence reports of 1 to 65536 bytes that parse, it reports the first ones
    in order, and all of them once every byte is received on an open
    connection, whatever [rest] follows them; without a [rest] it reports
    nothing else. *)
Theorem ack_stream_roundtrip id evs rest rcs :
  0 <= id < num_brokers -> num_brokers <= 2 ^ 31 -> Forall (sent_ok id) evs ->
  let c := read_acks rcs (ack_stream id evs ++ rest) in
  (events c `prefix_of` evs \/ evs `prefix_of` events c) /\
  (conn c <> CLOSED -> unread c = [] -> evs `prefix_of` events c) /\
  (rest = [] -> events c `prefix_of` evs /\ (conn c <> CLOSED -> unread c = [] -> events c = evs)).
Proof.
  intros Hid Hn Hevs c. destruct (ack_stream_read_in_order rcs (ack_stream id evs ++ rest)) as [H1 H2]. fold c in H1, H2.
  rewrite events_of_sent in H1, H2 by done. split; [|split].
  - apply (prefix_weak_total _ _ (evs ++ values_of id rest)); [exact H1|by apply prefix_app_r].
  - intros Hc Hu. rewrite H2 by done. by apply prefix_app_r.
  - intros Hrest. rewrite Hrest, (values_of_short id []), app_nil_r in H1, H2 by (cbn; lia). by split.
Qed.

(** C31. A count whose low word is the magic number and whose high word is no length
    of a report ends the connection: it is not reported, and nothing after it. *)
Theorem magic_count_ends_acknowledgements id evs value rest rcs :
  0 <= id < num_brokers -> num_brokers <= 2 ^ 31 -> Forall (sent_ok id) evs ->
  is_u64 value -> value mod 2 ^ 32 = kSessionControlMagic -> value / 2 ^ 32 = 0 \/ kMaxSessionControlPayload < value / 2 ^ 32 ->
  events (read_acks rcs (ack_stream id evs ++ put_le 8 value ++ rest)) `prefix_of` evs.
Proof.
  intros Hid Hn Hevs Hv Hm Hh. destruct (ack_stream_read_in_order rcs (ack_stream id evs ++ put_le 8 value ++ rest)) as [H1 _].
  rewrite events_of_sent in H1 by done. rewrite values_of_step in H1 by apply put_le_length.
  assert (Hg : get_le 8 (put_le 8 value) = value) by (rewrite <- (app_nil_r (put_le 8 value)); by apply get_put_le, u64_bytes).
  rewrite Hg in H1. cbn zeta in H1. rewrite low_word, high_word, Hm, Z.eqb_refl in H1 by done.
  replace ((_ =? 0) || _) with true in H1 by (symmetry; destruct Hh; apply orb_true_iff; lia). cbn [orb] in H1. by rewrite app_nil_r in H1.
Qed.
End reader.

Lemma ack_stream_roundtrip_witness :
  let evs := [AckValue 2 5; FenceReport 2 [8; 1]; AckValue 2 9] in
  let c := read_acks 4 (fun _ => true) [RBytes 0; RIntr; RBytes 9; RBytes 4; RAgain; RBytes 9; RBytes 7; RBytes 0; RBytes 0; RBytes 7] (ack_stream 2 evs ++ []) in
  events c = evs.
Proof.
  intros evs c. refine (proj2 (proj2 (proj2 (ack_stream_roundtrip 4 (fun _ => true) 2 evs [] _ _ _ _)) _) _ _);
    [lia|lia| |reflexivity|vm_compute; discriminate|vm_compute; reflexivity].
  repeat constructor; vm_compute; congruence.
Defined.

Lemma magic_count_ends_acknowledgements_witness :
  let rcs := repeat (RBytes 7) 5 in
  let c := read_acks 4 (fun _ => true) rcs (ack_stream 2 [AckValue 2 5] ++ put_le 8 1397052230 ++ put_le 8 1397052231) in
  (events c `prefix_of` [AckValue 2 5]) /\ conn c = CLOSED.
Proof.
  split; [|vm_compute; reflexivity].
  apply (magic_count_ends_acknowledgements 4 (fun _ => true) 2 [AckValue 2 5] 1397052230 (put_le 8 1397052231));
    [lia|lia|repeat constructor; vm_compute; congruence|unfold is_u64; lia|vm_compute; reflexivity|left; vm_compute; reflexivity].
Defined.
