(* ===== verification/ChainReplication.v ===== *)
(** Replication of the global order index to disks
    (src/disk_manager/chain_replication.cc, roles from
    src/common/performance_utils.h): every replica of a broker writes and syncs
    its batches, the replicas pass a token along the chain for each index entry,
    and the last one advances the completion vector, which is what a publisher's
    durable acknowledgement is read from. *)

From S2P Require Import Prelude Bytes Commit.

(** * Roles *)
(** [None] where the code logs a fatal error. *)
Definition GetReplicationSetBroker (broker_id replication_factor num_brokers replica_index : Z) : option Z :=
  if replica_index >=? replication_factor then None else Some (Z.rem (broker_id + replica_index) num_brokers).
Fixpoint chain_role_from (fuel : nat) (i local source replication_factor num_brokers : Z) : Z :=
  match fuel with
  | O => -1
  | S fuel =>
      if bool_decide (GetReplicationSetBroker source replication_factor num_brokers i = Some local) then i
      else chain_role_from fuel (i + 1) local source replication_factor num_brokers
  end.
Definition GetReplicationChainRole (local source replication_factor num_brokers : Z) : Z :=
  if (source <? 0) || (source >=? num_brokers) || (replication_factor <=? 0) || (num_brokers <=? 0) || (local <? 0) || (local >=? num_brokers)
  then -1
  else chain_role_from (Z.to_nat replication_factor) 0 local source replication_factor num_brokers.

(** * State *)
Record PendingTokenUpdate := mkTask {
  t_goi : Z;
  t_owner : Z;
  t_pbr : Z;
  t_cumulative : Z;
  t_end_offset : Z;
}.
#[export] Instance eta_Task : Eta PendingTokenUpdate := fun t => mkTask (t_goi t) (t_owner t) (t_pbr t) (t_cumulative t) (t_end_offset t).
(** The pipeline of a replica for one source broker.  [file] is what was written,
    [durable] what is known to be on the medium; [sink_done] is a task that was
    written and not yet handed on, [sync_pc] a running fdatasync with the
    high-water mark and the file when it began, [token_pc] the task of the token
    thread and whether it has updated the vector.  [finished] lists the entries
    whose tasks are complete. *)
Record SourcePipeline := mkPipe {
  write_offset : Z;
  file : memory;
  durable : memory;
  sink_q : list PendingTokenUpdate;
  sink_done : option PendingTokenUpdate;
  awaiting : list PendingTokenUpdate;
  written_high_water : Z;
  sync_pc : option (Z * memory);
  sync_stopped : bool;
  token_q : list PendingTokenUpdate;
  token_pc : option (PendingTokenUpdate * bool);
  finished : list Z;
}.
#[export] Instance eta_Pipe : Eta SourcePipeline := fun p =>
  mkPipe (write_offset p) (file p) (durable p) (sink_q p) (sink_done p) (awaiting p) (written_high_water p) (sync_pc p) (sync_stopped p)
    (token_q p) (token_pc p) (finished p).
Record Replica := mkReplica {
  next_goi_index : Z;
  write_error : bool;
  pipe : SourcePipeline;
}.
#[export] Instance eta_Replica : Eta Replica := fun r => mkReplica (next_goi_index r) (write_error r) (pipe r).
(** [replicated] holds the tokens of the entries, and [cv_head], [cv_logical] are
    the source's entry of the completion vector. *)
Record Chain := mkChain {
  committed : Z;
  replicated : gmap Z Z;
  cv_head : Z;
  cv_logical : Z;
  replicas : gmap Z Replica;
}.
#[export] Instance eta_Chain : Eta Chain := fun w => mkChain (committed w) (replicated w) (cv_head w) (cv_logical w) (replicas w).

Definition kNoProgress : Z := U64_MAX.

Section chain.
  (** The chain of the broker [src] among [num_brokers]; the entries of the index,
      each of which is written once, and the payloads they point to. *)
  Context (src replication_factor num_brokers : Z) (index : Z -> GOIEntry) (epoch : Z) (cxl : memory).

Definition role (b : Z) : Z := GetReplicationChainRole b src replication_factor num_brokers.
Definition token (w : Chain) (i : Z) : Z := default 0 (replicated w !! i).
Definition payload (i : Z) : list Z := bytes_at cxl (goi_blog_offset (index i)) (Z.to_nat (goi_payload_size (index i))).
Definition task_of (i : Z) : PendingTokenUpdate :=
  let e := index i in mkTask i (goi_broker_id e) (goi_pbr_index e) (goi_cumulative_message_count e) 0.

(** ** The dispatcher, which the bound on queued work can only delay *)
Definition dispatch (w : Chain) (r : Replica) : Replica :=
  let i := next_goi_index r in
  let e := index i in
  if i >? committed w then r
  else if negb (goi_global_seq e =? i) then
    if negb (goi_epoch_sequenced e =? epoch) then r <| next_goi_index := i + 1 |> else r
  else if (goi_broker_id e <? 0) || (goi_broker_id e >=? num_brokers) || (goi_payload_size e =? 0) || (goi_message_count e =? 0) then
    if negb (goi_epoch_sequenced e =? epoch) then r <| next_goi_index := i + 1 |> else r
  else if negb (goi_broker_id e =? src) then r <| next_goi_index := i + 1 |>
  else r <| next_goi_index := i + 1 |> <| pipe ::= fun p => p <| sink_q ::= fun q => q ++ [task_of i] |> |>.

(** ** The sink (on disk): the result of pwrite, after the retries of interrupted
    calls, is that all bytes were written, or how many were before the error *)
Inductive pwrite_rc := PWritten | PFailed (n : nat).
Definition sink_write (rc : pwrite_rc) (r : Replica) : Replica :=
  match sink_q (pipe r), sink_done (pipe r) with
  | t :: q, None =>
      let bytes := payload (t_goi t) in
      let write_off := write_offset (pipe r) in
      let end_offset := write_off + Z.of_nat (length bytes) in
      let p := (pipe r) <| sink_q := q |> <| write_offset := end_offset |> in
      match rc with
      | PFailed n => r <| write_error := true |> <| pipe := p <| file ::= fun f => memcpy f write_off (take n bytes) |> |>
      | PWritten =>
          let p := p <| file ::= fun f => memcpy f write_off bytes |> in
          if write_error r then r <| pipe := p |> else r <| pipe := p <| sink_done := Some (t <| t_end_offset := end_offset |>) |> |>
      end
  | _, _ => r
  end.
Definition sink_push (r : Replica) : Replica :=
  match sink_done (pipe r) with
  | Some t => r <| pipe ::= fun p => p <| sink_done := None |> <| written_high_water := t_end_offset t |> <| awaiting ::= fun q => q ++ [t] |> |>
  | None => r
  end.

(** ** The sync thread; thresholds on bytes and time decide when it begins *)
Definition sync_begin (r : Replica) : Replica :=
  match awaiting (pipe r), sync_pc (pipe r), sync_stopped (pipe r) with
  | _ :: _, None, false => r <| pipe ::= fun p => p <| sync_pc := Some (written_high_water p, file p) |> |>
  | _, _, _ => r
  end.
Fixpoint split_synced (synced_to : Z) (q : list PendingTokenUpdate) : list PendingTokenUpdate * list PendingTokenUpdate :=
  match q with
  | [] => ([], [])
  | t :: q' => if t_end_offset t <=? synced_to then let '(a, b) := split_synced synced_to q' in (t :: a, b) else ([], q)
  end.
Definition sync_end (ok : bool) (r : Replica) : Replica :=
  match sync_pc (pipe r) with
  | None => r
  | Some (high_water, image) =>
      if ok then
        r <| pipe ::= fun p =>
          let '(ready, rest) := split_synced high_water (awaiting p) in
          p <| sync_pc := None |> <| durable := image |> <| awaiting := rest |> <| token_q ::= fun q => q ++ ready |> |>
      else r <| write_error := true |> <| pipe ::= fun p => p <| sync_pc := None |> <| sync_stopped := true |> |>
  end.

(** ** The token thread *)
Definition token_peek (r : Replica) : Replica :=
  match token_pc (pipe r), token_q (pipe r) with
  | None, t :: _ => r <| pipe ::= fun p => p <| token_pc := Some (t, false) |> |>
  | _, _ => r
  end.
Definition UpdateCompletionVector (pbr_index cumulative_msg_count : Z) (w : Chain) : Chain :=
  w <| cv_head ::= fun cur => if (cur =? kNoProgress) || (pbr_index >? cur) then pbr_index else cur |>
    <| cv_logical ::= fun cur => if cumulative_msg_count >? cur then cumulative_msg_count else cur |>.
(** One turn of the waiting loop.  A load that is older than the
    compare-exchange makes the exchange fail and gives the value it found. *)
Definition token_turn (b : Z) (w : Chain) (r : Replica) : Chain :=
  match token_pc (pipe r) with
  | None => w
  | Some (t, cv_updated) =>
      let tok := token w (t_goi t) in
      if tok <? role b then w
      else
        let '(tok, w) := if tok =? role b then (role b + 1, w <| replicated ::= <[t_goi t := role b + 1]> |>) else (tok, w) in
        let tail := role b =? replication_factor - 1 in
        let '(cv_updated, w) :=
          if tail && (tok >=? replication_factor) && negb cv_updated
          then (true, UpdateCompletionVector (t_pbr t) (t_cumulative t) w) else (cv_updated, w) in
        let p :=
          if (tok >=? role b + 1) && (negb tail || cv_updated) then
            (pipe r) <| token_pc := None |> <| finished ::= fun l => l ++ [t_goi t] |>
              <| token_q ::= fun q => match q with t' :: q' => if t_goi t' =? t_goi t then q' else q | [] => [] end |>
          else (pipe r) <| token_pc := Some (t, cv_updated) |> in
        w <| replicas ::= <[b := r <| pipe := p |>]> |>
  end.

(** ** Interleavings *)
Inductive act :=
  | ACommit
  | ADispatch (b : Z)
  | AWrite (b : Z) (rc : pwrite_rc)
  | APush (b : Z)
  | ASyncBegin (b : Z)
  | ASyncEnd (b : Z) (ok : bool)
  | APeek (b : Z)
  | AToken (b : Z)
  | AOtherError (b : Z).   (** a write error of the pipeline for another source *)
Definition on_replica (w : Chain) (b : Z) (f : Replica -> Replica) : Chain :=
  match replicas w !! b with Some r => w <| replicas ::= <[b := f r]> |> | None => w end.
Definition chain_act (w : Chain) (a : act) : Chain :=
  match a with
  | ACommit => w <| committed ::= fun c => c + 1 |>
  | ADispatch b => on_replica w b (dispatch w)
  | AWrite b rc => on_replica w b (sink_write rc)
  | APush b => on_replica w b sink_push
  | ASyncBegin b => on_replica w b sync_begin
  | ASyncEnd b ok => on_replica w b (sync_end ok)
  | APeek b => on_replica w b token_peek
  | AToken b => match replicas w !! b with Some r => token_turn b w r | None => w end
  | AOtherError b => on_replica w b (fun r => r <| write_error := true |>)
  end.
Definition new_replica : Replica := mkReplica 0 false (mkPipe 0 ∅ ∅ [] None [] 0 None false [] None []).
(** Every broker with a role in the chain of [src] has a pipeline for it. *)
Definition chain_start : Chain :=
  mkChain (-1) ∅ kNoProgress 0 (list_to_map ((fun b => (b, new_replica)) <$> filter (fun b => 0 <= role b) (seqZ 0 num_brokers))).
Definition chain_run (acts : list act) : Chain := foldl chain_act chain_start acts.
End chain.
