(* ===== verification/ChainDurability.v ===== *)
(** What the chain of replicas guarantees (ChainReplication.v): the completion
    vector never passes a batch that some replica has not synced, and it reaches
    every batch once the pipelines are empty. *)

From S2P Require Import Prelude Bytes Commit ChainReplication.

Section durability.
  Context (src R n : Z) (index : Z -> GOIEntry) (epoch : Z) (cxl : memory).
#[local] Abbreviation role := (role src R n).
#[local] Abbreviation payload := (payload index cxl).
#[local] Abbreviation task_of := (task_of index).
  Hypothesis src_ok : 0 <= src < n.
  (** As the constructor of DiskManager requires (src/disk_manager/disk_manager.cc). *)
  Hypothesis factor_ok : 0 < R <= n.
  (** Every entry of the index is as the sequencer writes it. *)
  Hypothesis entry_ok : forall i, 0 <= i ->
    goi_global_seq (index i) = i /\ 0 <= goi_broker_id (index i) < n /\ 0 < goi_payload_size (index i) /\ 0 < goi_message_count (index i).

(** ** Roles *)
Lemma chain_role_from_spec local : forall fuel i, 0 <= i -> i + Z.of_nat fuel = R -> 0 <= chain_role_from fuel i local src R n ->
  GetReplicationSetBroker src R n (chain_role_from fuel i local src R n) = Some local /\ i <= chain_role_from fuel i local src R n < R.
Proof.
  induction fuel as [|fuel IH]; intros i Hi Hf Hr; cbn [chain_role_from] in *; [lia|].
  destruct (bool_decide_reflect (GetReplicationSetBroker src R n i = Some local)) as [E|E]; [split; [done|lia]|].
  destruct (IH (i + 1)) as [H1 H2]; [lia|lia|done|]. split; [done|lia].
Qed.
Lemma role_spec b : 0 <= role b -> 0 <= role b < R /\ b = Z.rem (src + role b) n.
Proof.
  unfold ChainReplication.role, GetReplicationChainRole. destruct (_ || _); [lia|]. intros Hr.
  apply chain_role_from_spec in Hr as [H1 H2]; [|lia|lia]. split; [done|]. unfold GetReplicationSetBroker in H1.
  destruct (_ >=? _); [done|]. by injection H1.
Qed.
Lemma role_inj a b : 0 <= role a -> role a = role b -> a = b.
Proof. intros Ha He. destruct (role_spec a Ha) as [_ ->]. destruct (role_spec b) as [_ E]; [lia|]. by rewrite He, <- E. Qed.

(** ** Entries of the source *)
Definition entries (k : Z) : list Z := filter (fun i => goi_broker_id (index i) = src) (seqZ 0 k).
Definition size (i : Z) : Z := Z.of_nat (length (payload i)).
Definition bytes_of (l : list Z) : Z := foldr (fun i s => size i + s) 0 l.
(** The payloads of [l] stand one after the other in [f], from [off] on. *)
Fixpoint stored (f : memory) (off : Z) (l : list Z) : Prop :=
  match l with
  | [] => True
  | i :: l => bytes_at f off (length (payload i)) = payload i /\ stored f (off + size i) l
  end.
Fixpoint ends (off : Z) (l : list PendingTokenUpdate) : Prop :=
  match l with [] => True | t :: l => t_end_offset t = off + size (t_goi t) /\ ends (t_end_offset t) l end.

Lemma size_pos i : 0 <= i -> 0 < size i.
Proof. intros Hi. unfold size, ChainReplication.payload. rewrite bytes_at_length. destruct (entry_ok i Hi) as (_ & _ & ? & _). lia. Qed.
Lemma entries_nonneg k i : i ∈ entries k -> 0 <= i.
Proof. intros Hi. apply list_elem_of_filter in Hi as [_ Hi%elem_of_seqZ]. lia. Qed.
Lemma entries_S k : 0 <= k -> entries (k + 1) = entries k ++ (if decide (goi_broker_id (index k) = src) then [k] else []).
Proof. intros Hk. unfold entries. rewrite (seqZ_app 0 k 1) by lia. rewrite filter_app. done. Qed.
Lemma bytes_of_app a b : bytes_of (a ++ b) = bytes_of a + bytes_of b.
Proof. induction a as [|i a IH]; [done|]. cbn [app bytes_of foldr] in *. fold (bytes_of (a ++ b)) (bytes_of a). rewrite IH. lia. Qed.
Lemma bytes_of_nonneg l : 0 <= bytes_of l.
Proof. induction l as [|i l IH]; [done|]. cbn [bytes_of foldr]. fold (bytes_of l). unfold size. lia. Qed.
Lemma stored_app f a b : forall off, stored f off (a ++ b) <-> stored f off a /\ stored f (off + bytes_of a) b.
Proof.
  induction a as [|i a IH]; intros off; cbn [app stored bytes_of foldr]; [rewrite Z.add_0_r; tauto|]. fold (bytes_of a).
  rewrite IH. replace (off + size i + bytes_of a) with (off + (size i + bytes_of a)) by lia. tauto.
Qed.
Lemma stored_write f bs o l : forall off, off + bytes_of l <= o -> stored f off l -> stored (memcpy f o bs) off l.
Proof.
  induction l as [|i l IH]; intros off Ho Hs; [done|]. cbn [bytes_of foldr stored] in *. fold (bytes_of l) in *.
  pose proof (bytes_of_nonneg l). destruct Hs as [H1 H2]. split; [|apply IH; [lia|done]].
  rewrite <- H1 at 2. apply bytes_at_ext. intros j Hj. apply memcpy_other. unfold size in *. lia.
Qed.
Lemma stored_prefix f off a b : a `prefix_of` b -> stored f off b -> stored f off a.
Proof. intros [c ->] Hs. by apply stored_app in Hs as [? _]. Qed.
Lemma stored_elem f l i : forall off, stored f off l -> i ∈ l -> exists o, bytes_at f o (length (payload i)) = payload i.
Proof.
  induction l as [|j l IH]; intros off Hs Hi; [set_solver|]. destruct Hs as [H1 H2]. apply elem_of_cons in Hi as [->|Hi]; [by exists off|by eapply IH].
Qed.
Lemma ends_app a b : forall off, ends off (a ++ b) <-> ends off a /\ ends (off + bytes_of (t_goi <$> a)) b.
Proof.
  induction a as [|t a IH]; intros off; cbn [app ends fmap list_fmap bytes_of foldr]; [rewrite Z.add_0_r; tauto|].
  fold (bytes_of (t_goi <$> a)). rewrite IH. rewrite (Z.add_assoc off). split; [intros (H1 & H2 & H3)|intros ((H1 & H2) & H3)]; rewrite H1 in *; tauto.
Qed.

Lemma bytes_of_one i : bytes_of [i] = size i.
Proof. unfold bytes_of. cbn. lia. Qed.
#[local] Arguments bytes_of : simpl never.
#[local] Arguments size : simpl never.
#[local] Arguments entries : simpl never.
#[local] Arguments ChainReplication.payload : simpl never.

(** ** The invariant of a replica *)
Definition synced (p : SourcePipeline) : list Z := finished p ++ (t_goi <$> token_q p).
Definition pushed (p : SourcePipeline) : list Z := synced p ++ (t_goi <$> awaiting p).
Definition written (p : SourcePipeline) : list Z := pushed p ++ (t_goi <$> option_list (sink_done p)).
Definition task_ok (t : PendingTokenUpdate) : Prop := t = (task_of (t_goi t)) <| t_end_offset := t_end_offset t |>.

Record rinv (c : Z) (r : Replica) : Prop := {
  ri_next : 0 <= next_goi_index r <= c + 1;
  ri_written : written (pipe r) `prefix_of` entries (next_goi_index r);
  ri_all : write_error r = false -> written (pipe r) ++ (t_goi <$> sink_q (pipe r)) = entries (next_goi_index r);
  ri_tasks : Forall task_ok (token_q (pipe r) ++ awaiting (pipe r) ++ option_list (sink_done (pipe r)) ++ sink_q (pipe r));
  ri_file : stored (file (pipe r)) 0 (written (pipe r));
  ri_offset : bytes_of (written (pipe r)) <= write_offset (pipe r);
  ri_offset_eq : write_error r = false -> bytes_of (written (pipe r)) = write_offset (pipe r);
  ri_high : written_high_water (pipe r) = bytes_of (pushed (pipe r));
  ri_ends : ends (bytes_of (synced (pipe r))) (awaiting (pipe r) ++ option_list (sink_done (pipe r)));
  ri_durable : stored (durable (pipe r)) 0 (synced (pipe r));
  ri_sync : forall hw image, sync_pc (pipe r) = Some (hw, image) ->
    exists l, synced (pipe r) `prefix_of` l /\ l `prefix_of` pushed (pipe r) /\ hw = bytes_of l /\ stored image 0 l;
  ri_pc : forall t u, token_pc (pipe r) = Some (t, u) -> u = false /\ head (token_q (pipe r)) = Some t;
}.

(** What the steps of a replica other than the token's keep. *)
Definition local_ok (r r' : Replica) : Prop :=
  finished (pipe r') = finished (pipe r) /\ synced (pipe r) `prefix_of` synced (pipe r').

Ltac open_replica r := destruct r as [nx we [wo fl du sq sd aw hw sp ss tq tp fi]];
  unfold local_ok, written, pushed, synced in *; cbn in *.

Lemma rinv_committed c c' r : c <= c' -> rinv c r -> rinv c' r.
Proof. intros Hc []. constructor; [lia|done..]. Qed.
Lemma rinv_error c r : rinv c r -> rinv c (r <| write_error := true |>) /\ local_ok r (r <| write_error := true |>).
Proof. intros []. open_replica r. split; [|done]. constructor; cbn; unfold written, pushed, synced; cbn; done. Qed.

Lemma entries_prefix k k' : 0 <= k <= k' -> entries k `prefix_of` entries k'.
Proof. intros Hk. unfold entries. replace k' with (k + (k' - k)) by lia. rewrite seqZ_app by lia. rewrite filter_app. by eexists. Qed.

Lemma dispatch_inv w r : rinv (committed w) r -> rinv (committed w) (dispatch src n index epoch w r) /\ local_ok r (dispatch src n index epoch w r).
Proof.
  intros Hi. unfold dispatch. destruct (_ >? _) eqn:Ec; [split; [done|by split]|]. pose proof (ri_next _ _ Hi) as Hn.
  destruct (entry_ok (next_goi_index r) ltac:(lia)) as (E1 & E2 & E3 & E4). rewrite E1, Z.eqb_refl. cbn [negb].
  replace (goi_broker_id _ <? 0) with false by lia. replace (goi_broker_id _ >=? n) with false by lia.
  replace (goi_payload_size _ =? 0) with false by lia. replace (goi_message_count _ =? 0) with false by lia. cbn [orb]. pose proof (entries_S (next_goi_index r) ltac:(lia)) as HS.
  destruct (goi_broker_id _ =? src) eqn:Es; cbn [negb]; bool_props; destruct Hi; open_replica r; (split; [|by split]); rewrite ?Es in HS.
  - rewrite decide_True in HS by done. constructor; cbn; unfold written, pushed, synced; cbn; try done; [lia|etrans; [done|apply entries_prefix; lia]| |].
    + intros Hw. rewrite fmap_app, app_assoc. cbn. by rewrite ri_all0, HS.
    + rewrite !app_assoc in *. apply Forall_app_2; [done|]. by constructor.
  - rewrite decide_False in HS by done. rewrite app_nil_r in HS.
    constructor; cbn; unfold written, pushed, synced; cbn; try done; [lia|by rewrite HS|by rewrite HS].
Qed.

Lemma sink_write_inv c rc r : rinv c r -> rinv c (sink_write index cxl rc r) /\ local_ok r (sink_write index cxl rc r).
Proof.
  intros Hi. unfold sink_write. destruct (sink_q (pipe r)) as [|t q] eqn:Eq; [split; [done|by split]|].
  destruct (sink_done (pipe r)) eqn:Ed; [split; [done|by split]|]. destruct Hi. open_replica r. subst sq sd. cbn in *. rewrite ?app_nil_r in *.
  assert (Hbad : forall f', stored f' 0 ((fi ++ (t_goi <$> tq)) ++ (t_goi <$> aw)) ->
    rinv c (mkReplica nx true (mkPipe (wo + Z.of_nat (length (payload (t_goi t)))) f' du q None aw hw sp ss tq tp fi))).
  { intros f' Hf. constructor; cbn; unfold written, pushed, synced; cbn; rewrite ?app_nil_r; try done; [|lia].
    rewrite !app_assoc, !Forall_app, ?Forall_cons in *. tauto. }
  destruct rc as [|k]; [destruct we|]; (split; [|by split]).
  - apply Hbad. apply stored_write; [lia|done].
  - specialize (ri_all0 eq_refl). specialize (ri_offset_eq0 eq_refl).
    constructor; cbn; unfold written, pushed, synced; cbn; try done.
    + exists (t_goi <$> q). rewrite <- ri_all0. by rewrite <- (app_assoc _ [t_goi t]).
    + intros _. by rewrite <- (app_assoc _ [t_goi t]).
    + rewrite !app_assoc, !Forall_app, !Forall_cons in *. destruct ri_tasks0 as [[Ha Hb] [Ht Hq]]. split_and!; try done.
      unfold task_ok in *. rewrite Ht. done.
    + apply stored_app. split; [apply stored_write; [lia|done]|]. cbn. split; [|done]. rewrite <- ri_offset_eq0.
      pose proof (bytes_at_memcpy fl (bytes_of ((fi ++ (t_goi <$> tq)) ++ (t_goi <$> aw))) (payload (t_goi t)) 0 (length (payload (t_goi t)))) as Hm.
      rewrite Z.add_0_r, drop_0, firstn_all in Hm. by apply Hm.
    + rewrite bytes_of_app, bytes_of_one. unfold size. lia.
    + intros _. rewrite bytes_of_app, bytes_of_one. unfold size. lia.
    + apply ends_app. split; [done|]. cbn. split; [|done]. fold (size (t_goi t)). rewrite bytes_of_app in ri_offset_eq0. lia.
  - apply Hbad. apply stored_write; [lia|done].
Qed.

Lemma sink_push_inv c r : rinv c r -> rinv c (sink_push r) /\ local_ok r (sink_push r).
Proof.
  intros Hi. unfold sink_push. destruct (sink_done (pipe r)) as [t|] eqn:Ed; [|split; [done|by split]].
  destruct Hi. open_replica r. subst sd. cbn in *. split; [|by split].
  constructor; cbn; unfold written, pushed, synced; cbn; rewrite ?fmap_app, ?app_nil_r, ?(app_assoc _ (t_goi <$> aw)); try done.
  - by rewrite <- (app_assoc aw).
  - apply ends_app in ri_ends0 as [_ [He _]]. change (t_goi <$> [t]) with [t_goi t]. rewrite !bytes_of_app, bytes_of_one in *. lia.
  - intros hw' image Hs. destruct (ri_sync0 _ _ Hs) as (l & H1 & H2 & H3). exists l. split; [exact H1|]. split; [|exact H3]. etrans; [exact H2|by eexists].
Qed.

Lemma sync_begin_inv c r : rinv c r -> rinv c (sync_begin r) /\ local_ok r (sync_begin r).
Proof.
  intros Hi. unfold sync_begin. destruct (awaiting (pipe r)) as [|t a] eqn:Ea; [split; [done|by split]|].
  destruct (sync_pc (pipe r)) eqn:Es; [split; [done|by split]|]. destruct (sync_stopped (pipe r)) eqn:Eo; [split; [done|by split]|].
  destruct Hi. open_replica r. subst aw sp ss. split; [|by split].
  constructor; cbn; unfold written, pushed, synced; cbn; try done.
  intros hw' image [= <- <-]. exists ((fi ++ (t_goi <$> tq)) ++ t_goi t :: (t_goi <$> a)). split_and!; [by eexists|done|done|].
  eapply stored_prefix; [|exact ri_file0]. by eexists.
Qed.

Lemma split_synced_spec hw q a b : split_synced hw q = (a, b) -> q = a ++ b /\ (a = [] \/ exists t, last a = Some t /\ t_end_offset t <= hw).
Proof.
  revert a b. induction q as [|t q IH]; intros a b; cbn [split_synced]; [intros [= <- <-]; auto|].
  destruct (_ <=? hw) eqn:E; [|intros [= <- <-]; auto]. destruct (split_synced hw q) as [a' b'] eqn:Es. intros [= <- <-].
  destruct (IH _ _ eq_refl) as [-> Ha]. split; [done|]. right. bool_props. destruct Ha as [->|(t' & Hl & Ht)]; [by exists t|].
  exists t'. split; [|done]. destruct a'; [done|]. by rewrite last_cons_cons.
Qed.
Lemma ends_last off l t : ends off l -> last l = Some t -> t_end_offset t = off + bytes_of (t_goi <$> l).
Proof.
  intros He Hl. apply last_Some in Hl as [l' ->]. apply ends_app in He as [_ [He _]].
  rewrite fmap_app, bytes_of_app. cbn. rewrite bytes_of_one. lia.
Qed.
Lemma bytes_of_pos l : l <> [] -> Forall (fun i => 0 <= i) l -> 0 < bytes_of l.
Proof.
  intros Hne Hl. destruct Hl as [|i l Hi Hl]; [done|]. change (i :: l) with ([i] ++ l). rewrite bytes_of_app, bytes_of_one.
  pose proof (size_pos i Hi). pose proof (bytes_of_nonneg l). lia.
Qed.
(** Of two beginnings of one list the one with fewer bytes begins the other. *)
Lemma prefix_by_bytes (a b l : list Z) : Forall (fun i => 0 <= i) l -> a `prefix_of` l -> b `prefix_of` l -> bytes_of a <= bytes_of b -> a `prefix_of` b.
Proof.
  intros Hl Ha Hb Hs. destruct (prefix_weak_total a b l Ha Hb) as [?|[k ->]]; [done|]. rewrite bytes_of_app in Hs.
  destruct k as [|x k]; [by rewrite app_nil_r|]. exfalso. destruct Ha as [m ->]. rewrite !Forall_app in Hl.
  pose proof (bytes_of_pos (x :: k) ltac:(done) ltac:(tauto)). lia.
Qed.

Lemma sync_end_inv c ok r : rinv c r -> rinv c (sync_end ok r) /\ local_ok r (sync_end ok r).
Proof.
  intros Hi. unfold sync_end. destruct (sync_pc (pipe r)) as [[hw' image]|] eqn:Es; [|split; [done|by split]].
  destruct ok; [|destruct Hi; open_replica r; subst sp; (split; [|by split]); constructor; cbn; unfold written, pushed, synced; cbn; done].
  destruct (split_synced hw' (awaiting (pipe r))) as [ready rest] eqn:Er.
  assert (Hpos : Forall (fun i => 0 <= i) (pushed (pipe r))).
  { pose proof (ri_written _ _ Hi) as [m Hm]. apply Forall_forall. intros i Hin. apply (entries_nonneg (next_goi_index r)). rewrite Hm. unfold written. set_solver. }
  destruct Hi. open_replica r. subst sp. rewrite Er. destruct (split_synced_spec _ _ _ _ Er) as [-> Hend]. clear Er.
  destruct (ri_sync0 _ _ eq_refl) as (l & L1 & L2 & -> & L4).
  assert (Hready : (fi ++ (t_goi <$> tq)) ++ (t_goi <$> ready) `prefix_of` l).
  { destruct Hend as [->|(t & Hl & Ht)]; [by rewrite app_nil_r|]. rewrite <- app_assoc in ri_ends0. apply ends_app in ri_ends0 as [He _].
    rewrite (ends_last _ _ _ He Hl), <- bytes_of_app in Ht. eapply (prefix_by_bytes _ _ _ Hpos); [|exact L2|exact Ht].
    rewrite fmap_app, app_assoc. by eexists. }
  split; [|split; [done|cbn; rewrite fmap_app, app_assoc; by eexists]].
  constructor; cbn; unfold written, pushed, synced; cbn; rewrite ?fmap_app, ?app_assoc in *; try done.
  - rewrite <- (app_assoc _ rest) in ri_ends0. apply ends_app in ri_ends0 as [_ He]. by rewrite bytes_of_app.
  - by eapply stored_prefix.
  - intros t u Ht. destruct (ri_pc0 t u Ht) as [? Hh]. split; [done|]. destruct tq; [done|]. done.
Qed.

Lemma token_peek_inv c r : rinv c r -> rinv c (token_peek r) /\ local_ok r (token_peek r).
Proof.
  intros Hi. unfold token_peek. destruct (token_pc (pipe r)) eqn:Ep; [split; [done|by split]|].
  destruct (token_q (pipe r)) as [|t q] eqn:Eq; [split; [done|by split]|]. destruct Hi. open_replica r. subst tp tq. split; [|by split].
  constructor; cbn; unfold written, pushed, synced; cbn; try done. by intros t' u [= <- <-].
Qed.

(** ** The token *)
#[local] Abbreviation cum i := (goi_cumulative_message_count (index i)).
Definition passed (r : Replica) (t : PendingTokenUpdate) (q : list PendingTokenUpdate) : Replica :=
  r <| pipe := (pipe r) <| token_pc := None |> <| finished := finished (pipe r) ++ [t_goi t] |> <| token_q := q |> |>.
(** A turn waits, or completes the task: it passes the token on if it has it,
    and the last replica updates the vector. *)
Lemma token_turn_cases b w r t q :
  0 <= role b < R -> token_pc (pipe r) = Some (t, false) -> token_q (pipe r) = t :: q ->
  token w (t_goi t) < role b /\ token_turn src R n b w r = w \/
  role b <= token w (t_goi t) /\
  let w' := token_turn src R n b w r in
  committed w' = committed w /\ replicas w' = <[b := passed r t q]> (replicas w) /\
  (forall i, token w' i = if decide (i = t_goi t) then Z.max (token w i) (role b + 1) else token w i) /\
  cv_logical w' = if decide (role b = R - 1) then Z.max (cv_logical w) (t_cumulative t) else cv_logical w.
Proof.
  intros Hr Hp Hq. unfold token_turn. rewrite Hp. destruct (_ <? role b) eqn:E1; bool_props; [by left|]. right. split; [done|].
  set (w1 := w <| replicated ::= <[t_goi t := role b + 1]> |>). set (tail := role b =? R - 1).
  assert (Hmax : forall x y : Z, (if x >? y then x else y) = Z.max y x) by (intros; destruct (_ >? _) eqn:?; bool_props; lia).
  assert (Hdone : (pipe r) <| token_pc := None |> <| finished ::= fun l => l ++ [t_goi t] |>
      <| token_q ::= fun q0 => match q0 with t' :: q' => if t_goi t' =? t_goi t then q' else q0 | [] => [] end |> =
    (pipe r) <| token_pc := None |> <| finished := finished (pipe r) ++ [t_goi t] |> <| token_q := q |>).
  { destruct r as [nx we p]. destruct p. cbn in *. subst. by rewrite Z.eqb_refl. }
  assert (Htok : forall i, token w1 i = if decide (i = t_goi t) then role b + 1 else token w i).
  { intros i. unfold token, w1. destruct w. cbn. destruct (decide (i = t_goi t)) as [->|]; [by rewrite lookup_insert_eq|by rewrite lookup_insert_ne]. }
  destruct (token w (t_goi t) =? role b) eqn:E2; bool_props.
  - replace (role b + 1 >=? role b + 1) with true by lia. destruct tail eqn:Et; unfold tail in Et; bool_props.
    + replace (role b + 1 >=? R) with true by lia. cbn [andb negb orb]. rewrite Hdone, decide_True by done.
      split_and!; [by destruct w|by destruct w| |destruct w; cbn; apply Hmax].
      intros i. transitivity (token w1 i); [by destruct w|]. rewrite Htok. destruct (decide _) as [->|]; [lia|done].
    + cbn [andb negb orb]. rewrite Hdone, decide_False by lia. split_and!; [by destruct w|by destruct w| |by destruct w].
      intros i. transitivity (token w1 i); [by destruct w|]. rewrite Htok. destruct (decide _) as [->|]; [lia|done].
  - replace (token w (t_goi t) >=? role b + 1) with true by lia. destruct tail eqn:Et; unfold tail in Et; bool_props.
    + replace (token w (t_goi t) >=? R) with true by lia. cbn [andb negb orb]. rewrite Hdone, decide_True by done.
      split_and!; [by destruct w|by destruct w| |destruct w; cbn; apply Hmax].
      intros i. transitivity (token w i); [by destruct w|]. destruct (decide _) as [->|]; [lia|done].
    + cbn [andb negb orb]. rewrite Hdone, decide_False by lia. split_and!; [by destruct w|by destruct w| |by destruct w].
      intros i. transitivity (token w i); [by destruct w|]. destruct (decide _) as [->|]; [lia|done].
Qed.

Lemma passed_inv c r t q : rinv c r -> token_pc (pipe r) = Some (t, false) -> token_q (pipe r) = t :: q ->
  rinv c (passed r t q) /\ synced (pipe (passed r t q)) = synced (pipe r).
Proof.
  intros [] Hp Hq. unfold passed. open_replica r. subst tp tq. cbn in *.
  assert (Hs : (fi ++ [t_goi t]) ++ (t_goi <$> q) = fi ++ t_goi t :: (t_goi <$> q)) by (by rewrite <- app_assoc).
  split; [|done]. constructor; cbn; unfold written, pushed, synced; cbn; rewrite ?Hs; try done. by apply Forall_cons in ri_tasks0 as [_ ?].
Qed.

(** ** The invariant of the chain *)

(** The counts of the source's entries grow. *)
Hypothesis cumulative_pos : forall i, 0 <= i -> goi_broker_id (index i) = src -> 0 < cum i.
Hypothesis cumulative_grows : forall i j, 0 <= i < j -> goi_broker_id (index i) = src -> goi_broker_id (index j) = src -> cum i < cum j.
Record cinv (w : Chain) : Prop := {
  ci_committed : -1 <= committed w;
  ci_replica : forall b r, replicas w !! b = Some r -> 0 <= role b /\ rinv (committed w) r;
  ci_finished : forall b r i, replicas w !! b = Some r -> i ∈ finished (pipe r) -> role b < token w i;
  ci_token : forall b r i, replicas w !! b = Some r -> role b < token w i -> i ∈ synced (pipe r);
  ci_vector : forall b r, replicas w !! b = Some r -> role b = R - 1 ->
    cv_logical w = default 0 ((fun i => cum i) <$> last (finished (pipe r)));
  ci_all : forall b, 0 <= role b -> is_Some (replicas w !! b);
  ci_nonneg : forall i, 0 <= token w i;
}.

Lemma on_replica_inv w b f : cinv w ->
  (forall r, rinv (committed w) r -> rinv (committed w) (f r) /\ local_ok r (f r)) -> cinv (on_replica w b f).
Proof.
  intros Hw Hf. unfold on_replica. destruct (replicas w !! b) as [r|] eqn:Eb; [|done].
  assert (E : committed (w <| replicas ::= <[b := f r]> |>) = committed w /\ replicas (w <| replicas ::= <[b := f r]> |>) = <[b := f r]> (replicas w) /\
    cv_logical (w <| replicas ::= <[b := f r]> |>) = cv_logical w /\ forall i, token (w <| replicas ::= <[b := f r]> |>) i = token w i) by (by destruct w).
  set (w' := w <| replicas ::= <[b := f r]> |>) in *. clearbody w'. destruct E as (E1 & E2 & E3 & E4). destruct Hw.
  destruct (ci_replica0 b r Eb) as [Hb Hr]. destruct (Hf r Hr) as [Hr' [Hl1 Hl2]].
  constructor; rewrite ?E1, ?E2, ?E3.
  - done.
  - intros b' r' [[<- <-]|[Hne Hb']]%lookup_insert_Some; [done|by eapply ci_replica0].
  - intros b' r' i [[<- <-]|[Hne Hb']]%lookup_insert_Some; rewrite E4; [rewrite Hl1|]; by eapply ci_finished0.
  - intros b' r' i [[<- <-]|[Hne Hb']]%lookup_insert_Some; rewrite E4; intros Ht; [|by eapply ci_token0].
    apply (ci_token0 _ _ _ Eb) in Ht. destruct Hl2 as [k ->]. set_solver.
  - intros b' r' [[<- <-]|[Hne Hb']]%lookup_insert_Some; [rewrite Hl1|]; by eapply ci_vector0.
  - intros b' Hb'. destruct (decide (b = b')) as [->|]; [by rewrite lookup_insert_eq|rewrite lookup_insert_ne by done; by apply ci_all0].
  - intros i. by rewrite E4.
Qed.

Lemma entries_sorted k : StronglySorted Z.lt (entries k).
Proof.
  apply StronglySorted_filter. destruct (Z.le_gt_cases k 0); [rewrite seqZ_nil by lia; constructor|].
  rewrite <- (Z2Nat.id k) by lia. induction (Z.to_nat k) as [|m IH]; [constructor|].
  replace (Z.of_nat (S m)) with (Z.of_nat m + 1) by lia. rewrite seqZ_app by lia. apply StronglySorted_app_2; [|done|by repeat constructor].
  intros x y Hx%elem_of_seqZ Hy%elem_of_seqZ. lia.
Qed.
Lemma entries_src k i : i ∈ entries k -> 0 <= i < k /\ goi_broker_id (index i) = src.
Proof. intros Hi. apply list_elem_of_filter in Hi as [? Hi%elem_of_seqZ]. split; [lia|done]. Qed.
Lemma entries_in k i : 0 <= i < k -> goi_broker_id (index i) = src -> i ∈ entries k.
Proof. intros Hi He. apply list_elem_of_filter. split; [done|]. apply elem_of_seqZ. lia. Qed.

(** The entries before one that a beginning of the list holds are in it. *)
Lemma prefix_closed l k i j : l `prefix_of` entries k -> j ∈ l -> i <= j -> 0 <= i -> goi_broker_id (index i) = src -> i ∈ l.
Proof.
  intros [m Hm] Hj Hij Hi He. pose proof (entries_sorted k) as Hs. rewrite Hm in Hs.
  assert (Hjk : j ∈ entries k) by (rewrite Hm; set_solver). apply entries_src in Hjk as [Hjk _].
  assert (Hik : i ∈ entries k) by (apply entries_in; [lia|done]). rewrite Hm in Hik. apply elem_of_app in Hik as [?|Hik]; [done|].
  pose proof (StronglySorted_app_1_elem_of _ _ _ j i Hs Hj Hik). lia.
Qed.

Lemma token_act_inv w b r : cinv w -> replicas w !! b = Some r -> cinv (token_turn src R n b w r).
Proof.
  intros Hw Hb. destruct (ci_replica _ Hw b r Hb) as [Hrole Hr]. destruct (role_spec b Hrole) as [HR _].
  destruct (token_pc (pipe r)) as [[t u]|] eqn:Ep; [|unfold token_turn; by rewrite Ep].
  destruct (ri_pc _ _ Hr t u Ep) as [-> Hh]. destruct (token_q (pipe r)) as [|t' q] eqn:Eq; [done|]. injection Hh as ->.
  destruct (token_turn_cases b w r t q HR Ep Eq) as [[_ ->]|(Hge & E1 & E2 & E3 & E4)]; [done|]. set (w' := token_turn src R n b w r) in *. clearbody w'.
  destruct (passed_inv _ _ _ _ Hr Ep Eq) as [Hr' Hsync].
  assert (Hpre : (finished (pipe r) ++ [t_goi t]) `prefix_of` entries (next_goi_index r)).
  { etrans; [|apply (ri_written _ _ Hr)]. unfold written, pushed, synced. rewrite Eq. cbn. rewrite <- !app_assoc. eexists. rewrite <- app_assoc. done. }
  assert (Hint : t_goi t ∈ entries (next_goi_index r)) by (destruct Hpre as [m ->]; set_solver).
  apply entries_src in Hint as [Hrange Hsrc]. pose proof (ri_tasks _ _ Hr) as Htasks. rewrite Eq in Htasks. apply Forall_cons in Htasks as [Htask _].
  assert (Hcum : t_cumulative t = cum (t_goi t)) by (rewrite Htask; done). destruct Hw. constructor; rewrite ?E1, ?E2.
  - done.
  - intros b' r' [[<- <-]|[Hne Hb']]%lookup_insert_Some; [done|by eapply ci_replica0].
  - intros b' r' i [[<- <-]|[Hne Hb']]%lookup_insert_Some Hi; rewrite E3.
    + change (finished (pipe (passed r t q))) with (finished (pipe r) ++ [t_goi t]) in Hi. apply elem_of_app in Hi as [Hi|Hi%list_elem_of_singleton].
      * pose proof (ci_finished0 _ _ _ Hb Hi). destruct (decide (i = t_goi t)); lia.
      * rewrite decide_True by done. lia.
    + pose proof (ci_finished0 _ _ _ Hb' Hi). destruct (decide (i = t_goi t)); lia.
  - intros b' r' i Hb' Hlt. rewrite E3 in Hlt.
    assert (Hold : exists r0, replicas w !! b' = Some r0 /\ synced (pipe r') = synced (pipe r0)).
    { apply lookup_insert_Some in Hb' as [[<- <-]|[Hne Hb']]; [by exists r|by exists r']. }
    destruct Hold as (r0 & Hb0 & ->). destruct (decide (i = t_goi t)) as [->|]; [|by eapply ci_token0].
    destruct (decide (role b' < token w (t_goi t))) as [?|Hnlt]; [by eapply ci_token0|].
    assert (b' = b) as -> by (apply role_inj; [by eapply ci_replica0|lia]). rewrite Hb in Hb0. injection Hb0 as <-.
    unfold synced. rewrite Eq. set_solver.
  - intros b' r' [[<- <-]|[Hne Hb']]%lookup_insert_Some Htail; rewrite E4.
    + rewrite decide_True by done. change (finished (pipe (passed r t q))) with (finished (pipe r) ++ [t_goi t]). rewrite last_snoc. cbn.
      rewrite (ci_vector0 b r Hb Htail), Hcum. destruct (last (finished (pipe r))) as [j|] eqn:El; cbn; [|pose proof (cumulative_pos _ (proj1 Hrange) Hsrc); lia].
      apply last_Some in El as [l El]. rewrite El in Hpre. destruct Hpre as [m Hm]. pose proof (entries_sorted (next_goi_index r)) as Hs. rewrite Hm in Hs.
      rewrite <- (app_assoc (l ++ [j])) in Hs. pose proof (StronglySorted_app_1_elem_of _ _ _ j (t_goi t) Hs ltac:(set_solver) ltac:(set_solver)) as Hlt.
      assert (Hj : j ∈ entries (next_goi_index r)) by (rewrite Hm; set_solver). apply entries_src in Hj as [Hj1 Hj2].
      pose proof (cumulative_grows j (t_goi t) ltac:(lia) Hj2 Hsrc). lia.
    + rewrite decide_False; [by eapply ci_vector0|]. intros Hc. apply Hne. apply role_inj; [done|congruence].
  - intros b' Hb'. destruct (decide (b = b')) as [->|]; [by rewrite lookup_insert_eq|rewrite lookup_insert_ne by done; by apply ci_all0].
  - intros i. rewrite E3. pose proof (ci_nonneg0 i). destruct (decide (i = t_goi t)); lia.
Qed.

(** ** Runs *)
#[local] Abbreviation chain_act := (chain_act src R n index epoch cxl).
#[local] Abbreviation chain_run := (chain_run src R n index epoch cxl).

Lemma chain_act_inv w a : cinv w -> cinv (chain_act w a).
Proof.
  intros Hw. destruct a as [|b|b rc|b|b|b ok|b|b|b]; cbn [ChainReplication.chain_act].
  - destruct w, Hw. constructor; cbn in *; try done; [lia|]. intros b r Hb. destruct (ci_replica0 b r Hb). split; [done|]. eapply rinv_committed; [|done]. lia.
  - apply on_replica_inv; [done|]. apply dispatch_inv.
  - apply on_replica_inv; [done|]. apply sink_write_inv.
  - apply on_replica_inv; [done|]. apply sink_push_inv.
  - apply on_replica_inv; [done|]. apply sync_begin_inv.
  - apply on_replica_inv; [done|]. apply sync_end_inv.
  - apply on_replica_inv; [done|]. apply token_peek_inv.
  - destruct (replicas w !! b) as [r|] eqn:Eb; [|done]. by apply token_act_inv.
  - apply on_replica_inv; [done|]. apply rinv_error.
Qed.

Lemma role_range b : 0 <= role b -> 0 <= b < n.
Proof. unfold ChainReplication.role, GetReplicationChainRole. destruct (_ || _) eqn:E; [lia|]. intros _. rewrite !orb_false_iff in E. lia. Qed.
Lemma start_replicas b r : replicas (chain_start src R n) !! b = Some r -> r = new_replica /\ 0 <= role b.
Proof.
  unfold chain_start. cbn. intros Hb. apply elem_of_list_to_map_2 in Hb. apply list_elem_of_fmap in Hb as (b' & [= -> ->] & Hb').
  by apply list_elem_of_filter in Hb' as [? _].
Qed.
Lemma chain_start_inv : cinv (chain_start src R n).
Proof.
  constructor; [done| | | | | |intros i; unfold token; cbn; by rewrite lookup_empty].
  - intros b r Hb. apply start_replicas in Hb as [-> ?]. split; [done|]. constructor; cbn; try done; apply prefix_nil.
  - intros b r i Hb. apply start_replicas in Hb as [-> _]. cbn. set_solver.
  - intros b r i Hb. apply start_replicas in Hb as [-> ?]. unfold token. cbn. rewrite lookup_empty. cbn. lia.
  - intros b r Hb. by apply start_replicas in Hb as [-> _].
  - intros b Hb. pose proof (role_range b Hb). unfold chain_start. cbn. exists new_replica. apply elem_of_list_to_map_1.
    + rewrite <- list_fmap_compose. rewrite (list_fmap_ext _ id); [|done]. rewrite list_fmap_id. apply NoDup_filter, NoDup_seqZ.
    + apply list_elem_of_fmap. exists b. split; [done|]. apply list_elem_of_filter. split; [done|]. apply elem_of_seqZ. lia.
Qed.
Lemma chain_run_cinv acts : cinv (chain_run acts).
Proof.
  unfold ChainReplication.chain_run. generalize chain_start_inv. generalize (chain_start src R n). induction acts as [|a acts IH]; intros w Hw; [done|].
  apply IH, chain_act_inv, Hw.
Qed.

(** Every role has its replica. *)
Lemma chain_role_first local k : forall fuel i, 0 <= i <= k -> k < i + Z.of_nat fuel -> GetReplicationSetBroker src R n k = Some local ->
  0 <= chain_role_from fuel i local src R n <= k.
Proof.
  induction fuel as [|fuel IH]; intros i Hi Hk Hs; [lia|]. cbn [chain_role_from]. destruct (bool_decide_reflect (GetReplicationSetBroker src R n i = Some local)); [lia|].
  destruct (decide (i = k)) as [->|]; [done|]. apply IH; [lia|lia|done].
Qed.
Lemma role_surj k : 0 <= k < R -> exists b, role b = k.
Proof.
  intros Hk. set (b := Z.rem (src + k) n). exists b. assert (Hb : 0 <= b < n) by (apply Z.rem_bound_pos; lia).
  assert (Hs : GetReplicationSetBroker src R n k = Some b) by (unfold GetReplicationSetBroker; by replace (k >=? R) with false by lia).
  assert (Hr : 0 <= role b <= k).
  { unfold ChainReplication.role, GetReplicationChainRole. replace (_ || _) with false; [apply chain_role_first; [lia|lia|done]|].
    symmetry. rewrite !orb_false_iff. lia. }
  destruct (role_spec b) as [Hrr He]; [lia|]. unfold b in He at 1.
  rewrite !Z.rem_mod_nonneg in He by lia. destruct (decide (role b = k)) as [?|Hne]; [done|]. exfalso.
  pose proof (Z.div_mod (src + k) n ltac:(lia)) as D1. pose proof (Z.div_mod (src + role b) n ltac:(lia)) as D2.
  rewrite <- He in D2. assert (Hd : k - role b = n * ((src + k) / n - (src + role b) / n)) by lia.
  set (q := (src + k) / n - (src + role b) / n) in *. clearbody q. destruct (Z.le_gt_cases q 0); nia.
Qed.

(** Every replica of the chain has the payload of the entry in what it has synced. *)
Definition on_every_disk (w : Chain) (i : Z) : Prop :=
  forall k, 0 <= k < R -> exists b r off, role b = k /\ replicas w !! b = Some r /\
    bytes_at (durable (pipe r)) off (length (payload i)) = payload i.
Lemma completed_on_disk w i : cinv w -> 0 <= i -> goi_broker_id (index i) = src -> cum i <= cv_logical w -> on_every_disk w i.
Proof.
  intros Hw Hi Hsrc Hcv k Hk.
  destruct (role_surj (R - 1)) as [bt Hbt]; [lia|]. destruct (ci_all _ Hw bt) as [rt Hrt]; [lia|].
  assert (Hfin : i ∈ finished (pipe rt)).
  { rewrite (ci_vector _ Hw bt rt Hrt Hbt) in Hcv. destruct (last (finished (pipe rt))) as [j|] eqn:El; cbn in Hcv; [|pose proof (cumulative_pos i Hi Hsrc); lia].
    destruct (ci_replica _ Hw bt rt Hrt) as [_ Hr]. assert (Hj : j ∈ finished (pipe rt)) by (apply last_Some in El as [l ->]; set_solver).
    assert (Hpre : finished (pipe rt) `prefix_of` entries (next_goi_index rt)).
    { etrans; [|apply (ri_written _ _ Hr)]. unfold written, pushed, synced. rewrite <- !app_assoc. by eexists. }
    apply (prefix_closed _ _ i j Hpre Hj); [|done|done].
    assert (Hje : j ∈ entries (next_goi_index rt)) by (destruct Hpre as [m ->]; set_solver). apply entries_src in Hje as [Hj1 Hj2].
    destruct (Z.le_gt_cases i j); [done|]. pose proof (cumulative_grows j i ltac:(lia) Hj2 Hsrc). lia. }
  pose proof (ci_finished _ Hw bt rt i Hrt Hfin) as Htok. destruct (role_surj k Hk) as [b Hb]. destruct (ci_all _ Hw b) as [r Hr]; [lia|].
  pose proof (ci_token _ Hw b r i Hr ltac:(lia)) as Hin. destruct (ci_replica _ Hw b r Hr) as [_ Hrinv].
  destruct (stored_elem _ _ _ _ (ri_durable _ _ Hrinv) Hin) as [off Hoff]. by exists b, r, off.
Qed.
(** When the completion vector counts the messages of a batch, every replica of
    the chain has its payload in what was synced, whatever the interleaving and
    whatever writes and syncs fail. *)
Theorem completed_is_on_every_disk acts i :
  0 <= i -> goi_broker_id (index i) = src -> cum i <= cv_logical (chain_run acts) -> on_every_disk (chain_run acts) i.
Proof. apply completed_on_disk, chain_run_cinv. Qed.

(** The vector never goes back. *)
Lemma chain_act_vector_grows w a : cv_logical w <= cv_logical (chain_act w a).
Proof.
  assert (Hon : forall b f, cv_logical w <= cv_logical (on_replica w b f)) by (intros b f; unfold on_replica; by destruct (replicas w !! b)).
  destruct a as [|b|b rc|b|b|b ok|b|b|b]; cbn [ChainReplication.chain_act]; try apply Hon; [done|].
  destruct (replicas w !! b) as [r|]; [|done]. unfold token_turn. destruct (token_pc (pipe r)) as [[t u]|]; [|done].
  destruct (_ <? role b); [done|]. destruct (token w (t_goi t) =? role b); cbn [fst snd];
    (destruct (_ && negb u); [|done]); cbn; (destruct (_ >? _) eqn:E; bool_props; lia).
Qed.

(** ** Progress *)
Definition clean (a : act) : Prop :=
  match a with AWrite _ (PFailed _) | ASyncEnd _ false | AOtherError _ => False | _ => True end.
Definition healthy (r : Replica) : Prop := write_error r = false /\ sync_stopped (pipe r) = false.

Lemma on_replica_healthy w b f : (forall b r, replicas w !! b = Some r -> healthy r) -> (forall r, healthy r -> healthy (f r)) ->
  forall b' r', replicas (on_replica w b f) !! b' = Some r' -> healthy r'.
Proof.
  intros Hw Hf b' r'. unfold on_replica. destruct (replicas w !! b) as [r|] eqn:Eb; [|apply Hw].
  change (replicas (w <| replicas ::= <[b := f r]> |>)) with (<[b := f r]> (replicas w)).
  intros [[<- <-]|[_ Hr]]%lookup_insert_Some; [by apply Hf, (Hw b)|by eapply Hw].
Qed.
Lemma token_turn_healthy w b r : (forall b r, replicas w !! b = Some r -> healthy r) -> replicas w !! b = Some r -> cinv w ->
  forall b' r', replicas (token_turn src R n b w r) !! b' = Some r' -> healthy r'.
Proof.
  intros Hh Hb Hw. destruct (ci_replica _ Hw b r Hb) as [Hrole Hr]. destruct (role_spec b Hrole) as [HR _].
  destruct (token_pc (pipe r)) as [[t u]|] eqn:Ep; [|unfold token_turn; by rewrite Ep].
  destruct (ri_pc _ _ Hr t u Ep) as [-> Hhd]. destruct (token_q (pipe r)) as [|t' q] eqn:Eq; [done|]. injection Hhd as ->.
  destruct (token_turn_cases b w r t q HR Ep Eq) as [[_ ->]|(_ & _ & -> & _)]; [done|].
  intros b' r' [[<- <-]|[_ Hr']]%lookup_insert_Some; [|by eapply Hh]. pose proof (Hh b r Hb) as Hb1. by destruct r as [nx we []].
Qed.
Lemma chain_act_healthy w a : cinv w -> clean a -> (forall b r, replicas w !! b = Some r -> healthy r) ->
  forall b r, replicas (chain_act w a) !! b = Some r -> healthy r.
Proof.
  intros Hw Ha Hh. destruct a as [|b|b rc|b|b|b ok|b|b|b]; cbn [ChainReplication.chain_act]; try done.
  - apply on_replica_healthy; [done|]. intros r Hr. unfold dispatch. repeat case_match; done.
  - destruct rc; [|done]. apply on_replica_healthy; [done|]. intros r Hr. unfold sink_write. repeat case_match; done.
  - apply on_replica_healthy; [done|]. intros r Hr. unfold sink_push. repeat case_match; done.
  - apply on_replica_healthy; [done|]. intros r Hr. unfold sync_begin. repeat case_match; done.
  - destruct ok; [|done]. apply on_replica_healthy; [done|]. intros r Hr. unfold sync_end. destruct (sync_pc (pipe r)) as [[]|]; [|done].
    destruct r as [nx we p]. unfold healthy in *. cbn in *. by destruct (split_synced _ _).
  - apply on_replica_healthy; [done|]. intros r Hr. unfold token_peek. repeat case_match; done.
  - destruct (replicas w !! b) as [r|] eqn:Eb; [|done]. by apply token_turn_healthy.
Qed.
Lemma clean_run_healthy acts : Forall clean acts -> forall b r, replicas (chain_run acts) !! b = Some r -> healthy r.
Proof.
  induction acts as [|a acts IH] using rev_ind; intros Hc.
  - intros b r Hb. by apply start_replicas in Hb as [-> _].
  - apply Forall_app in Hc as [Hc Ha]. apply Forall_cons in Ha as [Ha _]. unfold ChainReplication.chain_run. rewrite foldl_app. cbn [foldl].
    exact (chain_act_healthy _ a (chain_run_cinv acts) Ha (IH Hc)).
Qed.

Lemma on_replica_fixed w b f r : on_replica w b f = w -> replicas w !! b = Some r -> f r = r.
Proof.
  intros He Hb. unfold on_replica in He. rewrite Hb in He. apply (f_equal (fun w => replicas w !! b)) in He.
  change (replicas (w <| replicas ::= <[b := f r]> |>)) with (<[b := f r]> (replicas w)) in He. rewrite lookup_insert_eq, Hb in He. by injection He.
Qed.

(** No step of a thread other than a failure changes anything. *)
Definition stuck (w : Chain) : Prop := forall a, clean a -> a <> ACommit -> chain_act w a = w.

Lemma stuck_pipeline w b r : cinv w -> stuck w -> replicas w !! b = Some r -> healthy r ->
  next_goi_index r = committed w + 1 /\ finished (pipe r) ++ (t_goi <$> token_q (pipe r)) = entries (committed w + 1) /\
  (token_q (pipe r) <> [] -> is_Some (token_pc (pipe r))).
Proof.
  intros Hw Hs Hb [He Ho]. destruct (ci_replica _ Hw b r Hb) as [_ Hr].
  assert (Hd := on_replica_fixed _ _ _ _ (Hs (ADispatch b) I ltac:(done)) Hb).
  assert (Hwr := on_replica_fixed _ _ _ _ (Hs (AWrite b PWritten) I ltac:(done)) Hb).
  assert (Hp := on_replica_fixed _ _ _ _ (Hs (APush b) I ltac:(done)) Hb).
  assert (Hsb := on_replica_fixed _ _ _ _ (Hs (ASyncBegin b) I ltac:(done)) Hb).
  assert (Hse := on_replica_fixed _ _ _ _ (Hs (ASyncEnd b true) I ltac:(done)) Hb).
  assert (Hpk := on_replica_fixed _ _ _ _ (Hs (APeek b) I ltac:(done)) Hb).
  assert (Hn : next_goi_index r = committed w + 1).
  { pose proof (ri_next _ _ Hr). destruct (decide (next_goi_index r = committed w + 1)) as [?|]; [done|]. exfalso.
    destruct (entry_ok (next_goi_index r) ltac:(lia)) as (E1 & E2 & E3 & E4). apply (f_equal next_goi_index) in Hd. unfold dispatch in Hd.
    replace (_ >? _) with false in Hd by lia. rewrite E1, Z.eqb_refl in Hd. cbn [negb] in Hd.
    replace (goi_broker_id _ <? 0) with false in Hd by lia. replace (goi_broker_id _ >=? n) with false in Hd by lia.
    replace (goi_payload_size _ =? 0) with false in Hd by lia. replace (goi_message_count _ =? 0) with false in Hd by lia. cbn [orb] in Hd.
    destruct (_ =? src); cbn in Hd; lia. }
  assert (Hdone : sink_done (pipe r) = None).
  { unfold sink_push in Hp. destruct (sink_done (pipe r)) eqn:Ed; [|done]. apply (f_equal (fun r => sink_done (pipe r))) in Hp. cbn in Hp. congruence. }
  assert (Hq : sink_q (pipe r) = []).
  { unfold sink_write in Hwr. rewrite Hdone, He in Hwr. destruct (sink_q (pipe r)); [done|]. apply (f_equal (fun r => sink_done (pipe r))) in Hwr. cbn in Hwr. congruence. }
  assert (Hsync : sync_pc (pipe r) = None).
  { unfold sync_end in Hse. destruct (sync_pc (pipe r)) as [[hw im]|] eqn:Es; [|done]. apply (f_equal (fun r => sync_pc (pipe r))) in Hse.
    cbn in Hse. rewrite Es in Hse. by destruct (split_synced _ _). }
  assert (Haw : awaiting (pipe r) = []).
  { unfold sync_begin in Hsb. rewrite Hsync, Ho in Hsb. destruct (awaiting (pipe r)); [done|]. apply (f_equal (fun r => sync_pc (pipe r))) in Hsb. cbn in Hsb. congruence. }
  split; [done|]. split.
  - pose proof (ri_all _ _ Hr He) as Ha. unfold written, pushed, synced in Ha. rewrite Hdone, Hq, Haw, Hn in Ha. cbn in Ha. by rewrite !app_nil_r in Ha.
  - intros Htq. unfold token_peek in Hpk. destruct (token_pc (pipe r)) eqn:Ep; [done|]. destruct (token_q (pipe r)) eqn:Eq; [done|].
    apply (f_equal (fun r => token_pc (pipe r))) in Hpk. cbn in Hpk. congruence.
Qed.

Lemma stuck_finished w : cinv w -> stuck w -> (forall b r, replicas w !! b = Some r -> healthy r) ->
  forall (k : nat) b r, role b = Z.of_nat k -> replicas w !! b = Some r -> finished (pipe r) = entries (committed w + 1).
Proof.
  intros Hw Hs Hh k. induction k as [|k IH]; intros b r Hk Hb; destruct (stuck_pipeline w b r Hw Hs Hb (Hh b r Hb)) as (Hn & Hall & Hpc);
    (destruct (token_q (pipe r)) as [|t q] eqn:Eq; [by rewrite app_nil_r in Hall|]); exfalso;
    destruct (Hpc ltac:(done)) as [[t' u] Ep]; destruct (ci_replica _ Hw b r Hb) as [Hrole Hr]; destruct (role_spec b Hrole) as [HR _];
    destruct (ri_pc _ _ Hr t' u Ep) as [-> Hhd]; rewrite Eq in Hhd; injection Hhd as ->;
    pose proof (Hs (AToken b) I ltac:(done)) as Ht; cbn [ChainReplication.chain_act] in Ht; rewrite Hb in Ht;
    (destruct (token_turn_cases b w r t' q HR Ep Eq) as [[Hlt _]|(_ & _ & E & _)];
      [|rewrite Ht in E; rewrite E, lookup_insert_eq in Hb; injection Hb as Hb; apply (f_equal (fun r => token_pc (pipe r))) in Hb; rewrite Ep in Hb; done]).
  - pose proof (ci_nonneg _ Hw (t_goi t')). lia.
  - destruct (role_surj (Z.of_nat k)) as [b0 Hb0]; [lia|]. destruct (ci_all _ Hw b0) as [r0 Hr0]; [lia|].
    assert (Hin : t_goi t' ∈ finished (pipe r0)) by (rewrite (IH b0 r0 Hb0 Hr0), <- Hall; set_solver).
    pose proof (ci_finished _ Hw b0 r0 _ Hr0 Hin). lia.
Qed.

Lemma stuck_complete w i : cinv w -> (forall b r, replicas w !! b = Some r -> healthy r) -> stuck w -> 0 <= i <= committed w ->
  goi_broker_id (index i) = src -> R <= token w i /\ cum i <= cv_logical w.
Proof.
  intros Hw Hh Hs Hi Hsrc.
  destruct (role_surj (R - 1)) as [bt Hbt]; [lia|]. destruct (ci_all _ Hw bt) as [rt Hrt]; [lia|].
  pose proof (stuck_finished w Hw Hs Hh (Z.to_nat (R - 1)) bt rt ltac:(lia) Hrt) as Hf.
  assert (Hin : i ∈ finished (pipe rt)) by (rewrite Hf; apply entries_in; [lia|done]).
  split; [pose proof (ci_finished _ Hw bt rt i Hrt Hin); lia|]. rewrite (ci_vector _ Hw bt rt Hrt Hbt), Hf in *.
  destruct (last (entries (committed w + 1))) as [j|] eqn:El; [|apply last_None in El; rewrite El in Hin; set_solver]. cbn.
  apply last_Some in El as [l El]. pose proof (entries_sorted (committed w + 1)) as Hsort. rewrite El in Hin, Hsort.
  assert (Hj : j ∈ entries (committed w + 1)) by (rewrite El; set_solver). apply entries_src in Hj as [Hj1 Hj2].
  apply elem_of_app in Hin as [Hin|Hin%list_elem_of_singleton]; [|by subst].
  pose proof (StronglySorted_app_1_elem_of _ _ _ i j Hsort Hin ltac:(set_solver)). pose proof (cumulative_grows i j ltac:(lia) Hsrc Hj2). lia.
Qed.
(** A chain without failures stops only when it is done: if no thread can take a
    step, every committed batch has the token of the whole chain and the vector
    counts it. *)
Theorem chain_stops_only_when_complete acts i :
  Forall clean acts -> stuck (chain_run acts) -> 0 <= i <= committed (chain_run acts) -> goi_broker_id (index i) = src ->
  R <= token (chain_run acts) i /\ cum i <= cv_logical (chain_run acts).
Proof. intros Hc. apply stuck_complete; [apply chain_run_cinv|by apply clean_run_healthy]. Qed.
End durability.

(** * A chain longer than the cluster *)
Section overreplicated.
  Context (src R n : Z) (index : Z -> GOIEntry) (epoch : Z) (cxl : memory).

Lemma chain_role_from_first local : forall fuel i j, 0 <= i <= j -> j < chain_role_from fuel i local src R n -> GetReplicationSetBroker src R n j <> Some local.
Proof.
  induction fuel as [|fuel IH]; intros i j Hi Hj; cbn [chain_role_from] in Hj; [lia|].
  destruct (bool_decide_reflect (GetReplicationSetBroker src R n i = Some local)) as [|Hne]; [lia|].
  destruct (decide (i = j)) as [<-|]; [done|]. apply (IH (i + 1)); [lia|done].
Qed.
Lemma chain_role_from_found local : forall fuel i, 0 <= i -> 0 <= chain_role_from fuel i local src R n ->
  GetReplicationSetBroker src R n (chain_role_from fuel i local src R n) = Some local.
Proof.
  induction fuel as [|fuel IH]; intros i Hi Hr; cbn [chain_role_from] in *; [lia|].
  destruct (bool_decide_reflect (GetReplicationSetBroker src R n i = Some local)) as [|Hne]; [done|]. apply IH; [lia|done].
Qed.
Lemma role_below_brokers b : 0 < n -> role src R n b < n.
Proof.
  intros Hn. unfold role, GetReplicationChainRole. destruct (_ || _) eqn:E; [lia|]. rewrite !orb_false_iff in E.
  set (k := chain_role_from _ _ _ _ _ _). destruct (Z.lt_ge_cases k n) as [?|Hk]; [done|]. exfalso.
  assert (Hf : GetReplicationSetBroker src R n k = Some b) by (apply chain_role_from_found; [lia|]; fold k; lia).
  apply (chain_role_from_first b (Z.to_nat R) 0 (k - n)); [lia|fold k; lia|]. unfold GetReplicationSetBroker in *.
  destruct (k >=? R) eqn:Ek; [done|]. bool_props. replace (k - n >=? R) with false by lia. rewrite <- Hf. f_equal.
  rewrite !Z.rem_mod_nonneg by lia. replace (src + k) with (src + (k - n) + 1 * n) by lia. by rewrite Z.mod_add by lia.
Qed.

(** Why the constructor of DiskManager checks the factor: above the number of
    brokers no broker has the last role, and the completion vector never counts a
    message. *)
Theorem overreplicated_chain_never_completes acts : 0 < n < R -> cv_logical (chain_run src R n index epoch cxl acts) = 0.
Proof.
  intros Hn. induction acts as [|a acts IH] using rev_ind; [done|]. unfold chain_run in *. rewrite foldl_app. cbn [foldl].
  set (w := foldl _ _ acts) in *. clearbody w.
  assert (Hon : forall b f, cv_logical (on_replica w b f) = 0) by (intros b f; unfold on_replica; by destruct (replicas w !! b)).
  destruct a as [|b|b rc|b|b|b ok|b|b|b]; cbn [chain_act]; try apply Hon; [done|].
  destruct (replicas w !! b) as [r|]; [|done]. unfold token_turn. destruct (token_pc (pipe r)) as [[t u]|]; [|done].
  destruct (_ <? role src R n b); [done|]. pose proof (role_below_brokers b ltac:(lia)).
  replace (role src R n b =? R - 1) with false by lia. by destruct (_ =? role src R n b).
Qed.
End overreplicated.

(** * An example: three brokers, two replicas for the batches of broker 1 *)
Definition demo_index (i : Z) : GOIEntry := mkGOI i 0 0 (i mod 3) 0 (4 * i) 4 1 0 7 0 i (i + 1) 1.
Definition demo_cxl : memory := memcpy ∅ 4 [9; 8; 7; 6].
Definition replicate_one (b : Z) : list act := [ADispatch b; ADispatch b; AWrite b PWritten; APush b; ASyncBegin b; ASyncEnd b true; APeek b].
Definition demo_acts : list act := [ACommit; ACommit] ++ replicate_one 2 ++ [AToken 2] ++ replicate_one 1 ++ [AToken 1; AToken 2].
Lemma demo_entry_ok i : 0 <= i -> goi_global_seq (demo_index i) = i /\ 0 <= goi_broker_id (demo_index i) < 3 /\
  0 < goi_payload_size (demo_index i) /\ 0 < goi_message_count (demo_index i).
Proof. intros Hi. cbn [demo_index goi_global_seq goi_broker_id goi_payload_size goi_message_count]. pose proof (Z.mod_pos_bound i 3 ltac:(lia)). lia. Qed.
Lemma demo_cumulative_pos i : 0 <= i -> goi_broker_id (demo_index i) = 1 -> 0 < goi_cumulative_message_count (demo_index i).
Proof. cbn. lia. Qed.
Lemma demo_cumulative_grows i j : 0 <= i < j -> goi_broker_id (demo_index i) = 1 -> goi_broker_id (demo_index j) = 1 ->
  goi_cumulative_message_count (demo_index i) < goi_cumulative_message_count (demo_index j).
Proof. cbn. lia. Qed.

Lemma completed_is_on_every_disk_witness :
  cv_logical (chain_run 1 2 3 demo_index 0 demo_cxl demo_acts) = 2 /\
  exists b r off, role 1 2 3 b = 1 /\ replicas (chain_run 1 2 3 demo_index 0 demo_cxl demo_acts) !! b = Some r /\
    bytes_at (durable (pipe r)) off 4 = [9; 8; 7; 6].
Proof.
  split; [vm_compute; reflexivity|].
  exact (completed_is_on_every_disk 1 2 3 demo_index 0 demo_cxl ltac:(lia) ltac:(lia) demo_entry_ok demo_cumulative_pos demo_cumulative_grows
    demo_acts 1 ltac:(lia) eq_refl ltac:(vm_compute; congruence) 1 ltac:(lia)).
Defined.

(** A concrete chain with the replicas [b1] and [b2] is stuck: every step of theirs
    is evaluated. *)
Lemma two_replicas (w : Chain) b1 b2 : (map_to_list (replicas w)).*1 = [b1; b2] \/ (map_to_list (replicas w)).*1 = [b2; b1] ->
  forall b, b <> b1 -> b <> b2 -> replicas w !! b = None.
Proof.
  intros Hk b H1 H2. rewrite <- (list_to_map_to_list (replicas w)). apply not_elem_of_list_to_map_1. destruct Hk as [-> | ->]; set_solver.
Qed.
Ltac stuck_by_evaluation state b1 b2 :=
  let a := fresh "a" in let Ha := fresh "Ha" in let Hc := fresh "Hc" in let b := fresh "b" in let w := fresh "w" in
  intros a Ha Hc; set (w := state);
  assert (Hnone : forall b, b <> b1 -> b <> b2 -> replicas w !! b = None) by (apply (two_replicas w b1 b2); vm_compute; auto);
  assert (Hmiss : forall b f, b <> b1 -> b <> b2 -> on_replica w b f = w) by (intros b f H1 H2; unfold on_replica; rewrite (Hnone b H1 H2); reflexivity);
  destruct a as [|b|b rc|b|b|b ok|b|b|b];
  [contradiction (Hc eq_refl)| |destruct rc; [|contradiction Ha]| | |destruct ok; [|contradiction Ha]| | |contradiction Ha];
  (destruct (Z.eq_dec b b1) as [->|H1]; [vm_compute; reflexivity|]); (destruct (Z.eq_dec b b2) as [->|H2]; [vm_compute; reflexivity|]);
  [exact (Hmiss b _ H1 H2)..|unfold chain_act; rewrite (Hnone b H1 H2); reflexivity].
Lemma demo_stuck : stuck 1 2 3 demo_index 0 demo_cxl (chain_run 1 2 3 demo_index 0 demo_cxl demo_acts).
Proof. stuck_by_evaluation (chain_run 1 2 3 demo_index 0 demo_cxl demo_acts) 1 2. Qed.
Lemma chain_stops_only_when_complete_witness :
  2 <= token (chain_run 1 2 3 demo_index 0 demo_cxl demo_acts) 1 /\ 2 <= cv_logical (chain_run 1 2 3 demo_index 0 demo_cxl demo_acts).
Proof.
  exact (chain_stops_only_when_complete 1 2 3 demo_index 0 demo_cxl ltac:(lia) ltac:(lia) demo_entry_ok demo_cumulative_pos demo_cumulative_grows
    demo_acts 1 ltac:(repeat constructor) demo_stuck ltac:(split; vm_compute; congruence) eq_refl).
Defined.
