(* ===== verification/AckFrontier.v ===== *)
(** The broker's side of acknowledgements: the frontiers a topic keeps for its
    clients (src/embarlet/topic.cc), the offsets read from shared memory
    ([GetOffsetToAck], [GetOffsetToAckFast]) and the loop of [AckThread] that
    sends them (src/network_manager/network_manager.cc). *)

From S2P Require Import Prelude EpochBuffer Commit ClientState Order5State Export ChainReplication.

Definition kMinReplicationFactorForAck2 : Z := 2.
Definition kOrderStrong : Z := 5.
Definition kReplicationNotStarted : Z := U64_MAX.
(** The value [(size_t)-1]: nothing to acknowledge. *)
Definition no_ack : Z := U64_MAX.

(** * What a topic acknowledges *)
Record AckTopic := mkAckTopic {
  at_seq_type : SequencerType;
  at_order : Z;
  at_replication_factor : Z;
  at_lazylog_client : bool;
  at_corfu_client : bool;
}.
Definition is_seq (t : AckTopic) (s : SequencerType) : bool := bool_decide (at_seq_type t = s).
Definition is_order5 (t : AckTopic) : bool := is_seq t EMBARCADERO && (at_order t =? kOrderStrong).
Definition SupportsPerClientAppendAckLevel1 (t : AckTopic) : bool :=
  is_seq t LAZYLOG && (at_order t =? kOrderTotal) && at_lazylog_client t.
Definition SupportsPerClientAckLevel1 (t : AckTopic) : bool :=
  match at_seq_type t with
  | CORFU | LAZYLOG => at_order t =? kOrderTotal
  | SCALOG | EMBARCADERO => at_order t =? kOrderPerBroker
  | KAFKA => false
  end.
Definition SupportsPerClientWrittenAckLevel1 (t : AckTopic) : bool := is_seq t EMBARCADERO && (at_order t =? 0).
Definition SupportsPerClientAckLevel2Durable (t : AckTopic) : bool :=
  let replicated := at_replication_factor t >=? kMinReplicationFactorForAck2 in
  match at_seq_type t with
  | EMBARCADERO => replicated && ((at_order t =? 0) || (at_order t =? kOrderStrong))
  | CORFU => (at_order t =? kOrderTotal) && replicated && at_corfu_client t
  | LAZYLOG => (at_order t =? kOrderTotal) && replicated && at_lazylog_client t
  | SCALOG => (at_order t =? kOrderPerBroker) && replicated
  | KAFKA => false
  end.

(** * Frontiers of the clients *)
Definition credit (clients : gmap Z Z) (client count : Z) : gmap Z Z := <[client := default 0 (clients !! client) +u count]> clients.
Definition client_count (clients : gmap Z Z) (client : Z) : Z := default 0 (clients !! client).

(** The replicas of a broker that have started, and the smallest of their last
    offsets.  [done b] is what the replica [b] has reported for the broker. *)
Definition replication_scan (broker replication_factor num_brokers : Z) (done : Z -> Z) : Z * Z :=
  foldl (fun '(ready, m) i =>
    let val := done (default 0 (GetReplicationSetBroker broker replication_factor num_brokers i)) in
    if val =? kReplicationNotStarted then (ready, m) else (ready + 1, if m >? val then val else m))
    (0, U64_MAX) (seqZ 0 replication_factor).

(** The batches of a client wait, by the sequence key they start at, for the
    frontier to pass their end. *)
Record DurableTopic := mkDurable {
  per_client_durable : gmap Z Z;
  order0_durable_logical_count : Z;
  order0_durable_next_sequence_key : Z;
  order0_durable_pending : gmap Z (Z * Z);
  order5_durable_next_goi_by_owner : gmap Z Z;
}.
#[export] Instance eta_Durable : Eta DurableTopic := fun d =>
  mkDurable (per_client_durable d) (order0_durable_logical_count d) (order0_durable_next_sequence_key d) (order0_durable_pending d)
    (order5_durable_next_goi_by_owner d).
Definition new_durable : DurableTopic := mkDurable ∅ 0 0 ∅ ∅.

Definition uses_replication_done_durability (t : AckTopic) : bool := is_seq t EMBARCADERO && (at_order t =? 0).
Definition RecordOrder0DurableBatch (t : AckTopic) (key num_msg client : Z) (d : DurableTopic) : DurableTopic :=
  if negb (uses_replication_done_durability t) || (at_replication_factor t <=? 0) || (num_msg =? 0) then d
  else match order0_durable_pending d !! key with
       | Some _ => d
       | None => d <| order0_durable_pending ::= <[key := (num_msg, client)]> |>
       end.
Fixpoint order0_loop (fuel : nat) (durable_frontier : Z) (d : DurableTopic) : DurableTopic :=
  match fuel with
  | O => d
  | S fuel =>
      if order0_durable_logical_count d <? durable_frontier then
        match order0_durable_pending d !! order0_durable_next_sequence_key d with
        | None => d
        | Some (num_msg, client) =>
            let batch_end := order0_durable_logical_count d +u num_msg in
            if batch_end >? durable_frontier then d
            else order0_loop fuel durable_frontier
              (mkDurable (credit (per_client_durable d) client num_msg) batch_end (order0_durable_next_sequence_key d +u num_msg)
                 (delete (order0_durable_next_sequence_key d) (order0_durable_pending d)) (order5_durable_next_goi_by_owner d))
        end
      else d
  end.
(** Every turn of the loop removes a batch that waits.  [num_brokers] is the
    number of brokers, or the configured maximum where the count is not known. *)
Definition MaybeAdvanceOrder0DurableVisibility (t : AckTopic) (broker num_brokers : Z) (done : Z -> Z) (d : DurableTopic) : DurableTopic :=
  if negb (uses_replication_done_durability t) || (at_replication_factor t <=? 0) then d
  else
    let '(ready, m) := replication_scan broker (at_replication_factor t) num_brokers done in
    if (ready <? at_replication_factor t) || (m =? kReplicationNotStarted) then d
    else order0_loop (size (order0_durable_pending d)) (m +u 1) d.
Definition GetClientDurable (t : AckTopic) (broker num_brokers : Z) (done : Z -> Z) (client : Z) (d : DurableTopic) : DurableTopic * Z :=
  let d := MaybeAdvanceOrder0DurableVisibility t broker num_brokers done d in (d, client_count (per_client_durable d) client).

(** The walk of one owner's cursor over the committed index. *)
Fixpoint durable_scan (fuel : nat) (index : Z -> GOIEntry) (committed_seq durable_logical owner cursor : Z) (clients : gmap Z Z) : Z * gmap Z Z :=
  match fuel with
  | O => (cursor, clients)
  | S fuel =>
      let next := durable_scan fuel index committed_seq durable_logical owner (cursor + 1) in
      let e := index cursor in
      if cursor >? committed_seq then (cursor, clients)
      else if negb (goi_global_seq e =? cursor) then (cursor, clients)
      else if negb (goi_broker_id e =? owner) then next clients
      else if goi_message_count e =? 0 then next clients
      else if durable_logical <? goi_cumulative_message_count e then (cursor, clients)
      else next (if negb (goi_client_id e =? 0) || (goi_message_count e >? 0)
                 then credit clients (u32 (goi_client_id e)) (goi_message_count e) else clients)
  end.
Definition durable_owner (index : Z -> GOIEntry) (committed_seq : Z) (durable_logical : Z -> Z) (d : DurableTopic) (owner : Z) : DurableTopic :=
  let cursor := default 0 (order5_durable_next_goi_by_owner d !! owner) in
  let '(cursor, clients) :=
    durable_scan (Z.to_nat (committed_seq + 1 - cursor)) index committed_seq (durable_logical owner) owner cursor (per_client_durable d) in
  mkDurable clients (order0_durable_logical_count d) (order0_durable_next_sequence_key d) (order0_durable_pending d)
    (<[owner := cursor]> (order5_durable_next_goi_by_owner d)).
Definition MaybeAdvanceOrder5DurableFromCV (t : AckTopic) (index : Z -> GOIEntry) (committed_seq : Z) (durable_logical : Z -> Z)
    (d : DurableTopic) : DurableTopic :=
  if negb (is_order5 t) then d
  else if at_replication_factor t <? kMinReplicationFactorForAck2 then d
  else if committed_seq =? U64_MAX then d
  else foldl (durable_owner index committed_seq durable_logical) d (seqZ 0 NUM_MAX_BROKERS).

(** * Appends of LazyLog *)
Record AppendTopic := mkAppend {
  per_client_lazylog_append : gmap Z Z;
  lazylog_append_progress : Z;
  lazylog_append_next_logical_offset : Z;
  lazylog_metadata_ready : gmap Z (Z * Z);
}.
#[export] Instance eta_Append : Eta AppendTopic := fun a =>
  mkAppend (per_client_lazylog_append a) (lazylog_append_progress a) (lazylog_append_next_logical_offset a) (lazylog_metadata_ready a).
Definition RecordLazyLogMetadataReplicaAck (t : AckTopic) (start num_msg client : Z) (a : AppendTopic) : AppendTopic :=
  if negb (SupportsPerClientAppendAckLevel1 t) || (num_msg =? 0) then a
  else match lazylog_metadata_ready a !! start with
       | Some _ => a
       | None => a <| lazylog_metadata_ready ::= <[start := (num_msg, client)]> |>
       end.
Fixpoint append_loop (fuel : nat) (data_frontier : Z) (a : AppendTopic) : AppendTopic :=
  match fuel with
  | O => a
  | S fuel =>
      match lazylog_metadata_ready a !! lazylog_append_next_logical_offset a with
      | None => a
      | Some (num_msg, client) =>
          let e := lazylog_append_next_logical_offset a +u num_msg in
          if e >? data_frontier then a
          else append_loop fuel data_frontier
            (mkAppend (credit (per_client_lazylog_append a) client num_msg) (lazylog_append_progress a +u num_msg) e
               (delete (lazylog_append_next_logical_offset a) (lazylog_metadata_ready a)))
      end
  end.
(** The frontier is the smallest [value + 1]: one above the smallest value. *)
Definition MaybeAdvanceLazyLogAppendVisibility (t : AckTopic) (broker num_brokers : Z) (done : Z -> Z) (a : AppendTopic) : AppendTopic :=
  if negb (SupportsPerClientAppendAckLevel1 t) || (at_replication_factor t <=? 0) then a
  else
    let '(ready, m) := replication_scan broker (at_replication_factor t) num_brokers done in
    if ready <? at_replication_factor t then a else append_loop (size (lazylog_metadata_ready a)) (m +u 1) a.
Definition GetClientAppend (t : AckTopic) (broker num_brokers : Z) (done : Z -> Z) (client : Z) (a : AppendTopic) : AppendTopic * Z :=
  let a := MaybeAdvanceLazyLogAppendVisibility t broker num_brokers done a in (a, client_count (per_client_lazylog_append a) client).

(** * Offsets read from shared memory *)
(** What a broker reads of a topic's inode and of its own entry of the completion
    vector, and the number of brokers. *)
Record TInodeView := mkTInode {
  ti_seq_type : SequencerType;
  ti_order : Z;
  ti_replication_factor : Z;
  ti_written : Z;
  ti_ordered : Z;
  ti_done : Z -> Z;
  ti_cv : CompletionVectorEntry;
  ti_num_brokers : Z;
}.
Definition ti_is (v : TInodeView) (s : SequencerType) : bool := bool_decide (ti_seq_type v = s).
Definition ti_order5 (v : TInodeView) : bool := ti_is v EMBARCADERO && (ti_order v =? kOrderStrong).
Definition ti_scan (broker : Z) (v : TInodeView) : Z * Z := replication_scan broker (ti_replication_factor v) (ti_num_brokers v) (ti_done v).
Definition ti_clamp (v : TInodeView) (frontier : Z) : Z :=
  if (ti_is v SCALOG || ti_is v LAZYLOG) && (frontier >? ti_ordered v) then ti_ordered v else frontier.
Definition ti_local (v : TInodeView) : Z := if ti_order v =? 0 then ti_written v else ti_ordered v.

(** The count [logical] of a vector entry, or the sentinel where nothing has
    completed. *)
Definition cv_frontier (cv : CompletionVectorEntry) (logical : Z) : Z :=
  if negb (logical =? 0) then logical else if completed_pbr_head cv =? U64_MAX then no_ack else 0.

Definition GetOffsetToAckFast (unified : bool) (broker ack_level last_known_ack : Z) (v : option TInodeView) : Z * bool :=
  match v with
  | None => (no_ack, false)
  | Some v =>
      if ack_level =? 0 then (no_ack, false)
      else
        let rf := ti_replication_factor v in
        let fast_read_value :=
          if (ack_level =? 2) && (rf >? 0) then
            if ti_order5 v && negb unified then cv_frontier (ti_cv v) (completed_logical_offset (ti_cv v))
            else let '(ready, m) := ti_scan broker v in
                 if (ready =? rf) && negb (m =? kReplicationNotStarted) then m +u 1 else no_ack
          else if (ack_level =? 1) && ti_order5 v then cv_frontier (ti_cv v) (sequencer_logical_offset (ti_cv v))
          else if rf >? 0 then
            if ack_level =? 1 then ti_local v
            else if ti_is v CORFU then ti_ordered v
            else let '(ready, m) := ti_scan broker v in
                 if (ready =? rf) && negb (m =? kReplicationNotStarted) then ti_clamp v (m +u 1) else no_ack
          else ti_local v in
        (fast_read_value, negb (fast_read_value =? last_known_ack) && negb (fast_read_value =? no_ack))
  end.

Definition GetOffsetToAck (unified : bool) (broker ack_level : Z) (v : option TInodeView) : Z :=
  match v with
  | None => no_ack
  | Some v =>
      let rf := ti_replication_factor v in
      if (ack_level =? 1) && ti_order5 v then
        let logical := sequencer_logical_offset (ti_cv v) in
        let ordered_count := if logical =? 0 then ti_ordered v else 0 in
        if (logical =? 0) && (completed_pbr_head (ti_cv v) =? U64_MAX) && (ordered_count =? 0) then no_ack
        else Z.max logical ordered_count
      else if (ack_level =? 2) && (rf >? 0) then
        if ti_order5 v && negb unified then cv_frontier (ti_cv v) (completed_logical_offset (ti_cv v))
        else let '(ready, m) := ti_scan broker v in
             if (ready <? rf) || (m =? kReplicationNotStarted) then no_ack else ti_clamp v (m +u 1)
      else if rf >? 0 then
        if ack_level =? 1 then ti_local v
        else if ti_is v CORFU then ti_ordered v
        else let '(ready, m) := ti_scan broker v in
             if ready <? rf then no_ack else ti_clamp v (m +u 1)
      else ti_local v
  end.

(** * The acknowledgement thread *)
Definition AckRelayEpochValid (producing_epoch control_epoch : Z) : bool :=
  (producing_epoch =? 0) || negb (ShouldWithholdAckRelay producing_epoch control_epoch).

(** How a thread ends: a fence from the session's own notification or from a stale
    epoch (committed batch, whether there is one, committed messages, control
    epoch), a socket error, or a closed connection. *)
Inductive AckEnd :=
  | EFenced (note : SessionFenceNotification)
  | EStale (committed_batch_seq : Z) (has_committed_prefix : bool) (committed_msg_hwm control_epoch : Z)
  | ESendFailed
  | EPeerClosed.
Record AckConn := mkConn {
  next_to_ack_offset : Z;
  last_known_ack : Z;
  fast_polls_without_full_check : Z;
  ack_withhold_started_ns : Z;
  last_sent_ack : Z;
  ending : option AckEnd;
  sent : list Z;
}.
Definition new_conn : AckConn := mkConn 0 0 0 0 no_ack None [].

Record AckConfig := mkAckConfig {
  ac_broker : Z;
  ac_level : Z;
  ac_session_epoch : Z;
  ac_lease_ns : Z;
  ac_min_interval_us : Z;
  ac_unified : bool;
}.
(** What one turn of the loop reads. *)
Record AckReads := mkReads {
  rd_topic : option AckTopic;
  rd_fence : option SessionFenceNotification;
  rd_written : Z;
  rd_append : Z;
  rd_ordered : Z;
  rd_durable : Z;
  rd_fast : option TInodeView;
  rd_full : option TInodeView;
  rd_producing_epoch : Z;
  rd_control_epoch : Z;
  rd_now_ns : Z;
  rd_expected_seq : Z;
  rd_goi_found : bool;
  rd_goi_hwm : Z;
  rd_reconnect_hwm : Z;
  rd_since_last_send_us : Z;
  rd_send_ok : bool;
  rd_alive : bool;
}.
#[export] Instance eta_Reads : Eta AckReads := fun r =>
  mkReads (rd_topic r) (rd_fence r) (rd_written r) (rd_append r) (rd_ordered r) (rd_durable r) (rd_fast r) (rd_full r) (rd_producing_epoch r)
    (rd_control_epoch r) (rd_now_ns r) (rd_expected_seq r) (rd_goi_found r) (rd_goi_hwm r) (rd_reconnect_hwm r) (rd_since_last_send_us r)
    (rd_send_ok r) (rd_alive r).
Definition topic_is (r : AckReads) (f : AckTopic -> bool) : bool := match rd_topic r with Some t => f t | None => false end.
Definition kMaxFastPollsBeforeFullCheck : Z := 256.

(** The frontier of the turn, with the number of polls since a full check. *)
Definition observe_ack (cfg : AckConfig) (r : AckReads) (c : AckConn) : Z * Z :=
  let level1 := ac_level cfg =? 1 in
  let level2 := ac_level cfg =? 2 in
  let head := ac_broker cfg =? 0 in
  if level1 && topic_is r SupportsPerClientWrittenAckLevel1 then (rd_written r, 0)
  else if level1 && topic_is r SupportsPerClientAppendAckLevel1 then (rd_append r, 0)
  else if level1 && topic_is r SupportsPerClientAckLevel1 then (rd_ordered r, 0)
  else if level1 && topic_is r is_order5 then (if head then rd_ordered r else no_ack, 0)
  else if level2 && topic_is r is_order5 then (if head then rd_durable r else no_ack, 0)
  else if level2 && topic_is r SupportsPerClientAckLevel2Durable then (rd_durable r, 0)
  else
    let '(fast_read_value, needs_expensive_check) :=
      GetOffsetToAckFast (ac_unified cfg) (ac_broker cfg) (ac_level cfg) (last_known_ack c) (rd_fast r) in
    if needs_expensive_check || (fast_polls_without_full_check c >=? kMaxFastPollsBeforeFullCheck)
    then (GetOffsetToAck (ac_unified cfg) (ac_broker cfg) (ac_level cfg) (rd_full r), 0)
    else (fast_read_value, fast_polls_without_full_check c + 1).

(** The check of the session's epoch: the frontier, the start of the withholding,
    and the fence that ends the thread.  Where the durable index shows that the
    session is not ahead, the code raises the frontier and then drops it, as in
    every other turn that withholds. *)
Definition epoch_gate (cfg : AckConfig) (r : AckReads) (started current_ack : Z) : Z * Z * option AckEnd :=
  if negb (ac_session_epoch cfg =? 0) && negb (current_ack =? no_ack) && topic_is r is_order5 then
    if AckRelayEpochValid (rd_producing_epoch r) (rd_control_epoch r) then (current_ack, 0, None)
    else
      let started := if started =? 0 then rd_now_ns r else started in
      if rd_now_ns r -u started >=? ac_lease_ns cfg then
        let batch_hwm := if rd_expected_seq r >? 0 then rd_expected_seq r - 1 else 0 in
        if ShouldTerminalFenceAckRelay batch_hwm (rd_goi_found r) (rd_goi_hwm r)
        then (current_ack, started, Some (EStale (rd_reconnect_hwm r) (rd_expected_seq r >? 0) current_ack (rd_control_epoch r)))
        else (no_ack, 0, None)
      else (no_ack, started, None)
  else (current_ack, started, None).

Definition send_ack (cfg : AckConfig) (r : AckReads) (ack : Z) (c : AckConn) : AckConn :=
  let 'mkConn next known polls started last e out := c in
  if (ac_min_interval_us cfg >? 0) && (ack =? last) then c
  else if (ac_min_interval_us cfg >? 0) && negb (last =? no_ack) && (rd_since_last_send_us r <? ac_min_interval_us cfg) then c
  else if negb (ack =? no_ack) && (next <=? ack) then
    if rd_send_ok r then mkConn (ack +u 1) known polls started ack e (out ++ [ack])
    else mkConn (ack +u 1) known polls started last (Some ESendFailed) out
  else if rd_alive r then c else mkConn next known polls started last (Some EPeerClosed) out.

Definition AckThread_turn (cfg : AckConfig) (r : AckReads) (c : AckConn) : AckConn :=
  let 'mkConn next known polls started last e out := c in
  match e with
  | Some _ => c
  | None =>
      match (if (ac_broker cfg =? 0) && topic_is r (fun _ => true) then rd_fence r else None) with
      | Some note => mkConn next known polls started last (Some (EFenced note)) out
      | None =>
          let '(current_ack, polls) := observe_ack cfg r c in
          let '(current_ack, started, fence) := epoch_gate cfg r started current_ack in
          match fence with
          | Some f => mkConn next known polls started last (Some f) out
          | None =>
              if negb (current_ack =? no_ack) && (next <=? current_ack)
              then send_ack cfg r current_ack (mkConn next current_ack polls started last None out)
              else mkConn next known polls started last None out
          end
      end
  end.

(** * Reading the replicas *)
Lemma replication_fold (val : Z -> Z) : forall l ready m,
  let '(ready', m') := foldl (fun '(ready, m) i => if val i =? kReplicationNotStarted then (ready, m)
    else (ready + 1, if m >? val i then val i else m)) (ready, m) l in
  ready' <= ready + Z.of_nat (length l) /\ m' <= m /\ (m' = m \/ exists i, m' = val i) /\
  (ready' = ready + Z.of_nat (length l) -> Forall (fun i => val i <> kReplicationNotStarted /\ m' <= val i) l).
Proof.
  induction l as [|i l IH]; intros ready m; cbn [foldl length]; [split_and!; [lia|lia|by left|constructor]|].
  destruct (val i =? kReplicationNotStarted) eqn:E; bool_props.
  - specialize (IH ready m). destruct (foldl _ _ l) as [ready' m']. destruct IH as (? & ? & ? & ?). split_and!; [lia|lia|done|lia].
  - specialize (IH (ready + 1) (if m >? val i then val i else m)). destruct (foldl _ _ l) as [ready' m']. destruct IH as (H1 & H2 & H4 & H3).
    destruct (m >? val i) eqn:Em; bool_props; (split_and!; [lia|lia|destruct H4; eauto|]); intros Hr; (constructor; [split; [done|lia]|apply H3; lia]).
Qed.
Lemma replication_scan_spec broker rf n done ready m : replication_scan broker rf n done = (ready, m) -> rf <= ready ->
  m <= U64_MAX /\ (m = U64_MAX \/ exists b, m = done b) /\ forall i, 0 <= i < rf -> done (Z.rem (broker + i) n) <> kReplicationNotStarted /\ m <= done (Z.rem (broker + i) n).
Proof.
  intros Hs Hr. pose proof (replication_fold (fun i => done (default 0 (GetReplicationSetBroker broker rf n i))) (seqZ 0 rf) 0 U64_MAX) as H.
  unfold replication_scan in Hs. cbv beta zeta in H, Hs. rewrite Hs in H. destruct H as (H1 & H2 & H4 & H3). rewrite length_seqZ in H1, H3.
  split; [done|]. split; [destruct H4 as [?|[? ?]]; eauto|].
  intros i Hi. assert (Hall := H3 ltac:(lia)). rewrite Forall_forall in Hall. specialize (Hall i). rewrite elem_of_seqZ in Hall.
  specialize (Hall ltac:(lia)). unfold GetReplicationSetBroker in Hall. by replace (i >=? rf) with false in Hall by lia.
Qed.

(** An answer for level 2 of a topic that is replicated by its batch ring waits for
    every replica: all of them have reported, and have reached the count, and
    under the baselines the count is ordered as well. *)
Theorem ack2_waits_for_every_replica unified broker v ack :
  GetOffsetToAck unified broker 2 (Some v) = ack -> ack <> no_ack -> 0 < ti_replication_factor v -> (ti_order5 v = false \/ unified = true) ->
  (forall b, is_u64 (ti_done v b)) ->
  (forall i, 0 <= i < ti_replication_factor v ->
    ti_done v (Z.rem (broker + i) (ti_num_brokers v)) <> kReplicationNotStarted /\ ack <= ti_done v (Z.rem (broker + i) (ti_num_brokers v)) + 1) /\
  ((ti_seq_type v = SCALOG \/ ti_seq_type v = LAZYLOG) -> ack <= ti_ordered v).
Proof.
  unfold GetOffsetToAck. intros Ha Hn Hrf Hpath Hd. cbn [Z.eqb Pos.eqb andb] in Ha. replace (_ >? 0) with true in Ha by lia.
  assert (E : ti_order5 v && negb unified = false) by (destruct Hpath as [-> | ->]; [done|apply andb_false_r]). rewrite E in Ha.
  destruct (ti_scan broker v) as [ready m] eqn:Es. destruct (_ || _) eqn:Eg; [congruence|]. apply orb_false_iff in Eg as [Eg Em]. bool_props.
  destruct (replication_scan_spec _ _ _ _ _ _ Es ltac:(lia)) as (Hm & Hmd & Hall).
  assert (Hle : ack <= m + 1 /\ ((ti_seq_type v = SCALOG \/ ti_seq_type v = LAZYLOG) -> ack <= ti_ordered v)).
  { assert (Hu : m +u 1 <= m + 1).
    { assert (0 <= m) by (destruct Hmd as [->|[b ->]]; [done|apply Hd]). unfold u64. apply Z.mod_le; lia. }
    unfold ti_clamp, ti_is in Ha. destruct (_ && _) eqn:Ec.
    - apply andb_true_iff in Ec as [_ Ec]. bool_props. split; [lia|]. intros _. lia.
    - apply andb_false_iff in Ec as [Ec|Ec]; (split; [lia|]); intros Ht; [|bool_props; lia].
      apply orb_false_iff in Ec as [E1%bool_decide_eq_false E2%bool_decide_eq_false]. tauto. }
  destruct Hle as [Hle Ho]. split; [|done]. intros i Hi. destruct (Hall i Hi). split; [done|lia].
Qed.

(** The release of order-0 batches runs until the frontier: it ends where the count
    has reached it, the next batch has not been recorded, or it ends beyond the
    frontier; and it never passes it. *)
Definition order0_blocked (frontier : Z) (d : DurableTopic) : Prop :=
  frontier <= order0_durable_logical_count d \/ order0_durable_pending d !! order0_durable_next_sequence_key d = None \/
  exists num_msg client, order0_durable_pending d !! order0_durable_next_sequence_key d = Some (num_msg, client) /\
    frontier < order0_durable_logical_count d +u num_msg.
Lemma order0_loop_spec frontier : forall fuel d, (size (order0_durable_pending d) <= fuel)%nat ->
  order0_blocked frontier (order0_loop fuel frontier d) /\
  (order0_durable_logical_count d <= frontier -> order0_durable_logical_count (order0_loop fuel frontier d) <= frontier).
Proof.
  induction fuel as [|fuel IH]; intros d Hf; cbn [order0_loop].
  - split; [|done]. right. left. assert (order0_durable_pending d = ∅) as -> by (apply map_size_empty_inv; lia). apply lookup_empty.
  - destruct (_ <? frontier) eqn:E; bool_props; [|split; [left; lia|done]].
    destruct (order0_durable_pending d !! _) as [[num_msg client]|] eqn:Ep; [|split; [right; by left|done]].
    destruct (_ >? frontier) eqn:Ee; bool_props.
    + split; [|done]. right. right. exists num_msg, client. split; [done|lia].
    + set (d' := mkDurable _ _ _ _ _). destruct (IH d') as [H1 H2].
      { change (order0_durable_pending d') with (delete (order0_durable_next_sequence_key d) (order0_durable_pending d)).
        rewrite map_size_delete, Ep. lia. }
      split; [done|]. intros _. apply H2. unfold d'. cbn [order0_durable_logical_count]. lia.
Qed.
Theorem order0_release_reaches_frontier t broker n done d m :
  replication_scan broker (at_replication_factor t) n done = (at_replication_factor t, m) -> m <> kReplicationNotStarted ->
  uses_replication_done_durability t = true -> 0 < at_replication_factor t ->
  let d' := MaybeAdvanceOrder0DurableVisibility t broker n done d in
  order0_blocked (m +u 1) d' /\ (order0_durable_logical_count d <= m +u 1 -> order0_durable_logical_count d' <= m +u 1).
Proof.
  intros Hs Hm Hu Hrf. unfold MaybeAdvanceOrder0DurableVisibility. rewrite Hu, Hs. replace (_ <=? 0) with false by lia. rewrite Z.ltb_irrefl.
  replace (m =? kReplicationNotStarted) with false by lia. cbn [negb orb]. by apply order0_loop_spec.
Qed.

(** * Turns of the thread *)
#[local] Arguments observe_ack : simpl never.
#[local] Arguments epoch_gate : simpl never.
Lemma epoch_gate_ack cfg r started ack ack' started' : epoch_gate cfg r started ack = (ack', started', None) -> ack' = ack \/ ack' = no_ack.
Proof. unfold epoch_gate. repeat case_match; intros [= <- <-]; auto. Qed.
(** A turn sends nothing, or the frontier it has observed, which is above all it has
    sent. *)
Lemma ack_turn_cases cfg r c :
  sent (AckThread_turn cfg r c) = sent c /\ (next_to_ack_offset (AckThread_turn cfg r c) = next_to_ack_offset c \/ ending (AckThread_turn cfg r c) <> None) \/
  let ack := (observe_ack cfg r c).1 in ending c = None /\ ack <> no_ack /\ next_to_ack_offset c <= ack /\
    next_to_ack_offset (AckThread_turn cfg r c) = ack +u 1 /\ sent (AckThread_turn cfg r c) = sent c ++ [ack].
Proof.
  destruct c as [next known polls started last e out]. unfold AckThread_turn. destruct e; [left; auto|].
  destruct (if _ && _ then _ else _); [left; auto|]. destruct (observe_ack _ _ _) as [ack polls'].
  destruct (epoch_gate _ _ _ _) as [[ack' started'] [f|]] eqn:Eg; [left; auto|]. apply epoch_gate_ack in Eg.
  destruct (_ && _) eqn:E; [|left; auto]. destruct Eg as [->| ->]; [|by rewrite Z.eqb_refl in E]. unfold send_ack.
  destruct (_ && (ack =? last)); [left; auto|]. destruct (_ && (_ <? _)); [left; auto|]. rewrite E. apply andb_true_iff in E as [E1 E2]. bool_props.
  destruct (rd_send_ok r); [right|left; auto]. cbn. split_and!; done || lia.
Qed.
Record conn_ok (c : AckConn) : Prop := {
  co_sorted : StronglySorted Z.lt (sent c);
  co_next : ending c = None -> Forall (fun a => a < next_to_ack_offset c) (sent c);
}.
Definition ack_thread (cfg : AckConfig) (rs : list AckReads) : AckConn := foldl (fun c r => AckThread_turn cfg r c) new_conn rs.
Lemma ack_turn_ended cfg r c : ending (AckThread_turn cfg r c) = None -> ending c = None.
Proof. destruct c as [? ? ? ? ? [e|] ?]; [|done]. done. Qed.
Lemma ack_turn_ok cfg r c : conn_ok c -> is_u64 (observe_ack cfg r c).1 -> conn_ok (AckThread_turn cfg r c).
Proof.
  intros [Hs Hn] Hu. pose proof (ack_turn_ended cfg r c) as He. destruct (ack_turn_cases cfg r c) as [[E1 E2]|(Ee & Ha & Hle & E1 & E2)].
  - split; rewrite E1; [done|]. intros H. destruct E2 as [->|]; [auto|congruence].
  - set (ack := (observe_ack cfg r c).1) in *. clearbody ack. assert (E3 : ack +u 1 = ack + 1) by (unfold no_ack in *; word_lia).
    specialize (Hn Ee). rewrite Forall_forall in Hn. split; rewrite E2.
    + apply StronglySorted_app. split_and!; [|done|repeat constructor]. intros x y Hx ->%list_elem_of_singleton. specialize (Hn x Hx). cbn in Hn. lia.
    + intros _. rewrite E1, E3. apply Forall_app. split; [|repeat constructor; lia]. apply Forall_forall. intros x Hx. specialize (Hn x Hx). cbn in Hn. lia.
Qed.

(** Whether the client has closed the connection has no influence on a turn: the
    branch that looks is behind a condition that excludes it. *)
Theorem closed_connection_is_not_noticed cfg r c alive : AckThread_turn cfg (r <| rd_alive := alive |>) c = AckThread_turn cfg r c.
Proof.
  destruct c as [next known polls started last e out]. unfold AckThread_turn. destruct e; [done|].
  change (topic_is (r <| rd_alive := alive |>)) with (topic_is r). change (rd_fence (r <| rd_alive := alive |>)) with (rd_fence r).
  destruct (if _ && _ then _ else _); [done|].
  change (observe_ack cfg (r <| rd_alive := alive |>)) with (observe_ack cfg r). destruct (observe_ack _ _ _) as [ack polls'].
  change (epoch_gate cfg (r <| rd_alive := alive |>)) with (epoch_gate cfg r).
  destruct (epoch_gate _ _ _ _) as [[ack' started'] [f|]]; [done|]. destruct (_ && _) eqn:E; [|done]. unfold send_ack. by rewrite E.
Qed.

(** While a session's stamp is older than the control epoch nothing is sent, also
    in the turn that finds the session's batches in the durable index. *)
Theorem stale_epoch_sends_nothing cfg r c :
  ac_session_epoch cfg <> 0 -> topic_is r is_order5 = true -> AckRelayEpochValid (rd_producing_epoch r) (rd_control_epoch r) = false ->
  sent (AckThread_turn cfg r c) = sent c.
Proof.
  intros He Ht Hv. destruct c as [next known polls started last e out]. unfold AckThread_turn. destruct e; [done|].
  destruct (if _ && _ then _ else _); [done|]. destruct (observe_ack _ _ _) as [ack polls']. unfold epoch_gate.
  rewrite Ht, Hv. replace (ac_session_epoch cfg =? 0) with false by lia. cbn [negb andb].
  destruct (ack =? no_ack) eqn:Ea; cbn [negb andb]; [by rewrite Ea|]. destruct (_ >=? _); [|done]. by destruct (ShouldTerminalFenceAckRelay _ _ _).
Qed.

(** What a poll of shared memory takes without a full check is nothing, or what the
    thread knew already. *)
Lemma GetOffsetToAckFast_unchanged unified broker level known v ack :
  GetOffsetToAckFast unified broker level known v = (ack, false) -> ack = no_ack \/ ack = known.
Proof.
  unfold GetOffsetToAckFast. destruct v as [v|]; [|intros [= <-]; by left]. destruct (level =? 0); [intros [= <-]; by left|].
  intros [= <- E]. apply andb_false_iff in E as [E|E]; apply negb_false_iff, Z.eqb_eq in E; [by right|by left].
Qed.
Theorem unchecked_poll_repeats cfg r c :
  (observe_ack cfg r c).2 <> 0 -> (observe_ack cfg r c).1 = no_ack \/ (observe_ack cfg r c).1 = last_known_ack c.
Proof.
  unfold observe_ack. do 6 (destruct (_ && _); [done|]). destruct (GetOffsetToAckFast _ _ _ _ _) as [ack [|]] eqn:E; [done|].
  cbn [orb]. destruct (_ >=? _); [done|]. intros _. by apply GetOffsetToAckFast_unchanged in E.
Qed.
