(* ===== verification/DurableAck.v ===== *)
(** Durable acknowledgements from end to end: the chains of all source brokers
    (ChainReplication.v), the attribution of what they complete to the clients and
    the thread that acknowledges it to one of them (AckFrontier.v), interleaved.
    A count that was sent to a client is the number of messages in batches of that
    client which every replica has on disk, and it reaches everything committed. *)

From S2P Require Import Prelude Bytes EpochBuffer Commit ClientState Order5State Export.
From S2P Require Import ChainReplication ChainDurability AckFrontier.

(** * Crediting the clients *)
Lemma client_count_credit m k x c :
  client_count (credit m k x) c = if decide (c = k) then client_count m k +u x else client_count m c.
Proof.
  unfold client_count, credit. destruct (decide (c = k)) as [->|Hne]; [by rewrite lookup_insert_eq|by rewrite lookup_insert_ne].
Qed.

Section durable.
  Context (R n : Z) (index : Z -> GOIEntry) (epoch : Z) (cxl : memory).
  Context (t : AckTopic) (done : Z -> Z) (client : Z) (cfg : AckConfig).
#[local] Abbreviation cum i := (goi_cumulative_message_count (index i)).
#[local] Abbreviation owner i := (goi_broker_id (index i)).
#[local] Abbreviation count i := (goi_message_count (index i)).
  Hypothesis brokers_ok : n <= NUM_MAX_BROKERS.
  Hypothesis factor_ok : kMinReplicationFactorForAck2 <= R <= n.
  Hypothesis entry_ok : forall i, 0 <= i -> goi_global_seq (index i) = i /\ 0 <= owner i < n /\ 0 < goi_payload_size (index i) /\ 0 < count i.
  (** The sequencer's running count of a broker's messages. *)
  Hypothesis cumulative_pos : forall i, 0 <= i -> 0 < cum i.
  Hypothesis cumulative_grows : forall i j, 0 <= i < j -> owner i = owner j -> cum i < cum j.
  Hypothesis topic_ok : is_order5 t = true /\ at_replication_factor t = R.
  Hypothesis config_ok : ac_broker cfg = 0 /\ ac_level cfg = 2.

(** ** The system *)
Record AckWorld := mkWorld {
  aw_committed : Z;
  aw_chains : Z -> Chain;
  aw_durable : DurableTopic;
  aw_conn : AckConn;
}.
(** A commit of the sequencer, a step of a thread of the chain of broker [b], a
    pass of the head over the vector, and a turn of the acknowledgement thread. *)
Inductive aw_event :=
  | WCommit
  | WChain (b : Z) (a : act)
  | WAdvance
  | WAck (r : AckReads).
Definition chain_step (b : Z) : Chain -> act -> Chain := chain_act b R n index epoch cxl.
Definition is_commit (a : act) : bool := match a with ACommit => true | _ => false end.
Definition aw_step (w : AckWorld) (e : aw_event) : AckWorld :=
  let 'mkWorld c chains d conn := w in
  match e with
  | WCommit => mkWorld (c + 1) (fun b => chain_step b (chains b) ACommit) d conn
  | WChain b a => if is_commit a then w else mkWorld c (fun b' => if b' =? b then chain_step b (chains b) a else chains b') d conn
  | WAdvance => mkWorld c chains (MaybeAdvanceOrder5DurableFromCV t index (u64 c) (fun b => cv_logical (chains b)) d) conn
  | WAck r =>
      let '(d, durable) := GetClientDurable t 0 n done client d in
      mkWorld c chains d (AckThread_turn cfg (r <| rd_topic := Some t |> <| rd_durable := durable |>) conn)
  end.
Definition aw_start : AckWorld := mkWorld (-1) (fun b => chain_start b R n) new_durable new_conn.
Definition aw_run (evs : list aw_event) : AckWorld := foldl aw_step aw_start evs.

(** ** One walk of a cursor *)
Definition total_messages (l : list Z) : Z := foldr (fun i s => count i + s) 0 l.
Definition of_client (c : Z) (l : list Z) : list Z := filter (fun i => u32 (goi_client_id (index i)) = c) l.
Lemma total_messages_app a b : total_messages (a ++ b) = total_messages a + total_messages b.
Proof. unfold total_messages. induction a as [|i a IH]; cbn [app foldr]; [done|]. rewrite IH. lia. Qed.
Lemma total_messages_perm a b : a ≡ₚ b -> total_messages a = total_messages b.
Proof. unfold total_messages. induction 1; cbn [foldr]; lia. Qed.
#[local] Arguments total_messages : simpl never.

Definition walked (b x y : Z) : list Z := filter (fun i => owner i = b) (seqZ x (y - x)).
Lemma walked_nil b x : walked b x x = [].
Proof. unfold walked. by rewrite Z.sub_diag. Qed.
Lemma walked_cons b x y : x < y -> walked b x y = (if decide (owner x = b) then [x] else []) ++ walked b (x + 1) y.
Proof.
  intros Hx. unfold walked. rewrite seqZ_cons by lia. rewrite filter_cons. replace (Z.succ x) with (x + 1) by lia.
  replace (Z.pred (y - x)) with (y - (x + 1)) by lia. by destruct (decide _).
Qed.
Lemma elem_of_walked b x y i : i ∈ walked b x y <-> owner i = b /\ x <= i < y.
Proof. unfold walked. rewrite list_elem_of_filter, elem_of_seqZ. split; intros [? ?]; (split; [done|lia]). Qed.

Lemma durable_scan_spec c dl b : forall fuel x m x' m', durable_scan fuel index c dl b x m = (x', m') -> 0 <= x -> (forall k, is_u64 (client_count m k)) ->
  x <= x' /\ (x' = x \/ x' <= c + 1) /\ (forall i, i ∈ walked b x x' -> cum i <= dl) /\
  (forall k, client_count m' k = client_count m k +u total_messages (of_client k (walked b x x'))) /\
  ((Z.to_nat (c + 1 - x) <= fuel)%nat -> c < x' \/ owner x' = b /\ dl < cum x').
Proof.
  induction fuel as [|fuel IH]; intros x m x' m' Hs Hx Hm; cbn [durable_scan] in Hs.
  - injection Hs as <- <-. rewrite walked_nil. split_and!; [lia|by left|set_solver| |lia].
    intros k. unfold of_client, total_messages. cbn. rewrite Z.add_0_r. symmetry. by apply u64_id.
  - assert (Hstop : (x', m') = (x, m) -> (c < x \/ owner x = b /\ dl < cum x) ->
      x <= x' /\ (x' = x \/ x' <= c + 1) /\ (forall i, i ∈ walked b x x' -> cum i <= dl) /\
      (forall k, client_count m' k = client_count m k +u total_messages (of_client k (walked b x x'))) /\
      ((Z.to_nat (c + 1 - x) <= S fuel)%nat -> c < x' \/ owner x' = b /\ dl < cum x')).
    { intros [= -> ->] H. rewrite walked_nil. split_and!; [lia|by left|set_solver| |by intros _].
      intros k. unfold of_client, total_messages. cbn. rewrite Z.add_0_r. symmetry. by apply u64_id. }
    destruct (entry_ok x Hx) as (E1 & _ & _ & E2). destruct (x >? c) eqn:Ec; bool_props; [apply Hstop; [done|left; lia]|].
    rewrite E1, Z.eqb_refl in Hs. cbn [negb] in Hs. destruct (owner x =? b) eqn:Eo; bool_props; cbn [negb] in Hs.
    + replace (count x =? 0) with false in Hs by lia. destruct (dl <? cum x) eqn:Ed; bool_props; [apply Hstop; [done|right; lia]|].
      replace (count x >? 0) with true in Hs by lia. rewrite orb_true_r in Hs. apply IH in Hs as (H1 & H2 & H3 & H4 & H5); [|lia|].
      * rewrite (walked_cons b x x'), decide_True by (done || lia). split_and!; [lia|lia| | |intros ?; apply H5; lia].
        -- intros i [->%list_elem_of_singleton|Hi]%elem_of_app; [done|by apply H3].
        -- intros k. rewrite H4, client_count_credit. unfold of_client. rewrite filter_app, total_messages_app, filter_cons, filter_nil.
           rewrite Z.add_comm. destruct (decide (k = _)) as [->|Hne].
           ++ rewrite decide_True by done. unfold u64. unfold total_messages at 2. cbn [foldr]. rewrite Z.add_mod_idemp_r by done. f_equal. lia.
           ++ rewrite decide_False by congruence. unfold total_messages at 2. cbn [foldr]. f_equal. lia.
      * intros k. rewrite client_count_credit. case_decide; [apply u64_range|done].
    + apply IH in Hs as (H1 & H2 & H3 & H4 & H5); [|lia|done].
      rewrite (walked_cons b x x'), decide_False by (done || lia). split_and!; [lia|lia|done|done|intros ?; apply H5; lia].
Qed.

(** ** What has been credited *)
Definition cursor (d : DurableTopic) (b : Z) : Z := default 0 (order5_durable_next_goi_by_owner d !! b).
(** The entries [l] that were credited are those behind the cursors of their
    owners; the vector counts them, and they make up the counts of the clients. *)
Record dinv (c : Z) (vec : Z -> Z) (d : DurableTopic) (l : list Z) : Prop := {
  di_nodup : NoDup l;
  di_cursor : forall b, 0 <= cursor d b <= c + 1;
  di_in : forall i, i ∈ l <-> 0 <= i < cursor d (owner i);
  di_vec : forall i, i ∈ l -> cum i <= vec (owner i);
  di_count : forall k, client_count (per_client_durable d) k = u64 (total_messages (of_client k l));
}.
Lemma dinv_mono c c' vec vec' d l : c <= c' -> (forall b, vec b <= vec' b) -> dinv c vec d l -> dinv c' vec' d l.
Proof.
  intros Hc Hv [H1 H2 H3 H4 H5]. constructor; try done.
  - intros b. specialize (H2 b). lia.
  - intros i Hi. etrans; [by apply H4|apply Hv].
Qed.
(** Where the walk of an owner has ended. *)
Definition at_end (c : Z) (vec : Z -> Z) (d : DurableTopic) (b : Z) : Prop :=
  c < cursor d b \/ owner (cursor d b) = b /\ vec b < cum (cursor d b).
Lemma durable_owner_inv c cs vec d l b : cs <= c -> dinv c vec d l ->
  let d' := durable_owner index cs vec d b in
  (exists l', dinv c vec d' (l ++ l')) /\ at_end cs vec d' b /\ forall b', b' <> b -> cursor d' b' = cursor d b'.
Proof.
  intros Hc [H1 H2 H3 H4 H5]. unfold durable_owner. fold (cursor d b).
  destruct (durable_scan _ _ _ _ _ _ _) as [x' m'] eqn:Es. cbv zeta. set (d' := mkDurable _ _ _ _ _).
  assert (Hb : cursor d' b = x') by (unfold cursor, d'; cbn; by rewrite lookup_insert_eq).
  assert (Hne : forall b', b' <> b -> cursor d' b' = cursor d b') by (intros b' ?; unfold cursor, d'; cbn; by rewrite lookup_insert_ne).
  assert (Hm : per_client_durable d' = m') by done. clearbody d'.
  apply durable_scan_spec in Es as (S1 & S2 & S3 & S4 & S5); [|apply H2|intros k; rewrite H5; apply u64_range].
  split_and!; [|unfold at_end; rewrite Hb; apply S5; done|done].
  assert (Hcur : forall i, cursor d' i = if decide (i = b) then x' else cursor d i) by (intros i; case_decide as E; [by rewrite E|by apply Hne]).
  exists (walked b (cursor d b) x'). constructor.
  - apply NoDup_app. split_and!; [done| |apply NoDup_filter, NoDup_seqZ]. intros i Hi%H3 [<- Hw]%elem_of_walked. lia.
  - intros b'. rewrite Hcur. pose proof (H2 b'). pose proof (H2 b). case_decide; lia.
  - intros i. rewrite elem_of_app, H3, elem_of_walked, Hcur. pose proof (H2 b). case_decide as E; [rewrite E in *|]; lia.
  - intros i [Hi|Hi]%elem_of_app; [by apply H4|]. apply elem_of_walked in Hi as Hi'. destruct Hi' as [<- _]. by apply S3.
  - intros k. rewrite Hm, S4, H5. unfold of_client. rewrite filter_app, total_messages_app. unfold u64. by rewrite Z.add_mod_idemp_l.
Qed.
Lemma durable_owners_inv c cs vec : cs <= c -> forall bs d l, NoDup bs -> dinv c vec d l ->
  let d' := foldl (durable_owner index cs vec) d bs in
  (exists l', dinv c vec d' (l ++ l')) /\ (forall b, b ∈ bs -> at_end cs vec d' b) /\ forall b, b ∉ bs -> cursor d' b = cursor d b.
Proof.
  intros Hc. induction bs as [|b bs IH]; intros d l Hn Hd; cbn [foldl].
  - split_and!; [exists []; by rewrite app_nil_r|set_solver|done].
  - apply NoDup_cons in Hn as [Hb Hn]. destruct (durable_owner_inv c cs vec d l b Hc Hd) as ([l1 H1] & H2 & H3).
    destruct (IH _ _ Hn H1) as ([l2 H4] & H5 & H6). split_and!.
    + exists (l1 ++ l2). by rewrite (assoc_L (++)).
    + intros b' [->|Hb']%elem_of_cons; [|by apply H5]. unfold at_end in *. by rewrite H6.
    + intros b' [Hne Hb']%not_elem_of_cons. rewrite H6 by done. by apply H3.
Qed.
Lemma advance_inv c vec d l : -1 <= c -> dinv c vec d l ->
  let d' := MaybeAdvanceOrder5DurableFromCV t index (u64 c) vec d in
  (exists l', dinv c vec d' (l ++ l')) /\ (0 <= c < U64_MAX -> forall b, 0 <= b < NUM_MAX_BROKERS -> at_end c vec d' b).
Proof.
  intros Hc Hd. destruct topic_ok as [Ht Hr]. unfold MaybeAdvanceOrder5DurableFromCV. rewrite Ht, Hr. cbn [negb].
  replace (R <? _) with false by lia. destruct (u64 c =? U64_MAX) eqn:E; bool_props.
  - split; [exists []; by rewrite app_nil_r|]. intros Hb. rewrite u64_id in E by word_lia. lia.
  - assert (u64 c <= c) by (unfold u64, U64_MAX in *; destruct (decide (c = -1)) as [->|]; [done|apply Z.mod_le; lia]).
    destruct (durable_owners_inv c (u64 c) vec ltac:(done) (seqZ 0 NUM_MAX_BROKERS) d l (NoDup_seqZ _ _) Hd) as (H1 & H2 & _).
    split; [done|]. intros Hb b Hbr. specialize (H2 b). rewrite u64_id in H2 |- * by word_lia. apply H2, elem_of_seqZ. lia.
Qed.

(** ** Runs *)
Definition acts_of (b : Z) (e : aw_event) : list act :=
  match e with
  | WCommit => [ACommit]
  | WChain b' a => if is_commit a then [] else if b =? b' then [a] else []
  | WAdvance | WAck _ => []
  end.
Lemma aw_step_chain w e b : aw_chains (aw_step w e) b = foldl (chain_step b) (aw_chains w b) (acts_of b e).
Proof.
  destruct w as [c chains d conn], e as [|b' a| |r]; cbn [aw_step acts_of]; [done| |done|].
  - destruct (is_commit a); [done|]. cbn [aw_chains]. by destruct (Z.eqb_spec b b') as [->|].
  - by destruct (GetClientDurable _ _ _ _ _ _).
Qed.
Lemma aw_run_chain evs b : aw_chains (aw_run evs) b = chain_run b R n index epoch cxl (evs ≫= acts_of b).
Proof.
  induction evs as [|e evs IH] using rev_ind; [done|]. unfold aw_run in *. rewrite foldl_app. cbn [foldl]. rewrite aw_step_chain, IH.
  rewrite bind_app. unfold chain_run. rewrite foldl_app. cbn [mbind list_bind]. by rewrite app_nil_r.
Qed.
Lemma chain_act_committed b w a : is_commit a = false -> committed (chain_step b w a) = committed w.
Proof.
  intros Ha. assert (Hon : forall b f, committed (on_replica w b f) = committed w) by (intros b' f; unfold on_replica; by destruct (replicas w !! b')).
  unfold chain_step. destruct a as [|b'|b' rc|b'|b'|b' ok|b'|b'|b']; cbn [chain_act]; try apply Hon; [done|].
  destruct (replicas w !! b') as [r|]; [|done]. unfold token_turn. destruct (token_pc (pipe r)) as [[tk u]|]; [|done].
  destruct (_ <? _); [done|]. destruct (_ =? role _ _ _ _); cbn [fst snd]; by destruct (_ && negb u).
Qed.
Lemma aw_run_committed evs b : committed (aw_chains (aw_run evs) b) = aw_committed (aw_run evs).
Proof.
  induction evs as [|e evs IH] using rev_ind; [done|]. unfold aw_run in *. rewrite foldl_app. cbn [foldl]. set (w := foldl _ _ evs) in *.
  clearbody w. rewrite aw_step_chain. destruct w as [c chains d conn]. destruct e as [|b' a| |r]; cbn [acts_of aw_step].
  - cbn in *. by rewrite IH.
  - destruct (is_commit a) eqn:Ea; [done|]. destruct (b =? b'); [|done]. cbn [foldl]. by rewrite chain_act_committed.
  - done.
  - by destruct (GetClientDurable _ _ _ _ _ _).
Qed.
Lemma aw_step_vector_grows w e b : cv_logical (aw_chains w b) <= cv_logical (aw_chains (aw_step w e) b).
Proof.
  rewrite aw_step_chain. generalize (aw_chains w b). induction (acts_of b e) as [|a l IH]; intros x; [done|].
  cbn [foldl]. etrans; [|apply IH]. apply chain_act_vector_grows.
Qed.

(** At order 5 a client's count is read as it stands, and is what a turn observes. *)
Lemma GetClientDurable_order5 d : GetClientDurable t 0 n done client d = (d, client_count (per_client_durable d) client).
Proof.
  destruct topic_ok as [Ht _]. unfold GetClientDurable, MaybeAdvanceOrder0DurableVisibility.
  assert (uses_replication_done_durability t = false) as ->; [|done].
  unfold is_order5 in Ht. apply andb_true_iff in Ht as [_ Ht]. unfold uses_replication_done_durability, kOrderStrong in *. bool_props.
  rewrite Ht. apply andb_false_r.
Qed.
Lemma observe_ack_order5 r x conn : (observe_ack cfg (r <| rd_topic := Some t |> <| rd_durable := x |>) conn).1 = x.
Proof.
  destruct topic_ok as [Ht _], config_ok as [Hb Hl]. unfold observe_ack, topic_is. rewrite Hb, Hl.
  destruct r. cbn. by rewrite Ht.
Qed.

Lemma aw_run_inv evs : let w := aw_run evs in
  -1 <= aw_committed w /\ conn_ok (aw_conn w) /\
  exists l, dinv (aw_committed w) (fun b => cv_logical (aw_chains w b)) (aw_durable w) l /\
    forall a, a ∈ sent (aw_conn w) -> exists l', l' ⊆ l /\ NoDup l' /\ a = u64 (total_messages (of_client client l')).
Proof.
  induction evs as [|e evs (Hc & Hk & l & Hd & Hs)] using rev_ind.
  { split_and!; [done|split; constructor|]. exists []. split; [|intros a Ha; by apply elem_of_nil in Ha]. constructor.
    - constructor.
    - intros b. done.
    - intros i. split; [by intros ?%elem_of_nil|]. change (cursor _ _) with 0. lia.
    - by intros i ?%elem_of_nil.
    - done. }
  unfold aw_run in *. rewrite foldl_app. cbn [foldl]. set (w := foldl _ _ evs) in *. clearbody w.
  assert (Hv := aw_step_vector_grows w e). set (w' := aw_step w e) in *.
  assert (Hgrow : aw_committed w <= aw_committed w' -> aw_durable w' = aw_durable w -> aw_conn w' = aw_conn w ->
    -1 <= aw_committed w' /\ conn_ok (aw_conn w') /\
    exists l, dinv (aw_committed w') (fun b => cv_logical (aw_chains w' b)) (aw_durable w') l /\
      forall a, a ∈ sent (aw_conn w') -> exists l', l' ⊆ l /\ NoDup l' /\ a = u64 (total_messages (of_client client l'))).
  { intros H1 -> ->. split_and!; [lia|done|]. exists l. split; [|done]. by eapply dinv_mono; [| |exact Hd]. }
  destruct w as [c chains d conn]. unfold w' in *. clear w'. destruct e as [|b a| |r]; cbn [aw_step] in *.
  - apply Hgrow; [cbn; lia|done|done].
  - destruct (is_commit a); by apply Hgrow.
  - clear Hgrow. cbn [aw_committed aw_chains aw_durable aw_conn] in *. split_and!; [done|done|].
    destruct (advance_inv c _ d l Hc Hd) as [[l1 H1] _]. exists (l ++ l1). split; [done|]. intros a Ha. destruct (Hs a Ha) as (l' & ? & ? & ?).
    exists l'. split_and!; [set_solver|done|done].
  - clear Hgrow Hv. rewrite GetClientDurable_order5. cbn [aw_committed aw_chains aw_durable aw_conn] in *.
    set (x := client_count _ _). pose proof (observe_ack_order5 r x conn) as Ho. set (r' := r <| _ := _ |> <| _ := _ |>) in *. clearbody r'.
    assert (Hx : x = u64 (total_messages (of_client client l))) by apply (di_count _ _ _ _ Hd). split_and!; [done| |].
    + apply ack_turn_ok; [done|]. rewrite Ho, Hx. apply u64_range.
    + exists l. split; [done|]. intros a. destruct (ack_turn_cases cfg r' conn) as [[-> _]|(_ & _ & _ & _ & ->)]; [apply Hs|].
      intros [Ha| ->%list_elem_of_singleton]%elem_of_app; [by apply Hs|]. exists l. rewrite Ho. split_and!; [done|apply Hd|done].
Qed.

(** ** Theorems *)
Lemma source_ok b : 0 <= b < n -> 0 < R <= n.
Proof. unfold kMinReplicationFactorForAck2 in *. lia. Qed.
Lemma world_cinv evs b : 0 <= b < n -> cinv b R n index cxl (aw_chains (aw_run evs) b).
Proof.
  intros Hb. rewrite aw_run_chain. apply chain_run_cinv; [done|by eapply source_ok|done|by intros i Hi _; apply cumulative_pos|].
  intros i j Hij H1 H2. apply cumulative_grows; [done|congruence].
Qed.

(** C5. A count that was acknowledged to a client at level 2 is the number of messages
    of batches of that client that every replica of their chain has on disk,
    whatever the interleaving and whatever writes and syncs fail. *)
Theorem durable_ack_is_on_every_disk evs a : a ∈ sent (aw_conn (aw_run evs)) ->
  exists l, NoDup l /\ a = u64 (total_messages l) /\
    forall i, i ∈ l -> 0 <= i /\ u32 (goi_client_id (index i)) = client /\
      on_every_disk (owner i) R n index cxl (aw_chains (aw_run evs) (owner i)) i.
Proof.
  intros Ha. destruct (aw_run_inv evs) as (_ & _ & l & Hd & Hs). destruct (Hs a Ha) as (l' & Hsub & Hn & ->).
  exists (of_client client l'). split_and!; [by apply NoDup_filter|done|]. intros i [Hc Hi]%list_elem_of_filter. apply Hsub in Hi.
  apply (di_in _ _ _ _ Hd) in Hi as Hr. destruct (entry_ok i ltac:(lia)) as (_ & Ho & _). split_and!; [lia|done|].
  apply completed_on_disk; [done|by eapply source_ok|done|by intros j Hj _; apply cumulative_pos| |by apply world_cinv|lia|done|by apply (di_vec _ _ _ _ Hd)].
  intros j k Hjk H1 H2. apply cumulative_grows; [done|congruence].
Qed.
(** The counts sent on a connection grow. *)
Theorem durable_acks_increase evs : StronglySorted Z.lt (sent (aw_conn (aw_run evs))).
Proof. destruct (aw_run_inv evs) as (_ & [Hs _] & _). done. Qed.

Definition clean_event (e : aw_event) : Prop := match e with WChain _ a => clean a | _ => True end.
Lemma world_healthy evs b : 0 <= b < n -> Forall clean_event evs ->
  forall x r, replicas (aw_chains (aw_run evs) b) !! x = Some r -> healthy r.
Proof.
  intros Hb Hc. rewrite aw_run_chain. apply clean_run_healthy; [done|by eapply source_ok|done|by intros i Hi _; apply cumulative_pos| |].
  - intros i j Hij H1 H2. apply cumulative_grows; [done|congruence].
  - apply Forall_bind. eapply Forall_impl; [exact Hc|]. intros [|b' a| |r] He; unfold compose, acts_of; [by repeat constructor| |constructor|constructor].
    case_match; [constructor|]. case_match; by repeat constructor.
Qed.
(** C6. When no failure has happened and no thread of a chain can take a step, a pass
    over the vector credits a client with every message of its that is committed. *)
Theorem quiet_chains_credit_all_commits evs : let w := aw_run evs in
  Forall clean_event evs -> (forall b, 0 <= b < n -> stuck b R n index epoch cxl (aw_chains w b)) -> aw_committed w < U64_MAX ->
  client_count (per_client_durable (aw_durable (aw_step w WAdvance))) client =
  u64 (total_messages (of_client client (seqZ 0 (aw_committed w + 1)))).
Proof.
  intros w Hc Hst Hmax. destruct (aw_run_inv evs) as (Hcm & _ & l & Hd & _). fold w in Hcm, Hd.
  assert (aw_durable (aw_step w WAdvance) =
    MaybeAdvanceOrder5DurableFromCV t index (u64 (aw_committed w)) (fun b => cv_logical (aw_chains w b)) (aw_durable w)) as -> by (clearbody w; by destruct w).
  destruct (advance_inv _ _ _ l Hcm Hd) as [[l1 H1] H2]. rewrite (di_count _ _ _ _ H1). f_equal. apply total_messages_perm, filter_Permutation.
  apply NoDup_Permutation; [apply H1|apply NoDup_seqZ|]. intros i. rewrite (di_in _ _ _ _ H1), elem_of_seqZ.
  pose proof (di_cursor _ _ _ _ H1 (owner i)) as Hcur. split; [lia|]. intros Hi. split; [lia|]. destruct (entry_ok i ltac:(lia)) as (_ & Ho & _).
  destruct (H2 ltac:(lia) (owner i) ltac:(lia)) as [?|[Hx Hlt]]; [lia|]. set (x := cursor _ _) in *. destruct (Z.le_gt_cases x (aw_committed w)); [|lia].
  destruct (stuck_complete (owner i) R n index epoch cxl Ho ltac:(by eapply source_ok) entry_ok ltac:(by intros j Hj _; apply cumulative_pos)
    ltac:(intros j k Hjk E1 E2; apply cumulative_grows; [done|congruence]) (aw_chains w (owner i)) x) as [_ Hle].
  - by apply world_cinv.
  - by apply world_healthy.
  - by apply Hst.
  - unfold w. rewrite aw_run_committed. fold w. lia.
  - done.
  - cbv beta in Hlt. lia.
Qed.
End durable.

(** * An example: three brokers, two replicas, the batches of the client 7 *)
Definition demo_topic : AckTopic := mkAckTopic EMBARCADERO 5 2 false false.
Definition demo_config : AckConfig := mkAckConfig 0 2 0 1000 0 false.
Definition demo_reads : AckReads := mkReads None None 0 0 0 0 None None 0 0 0 0 false 0 0 0 true true.
#[local] Abbreviation demo_run := (aw_run 2 3 demo_index 0 demo_cxl demo_topic (fun _ => 0) 7 demo_config).
(** The chain of broker 1 completes entry 1, then that of broker 0 entry 0; the
    chain of broker 2 has nothing to write. *)
Definition demo_chain (src b1 b2 : Z) : list aw_event :=
  WChain src <$> replicate_one b1 ++ replicate_one b2 ++ [AToken b1; AToken b2].
Definition demo_events : list aw_event :=
  [WCommit; WCommit] ++ demo_chain 1 1 2 ++ [WAdvance; WAck demo_reads] ++ demo_chain 0 0 1 ++ [WAdvance; WAck demo_reads] ++ demo_chain 2 2 0.
Lemma demo_growth i j : 0 <= i < j -> goi_broker_id (demo_index i) = goi_broker_id (demo_index j) ->
  goi_cumulative_message_count (demo_index i) < goi_cumulative_message_count (demo_index j).
Proof. cbn. lia. Qed.
Lemma demo_positive i : 0 <= i -> 0 < goi_cumulative_message_count (demo_index i).
Proof. cbn. lia. Qed.
Lemma demo_brokers : 3 <= NUM_MAX_BROKERS.
Proof. by vm_compute. Qed.
Lemma demo_two_replicas : kMinReplicationFactorForAck2 <= 2 <= 3.
Proof. by vm_compute. Qed.

Lemma durable_ack_is_on_every_disk_witness :
  sent (aw_conn (demo_run demo_events)) = [1; 2] /\
  exists l, NoDup l /\ 2 = u64 (total_messages demo_index l) /\
    forall i, i ∈ l -> 0 <= i /\ u32 (goi_client_id (demo_index i)) = 7 /\
      on_every_disk (goi_broker_id (demo_index i)) 2 3 demo_index demo_cxl (aw_chains (demo_run demo_events) (goi_broker_id (demo_index i))) i.
Proof.
  assert (Hs : sent (aw_conn (demo_run demo_events)) = [1; 2]) by (vm_compute; reflexivity). split; [exact Hs|].
  apply (durable_ack_is_on_every_disk 2 3 demo_index 0 demo_cxl demo_topic (fun _ => 0) 7 demo_config demo_brokers demo_two_replicas demo_entry_ok
    demo_positive demo_growth (conj eq_refl eq_refl) (conj eq_refl eq_refl) demo_events 2).
  rewrite Hs. right. left.
Defined.

Lemma demo_chains_stuck b : 0 <= b < 3 -> stuck b 2 3 demo_index 0 demo_cxl (aw_chains (demo_run demo_events) b).
Proof.
  intros Hb. assert (b = 0 \/ b = 1 \/ b = 2) as [->|[->| ->]] by lia; rewrite aw_run_chain.
  - stuck_by_evaluation (chain_run 0 2 3 demo_index 0 demo_cxl (demo_events ≫= acts_of 0)) 0 1.
  - stuck_by_evaluation (chain_run 1 2 3 demo_index 0 demo_cxl (demo_events ≫= acts_of 1)) 1 2.
  - stuck_by_evaluation (chain_run 2 2 3 demo_index 0 demo_cxl (demo_events ≫= acts_of 2)) 2 0.
Qed.
Lemma quiet_chains_credit_all_commits_witness :
  client_count (per_client_durable (aw_durable (aw_step 2 3 demo_index 0 demo_cxl demo_topic (fun _ => 0) 7 demo_config (demo_run demo_events) WAdvance))) 7 = 2.
Proof.
  rewrite (quiet_chains_credit_all_commits 2 3 demo_index 0 demo_cxl demo_topic (fun _ => 0) 7 demo_config demo_brokers demo_two_replicas demo_entry_ok
    demo_positive demo_growth (conj eq_refl eq_refl) (conj eq_refl eq_refl) demo_events).
  - vm_compute. reflexivity.
  - repeat constructor.
  - exact demo_chains_stuck.
  - vm_compute. reflexivity.
Defined.
